(* ===== verification/_CoqProject ===== *)
-Q . S2P
Prelude.v
Float64.v
Candle.v
RingBuffer.v
Spsc.v
Text.v
Cold.v
Parquet.v
Store.v
StoreSpec.v
StoreCold.v
StoreConc.v
StoreConcInv.v
StoreConcSafe.v
StoreConcLive.v
StoreConcCount.v
StoreWorkers.v
StoreRaces.v
Feed.v
Hw.v
Affinity.v
CacheLadder.v
Orders.v
Book.v
Portfolio.v
Paper.v
PaperTrade.v
Shm.v
Layout.v
ShmDemo.v
Transfer.v
Signals.v
Ffi.v
GoClient.v
Feeder.v
Sma.v
Hub.v
HubSys.v
HubLive.v
FeederSys.v
System.v
UnitCore.v
UnitStore.v
UnitTrading.v
UnitThreads.v
