(* ===== verification/Prelude.v ===== *)
(** * candlestore, verified

    candlestore is a trading kernel in Rust: market data comes in as OHLCV
    candles, is kept in RAM with a cold tier on disk, and drives a strategy
    whose signals are executed on paper.  This library models it and proves
    what makes each part correct.  Source paths below are relative to the
    repository root.

    ** The program and its model

    - [src/src/candle.rs]: the candle record; [Candle.v].
    - [src/src/ring_buffer.rs]: the fixed-capacity ring of one symbol, with
      binary-search queries; [RingBuffer.v].
    - [src/src/store.rs]: the store of rings, at most [max_symbols] of them,
      which evicts the least recently used symbol to disk; [Store.v] is the
      code, [StoreSpec.v] the LRU cache it refines and the counters,
      [StoreCold.v] what survives eviction and how hot and cold data merge.
      [StoreConc.v] runs the same calls on any number of threads, one step per
      access to a lock, an atomic, the table or the disk, with the entries as
      shared cells that outlive their removal; [StoreConcInv.v] is the lock
      and flag protocol, [StoreConcSafe.v], [StoreConcLive.v] and
      [StoreConcCount.v] what follows from it, [StoreWorkers.v] what a crew of
      threads that append in loops leaves behind, [StoreRaces.v] the programs
      of the tests that race appends against evictions and counter snapshots.
      [range], [last_n] and the two append calls are the interface of every
      other part.
    - [src/src/parquet.rs]: the cold tier; [Cold.v] is the interface the
      store is proved against ([spill], [query_cold] and their laws, and what
      they promise of the candles on file), [Parquet.v] the implementation and
      the instances that discharge it.
    - [src/src/shm.rs]: the in-process single-producer single-consumer ring
      ([Spsc.v], sequentially and as a two-thread step relation), its
      shared-memory version with set-up, tear-down and handshake, and the
      ingester thread that moves candles from it into the store ([Shm.v]).
      [Layout.v] is the [repr(C)] layout of the segment and of the records in
      it; [Transfer.v] a sending and a receiving thread over an interface both
      rings implement, with the example pair [shm_writer]/[shm_reader].
    - [src/src/matching/]: order types and events ([Orders.v]), the order book
      ([Book.v]), the portfolio ([Portfolio.v]) and the paper engine that
      joins them ([Paper.v]).
    - [src/src/signal.rs]: the 64-byte signal record; [Signals.v].
    - [src/src/hw.rs]: cache detection of each target and sizing; [Hw.v], with
      [CandleStore::from_hardware].
    - [src/src/affinity.rs]: core pinning; [Affinity.v].
    - [src/src/feed.rs]: the Binance feed, sessions and reconnects; [Feed.v].
    - [src/src/ffi.rs]: the C interface; [Ffi.v].  The Go client on top of
      it: [GoClient.v].
    - [src/src/bin/feed_handler.rs]: the candle generator's loop ([Feeder.v])
      and the whole process with its poller, its ring, a consumer and the
      signals that stop it ([FeederSys.v]).
    - [src/src/bin/market_hub.rs]: the rolling average ([Sma.v]), the strategy
      loop, the executor with its risk gates and rate limiter, and the
      position file ([Hub.v]); configuration, metrics and the five threads of
      the process under any schedule ([HubSys.v]), and its shutdown
      ([HubLive.v]).
    - Both processes over their one shared segment: [System.v].
    - [src/examples/]: the paper-trading strategy ([PaperTrade.v]), the
      ingestion and latency demos ([ShmDemo.v]), the contending appenders
      ([StoreWorkers.v]) and the pointer chase ([CacheLadder.v]).
    - The unit tests inside the modules of [src/src/] are replayed on the
      model: [UnitCore.v], [UnitStore.v], [UnitTrading.v], and those that
      start threads for every schedule: [UnitThreads.v], [StoreWorkers.v],
      [StoreRaces.v].

    [Prelude.v] (this file) holds machine integers, results, panics,
    automation and list lemmas; [Float64.v] binary64 arithmetic on the
    Standard Library's [SpecFloat] with the order and rounding lemmas used;
    [Text.v] the string operations of the standard library of Rust.

    ** How code becomes definitions

    A struct is a [Record], an enum an [Inductive], a function a [Definition]
    or [Fixpoint] of the same name taking and returning the state it changes.
    [panics A] is [option A], [None] being a panic (index out of bounds, a
    failed [assert] or [expect]); a Rust [Result] is [result].  [u64], [usize]
    and [i64] are [Z] with their wrap-around or saturation written out where
    the code can reach it; [f64] is [spec_float] at 53 bits and exponent
    1024, so rounding, NaN and infinities are those of the hardware.  A
    [HashMap] is a [gmap] or, where the iteration order can matter, a list; a
    [BTreeMap] of price levels is a key-ordered list.

    What the environment decides is an argument: clock readings, system-call
    failures, the polls of a spinning loop, sysfs contents.  Third-party code
    is a type class with laws: the Arrow/Parquet encoding ([Parquet.Codec]),
    the decimal text of [f64] ([Text.F64Text]), Unicode case mapping and JSON
    decoding in the feed ([Feed.CaseMap], [Feed.Feed.JsonDecode]) and
    [CPU_SET] ([Affinity.CpuSet]); each has a concrete instance on which the
    theorems are evaluated.

    Concurrency is a step function on a shared state and the threads' program
    points, run over a schedule: the list of events that says which thread
    moves next and what it meets.  Theorems hold for every schedule.  Memory
    is sequentially consistent, except that the cursors of the rings may be
    read late ([Spsc.SpscConc], [Transfer.Threads]).  Liveness is stated with a
    measure or with fair rounds (each gives every thread a step).

    Fuel: [Book.fill_loop] and [Book.match_loop] get one step per resting
    order and per level, which [book_stays_well_formed] shows to be enough;
    [Store.try_insert_new] recurses only when a concurrent eviction removed
    the entry, which one caller alone never meets, so fuel 1 is enough and
    the theorems hold for any; [Parquet.free_name] gets the number of files
    plus two.  Spinning loops ([push_until], [wait_for_change], the
    strategy's delivery, the reader's handshake) run over the answers of
    their polls and report when these end before the loop does.  The binary
    searches are defined by well-founded recursion.

    Bounds: event counts stay below [u64::MAX] where a counter is compared
    with a number of events.  The hub stops within 2100 fair rounds, two for
    each of the 1024 slots of the signal bus the executor drains and the rest
    for the other threads; the feed handler within 10.  A transfer over a ring
    is complete after six fair rounds per item.  The Go client doubles its
    buffer until the answer fits; 25 tries are enough, 24 doublings taking one
    element past its limit of ten million.
    The bound on the steps
    of the concurrent store is computed from the calls in progress
    ([StoreConcLive.measure]).

    ** What is proved

    - Store: refinement of an LRU cache for every run, with the exact result
      of every append; failed spills change no candle; nothing accepted is
      lost on the way to disk; [range] merges exactly on in-order data;
      counters count.
    - Store, concurrently: for each symbol that received no more than a ring
      holds, no interleaving of appends, evictions, failed spills and queries
      loses a candle of it (it is in the ring or, with its values, in a file)
      or makes a query of an in-order ring miss one or return one that was
      never stored; none deadlocks or
      retries for ever, or lets [snapshot] over-count; a candle appended in
      the window between an eviction's flag and its spill is kept; appending
      threads end in the same counts under every schedule.
    - Rings: the candle ring keeps exactly the newest candles and its
      searches equal a filter; the SPSC ring is a FIFO sequentially (across
      cursor wrap-around), under every interleaving, and without data races;
      the shared-memory ring is the same queue inside its mapping, its set-up
      leaks nothing, a cancelled push loses nothing; two threads deliver a
      sequence of items over either ring in order, and under a fair schedule
      completely; the fields of the segment lie at the offsets the code
      asserts, the cursors on cache lines of their own; the pipeline into the store neither
      drops, duplicates nor reorders.
    - Cold tier: spills never clobber and read back; queries are sorted and
      windowed, and exact after a spill in time order; the schema gate.
    - Trading: for orders as the constructors build them the book stays well
      formed and every submission has one of its documented outcomes, in
      price-time priority and within the order's own limit; the paper engine
      fills exactly what a candle reaches, at the better of limit and open;
      the portfolio's cost basis.
    - Hub: over any run signals are exactly the crossings of the averages of
      the candles taken in; each signal is executed within the gates or
      refused without any other change; rate limit; the position survives
      restarts and the death of the process; the rolling average is the plain
      one wherever sums need no rounding; through every schedule the executor
      takes the signals in order, and a shutdown in which no join times out
      completes.
    - Edges: the C interface never panics across the boundary nor writes past
      the buffer; the Go client returns every candle of a range, up to its
      documented limit, however often it has to grow its buffer; the feed handler's stream reaches its consumer in order with
      increasing timestamps, and stopping it unlinks the ring; the Binance
      feed delivers every closed kline across reconnects; hardware sizing is
      in range; the hub's hot threads get distinct cores.
    - The system: a run of the two processes is a run of each against the
      environment its own theorems assume, so what the generator delivers is
      what the hub's store holds and answers from, and both stop when
      signalled.
    - Examples: the crossover strategy ends flat with alternating honest
      trades; the ingestion demo counts what was drained; the wake-up demo
      finishes only if no two appends coalesce; the latency statistics are
      order statistics of the samples; the unchecked chase stays in bounds.
    - Conformance: the deterministic unit tests of the source, with the
      exceptions named below, pass on the model, assertion by assertion
      ([passes]).

    ** What is not modelled

    Weak memory (apart from the late cursor reads above); failed allocations
    and overflow of sizes the configuration sets absurdly high (an [SMA_LONG]
    near [usize::MAX]); power failures (the position file is not synced); the
    set-up of
    tracing and of the Prometheus exporter, the metric descriptions and the
    log lines of the two binaries, which are calls into third-party crates
    that change none of the state above; wall-clock durations (a time-out is
    an event that may come at any moment); the benches, the integration tests
    in [src/tests/], the examples that only time or print calls
    ([binance_feed], [hw_probe]), the C header and the Go demo program, which
    call the library.  Of the unit tests, these are not replayed: the one that
    writes one symbol while another is being read
    ([concurrent_reads_dont_block_writes_on_other_symbol]), the smoke test of
    200,000 pushes, and the two of the text parser of [f64], a parameter; the
    thousand rounds of the rolling average test are cut to the first
    hundred. *)

From stdpp Require Export base option list gmap strings fin_maps.
From Stdlib Require Export ZArith Lia Sorted.

(** ** Rust results and panics *)

(** A Rust [Result<A, E>]. *)
Inductive result (A E : Type) : Type :=
| Ok (a : A)
| Err (e : E).
Arguments Ok {A E} a.
Arguments Err {A E} e.

(** A computation that may panic (index out of bounds, failed assertion,
    [expect] on an error): [None] is the panic. *)
Abbreviation panics := option.

(** [assert!]; a test passes when it runs to its end. *)
Definition assert (b : bool) : panics unit := if b then Some tt else None.
Definition assert_all {A} (p : A -> bool) (l : list A) : panics unit := assert (forallb p l).
Definition passes (test : panics unit) : Prop := test = Some tt.

Lemma suite_passes (suite : list (panics unit)) :
  forallb (fun test => match test with Some _ => true | None => false end) suite = true -> Forall passes suite.
Proof.
  rewrite forallb_forall, List.Forall_forall. intros H x Hx. specialize (H x Hx). by destruct x as [[]|].
Qed.

(** ** 64-bit machine integers

    A [u64] / [usize] is a [Z] in [0, 2^64); an [i64] is a [Z] in
    [-2^63, 2^63).  The wrap-around of each operation is written out. *)
Definition u64_modulus : Z := 2 ^ 64.
Definition u64_max : Z := u64_modulus - 1.
Definition i64_min : Z := - 2 ^ 63.
Definition i64_max : Z := 2 ^ 63 - 1.
Definition u64_wrap (z : Z) : Z := z mod u64_modulus.
Definition u64_wrapping_add (a b : Z) : Z := u64_wrap (a + b).
Definition u64_wrapping_sub (a b : Z) : Z := u64_wrap (a - b).
Definition u64_wrapping_mul (a b : Z) : Z := u64_wrap (a * b).
Definition u64_saturating_sub (a b : Z) : Z := Z.max 0 (a - b).
Definition i64_saturating_add (a b : Z) : Z := Z.max i64_min (Z.min i64_max (a + b)).
Definition is_u64 (z : Z) : Prop := (0 <= z < u64_modulus)%Z.
Definition is_i64 (z : Z) : Prop := (i64_min <= z <= i64_max)%Z.

(** [AtomicU64::fetch_add(1, _)]: the counter's next value. *)
Definition fetch_add1 (c : Z) : Z := u64_wrapping_add c 1.

Lemma fetch_add1_small c : (0 <= c < u64_max -> fetch_add1 c = c + 1)%Z.
Proof. intros H. unfold fetch_add1, u64_wrapping_add, u64_wrap. apply Z.mod_small. unfold u64_max in H. lia. Qed.

(** ** Automation

    [bool_hyps] takes boolean hypotheses apart ([&&] that is true, [||] that is
    false, negations), [counters] solves goals on event counters that stay
    below their width, and the database [u64] holds the rewrites it uses. *)
Create Rewrite HintDb u64.
#[export] Hint Rewrite fetch_add1_small using lia : u64.

Ltac bool_hyps :=
  repeat match goal with
  | H : (_ && _)%bool = true |- _ => apply andb_true_iff in H as [? ?]
  | H : (_ || _)%bool = false |- _ => apply orb_false_iff in H as [? ?]
  | H : negb _ = false |- _ => apply negb_false_iff in H
  | H : negb _ = true |- _ => apply negb_true_iff in H
  end.

Ltac counters := autorewrite with u64 in *; lia.

(** ** Lists *)

(** The last [n] elements of [l] (all of them when [n] exceeds the length). *)
Definition lastn {A} (n : nat) (l : list A) : list A := drop (length l - n) l.

Lemma lastn_all {A} n (l : list A) : (length l <= n)%nat -> lastn n l = l.
Proof. intros H. unfold lastn. by replace (length l - n)%nat with 0%nat by lia. Qed.

Lemma length_lastn {A} n (l : list A) : length (lastn n l) = (n `min` length l)%nat.
Proof. unfold lastn. rewrite length_drop. lia. Qed.

Lemma lastn_app_lastn {A} n (l k : list A) : lastn n (lastn n l ++ k) = lastn n (l ++ k).
Proof.
  unfold lastn. rewrite !length_app, length_drop, !skipn_app, drop_drop, !length_drop.
  f_equal; f_equal; lia.
Qed.

Lemma last_lastn {A} n (l : list A) : (0 < n)%nat -> last (lastn n l) = last l.
Proof.
  intros H. unfold lastn. destruct l as [|x l] using rev_ind; [done|].
  rewrite length_app. simpl. rewrite drop_app_le by lia. by rewrite !last_snoc.
Qed.

(** Overwriting position [h] of a full ring and rotating to the next head
    drops the oldest element and appends the new one. *)
Lemma rotate_insert {A} (b : list A) h x :
  (h < length b)%nat ->
  let b' := <[h := x]> b in
  let h' := ((h + 1) mod length b')%nat in
  drop h' b' ++ take h' b' = drop (S h) b ++ take h b ++ [x].
Proof.
  intros Hh b' h'. assert (Hb' : b' = take h b ++ x :: drop (S h) b) by (by apply insert_take_drop).
  assert (Ht : length (take h b) = h) by (rewrite length_take; lia).
  unfold h'. assert (length b' = length b) as -> by apply length_insert.
  destruct (decide (h + 1 = length b)%nat) as [E|E].
  - rewrite E, Nat.Div0.mod_same, drop_0, take_0, app_nil_r, Hb', (drop_ge b (S h)) by lia. done.
  - rewrite Nat.mod_small by lia. rewrite Hb'.
    change (x :: drop (S h) b) with ([x] ++ drop (S h) b). rewrite app_assoc.
    rewrite drop_app_length' by (rewrite length_app; simpl; lia).
    rewrite take_app_length' by (rewrite length_app; simpl; lia). done.
Qed.

Lemma filter_keep {A} (P : A -> Prop) `{!forall x, Decision (P x)} (l : list A) :
  Forall P l -> filter P l = l.
Proof. induction 1; [done|]. rewrite filter_cons_True by done. by f_equal. Qed.

Lemma filter_drop_all {A} (P : A -> Prop) `{!forall x, Decision (P x)} (l : list A) :
  Forall (fun x => ~ P x) l -> filter P l = [].
Proof. induction 1; [done|]. by rewrite filter_cons_False. Qed.

(** A predicate that holds exactly on the positions [lo, hi) selects that
    slice. *)
Lemma filter_slice {A} (P : A -> Prop) `{!forall x, Decision (P x)} (l : list A) lo hi :
  (lo <= hi <= length l)%nat ->
  (forall i x, l !! i = Some x -> P x <-> (lo <= i < hi)%nat) ->
  filter P l = take (hi - lo) (drop lo l).
Proof.
  intros Hb Hp.
  assert (E : l = take lo l ++ take (hi - lo) (drop lo l) ++ drop hi l).
  { rewrite <- (take_drop lo l) at 1. f_equal. rewrite <- (take_drop (hi - lo) (drop lo l)) at 1.
    f_equal. rewrite drop_drop. f_equal. lia. }
  rewrite E at 1. rewrite !filter_app.
  rewrite (filter_drop_all P (take lo l)), (filter_keep P (take _ _)), (filter_drop_all P (drop hi l)).
  - by rewrite app_nil_r.
  - apply Forall_lookup. intros i x. rewrite lookup_drop. intros Hx. rewrite (Hp _ _ Hx). lia.
  - apply Forall_lookup. intros i x Hx. apply lookup_take_Some in Hx as [Hx Hi].
    rewrite lookup_drop in Hx. apply (Hp _ _ Hx). lia.
  - apply Forall_lookup. intros i x Hx. apply lookup_take_Some in Hx as [Hx Hi].
    rewrite (Hp _ _ Hx). lia.
Qed.

Lemma Forall_filter_sub {A} (Q P : A -> Prop) `{!forall x, Decision (P x)} (l : list A) :
  Forall Q l -> Forall Q (filter P l).
Proof. rewrite !Forall_forall. intros HQ x [_ Hx]%list_elem_of_filter. auto. Qed.

(** Replacing one of the lists that are concatenated. *)
Lemma concat_update {A} (f g : nat -> list A) n t x :
  (t < n)%nat -> (forall u, u <> t -> g u = f u) -> f t ≡ₚ x ++ g t -> concat (f <$> seq 0 n) ≡ₚ x ++ concat (g <$> seq 0 n).
Proof.
  intros Ht Hg Hx. replace n with (t + S (n - S t))%nat by lia. rewrite seq_app, !fmap_app, !concat_app. cbn [seq fmap list_fmap concat Nat.add].
  assert (He : forall l, Forall (fun u => u <> t) l -> g <$> l = f <$> l).
  { intros l Hl. apply list_fmap_ext. intros i u Hu. apply Hg. exact (proj1 (Forall_lookup _ _) Hl _ _ Hu). }
  rewrite !He, Hx; [|apply Forall_forall; intros u Hu%elem_of_seq; lia..]. by rewrite <- !app_assoc, Permutation_app_swap_app.
Qed.

(** ** Sorted lists *)

Lemma sorted_filter {A} (R : A -> A -> Prop) (P : A -> Prop) `{!forall x, Decision (P x)} l :
  StronglySorted R l -> StronglySorted R (filter P l).
Proof.
  induction 1 as [|x l Hs IH Hx]; [constructor|]. rewrite filter_cons. case_decide; [|done].
  constructor; [done|]. by apply Forall_filter_sub.
Qed.

Lemma sorted_take {A} (R : A -> A -> Prop) n l : StronglySorted R l -> StronglySorted R (take n l).
Proof.
  intros H. revert n. induction H as [|x l Hs IH Hx]; intros [|n]; try constructor; [apply IH|]. by apply Forall_take.
Qed.

Lemma sorted_snoc {A} (R : A -> A -> Prop) l x :
  StronglySorted R l -> Forall (fun y => R y x) l -> StronglySorted R (l ++ [x]).
Proof.
  induction 1 as [|y l Hs IH Hy]; intros Hx; simpl; [repeat constructor|].
  apply Forall_cons in Hx as [Hx1 Hx2]. constructor; [auto|]. apply Forall_app; auto.
Qed.

Lemma sorted_sublist {A} (R : A -> A -> Prop) l k : k `sublist_of` l -> StronglySorted R l -> StronglySorted R k.
Proof.
  induction 1 as [|x k l Hk IH|x k l Hk IH]; intros Hs; [done|..]; apply StronglySorted_inv in Hs as [Hs Hx]; [|auto].
  constructor; [auto|]. rewrite Forall_forall in *. intros y Hy. by eapply Hx, elem_of_sublist.
Qed.
