(* ===== verification/Float64.v ===== *)
(** * IEEE-754 binary64 values ([f64])

    The prices, quantities and positions of the program are Rust [f64]s.
    They are modelled by the standard library's executable specification of
    binary floating point ([SpecFloat]) at precision 53 and maximal exponent
    1024: every operation rounds to nearest-even exactly as the hardware
    does, overflows to infinity and produces NaN where Rust does.  Only the
    sign and payload of a NaN are not represented; no code of the program
    looks at them.

    The second half of the file gives a finite float an exact integer value
    ([fval], in units of 2^-1074, the smallest positive float) and proves the
    facts the matching engine relies on: the comparison order of finite
    floats is the order of their values, [x - x] is zero, and [a - b] with
    [0 <= b <= a] is finite, non-negative and never above [a], whatever the
    rounding. *)

From S2P Require Import Prelude.
From Stdlib Require Export SpecFloat.

Create HintDb f64.

#[local] Open Scope Z_scope.

Abbreviation f64 := spec_float.
Definition f64_prec : Z := 53.
Definition f64_emax : Z := 1024.

(** ** Arithmetic and comparisons *)

Definition f_add : f64 -> f64 -> f64 := SFadd f64_prec f64_emax.
Definition f_sub : f64 -> f64 -> f64 := SFsub f64_prec f64_emax.
Definition f_mul : f64 -> f64 -> f64 := SFmul f64_prec f64_emax.
Definition f_div : f64 -> f64 -> f64 := SFdiv f64_prec f64_emax.
Definition f_neg : f64 -> f64 := SFopp.
Definition f_abs : f64 -> f64 := SFabs.

(** IEEE comparisons: all of them are false on a NaN operand. *)
Definition f_le (x y : f64) : bool := SFleb x y.
Definition f_lt (x y : f64) : bool := SFltb x y.
Definition f_eq (x y : f64) : bool := SFeqb x y.

Definition f_is_nan (x : f64) : bool :=
  match x with S754_nan => true | _ => false end.

(** [f64::is_finite]: neither NaN nor an infinity. *)
Definition f_is_finite (x : f64) : bool :=
  match x with S754_zero _ | S754_finite _ _ _ => true | _ => false end.

(** [f64::min] / [f64::max]: a NaN operand is ignored.  On operands that
    compare equal Rust may return either of the two; the model returns the
    first. *)
Definition f_min (x y : f64) : f64 :=
  if f_is_nan x then y else if f_is_nan y then x else if f_lt y x then y else x.
Definition f_max (x y : f64) : f64 :=
  if f_is_nan x then y else if f_is_nan y then x else if f_lt x y then y else x.

Declare Scope f64_scope.
Delimit Scope f64_scope with f64.
Infix "+" := f_add : f64_scope.
Infix "-" := f_sub : f64_scope.
Infix "*" := f_mul : f64_scope.
Infix "/" := f_div : f64_scope.
Notation "- x" := (f_neg x) : f64_scope.
Infix "<=?" := f_le (at level 70, no associativity) : f64_scope.
Infix "<?" := f_lt (at level 70, no associativity) : f64_scope.
Notation "x >=? y" := (f_le y x) (at level 70, no associativity, only parsing) : f64_scope.
Notation "x >? y" := (f_lt y x) (at level 70, no associativity, only parsing) : f64_scope.

(** ** Conversions *)

(** [n as f64] for an integer [n]: rounds to nearest-even. *)
Definition f_of_Z (n : Z) : f64 := binary_normalize f64_prec f64_emax n 0 false.

(** The decimal literal [n / d]: exact operands and one correct rounding, so
    the value the compiler gives to the literal. *)
Definition f_lit (n d : Z) : f64 := f_div (f_of_Z n) (f_of_Z d).

Definition f_zero : f64 := S754_zero false.
Definition f_one : f64 := f_of_Z 1.
Definition f_nan : f64 := S754_nan.
Definition f_inf : f64 := S754_infinity false.

(** The integer part of a finite magnitude [m * 2^e] and whether the
    discarded fraction is zero, or at least one half. *)
Definition f_trunc_mag (m : positive) (e : Z) : Z := Z.shiftl (Zpos m) e.
Definition f_frac_is_zero (m : positive) (e : Z) : bool :=
  (0 <=? e) || (Z.land (Zpos m) (Z.ones (- e)) =? 0).
Definition f_frac_ge_half (m : positive) (e : Z) : bool :=
  (e <? 0) && Z.testbit (Zpos m) (- e - 1).

(** [f64::round]: half away from zero. *)
Definition f_round (x : f64) : f64 :=
  match x with
  | S754_finite s m e =>
      let t := f_trunc_mag m e + (if f_frac_ge_half m e then 1 else 0) in
      binary_normalize f64_prec f64_emax (if s then - t else t) 0 s
  | _ => x
  end.

(** [f64::ceil]. *)
Definition f_ceil (x : f64) : f64 :=
  match x with
  | S754_finite true m e => binary_normalize f64_prec f64_emax (- f_trunc_mag m e) 0 true
  | S754_finite false m e =>
      binary_normalize f64_prec f64_emax
        (f_trunc_mag m e + (if f_frac_is_zero m e then 0 else 1)) 0 false
  | _ => x
  end.

(** [x as u64] (and [as usize]): truncation that saturates; NaN gives 0. *)
Definition f_to_u64 (x : f64) : Z :=
  match x with
  | S754_nan | S754_zero _ | S754_infinity true | S754_finite true _ _ => 0
  | S754_infinity false => u64_max
  | S754_finite false m e => Z.min u64_max (f_trunc_mag m e)
  end.

Lemma f_to_u64_bounds x : 0 <= f_to_u64 x <= u64_max.
Proof.
  assert (Hm : forall m e, 0 <= f_trunc_mag m e) by (intros; by apply Z.shiftl_nonneg).
  unfold f_to_u64. destruct x as [|[]| |[] m e]; try specialize (Hm m e); unfold u64_max, u64_modulus in *; lia.
Qed.

(** Iterator [sum::<f64>()]: a left fold (Rust's unit for [f64] sums is
    negative zero, which is neutral for every operand). *)
Definition f_sum (l : list f64) : f64 := fold_left f_add l (S754_zero true).

(** A float as Rust can hold it: mantissa and exponent are canonical. *)
Definition f_valid (x : f64) : Prop := valid_binary f64_prec f64_emax x = true.

(** ** The exact value of a finite float, in units of 2^-1074 *)

Definition f_emin : Z := -1074.

Definition fval (x : f64) : Z :=
  match x with
  | S754_finite s m e => (if s then -1 else 1) * (Zpos m * 2 ^ (e - f_emin))
  | _ => 0
  end.

(** ** The comparison order *)

(** Every non-NaN float has a key in a lexicographic order of [Z * Z * Z]
    which the comparison functions follow. *)
Definition fkey (x : f64) : Z * Z * Z :=
  match x with
  | S754_infinity true => (-2, 0, 0)
  | S754_finite true m e => (-1, - e, Zneg m)
  | S754_zero _ | S754_nan => (0, 0, 0)
  | S754_finite false m e => (1, e, Zpos m)
  | S754_infinity false => (2, 0, 0)
  end.

Definition key_le (a b : Z * Z * Z) : Prop :=
  let '(a1, a2, a3) := a in let '(b1, b2, b3) := b in
  a1 < b1 \/ (a1 = b1 /\ (a2 < b2 \/ (a2 = b2 /\ a3 <= b3))).

Lemma f_le_key x y :
  f_le x y = true <-> f_is_nan x = false /\ f_is_nan y = false /\ key_le (fkey x) (fkey y).
Proof.
  unfold f_le, SFleb, SFcompare, key_le, fkey.
  destruct x as [[]|[]| |[] m1 e1], y as [[]|[]| |[] m2 e2]; simpl; try intuition (lia || congruence).
  all: change (Pos.compare_cont Eq m1 m2) with (Pos.compare m1 m2).
  all: destruct (Z.compare_spec e1 e2); destruct (Pos.compare_spec m1 m2); simpl; intuition (lia || congruence).
Qed.

Lemma f_lt_not_le x y :
  f_is_nan x = false -> f_is_nan y = false -> f_lt x y = negb (f_le y x).
Proof.
  unfold f_le, f_lt, SFleb, SFltb, SFcompare.
  destruct x as [[]|[]| |[] m1 e1], y as [[]|[]| |[] m2 e2]; simpl; try congruence; intros _ _.
  all: change (Pos.compare_cont Eq m1 m2) with (Pos.compare m1 m2).
  all: change (Pos.compare_cont Eq m2 m1) with (Pos.compare m2 m1).
  all: rewrite (Z.compare_antisym e1 e2), (Pos.compare_antisym m1 m2).
  all: destruct (Z.compare e1 e2), (Pos.compare m1 m2); reflexivity.
Qed.

Lemma f_le_refl x : f_is_nan x = false -> f_le x x = true.
Proof. intros. apply f_le_key. destruct (fkey x) as [[? ?] ?]. simpl. intuition lia. Qed.

Lemma f_le_trans x y z : f_le x y = true -> f_le y z = true -> f_le x z = true.
Proof.
  rewrite !f_le_key. destruct (fkey x) as [[? ?] ?], (fkey y) as [[? ?] ?], (fkey z) as [[? ?] ?].
  simpl. intuition lia.
Qed.

Lemma f_le_total x y :
  f_is_nan x = false -> f_is_nan y = false -> f_le x y = true \/ f_le y x = true.
Proof.
  intros Hx Hy. rewrite !f_le_key.
  assert (key_le (fkey x) (fkey y) \/ key_le (fkey y) (fkey x)) by
    (destruct (fkey x) as [[? ?] ?], (fkey y) as [[? ?] ?]; simpl; lia).
  tauto.
Qed.

Lemma f_le_not_nan x y : f_le x y = true -> f_is_nan x = false /\ f_is_nan y = false.
Proof. rewrite f_le_key. tauto. Qed.

Lemma f_lt_not_nan x y : f_lt x y = true -> f_is_nan x = false /\ f_is_nan y = false.
Proof. destruct x, y; simpl; auto; discriminate. Qed.

Lemma f_lt_le x y : f_lt x y = true -> f_le x y = true.
Proof.
  intros H. destruct (f_lt_not_nan _ _ H). rewrite f_lt_not_le in H by done.
  destruct (f_le_total x y); [done..|]. by rewrite H2 in H.
Qed.

Lemma f_le_lt_trans x y z : f_le x y = true -> f_lt y z = true -> f_lt x z = true.
Proof.
  intros H1 H2. destruct (f_lt_not_nan _ _ H2), (f_le_not_nan _ _ H1).
  rewrite f_lt_not_le in * by done. apply negb_true_iff. apply negb_true_iff in H2.
  destruct (f_le z x) eqn:E; [|done]. by rewrite (f_le_trans _ _ _ E H1) in H2.
Qed.

Lemma f_finite_not_nan x : f_is_finite x = true -> f_is_nan x = false.
Proof. by destruct x. Qed.
#[export] Hint Resolve f_finite_not_nan : f64.

(** ** Digits, canonical mantissas and shifts *)

Lemma digits2_pos_bounds m :
  2 ^ (Zpos (digits2_pos m) - 1) <= Zpos m < 2 ^ Zpos (digits2_pos m).
Proof.
  induction m as [p IH|p IH|]; cbn [digits2_pos]; [| |simpl; lia].
  all: rewrite Pos2Z.inj_succ.
  all: replace (Z.succ (Zpos (digits2_pos p)) - 1) with (Z.succ (Zpos (digits2_pos p) - 1)) by lia.
  all: rewrite !Z.pow_succ_r by lia; lia.
Qed.

Lemma digits2_pos_le m k : 0 <= k -> Zpos m < 2 ^ k -> Zpos (digits2_pos m) <= k.
Proof.
  intros Hk Hm. pose proof (digits2_pos_bounds m) as [H _].
  apply Z.nlt_ge. intros Hlt.
  assert (2 ^ k <= 2 ^ (Zpos (digits2_pos m) - 1)) by (apply Z.pow_le_mono_r; lia). lia.
Qed.

Lemma digits2_pos_ge m k : 2 ^ (k - 1) <= Zpos m -> k <= Zpos (digits2_pos m).
Proof.
  intros Hm. pose proof (digits2_pos_bounds m) as [_ H].
  apply Z.nlt_ge. intros Hlt.
  assert (2 ^ Zpos (digits2_pos m) <= 2 ^ (k - 1)) by (apply Z.pow_le_mono_r; lia). lia.
Qed.

(** The canonical form of a float's mantissa and exponent. *)
Definition f_canonical (m : positive) (e : Z) : Prop :=
  f_emin <= e /\ Zpos m < 2 ^ 53 /\ (e = f_emin \/ 2 ^ 52 <= Zpos m).

Lemma f_fexp_eq x : fexp f64_prec f64_emax x = Z.max (x - 53) (-1074).
Proof. reflexivity. Qed.

Lemma f_canonical_mantissa m e :
  canonical_mantissa f64_prec f64_emax m e = true <-> f_canonical m e.
Proof.
  unfold canonical_mantissa, f_canonical. rewrite f_fexp_eq, Z.eqb_eq.
  pose proof (digits2_pos_bounds m) as [Hl Hu]. unfold f_emin. split.
  - intros H. assert (Zpos (digits2_pos m) <= 53) by lia. split; [lia|]. split.
    + eapply Z.lt_le_trans; [exact Hu|]. apply Z.pow_le_mono_r; lia.
    + destruct (Z.eq_dec e (-1074)); [by left|right].
      assert (E : Zpos (digits2_pos m) = 53) by lia. rewrite E in Hl. exact Hl.
  - intros (He & Hm & Hc). assert (Zpos (digits2_pos m) <= 53) by (apply digits2_pos_le; lia).
    destruct Hc as [->|Hc]; [lia|].
    assert (53 <= Zpos (digits2_pos m)) by (apply digits2_pos_ge; exact Hc). lia.
Qed.

Lemma f_valid_finite s m e :
  f_valid (S754_finite s m e) <-> f_canonical m e /\ e <= 971.
Proof.
  unfold f_valid, valid_binary, bounded. rewrite andb_true_iff, f_canonical_mantissa, Z.leb_le.
  reflexivity.
Qed.

(** What a right shift by [k] bits does to the triple (mantissa, round bit,
    sticky bit): the mantissa is divided, and both bits are clear exactly
    when nothing was discarded. *)
Definition shr_rel (k : Z) (a b : shr_record) : Prop :=
  shr_m b = shr_m a / 2 ^ k /\
  (shr_r b || shr_s b = false <-> shr_m a mod 2 ^ k = 0 /\ shr_r a || shr_s a = false).

Lemma shr_1_rel a : 0 <= shr_m a -> shr_rel 1 a (shr_1 a).
Proof.
  destruct a as [m r s]. unfold shr_rel. simpl shr_m. simpl shr_r. simpl shr_s.
  change (2 ^ 1) with 2. intros Hm.
  destruct m as [|[p|p|]|]; simpl; try lia.
  - split; [reflexivity|]. destruct r, s; simpl; intuition.
  - split; [apply Z.div_unique with 1; lia|].
    assert (Zpos p~1 mod 2 = 1) as -> by (symmetry; apply Z.mod_unique with (Zpos p); lia).
    destruct r, s; simpl; intuition lia.
  - split; [apply Z.div_unique with 0; lia|].
    assert (Zpos p~0 mod 2 = 0) as -> by (symmetry; apply Z.mod_unique with (Zpos p); lia).
    destruct r, s; simpl; intuition.
  - split; [reflexivity|]. change (1 mod 2) with 1. destruct r, s; simpl; intuition lia.
Qed.

Lemma shr_rel_trans k1 k2 a b c :
  0 <= k1 -> 0 <= k2 -> shr_rel k1 a b -> shr_rel k2 b c -> shr_rel (k1 + k2) a c.
Proof.
  intros H1 H2 [Hm1 Hb1] [Hm2 Hb2]. unfold shr_rel.
  assert (0 < 2 ^ k1) by (apply Z.pow_pos_nonneg; lia).
  assert (0 < 2 ^ k2) by (apply Z.pow_pos_nonneg; lia).
  rewrite Z.pow_add_r by lia. rewrite Z.rem_mul_r by lia. rewrite <- Z.div_div by lia.
  rewrite Hb2, Hb1, Hm2, Hm1. split; [done|].
  pose proof (Z.mod_pos_bound (shr_m a) (2 ^ k1)).
  pose proof (Z.mod_pos_bound (shr_m a / 2 ^ k1) (2 ^ k2)).
  split; [intros (-> & -> & ->); lia|intros [Hz ->]].
  split; [|split]; nia.
Qed.

Lemma iter_shr_rel p a :
  0 <= shr_m a -> 0 <= shr_m (iter_pos shr_1 p a) /\ shr_rel (Zpos p) a (iter_pos shr_1 p a).
Proof.
  revert a. induction p as [p IH|p IH|]; intros a Ha; cbn [iter_pos].
  - pose proof (shr_1_rel a Ha) as H1.
    assert (0 <= shr_m (shr_1 a)) as Hp by (destruct H1 as [-> _]; apply Z.div_pos; lia).
    destruct (IH _ Hp) as [Hp2 H2]. destruct (IH _ Hp2) as [Hp3 H3]. split; [done|].
    replace (Zpos p~1) with (1 + (Zpos p + Zpos p)) by lia.
    eapply shr_rel_trans; [lia..|exact H1|]. eapply shr_rel_trans; [lia..|exact H2|exact H3].
  - destruct (IH _ Ha) as [Hp2 H2]. destruct (IH _ Hp2) as [Hp3 H3]. split; [done|].
    replace (Zpos p~0) with (Zpos p + Zpos p) by lia.
    eapply shr_rel_trans; [lia..|exact H2|exact H3].
  - pose proof (shr_1_rel a Ha) as H1. split; [|done].
    destruct H1 as [-> _]. apply Z.div_pos; lia.
Qed.

Lemma shr_spec m e l n :
  0 <= m -> 0 <= n ->
  exists mrs, shr (shr_record_of_loc m l) e n = (mrs, e + n) /\
    shr_m mrs = m / 2 ^ n /\
    (l = loc_Exact -> loc_of_shr_record mrs = loc_Exact <-> m mod 2 ^ n = 0).
Proof.
  intros Hm Hn. destruct n as [|p|p]; [| |lia].
  - exists (shr_record_of_loc m l). simpl. rewrite Z.add_0_r, Z.mod_1_r, Z.div_1_r.
    split; [done|]. split; [by destruct l as [|[]]|]. intros ->. done.
  - simpl. eexists. split; [reflexivity|].
    destruct (iter_shr_rel p (shr_record_of_loc m l)) as [_ [H1 H2]]; [by destruct l as [|[]]|].
    assert (shr_m (shr_record_of_loc m l) = m) as Hs by (by destruct l as [|[]]).
    rewrite Hs in *. split; [done|]. intros ->. simpl in H2.
    destruct (iter_pos shr_1 p _) as [m' [] []]; simpl in *; intuition congruence.
Qed.

(** ** Rounding *)

Definition f_signed (s : bool) (x : f64) : Prop :=
  match x with
  | S754_zero s' | S754_infinity s' | S754_finite s' _ _ => s' = s
  | S754_nan => False
  end.

Lemma round_nearest_even_bounds m l :
  m <= round_nearest_even m l <= m + 1 /\ (l = loc_Exact -> round_nearest_even m l = m).
Proof. destruct l as [|[]]; simpl; try (destruct (Z.even m)); split; intros; try congruence; lia. Qed.

Lemma shr_nonneg m e l n : 0 <= m -> 0 <= shr_m (fst (shr (shr_record_of_loc m l) e n)).
Proof.
  intros Hm. destruct n as [|p|p]; simpl; try (by destruct l as [|[]]).
  apply iter_shr_rel. by destruct l as [|[]].
Qed.

Lemma binary_round_aux_signed s m e l :
  0 <= m -> f_signed s (binary_round_aux f64_prec f64_emax s m e l).
Proof.
  intros Hm. unfold binary_round_aux, shr_fexp.
  match goal with |- context [shr (shr_record_of_loc m l) ?e ?n] =>
    pose proof (shr_nonneg m e l n Hm) as H1; destruct (shr (shr_record_of_loc m l) e n) as [mrs1 e1] end.
  simpl in H1. pose proof (round_nearest_even_bounds (shr_m mrs1) (loc_of_shr_record mrs1)) as [H2 _].
  set (m1 := round_nearest_even _ _) in *.
  match goal with |- context [shr (shr_record_of_loc m1 ?l) ?e ?n] =>
    assert (H3 : 0 <= shr_m (fst (shr (shr_record_of_loc m1 l) e n))) by (apply shr_nonneg; lia);
    destruct (shr (shr_record_of_loc m1 l) e n) as [mrs2 e2] end.
  simpl in H3. destruct (shr_m mrs2) as [|p|p]; [done| |lia]. by destruct (e2 <=? _).
Qed.

(** The shape of a rounding of the positive value [m * 2^e]: a canonical
    mantissa whose value is the quotient of [m] by the discarded power of
    two, plus at most one, and exactly the quotient when nothing is lost. *)
Lemma binary_round_aux_shape s m e :
  let k := fexp f64_prec f64_emax (Zpos (digits2_pos m) + e) - e in
  f_emin <= e -> 0 <= k ->
  exists m2 e2 m1,
    binary_round_aux f64_prec f64_emax s (Zpos m) e loc_Exact =
      (if e2 <=? 971 then S754_finite s m2 e2 else S754_infinity s) /\
    f_canonical m2 e2 /\
    Zpos m2 * 2 ^ (e2 - f_emin) = m1 * 2 ^ (e + k - f_emin) /\
    Zpos m / 2 ^ k <= m1 <= Zpos m / 2 ^ k + 1 /\
    (Zpos m mod 2 ^ k = 0 -> m1 = Zpos m / 2 ^ k).
Proof.
  intros k He Hk. pose proof (digits2_pos_bounds m) as [Hdl Hdu].
  set (d := Zpos (digits2_pos m)) in *.
  assert (Hkd : k = 0 /\ d <= 53 /\ (e = f_emin \/ d = 53) \/ 0 < k /\ d = 53 + k)
    by (unfold k, f_emin in *; rewrite f_fexp_eq in *; lia).
  assert (Hq : 0 < Zpos m / 2 ^ k < 2 ^ 53 /\ (2 ^ 52 <= Zpos m / 2 ^ k \/ e + k = f_emin)).
  { destruct Hkd as [(-> & Hd & Hc)|[Hk0 Hd]].
    - rewrite Z.pow_0_r, Z.div_1_r. assert (2 ^ d <= 2 ^ 53) by (apply Z.pow_le_mono_r; lia).
      split; [lia|]. destruct Hc as [->| ->]; [right; lia|left; exact Hdl].
    - assert (0 < 2 ^ k) by (apply Z.pow_pos_nonneg; lia).
      assert (2 ^ 52 * 2 ^ k <= Zpos m < 2 ^ 53 * 2 ^ k)
        by (rewrite <- !Z.pow_add_r by lia; rewrite Hd in *;
            replace (52 + k) with (53 + k - 1) by lia; lia).
      assert (2 ^ 52 <= Zpos m / 2 ^ k) by (apply Z.div_le_lower_bound; lia).
      assert (Zpos m / 2 ^ k < 2 ^ 53) by (apply Z.div_lt_upper_bound; lia). lia. }
  unfold binary_round_aux, shr_fexp. cbn [Zdigits2]. fold d. fold k.
  destruct (shr_spec (Zpos m) e loc_Exact k) as (mrs & -> & Hm & Hl); [lia..|].
  specialize (Hl eq_refl).
  pose proof (round_nearest_even_bounds (shr_m mrs) (loc_of_shr_record mrs)) as [Hb Hx].
  set (m1 := round_nearest_even _ _) in *. rewrite Hm in *.
  assert (Hm1 : Zpos m mod 2 ^ k = 0 -> m1 = Zpos m / 2 ^ k) by (intros H; apply Hx, Hl, H).
  destruct m1 as [|q|q] eqn:Eq; [lia| |lia]. cbn [Zdigits2]. rewrite f_fexp_eq.
  set (e1 := e + k) in *. assert (He1 : -1074 <= e1) by (unfold e1, f_emin in *; lia).
  destruct (Z.eq_dec (Zpos q) (2 ^ 53)) as [Hc|Hc].
  - assert (Hdq : Zpos (digits2_pos q) = 54).
    { apply Z.le_antisymm; [apply digits2_pos_le; lia|apply digits2_pos_ge; lia]. }
    rewrite Hdq. replace (Z.max (54 + e1 - 53) (-1074) - e1) with 1 by lia.
    destruct (shr_spec (Zpos q) e1 loc_Exact 1) as (mrs2 & -> & Hm2 & _); [lia..|].
    rewrite Hm2, Hc. change (2 ^ 53 / 2 ^ 1) with (Zpos 4503599627370496).
    exists 4503599627370496%positive, (e1 + 1), (Zpos q). split; [done|]. split.
    { unfold f_canonical, f_emin. lia. }
    split; [|by rewrite Hc in *].
    replace (e1 + 1 - f_emin) with (Z.succ (e1 - f_emin)) by lia.
    rewrite Z.pow_succ_r by (unfold f_emin; lia). rewrite Hc. change (2 ^ 53) with (2 * 2 ^ 52). lia.
  - assert (Hdq : Zpos (digits2_pos q) <= 53) by (apply digits2_pos_le; lia).
    replace (Z.max (Zpos (digits2_pos q) + e1 - 53) (-1074) - e1) with 0.
    2: { destruct Hq as [_ [Hq|Hq]]; [|unfold f_emin in Hq; lia].
         assert (53 <= Zpos (digits2_pos q)) by (apply digits2_pos_ge; change (2 ^ (53 - 1)) with (2 ^ 52); lia).
         lia. }
    simpl shr. simpl shr_m.
    exists q, e1, (Zpos q). split; [done|]. split; [|done].
    unfold f_canonical, f_emin in *. split; [lia|]. split; [lia|]. destruct Hq as [_ [Hq|Hq]]; lia.
Qed.

Lemma pos_iter_xO m d : Zpos (Pos.iter xO m d) = Zpos m * 2 ^ Zpos d.
Proof.
  induction d as [|d IH] using Pos.peano_ind; [simpl; lia|].
  rewrite Pos.iter_succ, Pos2Z.inj_succ, Z.pow_succ_r by lia.
  change (Zpos (Pos.iter xO m d)~0) with (2 * Zpos (Pos.iter xO m d)). lia.
Qed.

Lemma shl_align_spec m e e' :
  let '(m2, e2) := shl_align m e e' in
  e2 = Z.min e e' /\ Zpos m2 = Zpos m * 2 ^ (e - e2).
Proof.
  unfold shl_align. destruct (e' - e) as [|p|p] eqn:E.
  - split; [lia|]. rewrite Z.sub_diag. lia.
  - split; [lia|]. rewrite Z.sub_diag. lia.
  - split; [lia|]. rewrite pos_iter_xO. do 2 f_equal. lia.
Qed.

Lemma digits2_pos_mul_pow m m2 k :
  0 <= k -> Zpos m2 = Zpos m * 2 ^ k -> Zpos (digits2_pos m2) = Zpos (digits2_pos m) + k.
Proof.
  intros Hk Hm. pose proof (digits2_pos_bounds m) as [Hl Hu].
  assert (0 < 2 ^ k) by (apply Z.pow_pos_nonneg; lia).
  apply Z.le_antisymm.
  - apply digits2_pos_le; [lia|]. rewrite Z.pow_add_r by lia. nia.
  - apply digits2_pos_ge. replace (_ + k - 1) with (Zpos (digits2_pos m) - 1 + k) by lia.
    rewrite Z.pow_add_r by lia. nia.
Qed.

Lemma digits2_value_mono m1 k1 m2 k2 :
  0 <= k1 -> 0 <= k2 -> Zpos m1 * 2 ^ k1 <= Zpos m2 * 2 ^ k2 ->
  Zpos (digits2_pos m1) + k1 <= Zpos (digits2_pos m2) + k2.
Proof.
  intros H1 H2 Hle. pose proof (digits2_pos_bounds m1) as [Hl _]. pose proof (digits2_pos_bounds m2) as [_ Hu].
  assert (0 < 2 ^ k1) by (apply Z.pow_pos_nonneg; lia).
  assert (0 < 2 ^ k2) by (apply Z.pow_pos_nonneg; lia).
  assert (2 ^ (Zpos (digits2_pos m1) - 1 + k1) < 2 ^ (Zpos (digits2_pos m2) + k2))
    by (rewrite !Z.pow_add_r by lia; nia).
  apply Z.pow_lt_mono_r_iff in H3; lia.
Qed.

(** A quotient rounded to nearest does not exceed an integer bound. *)
Lemma round_quotient_le m k m1 ma e ez ea :
  0 <= k -> 0 <= ez - e -> ez + k <= ea -> m / 2 ^ k <= m1 <= m / 2 ^ k + 1 ->
  (m mod 2 ^ k = 0 -> m1 = m / 2 ^ k) ->
  m * 2 ^ (ez - e) <= ma * 2 ^ (ea - e) ->
  m1 <= ma * 2 ^ (ea - (ez + k)).
Proof.
  intros Hk He Hea Hm1 Hex Hle. set (a := ma * 2 ^ (ea - (ez + k))).
  assert (0 < 2 ^ k) by (apply Z.pow_pos_nonneg; lia).
  assert (0 < 2 ^ (ez - e)) by (apply Z.pow_pos_nonneg; lia).
  assert (Ha : ma * 2 ^ (ea - e) = a * 2 ^ k * 2 ^ (ez - e)).
  { unfold a. rewrite <- !Z.mul_assoc, <- !Z.pow_add_r by lia. do 2 f_equal. lia. }
  assert (Hm : m <= a * 2 ^ k) by nia.
  pose proof (Z.div_mod m (2 ^ k) ltac:(lia)). pose proof (Z.mod_pos_bound m (2 ^ k) ltac:(lia)).
  destruct (Z.eq_dec (m mod 2 ^ k) 0) as [Hz|Hz]; [rewrite (Hex Hz); nia|nia].
Qed.

(** Rounding a positive value that does not exceed a finite float [a] gives
    a canonical finite float that does not exceed [a] either. *)
Lemma binary_round_le s m e ma ea :
  f_emin <= e -> f_canonical ma ea -> ea <= 971 ->
  Zpos m * 2 ^ (e - f_emin) <= Zpos ma * 2 ^ (ea - f_emin) ->
  exists m2 e2, binary_round f64_prec f64_emax s m e = S754_finite s m2 e2 /\
    f_canonical m2 e2 /\ e2 <= 971 /\
    Zpos m2 * 2 ^ (e2 - f_emin) <= Zpos ma * 2 ^ (ea - f_emin).
Proof.
  intros He Ha Hea Hle. unfold binary_round.
  pose proof (shl_align_spec m e (fexp f64_prec f64_emax (Zpos (digits2_pos m) + e))) as Hs.
  destruct (shl_align _ _ _) as [mz ez]. destruct Hs as [Hez Hmz].
  assert (Hez1 : f_emin <= ez <= e) by (rewrite f_fexp_eq in Hez; unfold f_emin in *; lia).
  pose proof (digits2_pos_mul_pow m mz (e - ez) ltac:(lia) Hmz) as Hd.
  assert (Hv : Zpos mz * 2 ^ (ez - f_emin) = Zpos m * 2 ^ (e - f_emin)).
  { rewrite Hmz, <- Z.mul_assoc, <- Z.pow_add_r by lia. do 2 f_equal. lia. }
  rewrite <- Hv in Hle. clear Hv Hmz.
  destruct (binary_round_aux_shape s mz ez) as (m2 & e2 & m1 & -> & Hc & Hval & Hm1 & Hex); [lia|..].
  { rewrite f_fexp_eq in *. lia. }
  set (k := fexp f64_prec f64_emax (Zpos (digits2_pos mz) + ez) - ez) in *.
  assert (Hk : 0 <= k) by (unfold k; rewrite f_fexp_eq in *; lia).
  assert (Hkea : ez + k <= ea).
  { pose proof (digits2_value_mono mz (ez - f_emin) ma (ea - f_emin)).
    apply f_canonical_mantissa in Ha as Ha'. unfold canonical_mantissa in Ha'.
    rewrite Z.eqb_eq, f_fexp_eq in Ha'. unfold k. rewrite f_fexp_eq. destruct Ha. lia. }
  assert (Hm1a : m1 <= Zpos ma * 2 ^ (ea - (ez + k))) by (eapply round_quotient_le; eauto; lia).
  assert (Hv2 : Zpos m2 * 2 ^ (e2 - f_emin) <= Zpos ma * 2 ^ (ea - f_emin)).
  { rewrite Hval. replace (ea - f_emin) with (ea - (ez + k) + (ez + k - f_emin)) by lia.
    rewrite Z.pow_add_r by lia. assert (0 < 2 ^ (ez + k - f_emin)) by (apply Z.pow_pos_nonneg; lia). nia. }
  assert (He2 : e2 <= 971).
  { pose proof (digits2_value_mono m2 (e2 - f_emin) ma (ea - f_emin)).
    apply f_canonical_mantissa in Ha as Ha', Hc as Hc'. unfold canonical_mantissa in *.
    rewrite Z.eqb_eq, f_fexp_eq in *. destruct Ha, Hc. lia. }
  rewrite (proj2 (Z.leb_le _ _) He2). eauto 10.
Qed.

(** ** Comparisons and subtraction of finite floats by their exact values *)

Lemma f_mag_le m1 e1 m2 e2 :
  f_canonical m1 e1 -> f_canonical m2 e2 ->
  (Zpos m1 * 2 ^ (e1 - f_emin) <= Zpos m2 * 2 ^ (e2 - f_emin) <->
   e1 < e2 \/ (e1 = e2 /\ Zpos m1 <= Zpos m2)).
Proof.
  intros H1 H2.
  assert (Hlt : forall m1 e1 m2 e2, f_canonical m1 e1 -> f_canonical m2 e2 -> e1 < e2 ->
            Zpos m1 * 2 ^ (e1 - f_emin) < Zpos m2 * 2 ^ (e2 - f_emin)).
  { clear. intros m1 e1 m2 e2 (He1 & Hm1 & _) (He2 & Hm2 & Hc2) He.
    replace (e2 - f_emin) with (1 + (e1 - f_emin) + (e2 - e1 - 1)) by lia.
    rewrite !Z.pow_add_r by lia.
    assert (0 < 2 ^ (e1 - f_emin)) by (apply Z.pow_pos_nonneg; lia).
    assert (0 < 2 ^ (e2 - e1 - 1)) by (apply Z.pow_pos_nonneg; lia).
    assert (2 ^ 53 <= 2 * Zpos m2) by (change (2 ^ 53) with (2 * 2 ^ 52); lia).
    change (2 ^ 1) with 2. set (p := 2 ^ (e1 - f_emin)) in *. set (q := 2 ^ (e2 - e1 - 1)) in *.
    assert (Zpos m1 * p < 2 * Zpos m2 * p) by (apply Z.mul_lt_mono_pos_r; lia).
    assert (2 * Zpos m2 * p * 1 <= 2 * Zpos m2 * p * q) by (apply Z.mul_le_mono_nonneg_l; lia). lia. }
  destruct (Z.lt_trichotomy e1 e2) as [He|[He|He]].
  - specialize (Hlt _ _ _ _ H1 H2 He). lia.
  - subst e2. assert (0 < 2 ^ (e1 - f_emin)) by (apply Z.pow_pos_nonneg; destruct H1; lia). nia.
  - specialize (Hlt _ _ _ _ H2 H1 He). lia.
Qed.

Lemma fval_le x y :
  f_valid x -> f_valid y -> f_is_finite x = true -> f_is_finite y = true ->
  f_le x y = true <-> fval x <= fval y.
Proof.
  intros Hx Hy Fx Fy. rewrite f_le_key, !f_finite_not_nan by done.
  destruct x as [| | |s1 m1 e1]; try discriminate; destruct y as [| | |s2 m2 e2]; try discriminate.
  - simpl. intuition lia.
  - apply f_valid_finite in Hy as [[He _] _].
    assert (0 < 2 ^ (e2 - f_emin)) by (apply Z.pow_pos_nonneg; lia). destruct s2; simpl; intuition lia.
  - apply f_valid_finite in Hx as [[He _] _].
    assert (0 < 2 ^ (e1 - f_emin)) by (apply Z.pow_pos_nonneg; lia). destruct s1; simpl; intuition lia.
  - apply f_valid_finite in Hx as [Hx _], Hy as [Hy _].
    pose proof (f_mag_le m1 e1 m2 e2 Hx Hy) as H12. pose proof (f_mag_le m2 e2 m1 e1 Hy Hx) as H21.
    destruct Hx as [He1 _], Hy as [He2 _].
    assert (0 < 2 ^ (e1 - f_emin)) by (apply Z.pow_pos_nonneg; lia).
    assert (0 < 2 ^ (e2 - f_emin)) by (apply Z.pow_pos_nonneg; lia).
    destruct s1, s2; cbn -[Z.pow]; [|intuition lia..|]; intuition lia.
Qed.

(** A finite, non-negative quantity. *)
Definition f_nonneg (x : f64) : Prop :=
  f_valid x /\ f_is_finite x = true /\ 0 <= fval x.

(** A finite, positive quantity. *)
Definition f_pos (x : f64) : Prop :=
  f_valid x /\ f_is_finite x = true /\ 0 < fval x.

Lemma f_pos_nonneg x : f_pos x -> f_nonneg x.
Proof. intros (? & ? & ?). repeat split; try done; lia. Qed.

Lemma f_pos_lt x :
  f_valid x -> (f_pos x <-> f_is_finite x = true /\ f_lt f_zero x = true).
Proof.
  intros Hv. unfold f_pos. destruct x as [s|s| |s m e]; cbn -[Z.pow].
  - split; [lia|intros [_ [=]]].
  - split; [intros (_ & [=] & _)|intros [[=] _]].
  - split; [intros (_ & [=] & _)|intros [[=] _]].
  - apply f_valid_finite in Hv as Hv'. destruct Hv' as [[He _] _].
    assert (0 < 2 ^ (e - f_emin)) by (apply Z.pow_pos_nonneg; lia). destruct s.
    + split; [lia|intros [_ [=]]].
    + split; [done|]. intros _. split; [done|]. split; [done|lia].
Qed.

(** [x - x] is (positive) zero for every finite [x]. *)
Lemma f_sub_diag x : f_is_finite x = true -> f_sub x x = f_zero.
Proof.
  destruct x as [[]| | |s m e]; try discriminate; try reflexivity. intros _.
  unfold f_sub, SFsub. rewrite Z.sub_diag. reflexivity.
Qed.

Lemma shl_align_fst m e e' : e' <= e -> Zpos (fst (shl_align m e e')) = Zpos m * 2 ^ (e - e').
Proof.
  intros H. pose proof (shl_align_spec m e e') as Hs. destruct (shl_align m e e') as [m2 e2].
  destruct Hs as [He Hm]. simpl. rewrite Hm. do 2 f_equal. lia.
Qed.

(** [a - b] with [0 <= b <= a], all finite: the rounded difference is
    finite, non-negative and not above [a]. *)
Lemma f_sub_nonneg a b :
  f_nonneg a -> f_nonneg b -> fval b <= fval a ->
  f_nonneg (f_sub a b) /\ fval (f_sub a b) <= fval a.
Proof.
  intros (Va & Fa & Pa) (Vb & Fb & Pb) Hle.
  destruct a as [sa| | |sa ma ea]; try discriminate; destruct b as [sb| | |sb mb eb]; try discriminate.
  - by destruct sa, sb.
  - exfalso. apply f_valid_finite in Vb as [[He _] _].
    assert (0 < 2 ^ (eb - f_emin)) by (apply Z.pow_pos_nonneg; lia). destruct sb; simpl fval in *; lia.
  - done.
  - pose proof Va as Va'. apply f_valid_finite in Va' as [Ca Ma]. apply f_valid_finite in Vb as [Cb Mb].
    assert (0 < 2 ^ (ea - f_emin)) by (apply Z.pow_pos_nonneg; [lia|]; destruct Ca; lia).
    assert (0 < 2 ^ (eb - f_emin)) by (apply Z.pow_pos_nonneg; [lia|]; destruct Cb; lia).
    destruct sa, sb; cbn -[Z.pow] in Pa, Pb, Hle; try lia. rewrite !Z.mul_1_l in *.
    unfold f_sub, SFsub. cbn [cond_Zopp]. set (ez := Z.min ea eb).
    assert (Hez : f_emin <= ez) by (destruct Ca, Cb; lia).
    rewrite !shl_align_fst by lia. set (d := _ - _).
    assert (Hd : d * 2 ^ (ez - f_emin) = Zpos ma * 2 ^ (ea - f_emin) - Zpos mb * 2 ^ (eb - f_emin)).
    { unfold d. rewrite Z.mul_sub_distr_r, <- !Z.mul_assoc, <- !Z.pow_add_r by lia.
      f_equal; do 2 f_equal; lia. }
    assert (0 < 2 ^ (ez - f_emin)) by (apply Z.pow_pos_nonneg; lia).
    destruct d as [|n|n] eqn:Ed; [|simpl binary_normalize|nia].
    + simpl. unfold f_nonneg. repeat split; simpl; lia.
    + destruct (binary_round_le false n ez ma ea) as (m2 & e2 & -> & Hc & He2 & Hv); [done..|nia|].
      assert (0 < 2 ^ (e2 - f_emin)) by (apply Z.pow_pos_nonneg; destruct Hc; lia).
      unfold f_nonneg. cbn -[Z.pow]. rewrite f_valid_finite, !Z.mul_1_l. split; [|exact Hv].
      split; [done|]. split; [done|nia].
Qed.

(** ** Exact sums

    A float whose value is a multiple of [2^u] (in units of 2^-1074) and below
    [2^(u + 53)] is represented exactly, so sums that stay below that bound
    are computed without rounding. *)

Definition f_fits (u v : Z) : Prop := (2 ^ u | v) /\ Z.abs v < 2 ^ (u + 53).

(** A finite float on the grid of [2^u]. *)
Definition f_on_grid (u : Z) (x : f64) : Prop := f_valid x /\ f_is_finite x = true /\ (2 ^ u | fval x).

Lemma binary_round_exact s m e u :
  0 <= u <= 2045 -> f_emin <= e -> f_fits u (Zpos m * 2 ^ (e - f_emin)) ->
  exists m2 e2, binary_round f64_prec f64_emax s m e = S754_finite s m2 e2 /\
    f_canonical m2 e2 /\ e2 <= 971 /\ Zpos m2 * 2 ^ (e2 - f_emin) = Zpos m * 2 ^ (e - f_emin).
Proof.
  intros Hu He [Hdiv Hlt]. unfold binary_round.
  pose proof (shl_align_spec m e (fexp f64_prec f64_emax (Zpos (digits2_pos m) + e))) as Hs.
  destruct (shl_align _ _ _) as [mz ez]. destruct Hs as [Hez Hmz].
  assert (Hez1 : f_emin <= ez <= e) by (rewrite f_fexp_eq in Hez; unfold f_emin in *; lia).
  pose proof (digits2_pos_mul_pow m mz (e - ez) ltac:(lia) Hmz) as Hd.
  assert (Hv : Zpos m * 2 ^ (e - f_emin) = Zpos mz * 2 ^ (ez - f_emin)).
  { rewrite Hmz, <- Z.mul_assoc, <- Z.pow_add_r by lia. do 2 f_equal. lia. }
  rewrite Hv in *. clear Hv Hmz.
  destruct (binary_round_aux_shape s mz ez) as (m2 & e2 & m1 & -> & Hc & Hval & _ & Hex); [lia|rewrite f_fexp_eq in *; lia|].
  set (k := fexp f64_prec f64_emax (Zpos (digits2_pos mz) + ez) - ez) in *.
  assert (Hk : 0 <= k) by (unfold k; rewrite f_fexp_eq in *; lia).
  assert (0 < 2 ^ (ez - f_emin)) by (apply Z.pow_pos_nonneg; lia).
  assert (0 < 2 ^ k) by (apply Z.pow_pos_nonneg; lia). rewrite Z.abs_eq in Hlt by lia.
  assert (Hmod : Zpos mz mod 2 ^ k = 0).
  { destruct (Z.eq_dec k 0) as [->|Hk0]; [apply Z.mod_1_r|].
    assert (Hdz : Zpos (digits2_pos mz) = 53 + k) by (unfold k in *; rewrite f_fexp_eq in *; unfold f_emin in *; lia).
    pose proof (digits2_pos_bounds mz) as [Hl _]. rewrite Hdz in Hl.
    assert (2 ^ (52 + k + (ez - f_emin)) < 2 ^ (u + 53)).
    { replace (52 + k) with (53 + k - 1) by lia. rewrite (Z.pow_add_r 2 (53 + k - 1)) by lia. nia. }
    apply Z.pow_lt_mono_r_iff in H1; [|lia..]. apply Z.mod_divide; [lia|].
    apply (Z.mul_divide_cancel_r _ _ (2 ^ (ez - f_emin))); [lia|]. rewrite <- Z.pow_add_r by lia.
    etransitivity; [|exact Hdiv]. exists (2 ^ (u - (k + (ez - f_emin)))). rewrite <- Z.pow_add_r by lia. f_equal. lia. }
  assert (Hv2 : Zpos m2 * 2 ^ (e2 - f_emin) = Zpos mz * 2 ^ (ez - f_emin)).
  { rewrite Hval, (Hex Hmod). replace (ez + k - f_emin) with (k + (ez - f_emin)) by lia. rewrite Z.pow_add_r, Z.mul_assoc by lia.
    f_equal. apply Z.div_exact in Hmod; lia. }
  assert (He2 : e2 <= 971); [|rewrite (proj2 (Z.leb_le _ _) He2); eauto 10].
  destruct Hc as (Hc1 & _ & Hc2). unfold f_emin in *. apply Z.nlt_ge. intros Hbig. destruct Hc2 as [->|Hc2]; [lia|].
  assert (2 ^ (u + 53) <= 2 ^ (52 + (e2 - -1074))) by (apply Z.pow_le_mono_r; lia).
  rewrite (Z.pow_add_r 2 52) in H1 by lia. assert (0 < 2 ^ (e2 - -1074)) by (apply Z.pow_pos_nonneg; lia). nia.
Qed.

(** A computed value is zero only as positive zero. *)
Definition f_not_negzero (x : f64) : Prop := x <> S754_zero true.

Lemma binary_normalize_exact v e u :
  0 <= u <= 2045 -> f_emin <= e -> f_fits u (v * 2 ^ (e - f_emin)) ->
  let x := binary_normalize f64_prec f64_emax v e false in
  f_on_grid u x /\ fval x = v * 2 ^ (e - f_emin) /\ f_not_negzero x.
Proof.
  intros Hu He Hf x. assert (0 < 2 ^ (e - f_emin)) by (apply Z.pow_pos_nonneg; lia).
  assert (H2 : f_valid x /\ f_is_finite x = true /\ fval x = v * 2 ^ (e - f_emin) /\ f_not_negzero x).
  { subst x. destruct v as [|m|m]; simpl binary_normalize; [by repeat split| |].
    - destruct (binary_round_exact false m e u Hu He Hf) as (m2 & e2 & -> & Hc & He2 & Hv).
      rewrite f_valid_finite. split; [done|]. split; [done|]. split; [cbn -[Z.pow]; lia|done].
    - destruct (binary_round_exact true m e u Hu He) as (m2 & e2 & -> & Hc & He2 & Hv).
      { destruct Hf as [Hd Hl]. split; [|nia]. apply Z.divide_opp_r. by rewrite <- Z.mul_opp_l. }
      rewrite f_valid_finite. split; [done|]. split; [done|]. split; [cbn -[Z.pow]; lia|done]. }
  destruct H2 as (H2 & H3 & H4 & H5). repeat split; [done..| |done|done]. rewrite H4. apply Hf.
Qed.

Lemma fval_scaled s m e ez : f_emin <= ez <= e ->
  cond_Zopp s (Zpos (fst (shl_align m e ez))) * 2 ^ (ez - f_emin) = fval (S754_finite s m e).
Proof.
  intros H. rewrite shl_align_fst by lia. assert (E : 2 ^ (e - f_emin) = 2 ^ (e - ez) * 2 ^ (ez - f_emin)).
  { rewrite <- Z.pow_add_r by lia. f_equal. lia. }
  unfold fval. rewrite E. destruct s; cbn [cond_Zopp]; lia.
Qed.

Lemma f_add_exact u x y :
  0 <= u <= 2045 -> f_on_grid u x -> f_on_grid u y -> f_not_negzero x -> f_fits u (fval x + fval y) ->
  f_on_grid u (f_add x y) /\ fval (f_add x y) = fval x + fval y /\ f_not_negzero (f_add x y).
Proof.
  intros Hu (Vx & Fx & Dx) (Vy & Fy & Dy) Hx Hf. unfold f_add.
  destruct x as [[]| | |sx mx ex]; try discriminate; destruct y as [sy| | |sy my ey]; try discriminate.
  - by destruct Hx.
  - by destruct Hx.
  - destruct sy; by repeat split; try exists 0.
  - by repeat split.
  - cbn [SFadd]. by rewrite Z.add_0_r.
  - apply f_valid_finite in Vx as [[Ex _] _], Vy as [[Ey _] _]. cbn [SFadd]. set (ez := Z.min ex ey).
    rewrite <- (fval_scaled sx mx ex ez), <- (fval_scaled sy my ey ez), <- Z.mul_add_distr_r in Hf |- * by lia.
    apply binary_normalize_exact; [done|lia|done].
Qed.

Lemma f_sub_exact u x y :
  0 <= u <= 2045 -> f_on_grid u x -> f_on_grid u y -> f_not_negzero x -> f_fits u (fval x - fval y) ->
  f_on_grid u (f_sub x y) /\ fval (f_sub x y) = fval x - fval y /\ f_not_negzero (f_sub x y).
Proof.
  intros Hu (Vx & Fx & Dx) (Vy & Fy & Dy) Hx Hf. unfold f_sub.
  destruct x as [[]| | |sx mx ex]; try discriminate; destruct y as [sy| | |sy my ey]; try discriminate.
  - by destruct Hx.
  - by destruct Hx.
  - destruct sy; by repeat split; try exists 0.
  - cbn [SFsub]. assert (E : fval (S754_finite (negb sy) my ey) = - fval (S754_finite sy my ey)) by (destruct sy; cbn -[Z.pow]; lia).
    split; [|split; [rewrite E; cbn -[Z.pow]; lia|done]]. split; [by apply f_valid_finite in Vy; apply f_valid_finite|].
    split; [done|]. rewrite E. by apply Z.divide_opp_r.
  - cbn [SFsub]. by rewrite Z.sub_0_r.
  - apply f_valid_finite in Vx as [[Ex _] _], Vy as [[Ey _] _]. cbn [SFsub]. set (ez := Z.min ex ey).
    rewrite <- (fval_scaled sx mx ex ez), <- (fval_scaled sy my ey ez), <- Z.mul_sub_distr_r in Hf |- * by lia.
    apply binary_normalize_exact; [done|lia|done].
Qed.

(** The value determines the float, up to the sign of zero. *)
Lemma fval_inj x y :
  f_valid x -> f_valid y -> f_is_finite x = true -> f_is_finite y = true -> f_not_negzero x -> f_not_negzero y ->
  fval x = fval y -> x = y.
Proof.
  intros Vx Vy Fx Fy Nx Ny E.
  assert (Hxy : f_le x y = true) by (apply fval_le; [done..|lia]). assert (Hyx : f_le y x = true) by (apply fval_le; [done..|lia]).
  apply f_le_key in Hxy as (_ & _ & Hxy), Hyx as (_ & _ & Hyx).
  destruct x as [[]| | |[] mx ex]; try discriminate; try by destruct Nx. all: destruct y as [[]| | |[] my ey]; try discriminate; try by destruct Ny.
  all: cbn in Hxy, Hyx; try done; try lia. all: assert (ex = ey) as -> by lia; assert (mx = my) as -> by lia; done.
Qed.

(** ** Signs *)

Lemma f_signed_nonneg x s : f_signed false x -> f_le (S754_zero s) x = true.
Proof. destruct x as [| | |s']; simpl; try contradiction; intros ->; done. Qed.

Lemma f_mul_signed x y :
  f_pos x -> f_pos y -> f_signed false (f_mul x y).
Proof.
  intros (Vx & Fx & Px) (Vy & Fy & Py).
  destruct x as [| | |s1 m1 e1]; try discriminate; try (simpl in Px; lia).
  destruct y as [| | |s2 m2 e2]; try discriminate; try (simpl in Py; lia).
  apply f_valid_finite in Vx as [[He1 _] _], Vy as [[He2 _] _].
  assert (0 < 2 ^ (e1 - f_emin)) by (apply Z.pow_pos_nonneg; lia).
  assert (0 < 2 ^ (e2 - f_emin)) by (apply Z.pow_pos_nonneg; lia).
  destruct s1, s2; cbn -[Z.pow] in Px, Py; try lia.
  apply binary_round_aux_signed. lia.
Qed.

Lemma f_min_cases x y :
  f_is_nan x = false -> f_is_nan y = false ->
  (f_min x y = x /\ f_le x y = true) \/ (f_min x y = y /\ f_lt y x = true).
Proof.
  intros Hx Hy. unfold f_min. rewrite Hx, Hy. destruct (f_lt y x) eqn:E; [by right|left].
  split; [done|]. rewrite f_lt_not_le in E by done. by apply negb_false_iff in E.
Qed.

Lemma f_max_cases x y :
  f_is_nan x = false -> f_is_nan y = false ->
  (f_max x y = x /\ f_le y x = true) \/ (f_max x y = y /\ f_lt x y = true).
Proof.
  intros Hx Hy. unfold f_max. rewrite Hx, Hy. destruct (f_lt x y) eqn:E; [by right|left].
  split; [done|]. rewrite f_lt_not_le in E by done. by apply negb_false_iff in E.
Qed.
#[export] Hint Resolve f_pos_nonneg f_le_refl f_lt_le : f64.
