(* ===== verification/Candle.v ===== *)
(** * The OHLCV candle ([src/src/candle.rs])

    The record the whole program moves around, and the boundary check
    [is_valid] which the store applies before a candle may enter a ring. *)

From S2P Require Import Prelude Float64.

Create HintDb candle.

#[local] Open Scope Z_scope.

Record Candle : Type := mkCandle {
  ts : Z;          (* i64, nanoseconds *)
  open : f64;
  high : f64;
  low : f64;
  close : f64;
  volume : f64
}.

(** [std::mem::size_of::<Candle>()]: six 8-byte fields, [repr(C)]. *)
Definition candle_size : Z := 48.

(** [Candle::default()], and the fill value of a fresh ring. *)
Definition candle_default : Candle := mkCandle 0 f_zero f_zero f_zero f_zero f_zero.

(** [Candle::is_valid]. *)
Definition is_valid (c : Candle) : bool :=
  (0 <=? ts c)
  && f_is_finite (open c)
  && f_is_finite (high c)
  && f_is_finite (low c)
  && f_is_finite (close c)
  && f_is_finite (volume c).

(** [is_valid] accepts a candle exactly when its timestamp is non-negative
    and no price or volume field is NaN or infinite. *)
Lemma is_valid_spec c :
  is_valid c = true <->
  0 <= ts c /\ Forall (fun x => f_is_finite x = true) [open c; high c; low c; close c; volume c].
Proof.
  unfold is_valid. rewrite !andb_true_iff, Z.leb_le, !Forall_cons, Forall_nil. tauto.
Qed.

#[export] Instance spec_float_eq_dec : EqDecision f64.
Proof. intros x y. unfold Decision. decide equality; apply bool_dec || apply Pos.eq_dec || apply Z.eq_dec. Defined.

#[export] Instance candle_eq_dec : EqDecision Candle.
Proof. solve_decision. Defined.

#[export] Instance candle_inhabited : Inhabited Candle := populate candle_default.

(** Timestamps in non-decreasing order, the shape the binary search needs. *)
Definition ts_sorted (l : list Candle) : Prop :=
  forall i j a b, (i <= j)%nat -> l !! i = Some a -> l !! j = Some b -> ts a <= ts b.

(** The inclusive window [from <= ts <= to] of a range query. *)
Definition in_window (from_ts to_ts : Z) (c : Candle) : Prop := from_ts <= ts c <= to_ts.

#[export] Instance in_window_dec from_ts to_ts c : Decision (in_window from_ts to_ts c).
Proof. unfold in_window. apply _. Defined.

Lemma ts_sorted_nil : ts_sorted [].
Proof. intros i j a b _ H. by rewrite lookup_nil in H. Qed.

Lemma ts_sorted_drop n l : ts_sorted l -> ts_sorted (drop n l).
Proof.
  intros H i j a b Hij. rewrite !lookup_drop. apply H. lia.
Qed.

Lemma ts_sorted_snoc l c :
  ts_sorted l -> (forall p, last l = Some p -> ts p <= ts c) -> ts_sorted (l ++ [c]).
Proof.
  intros Hs Hl i j a b Hij Ha Hb.
  assert (Hlast : forall k x, l !! k = Some x -> ts x <= ts c).
  { intros k x Hk. destruct (last l) as [p|] eqn:E.
    - specialize (Hl p eq_refl). rewrite last_lookup in E.
      apply lookup_lt_Some in Hk as Hk'. 
      enough (ts x <= ts p) by lia. apply (Hs k (pred (length l))); [lia|done..].
    - apply last_None in E as ->. by rewrite lookup_nil in Hk. }
  apply lookup_app_Some in Ha as [Ha|[Hi Ha]]; apply lookup_app_Some in Hb as [Hb|[Hj Hb]].
  - eauto.
  - apply list_lookup_singleton_Some in Hb as [_ <-]. eauto.
  - apply lookup_lt_Some in Hb. lia.
  - apply list_lookup_singleton_Some in Ha as [_ <-], Hb as [_ <-]. lia.
Qed.
#[export] Hint Resolve ts_sorted_nil ts_sorted_drop : candle.
