(* ===== verification/RingBuffer.v ===== *)
(** * The per-symbol candle ring ([src/src/ring_buffer.rs])

    A fixed-capacity ring that overwrites its oldest entry, with binary
    search range queries over logical positions.  Indices are [nat]s: every
    one is bounded by the length of the boxed slice.  An operation that indexes out of bounds in the
    source returns [None] here; the theorems show that on a well-formed ring
    none of the queries ever does, also when the stored timestamps are out
    of order. *)

From Equations Require Import Equations.
From S2P Require Import Prelude Float64 Candle.

#[local] Open Scope nat_scope.

Module RingBuffer.

Inductive PushOutcome : Type :=
| PushOk
| OutOfOrder (prev_ts this_ts : Z).

Record t : Type := mkRing {
  buf : list Candle;
  head : nat;               (* next write position *)
  len : nat;                (* current count, at most the capacity *)
  last_ts : option Z
}.

(** [RingBuffer::new]. *)
Definition new (cap : nat) : t :=
  mkRing (replicate cap candle_default) 0 0 None.

Definition capacity (rb : t) : nat := length (buf rb).
Definition is_empty (rb : t) : bool := len rb =? 0.

(** [RingBuffer::push]; [self.buf[self.head] = c] panics on a zero-capacity
    ring. *)
Definition push (rb : t) (c : Candle) : panics (t * PushOutcome) :=
  let outcome :=
    match last_ts rb with
    | Some prev => if (ts c <? prev)%Z then OutOfOrder prev (ts c) else PushOk
    | None => PushOk
    end in
  if head rb <? length (buf rb) then
    let buf' := <[head rb := c]> (buf rb) in
    Some (mkRing buf'
            ((head rb + 1) mod length buf')
            (if len rb <? length buf' then len rb + 1 else len rb)
            (Some (ts c)),
          outcome)
  else None.

(** [RingBuffer::physical_idx]. *)
Definition physical_idx (rb : t) (i : nat) : nat :=
  let cap := length (buf rb) in
  let start := if len rb <? cap then 0 else head rb in
  let raw := start + i in
  if cap <=? raw then raw - cap else raw.

(** [RingBuffer::ts_at]. *)
Definition ts_at (rb : t) (i : nat) : panics Z :=
  ts <$> buf rb !! physical_idx rb i.

(** [let mid = lo + (hi - lo) / 2]. *)
Definition midpoint (lo hi : nat) : nat := lo + (hi - lo) / 2.

Lemma midpoint_bounds lo hi : lo < hi -> lo <= midpoint lo hi < hi.
Proof. intros H. unfold midpoint. pose proof (Nat.div_lt (hi - lo) 2). lia. Qed.

(** The [while lo < hi] loop of the two binary searches; [goes_right mid] is
    the loop's comparison at [mid]. *)
Equations? search_loop (goes_right : nat -> panics bool) (lo hi : nat) : panics nat
  by wf (hi - lo) lt :=
search_loop goes_right lo hi with decide (lo < hi) => {
  | right _ => Some lo;
  | left Hlt with goes_right (midpoint lo hi) => {
      | None => None;
      | Some true => search_loop goes_right (midpoint lo hi + 1) hi;
      | Some false => search_loop goes_right lo (midpoint lo hi) } }.
Proof. all: pose proof (midpoint_bounds lo hi); lia. Defined.

(** [RingBuffer::lower_bound_idx]. *)
Definition lower_bound_idx (rb : t) (threshold : Z) : panics nat :=
  search_loop (fun mid => (fun t => (t <? threshold)%Z) <$> ts_at rb mid) 0 (len rb).

(** [RingBuffer::upper_bound_idx]. *)
Definition upper_bound_idx (rb : t) (threshold : Z) : panics nat :=
  search_loop (fun mid => (fun t => (t <=? threshold)%Z) <$> ts_at rb mid) 0 (len rb).

(** The slice [&buf[a..b]], which panics unless [a <= b <= buf.len()]. *)
Definition slice (l : list Candle) (a b : nat) : panics (list Candle) :=
  if (a <=? b) && (b <=? length l) then Some (take (b - a) (drop a l)) else None.

(** [RingBuffer::copy_logical_range].  Its [debug_assert] is modelled as the
    panic it is in a debug build; in a release build [hi - lo] would wrap. *)
Definition copy_logical_range (rb : t) (lo hi : nat) : panics (list Candle) :=
  if negb ((lo <=? hi) && (hi <=? len rb)) then None
  else if lo =? hi then Some []
  else
    let cap := length (buf rb) in
    let start_phys := physical_idx rb lo in
    let count := hi - lo in
    if start_phys + count <=? cap then slice (buf rb) start_phys (start_phys + count)
    else
      let first := cap - start_phys in
      a ← slice (buf rb) start_phys cap;
      b ← slice (buf rb) 0 (count - first);
      Some (a ++ b).

(** [RingBuffer::to_vec]. *)
Definition to_vec (rb : t) : panics (list Candle) :=
  copy_logical_range rb 0 (len rb).

(** [RingBuffer::range]. *)
Definition range (rb : t) (from_ts to_ts : Z) : panics (list Candle) :=
  if (len rb =? 0) || (to_ts <? from_ts)%Z then Some []
  else
    lo ← lower_bound_idx rb from_ts;
    hi ← upper_bound_idx rb to_ts;
    copy_logical_range rb lo hi.

(** [RingBuffer::last_n]. *)
Definition last_n (rb : t) (n : nat) : panics (list Candle) :=
  let take_ := n `min` len rb in
  if take_ =? 0 then Some []
  else copy_logical_range rb (len rb - take_) (len rb).

(** [RingBuffer::oldest_ts]. *)
Definition oldest_ts (rb : t) : panics (option Z) :=
  if len rb =? 0 then Some None else Some <$> ts_at rb 0.

(** Pushing a sequence of candles in order, outcomes collected. *)
Fixpoint push_all (rb : t) (cs : list Candle) : panics (t * list PushOutcome) :=
  match cs with
  | [] => Some (rb, [])
  | c :: cs' =>
      '(rb1, o) ← push rb c;
      '(rb2, os) ← push_all rb1 cs';
      Some (rb2, o :: os)
  end.

(** ** Abstraction and invariant *)

(** The logical contents, oldest first. *)
Definition contents (rb : t) : list Candle :=
  if len rb <? length (buf rb) then take (len rb) (buf rb)
  else drop (head rb) (buf rb) ++ take (head rb) (buf rb).

Record wf (rb : t) : Prop := {
  wf_head : head rb < capacity rb;
  wf_len : len rb <= capacity rb;
  wf_partial : len rb < capacity rb -> head rb = len rb;
  wf_last : last_ts rb = ts <$> last (contents rb)
}.

Lemma contents_length rb : wf rb -> length (contents rb) = len rb.
Proof.
  intros [Hh Hl Hp _]. unfold contents, capacity in *. destruct (Nat.ltb_spec (len rb) (length (buf rb))).
  - rewrite length_take. lia.
  - rewrite length_app, length_drop, length_take. lia.
Qed.

Lemma contents_lookup rb i : wf rb -> i < len rb -> contents rb !! i = buf rb !! physical_idx rb i.
Proof.
  intros [Hh Hl Hp _] Hi. unfold contents, physical_idx, capacity in *.
  destruct (Nat.ltb_spec (len rb) (length (buf rb))) as [H|H].
  - rewrite lookup_take_lt by done. simpl. destruct (Nat.leb_spec (length (buf rb)) i); [lia|done].
  - destruct (Nat.leb_spec (length (buf rb)) (head rb + i)).
    + rewrite lookup_app_r by (rewrite length_drop; lia). rewrite length_drop, lookup_take_lt by lia.
      f_equal. lia.
    + rewrite lookup_app_l by (rewrite length_drop; lia). by rewrite lookup_drop.
Qed.

Lemma new_wf cap : 0 < cap -> wf (new cap) /\ contents (new cap) = [] /\ capacity (new cap) = cap.
Proof.
  intros H. unfold capacity, contents, new. simpl. rewrite length_replicate.
  destruct (Nat.ltb_spec 0 cap); [|lia]. split; [|done].
  split; unfold capacity, contents; simpl; rewrite ?length_replicate; try lia.
  destruct (Nat.ltb_spec 0 cap); [done|lia].
Qed.

(** The ring after a push, as a record. *)
Definition pushed (rb : t) (c : Candle) : t :=
  mkRing (<[head rb := c]> (buf rb)) ((head rb + 1) mod length (buf rb))
    (if len rb <? length (buf rb) then len rb + 1 else len rb) (Some (ts c)).

Lemma push_contents rb c :
  wf rb -> contents (pushed rb c) = lastn (capacity rb) (contents rb ++ [c]).
Proof.
  intros Hwf. pose proof (contents_length rb Hwf) as Hcl. destruct Hwf as [Hh Hl Hp Hlast].
  pose proof (rotate_insert (buf rb) (head rb) c Hh) as Hr.
  unfold capacity, contents, pushed in *. cbn [buf head len last_ts] in *. rewrite length_insert in *.
  destruct (Nat.ltb_spec (len rb) (length (buf rb))) as [Hlt|Hge].
  - rewrite (Hp Hlt) in *. rewrite lastn_all by (rewrite length_app, Hcl; simpl; lia).
    destruct (Nat.ltb_spec (len rb + 1) (length (buf rb))) as [H|H].
    + rewrite insert_take_drop by lia.
      change (c :: drop (S (len rb)) (buf rb)) with ([c] ++ drop (S (len rb)) (buf rb)).
      rewrite app_assoc, take_app_length'; [done|]. rewrite length_app, length_take. simpl. lia.
    + rewrite Hr, drop_ge by lia. done.
  - destruct (Nat.ltb_spec (len rb) (length (buf rb))); [lia|]. rewrite Hr. unfold lastn.
    rewrite !length_app, length_drop, length_take. simpl.
    replace (_ - length (buf rb)) with 1 by lia.
    destruct (lookup_lt_is_Some_2 (buf rb) (head rb) Hh) as [x Hx].
    by rewrite <- !app_assoc, (drop_S (buf rb) x (head rb) Hx).
Qed.

(** The abstract effect of a push: append, keep the newest [cap]. *)
Lemma push_spec rb c :
  wf rb ->
  exists rb' o, push rb c = Some (rb', o) /\ wf rb' /\ capacity rb' = capacity rb /\
    contents rb' = lastn (capacity rb) (contents rb ++ [c]) /\
    o = match last (contents rb) with
        | Some p => if (ts c <? ts p)%Z then OutOfOrder (ts p) (ts c) else PushOk
        | None => PushOk
        end.
Proof.
  intros Hwf. pose proof (contents_length rb Hwf) as Hcl.
  pose proof (push_contents rb c Hwf) as Hc. destruct Hwf as [Hh Hl Hp Hlast].
  eexists (pushed rb c), _. split.
  { unfold push. unfold capacity in Hh. by rewrite (proj2 (Nat.ltb_lt _ _) Hh), Hlast, length_insert. }
  split_and!; [|unfold capacity, pushed; simpl; apply length_insert|done|by destruct (last (contents rb))].
  unfold capacity in *.
  split; [..|by rewrite Hc, last_lastn, last_snoc by lia].
  all: unfold capacity, pushed; cbn [buf head len]; rewrite length_insert.
  - apply Nat.mod_upper_bound. lia.
  - destruct (Nat.ltb_spec (len rb) (length (buf rb))); lia.
  - destruct (Nat.ltb_spec (len rb) (length (buf rb))); [|lia].
    intros. rewrite Hp, Nat.mod_small; lia.
Qed.

(** ** Queries on the abstract contents *)

Lemma physical_idx_lt rb i : wf rb -> i < len rb -> physical_idx rb i < capacity rb.
Proof.
  intros [Hh Hl Hp _] Hi. unfold physical_idx, capacity in *.
  destruct (Nat.ltb_spec (len rb) (length (buf rb))), (Nat.leb_spec (length (buf rb)) (0 + i)),
    (Nat.leb_spec (length (buf rb)) (head rb + i)); lia.
Qed.

(** Consecutive logical positions are consecutive physical ones, modulo one
    wrap at the capacity. *)
Lemma physical_idx_add rb lo i :
  wf rb -> lo + i < len rb ->
  physical_idx rb (lo + i) =
    if physical_idx rb lo + i <? capacity rb then physical_idx rb lo + i
    else physical_idx rb lo + i - capacity rb.
Proof.
  intros [Hh Hl Hp _] Hi. unfold physical_idx, capacity in *.
  destruct (Nat.ltb_spec (len rb) (length (buf rb))); simpl;
  repeat match goal with |- context [?a <=? ?b] => destruct (Nat.leb_spec a b) end;
  repeat match goal with |- context [?a <? ?b] => destruct (Nat.ltb_spec a b) end; lia.
Qed.

Lemma slice_some (l : list Candle) a b :
  a <= b <= length l -> slice l a b = Some (take (b - a) (drop a l)).
Proof.
  intros H. unfold slice. by rewrite (proj2 (Nat.leb_le a b)), (proj2 (Nat.leb_le b _)) by lia.
Qed.

Lemma copy_logical_range_spec rb lo hi :
  wf rb -> lo <= hi <= len rb ->
  copy_logical_range rb lo hi = Some (take (hi - lo) (drop lo (contents rb))).
Proof.
  intros Hwf Hlohi. unfold copy_logical_range.
  rewrite (proj2 (Nat.leb_le lo hi)), (proj2 (Nat.leb_le hi _)) by lia. simpl.
  destruct (Nat.eqb_spec lo hi) as [->|Hne]; [by rewrite Nat.sub_diag|].
  pose proof (physical_idx_lt rb lo Hwf ltac:(lia)) as Hs. pose proof (wf_len _ Hwf) as Hl.
  set (sp := physical_idx rb lo) in *. unfold capacity in *.
  assert (Hrhs : forall i, i < hi - lo -> take (hi - lo) (drop lo (contents rb)) !! i =
     buf rb !! (if sp + i <? length (buf rb) then sp + i else sp + i - length (buf rb))).
  { intros i Hi. rewrite lookup_take_lt, lookup_drop, contents_lookup, physical_idx_add by (done || lia). done. }
  assert (Hlen : length (take (hi - lo) (drop lo (contents rb))) = hi - lo).
  { rewrite length_take, length_drop, contents_length by done. lia. }
  destruct (Nat.leb_spec (sp + (hi - lo)) (length (buf rb))) as [Hc|Hc].
  - rewrite slice_some by lia. f_equal. apply list_eq_same_length with (n := hi - lo); [done| |].
    { rewrite length_take, length_drop. lia. }
    intros i x y Hi. rewrite (Hrhs i Hi), lookup_take_lt, lookup_drop by lia.
    destruct (Nat.ltb_spec (sp + i) (length (buf rb))); [congruence|lia].
  - rewrite !slice_some by lia. simpl. f_equal. apply list_eq_same_length with (n := hi - lo); [done| |].
    { rewrite length_app, !length_take, !length_drop. lia. }
    intros i x y Hi. rewrite (Hrhs i Hi), drop_0.
    destruct (Nat.ltb_spec (sp + i) (length (buf rb))).
    + rewrite lookup_app_l by (rewrite length_take, length_drop; lia).
      rewrite lookup_take_lt, lookup_drop by lia. congruence.
    + rewrite lookup_app_r, length_take, length_drop by (rewrite length_take, length_drop; lia).
      rewrite lookup_take_lt by lia.
      replace (i - ((length (buf rb) - sp) `min` (length (buf rb) - sp))) with (sp + i - length (buf rb)) by lia.
      congruence.
Qed.

Lemma ts_at_spec rb i : wf rb -> i < len rb -> ts_at rb i = ts <$> contents rb !! i.
Proof. intros Hwf Hi. unfold ts_at. by rewrite contents_lookup. Qed.

(** ** Binary search *)

Lemma search_loop_step g lo hi :
  search_loop g lo hi =
    if decide (lo < hi) then
      match g (midpoint lo hi) with
      | None => None
      | Some true => search_loop g (midpoint lo hi + 1) hi
      | Some false => search_loop g lo (midpoint lo hi)
      end
    else Some lo.
Proof.
  rewrite (search_loop_equation_1 g lo hi). destruct (decide (lo < hi)); simpl; [|done].
  by destruct (g (midpoint lo hi)) as [[]|].
Qed.

(** Induction along the shrinking interval of the loop. *)
Lemma interval_ind (P : nat -> nat -> Prop) :
  (forall lo hi, (forall lo' hi', hi' - lo' < hi - lo -> P lo' hi') -> P lo hi) ->
  forall lo hi, P lo hi.
Proof.
  intros Hstep lo hi. remember (hi - lo) as n eqn:E. revert lo hi E.
  induction n as [n IH] using lt_wf_ind. intros lo hi ->. apply Hstep. intros. eapply IH; eauto.
Qed.

Section search.
Context (g : nat -> panics bool) (p : nat -> bool).

(** The search stays in its interval and never panics when the comparison is
    defined on the interval. *)
Lemma search_loop_bounds lo hi :
  lo <= hi -> (forall i, lo <= i < hi -> g i = Some (p i)) ->
  exists r, search_loop g lo hi = Some r /\ lo <= r <= hi.
Proof.
  induction lo, hi as [lo hi IH] using interval_ind. intros Hle Hp. rewrite search_loop_step.
  destruct (decide (lo < hi)) as [Hlt|]; [|eauto with lia].
  pose proof (midpoint_bounds lo hi Hlt). rewrite Hp by lia. destruct (p (midpoint lo hi)).
  - destruct (IH (midpoint lo hi + 1) hi) as (r & -> & ?); [lia..|intros; apply Hp; lia|]. eauto with lia.
  - destruct (IH lo (midpoint lo hi)) as (r & -> & ?); [lia..|intros; apply Hp; lia|]. eauto with lia.
Qed.

(** On a predicate that is true up to some position and false after it, the
    search finds that position. *)
Lemma search_loop_partition lo hi r :
  (forall i, lo <= i < hi -> g i = Some (p i)) ->
  (forall i j, lo <= i <= j -> j < hi -> p j = true -> p i = true) ->
  search_loop g lo hi = Some r ->
  (forall i, lo <= i < r -> p i = true) /\ (forall i, r <= i < hi -> p i = false).
Proof.
  induction lo, hi as [lo hi IH] using interval_ind. intros Hp Hmono. rewrite search_loop_step.
  destruct (decide (lo < hi)) as [Hlt|]; [|intros [= <-]; split; intros; lia].
  pose proof (midpoint_bounds lo hi Hlt). rewrite Hp by lia.
  destruct (p (midpoint lo hi)) eqn:E; intros Hr.
  - destruct (IH (midpoint lo hi + 1) hi) as [H1 H2]; [lia|intros; apply Hp; lia| |done|].
    { intros i j Hi Hj. apply Hmono; lia. }
    split; [|intros; apply H2; lia]. intros i Hi.
    destruct (decide (i <= midpoint lo hi)); [|apply H1; lia].
    apply Hmono with (midpoint lo hi); [lia..|done].
  - destruct (IH lo (midpoint lo hi)) as [H1 H2]; [lia|intros; apply Hp; lia| |done|].
    { intros i j Hi Hj. apply Hmono; lia. }
    split; [done|]. intros i Hi. destruct (decide (i < midpoint lo hi)); [apply H2; lia|].
    destruct (p i) eqn:Ei; [|done]. rewrite (Hmono (midpoint lo hi) i) in E; [done|lia..|done].
Qed.

End search.

(** A pointwise weaker comparison never makes the search end further left,
    whatever the order of the data. *)
Lemma search_loop_mono g1 g2 p1 p2 lo hi r1 r2 :
  lo <= hi ->
  (forall i, lo <= i < hi -> g1 i = Some (p1 i)) -> (forall i, lo <= i < hi -> g2 i = Some (p2 i)) ->
  (forall i, p1 i = true -> p2 i = true) ->
  search_loop g1 lo hi = Some r1 -> search_loop g2 lo hi = Some r2 -> r1 <= r2.
Proof.
  intros Hle Hp1 Hp2 Himp. revert Hle Hp1 Hp2.
  induction lo, hi as [lo hi IH] using interval_ind. intros Hle Hp1 Hp2.
  rewrite (search_loop_step g1), (search_loop_step g2).
  destruct (decide (lo < hi)) as [Hlt|]; [|intros [= <-] [= <-]; lia].
  pose proof (midpoint_bounds lo hi Hlt) as Hm. rewrite Hp1, Hp2 by lia.
  assert (Hr : forall lo' hi', hi' - lo' < hi - lo -> lo <= lo' <= hi' /\ hi' <= hi ->
            search_loop g1 lo' hi' = Some r1 -> search_loop g2 lo' hi' = Some r2 -> r1 <= r2).
  { intros. apply (IH lo' hi'); try done; try lia; intros; (apply Hp1 || apply Hp2); lia. }
  destruct (p1 (midpoint lo hi)) eqn:E1, (p2 (midpoint lo hi)) eqn:E2; intros H1 H2.
  - apply (Hr (midpoint lo hi + 1) hi); lia || done.
  - rewrite Himp in E2; done.
  - destruct (search_loop_bounds g1 p1 lo (midpoint lo hi)) as (? & E3 & ?); [lia|intros; apply Hp1; lia|].
    destruct (search_loop_bounds g2 p2 (midpoint lo hi + 1) hi) as (? & E4 & ?); [lia|intros; apply Hp2; lia|].
    rewrite H1 in E3. rewrite H2 in E4. injection E3. injection E4. lia.
  - apply (Hr lo (midpoint lo hi)); lia || done.
Qed.

(** ** The queries against the abstract contents *)

Section queries.
Context (rb : t) (Hwf : wf rb).

Lemma bound_comparison (f : Z -> bool) i :
  i < len rb ->
  f <$> ts_at rb i = Some (default false (f <$> (ts <$> contents rb !! i))).
Proof.
  intros Hi. rewrite ts_at_spec by done.
  destruct (lookup_lt_is_Some_2 (contents rb) i) as [x ->]; [by rewrite contents_length|done].
Qed.

Lemma search_in_range (f : Z -> bool) :
  exists r, search_loop (fun mid => f <$> ts_at rb mid) 0 (len rb) = Some r /\ 0 <= r <= len rb.
Proof.
  apply search_loop_bounds with (p := fun i => default false (f <$> (ts <$> contents rb !! i))); [lia|].
  intros. apply bound_comparison. lia.
Qed.

(** Both bounds exist, and the lower one is never above the upper one, even
    when the stored timestamps are out of order. *)
Lemma bounds_ordered from_ts to_ts :
  (from_ts <= to_ts)%Z ->
  exists lo hi, lower_bound_idx rb from_ts = Some lo /\ upper_bound_idx rb to_ts = Some hi /\
    lo <= hi <= len rb.
Proof.
  intros Hft. unfold lower_bound_idx, upper_bound_idx.
  set (p := fun (f : Z -> bool) i => default false (f <$> (ts <$> contents rb !! i))).
  destruct (search_in_range (fun t => (t <? from_ts)%Z)) as (lo & Hlo & ?).
  destruct (search_in_range (fun t => (t <=? to_ts)%Z)) as (hi & Hhi & ?).
  exists lo, hi. rewrite Hlo, Hhi. split_and!; [done..| |lia].
  eapply (search_loop_mono _ _ (p (fun t => (t <? from_ts)%Z)) (p (fun t => (t <=? to_ts)%Z)));
    [..|exact Hlo|exact Hhi]; [lia|intros; apply bound_comparison; lia..|].
  intros i. unfold p. simpl. destruct (contents rb !! i); simpl; [|done]. lia.
Qed.

Lemma range_slice from_ts to_ts :
  exists k n, range rb from_ts to_ts = Some (take n (drop k (contents rb))).
Proof.
  unfold range. destruct ((len rb =? 0) || (to_ts <? from_ts)%Z) eqn:E; [by exists 0, 0|].
  apply orb_false_iff in E as [_ E].
  destruct (bounds_ordered from_ts to_ts) as (lo & hi & -> & -> & H); [lia|].
  exists lo, (hi - lo). simpl. by apply copy_logical_range_spec.
Qed.

(** On sorted contents the binary-searched range is the linear filter. *)
Lemma range_sorted from_ts to_ts :
  ts_sorted (contents rb) ->
  range rb from_ts to_ts = Some (filter (in_window from_ts to_ts) (contents rb)).
Proof.
  intros Hs. unfold range. destruct (len rb =? 0) eqn:E0; simpl.
  { apply Nat.eqb_eq in E0. rewrite <- contents_length in E0 by done.
    by apply nil_length_inv in E0 as ->. }
  destruct (to_ts <? from_ts)%Z eqn:E1.
  { rewrite filter_drop_all; [done|]. apply Forall_true. unfold in_window. lia. }
  destruct (bounds_ordered from_ts to_ts) as (lo & hi & Hlo & Hhi & Hb); [lia|].
  rewrite Hlo, Hhi. simpl. rewrite copy_logical_range_spec by done. f_equal. symmetry.
  set (p := fun (f : Z -> bool) i => default false (f <$> (ts <$> contents rb !! i))).
  assert (Hmono : forall f : Z -> bool, (forall a b, (a <= b)%Z -> f b = true -> f a = true) ->
     forall i j, 0 <= i <= j -> j < len rb -> p f j = true -> p f i = true).
  { intros f Hf i j Hij Hj. unfold p.
    destruct (lookup_lt_is_Some_2 (contents rb) i) as [a Ha]; [rewrite contents_length by done; lia|].
    destruct (lookup_lt_is_Some_2 (contents rb) j) as [b Hb']; [rewrite contents_length by done; lia|].
    rewrite Ha, Hb'. simpl. apply Hf. eapply Hs; [|done..]. lia. }
  eapply (search_loop_partition _ (p (fun t => (t <? from_ts)%Z))) in Hlo as [L1 L2];
    [|intros; apply bound_comparison; lia|apply Hmono; lia].
  eapply (search_loop_partition _ (p (fun t => (t <=? to_ts)%Z))) in Hhi as [U1 U2];
    [|intros; apply bound_comparison; lia|apply Hmono; lia].
  apply filter_slice; [by rewrite contents_length|]. intros i x Hx.
  apply lookup_lt_Some in Hx as Hi. rewrite contents_length in Hi by done. unfold in_window, p in *.
  specialize (L1 i). specialize (L2 i). specialize (U1 i). specialize (U2 i). rewrite Hx in *. simpl in *.
  destruct (decide (i < lo)), (decide (i < hi)); lia.
Qed.

Lemma last_n_contents n : last_n rb n = Some (lastn n (contents rb)).
Proof.
  unfold last_n, lastn. rewrite contents_length by done. destruct (n `min` len rb =? 0) eqn:E.
  - apply Nat.eqb_eq in E. rewrite drop_ge; [done|]. rewrite contents_length by done. lia.
  - rewrite copy_logical_range_spec by (done || lia). f_equal.
    rewrite take_ge by (rewrite length_drop, contents_length by done; lia). f_equal. lia.
Qed.

Lemma to_vec_contents : to_vec rb = Some (contents rb).
Proof.
  unfold to_vec. rewrite copy_logical_range_spec by (done || lia).
  rewrite drop_0, take_ge; [done|]. rewrite contents_length by done. lia.
Qed.

Lemma oldest_ts_contents : oldest_ts rb = Some (ts <$> list.head (contents rb)).
Proof.
  unfold oldest_ts. pose proof (contents_length rb Hwf) as Hl. destruct (len rb) eqn:E.
  - by apply nil_length_inv in Hl as ->.
  - rewrite ts_at_spec by (done || lia). by destruct (contents rb).
Qed.

End queries.

(** ** Histories of pushes *)

Lemma push_all_spec rb cs :
  wf rb ->
  exists rb' os, push_all rb cs = Some (rb', os) /\ wf rb' /\ capacity rb' = capacity rb /\
    contents rb' = lastn (capacity rb) (contents rb ++ cs) /\ length os = length cs.
Proof.
  revert rb. induction cs as [|c cs IH]; intros rb Hwf; simpl.
  - eexists _, _. split; [done|]. rewrite app_nil_r, lastn_all; [done|].
    rewrite contents_length by done. apply wf_len, Hwf.
  - destruct (push_spec rb c Hwf) as (rb1 & o & -> & Hwf1 & Hcap1 & Hc1 & _). simpl.
    destruct (IH rb1 Hwf1) as (rb2 & os & -> & Hwf2 & Hcap2 & Hc2 & Hlen). simpl.
    eexists _, _. split; [done|]. split; [done|]. split; [congruence|]. split; [|simpl; by f_equal].
    rewrite Hc2, Hc1, Hcap1, lastn_app_lastn. by rewrite <- app_assoc.
Qed.

Lemma push_all_sorted rb cs rb' os :
  wf rb -> ts_sorted (contents rb) -> push_all rb cs = Some (rb', os) ->
  Forall (fun o => o = PushOk) os -> ts_sorted (contents rb').
Proof.
  revert rb os. induction cs as [|c cs IH]; intros rb os Hwf Hs Hp Hos; simpl in Hp; [by simplify_eq|].
  destruct (push_spec rb c Hwf) as (rb1 & o & Hp1 & Hwf1 & Hcap1 & Hc1 & Ho).
  rewrite Hp1 in Hp. simpl in Hp. apply bind_Some in Hp as ([rb2 os2] & Hp2 & Hp). simplify_eq.
  apply Forall_cons in Hos as [Ho1 Hos]. eapply IH; [done| |done|done].
  rewrite Hc1. apply ts_sorted_drop, ts_sorted_snoc; [done|]. intros p Hp.
  rewrite Hp in Ho1. destruct (ts c <? ts p)%Z eqn:E; [done|lia].
Qed.

(** What the outcomes of a history must be: each push is compared with the
    one just before it. *)
Definition outcome_after (prev : option Z) (c : Candle) : PushOutcome :=
  match prev with
  | Some p => if (ts c <? p)%Z then OutOfOrder p (ts c) else PushOk
  | None => PushOk
  end.

Fixpoint outcomes_from (prev : option Z) (cs : list Candle) : list PushOutcome :=
  match cs with
  | [] => []
  | c :: cs' => outcome_after prev c :: outcomes_from (Some (ts c)) cs'
  end.

Lemma push_outcome rb c rb' o :
  wf rb -> push rb c = Some (rb', o) -> o = outcome_after (last_ts rb) c /\ last_ts rb' = Some (ts c).
Proof.
  intros Hwf H. unfold push in H. destruct (head rb <? length (buf rb)); [|done]. by simplify_eq.
Qed.

Lemma push_all_outcomes rb cs rb' os :
  wf rb -> push_all rb cs = Some (rb', os) -> os = outcomes_from (last_ts rb) cs.
Proof.
  revert rb os. induction cs as [|c cs IH]; intros rb os Hwf Hp; simpl in Hp; [by simplify_eq|].
  destruct (push_spec rb c Hwf) as (rb1 & o & Hp1 & Hwf1 & _).
  destruct (push_outcome _ _ _ _ Hwf Hp1) as [-> Hl].
  rewrite Hp1 in Hp. simpl in Hp. apply bind_Some in Hp as ([rb2 os2] & Hp2 & Hp). simplify_eq.
  simpl. f_equal. rewrite <- Hl. eauto.
Qed.

(** ** Properties *)

(** A candle that differs from others by its timestamp only. *)
Definition candle_at (t : Z) : Candle := mkCandle t f_one f_one f_one f_one f_one.

(** C20. A ring of positive capacity never panics on a push, and after any
    sequence of pushes [to_vec] returns exactly the newest [cap] candles in
    insertion order, wrapped or not; [len] is the smaller of the capacity and
    the number of pushes. *)
Theorem ring_keeps_newest cap cs :
  0 < cap ->
  exists rb os, push_all (new cap) cs = Some (rb, os) /\
    to_vec rb = Some (lastn cap cs) /\ len rb = cap `min` length cs /\ capacity rb = cap.
Proof.
  intros Hc. destruct (new_wf cap Hc) as (Hwf & Hn & Hcap).
  destruct (push_all_spec (new cap) cs Hwf) as (rb & os & Hp & Hwf' & Hcap' & Hcont & _).
  exists rb, os. rewrite Hn, Hcap in *. simpl in Hcont.
  rewrite to_vec_contents, Hcont, <- (contents_length rb), Hcont, length_lastn by done. done.
Qed.

Lemma ring_keeps_newest_witness :
  exists rb os, push_all (new 3) (candle_at <$> [1; 2; 3; 4]%Z) = Some (rb, os) /\
    to_vec rb = Some (lastn 3 (candle_at <$> [1; 2; 3; 4]%Z)) /\ len rb = 3 /\ capacity rb = 3.
Proof. exact (ring_keeps_newest 3 (candle_at <$> [1; 2; 3; 4]%Z) ltac:(lia)). Defined.

(** C21. When no push of the history was reported out of order, a range query
    returns exactly the candles of the ring whose timestamp lies in the
    inclusive window, in order: the two binary searches over the wrapped
    buffer agree with a linear filter. *)
Theorem ring_range_is_filter cap cs rb os from_ts to_ts :
  0 < cap -> push_all (new cap) cs = Some (rb, os) -> Forall (fun o => o = PushOk) os ->
  range rb from_ts to_ts = Some (filter (in_window from_ts to_ts) (lastn cap cs)).
Proof.
  intros Hc Hp Hos. destruct (new_wf cap Hc) as (Hwf & Hn & Hcap).
  assert (Hs : ts_sorted (contents rb)).
  { eapply push_all_sorted; [exact Hwf| |done..]. rewrite Hn. apply ts_sorted_nil. }
  destruct (push_all_spec (new cap) cs Hwf) as (rb' & os' & Hp' & Hwf' & _ & Hcont & _).
  rewrite Hp in Hp'. simplify_eq. rewrite Hn, Hcap in Hcont. simpl in Hcont.
  rewrite <- Hcont. by apply range_sorted.
Qed.

Lemma ring_range_is_filter_witness :
  exists rb os, push_all (new 4) (candle_at <$> [1; 2; 2; 5; 6; 7]%Z) = Some (rb, os) /\
    range rb 2 6 = Some (filter (in_window 2 6) (lastn 4 (candle_at <$> [1; 2; 2; 5; 6; 7]%Z))) /\
    lastn 4 (candle_at <$> [1; 2; 2; 5; 6; 7]%Z) = candle_at <$> [2; 5; 6; 7]%Z.
Proof.
  eexists _, _. split; [vm_compute; reflexivity|]. split; [|reflexivity].
  eapply (ring_range_is_filter 4 (candle_at <$> [1; 2; 2; 5; 6; 7]%Z));
    [lia|vm_compute; reflexivity|repeat constructor].
Defined.

(** Whatever was pushed, in order or not, no query on the ring panics or
    trips its assertion: the lower bound of a window never exceeds the upper
    one, [range] returns a contiguous slice of the contents, [last_n] the
    newest [n] candles, and [oldest_ts] the timestamp of the first one. *)
Theorem ring_queries_total cap cs rb os from_ts to_ts n :
  0 < cap -> push_all (new cap) cs = Some (rb, os) ->
  (exists k m, range rb from_ts to_ts = Some (take m (drop k (lastn cap cs)))) /\
  last_n rb n = Some (lastn n (lastn cap cs)) /\
  oldest_ts rb = Some (ts <$> list.head (lastn cap cs)).
Proof.
  intros Hc Hp. destruct (new_wf cap Hc) as (Hwf & Hn & Hcap).
  destruct (push_all_spec (new cap) cs Hwf) as (rb' & os' & Hp' & Hwf' & _ & Hcont & _).
  rewrite Hp in Hp'. simplify_eq. rewrite Hn, Hcap in Hcont. simpl in Hcont. rewrite <- Hcont.
  split; [by apply range_slice|]. split; [by apply last_n_contents|by apply oldest_ts_contents].
Qed.

Lemma ring_queries_total_witness :
  exists rb os, push_all (new 3) (candle_at <$> [10; 20; 15; 12]%Z) = Some (rb, os) /\
    (exists k m, range rb 13 20 = Some (take m (drop k (lastn 3 (candle_at <$> [10; 20; 15; 12]%Z))))) /\
    last_n rb 2 = Some (lastn 2 (lastn 3 (candle_at <$> [10; 20; 15; 12]%Z))) /\
    oldest_ts rb = Some (ts <$> list.head (lastn 3 (candle_at <$> [10; 20; 15; 12]%Z))).
Proof.
  eexists _, _. split; [vm_compute; reflexivity|].
  eapply (ring_queries_total 3 (candle_at <$> [10; 20; 15; 12]%Z)); [lia|vm_compute; reflexivity].
Defined.

(** A push is reported [OutOfOrder], with the two timestamps, exactly
    when its timestamp is strictly below that of the push just before it;
    the first push and equal timestamps are [Ok].  The candle is stored
    either way. *)
Theorem ring_push_outcomes cap cs rb os :
  0 < cap -> push_all (new cap) cs = Some (rb, os) -> os = outcomes_from None cs.
Proof.
  intros Hc Hp. destruct (new_wf cap Hc) as (Hwf & _). by apply (push_all_outcomes _ _ _ _ Hwf Hp).
Qed.

Lemma ring_push_outcomes_witness :
  exists rb os, push_all (new 8) (candle_at <$> [10; 20; 20; 15]%Z) = Some (rb, os) /\
    os = outcomes_from None (candle_at <$> [10; 20; 20; 15]%Z) /\
    outcomes_from None (candle_at <$> [10; 20; 20; 15]%Z) = [PushOk; PushOk; PushOk; OutOfOrder 20 15].
Proof.
  eexists _, _. split; [vm_compute; reflexivity|]. split; [|reflexivity].
  eapply (ring_push_outcomes 8 (candle_at <$> [10; 20; 20; 15]%Z)); [lia|vm_compute; reflexivity].
Defined.

End RingBuffer.
