(* ===== verification/Spsc.v ===== *)
(** * The single-producer single-consumer ring ([src/src/shm.rs])

    The heap-backed ring [SpscRing] / [SpscWriter] / [SpscReader], generic in
    the element type.  Cursors are free-running [u64]s that wrap; a slot is
    selected by masking with [capacity - 1].

    Two models are given.  [Module Spsc] is the sequential one: each method
    is a function on the shared state, and the ring refines a bounded FIFO
    queue, also across the wrap-around of the cursors.  [Module SpscConc]
    splits the two non-blocking methods at their atomic accesses and
    interleaves one producer with one consumer; an [Acquire] load of the
    other side's cursor may return any value that side stored since the
    last one observed, which is what release/acquire ordering allows. *)

From S2P Require Import Prelude.

#[local] Open Scope Z_scope.

Module Spsc.

Record t (T : Type) : Type := mkSpsc {
  slots : list T;
  capacity : Z;     (* usize *)
  head : Z;         (* u64, producer cursor *)
  tail : Z          (* u64, consumer cursor *)
}.
Arguments mkSpsc {T} slots capacity head tail.
Arguments slots {T} _.
Arguments capacity {T} _.
Arguments head {T} _.
Arguments tail {T} _.

(** [usize::is_power_of_two]. *)
Definition is_power_of_two (n : Z) : bool := (0 <? n) && (Z.land n (n - 1) =? 0).

Section ops.
Context {T : Type}.

(** [SpscRing::new]: both assertions panic; slots hold [T::default()]. *)
Definition new (dflt : T) (cap : Z) : panics (t T) :=
  if negb (0 <? cap) then None
  else if negb (is_power_of_two cap) then None
  else Some (mkSpsc (replicate (Z.to_nat cap) dflt) cap 0 0).

(** [head as usize & (capacity - 1)]. *)
Definition slot_of (cap cursor : Z) : Z := Z.land cursor (cap - 1).

(** [SpscWriter::try_push]; [self.inner.slots[slot]] is bounds checked. *)
Definition try_push (s : t T) (item : T) : panics (t T * bool) :=
  if capacity s <=? u64_wrapping_sub (head s) (tail s) then Some (s, false)
  else
    let slot := slot_of (capacity s) (head s) in
    if (Z.to_nat slot <? length (slots s))%nat then
      Some (mkSpsc (<[Z.to_nat slot := item]> (slots s)) (capacity s)
              (u64_wrapping_add (head s) 1) (tail s), true)
    else None.

(** [SpscReader::try_pop]. *)
Definition try_pop (s : t T) : panics (t T * option T) :=
  if head s =? tail s then Some (s, None)
  else
    let slot := slot_of (capacity s) (tail s) in
    item ← slots s !! Z.to_nat slot;
    Some (mkSpsc (slots s) (capacity s) (head s) (u64_wrapping_add (tail s) 1), Some item).

(** ** The bounded FIFO queue the ring implements *)

Inductive op : Type :=
| Push (x : T)
| Pop.

Inductive reply : Type :=
| Pushed (ok : bool)
| Popped (x : option T).

Definition fifo_step (cap : nat) (q : list T) (o : op) : list T * reply :=
  match o with
  | Push x => if (length q <? cap)%nat then (q ++ [x], Pushed true) else (q, Pushed false)
  | Pop => match q with [] => ([], Popped None) | x :: q' => (q', Popped (Some x)) end
  end.

Definition ring_step (s : t T) (o : op) : panics (t T * reply) :=
  match o with
  | Push x => '(s', b) ← try_push s x; Some (s', Pushed b)
  | Pop => '(s', r) ← try_pop s; Some (s', Popped r)
  end.

Fixpoint fifo_run (cap : nat) (q : list T) (os : list op) : list reply :=
  match os with
  | [] => []
  | o :: os' => let '(q', r) := fifo_step cap q o in r :: fifo_run cap q' os'
  end.

Fixpoint ring_run (s : t T) (os : list op) : panics (list reply) :=
  match os with
  | [] => Some []
  | o :: os' =>
      '(s', r) ← ring_step s o;
      rs ← ring_run s' os';
      Some (r :: rs)
  end.

(** ** Invariant *)

(** The queue [q] is stored at the positions [tail, tail + length q), taken
    modulo 2^64 by the cursors and modulo the capacity by the mask. *)
Record models (s : t T) (q : list T) : Prop := {
  m_cap : exists k, 0 <= k <= 63 /\ capacity s = 2 ^ k;
  m_slots : Z.of_nat (length (slots s)) = capacity s;
  m_tail : is_u64 (tail s);
  m_head : head s = u64_wrap (tail s + Z.of_nat (length q));
  m_len : Z.of_nat (length q) <= capacity s;
  m_data : forall i x, q !! i = Some x ->
    slots s !! Z.to_nat ((tail s + Z.of_nat i) mod capacity s) = Some x
}.

End ops.
Arguments op T : clear implicits.
Arguments reply T : clear implicits.

(** ** Powers of two *)

Lemma is_power_of_two_spec n :
  is_power_of_two n = true -> 0 < n /\ exists k, 0 <= k /\ n = 2 ^ k.
Proof.
  unfold is_power_of_two. rewrite andb_true_iff, Z.ltb_lt, Z.eqb_eq. intros [Hn Hl]. split; [done|].
  exists (Z.log2 n). pose proof (Z.log2_nonneg n). split; [done|].
  pose proof (Z.log2_spec n Hn) as [Hlo Hhi].
  destruct (Z.eq_dec n (2 ^ Z.log2 n)) as [|Hne]; [done|exfalso].
  (* otherwise the top bit survives in [n - 1] *)
  assert (Hlog : Z.log2 (n - 1) = Z.log2 n) by (apply Z.log2_unique; lia).
  assert (Hbit : Z.testbit (Z.land n (n - 1)) (Z.log2 n) = true).
  { rewrite Z.land_spec. rewrite Z.bit_log2 by lia. rewrite <- Hlog at 1.
    destruct (Z.eq_dec n 1) as [->|]; [simpl in *; lia|]. rewrite Z.bit_log2 by lia. done. }
  by rewrite Hl, Z.bits_0 in Hbit.
Qed.

Lemma slot_of_mod k cursor : 0 <= k -> slot_of (2 ^ k) cursor = cursor mod 2 ^ k.
Proof.
  intros Hk. unfold slot_of. rewrite Z.sub_1_r, <- Z.ones_equiv, Z.land_ones by lia. done.
Qed.

(** The wrap-around of a 64-bit cursor is invisible to the slot index. *)
Lemma wrap_mod_pow2 k z : 0 <= k <= 64 -> u64_wrap z mod 2 ^ k = z mod 2 ^ k.
Proof.
  intros Hk. unfold u64_wrap, u64_modulus.
  replace (2 ^ 64) with (2 ^ k * 2 ^ (64 - k)) by (rewrite <- Z.pow_add_r by lia; f_equal; lia).
  assert (0 < 2 ^ k) by (apply Z.pow_pos_nonneg; lia).
  assert (0 < 2 ^ (64 - k)) by (apply Z.pow_pos_nonneg; lia).
  rewrite Z.rem_mul_r by lia. rewrite Z.mul_comm, Z.mod_add by lia. by rewrite Z.mod_mod by lia.
Qed.

Lemma wrapping_sub_wrap a b : 0 <= a - b < u64_modulus -> u64_wrapping_sub (u64_wrap a) (u64_wrap b) = a - b.
Proof.
  intros H. unfold u64_wrapping_sub, u64_wrap in *. rewrite <- Zminus_mod. by apply Z.mod_small.
Qed.

Lemma wrapping_add_wrap a b : u64_wrapping_add (u64_wrap a) b = u64_wrap (a + b).
Proof. unfold u64_wrapping_add, u64_wrap. by rewrite Zplus_mod_idemp_l. Qed.

Lemma wrap_id z : is_u64 z -> u64_wrap z = z.
Proof. intros H. by apply Z.mod_small. Qed.

Lemma wrap_range z : is_u64 (u64_wrap z).
Proof. apply Z.mod_pos_bound. unfold u64_modulus. lia. Qed.

Lemma wrap_inj a b : 0 <= a - b < u64_modulus -> u64_wrap a = u64_wrap b -> a = b.
Proof.
  intros Hr H. pose proof (wrapping_sub_wrap a b Hr) as H1. rewrite H in H1.
  unfold u64_wrapping_sub in H1. rewrite Z.sub_diag in H1. unfold u64_wrap in H1.
  rewrite Z.mod_0_l in H1 by done. lia.
Qed.

Lemma pow2_range k : 0 <= k <= 63 -> 0 < 2 ^ k < u64_modulus.
Proof.
  intros Hk. split; [apply Z.pow_pos_nonneg; lia|]. unfold u64_modulus. apply Z.pow_lt_mono_r; lia.
Qed.

(** Two positions less than a capacity apart have different slots. *)
Lemma mod_neq a b c : 0 < c -> 0 < a - b < c -> a mod c <> b mod c.
Proof.
  intros Hc Hab H. assert (Hd : (a - b) mod c = 0) by (rewrite Zminus_mod, H, Z.sub_diag; apply Z.mod_0_l; lia).
  rewrite Z.mod_small in Hd by lia. lia.
Qed.

(** ** The methods on the abstract queue *)

Section refinement.
Context {T : Type}.
Implicit Types (s : t T) (q : list T).

Lemma new_models dflt cap s :
  is_u64 cap -> new dflt cap = Some s -> models s [] /\ capacity s = cap.
Proof.
  intros Hu. unfold new. destruct (0 <? cap) eqn:E0; [|done]. simpl.
  destruct (is_power_of_two cap) eqn:E; [|done]. intros [= <-].
  apply is_power_of_two_spec in E as (Hpos & k & Hk & ->). split; [|done]. split; simpl.
  - exists k. split; [|done]. split; [done|]. apply Z.lt_succ_r, (Z.pow_lt_mono_r_iff 2); [lia..|apply Hu].
  - rewrite length_replicate. lia.
  - by split.
  - by rewrite wrap_id.
  - lia.
  - intros i x. by rewrite lookup_nil.
Qed.

Lemma occupancy s q : models s q -> u64_wrapping_sub (head s) (tail s) = Z.of_nat (length q).
Proof.
  intros [(k & Hk & Hc) _ Ht Hh Hl _]. pose proof (pow2_range k Hk).
  pose proof (wrapping_sub_wrap (tail s + Z.of_nat (length q)) (tail s) ltac:(lia)) as H1.
  rewrite (wrap_id (tail s) Ht) in H1. rewrite Hh, H1. lia.
Qed.

Lemma slot_in_range s q cursor :
  models s q -> 0 <= slot_of (capacity s) cursor < Z.of_nat (length (slots s)).
Proof.
  intros [(k & Hk & Hc) Hs _ _ _ _]. rewrite Hs, Hc, slot_of_mod by lia.
  apply Z.mod_pos_bound, Z.pow_pos_nonneg; lia.
Qed.

Lemma try_push_full s q x :
  models s q -> Z.of_nat (length q) = capacity s -> try_push s x = Some (s, false).
Proof. intros Hm Hf. unfold try_push. rewrite (occupancy s q Hm), Hf, Z.leb_refl. done. Qed.

Lemma try_push_space s q x :
  models s q -> Z.of_nat (length q) < capacity s ->
  exists s', try_push s x = Some (s', true) /\ models s' (q ++ [x]) /\ capacity s' = capacity s.
Proof.
  intros Hm Hf. pose proof (slot_in_range s q (head s) Hm) as Hsl. unfold try_push.
  rewrite (occupancy s q Hm), (proj2 (Z.leb_gt _ _) Hf).
  rewrite (proj2 (Nat.ltb_lt _ _)) by lia. eexists. split; [reflexivity|]. split; [|done].
  destruct Hm as [(k & Hk & Hc) Hs Ht Hh Hl Hd]. split; simpl; [eauto|by rewrite length_insert|done|..].
  - rewrite Hh, wrapping_add_wrap, length_app. f_equal. simpl. lia.
  - rewrite length_app. simpl. lia.
  - assert (Hslot : slot_of (capacity s) (head s) = (tail s + Z.of_nat (length q)) mod capacity s).
    { rewrite Hc, slot_of_mod, Hh, wrap_mod_pow2 by lia. done. }
    pose proof (pow2_range k Hk). rewrite <- Hc in *.
    intros i y Hi. apply lookup_app_Some in Hi as [Hi|[Hi Hy]].
    + rewrite list_lookup_insert_ne; [by apply Hd|]. apply lookup_lt_Some in Hi.
      rewrite Hslot. intros He. apply Z2Nat.inj in He; [|apply Z.mod_pos_bound; lia..].
      revert He. apply mod_neq; lia.
    + apply list_lookup_singleton_Some in Hy as [Hi' <-]. replace i with (length q) by lia.
      rewrite <- Hslot. apply list_lookup_insert_eq. lia.
Qed.

Lemma try_pop_empty s : models s [] -> try_pop s = Some (s, None).
Proof.
  intros Hm. unfold try_pop. destruct Hm as [_ _ Ht Hh _ _]. simpl in Hh.
  rewrite Z.add_0_r, wrap_id in Hh by done. by rewrite Hh, Z.eqb_refl.
Qed.

Lemma try_pop_cons s x q :
  models s (x :: q) ->
  exists s', try_pop s = Some (s', Some x) /\ models s' q /\ capacity s' = capacity s.
Proof.
  intros Hm. unfold try_pop. pose proof (occupancy s _ Hm) as Ho.
  destruct Hm as [(k & Hk & Hc) Hs Ht Hh Hl Hd]. pose proof (pow2_range k Hk).
  destruct (head s =? tail s) eqn:E.
  { apply Z.eqb_eq in E. rewrite E in Ho. unfold u64_wrapping_sub in Ho.
    rewrite Z.sub_diag in Ho. discriminate Ho. }
  specialize (Hd 0%nat x eq_refl) as Hx. rewrite Z.add_0_r in Hx.
  rewrite Hc, slot_of_mod, <- Hc, Hx by lia. simpl. eexists. split; [reflexivity|]. split; [|done].
  assert (Hw : forall z, u64_wrapping_add (tail s) 1 + z = u64_wrap (tail s + 1) + z)
    by (intros; done).
  split; simpl; [eauto|done|apply wrap_range|..].
  - rewrite Hh, Hw. simpl. unfold u64_wrap. rewrite Zplus_mod_idemp_l. f_equal. lia.
  - simpl in Hl. lia.
  - intros i y Hi. specialize (Hd (S i) y Hi). rewrite <- Hd. do 2 f_equal. rewrite Hw.
    rewrite Hc in *. rewrite <- Zplus_mod_idemp_l, wrap_mod_pow2, Zplus_mod_idemp_l by lia. f_equal. lia.
Qed.

Lemma ring_step_refines s q o :
  models s q ->
  let '(q', r) := fifo_step (Z.to_nat (capacity s)) q o in
  exists s', ring_step s o = Some (s', r) /\ models s' q' /\ capacity s' = capacity s.
Proof.
  intros Hm. pose proof (m_len s q Hm). destruct o as [x|]; simpl.
  - destruct (Nat.ltb_spec (length q) (Z.to_nat (capacity s))).
    + destruct (try_push_space s q x Hm) as (s' & -> & ?); [lia|]. simpl. eauto.
    + rewrite (try_push_full s q x Hm) by lia. simpl. eauto.
  - destruct q as [|x q].
    + rewrite (try_pop_empty s Hm). simpl. eauto.
    + destruct (try_pop_cons s x q Hm) as (s' & -> & ?). simpl. eauto.
Qed.

Lemma ring_run_refines s q os :
  models s q -> ring_run s os = Some (fifo_run (Z.to_nat (capacity s)) q os).
Proof.
  revert s q. induction os as [|o os IH]; intros s q Hm; [done|]. simpl.
  pose proof (ring_step_refines s q o Hm) as Hstep.
  destruct (fifo_step _ q o) as [q' r]. destruct Hstep as (s' & -> & Hm' & Hc). simpl.
  rewrite (IH s' q' Hm'), Hc. done.
Qed.

End refinement.

(** A ring created with a power-of-two capacity answers every sequence
    of [try_push] / [try_pop] calls exactly as a bounded FIFO queue of that
    capacity does, and never indexes out of bounds: nothing is lost,
    duplicated, reordered or overwritten, across the wrap-around of the
    slots and of the 64-bit cursors. *)
Theorem spsc_refines_fifo {T} (dflt : T) cap s os :
  is_u64 cap -> new dflt cap = Some s ->
  ring_run s os = Some (fifo_run (Z.to_nat cap) [] os).
Proof.
  intros Hu Hn. destruct (new_models dflt cap s Hu Hn) as [Hm <-]. by apply ring_run_refines.
Qed.

Lemma spsc_refines_fifo_witness :
  exists s, new 0 2 = Some s /\
    ring_run s [Push 1; Push 2; Push 3; Pop; Push 4; Pop; Pop; Pop] =
      Some (fifo_run 2 [] [Push 1; Push 2; Push 3; Pop; Push 4; Pop; Pop; Pop]).
Proof.
  eexists. split; [reflexivity|]. apply (spsc_refines_fifo 0 2); [by split|reflexivity].
Defined.

(** The same holds from any reachable cursor position: a ring whose
    cursors are about to wrap past 2^64 continues to behave as the FIFO queue
    it holds. *)
Theorem spsc_refines_fifo_any_cursor {T} (s : t T) q os :
  models s q -> ring_run s os = Some (fifo_run (Z.to_nat (capacity s)) q os).
Proof. apply ring_run_refines. Qed.

Lemma spsc_refines_fifo_any_cursor_witness :
  let s := mkSpsc [30; 0; 10; 20] 4 1 (u64_max - 1) in
  models s [10; 20; 30] /\
  ring_run s [Push 40; Push 50; Pop; Pop; Pop; Pop; Pop] =
    Some (fifo_run 4 [10; 20; 30] [Push 40; Push 50; Pop; Pop; Pop; Pop; Pop]).
Proof.
  intros s. assert (Hm : models s [10; 20; 30]).
  { split; simpl; [by exists 2|done|by split|done|lia|].
    intros [|[|[|i]]] x; simpl; intros [= <-]; reflexivity. }
  split; [done|]. exact (spsc_refines_fifo_any_cursor s [10; 20; 30] _ Hm).
Defined.

End Spsc.

(** ** One producer and one consumer, interleaved *)

Module SpscConc.
Import Spsc.

(** Where the producer is inside [try_push]: between calls; past the
    fullness check with the cursor it read; past the slot write. *)
Inductive wpc (T : Type) : Type :=
| WIdle
| WChecked (item : T) (h : Z)
| WWritten (item : T) (h : Z).
Arguments WIdle {T}.
Arguments WChecked {T} item h.
Arguments WWritten {T} item h.

(** Where the consumer is inside [try_pop]. *)
Inductive rpc (T : Type) : Type :=
| RIdle
| RChecked (tl : Z)
| RRead (item : T) (tl : Z).
Arguments RIdle {T}.
Arguments RChecked {T} tl.
Arguments RRead {T} item tl.

(** The shared ring, the two program counters, and history variables: the
    number of times each cursor was stored, the newest value of the other
    cursor each side has observed (as such a count), and the items whose
    [try_push] / [try_pop] completed. *)
Record conf (T : Type) : Type := mkConf {
  ring : t T;
  wstate : wpc T;
  rstate : rpc T;
  n_head : Z;
  n_tail : Z;
  w_seen : Z;
  r_seen : Z;
  pushed : list T;
  popped : list T
}.
Arguments mkConf {T}.
Arguments ring {T} _.
Arguments wstate {T} _.
Arguments rstate {T} _.
Arguments n_head {T} _.
Arguments n_tail {T} _.
Arguments w_seen {T} _.
Arguments r_seen {T} _.
Arguments pushed {T} _.
Arguments popped {T} _.

Section conc.
Context {T : Type}.

Definition with_slots (s : t T) (l : list T) : t T := mkSpsc l (capacity s) (head s) (tail s).
Definition with_head (s : t T) (h : Z) : t T := mkSpsc (slots s) (capacity s) h (tail s).
Definition with_tail (s : t T) (tl : Z) : t T := mkSpsc (slots s) (capacity s) (head s) tl.

(** An [Acquire] load of the tail by the producer sees one of the values the
    consumer has stored since the last one observed; the [Relaxed] load of
    its own head sees the head.  The consumer's loads are symmetric. *)
Inductive step : conf T -> conf T -> Prop :=
| w_check_full c (item : T) v :
    wstate c = WIdle -> w_seen c <= v <= n_tail c ->
    capacity (ring c) <= u64_wrapping_sub (head (ring c)) (u64_wrap v) ->
    step c (mkConf (ring c) WIdle (rstate c) (n_head c) (n_tail c) v (r_seen c) (pushed c) (popped c))
| w_check_space c item v :
    wstate c = WIdle -> w_seen c <= v <= n_tail c ->
    u64_wrapping_sub (head (ring c)) (u64_wrap v) < capacity (ring c) ->
    step c (mkConf (ring c) (WChecked item (head (ring c))) (rstate c) (n_head c) (n_tail c) v (r_seen c)
              (pushed c) (popped c))
| w_write c item h :
    wstate c = WChecked item h ->
    step c (mkConf (with_slots (ring c) (<[Z.to_nat (slot_of (capacity (ring c)) h) := item]> (slots (ring c))))
              (WWritten item h) (rstate c) (n_head c) (n_tail c) (w_seen c) (r_seen c) (pushed c) (popped c))
| w_publish c item h :
    wstate c = WWritten item h ->
    step c (mkConf (with_head (ring c) (u64_wrapping_add h 1)) WIdle (rstate c)
              (n_head c + 1) (n_tail c) (w_seen c) (r_seen c) (pushed c ++ [item]) (popped c))
| r_check_empty c v :
    rstate c = RIdle -> r_seen c <= v <= n_head c -> u64_wrap v = tail (ring c) ->
    step c (mkConf (ring c) (wstate c) RIdle (n_head c) (n_tail c) (w_seen c) v (pushed c) (popped c))
| r_check_some c v :
    rstate c = RIdle -> r_seen c <= v <= n_head c -> u64_wrap v <> tail (ring c) ->
    step c (mkConf (ring c) (wstate c) (RChecked (tail (ring c))) (n_head c) (n_tail c) (w_seen c) v
              (pushed c) (popped c))
| r_read c tl item :
    rstate c = RChecked tl -> slots (ring c) !! Z.to_nat (slot_of (capacity (ring c)) tl) = Some item ->
    step c (mkConf (ring c) (wstate c) (RRead item tl) (n_head c) (n_tail c) (w_seen c) (r_seen c)
              (pushed c) (popped c))
| r_release c item tl :
    rstate c = RRead item tl ->
    step c (mkConf (with_tail (ring c) (u64_wrapping_add tl 1)) (wstate c) RIdle
              (n_head c) (n_tail c + 1) (w_seen c) (r_seen c) (pushed c) (popped c ++ [item])).

Definition initial (s : t T) : conf T := mkConf s WIdle RIdle 0 0 0 0 [] [].

(** A data race: the producer is about to write the very slot the consumer
    is about to read. *)
Definition races (c : conf T) : Prop :=
  exists item h tl, wstate c = WChecked item h /\ rstate c = RChecked tl /\
    slot_of (capacity (ring c)) h = slot_of (capacity (ring c)) tl.

(** The slot of the [i]-th item ever pushed. *)
Definition cell (c : conf T) (i : Z) : option T :=
  slots (ring c) !! Z.to_nat (i mod capacity (ring c)).

Record inv (c : conf T) : Prop := {
  i_cap : exists k, 0 <= k <= 63 /\ capacity (ring c) = 2 ^ k;
  i_slots : Z.of_nat (length (slots (ring c))) = capacity (ring c);
  i_head : head (ring c) = u64_wrap (n_head c);
  i_tail : tail (ring c) = u64_wrap (n_tail c);
  i_order : 0 <= w_seen c <= n_tail c /\ n_tail c <= r_seen c <= n_head c;
  i_room : n_head c <= w_seen c + capacity (ring c);
  i_pushed : Z.of_nat (length (pushed c)) = n_head c;
  i_popped : popped c = take (Z.to_nat (n_tail c)) (pushed c);
  i_data : forall i, n_tail c <= i < n_head c -> cell c i = pushed c !! Z.to_nat i;
  i_writer : match wstate c with
             | WIdle => True
             | WChecked _ h => h = u64_wrap (n_head c) /\ n_head c < w_seen c + capacity (ring c)
             | WWritten item h => h = u64_wrap (n_head c) /\ n_head c < w_seen c + capacity (ring c) /\
                                  cell c (n_head c) = Some item
             end;
  i_reader : match rstate c with
             | RIdle => True
             | RChecked tl => tl = u64_wrap (n_tail c) /\ n_tail c < r_seen c
             | RRead item tl => tl = u64_wrap (n_tail c) /\ n_tail c < r_seen c /\
                                pushed c !! Z.to_nat (n_tail c) = Some item
             end
}.

Lemma slot_of_cell (c : conf T) i :
  inv c -> slot_of (capacity (ring c)) (u64_wrap i) = i mod capacity (ring c).
Proof. intros [(k & Hk & ->) _ _ _ _ _ _ _ _ _ _]. rewrite slot_of_mod, wrap_mod_pow2 by lia. done. Qed.

Lemma cap_range (c : conf T) : inv c -> 0 < capacity (ring c) < u64_modulus.
Proof. intros [(k & Hk & ->) _ _ _ _ _ _ _ _ _ _]. by apply pow2_range. Qed.

(** Writing the slot of the next item leaves the stored items alone. *)
Lemma write_other (c : conf T) item i :
  inv c -> n_head c < w_seen c + capacity (ring c) -> n_tail c <= i < n_head c ->
  <[Z.to_nat (n_head c mod capacity (ring c)) := item]> (slots (ring c)) !! Z.to_nat (i mod capacity (ring c)) =
    cell c i.
Proof.
  intros Hinv Hroom Hi. pose proof (cap_range c Hinv) as Hcap. destruct Hinv as [_ _ _ _ Ho _ _ _ _ _ _].
  rewrite list_lookup_insert_ne; [done|]. intros He.
  apply Z2Nat.inj in He; [|apply Z.mod_pos_bound; lia..]. revert He. apply mod_neq; lia.
Qed.

Lemma pop_extend (l : list T) n x :
  0 <= n -> l !! Z.to_nat n = Some x -> take (Z.to_nat n) l ++ [x] = take (Z.to_nat (n + 1)) l.
Proof. intros Hn Hx. replace (Z.to_nat (n + 1)) with (S (Z.to_nat n)) by lia. by rewrite (take_S_r _ _ x). Qed.

Lemma step_inv (c c' : conf T) : inv c -> step c c' -> inv c'.
Proof.
  intros Hinv Hstep. pose proof (cap_range c Hinv) as Hcap.
  pose proof Hinv as [Hk Hs Hh Ht Ho Hr Hpu Hpo Hd Hw Hrd].
  destruct Hstep as [c item v Hw0 Hv Hfull|c item v Hw0 Hv Hsp|c item h Hw0|c item h Hw0
                    |c v Hr0 Hv He|c v Hr0 Hv Hne|c tl item Hr0 Hrd0|c item tl Hr0];
    rewrite ?Hw0, ?Hr0 in *.
  - split; simpl; (done || lia || (rewrite ?Hr0; done)).
  - rewrite Hh, wrapping_sub_wrap in Hsp by lia.
    split; simpl; (done || lia).
  - destruct Hw as [-> Hroom]. rewrite slot_of_cell in * by done.
    split; simpl; try done; [by rewrite length_insert| |].
    + intros i Hi. unfold cell; simpl. rewrite write_other by done. by apply Hd.
    + split; [done|]. split; [done|]. unfold cell; simpl. apply list_lookup_insert_eq.
      pose proof (Z.mod_pos_bound (n_head c) (capacity (ring c)) ltac:(lia)). lia.
  - destruct Hw as (-> & Hroom & Hcell). split; simpl; try (done || lia).
    + by rewrite wrapping_add_wrap.
    + rewrite length_app. simpl. lia.
    + rewrite Hpo, take_app_le; [done|]. lia.
    + intros i Hi. change (cell c i = (pushed c ++ [item]) !! Z.to_nat i).
      destruct (decide (i = n_head c)) as [->|Hne].
      * rewrite lookup_app_r by lia. replace (Z.to_nat (n_head c) - length (pushed c))%nat with 0%nat by lia. done.
      * rewrite lookup_app_l by lia. apply Hd. lia.
    + destruct (rstate c) as [|tl|y tl]; [done|lia|]. destruct Hrd as (-> & ? & Hl).
      split; [done|]. split; [lia|]. by apply lookup_app_l_Some.
  - split; simpl; (done || lia).
  - assert (v <> n_tail c) by (intros ->; congruence). split; simpl; (done || lia).
  - destruct Hrd as [-> Hlt]. rewrite slot_of_cell in Hrd0 by done.
    split; simpl; try done. split; [done|]. split; [done|]. rewrite <- Hd by lia. done.
  - destruct Hrd as (-> & Hlt & Hl). split; simpl; try (done || lia).
    + by rewrite wrapping_add_wrap.
    + rewrite Hpo. apply pop_extend; [lia|done].
    + intros i Hi. apply Hd. lia.
Qed.

Lemma initial_inv (s : t T) : models s [] -> tail s = 0 -> inv (initial s).
Proof.
  intros [Hk Hs Ht Hh Hl Hd] Hz. split; simpl; try done; try lia. rewrite Hh, Hz. done.
Qed.

Lemma reachable_inv (s : t T) c : models s [] -> tail s = 0 -> rtc step (initial s) c -> inv c.
Proof.
  intros Hm Hz Hreach. remember (initial s) as c0 eqn:E.
  assert (inv c0) as Hi by (subst; by apply initial_inv). clear E. induction Hreach; eauto using step_inv.
Qed.

Lemma new_initial (dflt : T) cap s : is_u64 cap -> new dflt cap = Some s -> models s [] /\ tail s = 0.
Proof.
  intros Hu Hn. split; [by eapply new_models|]. unfold new in Hn.
  destruct (0 <? cap), (is_power_of_two cap); simpl in *; by simplify_eq.
Qed.

End conc.
Arguments conf T : clear implicits.

(** Under every interleaving of the atomic accesses of one producer and
    one consumer, with release/acquire visibility of the cursors, the popped
    items are always a prefix of the pushed items in the order they were
    pushed, at most [cap] items behind: the lock-free ring loses, duplicates
    and reorders nothing. *)
Theorem spsc_concurrent_fifo {T} (dflt : T) cap s c :
  is_u64 cap -> new dflt cap = Some s -> rtc step (initial s) c ->
  popped c = take (length (popped c)) (pushed c) /\
  (length (popped c) <= length (pushed c))%nat /\
  Z.of_nat (length (pushed c)) - Z.of_nat (length (popped c)) <= cap.
Proof.
  intros Hu Hn Hreach. destruct (new_initial dflt cap s Hu Hn) as [Hm Hz].
  assert (capacity (ring c) = cap) as Hcap.
  { destruct (new_models dflt cap s Hu Hn) as [_ <-].
    remember (initial s) as c0 eqn:E. assert (capacity (ring c0) = capacity s) as <- by (by subst).
    clear E. induction Hreach as [|? ? ? Hst _ IH]; [done|]. rewrite IH. by destruct Hst. }
  pose proof (reachable_inv s c Hm Hz Hreach) as [_ _ _ _ Ho Hr Hpu Hpo _ _ _].
  assert (length (popped c) = Z.to_nat (n_tail c)) as -> by (rewrite Hpo, length_take; lia).
  split; [done|]. lia.
Qed.

(** A run that pushes 7, starts pushing 8 and starts popping. *)
Definition demo_ring : t Z := mkSpsc [0; 0] 2 0 0.
Definition demo_conf : conf Z :=
  mkConf (mkSpsc [7; 0] 2 1 0) (WChecked 8 1) (RChecked 0) 1 0 0 1 [7] [].

Lemma demo_reachable : rtc step (initial demo_ring) demo_conf.
Proof.
  eapply rtc_l; [apply (w_check_space (initial demo_ring) 7 0); [done|simpl; lia|vm_compute; done]|].
  eapply rtc_l; [eapply w_write; reflexivity|].
  eapply rtc_l; [eapply w_publish; reflexivity|].
  eapply rtc_l; [eapply (w_check_space _ 8 0); [done|simpl; lia|vm_compute; done]|].
  eapply rtc_l; [eapply (r_check_some _ 1); [done|simpl; lia|vm_compute; done]|].
  apply rtc_refl.
Qed.

Lemma spsc_concurrent_fifo_witness :
  popped demo_conf = take (length (popped demo_conf)) (pushed demo_conf) /\
  (length (popped demo_conf) <= length (pushed demo_conf))%nat /\
  Z.of_nat (length (pushed demo_conf)) - Z.of_nat (length (popped demo_conf)) <= 2.
Proof. apply (spsc_concurrent_fifo 0 2 demo_ring); [by split|reflexivity|apply demo_reachable]. Defined.

(** C15. Under every such interleaving the producer and the consumer are
    never about to access the same slot: the unsynchronised slot accesses
    cannot race. *)
Theorem spsc_no_data_race {T} (dflt : T) cap s c :
  is_u64 cap -> new dflt cap = Some s -> rtc step (initial s) c -> ~ races c.
Proof.
  intros Hu Hn Hreach (item & h & tl & Hw & Hr & Hslot).
  destruct (new_initial dflt cap s Hu Hn) as [Hm Hz].
  pose proof (reachable_inv s c Hm Hz Hreach) as Hinv. pose proof (cap_range c Hinv).
  pose proof (i_writer c Hinv) as Hwi. pose proof (i_reader c Hinv) as Hri. pose proof (i_order c Hinv).
  rewrite Hw in Hwi. rewrite Hr in Hri. destruct Hwi as [-> ?], Hri as [-> ?].
  rewrite !slot_of_cell in Hslot by done. revert Hslot. apply mod_neq; lia.
Qed.

Lemma spsc_no_data_race_witness : ~ races demo_conf.
Proof. apply (spsc_no_data_race 0 2 demo_ring); [by split|reflexivity|apply demo_reachable]. Defined.

End SpscConc.
