(* ===== verification/Text.v ===== *)
(** * The string operations the sources use

    Rust [str] methods ([split_once], [rsplit_once]), [Path] name splitting
    ([file_stem], [extension]) and decimal formatting and parsing of machine
    integers, as functions on Rocq strings (one character per [char]; the
    sources apply them to ASCII text), with the lemmas that make a formatted
    name parse back; and the decimal text of [f64], which the standard library
    documents to round-trip, as a type class with an exact instance. *)

From Stdlib Require Import SpecFloat Ascii DecimalString DecimalZ DecimalPos DecimalN Decimal.
From S2P Require Import Prelude Float64.

#[local] Open Scope Z_scope.

Module Text.

(** ** Characters *)

Fixpoint all_chars (p : ascii -> bool) (s : string) : bool :=
  match s with
  | EmptyString => true
  | String c s' => p c && all_chars p s'
  end.

Definition is_digit (c : ascii) : bool := (48 <=? nat_of_ascii c)%nat && (nat_of_ascii c <=? 57)%nat.
Definition other_than (c : ascii) (x : ascii) : bool := negb (Ascii.eqb x c).

Lemma all_chars_app p a b : all_chars p (a +:+ b) = all_chars p a && all_chars p b.
Proof. induction a as [|c a IH]; simpl; [done|]. by rewrite IH, andb_assoc. Qed.

Lemma all_chars_impl (p q : ascii -> bool) s :
  (forall c, p c = true -> q c = true) -> all_chars p s = true -> all_chars q s = true.
Proof.
  intros H. induction s as [|c s IH]; simpl; [done|]. rewrite !andb_true_iff. intros [Hc Hs]. auto.
Qed.

Lemma app_nil_str (a : string) : a +:+ "" = a.
Proof. induction a as [|c a IH]; [done|]. exact (f_equal (String c) IH). Qed.

Lemma app_assoc_str (a b c : string) : (a +:+ b) +:+ c = a +:+ (b +:+ c).
Proof. induction a as [|x a IH]; [done|]. exact (f_equal (String x) IH). Qed.

(** ** Splitting *)

(** [str::split_once]: around the first occurrence of [c]. *)
Fixpoint split_once (c : ascii) (s : string) : option (string * string) :=
  match s with
  | EmptyString => None
  | String x s' =>
      if Ascii.eqb x c then Some (EmptyString, s')
      else '(a, b) ← split_once c s'; Some (String x a, b)
  end.

(** [str::rsplit_once]: around the last occurrence of [c]. *)
Fixpoint rsplit_once (c : ascii) (s : string) : option (string * string) :=
  match s with
  | EmptyString => None
  | String x s' =>
      match rsplit_once c s' with
      | Some (a, b) => Some (String x a, b)
      | None => if Ascii.eqb x c then Some (EmptyString, s') else None
      end
  end.

Lemma split_once_app c a b :
  all_chars (other_than c) a = true -> split_once c (a +:+ String c b) = Some (a, b).
Proof.
  induction a as [|x a IH]; simpl; [by rewrite Ascii.eqb_refl|].
  intros [Hx Ha]%andb_true_iff. unfold other_than in Hx. apply negb_true_iff in Hx. rewrite Hx.
  by rewrite IH.
Qed.

Lemma rsplit_once_none c s : all_chars (other_than c) s = true -> rsplit_once c s = None.
Proof.
  induction s as [|x s IH]; simpl; [done|]. intros [Hx Hs]%andb_true_iff. rewrite IH by done.
  unfold other_than in Hx. apply negb_true_iff in Hx. by rewrite Hx.
Qed.

Lemma rsplit_once_app c a b :
  all_chars (other_than c) b = true -> rsplit_once c (a +:+ String c b) = Some (a, b).
Proof.
  intros Hb. induction a as [|x a IH]; simpl; [by rewrite rsplit_once_none, Ascii.eqb_refl|].
  by rewrite IH.
Qed.

(** [Path::file_stem] and [Path::extension] of a file name: around its last
    dot, unless there is none or the name starts with it. *)
Definition file_stem (name : string) : string :=
  match rsplit_once "."%char name with
  | Some (EmptyString, _) | None => name
  | Some (stem, _) => stem
  end.

Definition extension (name : string) : option string :=
  match rsplit_once "."%char name with
  | Some (EmptyString, _) | None => None
  | Some (_, ext) => Some ext
  end.

Lemma file_name_parts stem ext :
  stem <> EmptyString -> all_chars (other_than ".") ext = true ->
  file_stem (stem +:+ String "." ext) = stem /\ extension (stem +:+ String "." ext) = Some ext.
Proof.
  intros Hs He. unfold file_stem, extension. rewrite rsplit_once_app by done. by destruct stem.
Qed.

(** ** Decimal numbers *)

(** [format!("{z}")]. *)
Definition print (z : Z) : string := NilZero.string_of_int (Z.to_int z).

(** [str::parse] for an unsigned type with maximum [hi]: an optional [+],
    then one or more digits. *)
Definition parse_digits (s : string) : option Z := Z.of_N ∘ N.of_uint <$> NilZero.uint_of_string s.

Definition parse_unsigned (hi : Z) (s : string) : option Z :=
  n ← parse_digits (match s with String "+" s' => s' | _ => s end);
  if n <=? hi then Some n else None.

(** An optional [+] or [-], then digits. *)
Definition parse_int (s : string) : option Z :=
  match s with
  | String "+" s' => parse_digits s'
  | String "-" s' => Z.opp <$> parse_digits s'
  | _ => parse_digits s
  end.

(** [str::parse::<i64>]: the same, in range. *)
Definition parse_i64 (s : string) : option Z :=
  z ← parse_int s;
  if (i64_min <=? z) && (z <=? i64_max) then Some z else None.

Definition u32_max : Z := 2 ^ 32 - 1.

Definition parse_u32 : string -> option Z := parse_unsigned u32_max.

(** [str::parse::<usize>] on a 64-bit target. *)
Definition parse_usize : string -> option Z := parse_unsigned u64_max.

(** [str::strip_suffix] of one character. *)
Definition strip_suffix (c : ascii) (s : string) : option string :=
  match rsplit_once c s with Some (a, EmptyString) => Some a | _ => None end.

(** ** Printed numbers parse back *)

Lemma digits_string d : all_chars is_digit (NilEmpty.string_of_uint d) = true.
Proof. induction d; simpl; auto. Qed.

Lemma print_uint_digits d : all_chars is_digit (NilZero.string_of_uint d) = true.
Proof. destruct d; try apply digits_string. done. Qed.

Lemma parse_digits_only s z : parse_digits s = Some z -> all_chars is_digit s = true.
Proof.
  unfold parse_digits. destruct (NilZero.uint_of_string s) eqn:E; [|done]. intros _.
  rewrite <- (NilZero.sus _ _ E). apply print_uint_digits.
Qed.

Lemma print_nonneg z : 0 <= z -> print z = NilZero.string_of_uint (N.to_uint (Z.to_N z)).
Proof. by destruct z. Qed.

Lemma print_neg z : z < 0 -> print z = String "-" (print (- z)).
Proof. by destruct z. Qed.

Lemma N_to_uint_nonnil n : N.to_uint n <> Nil.
Proof. destruct n as [|p]; [done|]. apply DecimalPos.Unsigned.to_uint_nonnil. Qed.

Lemma parse_digits_print z : 0 <= z -> parse_digits (print z) = Some z.
Proof.
  intros H. rewrite print_nonneg by done. unfold parse_digits.
  rewrite NilZero.usu by apply N_to_uint_nonnil. simpl.
  rewrite DecimalN.Unsigned.of_to, Z2N.id by done. done.
Qed.

Lemma print_digits z : 0 <= z -> all_chars is_digit (print z) = true.
Proof. intros H. rewrite print_nonneg by done. apply print_uint_digits. Qed.

(** The first character of a string of digits is neither sign. *)
Lemma digits_unsigned {A} (s : string) (plus minus : string -> A) (rest : A) :
  all_chars is_digit s = true ->
  match s with String "+" s' => plus s' | String "-" s' => minus s' | _ => rest end = rest.
Proof.
  destruct s as [|c s]; [done|]. simpl. intros [Hc _]%andb_true_iff.
  destruct c as [[] [] [] [] [] [] [] []]; done.
Qed.

Lemma parse_int_print z : parse_int (print z) = Some z.
Proof.
  unfold parse_int. destruct (Z.le_gt_cases 0 z) as [H|H].
  - rewrite digits_unsigned by (by apply print_digits). by apply parse_digits_print.
  - rewrite print_neg, parse_digits_print by lia. simpl. by rewrite Z.opp_involutive.
Qed.

Lemma parse_print_i64 z : is_i64 z -> parse_i64 (print z) = Some z.
Proof.
  intros [H1 H2]. unfold parse_i64. rewrite parse_int_print. simpl.
  by assert ((i64_min <=? z) && (z <=? i64_max) = true) as -> by lia.
Qed.

Lemma parse_print_u32 z : 0 <= z <= u32_max -> parse_u32 (print z) = Some z.
Proof.
  intros H. unfold parse_u32, parse_unsigned.
  assert (Hs : match print z with String "+" s' => s' | _ => print z end = print z).
  { pose proof (print_digits z ltac:(lia)) as Hd. destruct (print z) as [|c s]; [done|].
    simpl in Hd. apply andb_true_iff in Hd as [Hc _]. by destruct c as [[] [] [] [] [] [] [] []]. }
  rewrite Hs, parse_digits_print by lia. simpl. by rewrite (proj2 (Z.leb_le z u32_max)) by lia.
Qed.

Lemma print_inj a b : print a = print b -> a = b.
Proof.
  intros H. destruct (Z.le_gt_cases 0 a) as [Ha|Ha], (Z.le_gt_cases 0 b) as [Hb|Hb].
  - apply (f_equal parse_digits) in H. rewrite !parse_digits_print in H by done. congruence.
  - exfalso. rewrite (print_neg b) in H by done. pose proof (print_digits a ltac:(lia)) as Hd. by rewrite H in Hd.
  - exfalso. rewrite (print_neg a) in H by done. pose proof (print_digits b ltac:(lia)) as Hd. by rewrite <- H in Hd.
  - rewrite (print_neg a Ha), (print_neg b Hb) in H. injection H as H. apply (f_equal parse_digits) in H.
    rewrite !parse_digits_print in H by lia. injection H. lia.
Qed.

Lemma print_chars p z :
  (forall c, is_digit c = true -> p c = true) -> p "-"%char = true -> all_chars p (print z) = true.
Proof.
  intros Hd Hm. destruct (Z.le_gt_cases 0 z).
  - by eapply all_chars_impl, print_digits.
  - rewrite print_neg by lia. simpl. rewrite Hm. eapply all_chars_impl, print_digits; [done|lia].
Qed.

Lemma print_no_underscore z : all_chars (other_than "_") (print z) = true.
Proof. apply print_chars; [|done]. intros c. by destruct c as [[] [] [] [] [] [] [] []]. Qed.

(** A number followed by [-] and anything is not a number. *)
Lemma parse_i64_suffixed z s : parse_i64 (print z +:+ String "-" s) = None.
Proof.
  assert (Hn : forall z, 0 <= z -> parse_digits (print z +:+ String "-" s) = None).
  { intros x Hx. destruct (parse_digits _) eqn:E; [|done]. apply parse_digits_only in E.
    rewrite all_chars_app in E. simpl in E. by rewrite andb_false_r in E. }
  unfold parse_i64, parse_int. destruct (Z.le_gt_cases 0 z) as [H|H].
  - pose proof (print_digits z H) as Hd. pose proof (Hn z H) as Hz.
    destruct (print z) as [|c p] eqn:Ep.
    + exfalso. pose proof (parse_digits_print z H) as Hp. by rewrite Ep in Hp.
    + simpl in Hd. apply andb_true_iff in Hd as [Hc _]. simpl in *.
      by destruct c as [[] [] [] [] [] [] [] []]; try discriminate Hc; rewrite Hz.
  - rewrite print_neg by lia. simpl. by rewrite Hn by lia.
Qed.

(** ** White space *)

(** The ASCII white space of [char::is_whitespace]. *)
Definition is_space (c : ascii) : bool :=
  let n := nat_of_ascii c in ((9 <=? n) && (n <=? 13) || (n =? 32))%nat.

Definition not_space (c : ascii) : bool := negb (is_space c).

(** [str::trim]. *)
Fixpoint trim_start (s : string) : string :=
  match s with
  | String c s' => if is_space c then trim_start s' else s
  | EmptyString => EmptyString
  end.

Fixpoint trim_end (s : string) : string :=
  match s with
  | EmptyString => EmptyString
  | String c s' =>
      match trim_end s' with
      | EmptyString => if is_space c then EmptyString else String c EmptyString
      | s'' => String c s''
      end
  end.

Definition trim (s : string) : string := trim_end (trim_start s).

(** A line without spaces is what [trim] makes of it and its newline. *)
Lemma trim_line s : all_chars not_space s = true -> trim (s +:+ String (ascii_of_nat 10) EmptyString) = s.
Proof.
  assert (He : all_chars not_space s = true -> trim_end (s +:+ String (ascii_of_nat 10) EmptyString) = s).
  { induction s as [|c s IH]; [done|]. simpl. intros [Hc Hs]%andb_true_iff. rewrite IH by done.
    apply negb_true_iff in Hc. destruct s; [by rewrite Hc|done]. }
  intros H. unfold trim. destruct s as [|c s]; [done|]. pose proof H as [Hc _]%andb_true_iff.
  apply negb_true_iff in Hc. change (trim_end (if is_space c then trim_start (s +:+ String (ascii_of_nat 10) EmptyString) else (String c s +:+ String (ascii_of_nat 10) EmptyString)) = String c s).
  rewrite Hc. by apply He.
Qed.

Lemma print_not_space z : all_chars not_space (print z) = true.
Proof. apply print_chars; [|done]. intros c. by destruct c as [[] [] [] [] [] [] [] []]. Qed.

End Text.

(** ** Decimal text of floats *)

(** Decimal text of an [f64]: [format!("{x}")] and [str::parse::<f64>]. *)
Class F64Text : Type := {
  print_f64 : f64 -> string;
  parse_f64 : string -> option f64
}.

(** What the standard library documents of them: a finite number parses back
    from its shortest decimal form, which holds no white space. *)
Class F64TextLaws (T : F64Text) : Prop := {
  parse_print x : f_is_finite x = true -> parse_f64 (print_f64 x) = Some x;
  print_no_space x : f_is_finite x = true -> Text.all_chars Text.not_space (print_f64 x) = true
}.

Module PlainText.

(** A concrete text form, sign, mantissa and exponent, that satisfies the
    laws. *)
Definition sign_str (s : bool) : string := if s then "-"%string else "+"%string.

Definition plain_print (x : f64) : string :=
  match x with
  | S754_zero s => sign_str s +:+ "0e0"
  | S754_finite s m e => sign_str s +:+ Text.print (Zpos m) +:+ String "e" (Text.print e)
  | S754_infinity s => sign_str s +:+ "inf"
  | S754_nan => "NaN"
  end.

Definition plain_parse (s : string) : option f64 :=
  match s with
  | String c s' =>
      '(m, e) ← Text.split_once "e"%char s';
      m ← Text.parse_digits m; e ← Text.parse_int e;
      Some (match m with Zpos m => S754_finite (Ascii.eqb c "-") m e | _ => S754_zero (Ascii.eqb c "-") end)
  | EmptyString => None
  end.

Lemma sign_str_app b s : sign_str b +:+ s = String (if b then "-" else "+")%char s.
Proof. by destruct b. Qed.

#[local] Instance plain_text : F64Text := {| print_f64 := plain_print; parse_f64 := plain_parse |}.

#[local] Instance plain_text_laws : F64TextLaws plain_text.
Proof.
  split.
  - intros [s|s| |s m e] Hf; try done; [by destruct s|]. change (plain_parse (plain_print (S754_finite s m e)) = Some (S754_finite s m e)).
    unfold plain_print, plain_parse. rewrite sign_str_app.
    rewrite Text.split_once_app by (apply Text.print_chars; [intros c; by destruct c as [[] [] [] [] [] [] [] []]|done]).
    cbn [mbind option_bind]. rewrite Text.parse_digits_print by lia. cbn [mbind option_bind].
    rewrite Text.parse_int_print. by destruct s.
  - intros [s|s| |s m e] Hf; try done; [by destruct s|].
    change (Text.all_chars Text.not_space (sign_str s +:+ Text.print (Zpos m) +:+ String "e" (Text.print e)) = true).
    rewrite !Text.all_chars_app. cbn [Text.all_chars].
    rewrite !Text.print_not_space. by destruct s.
Qed.

End PlainText.
