(* ===== verification/Cold.v ===== *)
(** * What the store expects of cold storage

    [CandleStore] calls exactly two functions of [src/src/parquet.rs]:
    [spill], under its outer write lock during an eviction, and [query_cold]
    from [range].  This file states that boundary as a type class: the
    operations on an abstract disk, and the promises the store's own
    theorems rest on.  [Parquet.v] models the implementation and discharges
    them. *)

From S2P Require Import Prelude Float64 Candle.

#[local] Open Scope Z_scope.

(** [SpillError], with the payloads of the I/O, Arrow and Parquet libraries
    as numbers. *)
Inductive SpillError : Type :=
| SpillIo (e : Z)
| SpillArrow (e : Z)
| SpillParquet (e : Z)
| IncompatibleVersion (found max_supported : Z)
| MissingColumn (column : string)
| WrongColumnType (column : string).

#[export] Instance spill_error_eq_dec : EqDecision SpillError.
Proof. solve_decision. Defined.

(** [faults] is what the environment decides about one call: which of its
    system calls fail. *)
Class ColdStorage (disk faults : Type) : Type := {
  spill : faults -> disk -> string -> string -> list Candle -> disk * result unit SpillError;
  query_cold : disk -> string -> string -> Z -> Z -> list Candle
}.

(** A timestamp is recoverable when some query window over it returns a
    candle that carries it. *)
Definition recoverable {disk faults} `{!ColdStorage disk faults}
    (d : disk) (dir sym : string) (t : Z) : Prop :=
  forall from_ts to_ts, from_ts <= t <= to_ts ->
    exists c, In c (query_cold d dir sym from_ts to_ts) /\ ts c = t.

Class ColdStorageLaws (disk faults : Type) `{!ColdStorage disk faults} : Prop := {
  (** a successful spill makes every spilled timestamp recoverable *)
  spill_recoverable f d dir sym cs d' c :
    spill f d dir sym cs = (d', Ok tt) -> Forall (fun c => is_i64 (ts c)) cs -> In c cs ->
    recoverable d' dir sym (ts c);
  (** a spill, failed or not, forgets nothing that was recoverable *)
  spill_keeps f d dir sym cs sym' t :
    recoverable d dir sym' t -> recoverable (fst (spill f d dir sym cs)) dir sym' t;
  (** a query result is sorted by strictly increasing timestamp and lies in
      the window *)
  query_sorted d dir sym from_ts to_ts :
    StronglySorted (fun a b => ts a < ts b) (query_cold d dir sym from_ts to_ts);
  query_window d dir sym from_ts to_ts c :
    In c (query_cold d dir sym from_ts to_ts) -> in_window from_ts to_ts c
}.

(** Beyond timestamps: which candles the files hold, value by value. *)
Class ColdFiles (disk faults : Type) `{!ColdStorage disk faults} : Type := {
  on_disk : disk -> string -> string -> Candle -> Prop;
  (** a successful spill files every spilled candle as it is *)
  spill_on_disk f d dir sym cs d' c :
    spill f d dir sym cs = (d', Ok tt) -> In c cs -> on_disk d' dir sym c;
  (** a spill, failed or not, keeps every candle on file *)
  spill_keeps_on_disk f d dir sym cs sym' c :
    on_disk d dir sym' c -> on_disk (fst (spill f d dir sym cs)) dir sym' c;
  (** a query makes nothing up *)
  query_on_disk d dir sym from_ts to_ts c :
    In c (query_cold d dir sym from_ts to_ts) -> on_disk d dir sym c
}.

(** The candle itself is in a file of its symbol, and queries answer for its
    timestamp. *)
Definition filed {disk faults} `{!ColdStorage disk faults} `{!ColdFiles disk faults}
    (d : disk) (dir sym : string) (c : Candle) : Prop :=
  on_disk d dir sym c /\ recoverable d dir sym (ts c).

Section filed.
Context {disk faults : Type} `{!ColdStorage disk faults} `{!ColdStorageLaws disk faults} `{!ColdFiles disk faults}.

Lemma spill_filed f (d : disk) dir sym cs d' c :
  spill f d dir sym cs = (d', Ok tt) -> Forall (fun c => is_i64 (ts c)) cs -> In c cs -> filed d' dir sym c.
Proof. intros Hs Hall Hc. split; [by eapply spill_on_disk|by eapply spill_recoverable]. Qed.

Lemma spill_keeps_filed f (d : disk) dir sym cs sym' c :
  filed d dir sym' c -> filed (fst (spill f d dir sym cs)) dir sym' c.
Proof. intros [H1 H2]. split; [by apply spill_keeps_on_disk|by apply spill_keeps]. Qed.

(** A filed candle is what queries return for its timestamp, unless a
    different one with the same timestamp is on file too. *)
Lemma filed_answered (d : disk) dir sym c from_ts to_ts :
  filed d dir sym c -> (forall y, on_disk d dir sym y -> ts y = ts c -> y = c) -> from_ts <= ts c <= to_ts ->
  In c (query_cold d dir sym from_ts to_ts).
Proof.
  intros [_ Hr] Hu Hw. destruct (Hr _ _ Hw) as (y & Hy & Ht). rewrite <- (Hu y); [done| |done]. by eapply query_on_disk.
Qed.
End filed.
