(* ===== verification/Parquet.v ===== *)
(** * Cold storage ([src/src/parquet.rs])

    [Module Parquet] models the spill and query functions over a file system
    of directories and named files.  Everything [parquet.rs] decides itself is
    a definition: the schema and its compatibility check, column lookup and
    downcast, path escaping, the name of a spill file with its collision
    suffix and the parser of that name, the spill sequence with a fault at
    any of its calls, the directory scan with range pruning, the sort and the
    dedup.

    The Arrow and Parquet crates are parameters (class [Codec]); what the
    source relies on is stated as [CodecLaws]: building a batch from equally
    long columns of the schema's types succeeds, and reading back a written
    file yields the schema and the batch, possibly cut into several.  Reads of
    existing files are assumed not to fail at the I/O level (their contents
    may be corrupt), and [Path::exists] to answer truthfully.

    Claims: names parse back, the collision loop terminates on a free name,
    spill followed by query returns the data, spills never destroy earlier
    ones ([parquet_laws], the [ColdStorageLaws] instance used by the
    store). *)

From Stdlib Require Import Ascii.
From stdpp Require Import sorting.
From S2P Require Import Prelude Float64 Candle Text Cold.

#[local] Open Scope string_scope.
#[local] Open Scope Z_scope.

Module Parquet.

(** ** Schema *)

Definition SCHEMA_VERSION : Z := 1.
Definition SCHEMA_BRAND_KEY : string := "candlestore.brand".
Definition SCHEMA_BRAND_VALUE : string := "candlestore".
Definition SCHEMA_VERSION_KEY : string := "candlestore.schema_version".

Inductive DataType : Type := Int64 | Float64 | OtherType (tag : nat).

#[export] Instance data_type_eq_dec : EqDecision DataType.
Proof. solve_decision. Defined.

Record Schema : Type := mkSchema {
  fields : list (string * DataType);
  metadata : gmap string string
}.

Definition candle_schema : Schema :=
  mkSchema
    [("ts", Int64); ("open", Float64); ("high", Float64); ("low", Float64); ("close", Float64); ("volume", Float64)]
    (<[SCHEMA_BRAND_KEY := SCHEMA_BRAND_VALUE]> (<[SCHEMA_VERSION_KEY := Text.print SCHEMA_VERSION]> ∅)).

(** [check_schema_compat]. *)
Definition check_schema_compat (schema : Schema) : result unit SpillError :=
  let brand : option string := metadata schema !! SCHEMA_BRAND_KEY in
  let version : option Z := metadata schema !! SCHEMA_VERSION_KEY ≫= Text.parse_u32 in
  match brand, version with
  | None, None => Ok tt
  | Some b, Some v =>
      if decide (b = SCHEMA_BRAND_VALUE) then
        if v <=? SCHEMA_VERSION then Ok tt else Err (IncompatibleVersion v SCHEMA_VERSION)
      else Err (IncompatibleVersion (default 0 version) SCHEMA_VERSION)
  | _, _ => Err (IncompatibleVersion (default 0 version) SCHEMA_VERSION)
  end.

(** ** Record batches *)

Inductive Column : Type :=
| Int64Array (l : list Z)
| Float64Array (l : list f64)
| OtherArray (tag : nat) (len : nat).

Record RecordBatch : Type := mkBatch {
  num_rows : nat;
  columns : list (string * Column)
}.

Fixpoint column_by_name (cols : list (string * Column)) (name : string) : option Column :=
  match cols with
  | [] => None
  | (k, c) :: cols' => if decide (k = name) then Some c else column_by_name cols' name
  end.

Definition column_type (c : Column) : DataType :=
  match c with Int64Array _ => Int64 | Float64Array _ => Float64 | OtherArray tag _ => OtherType tag end.

Definition column_len (c : Column) : nat :=
  match c with Int64Array l => length l | Float64Array l => length l | OtherArray _ n => n end.

(** [typed_column::<T>], for each [T] it is called at. *)
Definition typed_column_i64 (batch : RecordBatch) (name : string) : result (list Z) SpillError :=
  match column_by_name (columns batch) name with
  | None => Err (MissingColumn name)
  | Some (Int64Array l) => Ok l
  | Some _ => Err (WrongColumnType name)
  end.

Definition typed_column_f64 (batch : RecordBatch) (name : string) : result (list f64) SpillError :=
  match column_by_name (columns batch) name with
  | None => Err (MissingColumn name)
  | Some (Float64Array l) => Ok l
  | Some _ => Err (WrongColumnType name)
  end.

(** ** Paths *)

(** [char::is_alphanumeric] on ASCII. *)
Definition is_alphanumeric (c : ascii) : bool :=
  let n := nat_of_ascii c in
  ((48 <=? n) && (n <=? 57) || (65 <=? n) && (n <=? 90) || (97 <=? n) && (n <=? 122))%nat.

(** [escape_symbol]. *)
Fixpoint escape_symbol (symbol : string) : string :=
  match symbol with
  | EmptyString => EmptyString
  | String c s =>
      String (if is_alphanumeric c || Ascii.eqb c "-"%char then c else "_"%char) (escape_symbol s)
  end.

(** [data_dir.join(escape_symbol(symbol))]. *)
Definition symbol_dir (data_dir symbol : string) : string := data_dir +:+ String "/" (escape_symbol symbol).

(** The file name of [cold_file_path]. *)
Definition plain_name (ts_start ts_end : Z) : string :=
  Text.print ts_start +:+ String "_" (Text.print ts_end +:+ ".parquet").

(** [format!("{ts_start}_{ts_end}-{n}.parquet")]. *)
Definition suffixed_name (ts_start ts_end n : Z) : string :=
  Text.print ts_start +:+ String "_" (Text.print ts_end +:+ String "-" (Text.print n +:+ ".parquet")).

(** [cold_file_path]. *)
Definition cold_file_path (data_dir symbol : string) (ts_start ts_end : Z) : string * string :=
  (symbol_dir data_dir symbol, plain_name ts_start ts_end).

(** [parse_ts_range] of a file name. *)
Definition parse_ts_range (name : string) : option (Z * Z) :=
  '(a, b) ← Text.split_once "_" (Text.file_stem name);
  e ← match Text.parse_i64 b with
      | Some e => Some e
      | None =>
          '(base, n) ← Text.rsplit_once "-" b;
          _ ← Text.parse_u32 n;
          Text.parse_i64 base
      end;
  s ← Text.parse_i64 a;
  Some (s, e).

(** ** Reading rows *)

(** Rows [0..n] of the six columns; [value(i)] panics past a column's end. *)
Fixpoint rows (n : nat) (tss : list Z) (os hs ls cs vs : list f64) : panics (list Candle) :=
  match n with
  | O => Some []
  | S n' =>
      match tss, os, hs, ls, cs, vs with
      | t :: tss', o :: os', h :: hs', l :: ls', c :: cs', v :: vs' =>
          rest ← rows n' tss' os' hs' ls' cs' vs';
          Some (mkCandle t o h l c v :: rest)
      | _, _, _, _, _, _ => None
      end
  end.

(** The body of [read_file]'s batch loop. *)
Definition read_batch (batch : RecordBatch) : panics (result (list Candle) SpillError) :=
  match typed_column_i64 batch "ts", typed_column_f64 batch "open", typed_column_f64 batch "high",
        typed_column_f64 batch "low", typed_column_f64 batch "close", typed_column_f64 batch "volume" with
  | Ok t, Ok o, Ok h, Ok l, Ok c, Ok v => Ok <$> rows (num_rows batch) t o h l c v
  | Err e, _, _, _, _, _ => Some (Err e)
  | _, Err e, _, _, _, _ => Some (Err e)
  | _, _, Err e, _, _, _ => Some (Err e)
  | _, _, _, Err e, _, _ => Some (Err e)
  | _, _, _, _, Err e, _ => Some (Err e)
  | _, _, _, _, _, Err e => Some (Err e)
  end.

Fixpoint read_batches (bs : list (result RecordBatch Z)) : panics (result (list Candle) SpillError) :=
  match bs with
  | [] => Some (Ok [])
  | Err e :: _ => Some (Err (SpillArrow e))
  | Ok b :: bs' =>
      r ← read_batch b;
      match r with
      | Err e => Some (Err e)
      | Ok cs =>
          r' ← read_batches bs';
          Some (match r' with Ok cs' => Ok (cs ++ cs')%list | Err e => Err e end)
      end
  end.

(** ** The Arrow and Parquet crates *)

Class Codec (bytes : Type) : Type := {
  (** [RecordBatch::try_new] *)
  record_batch_try_new : Schema -> list Column -> result RecordBatch Z;
  (** the file after [ArrowWriter::try_new], [write] and [close] *)
  arrow_writer_output : Schema -> RecordBatch -> bytes;
  (** [ParquetRecordBatchReaderBuilder::try_new] and [build]: the schema and
      the batches the reader yields *)
  reader_open : bytes -> result (Schema * list (result RecordBatch Z)) Z
}.

(** Cutting a column or a batch at row [n]. *)
Definition take_column (n : nat) (c : Column) : Column :=
  match c with
  | Int64Array l => Int64Array (take n l)
  | Float64Array l => Float64Array (take n l)
  | OtherArray tag k => OtherArray tag (n `min` k)
  end.

Definition drop_column (n : nat) (c : Column) : Column :=
  match c with
  | Int64Array l => Int64Array (drop n l)
  | Float64Array l => Float64Array (drop n l)
  | OtherArray tag k => OtherArray tag (k - n)
  end.

Definition take_batch (n : nat) (b : RecordBatch) : RecordBatch :=
  mkBatch (n `min` num_rows b) (prod_map id (take_column n) <$> columns b).
Definition drop_batch (n : nat) (b : RecordBatch) : RecordBatch :=
  mkBatch (num_rows b - n) (prod_map id (drop_column n) <$> columns b).

(** [bs] is [b] cut into consecutive batches. *)
Inductive splits : RecordBatch -> list RecordBatch -> Prop :=
| splits_empty b : num_rows b = 0%nat -> splits b []
| splits_cut n b bs : (n <= num_rows b)%nat -> splits (drop_batch n b) bs -> splits b (take_batch n b :: bs).

Definition batch_wf (b : RecordBatch) : Prop := Forall (fun x => column_len x.2 = num_rows b) (columns b).
Definition fits (schema : Schema) (b : RecordBatch) : Prop :=
  prod_map id column_type <$> columns b = fields schema.

Class CodecLaws (bytes : Type) `{!Codec bytes} : Prop := {
  (** columns of one length and of the schema's types make a batch *)
  try_new_ok schema cols n :
    column_type <$> cols = snd <$> fields schema -> Forall (fun c => column_len c = n) cols -> cols <> [] ->
    record_batch_try_new schema cols = Ok (mkBatch n (zip (fst <$> fields schema) cols));
  (** a written file reads back *)
  reader_writer schema b :
    batch_wf b -> fits schema b ->
    exists bs, reader_open (arrow_writer_output schema b) = Ok (schema, Ok <$> bs) /\ splits b bs;
  (** every batch a reader yields has columns of its row count *)
  reader_rows file schema bs b :
    reader_open file = Ok (schema, bs) -> In (Ok b) bs -> batch_wf b
}.

(** A disk: directory path to file name to contents. *)
Abbreviation disk bytes := (gmap string (gmap string bytes)).

Section disk.
Context {bytes : Type} `{!Codec bytes}.

Definition files (d : disk bytes) (dir : string) : gmap string bytes := default ∅ (d !! dir).

(** Which call of one [spill] fails, and what a writer that fails leaves in
    the file. *)
Inductive faults : Type :=
| NoFault
| MkdirFails (e : Z)
| CreateFails (e : Z)
| WriterNewFails (e : Z) (leftover : bytes)
| WriteFails (e : Z) (leftover : bytes)
| CloseFails (e : Z) (leftover : bytes).

(** ** Write *)

(** The minimum and maximum timestamps of a non-empty slice. *)
Fixpoint ts_extent (lo hi : Z) (cs : list Candle) : Z * Z :=
  match cs with
  | [] => (lo, hi)
  | c :: cs' => ts_extent (lo `min` ts c) (hi `max` ts c) cs'
  end.

(** [while path.exists() { path = ...-{n}; n += 1 }], [n] a wrapping [u32];
    [None] when the fuel runs out. *)
Fixpoint free_name (fuel : nat) (dir : gmap string bytes) (ts_start ts_end n : Z) (name : string) : option string :=
  match fuel with
  | O => None
  | S fuel' =>
      match dir !! name with
      | None => Some name
      | Some _ => free_name fuel' dir ts_start ts_end ((n + 1) mod 2 ^ 32) (suffixed_name ts_start ts_end n)
      end
  end.

Definition candle_columns (cs : list Candle) : list Column :=
  [Int64Array (ts <$> cs); Float64Array (open <$> cs); Float64Array (high <$> cs);
   Float64Array (low <$> cs); Float64Array (close <$> cs); Float64Array (volume <$> cs)].

(** [spill]. *)
Definition spill (f : faults) (d : disk bytes) (data_dir symbol : string) (candles : list Candle)
    : disk bytes * result unit SpillError :=
  match candles with
  | [] => (d, Ok tt)
  | c0 :: rest =>
      let '(ts_start, ts_end) := ts_extent (ts c0) (ts c0) rest in
      let '(dir, name0) := cold_file_path data_dir symbol ts_start ts_end in
      match f with
      | MkdirFails e => (d, Err (SpillIo e))
      | _ =>
          let d1 := <[dir := files d dir]> d in
          match free_name (S (S (size (files d dir)))) (files d dir) ts_start ts_end 1 name0 with
          | None => (d1, Err (SpillIo 0))
          | Some name =>
              match record_batch_try_new candle_schema (candle_columns candles) with
              | Err e => (d1, Err (SpillArrow e))
              | Ok batch =>
                  let write_file content := <[dir := <[name := content]> (files d dir)]> d in
                  match f with
                  | CreateFails e => (d1, Err (SpillIo e))
                  | WriterNewFails e leftover | WriteFails e leftover | CloseFails e leftover =>
                      (write_file leftover, Err (SpillParquet e))
                  | _ => (write_file (arrow_writer_output candle_schema batch), Ok tt)
                  end
              end
          end
      end
  end.

(** ** Read *)

(** [read_file] on a file's contents. *)
Definition read_file (content : bytes) : panics (result (list Candle) SpillError) :=
  match reader_open content with
  | Err e => Some (Err (SpillParquet e))
  | Ok (schema, bs) =>
      match check_schema_compat schema with
      | Err e => Some (Err e)
      | Ok _ => read_batches bs
      end
  end.

(** What one directory entry contributes to [query_cold]. *)
Definition query_entry (from_ts to_ts : Z) (x : string * bytes) : panics (list Candle) :=
  let '(name, content) := x in
  if negb (bool_decide (Text.extension name = Some "parquet")) then Some []
  else
    let disjoint :=
      match parse_ts_range name with
      | Some (file_start, file_end) => (file_end <? from_ts) || (to_ts <? file_start)
      | None => false
      end in
    if disjoint then Some []
    else
      r ← read_file content;
      Some (match r with
            | Ok candles => filter (in_window from_ts to_ts) candles
            | Err _ => []
            end).

Fixpoint query_entries (from_ts to_ts : Z) (entries : list (string * bytes)) : panics (list Candle) :=
  match entries with
  | [] => Some []
  | x :: entries' =>
      cs ← query_entry from_ts to_ts x;
      rest ← query_entries from_ts to_ts entries';
      Some (cs ++ rest)%list
  end.

(** [Vec::dedup_by_key(|c| c.ts)]: the first of each run is kept. *)
Fixpoint dedup_from (prev : Z) (cs : list Candle) : list Candle :=
  match cs with
  | [] => []
  | c :: cs' => if ts c =? prev then dedup_from prev cs' else c :: dedup_from (ts c) cs'
  end.
Definition dedup_by_ts (cs : list Candle) : list Candle :=
  match cs with
  | [] => []
  | c :: cs' => c :: dedup_from (ts c) cs'
  end.

Definition ts_le (a b : Candle) : Prop := ts a <= ts b.

#[export] Instance ts_le_dec a b : Decision (ts_le a b).
Proof. unfold ts_le. apply _. Defined.

(** [query_cold]; the entries are visited in [read_dir] order, here the
    order of the map. *)
Definition query_cold (d : disk bytes) (data_dir symbol : string) (from_ts to_ts : Z) : panics (list Candle) :=
  match d !! symbol_dir data_dir symbol with
  | None => Some []
  | Some fs =>
      out ← query_entries from_ts to_ts (map_to_list fs);
      Some (dedup_by_ts (merge_sort ts_le out))
  end.

(** ** Names *)

Lemma name_parts a b stem :
  stem = a +:+ String "_" b ->
  Text.file_stem (stem +:+ ".parquet") = stem /\ Text.extension (stem +:+ ".parquet") = Some "parquet".
Proof. intros ->. apply Text.file_name_parts; [by destruct a|done]. Qed.

Lemma plain_name_stem s e : plain_name s e = (Text.print s +:+ String "_" (Text.print e)) +:+ ".parquet".
Proof. unfold plain_name. by rewrite Text.app_assoc_str. Qed.

Lemma suffixed_name_stem s e n :
  suffixed_name s e n =
    (Text.print s +:+ String "_" (Text.print e +:+ String "-" (Text.print n))) +:+ ".parquet".
Proof.
  unfold suffixed_name. rewrite Text.app_assoc_str. f_equal. symmetry.
  exact (f_equal (String "_") (Text.app_assoc_str (Text.print e) (String "-" (Text.print n)) ".parquet")).
Qed.

Lemma parse_plain_name s e : is_i64 s -> is_i64 e -> parse_ts_range (plain_name s e) = Some (s, e).
Proof.
  intros Hs He. unfold parse_ts_range. rewrite plain_name_stem.
  rewrite (proj1 (name_parts _ _ _ eq_refl)), Text.split_once_app by apply Text.print_no_underscore.
  simpl. rewrite Text.parse_print_i64 by done. simpl. by rewrite Text.parse_print_i64 by done.
Qed.

Lemma parse_suffixed_name s e n :
  is_i64 s -> is_i64 e -> 0 <= n <= Text.u32_max -> parse_ts_range (suffixed_name s e n) = Some (s, e).
Proof.
  intros Hs He Hn. unfold parse_ts_range. rewrite suffixed_name_stem.
  rewrite (proj1 (name_parts _ _ _ eq_refl)), Text.split_once_app by apply Text.print_no_underscore.
  simpl. rewrite Text.parse_i64_suffixed, Text.rsplit_once_app.
  - simpl. rewrite Text.parse_print_u32, Text.parse_print_i64 by done. simpl. by rewrite Text.parse_print_i64.
  - eapply Text.all_chars_impl, Text.print_digits; [|lia]. intros c. by destruct c as [[] [] [] [] [] [] [] []].
Qed.

(** ** The collision loop *)

(** The names a spill may use for an extent. *)
Inductive spill_name (s e : Z) : string -> Prop :=
| spill_plain : spill_name s e (plain_name s e)
| spill_suffixed n : 0 <= n <= Text.u32_max -> spill_name s e (suffixed_name s e n).

Lemma spill_name_parses s e name :
  is_i64 s -> is_i64 e -> spill_name s e name ->
  parse_ts_range name = Some (s, e) /\ Text.extension name = Some "parquet".
Proof.
  intros Hs He [|n Hn].
  - split; [by apply parse_plain_name|]. rewrite plain_name_stem. apply (name_parts _ _ _ eq_refl).
  - split; [by apply parse_suffixed_name|]. rewrite suffixed_name_stem. apply (name_parts _ _ _ eq_refl).
Qed.

Lemma free_name_fresh fuel (dir : gmap string bytes) s e n name r :
  free_name fuel dir s e n name = Some r -> 0 <= n < 2 ^ 32 -> spill_name s e name ->
  dir !! r = None /\ spill_name s e r.
Proof.
  revert n name. induction fuel as [|fuel IH]; intros n name H Hn Hname; [done|]. simpl in H.
  destruct (dir !! name) eqn:E; [|by simplify_eq].
  apply IH in H; [done|apply Z.mod_pos_bound; lia|]. constructor. unfold Text.u32_max. lia.
Qed.

(** The [i]-th name the loop tries. *)
Definition tried (s e n : Z) (name : string) (i : nat) : string :=
  match i with O => name | S i' => suffixed_name s e (n + Z.of_nat i') end.

Lemma free_name_none fuel (dir : gmap string bytes) s e n name :
  free_name fuel dir s e n name = None -> 0 <= n -> n + Z.of_nat fuel <= 2 ^ 32 ->
  forall i, (i < fuel)%nat -> is_Some (dir !! tried s e n name i).
Proof.
  revert n name. induction fuel as [|fuel IH]; intros n name H Hn Hmax i Hi; [lia|]. simpl in H.
  destruct (dir !! name) eqn:E; [|done].
  destruct i as [|i]; [simpl; by rewrite E|].
  destruct fuel as [|fuel]; [lia|]. rewrite Z.mod_small in H by lia.
  specialize (IH _ _ H ltac:(lia) ltac:(lia) i ltac:(lia)). destruct i as [|i]; cbn [tried] in *.
  - by replace (n + Z.of_nat 0) with n by lia.
  - by replace (n + Z.of_nat (S i)) with (n + 1 + Z.of_nat i) by lia.
Qed.

Lemma suffixed_name_inj s e n m : 0 <= n -> 0 <= m -> suffixed_name s e n = suffixed_name s e m -> n = m.
Proof.
  intros Hn Hm H. unfold suffixed_name in H. apply (inj (String.append _)) in H. injection H as H.
  apply (inj (String.append _)) in H. injection H as H.
  assert (Hd : forall k, 0 <= k -> Text.split_once "." (Text.print k +:+ ".parquet") = Some (Text.print k, "parquet")).
  { intros k Hk. apply Text.split_once_app. eapply Text.all_chars_impl, Text.print_digits; [|done].
    intros c. by destruct c as [[] [] [] [] [] [] [] []]. }
  apply (f_equal (Text.split_once ".")) in H. rewrite !Hd in H by done. apply Text.print_inj. congruence.
Qed.

Lemma plain_not_suffixed s e n : plain_name s e <> suffixed_name s e n.
Proof.
  unfold plain_name, suffixed_name. intros H. apply (inj (String.append _)) in H. injection H as H.
  by apply (inj (String.append _)) in H.
Qed.

Lemma tried_inj s e i j : tried s e 1 (plain_name s e) i = tried s e 1 (plain_name s e) j -> i = j.
Proof.
  destruct i as [|i], j as [|j]; cbn [tried]; intros H; [done|..].
  - by apply plain_not_suffixed in H.
  - symmetry in H. by apply plain_not_suffixed in H.
  - apply suffixed_name_inj in H; lia.
Qed.

(** The collision loop finds a free name within one try more than there are
    files, before its [u32] counter can wrap. *)
Lemma free_name_total (dir : gmap string bytes) s e :
  Z.of_nat (size dir) + 3 <= 2 ^ 32 ->
  exists name, free_name (S (S (size dir))) dir s e 1 (plain_name s e) = Some name /\
    dir !! name = None /\ spill_name s e name.
Proof.
  intros Hsz. destruct (free_name (S (S (size dir))) dir s e 1 (plain_name s e)) as [name|] eqn:E.
  - exists name. split; [done|]. by apply (free_name_fresh _ _ _ _ _ _ _ E); [lia|constructor].
  - exfalso. pose proof (free_name_none _ _ _ _ _ _ E ltac:(lia) ltac:(lia)) as Hall.
    set (names := tried s e 1 (plain_name s e) <$> seq 0 (S (S (size dir)))).
    assert (Hnd : NoDup names).
    { apply NoDup_fmap_2_strong; [|apply NoDup_seq]. intros i j _ _. apply tried_inj. }
    assert (Hsub : (list_to_set names : gset string) ⊆ dom dir).
    { intros x Hx. apply elem_of_list_to_set, list_elem_of_fmap in Hx as (i & -> & Hi).
      apply elem_of_dom, Hall. apply elem_of_seq in Hi. lia. }
    apply subseteq_size in Hsub. rewrite size_list_to_set, size_dom in Hsub by done.
    unfold names in Hsub. rewrite length_fmap, length_seq in Hsub. lia.
Qed.

(** ** Sorting and dedup *)

#[local] Instance ts_le_total : Total ts_le.
Proof. intros a b. unfold ts_le. lia. Qed.
#[local] Instance ts_le_trans : Transitive ts_le.
Proof. intros a b c. unfold ts_le. lia. Qed.

Definition ts_lt (a b : Candle) : Prop := ts a < ts b.

Lemma dedup_from_sub prev cs : forall c, In c (dedup_from prev cs) -> In c cs.
Proof.
  revert prev. induction cs as [|x cs IH]; intros prev c; simpl; [done|].
  destruct (ts x =? prev); simpl; intros H; [eauto|destruct H; eauto].
Qed.

Lemma dedup_from_ts prev cs c :
  In c cs -> ts c = prev \/ exists c', In c' (dedup_from prev cs) /\ ts c' = ts c.
Proof.
  revert prev. induction cs as [|x cs IH]; intros prev; simpl; [done|]. intros [->|Hc].
  - destruct (Z.eqb_spec (ts c) prev); [by left|]. right. exists c. simpl. auto.
  - destruct (Z.eqb_spec (ts x) prev); [by apply IH|].
    destruct (IH (ts x) Hc) as [E|(c' & Hin & E)]; right; [exists x|exists c']; simpl; auto.
Qed.

Lemma dedup_from_sorted prev cs :
  StronglySorted ts_le cs -> Forall (fun c => prev <= ts c) cs ->
  StronglySorted ts_lt (dedup_from prev cs) /\ Forall (fun c => prev < ts c) (dedup_from prev cs).
Proof.
  intros Hs. revert prev. induction Hs as [|x cs Hs IH Hx]; intros prev Hp; simpl; [by repeat constructor|].
  apply Forall_cons in Hp as [Hpx Hp]. destruct (Z.eqb_spec (ts x) prev); [by apply IH|].
  destruct (IH (ts x)) as [Hs' Hall]; [done|]. split; [by constructor|]. constructor; [lia|].
  eapply Forall_impl; [done|]. simpl. lia.
Qed.

Lemma dedup_sorted cs : StronglySorted ts_le cs -> StronglySorted ts_lt (dedup_by_ts cs).
Proof.
  destruct 1 as [|x cs Hs Hx]; simpl; [constructor|].
  destruct (dedup_from_sorted (ts x) cs Hs Hx). by constructor.
Qed.

Lemma dedup_sub cs c : In c (dedup_by_ts cs) -> In c cs.
Proof. destruct cs as [|x cs]; simpl; [done|]. intros [->|H]; [by left|]. right. by eapply (dedup_from_sub (ts x)). Qed.

Lemma dedup_ts cs c : In c cs -> exists c', In c' (dedup_by_ts cs) /\ ts c' = ts c.
Proof.
  destruct cs as [|x cs]; simpl; [done|]. intros [->|H]; [by exists c; auto|].
  destruct (dedup_from_ts (ts x) cs c H) as [E|(c' & Hin & E)]; [exists x|exists c']; split; auto.
Qed.

(** ** Reading back what was written *)

Definition batch_of (cs : list Candle) : RecordBatch :=
  mkBatch (length cs) (zip (fst <$> fields candle_schema) (candle_columns cs)).

Lemma batch_of_wf cs : batch_wf (batch_of cs).
Proof. unfold batch_wf, batch_of. simpl. repeat constructor; simpl; by rewrite length_fmap. Qed.

Lemma take_batch_of n cs : take_batch n (batch_of cs) = batch_of (take n cs).
Proof. unfold take_batch, batch_of. simpl. by rewrite length_take, !fmap_take. Qed.

Lemma drop_batch_of n cs : drop_batch n (batch_of cs) = batch_of (drop n cs).
Proof. unfold drop_batch, batch_of. simpl. by rewrite length_drop, !fmap_drop. Qed.

Lemma rows_of cs :
  rows (length cs) (ts <$> cs) (open <$> cs) (high <$> cs) (low <$> cs) (close <$> cs) (volume <$> cs) = Some cs.
Proof. induction cs as [|[] cs IH]; [done|]. rewrite !fmap_cons. cbn [length rows]. by rewrite IH. Qed.

Lemma read_batch_of cs : read_batch (batch_of cs) = Some (Ok cs).
Proof. unfold read_batch, typed_column_i64, typed_column_f64, batch_of. simpl. by rewrite rows_of. Qed.

Lemma read_batches_of b bs : splits b bs -> forall cs, b = batch_of cs -> read_batches (Ok <$> bs) = Some (Ok cs).
Proof.
  induction 1 as [b Hb|n b bs Hn Hs IH]; intros cs ->.
  - by apply nil_length_inv in Hb as ->.
  - rewrite drop_batch_of in IH. cbn [fmap list_fmap read_batches].
    rewrite take_batch_of, read_batch_of. simpl. rewrite (IH _ eq_refl). simpl. by rewrite take_drop.
Qed.

Section laws.
Context `{!CodecLaws bytes}.

Lemma batch_built cs : cs <> [] -> record_batch_try_new candle_schema (candle_columns cs) = Ok (batch_of cs).
Proof.
  intros Hne. apply try_new_ok; [done| |done]. unfold candle_columns. repeat constructor; simpl; by rewrite length_fmap.
Qed.

Lemma read_written cs : read_file (arrow_writer_output candle_schema (batch_of cs)) = Some (Ok cs).
Proof.
  unfold read_file. destruct (reader_writer candle_schema (batch_of cs) (batch_of_wf cs) eq_refl) as (bs & -> & Hs).
  by apply (read_batches_of _ _ Hs).
Qed.

(** ** Queries never panic *)

Lemma rows_total n tss os hs ls cs vs :
  length tss = n -> length os = n -> length hs = n -> length ls = n -> length cs = n -> length vs = n ->
  is_Some (rows n tss os hs ls cs vs).
Proof.
  revert tss os hs ls cs vs. induction n as [|n IH]; intros [] [] [] [] [] []; try done; simpl.
  intros. destruct (IH l l0 l1 l2 l3 l4) as [r ->]; try lia. by eexists.
Qed.

Lemma column_by_name_in cols name c : column_by_name cols name = Some c -> exists k, In (k, c) cols.
Proof.
  induction cols as [|[k x] cols IH]; simpl; [done|]. case_decide; intros ?; simplify_eq; [by eauto|].
  destruct IH as [k' ?]; eauto.
Qed.

Lemma typed_i64_len b name l :
  batch_wf b -> typed_column_i64 b name = Ok l -> length l = num_rows b.
Proof.
  intros Hall H. unfold typed_column_i64 in H. destruct (column_by_name (columns b) name) as [c|] eqn:E; [|done].
  apply column_by_name_in in E as [k Hk]. apply (proj1 (List.Forall_forall _ _) Hall) in Hk. by destruct c; simplify_eq.
Qed.

Lemma typed_f64_len b name l :
  batch_wf b -> typed_column_f64 b name = Ok l -> length l = num_rows b.
Proof.
  intros Hall H. unfold typed_column_f64 in H. destruct (column_by_name (columns b) name) as [c|] eqn:E; [|done].
  apply column_by_name_in in E as [k Hk]. apply (proj1 (List.Forall_forall _ _) Hall) in Hk. by destruct c; simplify_eq.
Qed.

Lemma read_batch_total b :
  batch_wf b -> is_Some (read_batch b).
Proof.
  intros Hb. unfold read_batch.
  destruct (typed_column_i64 b "ts") eqn:E1, (typed_column_f64 b "open") eqn:E2, (typed_column_f64 b "high") eqn:E3,
    (typed_column_f64 b "low") eqn:E4, (typed_column_f64 b "close") eqn:E5, (typed_column_f64 b "volume") eqn:E6;
    try (by eexists).
  apply fmap_is_Some, rows_total; eauto using typed_i64_len, typed_f64_len.
Qed.

Lemma read_file_total content : is_Some (read_file content).
Proof.
  unfold read_file. destruct (reader_open content) as [[schema bs]|e] eqn:E; [|by eexists].
  destruct (check_schema_compat schema); [|by eexists].
  assert (Hall : forall b, In (Ok b) bs -> batch_wf b)
    by (intros b; by eapply reader_rows).
  clear E. induction bs as [|[b|e] bs IH]; [by eexists| |by eexists]. simpl.
  destruct (read_batch_total b) as [[cs|e] ->]; [apply Hall; by left| |by eexists]. simpl.
  destruct IH as [r ->]; [|by eexists]. intros b' Hb'. apply Hall. by right.
Qed.

Lemma query_entry_total from_ts to_ts x : is_Some (query_entry from_ts to_ts x).
Proof.
  destruct x as [name content]. unfold query_entry. destruct (negb _); [by eexists|].
  destruct (match parse_ts_range name with Some _ => _ | None => _ end); [by eexists|].
  destruct (read_file_total content) as [r ->]. by eexists.
Qed.

Lemma query_entries_total from_ts to_ts l :
  exists out, query_entries from_ts to_ts l = Some out /\
    forall c, In c out <-> exists x cs, In x l /\ query_entry from_ts to_ts x = Some cs /\ In c cs.
Proof.
  induction l as [|x l IH]; simpl.
  { exists []. split; [done|]. intros c. split; [done|]. by intros (x & cs & [] & _). }
  destruct (query_entry_total from_ts to_ts x) as [cs Hx]. destruct IH as (out & Hout & Hin).
  exists (cs ++ out)%list. rewrite Hx, Hout. split; [done|]. intros c. rewrite in_app_iff, Hin. split.
  - intros [Hc|(y & ds & Hy & Hq & Hc)]; [exists x, cs|exists y, ds]; auto.
  - intros (y & ds & [->|Hy] & Hq & Hc); [left; by simplify_eq|right; eauto].
Qed.

(** What a query returns: strictly increasing timestamps of the window, one
    for each timestamp some file of the directory contributes. *)
Lemma query_cold_spec (d : disk bytes) data_dir sym from_ts to_ts :
  exists out, query_cold d data_dir sym from_ts to_ts = Some out /\ StronglySorted ts_lt out /\
    (forall c, In c out -> in_window from_ts to_ts c) /\
    (forall t, (exists c, In c out /\ ts c = t) <->
      exists name content cs c, files d (symbol_dir data_dir sym) !! name = Some content /\
        query_entry from_ts to_ts (name, content) = Some cs /\ In c cs /\ ts c = t).
Proof.
  unfold query_cold, files. destruct (d !! symbol_dir data_dir sym) as [fs|]; simpl.
  2: { exists []. split_and!; [done|constructor|done|]. intros t. split; [by intros (c & [] & _)|].
       intros (name & content & cs & c & Hf & _). by rewrite lookup_empty in Hf. }
  destruct (query_entries_total from_ts to_ts (map_to_list fs)) as (out & -> & Hin). simpl.
  exists (dedup_by_ts (merge_sort ts_le out)).
  assert (Hms : forall c, In c (merge_sort ts_le out) <-> In c out) by (intros c; by rewrite merge_sort_Permutation).
  split_and!; [done|apply dedup_sorted, StronglySorted_merge_sort; apply _| |].
  - intros c Hc. apply dedup_sub, Hms, Hin in Hc as ([name content] & cs & _ & Hq & Hc).
    unfold query_entry in Hq. destruct (negb _); [by simplify_eq|].
    destruct (match parse_ts_range name with Some _ => _ | None => _ end); [by simplify_eq|].
    destruct (read_file content) as [[r|]|]; simplify_eq/=; [|done].
    by apply list_elem_of_In, list_elem_of_filter in Hc as [? _].
  - intros t. split.
    + intros (c & Hc & <-). apply dedup_sub, Hms, Hin in Hc as ([name content] & cs & Hx & Hq & Hc).
      apply list_elem_of_In, elem_of_map_to_list in Hx. by exists name, content, cs, c.
    + intros (name & content & cs & c & Hf & Hq & Hc & <-). apply dedup_ts, Hms, Hin.
      exists (name, content), cs. split; [|done]. by apply list_elem_of_In, elem_of_map_to_list.
Qed.

(** ** Spilling *)

Lemma ts_extent_spec lo hi cs s e :
  ts_extent lo hi cs = (s, e) -> is_i64 lo -> is_i64 hi -> Forall (fun c => is_i64 (ts c)) cs ->
  s <= lo /\ hi <= e /\ is_i64 s /\ is_i64 e /\ forall c, In c cs -> s <= ts c <= e.
Proof.
  revert lo hi. induction cs as [|c cs IH]; intros lo hi H Hlo Hhi Hall; simpl in H.
  - simplify_eq. split_and!; auto; try lia. by intros c [].
  - apply Forall_cons in Hall as [Hc Hall]. unfold is_i64 in *.
    destruct (IH _ _ H ltac:(lia) ltac:(lia) Hall) as (H1 & H2 & H3 & H4 & H5).
    split_and!; try lia. intros x [<-|Hx]; [lia|auto].
Qed.

(** Every outcome of a spill, by cases: nothing written, a damaged file under
    a fresh name with an error, or the candles under a fresh name. *)
Lemma spill_cases f (d : disk bytes) data_dir sym cs :
  let dir := symbol_dir data_dir sym in
  (exists d' r, spill f d data_dir sym cs = (d', r) /\ (forall x, files d' x = files d x) /\
     (r = Ok tt -> cs = [])) \/
  (exists name content r c0 rest, spill f d data_dir sym cs = (<[dir := <[name := content]> (files d dir)]> d, r) /\
     cs = c0 :: rest /\ files d dir !! name = None /\
     (let '(s, e) := ts_extent (ts c0) (ts c0) rest in spill_name s e name) /\
     (r = Ok tt -> content = arrow_writer_output candle_schema (batch_of cs))).
Proof.
  intros dir. destruct cs as [|c0 rest]; [left; by do 2 eexists|].
  unfold spill, cold_file_path. change (symbol_dir data_dir sym) with dir. clearbody dir.
  assert (Hmk : forall x, files (<[dir := files d dir]> d) x = files d x).
  { intros x. unfold files. destruct (decide (x = dir)) as [->|Hx]; [by rewrite lookup_insert_eq|].
    by rewrite lookup_insert_ne. }
  rewrite batch_built by done.
  destruct (ts_extent (ts c0) (ts c0) rest) as [s e] eqn:Ext.
  destruct (free_name _ _ _ _ _ _) as [name|] eqn:Ef.
  - apply free_name_fresh in Ef as [Hfr Hnm]; [|lia|constructor].
    destruct f; first [left; do 2 eexists; split_and!; [reflexivity|done|done]
      | right; eexists name, _, _, c0, rest; split_and!; [reflexivity|reflexivity|done|by rewrite Ext|done]].
  - destruct f; (left; do 2 eexists; split_and!; [reflexivity|done|done]).
Qed.

Lemma files_insert (d : disk bytes) dir name content x :
  files d dir !! name = None ->
  files d x ⊆ files (<[dir := <[name := content]> (files d dir)]> d) x.
Proof.
  intros Hn. unfold files in *. destruct (decide (x = dir)) as [->|Hx].
  - rewrite lookup_insert_eq. simpl. by apply insert_subseteq.
  - by rewrite lookup_insert_ne.
Qed.

(** A spill, failed or not, leaves every existing file as it is. *)
Lemma spill_grows f (d : disk bytes) data_dir sym cs x :
  files d x ⊆ files (spill f d data_dir sym cs).1 x.
Proof.
  destruct (spill_cases f d data_dir sym cs)
    as [(d' & r & -> & Hf & _)|(name & content & r & c0 & rest & -> & _ & Hn & _)]; simpl.
  - by rewrite Hf.
  - by apply files_insert.
Qed.

End laws.

End disk.

#[export] Instance parquet_cold {bytes} `{!Codec bytes} : ColdStorage (disk bytes) (@faults bytes) := {
  Cold.spill := spill;
  Cold.query_cold d data_dir sym from_ts to_ts := default [] (query_cold d data_dir sym from_ts to_ts)
}.

(** ** Strictly sorted lists pass through the sort and the dedup *)

Lemma ts_lt_inj l x y : StronglySorted ts_lt l -> x ∈ l -> y ∈ l -> ts_le x y -> ts_le y x -> x = y.
Proof.
  unfold ts_le. induction 1 as [|z l Hs IH Hz]; [by intros ?%not_elem_of_nil|]. rewrite Forall_forall in Hz.
  unfold ts_lt in Hz. rewrite !elem_of_cons. intros [->|Hx] [->|Hy] H1 H2; auto.
  - specialize (Hz _ Hy). lia.
  - specialize (Hz _ Hx). lia.
Qed.

Lemma strictly_sorted_le l : StronglySorted ts_lt l -> StronglySorted ts_le l.
Proof.
  induction 1 as [|z l Hs IH Hz]; constructor; [done|]. eapply Forall_impl; [exact Hz|].
  unfold ts_lt, ts_le. lia.
Qed.

Lemma merge_sort_sorted l : StronglySorted ts_lt l -> merge_sort ts_le l = l.
Proof.
  intros Hs. apply (StronglySorted_unique_strong ts_le).
  - intros x y Hx Hy. rewrite merge_sort_Permutation in Hx. by apply (ts_lt_inj l).
  - apply StronglySorted_merge_sort; intros a b; unfold ts_le; lia.
  - by apply strictly_sorted_le.
  - apply merge_sort_Permutation.
Qed.

Lemma dedup_from_id prev l : Forall (fun c => prev < ts c) l -> StronglySorted ts_lt l -> dedup_from prev l = l.
Proof.
  intros Hp Hs. revert prev Hp. induction Hs as [|x l Hs IH Hx]; intros prev Hp; simpl; [done|].
  apply Forall_cons in Hp as [Hpx Hp]. destruct (Z.eqb_spec (ts x) prev); [lia|]. f_equal. by apply IH.
Qed.

Lemma dedup_id l : StronglySorted ts_lt l -> dedup_by_ts l = l.
Proof. destruct 1 as [|x l Hs Hx]; simpl; [done|]. f_equal. by apply dedup_from_id. Qed.

Section instance.
Context {bytes : Type} `{!Codec bytes} `{!CodecLaws bytes}.

Lemma query_keeps (d d' : disk bytes) data_dir sym t :
  (forall x, files d x ⊆ files d' x) -> recoverable d data_dir sym t -> recoverable d' data_dir sym t.
Proof.
  intros Hsub Hr from_ts to_ts Hw. destruct (Hr from_ts to_ts Hw) as (c & Hc & Ht). simpl in *.
  destruct (query_cold_spec d data_dir sym from_ts to_ts) as (out & Hq & _ & _ & Hts).
  destruct (query_cold_spec d' data_dir sym from_ts to_ts) as (out' & Hq' & _ & _ & Hts').
  rewrite Hq in Hc. rewrite Hq'. simpl in *. apply Hts'.
  destruct (proj1 (Hts t) (ex_intro _ c (conj Hc Ht))) as (name & content & cs & x & Hf & Hrest).
  exists name, content, cs, x. split; [by eapply lookup_weaken|done].
Qed.

(** What a spilled file contributes to a query of any window: it is pruned
    only when nothing is lost. *)
Lemma spilled_entry c0 rest s e name from_ts to_ts :
  Forall (fun c => is_i64 (ts c)) (c0 :: rest) -> ts_extent (ts c0) (ts c0) rest = (s, e) ->
  spill_name s e name ->
  query_entry from_ts to_ts (name, arrow_writer_output candle_schema (batch_of (c0 :: rest))) =
    Some (filter (in_window from_ts to_ts) (c0 :: rest)).
Proof.
  intros Hall Hext Hnm. apply Forall_cons in Hall as [H0 Hall].
  destruct (ts_extent_spec _ _ _ _ _ Hext H0 H0 Hall) as (E1 & E2 & E3 & E4 & E5).
  destruct (spill_name_parses s e name E3 E4 Hnm) as [Hp Hx].
  unfold query_entry. rewrite Hx, Hp. simpl negb.
  destruct ((e <? from_ts) || (to_ts <? s)) eqn:Ed; [|by rewrite read_written].
  apply orb_true_iff in Ed. cbn iota. f_equal. symmetry. apply filter_drop_all, Forall_forall.
  intros c Hc%list_elem_of_In [Hw1 Hw2]. assert (s <= ts c <= e) by (destruct Hc as [<-|Hc]; [lia|auto]). lia.
Qed.

(** A spill without faults, spelled out. *)
Lemma spill_ok (d : disk bytes) data_dir sym c0 rest :
  let dir := symbol_dir data_dir sym in
  let content := arrow_writer_output candle_schema (batch_of (c0 :: rest)) in
  Z.of_nat (size (files d dir)) + 3 <= 2 ^ 32 ->
  exists name, spill NoFault d data_dir sym (c0 :: rest) = (<[dir := <[name := content]> (files d dir)]> d, Ok tt) /\
    files d dir !! name = None /\ let '(s, e) := ts_extent (ts c0) (ts c0) rest in spill_name s e name.
Proof.
  intros dir content Hsz. unfold spill, cold_file_path. fold dir.
  destruct (ts_extent (ts c0) (ts c0) rest) as [s e].
  destruct (free_name_total (files d dir) s e Hsz) as (name & -> & Hfr & Hnm).
  exists name. by rewrite batch_built.
Qed.

#[export] Instance parquet_laws : ColdStorageLaws (disk bytes) (@faults bytes).
Proof.
  split.
  - intros f d data_dir sym cs d' c Hsp Hall Hc from_ts to_ts Hw. simpl in *.
    destruct (spill_cases f d data_dir sym cs)
      as [(d1 & r & Hs & _ & Hr)|(name & content & r & c0 & rest & Hs & -> & Hn & Hnm & Hr)];
      rewrite Hs in Hsp; injection Hsp as <- ->; [by rewrite Hr in Hc|].
    destruct (query_cold_spec (<[symbol_dir data_dir sym := <[name := content]> (files d (symbol_dir data_dir sym))]> d)
      data_dir sym from_ts to_ts) as (out & Hq & _ & _ & Hts).
    rewrite Hq. simpl. apply Hts. rewrite (Hr eq_refl) in *.
    destruct (ts_extent (ts c0) (ts c0) rest) as [s e] eqn:Hext.
    exists name, (arrow_writer_output candle_schema (batch_of (c0 :: rest))),
      (filter (in_window from_ts to_ts) (c0 :: rest)), c. split_and!; [|by eapply spilled_entry| |done].
    + unfold files at 1. rewrite lookup_insert_eq. simpl. apply lookup_insert_eq.
    + apply list_elem_of_In, list_elem_of_filter. split; [done|by apply list_elem_of_In].
  - intros f d data_dir sym cs sym' t Hr. simpl. eapply query_keeps; [|done]. intros x. apply spill_grows.
  - intros d data_dir sym from_ts to_ts. simpl.
    destruct (query_cold_spec d data_dir sym from_ts to_ts) as (out & -> & Hs & _). done.
  - intros d data_dir sym from_ts to_ts c. simpl.
    destruct (query_cold_spec d data_dir sym from_ts to_ts) as (out & -> & _ & Hw & _). apply Hw.
Qed.

End instance.

(** The candles on file: the rows of the readable Parquet files of the
    symbol's directory. *)
Section files.
Context {bytes : Type} `{!Codec bytes} `{!CodecLaws bytes}.

Definition holds (d : disk bytes) (data_dir symbol : string) (c : Candle) : Prop :=
  exists name content cs, files d (symbol_dir data_dir symbol) !! name = Some content /\
    read_file content = Some (Ok cs) /\ In c cs.

Lemma query_holds (d : disk bytes) data_dir sym from_ts to_ts c :
  In c (default [] (query_cold d data_dir sym from_ts to_ts)) -> holds d data_dir sym c.
Proof.
  unfold query_cold, holds, files. destruct (d !! symbol_dir data_dir sym) as [fs|]; [|done]. cbn.
  destruct (query_entries_total from_ts to_ts (map_to_list fs)) as (out & -> & Hin). cbn.
  intros Hc%dedup_sub. rewrite merge_sort_Permutation in Hc. apply Hin in Hc as ([name content] & cs & Hx & Hq & Hc).
  apply list_elem_of_In, elem_of_map_to_list in Hx. unfold query_entry in Hq.
  destruct (negb _); [by simplify_eq|]. destruct (match parse_ts_range name with Some _ => _ | None => _ end); [by simplify_eq|].
  destruct (read_file content) as [[r|]|] eqn:Er; simplify_eq/=; [|done].
  exists name, content, r. split_and!; [done|done|]. by apply list_elem_of_In, list_elem_of_filter in Hc as [_ ?%list_elem_of_In].
Qed.

#[export] Instance parquet_files : ColdFiles (disk bytes) (@faults bytes).
Proof.
  refine {| on_disk := holds |}.
  - intros f d data_dir sym cs d' c Hsp Hc. cbn in Hsp.
    destruct (spill_cases f d data_dir sym cs)
      as [(d1 & r & Hs & _ & Hr)|(name & content & r & c0 & rest & Hs & E & Hn & _ & Hr)];
      rewrite Hs in Hsp; injection Hsp as <- ->; [by rewrite Hr in Hc|].
    exists name, content, cs. rewrite (Hr eq_refl), read_written. split_and!; [|done|done].
    unfold files at 1. rewrite lookup_insert_eq. cbn. apply lookup_insert_eq.
  - intros f d data_dir sym cs sym' c (name & content & rows & Hf & Hr & Hc). exists name, content, rows. split_and!; [|done|done].
    eapply lookup_weaken; [exact Hf|]. apply spill_grows.
  - intros d data_dir sym from_ts to_ts c. apply query_holds.
Defined.
End files.

(** ** A concrete codec

    The simplest file format with the documented behaviour (the schema and
    the batch, read back in batches of at most two rows), on which the
    examples run. *)

Definition plain_bytes : Type := Schema * RecordBatch.

Fixpoint chunk (fuel : nat) (b : RecordBatch) : list RecordBatch :=
  match fuel with
  | O => []
  | S fuel' => if (num_rows b =? 0)%nat then [] else take_batch 2 b :: chunk fuel' (drop_batch 2 b)
  end.

Definition batch_wf_b (b : RecordBatch) : bool := forallb (fun x => (column_len x.2 =? num_rows b)%nat) (columns b).

#[local] Instance plain_codec : Codec plain_bytes := {
  record_batch_try_new schema cols :=
    match cols with
    | [] => Err 0
    | c :: _ => Ok (mkBatch (column_len c) (zip (fst <$> fields schema) cols))
    end;
  arrow_writer_output schema b := (schema, b);
  reader_open file :=
    if batch_wf_b file.2 then Ok (file.1, Ok <$> chunk (num_rows file.2) file.2) else Err 0
}.

Lemma batch_wf_b_spec b : batch_wf_b b = true <-> batch_wf b.
Proof.
  unfold batch_wf_b, batch_wf. rewrite forallb_forall, List.Forall_forall.
  split; intros H x Hx; specialize (H x Hx); by apply Nat.eqb_eq.
Qed.

Lemma cut_wf n b : batch_wf b -> batch_wf (take_batch n b) /\ batch_wf (drop_batch n b).
Proof.
  unfold batch_wf, take_batch, drop_batch. simpl. rewrite !Forall_fmap.
  intros H. split; (eapply Forall_impl; [exact H|]); intros [k c]; simpl; intros <-; destruct c; simpl;
    rewrite ?length_take, ?length_drop; lia.
Qed.

Lemma take_batch_all n b : batch_wf b -> (num_rows b <= n)%nat -> take_batch n b = b.
Proof.
  destruct b as [k cols]. unfold batch_wf, take_batch. simpl. intros H Hn. f_equal; [lia|].
  rewrite <- (list_fmap_id cols) at 2. apply list_fmap_ext. intros i [nm c] Hc.
  pose proof (Forall_lookup_1 _ _ _ _ H Hc) as Hl. simpl in Hl. unfold prod_map. simpl. f_equal.
  destruct c; simpl in *; rewrite ?take_ge by lia; [done..|]. f_equal. lia.
Qed.

Lemma chunk_splits fuel b : batch_wf b -> (num_rows b <= fuel)%nat -> splits b (chunk fuel b).
Proof.
  revert b. induction fuel as [|fuel IH]; intros b Hb Hf; simpl; [constructor; lia|].
  destruct (Nat.eqb_spec (num_rows b) 0) as [E|E]; [by constructor|].
  destruct (decide (num_rows b = 1)%nat) as [E1|E1].
  - assert (Ht : take_batch 2 b = take_batch 1 b)
      by (rewrite !take_batch_all by (done || lia); done).
    rewrite Ht. apply splits_cut; [lia|]. destruct fuel as [|fuel]; simpl; [constructor; simpl; lia|].
    destruct (Nat.eqb_spec (num_rows b - 2) 0); [|lia]. constructor. simpl. lia.
  - apply splits_cut; [lia|]. apply IH; [by apply cut_wf|]. simpl. lia.
Qed.

Lemma chunk_wf fuel b x : batch_wf b -> In x (chunk fuel b) -> batch_wf x.
Proof.
  revert b. induction fuel as [|fuel IH]; intros b Hb; simpl; [done|].
  destruct (num_rows b =? 0)%nat; [done|]. intros [<-|Hx]; [by apply cut_wf|].
  eapply IH; [|done]. by apply cut_wf.
Qed.

#[local] Instance plain_codec_laws : CodecLaws plain_bytes.
Proof.
  split.
  - intros schema cols n Ht Hl Hne. destruct cols as [|c cols]; [done|]. simpl.
    by apply Forall_cons in Hl as [-> _].
  - intros schema b Hb _. exists (chunk (num_rows b) b). simpl. rewrite (proj2 (batch_wf_b_spec b) Hb).
    split; [done|by apply chunk_splits].
  - intros [sch b0] schema bs b H Hin. simpl in H. destruct (batch_wf_b b0) eqn:E; [|done].
    injection H as _ <-. apply in_map_iff in Hin as (x & Hx & Hin). injection Hx as <-.
    eapply chunk_wf; [|done]. by apply batch_wf_b_spec.
Qed.

(** ** Claims *)

(** File names parse back: the plain name and every collision-suffixed
    name of an extent of 64-bit timestamps, negative ones included, parse to
    exactly that extent and carry the [parquet] extension, so the range
    pruning of [query_cold] reads the extent the spill computed. *)
Theorem parquet_name_roundtrip s e n :
  is_i64 s -> is_i64 e -> 0 <= n <= Text.u32_max ->
  parse_ts_range (plain_name s e) = Some (s, e) /\ parse_ts_range (suffixed_name s e n) = Some (s, e) /\
  Text.extension (plain_name s e) = Some "parquet" /\ Text.extension (suffixed_name s e n) = Some "parquet".
Proof.
  intros Hs He Hn. destruct (spill_name_parses s e _ Hs He (spill_plain s e)) as [H1 H2].
  by destruct (spill_name_parses s e _ Hs He (spill_suffixed s e n Hn)) as [H3 H4].
Qed.

Lemma parquet_name_roundtrip_witness :
  suffixed_name (-5) (-3) 12 = "-5_-3-12.parquet" /\
  parse_ts_range "-5_-3.parquet" = Some (-5, -3) /\ parse_ts_range "-5_-3-12.parquet" = Some (-5, -3).
Proof.
  split; [reflexivity|].
  destruct (parquet_name_roundtrip (-5) (-3) 12 ltac:(split; vm_compute; discriminate)
    ltac:(split; vm_compute; discriminate) ltac:(split; vm_compute; discriminate)) as (H1 & H2 & _).
  by split.
Defined.

(** A spill that meets no fault terminates and succeeds whatever the
    directory already holds (the collision loop finds a free name before its
    32-bit counter could wrap), leaves every existing file untouched, adds
    exactly one file whose contents read back as the spilled candles, and
    makes every spilled timestamp recoverable by a query. *)
Theorem parquet_spill_succeeds {bytes} `{!Codec bytes} `{!CodecLaws bytes}
    (d : disk bytes) data_dir sym cs :
  cs <> [] -> Forall (fun c => is_i64 (ts c)) cs ->
  Z.of_nat (size (files d (symbol_dir data_dir sym))) + 3 <= 2 ^ 32 ->
  exists d' name content, spill NoFault d data_dir sym cs = (d', Ok tt) /\
    files d (symbol_dir data_dir sym) !! name = None /\
    files d' (symbol_dir data_dir sym) = <[name := content]> (files d (symbol_dir data_dir sym)) /\
    (forall dir, dir <> symbol_dir data_dir sym -> files d' dir = files d dir) /\
    read_file content = Some (Ok cs) /\
    (forall c, In c cs -> recoverable d' data_dir sym (ts c)).
Proof.
  intros Hne Hall Hsz. destruct cs as [|c0 rest]; [done|]. 
  destruct (spill_ok d data_dir sym c0 rest Hsz) as (name & Hsp & Hfr & _). eexists _, name, _. split_and!; [exact Hsp|done|..].
  - unfold files at 1. by rewrite lookup_insert_eq.
  - intros dir Hd. unfold files at 1. by rewrite lookup_insert_ne.
  - apply read_written.
  - intros c Hc. by eapply (spill_recoverable NoFault d data_dir sym (c0 :: rest)).
Qed.

Definition cold1 : Candle := mkCandle 100 f_one f_one f_one f_one f_one.
Definition cold2 : Candle := mkCandle (-7) f_one f_one f_one f_one f_one.
Definition cold3 : Candle := mkCandle 60 f_one f_one f_one f_one f_one.
Definition demo_disk : disk plain_bytes := (spill NoFault ∅ "data" "BTC/USDT" [cold1; cold2]).1.

Lemma parquet_spill_succeeds_witness :
  exists d' name content,
    spill NoFault demo_disk "data" "BTC/USDT" [cold1; cold3; cold2] = (d', Ok tt) /\
    read_file content = Some (Ok [cold1; cold3; cold2]) /\
    (forall c, In c [cold1; cold3; cold2] -> recoverable d' "data" "BTC/USDT" (ts c)) /\
    files d' (symbol_dir "data" "BTC/USDT") = <[name := content]> (files demo_disk (symbol_dir "data" "BTC/USDT")).
Proof.
  destruct (parquet_spill_succeeds demo_disk "data" "BTC/USDT" [cold1; cold3; cold2])
    as (d' & name & content & H1 & _ & H3 & _ & H5 & H6);
    [done|repeat constructor; vm_compute; discriminate|vm_compute; discriminate|].
  by exists d', name, content.
Defined.

(** The second spill of the same extent got the suffix. *)
Example demo_collision :
  (map_to_list (files (spill NoFault demo_disk "data" "BTC/USDT" [cold1; cold3; cold2]).1 "data/BTC_USDT")).*1 =
    ["-7_100.parquet"; "-7_100-1.parquet"] \/
  (map_to_list (files (spill NoFault demo_disk "data" "BTC/USDT" [cold1; cold3; cold2]).1 "data/BTC_USDT")).*1 =
    ["-7_100-1.parquet"; "-7_100.parquet"].
Proof. vm_compute. auto. Qed.

(** C22. A spill that fails at any of its calls (creating the directory or the
    file, opening, writing or closing the writer) reports the error and,
    like a successful one, leaves every existing file of every directory as
    it was: no earlier spill is truncated or overwritten. *)
Theorem parquet_spill_never_clobbers {bytes} `{!Codec bytes} `{!CodecLaws bytes}
    (f : faults) (d : disk bytes) data_dir sym cs d' r dir name content :
  spill f d data_dir sym cs = (d', r) -> files d dir !! name = Some content ->
  files d' dir !! name = Some content /\ (f <> NoFault -> cs <> [] -> r <> Ok tt).
Proof.
  intros Hsp Hf. split.
  - pose proof (spill_grows f d data_dir sym cs dir) as Hg. rewrite Hsp in Hg. by eapply lookup_weaken.
  - intros Hfault Hne Hr. subst r. destruct cs as [|c0 rest]; [done|]. unfold spill, cold_file_path in Hsp.
    destruct (ts_extent (ts c0) (ts c0) rest) as [s e]. rewrite batch_built in Hsp by done.
    destruct f; try done; by destruct (free_name _ _ _ _ _ _).
Qed.

Lemma parquet_spill_never_clobbers_witness :
  exists d' r content, spill (WriteFails 28 (candle_schema, mkBatch 1 [])) demo_disk "data" "BTC/USDT" [cold1; cold2] = (d', r) /\
    files demo_disk "data/BTC_USDT" !! "-7_100.parquet" = Some content /\
    files d' "data/BTC_USDT" !! "-7_100.parquet" = Some content /\ r <> Ok tt.
Proof.
  destruct (spill (WriteFails 28 (candle_schema, mkBatch 1 [])) demo_disk "data" "BTC/USDT" [cold1; cold2]) as [d' r] eqn:E.
  destruct (files demo_disk "data/BTC_USDT" !! "-7_100.parquet") as [content|] eqn:Ef; [|by vm_compute in Ef].
  exists d', r, content.
  destruct (parquet_spill_never_clobbers _ _ _ _ _ _ _ _ _ _ E Ef) as [H1 H2].
  split_and!; [done|done|done|]. by apply H2.
Defined.

(** What a query finds after a spill into an empty directory: the spilled
    candles of the window, sorted and deduplicated. *)
Lemma query_spilled {bytes} `{!Codec bytes} `{!CodecLaws bytes} (d : disk bytes) data_dir sym from_ts to_ts cs :
  files d (symbol_dir data_dir sym) = ∅ -> Forall (fun c => is_i64 (ts c)) cs ->
  query_cold (spill NoFault d data_dir sym cs).1 data_dir sym from_ts to_ts =
    Some (dedup_by_ts (merge_sort ts_le (filter (in_window from_ts to_ts) cs))).
Proof.
  intros Hempty Hall. destruct cs as [|c0 rest].
  - simpl. unfold query_cold, files in *. destruct (d !! symbol_dir data_dir sym) as [fs|]; [|done].
    simpl in Hempty. by rewrite Hempty.
  - destruct (spill_ok d data_dir sym c0 rest) as (name & -> & _ & Hnm); [by rewrite Hempty|].
    destruct (ts_extent (ts c0) (ts c0) rest) as [s e] eqn:Hext.
    unfold query_cold. cbn [fst]. rewrite lookup_insert_eq, Hempty, insert_empty, map_to_list_singleton.
    cbn [query_entries]. rewrite (spilled_entry c0 rest s e name from_ts to_ts) by done.
    cbn [mbind option_bind]. by rewrite app_nil_r.
Qed.

(** C23. [query_cold] returns timestamps in strictly increasing order and only
    from the window, whatever the directory contains, alien and corrupt
    files included, and it never panics: one unreadable file does not poison
    the others.  After a spill that meets no fault into an empty directory it
    returns spilled candles only, and one for each timestamp of the window
    that was spilled; when the spilled candles are in strictly increasing time
    order it returns exactly those of the window, unchanged.  (Candles out of
    order come back sorted, and of two with one timestamp only one does.) *)
Theorem parquet_query_exact {bytes} `{!Codec bytes} `{!CodecLaws bytes} (d : disk bytes) data_dir sym from_ts to_ts :
  (exists out, query_cold d data_dir sym from_ts to_ts = Some out /\ StronglySorted ts_lt out /\
     forall c, In c out -> from_ts <= ts c <= to_ts) /\
  (forall cs, files d (symbol_dir data_dir sym) = ∅ -> Forall (fun c => is_i64 (ts c)) cs ->
     exists out, query_cold (spill NoFault d data_dir sym cs).1 data_dir sym from_ts to_ts = Some out /\
       (forall c, In c out -> In c cs) /\
       (forall c, In c cs -> from_ts <= ts c <= to_ts -> exists c', In c' out /\ ts c' = ts c) /\
       (StronglySorted ts_lt cs -> out = filter (in_window from_ts to_ts) cs)).
Proof.
  split.
  - destruct (query_cold_spec d data_dir sym from_ts to_ts) as (out & Hq & Hs & Hw & _).
    exists out. split_and!; [done|done|]. intros c Hc. by apply Hw.
  - intros cs Hempty Hall. eexists. split; [by apply query_spilled|].
    assert (Hin : forall c, In c (merge_sort ts_le (filter (in_window from_ts to_ts) cs)) <-> In c cs /\ in_window from_ts to_ts c).
    { intros c. rewrite merge_sort_Permutation, <- !list_elem_of_In, list_elem_of_filter. tauto. }
    split_and!.
    + intros c Hc%dedup_sub. by apply Hin.
    + intros c Hc Hw. by apply dedup_ts, Hin.
    + intros Hsorted. pose proof (sorted_filter _ (in_window from_ts to_ts) _ Hsorted) as Hf. by rewrite merge_sort_sorted, dedup_id.
Qed.

Lemma parquet_query_exact_witness :
  query_cold (spill NoFault (∅ : disk plain_bytes) "data" "ETH" [cold2; cold3; cold1]).1 "data" "ETH" 0 100 =
    Some [cold3; cold1].
Proof.
  destruct (parquet_query_exact (∅ : disk plain_bytes) "data" "ETH" 0 100) as [_ H].
  destruct (H [cold2; cold3; cold1] eq_refl ltac:(repeat constructor; vm_compute; discriminate)) as (out & Hq & _ & _ & Ho).
  rewrite Hq, Ho; [reflexivity|]. repeat constructor.
Defined.

(** The schema check accepts exactly the files without candlestore
    metadata (pre-versioning) and those of the candlestore brand with a
    version up to the supported one, the schema this binary writes
    included; anything else is an [IncompatibleVersion] naming the declared
    version. *)
Theorem parquet_schema_gate schema :
  let brand := metadata schema !! SCHEMA_BRAND_KEY in
  let version := metadata schema !! SCHEMA_VERSION_KEY ≫= Text.parse_u32 in
  (check_schema_compat schema = Ok tt <->
     (brand = None /\ version = None) \/
     (brand = Some SCHEMA_BRAND_VALUE /\ exists v, version = Some v /\ v <= SCHEMA_VERSION)) /\
  (check_schema_compat schema <> Ok tt ->
     check_schema_compat schema = Err (IncompatibleVersion (default 0 version) SCHEMA_VERSION)) /\
  check_schema_compat candle_schema = Ok tt.
Proof.
  intros brand version. split_and!; [| |reflexivity]; unfold check_schema_compat; fold brand; fold version;
    destruct brand as [b|], version as [v|]; try case_decide; try (destruct (Z.leb_spec v SCHEMA_VERSION));
    naive_solver lia.
Qed.

(** Escaping a symbol keeps its length and leaves only letters, digits,
    hyphens and underscores, so a symbol can never name a path outside the
    data directory; symbols already in that form are unchanged. *)
Theorem escape_symbol_safe sym :
  String.length (escape_symbol sym) = String.length sym /\
  Text.all_chars (fun c => is_alphanumeric c || Ascii.eqb c "-" || Ascii.eqb c "_")%char (escape_symbol sym) = true /\
  escape_symbol (escape_symbol sym) = escape_symbol sym.
Proof.
  induction sym as [|c sym (IH1 & IH2 & IH3)]; [done|]. simpl.
  destruct (is_alphanumeric c || Ascii.eqb c "-"%char) eqn:E; simpl.
  - rewrite E. simpl. rewrite IH1, IH2, IH3. done.
  - rewrite IH1, IH2, IH3. done.
Qed.

End Parquet.
