(* ===== verification/Store.v ===== *)
(** * The candle store ([src/src/store.rs])

    [Module Store] models [CandleStore] method by method: the symbol table of
    entries (ring, LRU stamp, removed flag), the atomic counters with their
    64-bit wrap, validation, the fast path, the insert/evict slow path with
    its spill, and the read paths.  Here each method runs to completion
    before the next; [StoreConc.v] interleaves the lock-protected steps.

    The retry of [try_insert_new] is bounded by fuel; on a well-formed store
    one unit is enough ([try_insert_new_spec]). *)

From S2P Require Import Prelude Float64 Candle RingBuffer Cold.

#[local] Open Scope Z_scope.

Module Store.

Record Entry : Type := mkEntry {
  e_buf : RingBuffer.t;
  last_access : Z;       (* AtomicU64 *)
  removed : bool         (* AtomicBool *)
}.

Record t : Type := mkStore {
  map : gmap string Entry;
  max_symbols : Z;
  ring_capacity : nat;
  data_dir : option string;
  version : Z;
  tick : Z;
  signals : Z;
  evictions : Z;
  parquet_spill_bytes : Z;
  parquet_spill_errors : Z;
  appends_rejected : Z;
  invalid_candles : Z;
  out_of_order : Z
}.

Inductive AppendError : Type :=
| EvictionSpillFailed (evicted_symbol : string) (candles_lost : nat) (source : SpillError)
| InvalidCandle (symbol : string).

Record StoreSnapshot : Type := mkSnapshot {
  s_appends_total : Z;
  s_symbol_count : nat;
  s_max_symbols : Z;
  s_ring_capacity : nat;
  s_evictions_total : Z;
  s_parquet_spill_bytes_total : Z;
  s_parquet_spill_errors_total : Z;
  s_appends_rejected_total : Z;
  s_invalid_candles_total : Z;
  s_out_of_order_total : Z
}.

(** ** Field updates *)

Definition set_map (st : t) (m : gmap string Entry) : t :=
  mkStore m (max_symbols st) (ring_capacity st) (data_dir st) (version st) (tick st) (signals st)
    (evictions st) (parquet_spill_bytes st) (parquet_spill_errors st) (appends_rejected st)
    (invalid_candles st) (out_of_order st).
Definition bump_version (st : t) : t :=
  mkStore (map st) (max_symbols st) (ring_capacity st) (data_dir st) (fetch_add1 (version st)) (tick st)
    (signals st) (evictions st) (parquet_spill_bytes st) (parquet_spill_errors st) (appends_rejected st)
    (invalid_candles st) (out_of_order st).
Definition bump_tick (st : t) : t :=
  mkStore (map st) (max_symbols st) (ring_capacity st) (data_dir st) (version st) (fetch_add1 (tick st))
    (signals st) (evictions st) (parquet_spill_bytes st) (parquet_spill_errors st) (appends_rejected st)
    (invalid_candles st) (out_of_order st).
Definition bump_signals (st : t) : t :=
  mkStore (map st) (max_symbols st) (ring_capacity st) (data_dir st) (version st) (tick st)
    (fetch_add1 (signals st)) (evictions st) (parquet_spill_bytes st) (parquet_spill_errors st)
    (appends_rejected st) (invalid_candles st) (out_of_order st).
Definition bump_evictions (st : t) : t :=
  mkStore (map st) (max_symbols st) (ring_capacity st) (data_dir st) (version st) (tick st) (signals st)
    (fetch_add1 (evictions st)) (parquet_spill_bytes st) (parquet_spill_errors st) (appends_rejected st)
    (invalid_candles st) (out_of_order st).
Definition add_spill_bytes (st : t) (n : Z) : t :=
  mkStore (map st) (max_symbols st) (ring_capacity st) (data_dir st) (version st) (tick st) (signals st)
    (evictions st) (u64_wrapping_add (parquet_spill_bytes st) n) (parquet_spill_errors st)
    (appends_rejected st) (invalid_candles st) (out_of_order st).
Definition bump_spill_errors (st : t) : t :=
  mkStore (map st) (max_symbols st) (ring_capacity st) (data_dir st) (version st) (tick st) (signals st)
    (evictions st) (parquet_spill_bytes st) (fetch_add1 (parquet_spill_errors st)) (appends_rejected st)
    (invalid_candles st) (out_of_order st).
Definition bump_rejected (st : t) : t :=
  mkStore (map st) (max_symbols st) (ring_capacity st) (data_dir st) (version st) (tick st) (signals st)
    (evictions st) (parquet_spill_bytes st) (parquet_spill_errors st) (fetch_add1 (appends_rejected st))
    (invalid_candles st) (out_of_order st).
Definition bump_invalid (st : t) : t :=
  mkStore (map st) (max_symbols st) (ring_capacity st) (data_dir st) (version st) (tick st) (signals st)
    (evictions st) (parquet_spill_bytes st) (parquet_spill_errors st) (appends_rejected st)
    (fetch_add1 (invalid_candles st)) (out_of_order st).
Definition bump_out_of_order (st : t) : t :=
  mkStore (map st) (max_symbols st) (ring_capacity st) (data_dir st) (version st) (tick st) (signals st)
    (evictions st) (parquet_spill_bytes st) (parquet_spill_errors st) (appends_rejected st)
    (invalid_candles st) (fetch_add1 (out_of_order st)).

(** ** Construction *)

Definition DEFAULT_RING_CAPACITY : nat := Z.to_nat 10000.

(** [CandleStore::with_capacity]. *)
Definition with_capacity (max_symbols : Z) (ring_capacity : nat) : t :=
  mkStore ∅ max_symbols ring_capacity None 0 0 0 0 0 0 0 0 0.

(** [CandleStore::new]. *)
Definition new (max_symbols : Z) : t := with_capacity max_symbols DEFAULT_RING_CAPACITY.

(** [CandleStore::with_data_dir]. *)
Definition with_data_dir (st : t) (dir : string) : t :=
  mkStore (map st) (max_symbols st) (ring_capacity st) (Some dir) (version st) (tick st) (signals st)
    (evictions st) (parquet_spill_bytes st) (parquet_spill_errors st) (appends_rejected st)
    (invalid_candles st) (out_of_order st).

(** A store as [market_hub] builds one: with or without cold storage. *)
Definition open_store (max_symbols : Z) (ring_capacity : nat) (dir : option string) : t :=
  match dir with
  | Some dir => with_data_dir (with_capacity max_symbols ring_capacity) dir
  | None => with_capacity max_symbols ring_capacity
  end.

(** ** Write path *)

(** [CandleStore::push_and_publish] on the entry of [symbol]: [false],
    without a push, when the entry is flagged as evicted. *)
Definition push_and_publish (st : t) (symbol : string) (entry : Entry) (candle : Candle) : panics (t * bool) :=
  if removed entry then Some (st, false)
  else
    '(buf', outcome) ← RingBuffer.push (e_buf entry) candle;
    let st1 := set_map st (<[symbol := mkEntry buf' (last_access entry) (removed entry)]> (map st)) in
    let st2 := match outcome with
               | RingBuffer.OutOfOrder _ _ => bump_out_of_order st1
               | RingBuffer.PushOk => st1
               end in
    Some (bump_version st2, true).

(** [entry.last_access.store(tick)] on the entry of [symbol]. *)
Definition touch (st : t) (symbol : string) (entry : Entry) (tk : Z) : t * Entry :=
  let entry' := mkEntry (e_buf entry) tk (removed entry) in
  (set_map st (<[symbol := entry']> (map st)), entry').

(** [g.iter().min_by_key(|(_, e)| e.last_access)]: the first entry with the
    smallest stamp in iteration order. *)
Fixpoint min_by_access (best : string * Entry) (l : list (string * Entry)) : string * Entry :=
  match l with
  | [] => best
  | x :: l' => min_by_access (if last_access x.2 <? last_access best.2 then x else best) l'
  end.

Definition lru_of (l : list (string * Entry)) : option (string * Entry) :=
  match l with
  | [] => None
  | x :: l' => Some (min_by_access x l')
  end.

Definition evict_key (m : gmap string Entry) : option (string * Entry) := lru_of (map_to_list m).

(** [CandleStore::signal_waiters]. *)
Definition signal_waiters (st : t) : t := bump_version (bump_signals st).

Section cold.
Context {disk faults : Type} `{!ColdStorage disk faults}.

(** The eviction block of [try_insert_new], for the chosen victim: flag it,
    snapshot its ring, spill the snapshot, then either remove it or, when
    the spill failed, clear the flag and report. *)
Definition evict (f : faults) (st : t) (d : disk) (key : string) (entry : Entry)
    : panics (t * disk * result unit AppendError) :=
  let flagged := set_map st (<[key := mkEntry (e_buf entry) (last_access entry) true]> (map st)) in
  candles ← RingBuffer.to_vec (e_buf entry);
  let finish st' d' := Some (set_map (bump_evictions st') (delete key (map st')), d', Ok tt) in
  match candles, data_dir st with
  | [], _ => finish flagged d
  | _ :: _, None => finish flagged d
  | _ :: _, Some dir =>
      match spill f d dir key candles with
      | (d', Ok _) =>
          finish (add_spill_bytes flagged (u64_wrap (Z.of_nat (length candles) * candle_size))) d'
      | (d', Err e) =>
          let restored := set_map flagged (<[key := mkEntry (e_buf entry) (last_access entry) false]> (map flagged)) in
          Some (bump_spill_errors restored, d', Err (EvictionSpillFailed key (length candles) e))
      end
  end.

(** [CandleStore::try_insert_new]. *)
Fixpoint try_insert_new (fuel : nat) (f : faults) (st : t) (d : disk) (symbol : string)
    (candle : Candle) (tk : Z) : panics (t * disk * result unit AppendError) :=
  match fuel with
  | O => None
  | S fuel' =>
      '(buf, _) ← RingBuffer.push (RingBuffer.new (ring_capacity st)) candle;
      match map st !! symbol with
      | Some entry =>
          let '(st1, entry1) := touch st symbol entry tk in
          '(st2, ok) ← push_and_publish st1 symbol entry1 candle;
          if ok : bool then Some (st2, d, Ok tt)
          else try_insert_new fuel' f st2 d symbol candle tk
      | None =>
          '(st1, d1, r) ←
            (if max_symbols st <=? Z.of_nat (size (map st)) then
               match evict_key (map st) with
               | Some (key, entry) => evict f st d key entry
               | None => Some (st, d, Ok tt)
               end
             else Some (st, d, Ok tt));
          match r with
          | Err e => Some (st1, d1, Err e)
          | Ok _ =>
              let st2 := set_map st1 (<[symbol := mkEntry buf tk false]> (map st1)) in
              Some (bump_version st2, d1, Ok tt)
          end
      end
  end.

(** [CandleStore::try_append]. *)
Definition try_append (fuel : nat) (f : faults) (st : t) (d : disk) (symbol : string) (candle : Candle)
    : panics (t * disk * result unit AppendError) :=
  if negb (is_valid candle) then Some (bump_invalid st, d, Err (InvalidCandle symbol))
  else
    let tk := tick st in
    let st0 := bump_tick st in
    match map st0 !! symbol with
    | Some entry =>
        let '(st1, entry1) := touch st0 symbol entry tk in
        '(st2, ok) ← push_and_publish st1 symbol entry1 candle;
        if ok : bool then Some (st2, d, Ok tt)
        else try_insert_new fuel f st2 d symbol candle tk
    | None => try_insert_new fuel f st0 d symbol candle tk
    end.

(** A sequence of strict appends, each with the faults its system calls meet. *)
Fixpoint try_append_all (fuel : nat) (st : t) (d : disk) (ops : list (faults * string * Candle))
    : panics (t * disk * list (result unit AppendError)) :=
  match ops with
  | [] => Some (st, d, [])
  | (f, sym, c) :: ops' =>
      '(st1, d1, r) ← try_append fuel f st d sym c;
      '(st2, d2, rs) ← try_append_all fuel st1 d1 ops';
      Some (st2, d2, r :: rs)
  end.

(** [CandleStore::append]. *)
Definition append (fuel : nat) (f : faults) (st : t) (d : disk) (symbol : string) (candle : Candle)
    : panics (t * disk) :=
  '(st', d', r) ← try_append fuel f st d symbol candle;
  match r with
  | Ok _ => Some (st', d')
  | Err (InvalidCandle _) => Some (st', d')
  | Err (EvictionSpillFailed _ _ _) => Some (bump_rejected st', d')
  end.

(** Calls a producer and a shutdown sequence interleave on one store. *)
Inductive call : Type :=
| CallAppend (f : faults) (symbol : string) (candle : Candle)
| CallSignal.

Definition run_call (fuel : nat) (st : t) (d : disk) (cl : call) : panics (t * disk) :=
  match cl with
  | CallAppend f symbol candle => append fuel f st d symbol candle
  | CallSignal => Some (signal_waiters st, d)
  end.

Fixpoint run_calls (fuel : nat) (st : t) (d : disk) (cls : list call) : panics (t * disk) :=
  match cls with
  | [] => Some (st, d)
  | cl :: cls' => '(st1, d1) ← run_call fuel st d cl; run_calls fuel st1 d1 cls'
  end.

(** ** Read path *)

(** [merge_by_ts]: two runs merged by timestamp, the second winning ties. *)
Fixpoint merge_by_ts (a : list Candle) : list Candle -> list Candle :=
  fix go (b : list Candle) : list Candle :=
    match a, b with
    | [], _ => b
    | _, [] => a
    | x :: a', y :: b' =>
        match Z.compare (ts x) (ts y) with
        | Lt => x :: merge_by_ts a' b
        | Gt => y :: go b'
        | Eq => y :: merge_by_ts a' b'
        end
    end.

(** [CandleStore::range]. *)
Definition range (st : t) (d : disk) (symbol : string) (from_ts to_ts : Z) : panics (list Candle) :=
  hot ← match map st !! symbol with
        | Some entry => RingBuffer.range (e_buf entry) from_ts to_ts
        | None => Some []
        end;
  match data_dir st with
  | Some dir =>
      let cold := query_cold d dir symbol from_ts to_ts in
      match cold, hot with
      | [], _ => Some hot
      | _, [] => Some cold
      | _, _ => Some (merge_by_ts cold hot)
      end
  | None => Some hot
  end.

End cold.

(** [CandleStore::last_n]. *)
Definition last_n (st : t) (symbol : string) (n : nat) : panics (list Candle) :=
  match map st !! symbol with
  | Some e => RingBuffer.last_n (e_buf e) n
  | None => Some []
  end.

(** [CandleStore::symbol_count]. *)
Definition symbol_count (st : t) : nat := size (map st).

(** [CandleStore::candle_count]. *)
Definition candle_count (st : t) (symbol : string) : nat :=
  match map st !! symbol with Some e => RingBuffer.len (e_buf e) | None => 0 end.

(** [CandleStore::snapshot]. *)
Definition snapshot (st : t) : StoreSnapshot :=
  mkSnapshot (u64_saturating_sub (version st) (signals st)) (size (map st)) (max_symbols st)
    (ring_capacity st) (evictions st) (parquet_spill_bytes st) (parquet_spill_errors st)
    (appends_rejected st) (invalid_candles st) (out_of_order st).

(** [CandleStore::wait_for_change] against the successive values its
    [Acquire] loads of [version] return; [None] while it still spins. *)
Fixpoint wait_for_change (loads : list Z) (last_seen : Z) : option Z :=
  match loads with
  | [] => None
  | v :: loads' => if negb (v =? last_seen) then Some v else wait_for_change loads' last_seen
  end.

(** ** Invariant and abstraction *)

(** The candles of [symbol] in RAM, oldest first. *)
Definition hot (st : t) (symbol : string) : list Candle :=
  match map st !! symbol with Some e => RingBuffer.contents (e_buf e) | None => [] end.

Record entry_wf (st : t) (e : Entry) : Prop := {
  ew_ring : RingBuffer.wf (e_buf e);
  ew_cap : RingBuffer.capacity (e_buf e) = ring_capacity st;
  ew_nonempty : RingBuffer.contents (e_buf e) <> [];
  ew_live : removed e = false;
  ew_access : 0 <= last_access e < tick st
}.

Record wf (st : t) : Prop := {
  w_cap : (0 < ring_capacity st)%nat;
  w_tick : 0 <= tick st;
  w_entries : forall k e, map st !! k = Some e -> entry_wf st e;
  w_size : Z.of_nat (size (map st)) <= Z.max 1 (max_symbols st)
}.

(** No counter of the write path is about to wrap. *)
Definition no_wrap (st : t) : Prop := tick st < u64_max.

Lemma open_store_wf n cap dir : (0 < cap)%nat -> wf (open_store n cap dir).
Proof.
  intros H. destruct dir; split; simpl; first [lia | set_solver | rewrite map_size_empty; lia].
Qed.

(** ** The LRU scan *)

Lemma min_by_access_spec best l :
  let r := min_by_access best l in
  (r = best \/ In r l) /\ last_access r.2 <= last_access best.2 /\
  (forall x, In x l -> last_access r.2 <= last_access x.2).
Proof.
  revert best. induction l as [|x l IH]; intros best; simpl; [split_and!; auto; lia|].
  destruct (IH (if last_access x.2 <? last_access best.2 then x else best)) as (Hin & Hle & Hall).
  destruct (Z.ltb_spec (last_access x.2) (last_access best.2)); simpl in *.
  - split_and!; [destruct Hin as [->|]; auto|lia|]. intros y [<-|Hy]; auto.
  - split_and!; [destruct Hin as [->|]; auto|done|]. intros y [<-|Hy]; [lia|auto].
Qed.

Lemma lru_of_spec l r :
  lru_of l = Some r -> In r l /\ forall x, In x l -> last_access r.2 <= last_access x.2.
Proof.
  destruct l as [|x l]; [done|]. intros [= <-]. destruct (min_by_access_spec x l) as (Hin & Hle & Hall).
  split; [destruct Hin; simpl; auto|]. intros y [<-|Hy]; auto.
Qed.

(** The victim does not depend on the iteration order of the hash map. *)
Lemma lru_of_perm l1 l2 :
  (forall x y, In x l1 -> In y l1 -> last_access x.2 = last_access y.2 -> x = y) ->
  l1 ≡ₚ l2 -> lru_of l1 = lru_of l2.
Proof.
  intros Hinj Hp. destruct (lru_of l1) as [r1|] eqn:E1, (lru_of l2) as [r2|] eqn:E2.
  - apply lru_of_spec in E1 as [Hin1 Hm1], E2 as [Hin2 Hm2]. f_equal.
    assert (Hin2' : In r2 l1) by (rewrite Hp; done). assert (Hin1' : In r1 l2) by (rewrite <- Hp; done).
    apply Hinj; [done..|]. specialize (Hm1 _ Hin2'). specialize (Hm2 _ Hin1'). lia.
  - destruct l2; [|done]. by rewrite (proj1 (Permutation_nil_r l1) Hp) in E1.
  - destruct l1; [|done]. by rewrite <- (proj1 (Permutation_nil_l l2) Hp) in E2.
  - done.
Qed.

Lemma min_by_access_head best l :
  (forall x, In x l -> last_access best.2 <= last_access x.2) -> min_by_access best l = best.
Proof.
  revert best. induction l as [|x l IH]; intros best H; simpl; [done|].
  destruct (Z.ltb_spec (last_access x.2) (last_access best.2)).
  - specialize (H x (or_introl eq_refl)). lia.
  - apply IH. intros y Hy. apply H. by right.
Qed.

Lemma evict_key_none m : evict_key m = None <-> m = ∅.
Proof.
  unfold evict_key. rewrite <- map_to_list_empty_iff. by destruct (map_to_list m).
Qed.

(** ** Appending to a live entry *)

Definition count_outcome (o : RingBuffer.PushOutcome) (st : t) : t :=
  match o with RingBuffer.OutOfOrder _ _ => bump_out_of_order st | RingBuffer.PushOk => st end.

Lemma push_and_publish_live st sym e c :
  RingBuffer.wf (e_buf e) -> removed e = false ->
  exists buf' o, RingBuffer.wf buf' /\ RingBuffer.capacity buf' = RingBuffer.capacity (e_buf e) /\
    RingBuffer.contents buf' = lastn (RingBuffer.capacity (e_buf e)) (RingBuffer.contents (e_buf e) ++ [c]) /\
    push_and_publish st sym e c =
      Some (bump_version (count_outcome o (set_map st (<[sym := mkEntry buf' (last_access e) false]> (map st)))), true).
Proof.
  intros Hwf Hlive. destruct (RingBuffer.push_spec (e_buf e) c Hwf) as (buf' & o & Hp & Hwf' & Hcap & Hc & _).
  exists buf', o. split_and!; [done..|]. unfold push_and_publish. rewrite Hlive, Hp. by destruct o.
Qed.

Lemma first_push cap c :
  (0 < cap)%nat ->
  exists buf o, RingBuffer.push (RingBuffer.new cap) c = Some (buf, o) /\ RingBuffer.wf buf /\
    RingBuffer.capacity buf = cap /\ RingBuffer.contents buf = [c].
Proof.
  intros H. destruct (RingBuffer.new_wf cap H) as (Hwf & Hc & Hcap).
  destruct (RingBuffer.push_spec _ c Hwf) as (buf & o & Hp & Hwf' & Hcap' & Hc' & _).
  exists buf, o. split_and!; [done..|congruence|]. rewrite Hc', Hc. apply lastn_all. simpl. lia.
Qed.

End Store.
