(* ===== verification/StoreSpec.v ===== *)
(** * The store refines a bounded LRU cache

    [Module LruCache] is the abstract specification of [CandleStore]: a list
    of symbols from least to most recently written, each with its newest
    candles, and one total [append].  [Module StoreSpec] relates it to the
    detailed model of [Store.v] (hash map, ring buffers, LRU stamps drawn
    from an atomic tick, removed flags) and proves the forward simulation;
    the claims about the store are then read off the specification. *)

From S2P Require Import Prelude Float64 Candle RingBuffer Cold Store.

#[local] Open Scope Z_scope.

Module LruCache.

(** Least recently written symbol first; candles oldest first. *)
Definition t : Type := list (string * list Candle).

Definition without (sym : string) (l : list (string * list Candle)) : t := filter (fun x => x.1 <> sym) l.

Fixpoint lookup (sym : string) (l : t) : option (list Candle) :=
  match l with
  | [] => None
  | (k, cs) :: l' => if decide (k = sym) then Some cs else lookup sym l'
  end.

Record config : Type := mkConfig { max_symbols : Z; ring_capacity : nat; data_dir : option string }.

Section cold.
Context {disk faults : Type} `{!ColdStorage disk faults}.

(** Make room for one more symbol: nothing below the limit; otherwise the
    least recently written symbol leaves, its candles handed to cold storage
    when there is one.  A failed spill changes nothing. *)
Definition make_room (cfg : config) (f : faults) (l : t) (d : disk) : t * disk * result unit Store.AppendError :=
  if max_symbols cfg <=? Z.of_nat (length l) then
    match l, data_dir cfg with
    | [], _ => (l, d, Ok tt)
    | (k, cs) :: l', None => (l', d, Ok tt)
    | (k, cs) :: l', Some dir =>
        match spill f d dir k cs with
        | (d', Ok _) => (l', d', Ok tt)
        | (d', Err e) => (l, d', Err (Store.EvictionSpillFailed k (length cs) e))
        end
    end
  else (l, d, Ok tt).

Definition append (cfg : config) (f : faults) (l : t) (d : disk) (sym : string) (c : Candle)
    : t * disk * result unit Store.AppendError :=
  if is_valid c then
    match lookup sym l with
    | Some cs => (without sym l ++ [(sym, lastn (ring_capacity cfg) (cs ++ [c]))], d, Ok tt)
    | None =>
        match make_room cfg f l d with
        | (l', d', Ok _) => (l' ++ [(sym, [c])], d', Ok tt)
        | (l', d', Err e) => (l', d', Err e)
        end
    end
  else (l, d, Err (Store.InvalidCandle sym)).

Fixpoint run (cfg : config) (l : t) (d : disk) (ops : list (faults * string * Candle))
    : t * disk * list (result unit Store.AppendError) :=
  match ops with
  | [] => (l, d, [])
  | (f, sym, c) :: ops' =>
      let '(l1, d1, r) := append cfg f l d sym c in
      let '(l2, d2, rs) := run cfg l1 d1 ops' in
      (l2, d2, r :: rs)
  end.

(** What the cache holds after the candles [cs] of one symbol. *)
Definition fed (cap : nat) (symbol : string) (cs : list Candle) : t :=
  match filter (fun c => is_valid c = true) cs with
  | [] => []
  | valid => [(symbol, lastn cap valid)]
  end.

Lemma fed_append cfg (f : faults) symbol cs c (d : disk) :
  (0 < ring_capacity cfg)%nat ->
  exists r, append cfg f (fed (ring_capacity cfg) symbol cs) d symbol c =
    (fed (ring_capacity cfg) symbol (cs ++ [c]), d, r).
Proof.
  intros Hcap. unfold append, fed. rewrite filter_app.
  destruct (is_valid c) eqn:Hv.
  2: { rewrite (filter_cons_False _ c []), app_nil_r by congruence. by eexists. }
  rewrite (filter_cons_True _ c []), filter_nil by done.
  destruct (filter (fun c => is_valid c = true) cs) as [|x l].
  - simpl. unfold make_room. rewrite lastn_all by (simpl; lia).
    destruct (max_symbols cfg <=? Z.of_nat (length [])); simpl; by eexists.
  - cbn [lookup]. rewrite decide_True by done. eexists. unfold without.
    rewrite filter_cons_False by (simpl; auto). rewrite filter_nil. simpl app.
    by rewrite lastn_app_lastn.
Qed.

Lemma append_spill_failed cfg (f : faults) l (d : disk) sym c l' d' k n e :
  append cfg f l d sym c = (l', d', Err (Store.EvictionSpillFailed k n e)) ->
  l' = l /\ exists cs rest dir, l = (k, cs) :: rest /\ n = length cs /\ data_dir cfg = Some dir /\
    spill f d dir k cs = (d', Err e).
Proof.
  unfold append, make_room. destruct (is_valid c); [|done]. destruct (lookup sym l); [done|].
  destruct (max_symbols cfg <=? _); [|done]. destruct l as [|[k0 cs] rest]; [done|].
  destruct (data_dir cfg) as [dir|]; [|done]. destruct (spill f d dir k0 cs) as [d0 [[]|x]] eqn:Esp; [done|].
  intros ?. simplify_eq. eauto 10.
Qed.

End cold.
End LruCache.

Module StoreSpec.
Import Store.

(** ** The simulation relation *)

Definition abs_entry (x : string * Entry) : string * list Candle := (x.1, RingBuffer.contents (e_buf x.2)).

Definition older (x y : string * Entry) : Prop := last_access x.2 < last_access y.2.

Definition config_of (st : t) : LruCache.config :=
  LruCache.mkConfig (max_symbols st) (ring_capacity st) (data_dir st).

Record by_age (st : t) (l : list (string * Entry)) : Prop := {
  ba_perm : l ≡ₚ map_to_list (map st);
  ba_sorted : StronglySorted older l
}.

Definition refines (st : t) (a : LruCache.t) : Prop :=
  wf st /\ exists l, by_age st l /\ a = abs_entry <$> l.

Lemma perm_filter {A} (P : A -> Prop) `{!forall x, Decision (P x)} (l1 l2 : list A) :
  l1 ≡ₚ l2 -> filter P l1 ≡ₚ filter P l2.
Proof. intros Hp. by rewrite Hp. Qed.

Lemma by_age_elem st l k e : by_age st l -> (k, e) ∈ l <-> map st !! k = Some e.
Proof. intros [Hp _]. rewrite Hp. by rewrite elem_of_map_to_list. Qed.

Lemma by_age_length st l : by_age st l -> length l = size (map st).
Proof. intros [Hp _]. by rewrite Hp, length_map_to_list. Qed.

Lemma delete_perm (m : gmap string Entry) l k :
  l ≡ₚ map_to_list m -> filter (fun x => x.1 <> k) l ≡ₚ map_to_list (delete k m).
Proof.
  intros Hp. rewrite (perm_filter _ _ _ Hp). 
  assert (Hall : Forall (fun x : string * Entry => x.1 <> k) (map_to_list (delete k m))).
  { apply Forall_forall. intros [k' e'] Hin%elem_of_map_to_list. simpl. intros ->.
    by rewrite lookup_delete_eq in Hin. }
  destruct (m !! k) as [e|] eqn:E.
  - rewrite <- (map_to_list_delete m k e E). rewrite filter_cons_False by (simpl; auto).
    by rewrite filter_keep.
  - rewrite delete_id in * by done. by rewrite filter_keep.
Qed.

(** Writing the entry of [k] with a fresh stamp makes it the youngest. *)
Lemma by_age_write st l m' k e :
  by_age st l -> (forall k' e', map st !! k' = Some e' -> last_access e' < last_access e) ->
  m' = <[k := e]> (map st) ->
  forall st', map st' = m' -> by_age st' (filter (fun x => x.1 <> k) l ++ [(k, e)]).
Proof.
  intros [Hp Hs] Hfresh -> st' Hst'. split.
  - rewrite Hst', (delete_perm (map st) l k Hp), <- insert_delete_eq.
    rewrite map_to_list_insert by apply lookup_delete_eq. by rewrite Permutation_app_comm.
  - apply sorted_snoc; [by apply sorted_filter|]. apply Forall_forall. intros [k' e'] [_ Hin]%list_elem_of_filter.
    rewrite Hp, elem_of_map_to_list in Hin. by apply Hfresh in Hin.
Qed.

Lemma abs_without k l :
  abs_entry <$> filter (fun x : string * Entry => x.1 <> k) l = LruCache.without k (abs_entry <$> l).
Proof.
  unfold LruCache.without. induction l as [|[k' e'] l IH]; [done|]. destruct (decide (k' = k)) as [->|Hk].
  - rewrite fmap_cons, filter_cons_False, filter_cons_False by (simpl; auto). exact IH.
  - rewrite fmap_cons, filter_cons_True, filter_cons_True, fmap_cons by done. f_equal. exact IH.
Qed.

Lemma abs_lookup st l k :
  by_age st l ->
  LruCache.lookup k (abs_entry <$> l) = (fun e => RingBuffer.contents (e_buf e)) <$> map st !! k.
Proof.
  intros Hb. destruct (map st !! k) as [e|] eqn:E.
  - assert (Hin : (k, e) ∈ l) by (by apply (by_age_elem st)).
    assert (Hu : forall e', (k, e') ∈ l -> e' = e).
    { intros e' He'. apply (by_age_elem _ _ _ _ Hb) in He'. congruence. }
    clear Hb E. induction l as [|[k' e'] l IH]; [by apply not_elem_of_nil in Hin|]. simpl.
    case_decide as Hk; [|].
    + subst. simpl. by rewrite (Hu e') by set_solver.
    + apply IH; set_solver.
  - assert (Hn : forall e, (k, e) ∉ l).
    { intros e He. apply (by_age_elem _ _ _ _ Hb) in He. congruence. }
    clear Hb E. induction l as [|[k' e'] l IH]; [done|]. simpl. case_decide as Hk.
    + subst. exfalso. apply (Hn e'). set_solver.
    + apply IH. set_solver.
Qed.

(** ** The eviction victim is the head of the list *)

Lemma by_age_head_min x l : StronglySorted older (x :: l) -> forall y, In y l -> last_access x.2 <= last_access y.2.
Proof.
  intros Hs y Hy. apply StronglySorted_inv in Hs as [_ Hx].
  apply Forall_forall with (x := y) in Hx; [|by apply list_elem_of_In]. unfold older in Hx. lia.
Qed.

Lemma sorted_stamps_inj l x y :
  StronglySorted older l -> In x l -> In y l -> last_access x.2 = last_access y.2 -> x = y.
Proof.
  induction 1 as [|z l Hs IH Hz]; [done|]. rewrite Forall_forall in Hz.
  intros [<-|Hx] [<-|Hy] E; auto.
  - apply list_elem_of_In, Hz in Hy. unfold older in Hy. lia.
  - apply list_elem_of_In, Hz in Hx. unfold older in Hx. lia.
Qed.

Lemma evict_key_head st l : by_age st l -> evict_key (map st) = list.head l.
Proof.
  intros [Hp Hs]. unfold evict_key. rewrite <- (lru_of_perm l); [|by eauto using sorted_stamps_inj|done].
  destruct l as [|x l]; [done|]. simpl. f_equal. apply min_by_access_head. by apply by_age_head_min.
Qed.

Lemma by_age_delete_head st st' k e l :
  by_age st ((k, e) :: l) -> map st' = delete k (map st) -> by_age st' l.
Proof.
  intros Hb Hm. assert (Hk : map st !! k = Some e) by (apply (by_age_elem _ _ _ _ Hb); left).
  destruct Hb as [Hp Hs]. split; [|by apply StronglySorted_inv in Hs as [? _]].
  rewrite Hm. apply (Permutation_cons_inv (a := (k, e))). by rewrite map_to_list_delete.
Qed.

(** ** Simulation of each phase of an append *)

Definition stale (st : t) (tk : Z) : Prop := forall k e, map st !! k = Some e -> last_access e < tk.

Lemma refines_write st st' a k e :
  refines st a -> stale st (last_access e) -> 0 <= last_access e < tick st' -> tick st <= tick st' ->
  config_of st' = config_of st -> map st' = <[k := e]> (map st) ->
  (is_Some (map st !! k) \/ Z.of_nat (size (map st)) < Z.max 1 (max_symbols st)) ->
  RingBuffer.wf (e_buf e) -> RingBuffer.capacity (e_buf e) = ring_capacity st ->
  RingBuffer.contents (e_buf e) <> [] -> removed e = false ->
  refines st' (LruCache.without k a ++ [(k, RingBuffer.contents (e_buf e))]).
Proof.
  intros [Hwf (l & Hb & ->)] Hst Htk Hmono Hcfg Hm Hsz Hr Hc Hne Hlive. injection Hcfg as Hmax Hrc _. split.
  - destruct Hwf as [Hcap Htick Hent Hsize]. split; [lia|lia| |].
    + intros k' e'. rewrite Hm. intros [[-> ->]|[Hk He]]%lookup_insert_Some.
      * split; auto; lia.
      * destruct (Hent _ _ He). split; auto; [congruence|lia].
    + rewrite Hm, Hmax, map_size_insert. destruct Hsz as [[x ->]|Hsz]; simpl; [lia|].
      destruct (map st !! k); simpl; lia.
  - exists (filter (fun x => x.1 <> k) l ++ [(k, e)]). split.
    + eapply by_age_write; eauto.
    + by rewrite fmap_app, abs_without.
Qed.

(** What one append does to the counters, by its result. *)
Record tallied (st : t) (r : result unit AppendError) (st' : t) : Prop := {
  ta_signals : signals st' = signals st;
  ta_rejected : appends_rejected st' = appends_rejected st;
  ta_version : version st' = match r with Ok _ => fetch_add1 (version st) | Err _ => version st end;
  ta_invalid : invalid_candles st' =
    match r with Err (InvalidCandle _) => fetch_add1 (invalid_candles st) | _ => invalid_candles st end;
  ta_spill_errors : parquet_spill_errors st' =
    match r with
    | Err (EvictionSpillFailed _ _ _) => fetch_add1 (parquet_spill_errors st)
    | _ => parquet_spill_errors st
    end
}.

(** A phase of an append goes from [st] to [st'] with abstract value [a']. *)
Record phase (st st' : t) (a' : LruCache.t) : Prop := {
  ph_refines : refines st' a';
  ph_config : config_of st' = config_of st;
  ph_tick : tick st' = tick st
}.

Lemma lookup_wf st a sym e : refines st a -> map st !! sym = Some e -> entry_wf st e.
Proof. intros [Hwf _] He. by apply (w_entries st Hwf sym). Qed.

Lemma sim_existing st a sym e c tk :
  refines st a -> stale st tk -> 0 <= tk < tick st -> map st !! sym = Some e ->
  exists st2, push_and_publish (touch st sym e tk).1 sym (touch st sym e tk).2 c = Some (st2, true) /\
    phase st st2 (LruCache.without sym a ++ [(sym, lastn (ring_capacity st) (RingBuffer.contents (e_buf e) ++ [c]))]) /\
    tallied st (Ok tt) st2.
Proof.
  intros Href Hst Htk He. destruct (lookup_wf _ _ _ _ Href He) as [Hr Hc Hne Hl Ha].
  destruct (push_and_publish_live (touch st sym e tk).1 sym (touch st sym e tk).2 c Hr Hl)
    as (buf' & o & Hr' & Hc' & Hcont & Hp). simpl in Hc', Hcont, Hp.
  eexists. split; [exact Hp|]. split; [|destruct o; by split]. split; [|by destruct o..].
  rewrite <- Hc, <- Hcont.
  change (RingBuffer.contents buf') with (RingBuffer.contents (e_buf (mkEntry buf' tk false))).
  apply (refines_write st); simpl; auto; try (by destruct o); try (destruct o; simpl; lia).
  - destruct o; simpl; by rewrite insert_insert_eq.
  - rewrite Hcont. intros Hnil%(f_equal length). rewrite length_lastn, length_app in Hnil. simpl in Hnil.
    destruct Hr. lia.
Qed.

Lemma without_fresh sym l : LruCache.lookup sym l = None -> LruCache.without sym l = l.
Proof.
  intros H. apply filter_keep. induction l as [|[k cs] l IH]; [done|]. simpl in H.
  case_decide; [done|]. constructor; auto.
Qed.

Lemma abs_fresh st a sym : refines st a -> LruCache.lookup sym a = None <-> map st !! sym = None.
Proof. intros [_ (l & Hb & ->)]. rewrite (abs_lookup st) by done. by destruct (map st !! sym). Qed.

Lemma abs_found st a sym e :
  refines st a -> map st !! sym = Some e -> LruCache.lookup sym a = Some (RingBuffer.contents (e_buf e)).
Proof. intros [_ (l & Hb & ->)] He. by rewrite (abs_lookup st), He. Qed.

Lemma sim_insert st a sym buf tk :
  refines st a -> stale st tk -> 0 <= tk < tick st -> map st !! sym = None ->
  Z.of_nat (length a) < Z.max 1 (max_symbols st) ->
  RingBuffer.wf buf -> RingBuffer.capacity buf = ring_capacity st -> RingBuffer.contents buf <> [] ->
  let st2 := bump_version (set_map st (<[sym := mkEntry buf tk false]> (map st))) in
  phase st st2 (a ++ [(sym, RingBuffer.contents buf)]) /\ tallied st (Ok tt) st2.
Proof.
  intros Href Hst Htk Hn Hlen Hr Hc Hne st2. split; [|done]. split; [|done..].
  rewrite <- (without_fresh sym a) by (by apply (abs_fresh st)).
  apply (refines_write st st2 a sym (mkEntry buf tk false)); simpl; auto; [lia|].
  right. destruct Href as [_ (l & Hb & ->)]. rewrite length_fmap in Hlen. by rewrite <- (by_age_length st l Hb).
Qed.

(** A state that differs only in counters refines the same cache. *)
Lemma refines_counters st st' a :
  refines st a -> map st' = map st -> config_of st' = config_of st -> tick st <= tick st' -> refines st' a.
Proof.
  intros [Hwf (l & [Hp Hs] & ->)] Hm Hcfg Htk. injection Hcfg as Hmax Hrc _. split.
  - destruct Hwf as [Hcap Htick Hent Hsize]. split; [lia|lia| |rewrite Hm; lia].
    intros k e. rewrite Hm. intros He. destruct (Hent _ _ He). split; auto; [congruence|lia].
  - exists l. split; [|done]. split; [by rewrite Hm|done].
Qed.

Lemma refines_evicted st st' k e l :
  wf st -> by_age st ((k, e) :: l) -> map st' = delete k (map st) -> config_of st' = config_of st ->
  tick st' = tick st -> refines st' (abs_entry <$> l).
Proof.
  intros [Hcap Htick Hent Hsize] Hb Hm Hcfg Htk. injection Hcfg as Hmax Hrc _. split.
  - split; [lia|lia| |].
    + intros k' e'. rewrite Hm. intros [_ He]%lookup_delete_Some. destruct (Hent _ _ He). split; auto; [congruence|lia].
    + rewrite Hm, Hmax, map_size_delete. destruct (map st !! k); simpl; lia.
  - exists l. split; [|done]. by eapply by_age_delete_head.
Qed.

Section cold.
Context {disk faults : Type} `{!ColdStorage disk faults}.

(** The eviction block against [make_room], when the table is full. *)
Lemma sim_evict (f : faults) st (d : disk) k e l :
  wf st -> by_age st ((k, e) :: l) -> max_symbols st <= Z.of_nat (size (map st)) ->
  exists st' a' d' r, evict f st d k e = Some (st', d', r) /\
    LruCache.make_room (config_of st) f (abs_entry <$> (k, e) :: l) d = (a', d', r) /\
    phase st st' a' /\
    signals st' = signals st /\ appends_rejected st' = appends_rejected st /\ version st' = version st /\
    invalid_candles st' = invalid_candles st /\
    parquet_spill_errors st' =
      match r with Ok _ => parquet_spill_errors st | Err _ => fetch_add1 (parquet_spill_errors st) end /\
    match r with
    | Ok _ => (length a' < length ((k, e) :: l))%nat /\ map st' ⊆ map st
    | Err x => exists n y, x = EvictionSpillFailed k n y
    end.
Proof.
  intros Hwf Hb Hfull. assert (He : map st !! k = Some e) by (apply (by_age_elem _ _ _ _ Hb); left).
  destruct (w_entries st Hwf k e He) as [Hr Hc Hne Hl Ha].
  pose proof (by_age_length _ _ Hb) as Hlen.
  assert (Hev : forall st', map st' = delete k (<[k := mkEntry (e_buf e) (last_access e) true]> (map st)) ->
    config_of st' = config_of st -> tick st' = tick st -> phase st st' (abs_entry <$> l)).
  { intros st' Hm Hcfg Htk. rewrite delete_insert_eq in Hm. split; [|done..]. by eapply refines_evicted. }
  unfold evict, LruCache.make_room. rewrite RingBuffer.to_vec_contents by done. simpl.
  rewrite (proj2 (Z.leb_le (max_symbols st) _)) by (rewrite length_fmap; simpl in Hlen; lia).
  destruct (RingBuffer.contents (e_buf e)) as [|c0 cs] eqn:Econt; [done|].
  destruct (data_dir st) as [dir|] eqn:Edir; [destruct (spill f d dir k (c0 :: cs)) as [d' [u|x]] eqn:Esp|].
  - destruct u. do 4 eexists. split_and!; try reflexivity; [by apply Hev|].
    split; simpl; [rewrite length_fmap; lia|]. rewrite delete_insert_eq. apply delete_subseteq.
  - do 4 eexists. split_and!; try reflexivity; [|by do 2 eexists].
    split; [|done..]. apply (refines_counters st); [split; [done|by eexists]| |done..]. simpl.
    rewrite insert_insert_eq. rewrite <- Hl, insert_id; [done|]. by destruct e.
  - do 4 eexists. split_and!; try reflexivity; [by apply Hev|].
    split; simpl; [rewrite length_fmap; lia|]. rewrite delete_insert_eq. apply delete_subseteq.
Qed.

(** Making room, whether or not anything has to be evicted. *)
Lemma sim_make_room (f : faults) st a (d : disk) :
  refines st a ->
  exists st' a' d' r,
    (if max_symbols st <=? Z.of_nat (size (map st)) then
       match evict_key (map st) with
       | Some (key, entry) => evict f st d key entry
       | None => Some (st, d, Ok tt)
       end
     else Some (st, d, Ok tt)) = Some (st', d', r) /\
    LruCache.make_room (config_of st) f a d = (a', d', r) /\ phase st st' a' /\
    signals st' = signals st /\ appends_rejected st' = appends_rejected st /\ version st' = version st /\
    invalid_candles st' = invalid_candles st /\
    parquet_spill_errors st' =
      match r with Ok _ => parquet_spill_errors st | Err _ => fetch_add1 (parquet_spill_errors st) end /\
    match r with
    | Ok _ => Z.of_nat (length a') < Z.max 1 (max_symbols st) /\ map st' ⊆ map st
    | Err x => exists k n y, x = EvictionSpillFailed k n y
    end.
Proof.
  intros Href. pose proof Href as [Hwf (l & Hb & ->)]. pose proof (by_age_length _ _ Hb) as Hlen.
  assert (Hsame : phase st st (abs_entry <$> l)) by done.
  rewrite (evict_key_head st l) by done. destruct (Z.leb_spec (max_symbols st) (Z.of_nat (size (map st)))) as [Hfull|Hroom].
  - destruct l as [|[k e] l]; simpl.
    + exists st, [], d, (Ok tt). split_and!; try done; [|simpl; lia].
      unfold LruCache.make_room. simpl. by destruct (_ <=? _).
    + destruct (sim_evict f st d k e l Hwf Hb Hfull) as (st' & a' & d' & r & Hev & Hmr & Hph & H1 & H2 & H3 & H4 & H5 & H6).
      exists st', a', d', r. split_and!; try done. destruct r as [[]|x]; [|naive_solver].
      pose proof (w_size st Hwf). destruct H6 as [H6 Hsub]. rewrite <- Hlen in *. simpl in *. split; [lia|done].
  - exists st, (abs_entry <$> l), d, (Ok tt). split_and!; try done; [|rewrite length_fmap; lia].
    unfold LruCache.make_room. simpl. rewrite length_fmap. by rewrite (proj2 (Z.leb_gt _ _)) by lia.
Qed.

Lemma sim_try_insert_new fuel (f : faults) st a (d : disk) sym c tk :
  refines st a -> stale st tk -> 0 <= tk < tick st -> map st !! sym = None -> is_valid c = true ->
  exists st' a' d' r, try_insert_new (S fuel) f st d sym c tk = Some (st', d', r) /\
    LruCache.append (config_of st) f a d sym c = (a', d', r) /\ phase st st' a' /\ tallied st r st'.
Proof.
  intros Href Hst Htk Hn Hv. pose proof (w_cap st (proj1 Href)) as Hcap.
  destruct (first_push (ring_capacity st) c Hcap) as (buf & o & Hp & Hr & Hc & Hcont).
  destruct (sim_make_room f st a d Href)
    as (st1 & a1 & d1 & r1 & Hev & Hmr & [Href1 Hcfg1 Htk1] & H1 & H2 & H3 & H4 & H5 & H6).
  unfold LruCache.append. rewrite Hv, (proj2 (abs_fresh st a sym Href) Hn), Hmr.
  cbn [try_insert_new]. rewrite Hp. cbn [mbind option_bind]. rewrite Hn, Hev. cbn [mbind option_bind].
  destruct r1 as [[]|x].
  - destruct H6 as [Hlen1 Hfr]. injection Hcfg1 as Hmax Hrc Hdd.
    assert (Hst1 : stale st1 tk) by (intros k e He; by eapply Hst, lookup_weaken).
    assert (Hn1 : map st1 !! sym = None) by (by eapply lookup_weaken_None).
    destruct (sim_insert st1 a1 sym buf tk Href1 Hst1) as [[Href2 Hcfg2 Htk2] [T1 T2 T3 T4 T5]];
      [lia|done|lia|done|congruence|by rewrite Hcont|].
    do 4 eexists. split_and!; [reflexivity..| |split; congruence].
    split; [by rewrite <- Hcont| |congruence]. unfold config_of in *. simpl in *. congruence.
  - do 4 eexists. split_and!; [reflexivity..|done|]. destruct H6 as (k & n & y & ->). by split.
Qed.

Lemma sim_try_append fuel (f : faults) st a (d : disk) sym c :
  refines st a -> tick st < u64_max ->
  exists st' a' d' r, try_append (S fuel) f st d sym c = Some (st', d', r) /\
    LruCache.append (config_of st) f a d sym c = (a', d', r) /\
    refines st' a' /\ config_of st' = config_of st /\ tick st' <= tick st + 1 /\ tallied st r st'.
Proof.
  intros Href Hnw. pose proof (w_tick st (proj1 Href)) as Ht. unfold try_append.
  destruct (is_valid c) eqn:Hv; cbn [negb]; [|].
  2: { exists (bump_invalid st), a, d, (Err (InvalidCandle sym)). split_and!; try done; [| |simpl; lia].
       - unfold LruCache.append. by rewrite Hv.
       - by apply (refines_counters st). }
  assert (Ht0 : tick (bump_tick st) = tick st + 1) by (simpl; apply fetch_add1_small; lia).
  assert (Href0 : refines (bump_tick st) a) by (apply (refines_counters st); [done..|lia]).
  assert (Hst : stale (bump_tick st) (tick st)).
  { intros k e He. apply (w_entries st (proj1 Href) k e He). }
  change (map (bump_tick st)) with (map st).
  destruct (map st !! sym) as [e|] eqn:He.
  - destruct (sim_existing (bump_tick st) a sym e c (tick st) Href0 Hst ltac:(lia) He)
      as (st2 & Hp & [Href2 Hcfg2 Htk2] & Hta).
    unfold touch in *. cbn [fst snd] in *. rewrite Hp. cbn [mbind option_bind]. do 4 eexists. split_and!; [reflexivity| |done..|lia|].
    + unfold LruCache.append. by rewrite Hv, (abs_found st a sym e).
    + destruct Hta. by split.
  - destruct (sim_try_insert_new fuel f (bump_tick st) a d sym c (tick st) Href0 Hst ltac:(lia) He Hv)
      as (st2 & a2 & d2 & r & Hp & Hab & [Href2 Hcfg2 Htk2] & Hta).
    exists st2, a2, d2, r. split_and!; [done|exact Hab|done..|lia|]. destruct Hta. by split.
Qed.

Lemma sim_try_append_all fuel (ops : list (faults * string * Candle)) st a (d : disk) :
  refines st a -> tick st + Z.of_nat (length ops) <= u64_max ->
  exists st' a' d' rs, try_append_all (S fuel) st d ops = Some (st', d', rs) /\
    LruCache.run (config_of st) a d ops = (a', d', rs) /\ refines st' a' /\ config_of st' = config_of st /\
    tick st' <= tick st + Z.of_nat (length ops).
Proof.
  revert st a d. induction ops as [|[[f sym] c] ops IH]; intros st a d Href Hnw.
  - exists st, a, d, []. split_and!; [done..|simpl; lia].
  - cbn [length] in Hnw. destruct (sim_try_append fuel f st a d sym c Href ltac:(lia))
      as (st1 & a1 & d1 & r & Hp & Hab & Href1 & Hcfg1 & Htk1 & _).
    destruct (IH st1 a1 d1 Href1 ltac:(lia)) as (st2 & a2 & d2 & rs & Hps & Habs & Href2 & Hcfg2 & Htk2).
    exists st2, a2, d2, (r :: rs). cbn [try_append_all LruCache.run length].
    rewrite Hp. cbn [mbind option_bind]. rewrite Hps, Hab, <- Hcfg1, Habs. split_and!; [done..|congruence|lia].
Qed.

End cold.

Lemma refines_open max_symbols cap dir : (0 < cap)%nat -> refines (open_store max_symbols cap dir) [].
Proof.
  intros Hc. split.
  - by apply open_store_wf.
  - exists []. split; [|done]. split; [|constructor]. by destruct dir; simpl; rewrite map_to_list_empty.
Qed.

(** Reads agree with the specification. *)
Lemma refines_hot st a sym : refines st a -> hot st sym = default [] (LruCache.lookup sym a).
Proof. intros [_ (l & Hb & ->)]. rewrite (abs_lookup st) by done. unfold hot. by destruct (map st !! sym). Qed.

Lemma refines_last_n st a sym n : refines st a -> last_n st sym n = Some (lastn n (hot st sym)).
Proof.
  intros [Hwf _]. unfold last_n, hot. destruct (map st !! sym) as [e|] eqn:He; [|done].
  apply RingBuffer.last_n_contents. by destruct (w_entries st Hwf sym e He).
Qed.

Lemma refines_candle_count st a sym : refines st a -> candle_count st sym = length (hot st sym).
Proof.
  intros [Hwf _]. unfold candle_count, hot. destruct (map st !! sym) as [e|] eqn:He; [|done].
  rewrite RingBuffer.contents_length; [done|]. by destruct (w_entries st Hwf sym e He).
Qed.

Lemma refines_symbol_count st a : refines st a -> symbol_count st = length a.
Proof. intros [_ (l & Hb & ->)]. by rewrite length_fmap, (by_age_length st). Qed.

(** ** Counters *)

Section counters.
Context {disk faults : Type} `{!ColdStorage disk faults}.

Definition is_ok {A E} (r : result A E) : bool := match r with Ok _ => true | Err _ => false end.
Definition is_invalid (r : result unit AppendError) : bool :=
  match r with Err (InvalidCandle _) => true | _ => false end.
Definition is_spill_failure (r : result unit AppendError) : bool :=
  match r with Err (EvictionSpillFailed _ _ _) => true | _ => false end.

Definition count {A} (p : A -> bool) (l : list A) : Z := Z.of_nat (length (List.filter p l)).

Lemma count_cons {A} (p : A -> bool) x l : count p (x :: l) = (if p x then 1 else 0) + count p l.
Proof. unfold count. simpl. destruct (p x); simpl; lia. Qed.

Lemma count_bound {A} (p : A -> bool) l : 0 <= count p l <= Z.of_nat (length l).
Proof. unfold count. pose proof (List.filter_length_le p l). lia. Qed.

(** The appends among the calls, as the specification runs them. *)
Fixpoint appends_of (cls : list (@call faults)) : list (faults * string * Candle) :=
  match cls with
  | [] => []
  | CallAppend f sym c :: cls' => (f, sym, c) :: appends_of cls'
  | CallSignal :: cls' => appends_of cls'
  end.

Lemma sim_append fuel (f : faults) st a (d : disk) sym c :
  refines st a -> tick st < u64_max ->
  exists st' a' d' r, append (S fuel) f st d sym c = Some (st', d') /\
    LruCache.append (config_of st) f a d sym c = (a', d', r) /\
    refines st' a' /\ config_of st' = config_of st /\ tick st' <= tick st + 1 /\
    signals st' = signals st /\
    version st' = (if is_ok r then fetch_add1 (version st) else version st) /\
    invalid_candles st' = (if is_invalid r then fetch_add1 (invalid_candles st) else invalid_candles st) /\
    parquet_spill_errors st' =
      (if is_spill_failure r then fetch_add1 (parquet_spill_errors st) else parquet_spill_errors st) /\
    appends_rejected st' =
      (if is_spill_failure r then fetch_add1 (appends_rejected st) else appends_rejected st).
Proof.
  intros Href Hnw. destruct (sim_try_append fuel f st a d sym c Href Hnw)
    as (st' & a' & d' & r & Hp & Hab & Href' & Hcfg & Htk & [T1 T2 T3 T4 T5]).
  unfold append. rewrite Hp. cbn [mbind option_bind]. destruct r as [[]|[k n x|k]].
  - by exists st', a', d', (Ok tt).
  - eexists _, a', d', _. split_and!; [reflexivity|exact Hab|by apply (refines_counters st')|done..|].
    simpl. by rewrite T2.
  - by exists st', a', d', (Err (InvalidCandle k)).
Qed.

(** One more candle of the only symbol. *)
Lemma sim_append_fed fuel (f : faults) st (d : disk) max cap dir sym cs c :
  (0 < cap)%nat -> config_of st = LruCache.mkConfig max cap dir -> refines st (LruCache.fed cap sym cs) -> tick st < u64_max ->
  exists st', append (S fuel) f st d sym c = Some (st', d) /\ refines st' (LruCache.fed cap sym (cs ++ [c])) /\
    config_of st' = config_of st /\ tick st' <= tick st + 1.
Proof.
  intros Hcap Hcfg Href Htk. destruct (sim_append fuel f st _ d sym c Href Htk) as (st' & a' & d' & rr & Ha & Hab & Href' & Hcfg' & Htk' & _).
  destruct (LruCache.fed_append (LruCache.mkConfig max cap dir) f sym cs c d Hcap) as [r0 Hr0]. cbn [LruCache.ring_capacity] in Hr0.
  rewrite Hcfg, Hr0 in Hab. injection Hab as <- <- _. by exists st'.
Qed.

Lemma fed_hot st cap sym cs :
  refines st (LruCache.fed cap sym cs) -> hot st sym = lastn cap (filter (fun c => is_valid c = true) cs).
Proof.
  intros Href. rewrite (refines_hot _ _ _ Href). unfold LruCache.fed. destruct (filter _ cs); [done|].
  cbn [LruCache.lookup]. by rewrite decide_True.
Qed.

(** The counters after a run, relative to where they started. *)
Lemma sim_run_calls fuel (cls : list (@call faults)) st a (d : disk) :
  refines st a ->
  0 <= version st -> 0 <= signals st -> 0 <= invalid_candles st -> 0 <= parquet_spill_errors st ->
  0 <= appends_rejected st ->
  let n := Z.of_nat (length cls) in
  tick st + n <= u64_max -> version st + n <= u64_max -> signals st + n <= u64_max ->
  invalid_candles st + n <= u64_max -> parquet_spill_errors st + n <= u64_max ->
  appends_rejected st + n <= u64_max ->
  exists st' d' a' rs, run_calls (S fuel) st d cls = Some (st', d') /\
    LruCache.run (config_of st) a d (appends_of cls) = (a', d', rs) /\ refines st' a' /\
    version st' - signals st' = version st - signals st + count is_ok rs /\
    0 <= signals st' /\
    invalid_candles st' = invalid_candles st + count is_invalid rs /\
    parquet_spill_errors st' = parquet_spill_errors st + count is_spill_failure rs /\
    appends_rejected st' = appends_rejected st + count is_spill_failure rs.
Proof.
  revert st a d. induction cls as [|cl cls IH]; intros st a d Href V0 S0 I0 E0 R0 n H1 H2 H3 H4 H5 H6; subst n.
  { exists st, d, a, []. unfold count. simpl. split_and!; auto; lia. }
  cbn [length] in *. destruct cl as [f sym c|]; cbn [run_calls run_call appends_of LruCache.run].
  - destruct (sim_append fuel f st a d sym c Href ltac:(lia))
      as (st1 & a1 & d1 & r & Hp & Hab & Href1 & Hcfg & Htk & Es & Ev & Ei & Ee & Er).
    rewrite !fetch_add1_small in * by lia.
    destruct (IH st1 a1 d1 Href1) as (st2 & d2 & a2 & rs & Hp2 & Hab2 & Href2 & Fv & Fs & Fi & Fe & Fr);
      [destruct (is_ok r), (is_invalid r), (is_spill_failure r); lia..|].
    rewrite Hp. cbn [mbind option_bind]. rewrite Hp2, Hab, <- Hcfg, Hab2.
    exists st2, d2, a2, (r :: rs). rewrite !count_cons.
    split_and!; try done; destruct (is_ok r), (is_invalid r), (is_spill_failure r); lia.
  - destruct (IH (signal_waiters st) a d) as (st2 & d2 & a2 & rs & Hp2 & Hab2 & Href2 & Fv & Fs & Fi & Fe & Fr);
      [by apply (refines_counters st)|simpl; rewrite ?fetch_add1_small by lia; lia..|].
    cbn [mbind option_bind]. exists st2, d2, a2, rs.
    split_and!; [done..| |lia|done|done|done]. rewrite Fv. simpl. rewrite !fetch_add1_small by lia. lia.
Qed.

End counters.

(** ** Claims *)

(** A cold storage that journals what it is given and fails on demand: the
    instance the examples run on. *)
Definition journal : Type := list (string * list Candle).

#[local] Instance journal_cold : ColdStorage journal bool := {
  spill f d _ sym cs := if f then (d, Err (SpillIo 28)) else (d ++ [(sym, cs)], Ok tt);
  query_cold d _ sym from_ts to_ts :=
    filter (in_window from_ts to_ts) (concat (snd <$> filter (fun x => x.1 = sym) d))
}.

Definition cd (t : Z) : Candle := mkCandle t f_one f_one f_one f_one f_one.

(** C1. Forward simulation: any sequence of [try_append]s (spills failing at
    will) on a fresh store with a positive ring capacity never panics, and
    produces the disk and the results of the bounded LRU cache
    specification; afterwards [last_n], [candle_count] and [symbol_count]
    answer from the cache. *)
Theorem store_refines_lru {disk faults : Type} `{!ColdStorage disk faults} fuel max_symbols cap dir
    (d : disk) (ops : list (faults * string * Candle)) :
  (0 < cap)%nat -> Z.of_nat (length ops) <= u64_max ->
  exists st d' rs a,
    try_append_all (S fuel) (open_store max_symbols cap dir) d ops = Some (st, d', rs) /\
    LruCache.run (LruCache.mkConfig max_symbols cap dir) [] d ops = (a, d', rs) /\
    (forall sym n, last_n st sym n = Some (lastn n (default [] (LruCache.lookup sym a)))) /\
    (forall sym, candle_count st sym = length (default [] (LruCache.lookup sym a))) /\
    symbol_count st = length a.
Proof.
  intros Hc Hn. pose proof (refines_open max_symbols cap dir Hc) as Href0.
  destruct (sim_try_append_all fuel ops _ _ d Href0) as (st & a & d' & rs & Hp & Hab & Href & _ & _);
    [by destruct dir|].
  exists st, d', rs, a. split_and!; [done|by destruct dir|..].
  - intros sym n. rewrite (refines_last_n st a) by done. by rewrite (refines_hot st a).
  - intros sym. rewrite (refines_candle_count st a) by done. by rewrite (refines_hot st a).
  - by apply refines_symbol_count.
Qed.

Definition demo_ops : list (bool * string * Candle) :=
  [(false, "A", cd 1); (false, "B", cd 1); (false, "A", cd 2); (true, "C", cd 1); (false, "C", cd 1);
   (false, "C", cd 2); (false, "C", cd 3)]%string.

Lemma store_refines_lru_witness :
  exists st d' rs a,
    try_append_all 1 (open_store 2 2 (Some "cold"%string)) ([] : journal) demo_ops = Some (st, d', rs) /\
    LruCache.run (LruCache.mkConfig 2 2 (Some "cold"%string)) [] [] demo_ops = (a, d', rs) /\
    (forall sym n, last_n st sym n = Some (lastn n (default [] (LruCache.lookup sym a)))) /\
    (forall sym, candle_count st sym = length (default [] (LruCache.lookup sym a))) /\
    symbol_count st = length a.
Proof. exact (store_refines_lru 0 2 2 (Some "cold"%string) [] demo_ops ltac:(lia) ltac:(vm_compute; discriminate)). Defined.

(** The witness run evicts B, the least recently written, on the second try
    for C, and reports the failed first try. *)
Example demo_run :
  LruCache.run (LruCache.mkConfig 2 2 (Some "cold"%string)) [] ([] : journal) demo_ops =
    ([("A"%string, [cd 1; cd 2]); ("C"%string, [cd 2; cd 3])], [("B"%string, [cd 1])],
     [Ok tt; Ok tt; Ok tt; Err (EvictionSpillFailed "B"%string 1 (SpillIo 28)); Ok tt; Ok tt; Ok tt]).
Proof. vm_compute. reflexivity. Qed.

(** C8. An append that fails because the eviction's spill failed loses
    nothing: every symbol, the victim included, still has exactly its
    candles and can be appended to (no entry is left flagged), the error
    names the least recently written symbol and how many candles it still
    holds, and the failure is counted. *)
Theorem store_spill_failure {disk faults : Type} `{!ColdStorage disk faults} fuel (f : faults) st a
    (d : disk) sym c st' d' k n e :
  refines st a -> tick st < u64_max ->
  try_append (S fuel) f st d sym c = Some (st', d', Err (EvictionSpillFailed k n e)) ->
  refines st' a /\ (forall s, hot st' s = hot st s) /\
  (exists cs rest dir, a = (k, cs) :: rest /\ hot st k = cs /\ n = length cs /\ data_dir st = Some dir /\
    spill f d dir k cs = (d', Err e)) /\
  parquet_spill_errors st' = fetch_add1 (parquet_spill_errors st) /\ version st' = version st.
Proof.
  intros Href Hnw Hp. destruct (sim_try_append fuel f st a d sym c Href Hnw)
    as (st1 & a1 & d1 & r & Hp1 & Hab & Href1 & _ & _ & [T1 T2 T3 T4 T5]).
  rewrite Hp in Hp1. injection Hp1 as <- <- <-.
  apply LruCache.append_spill_failed in Hab as [-> (cs & rest & dir & -> & -> & Hdir & Hsp)].
  assert (Hk : hot st k = cs) by (rewrite (refines_hot st _ k Href); simpl; by rewrite decide_True).
  split_and!; try done; [|by eauto 10].
  intros s. by rewrite (refines_hot _ _ s Href), (refines_hot _ _ s Href1).
Qed.

Definition full_store : t :=
  match try_append_all 1 (open_store 1 2 (Some "cold"%string)) ([] : journal) [(false, "A"%string, cd 7)] with
  | Some (st, _, _) => st
  | None => open_store 1 2 None
  end.

Lemma full_store_refines : refines full_store [("A"%string, [cd 7])].
Proof.
  destruct (sim_try_append_all 0 [(false, "A"%string, cd 7)] (open_store 1 2 (Some "cold"%string)) [] ([] : journal))
    as (st & a & d' & rs & Hp & Hab & Href & _ & _); [by apply refines_open; lia|by vm_compute|].
  vm_compute in Hab. injection Hab as <- <- <-. unfold full_store. by rewrite Hp.
Qed.

Lemma store_spill_failure_witness :
  exists st', try_append 1 true full_store ([] : journal) "B" (cd 9) =
      Some (st', [], Err (EvictionSpillFailed "A"%string 1 (SpillIo 28))) /\
    forall s, hot st' s = hot full_store s.
Proof.
  destruct (try_append 1 true full_store ([] : journal) "B" (cd 9)) as [[[st' d'] r]|] eqn:E; [|by vm_compute in E].
  assert (Hr : d' = [] /\ r = Err (EvictionSpillFailed "A"%string 1 (SpillIo 28)))
    by (vm_compute in E; by injection E as _ <- <-).
  destruct Hr as [-> ->]. exists st'. split; [done|].
  apply (store_spill_failure 0 true full_store _ _ _ _ _ _ _ _ _ full_store_refines ltac:(by vm_compute) E).
Defined.

(** C12. After any interleaving of [append]s and [signal_waiters] on a fresh
    store the lifetime counters of [snapshot] are exact: [appends_total] is
    the number of accepted appends however many signals also bumped
    [version], invalid candles, spill errors and rejected appends are
    counted once each, and the number of symbols never exceeds the
    limit. *)
Theorem store_snapshot_counts {disk faults : Type} `{!ColdStorage disk faults} fuel max_symbols cap dir
    (d : disk) (cls : list (@call faults)) :
  (0 < cap)%nat -> Z.of_nat (length cls) <= u64_max ->
  exists st d' a rs,
    run_calls (S fuel) (open_store max_symbols cap dir) d cls = Some (st, d') /\
    LruCache.run (LruCache.mkConfig max_symbols cap dir) [] d (appends_of cls) = (a, d', rs) /\
    s_appends_total (snapshot st) = count is_ok rs /\
    s_invalid_candles_total (snapshot st) = count is_invalid rs /\
    s_parquet_spill_errors_total (snapshot st) = count is_spill_failure rs /\
    s_appends_rejected_total (snapshot st) = count is_spill_failure rs /\
    Z.of_nat (s_symbol_count (snapshot st)) <= Z.max 1 (s_max_symbols (snapshot st)).
Proof.
  intros Hc Hn. pose proof (refines_open max_symbols cap dir Hc) as Href0.
  destruct (sim_run_calls fuel cls _ _ d Href0) as (st & d' & a & rs & Hp & Hab & Href & Fv & Fs & Fi & Fe & Fr);
    try (destruct dir; simpl; lia).
  exists st, d', a, rs. pose proof (count_bound is_ok rs) as Hb.
  split_and!; [done|by destruct dir|..]; simpl; try (destruct dir; simpl in *; lia).
  - unfold u64_saturating_sub. destruct dir; simpl in *; lia.
  - by apply w_size, Href.
Qed.

Definition demo_calls : list (@call bool) :=
  [CallAppend false "A"%string (cd 1); CallSignal; CallAppend true "B"%string (cd 1);
   CallAppend false "A"%string (cd (-3)); CallSignal].

Lemma store_snapshot_counts_witness :
  exists st d' a rs,
    run_calls 1 (open_store 1 2 (Some "cold"%string)) ([] : journal) demo_calls = Some (st, d') /\
    LruCache.run (LruCache.mkConfig 1 2 (Some "cold"%string)) [] [] (appends_of demo_calls) = (a, d', rs) /\
    s_appends_total (snapshot st) = count is_ok rs /\
    s_invalid_candles_total (snapshot st) = count is_invalid rs /\
    s_parquet_spill_errors_total (snapshot st) = count is_spill_failure rs /\
    s_appends_rejected_total (snapshot st) = count is_spill_failure rs /\
    Z.of_nat (s_symbol_count (snapshot st)) <= Z.max 1 (s_max_symbols (snapshot st)).
Proof.
  exact (store_snapshot_counts 0 1 2 (Some "cold"%string) [] demo_calls ltac:(lia) ltac:(vm_compute; discriminate)).
Defined.

End StoreSpec.
