(* ===== verification/StoreCold.v ===== *)
(** * Hot and cold together

    What [CandleStore] guarantees with cold storage behind it, proved against
    the [ColdStorageLaws] interface alone and instantiated at the model of
    [src/src/parquet.rs]: no candle is lost by an eviction, failed spills
    included, and [range] merges both tiers in time order with the hot value
    winning. *)

From S2P Require Import Prelude Float64 Candle RingBuffer Cold Text Parquet Store StoreSpec.

#[local] Open Scope Z_scope.

Module StoreCold.
Import Store StoreSpec.

(** ** The cache after an append *)

Lemma lookup_app s (l1 l2 : LruCache.t) :
  LruCache.lookup s (l1 ++ l2) =
    match LruCache.lookup s l1 with Some cs => Some cs | None => LruCache.lookup s l2 end.
Proof. induction l1 as [|[k cs] l1 IH]; simpl; [done|]. by case_decide. Qed.

Lemma lookup_without s k l :
  LruCache.lookup s (LruCache.without k l) = if decide (s = k) then None else LruCache.lookup s l.
Proof.
  unfold LruCache.without. induction l as [|[k' cs] l IH]; [by case_decide|].
  destruct (decide (k' = k)) as [->|Hk].
  - rewrite filter_cons_False by (simpl; auto). rewrite IH. simpl. by repeat case_decide.
  - rewrite filter_cons_True by done. simpl. rewrite IH. repeat case_decide; congruence.
Qed.

(** Keys of a refined cache are distinct. *)
Lemma refines_head_fresh st k cs rest : refines st ((k, cs) :: rest) -> LruCache.lookup k rest = None.
Proof.
  intros [_ (l & Hb & E)]. destruct l as [|[k0 e] l]; [done|]. injection E as -> -> ->.
  assert (Hnd : NoDup ((k0, e) :: l).*1) by (rewrite (ba_perm st _ Hb); apply NoDup_fst_map_to_list).
  apply NoDup_cons in Hnd as [Hni _]. clear Hb. induction l as [|[k e'] l IH]; [done|]. simpl in *.
  case_decide; [subst; set_solver|]. apply IH. set_solver.
Qed.

Section laws.
Context {disk faults : Type} `{!ColdStorage disk faults} `{!ColdStorageLaws disk faults}.

(** A timestamp of [s] that a reader can still get at. *)
Definition visible (st : t) (d : disk) (dir : string) (s : string) (t : Z) : Prop :=
  (exists c, In c (hot st s) /\ ts c = t) \/ recoverable d dir s t.

(** Every hot candle has a machine timestamp. *)
Definition hot_i64 (a : LruCache.t) : Prop :=
  forall s cs, LruCache.lookup s a = Some cs -> Forall (fun c => is_i64 (ts c)) cs.

(** What an append does to one symbol of the cache. *)
Lemma cache_append_keeps st cfg dir (f : faults) a (d : disk) sym c a' d' r s x cs :
  refines st a -> hot_i64 a -> LruCache.data_dir cfg = Some dir ->
  LruCache.append cfg f a d sym c = (a', d', r) -> LruCache.lookup s a = Some cs -> In x cs ->
  (exists cs', LruCache.lookup s a' = Some cs' /\ In x cs') \/ recoverable d' dir s (ts x) \/
  (s = sym /\ r = Ok tt /\ (LruCache.ring_capacity cfg <= length cs)%nat).
Proof.
  intros Href Hi64 Hdir Hab Hs Hx. unfold LruCache.append in Hab.
  destruct (is_valid c); [|left; simplify_eq; eauto].
  destruct (LruCache.lookup sym a) as [cs0|] eqn:Esym.
  - simplify_eq. destruct (decide (s = sym)) as [->|Hne].
    + assert (cs0 = cs) as -> by congruence.
      destruct (decide (LruCache.ring_capacity cfg <= length cs)%nat) as [Hfull|Hfull]; [auto|].
      left. exists (cs ++ [c]). rewrite lookup_app, lookup_without, decide_True by done. simpl.
      rewrite decide_True by done. split; [|apply in_or_app; auto]. f_equal. apply lastn_all. rewrite length_app. simpl. lia.
    + left. exists cs. split; [|done]. by rewrite lookup_app, lookup_without, decide_False, Hs.
  - assert (Hsame : forall l, LruCache.lookup s l = Some cs -> exists cs', LruCache.lookup s (l ++ [(sym, [c])]) = Some cs' /\ In x cs').
    { intros l Hl. exists cs. by rewrite lookup_app, Hl. }
    unfold LruCache.make_room in Hab. rewrite Hdir in Hab.
    destruct (LruCache.max_symbols cfg <=? _); [|simplify_eq; auto].
    destruct a as [|[k0 cs0] rest]; [done|].
    destruct (spill f d dir k0 cs0) as [d0 [[]|e]] eqn:Esp; simplify_eq; [|eauto].
    simpl in Hs. case_decide as Hk; [|auto]. simplify_eq. right. left.
    eapply spill_recoverable; [done| |done]. apply (Hi64 s). simpl. by rewrite decide_True.
Qed.

Lemma cache_append_disk cfg dir (f : faults) a (d : disk) sym c a' d' r s t :
  LruCache.data_dir cfg = Some dir -> LruCache.append cfg f a d sym c = (a', d', r) ->
  recoverable d dir s t -> recoverable d' dir s t.
Proof.
  intros Hdir Hab Hr. unfold LruCache.append, LruCache.make_room in Hab. rewrite Hdir in Hab.
  destruct (is_valid c); [|by simplify_eq]. destruct (LruCache.lookup sym a); [by simplify_eq|].
  destruct (LruCache.max_symbols cfg <=? _); [|by simplify_eq]. destruct a as [|[k0 cs0] rest]; [by simplify_eq|].
  pose proof (spill_keeps f d dir k0 cs0 s t Hr) as Hk.
  destruct (spill f d dir k0 cs0) as [d0 [[]|e]] eqn:Esp; by simplify_eq.
Qed.

(** An accepted candle is hot. *)
Lemma cache_append_new cfg (f : faults) a (d : disk) sym c a' d' :
  (0 < LruCache.ring_capacity cfg)%nat -> LruCache.append cfg f a d sym c = (a', d', Ok tt) ->
  exists cs, LruCache.lookup sym a' = Some cs /\ In c cs.
Proof.
  intros Hcap Hab. unfold LruCache.append in Hab. destruct (is_valid c); [|done].
  destruct (LruCache.lookup sym a) as [cs|] eqn:Esym.
  - simplify_eq. exists (lastn (LruCache.ring_capacity cfg) (cs ++ [c])).
    rewrite lookup_app, lookup_without, decide_True by done. simpl. rewrite decide_True by done. split; [done|].
    assert (Hl : last (lastn (LruCache.ring_capacity cfg) (cs ++ [c])) = Some c) by (by rewrite last_lastn, last_snoc).
    apply last_Some in Hl as [l' ->]. apply in_or_app. simpl. auto.
  - assert (Hin : exists l, a' = l ++ [(sym, [c])] /\ LruCache.lookup sym l = None).
    { unfold LruCache.make_room in Hab. destruct (LruCache.max_symbols cfg <=? _); [|simplify_eq; eauto].
      destruct a as [|[k0 cs0] rest]; [simplify_eq; by exists []|]. simpl in Esym. case_decide; [done|].
      destruct (LruCache.data_dir cfg) as [dir|]; [|simplify_eq; eauto].
      destruct (spill f d dir k0 cs0) as [d0 [[]|e]]; simplify_eq; eauto. }
    destruct Hin as (l & -> & Hl). exists [c]. rewrite lookup_app, Hl. simpl. rewrite decide_True by done. simpl. auto.
Qed.

(** A property of every symbol's candles, step by step. *)
Definition all_values (Q : list Candle -> Prop) (a : LruCache.t) : Prop :=
  forall s cs, LruCache.lookup s a = Some cs -> Q cs.

Lemma cache_append_values (Q Q' : list Candle -> Prop) st cfg (f : faults) a (d : disk) sym c a' d' r :
  refines st a -> all_values Q a -> LruCache.append cfg f a d sym c = (a', d', r) ->
  (forall cs, Q cs -> Q' cs) -> Q' [c] ->
  (forall cs, Q cs -> Q' (lastn (LruCache.ring_capacity cfg) (cs ++ [c]))) -> all_values Q' a'.
Proof.
  intros Href Ha Hab Himp Hc Happ. assert (Hweak : all_values Q' a) by (intros s cs Hs; eauto).
  assert (Hsnoc : forall l, all_values Q' l -> all_values Q' (l ++ [(sym, [c])])).
  { intros l Hl s cs. rewrite lookup_app. destruct (LruCache.lookup s l) eqn:E; [intros ?; simplify_eq; by eapply Hl|].
    simpl. case_decide; [|done]. by intros [= <-]. }
  assert (Htail : forall k cs0 rest, a = (k, cs0) :: rest -> all_values Q' rest).
  { intros k cs0 rest -> s cs Hs. apply (Hweak s). simpl. case_decide; [|done]. subst.
    by rewrite (refines_head_fresh _ _ _ _ Href) in Hs. }
  unfold LruCache.append, LruCache.make_room in Hab. destruct (is_valid c); [|by simplify_eq].
  destruct (LruCache.lookup sym a) as [cs0|] eqn:Esym.
  - simplify_eq. intros s cs. rewrite lookup_app, lookup_without. case_decide; simpl.
    + subst. rewrite decide_True by done. intros [= <-]. by eapply Happ, Ha.
    + rewrite decide_False by congruence. destruct (LruCache.lookup s a) eqn:E; [|done]. intros [= <-]. by eapply Hweak.
  - destruct (LruCache.max_symbols cfg <=? _); [|simplify_eq; by apply Hsnoc].
    destruct a as [|[k0 cs0] rest]; [simplify_eq; by apply (Hsnoc [])|]. specialize (Htail _ _ _ eq_refl).
    destruct (LruCache.data_dir cfg) as [dir|]; [|simplify_eq; by apply Hsnoc].
    destruct (spill f d dir k0 cs0) as [d0 [[]|e]]; simplify_eq; [by apply Hsnoc|done].
Qed.

(** At most [n] candles, all with machine timestamps. *)
Definition small (n : nat) (cs : list Candle) : Prop :=
  (length cs <= n)%nat /\ Forall (fun c => is_i64 (ts c)) cs.

Lemma cache_append_small n st cfg (f : faults) a (d : disk) sym c a' d' r :
  refines st a -> all_values (small n) a -> is_i64 (ts c) -> LruCache.append cfg f a d sym c = (a', d', r) ->
  all_values (small (S n)) a'.
Proof.
  intros Href Ha Hc Hab. eapply cache_append_values; [done|exact Ha|done|..]; unfold small.
  - intros cs [H1 H2]. split; [lia|done].
  - simpl. split; [lia|by apply Forall_singleton].
  - intros cs [H1 H2]. rewrite length_lastn, length_app. simpl. split; [lia|]. unfold lastn.
    apply Forall_drop, Forall_app. by rewrite Forall_singleton.
Qed.

Lemma append_keeps_visible fuel (f : faults) st a (d : disk) dir sym c st' d' r :
  refines st a -> tick st < u64_max -> hot_i64 a -> data_dir st = Some dir ->
  try_append (S fuel) f st d sym c = Some (st', d', r) ->
  (forall s t, visible st d dir s t ->
     visible st' d' dir s t \/ (s = sym /\ r = Ok tt /\ (ring_capacity st <= candle_count st s)%nat)) /\
  (r = Ok tt -> In c (hot st' sym)).
Proof.
  intros Href Hnw Hi64 Hdir Hp. destruct (sim_try_append fuel f st a d sym c Href Hnw)
    as (st1 & a1 & d1 & r1 & Hp1 & Hab & Href1 & Hcfg & _ & _).
  rewrite Hp in Hp1. injection Hp1 as <- <- <-. split.
  - intros s t [(x & Hx & <-)|Hr]; [|left; right; exact (cache_append_disk (config_of st) dir f a d sym c a1 d' r s t Hdir Hab Hr)].
    rewrite (refines_hot st a s Href) in Hx. destruct (LruCache.lookup s a) as [cs|] eqn:Es; [|done].
    destruct (cache_append_keeps st (config_of st) dir f a d sym c a1 d' r s x cs Href Hi64 Hdir Hab Es Hx)
      as [(cs' & Hl & Hin)|[Hr|(-> & -> & Hfull)]].
    + left. left. exists x. by rewrite (refines_hot _ _ _ Href1), Hl.
    + left. by right.
    + right. split_and!; [done..|]. rewrite (refines_candle_count st a), (refines_hot st a), Es by done. done.
  - intros ->. apply cache_append_new in Hab as (cs & Hl & Hin); [|apply (w_cap st), Href].
    by rewrite (refines_hot _ _ _ Href1), Hl.
Qed.

Lemma run_keeps_visible cfg dir (ops : list (faults * string * Candle)) n fuel st a (d : disk) st' d' rs :
  refines st a -> config_of st = cfg -> LruCache.data_dir cfg = Some dir ->
  all_values (small n) a -> (n + length ops <= LruCache.ring_capacity cfg)%nat ->
  tick st + Z.of_nat (length ops) <= u64_max ->
  Forall (fun op => is_i64 (ts op.2)) ops ->
  try_append_all (S fuel) st d ops = Some (st', d', rs) ->
  (forall s t, visible st d dir s t -> visible st' d' dir s t) /\
  (forall i f sym c, ops !! i = Some (f, sym, c) -> rs !! i = Some (Ok tt) -> visible st' d' dir sym (ts c)).
Proof.
  revert n st a d st' d' rs. induction ops as [|[[f0 sym0] c0] ops IH];
    intros n st a d st' d' rs Href Hcfg Hdir Hsm Hcap Hnw Hi64 Hrun.
  { simpl in Hrun. simplify_eq. split; [done|]. intros i f sym c Hi. by rewrite lookup_nil in Hi. }
  apply Forall_cons in Hi64 as [Hc0 Hi64]. cbn [length] in *. subst cfg.
  destruct (sim_try_append fuel f0 st a d sym0 c0 Href ltac:(lia))
    as (st1 & a1 & d1 & r1 & Hp & Hab & Href1 & Hcfg1 & Htk1 & _).
  cbn [try_append_all] in Hrun. rewrite Hp in Hrun. cbn [mbind option_bind] in Hrun.
  destruct (try_append_all (S fuel) st1 d1 ops) as [[[st2 d2] rs2]|] eqn:Erun; [|done].
  injection Hrun as <- <- <-.
  destruct (IH (S n) st1 a1 d1 st2 d2 rs2 Href1 Hcfg1 Hdir) as [Hvis Hacc];
    [exact (cache_append_small n st _ f0 a d sym0 c0 a1 d1 r1 Href Hsm Hc0 Hab)|lia|lia|done|done|].
  assert (Hhi : hot_i64 a) by (intros s cs Hs; by destruct (Hsm s cs Hs)).
  destruct (append_keeps_visible fuel f0 st a d dir sym0 c0 st1 d1 r1 Href ltac:(lia) Hhi Hdir Hp) as [Hk Hn].
  split.
  - intros s t Hv. apply Hvis. destruct (Hk s t Hv) as [|(-> & _ & Hfull)]; [done|]. exfalso.
    rewrite (refines_candle_count st a), (refines_hot st a) in Hfull by done.
    destruct (LruCache.lookup sym0 a) as [cs|] eqn:E; simpl in *; [destruct (Hsm _ _ E)|]; lia.
  - intros [|i] f sym c Hi Hr; simpl in Hi, Hr; [|by eapply Hacc]. simplify_eq.
    apply Hvis. left. eauto.
Qed.

(** ** Claims *)

(** No eviction loses data: when [try_append] returns, with whatever
    result and whatever faults its spill met, every timestamp of every
    symbol that was readable (hot, or recoverable from cold storage) is still
    readable, except that a full ring drops its own oldest candle; and an
    accepted candle is hot. *)
Theorem store_append_no_loss fuel (f : faults) st a (d : disk) dir sym c st' d' r :
  refines st a -> tick st < u64_max -> hot_i64 a -> data_dir st = Some dir ->
  try_append (S fuel) f st d sym c = Some (st', d', r) ->
  (forall s t, visible st d dir s t ->
     visible st' d' dir s t \/ (s = sym /\ r = Ok tt /\ (ring_capacity st <= candle_count st s)%nat)) /\
  (r = Ok tt -> In c (hot st' sym)).
Proof. apply append_keeps_visible. Qed.

(** End to end: on a fresh store with cold storage, as long as no symbol
    could have received more candles than its ring holds, every candle that
    any append of the run accepted is readable at the end, in RAM or from
    disk, however many symbols were evicted and however many spills
    failed on the way. *)
Theorem store_run_no_loss fuel max_symbols cap dir (d : disk) (ops : list (faults * string * Candle)) st' d' rs :
  (0 < cap)%nat -> (length ops <= cap)%nat -> Z.of_nat (length ops) <= u64_max ->
  Forall (fun op => is_i64 (ts op.2)) ops ->
  try_append_all (S fuel) (open_store max_symbols cap (Some dir)) d ops = Some (st', d', rs) ->
  forall i f sym c, ops !! i = Some (f, sym, c) -> rs !! i = Some (Ok tt) -> visible st' d' dir sym (ts c).
Proof.
  intros Hc Hlen Hnw Hi64 Hrun. pose proof (refines_open max_symbols cap (Some dir) Hc) as Href.
  by apply (run_keeps_visible _ dir ops 0 fuel _ [] d st' d' rs Href eq_refl eq_refl).
Qed.

End laws.

(** ** Merging *)

Definition sorted_le (l : list Candle) : Prop := StronglySorted (fun a b => ts a <= ts b) l.
Definition sorted_lt (l : list Candle) : Prop := StronglySorted (fun a b => ts a < ts b) l.

(** Every element of the merge comes from an input, and from [a] only when no
    element of [b] has its timestamp; nothing of [b] is dropped. *)
Lemma merge_in a b x :
  sorted_lt a -> sorted_le b ->
  In x (merge_by_ts a b) <-> In x b \/ (In x a /\ forall h, In h b -> ts h <> ts x).
Proof.
  intros Ha. revert b. induction Ha as [|y a Hsa IHa Hy]; intros b Hb; [destruct b; simpl; tauto|].
  pose proof (proj1 (List.Forall_forall _ _) Hy) as Hya. simpl in Hya.
  induction Hb as [|z b Hsb IHb Hz]; [simpl; naive_solver|].
  pose proof (proj1 (List.Forall_forall _ _) Hz) as Hzb. simpl in Hzb.
  cbn [merge_by_ts]. destruct (Z.compare_spec (ts y) (ts z)) as [E|E|E].
  - simpl. rewrite IHa by done. split.
    + intros [<-|[Hx|[Hx Hn]]]; [auto|auto|]. right. split; [auto|].
      intros h [<-|Hh]; [specialize (Hya x Hx); lia|auto].
    + intros [[<-|Hx]|[[<-|Hx] Hn]]; [auto|auto| |].
      * exfalso. by apply (Hn z (or_introl eq_refl)).
      * right. right. split; [done|]. intros h Hh. apply Hn. auto.
  - cbn [In]. rewrite IHa by (by constructor). cbn [In]. split.
    + intros [<-|[Hx|[Hx Hn]]]; [|auto|auto]. right. split; [auto|].
      intros h [<-|Hh]; [lia|specialize (Hzb h Hh); lia].
    + intros [Hx|[[<-|Hx] Hn]]; auto.
  - change ((fix go (b0 : list Candle) : list Candle :=
        match b0 with
        | [] => y :: a
        | y0 :: b' =>
            match (ts y ?= ts y0) with
            | Eq => y0 :: merge_by_ts a b'
            | Lt => y :: merge_by_ts a b0
            | Gt => y0 :: go b'
            end
        end) b) with (merge_by_ts (y :: a) b).
    cbn [In]. rewrite IHb. cbn [In]. split.
    + intros [<-|[Hx|[Hx Hn]]]; [auto|auto|]. right. split; [done|].
      intros h [<-|Hh]; [|auto]. destruct Hx as [<-|Hx]; [lia|specialize (Hya x Hx); lia].
    + intros [[<-|Hx]|[Hx Hn]]; [auto|auto|]. right. right. split; auto.
Qed.

Lemma merge_gt y a z b :
  ts z < ts y -> merge_by_ts (y :: a) (z :: b) = z :: merge_by_ts (y :: a) b.
Proof. intros H. cbn [merge_by_ts]. apply Z.compare_gt_iff in H. by rewrite H. Qed.

Lemma merge_sorted a b : sorted_lt a -> sorted_le b -> sorted_le (merge_by_ts a b).
Proof.
  intros Ha. revert b. induction Ha as [|y a Hsa IHa Hy]; intros b Hb; [by destruct b|].
  pose proof (proj1 (List.Forall_forall _ _) Hy) as Hya. simpl in Hya.
  induction Hb as [|z b Hsb IHb Hz].
  { simpl. constructor; [|eapply Forall_impl; [exact Hy|]; simpl; lia].
    clear -Hsa. induction Hsa as [|w l Hs IH Hw]; constructor; [done|]. eapply Forall_impl; [exact Hw|]. simpl. lia. }
  pose proof (proj1 (List.Forall_forall _ _) Hz) as Hzb. simpl in Hzb.
  destruct (Z.compare_spec (ts y) (ts z)) as [E|E|E].
  - cbn [merge_by_ts]. rewrite E, Z.compare_refl. constructor; [by apply IHa|].
    apply List.Forall_forall. intros x Hx. apply merge_in in Hx as [Hx|[Hx _]]; [auto| |done..].
    specialize (Hya x Hx). lia.
  - cbn [merge_by_ts]. rewrite (proj2 (Z.compare_lt_iff _ _) E). constructor; [by apply IHa; constructor|].
    apply List.Forall_forall. intros x Hx. apply merge_in in Hx as [[<-|Hx]|[Hx _]]; [lia| | |done|by constructor].
    + specialize (Hzb x Hx). lia.
    + specialize (Hya x Hx). lia.
  - rewrite merge_gt by done. constructor; [done|].
    apply List.Forall_forall. intros x Hx. apply merge_in in Hx as [Hx|[[<-|Hx] _]]; [auto|lia| |by constructor|done].
    specialize (Hya x Hx). lia.
Qed.

Lemma ts_sorted_strongly l : ts_sorted l -> sorted_le l.
Proof.
  induction l as [|x l IH]; intros H; constructor.
  - apply IH. intros i j a b Hij Ha Hb. apply (H (S i) (S j)); [lia|done..].
  - apply Forall_lookup. intros i y Hy. apply (H 0%nat (S i)); [lia|done..].
Qed.

Section range.
Context {disk faults : Type} `{!ColdStorage disk faults} `{!ColdStorageLaws disk faults}.

(** The hot half of [range] on a ring in time order. *)
Lemma hot_range st a sym from_ts to_ts :
  refines st a -> ts_sorted (hot st sym) ->
  match map st !! sym with Some entry => RingBuffer.range (e_buf entry) from_ts to_ts | None => Some [] end =
    Some (filter (in_window from_ts to_ts) (hot st sym)).
Proof.
  intros Href Hs. unfold hot in *. destruct (map st !! sym) as [e|] eqn:He; [|done].
  apply RingBuffer.range_sorted; [|done]. by destruct (lookup_wf _ _ _ _ Href He).
Qed.

(** Without a data directory it is all of it. *)
Lemma refines_range st a (d : disk) sym from_ts to_ts :
  refines st a -> data_dir st = None -> ts_sorted (hot st sym) ->
  range st d sym from_ts to_ts = Some (filter (in_window from_ts to_ts) (hot st sym)).
Proof. intros Href Hdir Hs. unfold range. rewrite (hot_range st a) by done. cbn [mbind option_bind]. by rewrite Hdir. Qed.

(** C11. When the symbol's hot candles are in time order, [range] returns
    (without a panic), in time order, every hot candle of the window plus
    exactly the cold candles of the window whose timestamp no hot candle
    carries: on a collision the hot value wins and nothing is returned
    twice from both tiers. *)
Theorem store_range_merges st a (d : disk) dir sym from_ts to_ts :
  refines st a -> data_dir st = Some dir -> ts_sorted (hot st sym) ->
  exists out, range st d sym from_ts to_ts = Some out /\ sorted_le out /\
    forall x, In x out <->
      (In x (hot st sym) /\ from_ts <= ts x <= to_ts) \/
      (In x (query_cold d dir sym from_ts to_ts) /\
       forall h, In h (hot st sym) -> from_ts <= ts h <= to_ts -> ts h <> ts x).
Proof.
  intros Href Hdir Hs. set (win := filter (in_window from_ts to_ts) (hot st sym)).
  set (cold := query_cold d dir sym from_ts to_ts).
  pose proof (hot_range st a sym from_ts to_ts Href Hs) as Hhot. fold win in Hhot.
  assert (Hwin : forall x, In x win <-> In x (hot st sym) /\ from_ts <= ts x <= to_ts).
  { intros x. unfold win. rewrite <- !list_elem_of_In, list_elem_of_filter. unfold in_window. tauto. }
  assert (Hws : sorted_le win) by (apply sorted_filter, ts_sorted_strongly, Hs).
  pose proof (query_sorted d dir sym from_ts to_ts) as Hcs. fold cold in Hcs.
  assert (Hrange : range st d sym from_ts to_ts = Some (merge_by_ts cold win)).
  { unfold range. rewrite Hhot. cbn [mbind option_bind]. rewrite Hdir. fold cold.
    by destruct cold as [|c cold'], win as [|h win']. }
  exists (merge_by_ts cold win). split_and!; [done|by apply merge_sorted|].
  intros x. rewrite merge_in by done. rewrite Hwin. split; (intros [H|[H1 H2]]; [auto|]); right; (split; [done|]).
  - intros h Hh Hr. apply H2, Hwin. auto.
  - intros h [Hh Hr]%Hwin. auto.
Qed.

End range.

(** ** Examples over the model of [parquet.rs] *)

#[local] Existing Instance Parquet.plain_codec.
#[local] Existing Instance Parquet.plain_codec_laws.
#[local] Existing Instance Parquet.parquet_cold.
#[local] Existing Instance Parquet.parquet_laws.

Abbreviation parquet_disk := (gmap string (gmap string Parquet.plain_bytes)).

Definition evict_ops : list (@Parquet.faults Parquet.plain_bytes * string * Candle) :=
  [(Parquet.NoFault, "A/B", cd 1); (Parquet.CreateFails 13, "C", cd 5); (Parquet.NoFault, "A/B", cd 2);
   (Parquet.NoFault, "C", cd 6)]%string.

Lemma store_run_no_loss_witness :
  exists st' d' rs,
    try_append_all 1 (open_store 1 4 (Some "data"%string)) (∅ : parquet_disk) evict_ops = Some (st', d', rs) /\
    is_ok <$> rs = [true; false; true; true] /\
    visible st' d' "data" "A/B" 1 /\ visible st' d' "data" "A/B" 2 /\ visible st' d' "data" "C" 6.
Proof.
  assert (Hr : snd <$> try_append_all 1 (open_store 1 4 (Some "data"%string)) (∅ : parquet_disk) evict_ops =
    Some [Ok tt; Err (EvictionSpillFailed "A/B" 1 (SpillIo 13)); Ok tt; Ok tt]) by (vm_compute; reflexivity).
  destruct (try_append_all 1 (open_store 1 4 (Some "data"%string)) (∅ : parquet_disk) evict_ops)
    as [[[st' d'] rs]|] eqn:E; [|discriminate Hr]. injection Hr as Hrs.
  exists st', d', rs. split; [done|]. split; [by rewrite Hrs|]. 
  pose proof (store_run_no_loss 0 1 4 "data" ∅ evict_ops st' d' rs ltac:(lia) ltac:(simpl; lia)
    ltac:(vm_compute; discriminate) ltac:(repeat constructor; vm_compute; discriminate) E) as H.
  split_and!; [apply (H 0%nat Parquet.NoFault "A/B"%string (cd 1))|apply (H 2%nat Parquet.NoFault "A/B"%string (cd 2))
    |apply (H 3%nat Parquet.NoFault "C"%string (cd 6))]; by rewrite ?Hrs.
Defined.

(** A store of one symbol, whose ring holds two candles. *)
Definition one_hot : t :=
  match try_append_all 1 (open_store 1 4 (Some "data"%string)) (∅ : parquet_disk)
          [(Parquet.NoFault, "A"%string, cd 1); (Parquet.NoFault, "A"%string, cd 3)] with
  | Some (st, _, _) => st
  | None => open_store 1 4 None
  end.

Lemma one_hot_refines : refines one_hot [("A"%string, [cd 1; cd 3])].
Proof.
  destruct (sim_try_append_all 0 [(Parquet.NoFault, "A"%string, cd 1); (Parquet.NoFault, "A"%string, cd 3)]
      (open_store 1 4 (Some "data"%string)) [] (∅ : parquet_disk))
    as (st & a & d' & rs & Hp & Hab & Href & _ & _); [by apply refines_open; lia|by vm_compute|].
  unfold one_hot. rewrite Hp. vm_compute in Hab. by injection Hab as <- _ _.
Qed.

Lemma store_append_no_loss_witness :
  exists st' d' r, try_append 1 Parquet.NoFault one_hot (∅ : parquet_disk) "B" (cd 9) = Some (st', d', r) /\
    (visible st' d' "data" "A" 3 \/ ("A"%string = "B"%string /\ r = Ok tt /\ (4 <= candle_count one_hot "A")%nat)) /\
    (r = Ok tt -> In (cd 9) (hot st' "B")).
Proof.
  destruct (try_append 1 Parquet.NoFault one_hot (∅ : parquet_disk) "B" (cd 9)) as [[[st' d'] r]|] eqn:E.
  - exists st', d', r. split; [done|].
    destruct (store_append_no_loss 0 Parquet.NoFault one_hot [("A"%string, [cd 1; cd 3])] (∅ : parquet_disk) "data" "B" (cd 9)
      st' d' r one_hot_refines) as [H1 H2].
    + by vm_compute.
    + intros s cs. simpl. case_decide; [|done]. intros [= <-]. repeat constructor; vm_compute; discriminate.
    + reflexivity.
    + done.
    + split; [|done]. apply H1. left. exists (cd 3). split; [|done].
      rewrite (refines_hot _ _ _ one_hot_refines). simpl. auto.
  - exfalso. assert (Hn : (fun _ => tt) <$> try_append 1 Parquet.NoFault one_hot (∅ : parquet_disk) "B" (cd 9) = Some tt)
      by (vm_compute; reflexivity). by rewrite E in Hn.
Defined.

(** One cold file of "A" collides with the hot candle at time 3. *)
Definition stale_disk : parquet_disk :=
  (Parquet.spill Parquet.NoFault ∅ "data" "A" [mkCandle 2 f_zero f_zero f_zero f_zero f_zero;
                                              mkCandle 3 f_zero f_zero f_zero f_zero f_zero]).1.

Lemma store_range_merges_witness :
  exists out, range one_hot stale_disk "A" 0 10 = Some out /\ sorted_le out /\ In (cd 3) out.
Proof.
  assert (Hh : hot one_hot "A" = [cd 1; cd 3]) by (rewrite (refines_hot _ _ _ one_hot_refines); reflexivity).
  destruct (store_range_merges one_hot _ stale_disk "data" "A" 0 10 one_hot_refines eq_refl) as (out & H1 & H2 & H3).
  - rewrite Hh. change (ts_sorted ([cd 1] ++ [cd 3])). apply ts_sorted_snoc; [apply (ts_sorted_snoc []); [apply ts_sorted_nil|done]|].
    intros p [= <-]. simpl. lia.
  - exists out. split_and!; [exact H1|exact H2|]. apply H3. left. rewrite Hh. split; [simpl; auto|]. simpl. lia.
Defined.

Example stale_merge :
  range one_hot stale_disk "A" 0 10 = Some [cd 1; mkCandle 2 f_zero f_zero f_zero f_zero f_zero; cd 3].
Proof. vm_compute. reflexivity. Qed.

End StoreCold.
