(* ===== verification/StoreConc.v ===== *)
(** * The store under concurrency ([src/src/store.rs])

    [Store.v] runs one call after another.  This file runs any number of
    threads on one store, interleaved at every access to shared state: the
    outer [RwLock] of the symbol table, the [RwLock] of each entry's ring,
    the [removed] and [last_access] atomics, the counters and the disk.  An
    [Arc<Entry>] is an index into [cells]; a thread that cloned one keeps
    using the cell after the table has dropped it, which is the race the
    [removed] flag is there for.

    The calls are [try_append] (with [push_and_publish] and
    [try_insert_new]), [range], [signal_waiters] and the append count of
    [snapshot].  A critical section whose accesses are all protected by the
    lock it holds is one step; a step that finds its lock taken changes
    nothing.  The eviction scan reads [last_access] of every entry while
    other threads store to it, so it may return any entry of the table:
    [Step] carries the choice, as it carries the disk faults a spill meets.

    Fields and arguments marked "ghost" record history for the statements and
    are never read by the code: the symbol of a cell, the candles stored, the
    appends published, the replies given, and what a reader must see. *)

From S2P Require Import Prelude Float64 Candle RingBuffer Cold Text Parquet Store StoreSpec StoreCold.

#[local] Open Scope Z_scope.

Module StoreConc.

(** ** State *)

(** One heap-allocated [Entry]. *)
Record Cell : Type := mkCell {
  symbol_of : string;                (* ghost *)
  ring : RingBuffer.t;
  last_access : Z;
  removed : bool;
  lock : option nat                  (* the thread that write-locks [buf] *)
}.

Definition set_access (c : Cell) (tk : Z) : Cell := mkCell (symbol_of c) (ring c) tk (removed c) (lock c).
Definition set_lock (c : Cell) (l : option nat) : Cell := mkCell (symbol_of c) (ring c) (last_access c) (removed c) l.
Definition set_removed (c : Cell) (b : bool) : Cell := mkCell (symbol_of c) (ring c) (last_access c) b (lock c).
Definition set_ring (c : Cell) (rb : RingBuffer.t) : Cell := mkCell (symbol_of c) rb (last_access c) (removed c) (lock c).

(** The atomic counters. *)
Record counters : Type := mkCounters {
  version : Z; tick : Z; signals : Z; evictions : Z;
  spill_bytes : Z; spill_errors : Z; invalid_candles : Z; out_of_order : Z
}.

Definition bump_version (k : counters) : counters :=
  mkCounters (fetch_add1 (version k)) (tick k) (signals k) (evictions k) (spill_bytes k) (spill_errors k) (invalid_candles k) (out_of_order k).
Definition bump_tick (k : counters) : counters :=
  mkCounters (version k) (fetch_add1 (tick k)) (signals k) (evictions k) (spill_bytes k) (spill_errors k) (invalid_candles k) (out_of_order k).
Definition bump_signals (k : counters) : counters :=
  mkCounters (version k) (tick k) (fetch_add1 (signals k)) (evictions k) (spill_bytes k) (spill_errors k) (invalid_candles k) (out_of_order k).
Definition bump_evictions (k : counters) : counters :=
  mkCounters (version k) (tick k) (signals k) (fetch_add1 (evictions k)) (spill_bytes k) (spill_errors k) (invalid_candles k) (out_of_order k).
Definition add_bytes (n : Z) (k : counters) : counters :=
  mkCounters (version k) (tick k) (signals k) (evictions k) (u64_wrapping_add (spill_bytes k) n) (spill_errors k) (invalid_candles k) (out_of_order k).
Definition bump_errors (k : counters) : counters :=
  mkCounters (version k) (tick k) (signals k) (evictions k) (spill_bytes k) (fetch_add1 (spill_errors k)) (invalid_candles k) (out_of_order k).
Definition bump_invalid (k : counters) : counters :=
  mkCounters (version k) (tick k) (signals k) (evictions k) (spill_bytes k) (spill_errors k) (fetch_add1 (invalid_candles k)) (out_of_order k).
Definition bump_out_of_order (k : counters) : counters :=
  mkCounters (version k) (tick k) (signals k) (evictions k) (spill_bytes k) (spill_errors k) (invalid_candles k) (fetch_add1 (out_of_order k)).

(** An append in progress: symbol, candle and the clock value it drew. *)
Record job : Type := mkJob { j_sym : string; j_candle : Candle; j_tick : Z }.

(** A range query in progress. *)
Record query : Type := mkQuery { q_sym : string; q_from : Z; q_to : Z }.

(** What calls returned (ghost); a range reply also carries the candles
    stored when it looked the symbol up and whether the ring it read was in
    time order; a snapshot reply the appends published when it began. *)
Inductive reply : Type :=
| RAppend (sym : string) (c : Candle) (r : result unit Store.AppendError)
| RRange (q : query) (out : list Candle) (must : list (string * Candle)) (sorted : bool)
| RSignal
| RSnapshot (appends_total : Z) (published_before : nat).

(** Program points: where a thread is inside a call. *)
Inductive pc : Type :=
| Idle
(* try_append *)
| Lookup (j : job)
| Touch (id : nat) (j : job)
(* push_and_publish *)
| WantBuf (id : nat) (j : job)
| HoldBuf (id : nat) (j : job)
| Checked (id : nat) (j : job)
| Publish (j : job)
(* try_insert_new *)
| WantOuter (j : job)
| HoldOuter (j : job)
| Flagging (key : string) (id : nat) (j : job)
| Spilling (key : string) (id : nat) (cs : list Candle) (j : job)
| Clearing (key : string) (id : nat) (n : nat) (e : SpillError) (j : job)
| Failing (key : string) (n : nat) (e : SpillError) (j : job)
| Removing (key : string) (id : nat) (j : job)
| Inserting (j : job)
(* range *)
| RLookup (q : query)
| RHot (id : nat) (q : query) (must : list (string * Candle))
| RCold (hot : list Candle) (q : query) (must : list (string * Candle)) (sorted : bool)
(* signal_waiters, snapshot *)
| Signalling
| Counting (v : Z) (published_before : nat).

Inductive op : Type :=
| TryAppend (sym : string) (c : Candle)
| Range (sym : string) (from_ts to_ts : Z)
| SignalWaiters
| Snapshot.

(** Whether a list of candles is in time order (ghost). *)
Fixpoint in_order (l : list Candle) : bool :=
  match l with
  | [] => true
  | a :: l' => match l' with [] => true | b :: _ => (ts a <=? ts b) && in_order l' end
  end.

Section cold.
Context {disk faults : Type} `{!ColdStorage disk faults}.

(** What the threads share. *)
Record shared : Type := mkShared {
  table : gmap string nat;           (* the [HashMap], from symbol to cell *)
  cells : list Cell;                 (* the entries ever allocated *)
  outer : option nat;                (* the thread that write-locks the table *)
  files : disk;
  counts : counters;
  stored : list (string * Candle);   (* ghost: candles pushed, in order *)
  published : nat;                   (* ghost: appends that bumped [version] *)
  replies : list reply               (* ghost *)
}.

Definition with_table (s : shared) (m : gmap string nat) : shared :=
  mkShared m (cells s) (outer s) (files s) (counts s) (stored s) (published s) (replies s).
Definition with_cells (s : shared) (l : list Cell) : shared :=
  mkShared (table s) l (outer s) (files s) (counts s) (stored s) (published s) (replies s).
Definition with_outer (s : shared) (o : option nat) : shared :=
  mkShared (table s) (cells s) o (files s) (counts s) (stored s) (published s) (replies s).
Definition with_files (s : shared) (d : disk) : shared :=
  mkShared (table s) (cells s) (outer s) d (counts s) (stored s) (published s) (replies s).
Definition count (s : shared) (f : counters -> counters) : shared :=
  mkShared (table s) (cells s) (outer s) (files s) (f (counts s)) (stored s) (published s) (replies s).
Definition store_candle (s : shared) (sym : string) (c : Candle) : shared :=
  mkShared (table s) (cells s) (outer s) (files s) (counts s) (stored s ++ [(sym, c)]) (published s) (replies s).
Definition publish (s : shared) : shared :=
  mkShared (table s) (cells s) (outer s) (files s) (bump_version (counts s)) (stored s) (S (published s)) (replies s).
Definition answer (s : shared) (r : reply) : shared :=
  mkShared (table s) (cells s) (outer s) (files s) (counts s) (stored s) (published s) (replies s ++ [r]).

Definition set_cell (s : shared) (id : nat) (c : Cell) : shared := with_cells s (<[id := c]> (cells s)).

Context (cfg : LruCache.config).

(** ** Steps *)

(** The first step of a call. *)
Definition start (s : shared) (o : op) : shared * pc :=
  match o with
  | TryAppend sym c =>
      if negb (is_valid c) then (answer (count s bump_invalid) (RAppend sym c (Err (Store.InvalidCandle sym))), Idle)
      else (count s bump_tick, Lookup (mkJob sym c (tick (counts s))))
  | Range sym from_ts to_ts => (s, RLookup (mkQuery sym from_ts to_ts))
  | SignalWaiters => (count s bump_signals, Signalling)
  | Snapshot => (s, Counting (version (counts s)) (published s))
  end.

(** The next step of thread [t]; [victim] is the eviction scan's choice and
    [f] what a spill meets. *)
Definition step (t : nat) (f : faults) (victim : string) (s : shared) (p : pc) : panics (shared * pc) :=
  match p with
  | Idle => Some (s, Idle)
  (* let entry = { let g = self.map.read(); g.get(symbol).cloned() } *)
  | Lookup j =>
      match outer s with
      | Some _ => Some (s, p)
      | None => Some (s, match table s !! j_sym j with Some id => Touch id j | None => WantOuter j end)
      end
  (* entry.last_access.store(tick) *)
  | Touch id j =>
      cell ← cells s !! id;
      Some (set_cell s id (set_access cell (j_tick j)), WantBuf id j)
  (* let mut buf_guard = entry.buf.write() *)
  | WantBuf id j =>
      cell ← cells s !! id;
      match lock cell with
      | Some _ => Some (s, p)
      | None => Some (set_cell s id (set_lock cell (Some t)), HoldBuf id j)
      end
  (* if entry.removed.load() { return false } *)
  | HoldBuf id j =>
      cell ← cells s !! id;
      if removed cell then Some (set_cell s id (set_lock cell None), WantOuter j)
      else Some (s, Checked id j)
  (* buf_guard.push(candle); out_of_order; drop(buf_guard) *)
  | Checked id j =>
      cell ← cells s !! id;
      '(rb, o) ← RingBuffer.push (ring cell) (j_candle j);
      let s1 := set_cell s id (set_lock (set_ring cell rb) None) in
      let s2 := match o with RingBuffer.OutOfOrder _ _ => count s1 bump_out_of_order | RingBuffer.PushOk => s1 end in
      Some (store_candle s2 (j_sym j) (j_candle j), Publish j)
  (* self.version.fetch_add(1); Ok(()) *)
  | Publish j => Some (answer (publish s) (RAppend (j_sym j) (j_candle j) (Ok tt)), Idle)
  (* let mut g = self.map.write() *)
  | WantOuter j =>
      match outer s with
      | Some _ => Some (s, p)
      | None => Some (with_outer s (Some t), HoldOuter j)
      end
  (* the race check, the capacity check and the eviction scan *)
  | HoldOuter j =>
      match table s !! j_sym j with
      | Some id => Some (with_outer s None, Touch id j)
      | None =>
          if LruCache.max_symbols cfg <=? Z.of_nat (size (table s)) then
            if decide (table s = ∅) then Some (s, Inserting j)
            else
              match table s !! victim with
              | Some id => Some (s, Flagging victim id j)
              | None => Some (s, p)
              end
          else Some (s, Inserting j)
      end
  (* let buf_guard = e.buf.write(); e.removed.store(true); buf_guard.to_vec() *)
  | Flagging key id j =>
      cell ← cells s !! id;
      match lock cell with
      | Some _ => Some (s, p)
      | None =>
          cs ← RingBuffer.to_vec (ring cell);
          Some (set_cell s id (set_removed cell true), Spilling key id cs j)
      end
  (* parquet::spill(dir, &key, &candles_to_spill) *)
  | Spilling key id cs j =>
      match cs, LruCache.data_dir cfg with
      | [], _ | _ :: _, None => Some (s, Removing key id j)
      | _ :: _, Some dir =>
          match spill f (files s) dir key cs with
          | (d', Ok _) =>
              Some (count (with_files s d') (add_bytes (u64_wrap (Z.of_nat (length cs) * candle_size))), Removing key id j)
          | (d', Err e) => Some (with_files s d', Clearing key id (length cs) e j)
          end
      end
  (* if let Some(arc) = g.get(&key) { arc.removed.store(false) } *)
  | Clearing key id n e j =>
      match table s !! key with
      | Some i => cell ← cells s !! i; Some (set_cell s i (set_removed cell false), Failing key n e j)
      | None => Some (s, Failing key n e j)
      end
  (* self.parquet_spill_errors.fetch_add(1); return Err(..) *)
  | Failing key n e j =>
      Some (answer (with_outer (count s bump_errors) None) (RAppend (j_sym j) (j_candle j) (Err (Store.EvictionSpillFailed key n e))), Idle)
  (* self.evictions.fetch_add(1); g.remove(&key) *)
  | Removing key id j => Some (with_table (count s bump_evictions) (delete key (table s)), Inserting j)
  (* g.insert(symbol, Arc::new(Entry { .. })); drop(g) *)
  | Inserting j =>
      '(rb, _) ← RingBuffer.push (RingBuffer.new (LruCache.ring_capacity cfg)) (j_candle j);
      let s1 := with_cells s (cells s ++ [mkCell (j_sym j) rb (j_tick j) false None]) in
      let s2 := with_outer (with_table s1 (<[j_sym j := length (cells s)]> (table s))) None in
      Some (store_candle s2 (j_sym j) (j_candle j), Publish j)
  (* let entry = { let g = self.map.read(); g.get(symbol).cloned() } *)
  | RLookup q =>
      match outer s with
      | Some _ => Some (s, p)
      | None =>
          Some (s, match table s !! q_sym q with
                   | Some id => RHot id q (stored s)
                   | None => RCold [] q (stored s) true
                   end)
      end
  (* entry.buf.read().range(from_ts, to_ts) *)
  | RHot id q must =>
      cell ← cells s !! id;
      match lock cell with
      | Some _ => Some (s, p)
      | None =>
          hot ← RingBuffer.range (ring cell) (q_from q) (q_to q);
          Some (s, RCold hot q must (in_order (RingBuffer.contents (ring cell))))
      end
  (* query_cold and the merge *)
  | RCold hot q must sorted =>
      let out :=
        match LruCache.data_dir cfg with
        | None => hot
        | Some dir =>
            let cold := query_cold (files s) dir (q_sym q) (q_from q) (q_to q) in
            match cold, hot with
            | [], _ => hot
            | _, [] => cold
            | _, _ => Store.merge_by_ts cold hot
            end
        end in
      Some (answer s (RRange q out must sorted), Idle)
  (* self.version.fetch_add(1) *)
  | Signalling => Some (answer (count s bump_version) RSignal, Idle)
  (* version.saturating_sub(self.signals.load()) *)
  | Counting v before => Some (answer s (RSnapshot (u64_saturating_sub v (signals (counts s))) before), Idle)
  end.

(** ** Schedules *)

Record conf : Type := mkConf { sh : shared; pcs : gmap nat pc }.

Definition pc_of (c : conf) (t : nat) : pc := default Idle (pcs c !! t).

Inductive event : Type :=
| Start (t : nat) (o : op)                        (* an idle thread calls *)
| Step (t : nat) (f : faults) (victim : string).  (* a thread takes its next step *)

Definition fire (c : conf) (e : event) : panics conf :=
  match e with
  | Start t o =>
      match pc_of c t with
      | Idle => let '(s, p) := start (sh c) o in Some (mkConf s (<[t := p]> (pcs c)))
      | _ => Some c
      end
  | Step t f victim =>
      '(s, p) ← step t f victim (sh c) (pc_of c t);
      Some (mkConf s (<[t := p]> (pcs c)))
  end.

Fixpoint run (c : conf) (es : list event) : panics conf :=
  match es with
  | [] => Some c
  | e :: es' => c1 ← fire c e; run c1 es'
  end.

(** A fresh store. *)
Definition init (d : disk) : conf :=
  mkConf (mkShared ∅ [] None d (mkCounters 0 0 0 0 0 0 0 0) [] 0 []) ∅.

End cold.

End StoreConc.
