(* ===== verification/StoreConcInv.v ===== *)
(** * The protocol invariant of the concurrent store

    What holds between any two steps of any threads in [StoreConc]: who owns
    which lock, which entries are live, and what each program point may rely
    on.  The proof is by cases on the kind of effect a step has (program
    point only, one cell, the outer lock, a removal, an insertion), one lemma
    per kind. *)

From S2P Require Import Prelude Float64 Candle RingBuffer Cold Text Parquet Store StoreSpec StoreCold StoreConc.

#[local] Open Scope Z_scope.

Module StoreConcInv.
Import StoreConc.

(** ** What a program point owns *)

(** The outer write lock. *)
Definition owns (p : pc) : bool :=
  match p with
  | HoldOuter _ | Flagging _ _ _ | Spilling _ _ _ _ | Clearing _ _ _ _ _ | Failing _ _ _ _ | Removing _ _ _ | Inserting _ => true
  | _ => false
  end.

(** The write lock of a ring. *)
Definition holds_buf (p : pc) : option nat :=
  match p with HoldBuf id _ | Checked id _ => Some id | _ => None end.

(** A flagged entry still in the table. *)
Definition evicts (p : pc) : option nat :=
  match p with Spilling _ id _ _ | Clearing _ id _ _ _ | Removing _ id _ => Some id | _ => None end.

Section inv.
Context {disk faults : Type} `{!ColdStorage disk faults}.
Context (cfg : LruCache.config).
Abbreviation shared := (@shared disk).
Abbreviation conf := (@conf disk).

(** What a thread at a program point knows of the shared state. *)
Definition knows (s : shared) (p : pc) : Prop :=
  match p with
  | Touch id j | WantBuf id j | HoldBuf id j => exists c, cells s !! id = Some c /\ symbol_of c = j_sym j
  | Checked id j => exists c, cells s !! id = Some c /\ symbol_of c = j_sym j /\ removed c = false
  | Flagging key id j => table s !! key = Some id /\ table s !! j_sym j = None
  | Spilling key id cs j =>
      table s !! key = Some id /\ table s !! j_sym j = None /\
      exists c, cells s !! id = Some c /\ removed c = true /\ RingBuffer.contents (ring c) = cs
  | Clearing key id _ _ j | Removing key id j =>
      table s !! key = Some id /\ table s !! j_sym j = None /\ exists c, cells s !! id = Some c /\ removed c = true
  | Inserting j => table s !! j_sym j = None /\ Z.of_nat (size (table s)) < Z.max 1 (LruCache.max_symbols cfg)
  | RHot id q _ => exists c, cells s !! id = Some c /\ symbol_of c = q_sym q
  | _ => True
  end.

Definition ring_ok (c : Cell) : Prop :=
  RingBuffer.wf (ring c) /\ RingBuffer.capacity (ring c) = LruCache.ring_capacity cfg.

Record inv (c : conf) : Prop := {
  (** the table points at cells of its own symbols *)
  i_table k id : table (sh c) !! k = Some id -> exists x, cells (sh c) !! id = Some x /\ symbol_of x = k;
  (** a cell that is not flagged is in the table *)
  i_live id x : cells (sh c) !! id = Some x -> removed x = false -> table (sh c) !! symbol_of x = Some id;
  (** a flagged cell in the table is being evicted *)
  i_dead k id x : table (sh c) !! k = Some id -> cells (sh c) !! id = Some x -> removed x = true ->
    exists t, evicts (pc_of c t) = Some id;
  i_outer t : outer (sh c) = Some t <-> owns (pc_of c t) = true;
  i_buf t id : holds_buf (pc_of c t) = Some id <-> exists x, cells (sh c) !! id = Some x /\ lock x = Some t;
  i_ring id x : cells (sh c) !! id = Some x -> ring_ok x;
  i_size : Z.of_nat (size (table (sh c))) <= Z.max 1 (LruCache.max_symbols cfg);
  i_knows t : knows (sh c) (pc_of c t)
}.

(** ** Program points after an update *)

Definition put (c : conf) (s : shared) (t : nat) (p : pc) : conf := mkConf s (<[t := p]> (pcs c)).

Lemma pc_of_put c s t p u : pc_of (put c s t p) u = if decide (u = t) then p else pc_of c u.
Proof.
  unfold pc_of, put. simpl. case_decide; subst; [by rewrite lookup_insert_eq|by rewrite lookup_insert_ne].
Qed.

Lemma pc_of_put_eq c s t p : pc_of (put c s t p) t = p.
Proof. rewrite pc_of_put. by case_decide. Qed.

Lemma pc_of_put_ne c s t p u : u <> t -> pc_of (put c s t p) u = pc_of c u.
Proof. intros H. rewrite pc_of_put. by case_decide. Qed.

(** A point's knowledge depends on the table and the cells only. *)
Lemma knows_ext s s' p : table s' = table s -> cells s' = cells s -> knows s p -> knows s' p.
Proof. intros H1 H2. destruct p; simpl; rewrite ?H1, ?H2; auto. Qed.

(** The two locks are exclusive. *)
Lemma owner_unique c t u : inv c -> owns (pc_of c t) = true -> owns (pc_of c u) = true -> t = u.
Proof. intros Hi H1 H2. apply (i_outer c Hi) in H1, H2. congruence. Qed.

Lemma evicts_owns p id : evicts p = Some id -> owns p = true.
Proof. by destruct p. Qed.

(** ** Effects on the program point only *)

Lemma inv_pc c t s' p' :
  inv c ->
  table s' = table (sh c) -> cells s' = cells (sh c) -> outer s' = outer (sh c) ->
  owns p' = owns (pc_of c t) -> holds_buf p' = holds_buf (pc_of c t) ->
  (forall id, evicts (pc_of c t) = Some id -> evicts p' = Some id) ->
  knows s' p' ->
  inv (put c s' t p').
Proof.
  intros Hi Ht Hc Ho Hown Hbuf Hev Hk.
  split; cbn [put sh]; rewrite ?Ht, ?Hc, ?Ho.
  - apply Hi.
  - apply Hi.
  - intros k id x H1 H2 H3. destruct (i_dead c Hi k id x H1 H2 H3) as [u Hu]. exists u.
    rewrite pc_of_put. case_decide; subst; auto.
  - intros u. rewrite pc_of_put. case_decide; subst; [rewrite Hown|]; apply Hi.
  - intros u id. rewrite pc_of_put. case_decide; subst; [rewrite Hbuf|]; apply Hi.
  - apply Hi.
  - apply Hi.
  - intros u. rewrite pc_of_put. case_decide; subst; [done|]. by eapply knows_ext; [..|apply Hi].
Qed.

(** ** Effects on one cell *)

Record cell_step (c : conf) (t : nat) (id : nat) (x y : Cell) (p' : pc) : Prop := {
  cs_old : cells (sh c) !! id = Some x;
  cs_sym : symbol_of y = symbol_of x;
  cs_ring : ring_ok y;
  cs_live : removed y = false -> table (sh c) !! symbol_of x = Some id;
  cs_dead : removed y = true -> (removed x = true /\ evicts (pc_of c t) <> Some id) \/ evicts p' = Some id;
  (** nobody else is between the check and the push when the flag is set *)
  cs_flag : removed x = false -> removed y = true -> lock x = None;
  (** a flagged cell keeps its candles, and only its evictor clears the flag *)
  cs_frozen : removed x = true -> ring y = ring x;
  cs_clear : removed x = true -> removed y = false -> evicts (pc_of c t) = Some id;
  cs_lock : match holds_buf p' with
            | Some i => i = id /\ lock y = Some t /\ (lock x = None \/ lock x = Some t)
            | None => (lock y = lock x /\ lock x <> Some t) \/ (lock x = Some t /\ lock y = None)
            end;
  cs_own : owns p' = owns (pc_of c t);
  cs_evicts i : i <> id -> evicts (pc_of c t) = Some i -> evicts p' = Some i
}.

(** The other threads' knowledge survives it. *)
Lemma knows_cell c t id x y p' s' u :
  inv c -> cell_step c t id x y p' -> table s' = table (sh c) -> cells s' = <[id := y]> (cells (sh c)) -> u <> t ->
  knows s' (pc_of c u).
Proof.
  intros Hi [Hold Hsym _ _ _ Hflag Hfroz Hclear _ _ _] Ht Hc Hne. pose proof (i_knows c Hi u) as Hu.
  assert (Hlen : (id < length (cells (sh c)))%nat) by (by eapply lookup_lt_Some).
  assert (Hcase : forall i z, cells (sh c) !! i = Some z ->
    (i = id /\ z = x /\ cells s' !! i = Some y) \/ cells s' !! i = Some z).
  { intros i z Hz. rewrite Hc. destruct (decide (i = id)) as [->|Hn].
    - left. rewrite list_lookup_insert_eq by done. split_and!; congruence.
    - right. by rewrite list_lookup_insert_ne. }
  assert (Hother : evicts (pc_of c u) = Some id -> removed x = true -> removed y = true).
  { intros H1 Hx. destruct (removed y) eqn:Ey; [done|]. exfalso. apply Hne. eapply owner_unique; [done| |].
    - by eapply evicts_owns.
    - eapply evicts_owns. by apply Hclear. }
  destruct (pc_of c u) as [ | | | | |i j| | | | |key i cs j|key i n e j| |key i j| | |i q m| | | ] eqn:Eu; simpl in *; rewrite ?Ht; auto;
    try (destruct Hu as (z & Hz & Hs); destruct (Hcase _ _ Hz) as [(-> & -> & Hz')|Hz']; eexists; (split; [exact Hz'|congruence])).
  - destruct Hu as (z & Hz & Hs & Hr). destruct (Hcase _ _ Hz) as [(-> & -> & Hz')|Hz']; [|by eauto].
    exists y. split_and!; [done|congruence|]. destruct (removed y) eqn:Ey; [|done]. exfalso. specialize (Hflag Hr eq_refl).
    destruct (proj1 (i_buf c Hi u id)) as (z & Hz2 & Hl); [by rewrite Eu|congruence].
  - destruct Hu as (H1 & H2 & z & Hz & Hr & Hcs). split_and!; [done..|].
    destruct (Hcase _ _ Hz) as [(-> & -> & Hz')|Hz']; [|by eauto]. exists y. split_and!; [done|auto|by rewrite Hfroz].
  - destruct Hu as (H1 & H2 & z & Hz & Hr). split_and!; [done..|]. destruct (Hcase _ _ Hz) as [(-> & -> & Hz')|Hz']; eauto.
  - destruct Hu as (H1 & H2 & z & Hz & Hr). split_and!; [done..|]. destruct (Hcase _ _ Hz) as [(-> & -> & Hz')|Hz']; eauto.
Qed.

Lemma inv_cell c t id x y p' s' :
  inv c -> cell_step c t id x y p' ->
  table s' = table (sh c) -> cells s' = <[id := y]> (cells (sh c)) -> outer s' = outer (sh c) ->
  (holds_buf (pc_of c t) = None \/ holds_buf (pc_of c t) = Some id) ->
  knows s' p' ->
  inv (put c s' t p').
Proof.
  intros Hi [Hold Hsym Hring Hlive Hdead Hflag Hfroz Hclear Hlock Hown Hevs] Ht Hc Ho Hb0 Hk.
  assert (Hlen : (id < length (cells (sh c)))%nat) by (by eapply lookup_lt_Some).
  assert (Hget : forall i z, cells s' !! i = Some z <-> (i = id /\ z = y) \/ (i <> id /\ cells (sh c) !! i = Some z)).
  { intros i z. rewrite Hc, list_lookup_insert_Some. naive_solver. }
  split; cbn [put sh]; rewrite ?Ht, ?Ho.
  - intros k i H. destruct (i_table c Hi k i H) as (z & Hz & Hs). destruct (decide (i = id)) as [->|Hne].
    + exists y. split; [apply Hget; auto|congruence].
    + exists z. split; [apply Hget; auto|done].
  - intros i z [[-> ->]|[Hne Hz]]%Hget Hr; [rewrite Hsym; auto|by apply (i_live c Hi)].
  - intros k i z Hk' [[-> ->]|[Hne Hz]]%Hget Hr.
    + destruct (Hdead Hr) as [[Hx Hnt]|He].
      * destruct (i_dead c Hi k id x Hk' Hold Hx) as [u Hu]. exists u. rewrite pc_of_put_ne; [done|]. by intros ->.
      * exists t. by rewrite pc_of_put_eq.
    + destruct (i_dead c Hi k i z Hk' Hz Hr) as [u Hu]. exists u. rewrite pc_of_put. case_decide; subst; auto.
  - intros u. rewrite pc_of_put. case_decide; subst; [rewrite Hown|]; apply Hi.
  - intros u i. rewrite pc_of_put. destruct (decide (u = t)) as [->|Hne].
    + destruct (holds_buf p') as [i'|] eqn:Hp'.
      * destruct Hlock as (-> & Hy & Hx). split.
        -- intros [= <-]. exists y. split; [apply Hget; auto|done].
        -- intros (z & [[-> ->]|[Hn Hz]]%Hget & Hl); [done|].
           exfalso. assert (Hc' : holds_buf (pc_of c t) = Some i) by (apply Hi; eauto).
           destruct Hb0 as [Hb0|Hb0]; rewrite Hb0 in Hc'; [done|congruence].
      * split; [done|]. intros (z & [[-> ->]|[Hn Hz]]%Hget & Hl).
        -- destruct Hlock as [[Hy Hx]|[Hx Hy]]; congruence.
        -- exfalso. assert (Hc' : holds_buf (pc_of c t) = Some i) by (apply Hi; eauto).
           destruct Hb0 as [Hb0|Hb0]; rewrite Hb0 in Hc'; [done|congruence].
    + rewrite (i_buf c Hi u i). split.
      * intros (z & Hz & Hl). destruct (decide (i = id)) as [->|Hn].
        -- assert (z = x) as -> by congruence. exists y. split; [apply Hget; auto|].
           destruct (holds_buf p'); [destruct Hlock as (_ & _ & [?|?])|destruct Hlock as [[? ?]|[? ?]]]; congruence.
        -- exists z. split; [apply Hget; auto|done].
      * intros (z & [[-> ->]|[Hn Hz]]%Hget & Hl); [|eauto]. exists x. split; [done|].
        destruct (holds_buf p'); [destruct Hlock as (_ & ? & _)|destruct Hlock as [[? ?]|[? ?]]]; congruence.
  - intros i z [[-> ->]|[Hne Hz]]%Hget; [done|by eapply (i_ring c Hi)].
  - apply Hi.
  - intros u. rewrite pc_of_put. destruct (decide (u = t)) as [->|Hne]; [done|].
    eapply knows_cell; [done|by split|done..].
Qed.

(** ** Effects on the outer lock *)

Lemma inv_outer_lock c t s' p' :
  inv c ->
  table s' = table (sh c) -> cells s' = cells (sh c) ->
  (outer (sh c) = None /\ outer s' = Some t \/ outer (sh c) = Some t /\ outer s' = None) ->
  (owns p' = true <-> outer s' = Some t) ->
  holds_buf (pc_of c t) = None -> holds_buf p' = None -> evicts (pc_of c t) = None ->
  knows s' p' ->
  inv (put c s' t p').
Proof.
  intros Hi Ht Hc Ho Hown Hb Hb' He Hk.
  split; cbn [put sh]; rewrite ?Ht, ?Hc; try apply Hi.
  - intros k id x H1 H2 H3. destruct (i_dead c Hi k id x H1 H2 H3) as [u Hu]. exists u.
    rewrite pc_of_put_ne; [done|]. intros ->. congruence.
  - intros u. rewrite pc_of_put. case_decide; subst; [by rewrite Hown|]. rewrite <- (i_outer c Hi u).
    split; intros; destruct Ho as [[H1 H2]|[H1 H2]]; congruence.
  - intros u id. rewrite pc_of_put. case_decide; subst; [rewrite Hb', <- Hb|]; apply Hi.
  - intros u. rewrite pc_of_put. case_decide; subst; [done|]. by eapply knows_ext; [..|apply Hi].
Qed.

(** ** Removal and insertion, under the outer lock *)

(** What another thread knows does not depend on the table. *)
Lemma knows_not_owner s s' p :
  owns p = false -> (forall i x, cells s !! i = Some x -> cells s' !! i = Some x) -> knows s p -> knows s' p.
Proof. intros Ho Hc. destruct p; simpl in *; try done; naive_solver. Qed.

Lemma others_not_owner c t u : inv c -> owns (pc_of c t) = true -> u <> t -> owns (pc_of c u) = false.
Proof. intros Hi Ht Hu. destruct (owns (pc_of c u)) eqn:E; [|done]. exfalso. apply Hu. by eapply owner_unique. Qed.

Lemma inv_remove c t key id j s' :
  inv c -> pc_of c t = Removing key id j ->
  table s' = delete key (table (sh c)) -> cells s' = cells (sh c) -> outer s' = outer (sh c) ->
  inv (put c s' t (Inserting j)).
Proof.
  intros Hi Hp Ht Hc Ho. pose proof (i_knows c Hi t) as Hk. rewrite Hp in Hk. destruct Hk as (K1 & K2 & x & K3 & K4).
  assert (Hown : owns (pc_of c t) = true) by (by rewrite Hp).
  split; cbn [put sh]; rewrite ?Ht, ?Hc, ?Ho.
  - intros k i [_ H]%lookup_delete_Some. by apply Hi.
  - intros i z Hz Hr. pose proof (i_live c Hi i z Hz Hr) as Hl. rewrite lookup_delete_ne; [done|].
    intros E. rewrite <- E in Hl. congruence.
  - intros k i z [Hne H]%lookup_delete_Some Hz Hr. destruct (i_dead c Hi k i z H Hz Hr) as [u Hu].
    exists u. rewrite pc_of_put_ne; [done|]. intros ->. rewrite Hp in Hu. simpl in Hu. injection Hu as ->.
    destruct (i_table c Hi _ _ H) as (z1 & E1 & <-). destruct (i_table c Hi _ _ K1) as (z2 & E2 & <-). congruence.
  - intros u. rewrite pc_of_put. case_decide; subst; [|apply Hi]. rewrite (i_outer c Hi t), Hown. done.
  - intros u i. rewrite pc_of_put. case_decide; subst; [|apply Hi]. rewrite <- (i_buf c Hi t i), Hp. done.
  - apply Hi.
  - rewrite map_size_delete, K1. pose proof (i_size c Hi). lia.
  - intros u. rewrite pc_of_put. case_decide as Hu; subst.
    + simpl. rewrite Ht. split.
      * rewrite lookup_delete_ne; [done|]. intros ->. congruence.
      * rewrite map_size_delete, K1. pose proof (i_size c Hi).
        assert (size (table (sh c)) <> 0%nat); [|lia].
        intros E. apply map_size_empty_inv in E. rewrite E, lookup_empty in K1. done.
    + eapply knows_not_owner; [by eapply others_not_owner| |apply Hi]. by rewrite Hc.
Qed.

Lemma inv_insert c t j rb s' p' :
  inv c -> pc_of c t = Inserting j ->
  ring_ok (mkCell (j_sym j) rb (j_tick j) false None) ->
  table s' = <[j_sym j := length (cells (sh c))]> (table (sh c)) ->
  cells s' = cells (sh c) ++ [mkCell (j_sym j) rb (j_tick j) false None] -> outer s' = None ->
  owns p' = false -> holds_buf p' = None -> knows s' p' ->
  inv (put c s' t p').
Proof.
  intros Hi Hp Hr Ht Hc Ho Hp1 Hp2 Hp3. pose proof (i_knows c Hi t) as Hk. rewrite Hp in Hk. destruct Hk as [K1 K2].
  assert (Hown : owns (pc_of c t) = true) by (by rewrite Hp).
  set (n := length (cells (sh c))) in *. set (y := mkCell (j_sym j) rb (j_tick j) false None) in *.
  assert (Hget : forall i z, cells s' !! i = Some z <-> cells (sh c) !! i = Some z \/ (i = n /\ z = y)).
  { intros i z. rewrite Hc. split.
    - intros [H|[H1 H2]]%lookup_app_Some; [auto|]. right. apply list_lookup_singleton_Some in H2 as [H2 <-]. split; [|done]. lia.
    - intros [H|[-> ->]]; [by apply lookup_app_l_Some|]. by rewrite lookup_app_r, Nat.sub_diag by done. }
  assert (Hfresh : forall k i, table (sh c) !! k = Some i -> i <> n).
  { intros k i H ->. destruct (i_table c Hi k n H) as (z & Hz & _). apply lookup_lt_Some in Hz. unfold n in Hz. lia. }
  split; cbn [put sh]; rewrite ?Ht, ?Ho.
  - intros k i [[<- <-]|[Hne H]]%lookup_insert_Some.
    + exists y. split; [apply Hget; auto|done].
    + destruct (i_table c Hi k i H) as (z & Hz & Hs). exists z. split; [apply Hget; auto|done].
  - intros i z [Hz|[-> ->]]%Hget Hrm; [|by rewrite lookup_insert_eq].
    pose proof (i_live c Hi i z Hz Hrm) as Hl. rewrite lookup_insert_ne; [done|]. intros E. rewrite <- E in Hl. congruence.
  - intros k i z Hk' [Hz|[-> ->]]%Hget Hrm; [|done].
    apply lookup_insert_Some in Hk' as [[<- <-]|[Hne H]]; [apply lookup_lt_Some in Hz; unfold n in Hz; lia|].
    destruct (i_dead c Hi k i z H Hz Hrm) as [u Hu]. exists u. rewrite pc_of_put_ne; [done|]. intros ->. by rewrite Hp in Hu.
  - intros u. rewrite pc_of_put. split; [done|]. case_decide; subst; [congruence|].
    rewrite (others_not_owner c t u) by done. done.
  - intros u i. rewrite pc_of_put. case_decide; subst.
    + rewrite Hp2. split; [done|]. intros (z & [Hz|[-> ->]]%Hget & Hl); [|done].
      assert (H : holds_buf (pc_of c t) = Some i) by (apply Hi; eauto). by rewrite Hp in H.
    + rewrite (i_buf c Hi u i). split; intros (z & Hz & Hl); exists z; (split; [|done]).
      * apply Hget; auto.
      * apply Hget in Hz as [Hz|[-> ->]]; done.
  - intros i z [Hz|[-> ->]]%Hget; [by eapply (i_ring c Hi)|done].
  - rewrite map_size_insert_None by done. lia.
  - intros u. rewrite pc_of_put. case_decide; subst; [done|].
    eapply knows_not_owner; [by eapply others_not_owner| |apply Hi]. intros i z Hz. apply Hget. auto.
Qed.

(** ** Every step preserves the invariant, and none panics *)

Lemma conc_init_inv (d : disk) : inv (init d).
Proof.
  assert (Hpc : forall t, pc_of (init d) t = Idle) by done.
  split; cbn [init sh table cells outer]; intros *; rewrite ?Hpc, ?lookup_empty, ?lookup_nil, ?map_size_empty; try done; try lia.
  split; [done|]. by intros (x & H & _).
Qed.

Lemma conc_start_inv c t o s p : inv c -> pc_of c t = Idle -> start (sh c) o = (s, p) -> inv (put c s t p).
Proof.
  intros Hi Ht H. destruct o as [sym cd| | | ]; simpl in H; [destruct (is_valid cd)|..]; injection H as <- <-;
    apply inv_pc; by rewrite ?Ht.
Qed.

(** The cell-changing steps, as instances of [inv_cell]. *)
Lemma known_ring c id x : inv c -> cells (sh c) !! id = Some x -> ring_ok x.
Proof. intros Hi. apply (i_ring c Hi). Qed.

Lemma lock_of_other c t id x : inv c -> cells (sh c) !! id = Some x -> holds_buf (pc_of c t) <> Some id -> lock x <> Some t.
Proof. intros Hi Hx Hn Hl. apply Hn, (i_buf c Hi). eauto. Qed.

Lemma inv_touch c t id j x :
  inv c -> pc_of c t = Touch id j -> cells (sh c) !! id = Some x ->
  inv (put c (set_cell (sh c) id (set_access x (j_tick j))) t (WantBuf id j)).
Proof.
  intros Hi Hp Hx. pose proof (i_knows c Hi t) as Hk. rewrite Hp in Hk. destruct Hk as (x' & Hx' & Hs). simplify_eq.
  eapply (inv_cell c t id x); rewrite ?Hp; simpl; try done; [|by left|].
  - split; rewrite ?Hp; try done; simpl.
    + exact (known_ring _ _ _ Hi Hx).
    + intros Hr. by apply (i_live c Hi).
    + intros Hr. by left.
    + congruence.
    + congruence.
    + left. split; [done|]. apply (lock_of_other c t id x); [done..|]. by rewrite Hp.
  - eexists. split; [apply list_lookup_insert_eq; by eapply lookup_lt_Some|done].
Qed.

Lemma inv_lock c t id j x :
  inv c -> pc_of c t = WantBuf id j -> cells (sh c) !! id = Some x -> lock x = None ->
  inv (put c (set_cell (sh c) id (set_lock x (Some t))) t (HoldBuf id j)).
Proof.
  intros Hi Hp Hx Hl. pose proof (i_knows c Hi t) as Hk. rewrite Hp in Hk. destruct Hk as (x' & Hx' & Hs). simplify_eq.
  eapply (inv_cell c t id x); rewrite ?Hp; simpl; try done; [|by left|].
  - split; rewrite ?Hp; try done; simpl.
    + exact (known_ring _ _ _ Hi Hx).
    + intros Hr. by apply (i_live c Hi).
    + intros Hr. by left.
    + congruence.
    + auto.
  - eexists. split; [apply list_lookup_insert_eq; by eapply lookup_lt_Some|done].
Qed.

Lemma inv_unlock c t id j x :
  inv c -> pc_of c t = HoldBuf id j -> cells (sh c) !! id = Some x ->
  inv (put c (set_cell (sh c) id (set_lock x None)) t (WantOuter j)).
Proof.
  intros Hi Hp Hx. assert (Hl : lock x = Some t).
  { destruct (proj1 (i_buf c Hi t id)) as (z & Hz & Hl); [by rewrite Hp|congruence]. }
  eapply (inv_cell c t id x); rewrite ?Hp; simpl; try done; [|by right].
  split; rewrite ?Hp; try done; simpl.
  - exact (known_ring _ _ _ Hi Hx).
  - intros Hr. by apply (i_live c Hi).
  - intros Hr. by left.
  - congruence.
  - congruence.
  - auto.
Qed.

Lemma inv_push c t id j x rb s' :
  inv c -> pc_of c t = Checked id j -> cells (sh c) !! id = Some x ->
  ring_ok (set_lock (set_ring x rb) None) ->
  table s' = table (sh c) -> outer s' = outer (sh c) -> cells s' = <[id := set_lock (set_ring x rb) None]> (cells (sh c)) ->
  inv (put c s' t (Publish j)).
Proof.
  intros Hi Hp Hx Hr Ht Ho Hc. pose proof (i_knows c Hi t) as Hk. rewrite Hp in Hk. destruct Hk as (x' & Hx' & Hs & Hrm). simplify_eq.
  assert (Hl : lock x = Some t).
  { destruct (proj1 (i_buf c Hi t id)) as (z & Hz & Hl); [by rewrite Hp|congruence]. }
  eapply (inv_cell c t id x); rewrite ?Hp; simpl; try done; [|by right].
  split; rewrite ?Hp; try done; simpl; try congruence.
  - intros _. by apply (i_live c Hi).
  - auto.
Qed.

Lemma inv_flag c t key id j x :
  inv c -> pc_of c t = Flagging key id j -> cells (sh c) !! id = Some x -> lock x = None ->
  inv (put c (set_cell (sh c) id (set_removed x true)) t (Spilling key id (RingBuffer.contents (ring x)) j)).
Proof.
  intros Hi Hp Hx Hl. pose proof (i_knows c Hi t) as Hk. rewrite Hp in Hk. destruct Hk as (K1 & K2).
  eapply (inv_cell c t id x); rewrite ?Hp; simpl; try done; [|by left|].
  - split; rewrite ?Hp; try done; simpl; try congruence.
    + exact (known_ring _ _ _ Hi Hx).
    + auto.
    + left. split; [done|]. congruence.
  - split_and!; [done..|]. eexists. split; [apply list_lookup_insert_eq; by eapply lookup_lt_Some|done].
Qed.

Lemma inv_clear c t key id n e j x :
  inv c -> pc_of c t = Clearing key id n e j -> cells (sh c) !! id = Some x ->
  inv (put c (set_cell (sh c) id (set_removed x false)) t (Failing key n e j)).
Proof.
  intros Hi Hp Hx. pose proof (i_knows c Hi t) as Hk. rewrite Hp in Hk. destruct Hk as (K1 & K2 & x' & K3 & K4). simplify_eq.
  eapply (inv_cell c t id x); rewrite ?Hp; simpl; try done; [|by left].
  split; rewrite ?Hp; try done; simpl; try congruence.
  - exact (known_ring _ _ _ Hi Hx).
  - intros _. destruct (i_table c Hi _ _ K1) as (z & Hz & <-). congruence.
  - left. split; [done|]. apply (lock_of_other c t id x); [done..|]. by rewrite Hp.
Qed.

Hypothesis Hcap : (0 < LruCache.ring_capacity cfg)%nat.

Lemma first_ring j :
  exists rb o, RingBuffer.push (RingBuffer.new (LruCache.ring_capacity cfg)) (j_candle j) = Some (rb, o) /\
    ring_ok (mkCell (j_sym j) rb (j_tick j) false None) /\ RingBuffer.contents rb = [j_candle j].
Proof.
  destruct (Store.first_push _ (j_candle j) Hcap) as (rb & o & H1 & H2 & H3 & H4). by exists rb, o.
Qed.

Lemma next_ring x c :
  ring_ok x ->
  exists rb o, RingBuffer.push (ring x) c = Some (rb, o) /\ ring_ok (set_lock (set_ring x rb) None) /\
    RingBuffer.contents rb = lastn (LruCache.ring_capacity cfg) (RingBuffer.contents (ring x) ++ [c]).
Proof.
  intros [H1 H2]. destruct (RingBuffer.push_spec (ring x) c H1) as (rb & o & E1 & E2 & E3 & E4 & _).
  exists rb, o. split; [done|]. unfold ring_ok. simpl. by rewrite E3, E4, H2.
Qed.

Lemma step_inv_cell c t f victim :
  inv c ->
  match pc_of c t with
  | Touch _ _ | WantBuf _ _ | HoldBuf _ _ | Checked _ _ | Flagging _ _ _ | Clearing _ _ _ _ _ => True
  | _ => False
  end ->
  exists s p, step cfg t f victim (sh c) (pc_of c t) = Some (s, p) /\ inv (put c s t p).
Proof.
  intros Hi Hcase. pose proof (i_knows c Hi t) as Hk.
  assert (Hstay : inv (put c (sh c) t (pc_of c t))) by (by apply inv_pc).
  destruct (pc_of c t) as [ | |id j|id j|id j|id j| | | |key id j| |key id n e j| | | | | | | | ] eqn:Hp; try done; simpl in Hk |- *.
  - destruct Hk as (x & Hx & Hs). rewrite Hx. do 2 eexists. split; [reflexivity|]. by apply inv_touch.
  - destruct Hk as (x & Hx & Hs). rewrite Hx. simpl. destruct (lock x) eqn:El; do 2 eexists; (split; [reflexivity|]); [done|].
    by apply inv_lock.
  - destruct Hk as (x & Hx & Hs). rewrite Hx. simpl. destruct (removed x) eqn:Er; do 2 eexists; (split; [reflexivity|]).
    + by apply inv_unlock.
    + apply inv_pc; rewrite ?Hp; try done. simpl. eauto.
  - destruct Hk as (x & Hx & Hs & Hr). rewrite Hx. cbn [mbind option_bind].
    destruct (next_ring x (j_candle j) (known_ring _ _ _ Hi Hx)) as (rb & o & -> & Hok & _). cbn [mbind option_bind].
    do 2 eexists. split; [reflexivity|]. eapply (inv_push c t id j x rb); try done; by destruct o.
  - destruct Hk as (K1 & K2). destruct (i_table c Hi _ _ K1) as (x & Hx & Hs). rewrite Hx. cbn [mbind option_bind].
    destruct (lock x) eqn:El; [do 2 eexists; split; [reflexivity|done]|].
    rewrite RingBuffer.to_vec_contents by apply (known_ring _ _ _ Hi Hx). cbn [mbind option_bind].
    do 2 eexists. split; [reflexivity|]. by apply inv_flag.
  - destruct Hk as (K1 & K2 & x & Hx & Hr). rewrite K1, Hx. cbn [mbind option_bind].
    do 2 eexists. split; [reflexivity|]. by eapply inv_clear.
Qed.

Lemma step_inv_other c t f victim :
  inv c ->
  match pc_of c t with
  | Touch _ _ | WantBuf _ _ | HoldBuf _ _ | Checked _ _ | Flagging _ _ _ | Clearing _ _ _ _ _ => False
  | _ => True
  end ->
  exists s p, step cfg t f victim (sh c) (pc_of c t) = Some (s, p) /\ inv (put c s t p).
Proof.
  intros Hi Hcase. pose proof (i_knows c Hi t) as Hk. pose proof (i_outer c Hi t) as Ho.
  assert (Hstay : inv (put c (sh c) t (pc_of c t))) by (by apply inv_pc).
  destruct (pc_of c t) as [ |j| | | | |j|j|j| |key id cs j| |key n e j|key id j|j|q|id q m|hot q m b| |v n] eqn:Hp; try done; simpl in Hk |- *.
  - do 2 eexists. split; [reflexivity|done].
  - destruct (outer (sh c)) eqn:Eo; do 2 eexists; (split; [reflexivity|]); [done|].
    apply inv_pc; rewrite ?Hp; try done; destruct (table (sh c) !! j_sym j) eqn:Et; try done. by apply Hi.
  - do 2 eexists. split; [reflexivity|]. apply inv_pc; by rewrite ?Hp.
  - destruct (outer (sh c)) eqn:Eo; do 2 eexists; (split; [reflexivity|]); [done|].
    apply inv_outer_lock; rewrite ?Hp; try done. by left.
  - assert (Eo : outer (sh c) = Some t) by (by apply Ho).
    destruct (table (sh c) !! j_sym j) as [id|] eqn:Et.
    { do 2 eexists. split; [reflexivity|]. apply inv_outer_lock; rewrite ?Hp; try done; [by right|]. simpl. by apply Hi. }
    pose proof (i_size c Hi) as Hsz. destruct (Z.leb_spec (LruCache.max_symbols cfg) (Z.of_nat (size (table (sh c))))).
    + destruct (decide (table (sh c) = ∅)) as [E|E].
      * do 2 eexists. split; [reflexivity|]. apply inv_pc; rewrite ?Hp; try done. simpl. split; [done|]. rewrite E, map_size_empty. lia.
      * destruct (table (sh c) !! victim) as [id|] eqn:Ev; do 2 eexists; (split; [reflexivity|]); [|done].
        apply inv_pc; by rewrite ?Hp.
    + do 2 eexists. split; [reflexivity|]. apply inv_pc; rewrite ?Hp; try done. simpl. split; [done|]. lia.
  - destruct Hk as (K1 & K2 & x & K3 & K4 & K5).
    assert (Hrem : forall s', table s' = table (sh c) -> cells s' = cells (sh c) -> outer s' = outer (sh c) ->
      inv (put c s' t (Removing key id j)) /\ forall n e, inv (put c s' t (Clearing key id n e j))).
    { intros s' E1 E2 E3. split; intros; (apply inv_pc; rewrite ?Hp; try done; simpl; rewrite E1, E2; eauto 10). }
    destruct cs as [|c0 cs]; [do 2 eexists; split; [reflexivity|by apply Hrem]|].
    destruct (LruCache.data_dir cfg) as [dir|]; [|do 2 eexists; split; [reflexivity|by apply Hrem]].
    destruct (spill f (files (sh c)) dir key (c0 :: cs)) as [d' [[]|e]]; do 2 eexists; (split; [reflexivity|by apply Hrem]).
  - do 2 eexists. split; [reflexivity|]. apply inv_outer_lock; rewrite ?Hp; try done. right. split; [by apply Ho|done].
  - do 2 eexists. split; [reflexivity|]. by eapply inv_remove.
  - destruct (first_ring j) as (rb & o & -> & Hok & _). cbn [mbind option_bind].
    do 2 eexists. split; [reflexivity|]. by eapply inv_insert.
  - destruct (outer (sh c)) eqn:Eo; do 2 eexists; (split; [reflexivity|]); [done|].
    apply inv_pc; rewrite ?Hp; try done; destruct (table (sh c) !! q_sym q) eqn:Et; try done. by apply Hi.
  - destruct Hk as (x & Hx & Hs). rewrite Hx. cbn [mbind option_bind]. destruct (lock x); [do 2 eexists; split; [reflexivity|done]|].
    destruct (RingBuffer.range_slice (ring x) (proj1 (known_ring _ _ _ Hi Hx)) (q_from q) (q_to q)) as (k & n & ->). cbn [mbind option_bind].
    do 2 eexists. split; [reflexivity|]. apply inv_pc; by rewrite ?Hp.
  - do 2 eexists. split; [reflexivity|]. apply inv_pc; by rewrite ?Hp.
  - do 2 eexists. split; [reflexivity|]. apply inv_pc; by rewrite ?Hp.
  - do 2 eexists. split; [reflexivity|]. apply inv_pc; by rewrite ?Hp.
Qed.

Lemma fire_inv c e : inv c -> exists c', fire cfg c e = Some c' /\ inv c'.
Proof.
  intros Hi. destruct e as [t o|t f victim]; simpl.
  - destruct (pc_of c t) eqn:Hp; try by eauto. destruct (start (sh c) o) as [s p] eqn:E.
    eexists. split; [reflexivity|]. by eapply conc_start_inv.
  - assert (H : exists s p, step cfg t f victim (sh c) (pc_of c t) = Some (s, p) /\ inv (put c s t p)).
    { destruct (pc_of c t) eqn:Hp; rewrite <- Hp;
        first [apply step_inv_cell; [done|by rewrite Hp] | apply step_inv_other; [done|by rewrite Hp]]. }
    destruct H as (s & p & -> & Hi'). cbn. by eexists.
Qed.

Lemma conc_run_inv c es : inv c -> exists c', run cfg c es = Some c' /\ inv c'.
Proof.
  revert c. induction es as [|e es IH]; intros c Hi; simpl; [by eauto|].
  destruct (fire_inv c e Hi) as (c1 & -> & Hi1). simpl. by apply IH.
Qed.

End inv.
End StoreConcInv.
