(* ===== verification/StoreConcSafe.v ===== *)
(** * What concurrent callers of the store can rely on

    On top of the protocol invariant of [StoreConcInv]: no interleaving of
    appends, evictions and reads loses a candle that was accepted, and a
    range query sees every candle stored before it looked its symbol up, also
    when the entry it reads is evicted under it.  Both are proved for one
    symbol at a time ([watched]): what other symbols receive, or lose because
    their rings wrap, does not matter to it. *)

From S2P Require Import Prelude Float64 Candle RingBuffer Cold Text Parquet Store StoreSpec StoreCold StoreConc StoreConcInv.

#[local] Open Scope Z_scope.

Module StoreConcSafe.
Import StoreConc StoreConcInv.

(** ** Lists of stored candles *)

Definition of_sym (sym : string) (l : list (string * Candle)) : list (string * Candle) :=
  filter (fun p => p.1 = sym) l.

Lemma of_sym_snoc_eq sym c l : length (of_sym sym (l ++ [(sym, c)])) = S (length (of_sym sym l)).
Proof.
  unfold of_sym. rewrite filter_app, length_app, filter_cons_True by done. simpl. lia.
Qed.

Lemma of_sym_app sym l l' : (length (of_sym sym l) <= length (of_sym sym (l ++ l')))%nat.
Proof. unfold of_sym. rewrite filter_app, length_app. lia. Qed.

Lemma in_lastn {A} n (l : list A) x : In x (lastn n l) -> In x l.
Proof. intros H. rewrite <- (take_drop (length l - n) l). apply in_or_app. by right. Qed.

Lemma in_order_sorted l : in_order l = true -> ts_sorted l.
Proof.
  assert (H : in_order l = true -> StronglySorted (fun a b => ts a <= ts b) l).
  { induction l as [|a l IH]; intros H; [constructor|]. destruct l as [|b l]; [repeat constructor|].
    cbn [in_order] in H. apply andb_true_iff in H as [H1 H2]. apply Z.leb_le in H1. specialize (IH H2).
    constructor; [done|]. apply StronglySorted_inv in IH as [_ IH]. constructor; [done|].
    eapply Forall_impl; [exact IH|]. simpl. lia. }
  intros Hs%H i j a b Hij Ha Hb. clear H. revert i j Hij Ha Hb. induction Hs as [|y l Hs IH Hy]; intros i j Hij Ha Hb; [done|].
  destruct i as [|i], j as [|j]; try lia; simpl in Ha, Hb; simplify_eq; [lia| |].
  - by apply (proj1 (Forall_lookup _ _) Hy j b).
  - apply (IH i j); [lia|done..].
Qed.

Section safe.
Context {disk faults : Type} `{!ColdStorage disk faults} `{!ColdStorageLaws disk faults} `{!ColdFiles disk faults}.
Context (cfg : LruCache.config) (dir watched : string).
Hypothesis Hcap : (0 < LruCache.ring_capacity cfg)%nat.
Hypothesis Hdir : LruCache.data_dir cfg = Some dir.
Abbreviation shared := (@shared disk).
Abbreviation conf := (@conf disk).
Abbreviation inv := (inv cfg).

(** What a cell holds, apart from its lock, flag and stamp. *)
Definition view (s : shared) (id : nat) : option (string * list Candle) :=
  (fun x => (symbol_of x, RingBuffer.contents (ring x))) <$> cells s !! id.

(** The candle is in a ring of the watched symbol. *)
Definition held (s : shared) (id : nat) (c : Candle) : Prop := exists cs, view s id = Some (watched, cs) /\ In c cs.

(** The symbol received no more candles than a ring holds. *)
Definition room (s : shared) : Prop := (length (of_sym watched (stored s)) <= LruCache.ring_capacity cfg)%nat.

(** The candle is kept: hot in the symbol's entry, or in a file of the symbol,
    with queries answering for its timestamp. *)
Definition readable (s : shared) (c : Candle) : Prop :=
  (exists id, table s !! watched = Some id /\ held s id c) \/ filed (files s) dir watched c.

(** The candle was pushed for the symbol, or is in one of its files. *)
Definition genuine (s : shared) (c : Candle) : Prop := In (watched, c) (stored s) \/ on_disk (files s) dir watched c.

Definition job_of (p : pc) : option job :=
  match p with
  | Lookup j | Touch _ j | WantBuf _ j | HoldBuf _ j | Checked _ j | Publish j | WantOuter j | HoldOuter j
  | Flagging _ _ j | Spilling _ _ _ j | Clearing _ _ _ _ j | Failing _ _ _ j | Removing _ _ j | Inserting j => Some j
  | _ => None
  end.

(** What is owed at a program point. *)
Definition owed (s : shared) (p : pc) : Prop :=
  match p with
  | Publish j => In (j_sym j, j_candle j) (stored s)
  | Removing key id _ => key = watched -> forall c, held s id c -> filed (files s) dir watched c
  | RHot id q must =>
      q_sym q = watched -> forall c, In (watched, c) must -> held s id c \/ filed (files s) dir watched c
  | RCold hot q must true =>
      StoreCold.sorted_le hot /\
      (q_sym q = watched ->
        (forall h, In h hot -> In (watched, h) (stored s) /\ q_from q <= ts h <= q_to q) /\
        forall c, In (watched, c) must -> q_from q <= ts c <= q_to q -> In c hot \/ filed (files s) dir watched c)
  | _ => True
  end.

Definition reply_ok (s : shared) (r : reply) : Prop :=
  match r with
  | RAppend sym c (Ok _) => In (sym, c) (stored s)
  | RRange q out must true =>
      q_sym q = watched ->
      (forall c, In (watched, c) must -> q_from q <= ts c <= q_to q -> exists x, In x out /\ ts x = ts c) /\
      (forall x, In x out -> q_from q <= ts x <= q_to q /\ genuine s x)
  | _ => True
  end.

(** A ring holds some of its symbol's candles, in the order. *)
Definition pushed (s : shared) (sym : string) : list Candle := snd <$> of_sym sym (stored s).

Definition cells_ok (s : shared) : Prop :=
  forall id sym cs, view s id = Some (sym, cs) -> cs `sublist_of` pushed s sym.

Lemma cells_ok_in s id sym cs :
  cells_ok s -> view s id = Some (sym, cs) ->
  (length cs <= length (of_sym sym (stored s)))%nat /\ forall c, In c cs -> In (sym, c) (stored s).
Proof.
  intros Hc Hv. specialize (Hc id sym cs Hv). split; [apply sublist_length in Hc; unfold pushed in Hc; by rewrite length_fmap in Hc|].
  intros c Hin%list_elem_of_In. apply (fun H => elem_of_sublist _ _ _ H Hc), list_elem_of_fmap in Hin as ([sy x] & E & Hin). cbn in E. subst.
  apply list_elem_of_filter in Hin as [E Hin]. cbn in E. subst. by apply list_elem_of_In.
Qed.

Lemma pushed_snoc (s s' : shared) sym c sym' :
  stored s' = stored s ++ [(sym, c)] -> pushed s' sym' = if decide (sym = sym') then pushed s sym' ++ [c] else pushed s sym'.
Proof.
  intros H. unfold pushed, of_sym. rewrite H, filter_app. case_decide as Hd.
  - rewrite (filter_cons_True _ (sym, c)) by done. by rewrite fmap_app.
  - rewrite (filter_cons_False _ (sym, c)) by done. by rewrite app_nil_r.
Qed.

Record data (c : conf) : Prop := {
  d_cells : cells_ok (sh c);
  d_i64 p : In p (stored (sh c)) -> is_i64 (ts p.2);
  d_jobs t j : job_of (pc_of c t) = Some j -> is_i64 (ts (j_candle j));
  d_kept : room (sh c) -> forall x, In (watched, x) (stored (sh c)) -> readable (sh c) x;
  d_owed : room (sh c) -> forall t, owed (sh c) (pc_of c t);
  d_replies : room (sh c) -> forall r, In r (replies (sh c)) -> reply_ok (sh c) r
}.

(** ** What every step keeps *)

Record grows (s s' : shared) : Prop := {
  g_stored : exists l, stored s' = stored s ++ l;
  g_disk sym x : filed (files s) dir sym x -> filed (files s') dir sym x;
  g_files sym x : on_disk (files s) dir sym x -> on_disk (files s') dir sym x;
  g_held : room s' -> forall id c, held s id c -> held s' id c;
  g_frozen id x : cells s !! id = Some x -> removed x = true -> view s' id = view s id
}.

Lemma grows_room s s' : grows s s' -> room s' -> room s.
Proof. intros [[l E] _ _ _ _]. unfold room. rewrite E. pose proof (of_sym_app watched (stored s) l). lia. Qed.

Lemma grows_in s s' p : grows s s' -> In p (stored s) -> In p (stored s').
Proof. intros [[l E] _ _ _ _] H. rewrite E. apply in_or_app. auto. Qed.

Lemma reply_ok_grows s s' r : grows s s' -> reply_ok s r -> reply_ok s' r.
Proof.
  intros Hg. destruct r as [sym c [[]|e]|q out m [|]| | ]; simpl; try done; [by apply grows_in|].
  intros H E. destruct (H E) as [H1 H2]. split; [done|]. intros x Hx. destruct (H2 x Hx) as [Hw [Hs|Hs]]; (split; [done|]).
  - left. by eapply grows_in.
  - right. by apply (g_files _ _ Hg).
Qed.

Lemma owed_grows s s' p : grows s s' -> room s' -> knows cfg s p -> owed s p -> owed s' p.
Proof.
  intros Hg Hr Hk. destruct p as [ | | | | | |j| | | | | | |key id j| | |id q m|hot q m [|]| | ]; simpl in *; try done.
  - by apply grows_in.
  - intros Ho E c (cs & Hv & Hc). apply (g_disk _ _ Hg). destruct Hk as (_ & _ & x & Hx & Hrm).
    rewrite (g_frozen _ _ Hg _ _ Hx Hrm) in Hv. apply (Ho E). by exists cs.
  - intros Ho E c Hc. destruct (Ho E c Hc) as [H|H]; [left; by apply (g_held _ _ Hg)|right; by apply (g_disk _ _ Hg)].
  - intros [Hs Ho]. split; [done|]. intros E. destruct (Ho E) as [Hh Ho']. split.
    + intros h Hin. destruct (Hh h Hin). split; [by eapply grows_in|done].
    + intros c Hc Hw. destruct (Ho' c Hc Hw) as [H|H]; [by left|right; by apply (g_disk _ _ Hg)].
Qed.

Lemma data_step c t s' p' :
  inv c -> data c -> grows (sh c) s' -> cells_ok s' ->
  (forall p, In p (stored s') -> is_i64 (ts p.2)) ->
  (forall j, job_of p' = Some j -> is_i64 (ts (j_candle j))) ->
  (room s' -> forall x, In (watched, x) (stored s') -> readable s' x) ->
  (room s' -> owed s' p') ->
  (room s' -> forall r, In r (replies s') -> In r (replies (sh c)) \/ reply_ok s' r) ->
  data (put c s' t p').
Proof.
  intros Hi Hd Hg Hc Hi64 Hj Hkept Ho Hrep. split; cbn [put sh]; try done.
  - intros u j. rewrite pc_of_put. case_decide; [apply Hj|apply (d_jobs c Hd)].
  - intros Hr u. rewrite pc_of_put. case_decide; [by apply Ho|].
    eapply owed_grows; [done..|apply Hi|]. apply (d_owed c Hd). by eapply grows_room.
  - intros Hr r Hin. destruct (Hrep Hr r Hin) as [H|H]; [|done]. eapply reply_ok_grows; [done|].
    apply (d_replies c Hd); [by eapply grows_room|done].
Qed.

(** A step that leaves rings, table and disk alone. *)
Lemma grows_same s s' :
  (forall id, view s' id = view s id) -> files s' = files s -> stored s' = stored s -> grows s s'.
Proof.
  intros Hv Hf Hs. split; rewrite ?Hf.
  - exists []. by rewrite app_nil_r.
  - done.
  - done.
  - intros _ id c. unfold held. by rewrite Hv.
  - intros. apply Hv.
Qed.

Lemma readable_same s s' x :
  table s' = table s -> (forall id c, held s id c -> held s' id c) ->
  (forall y, filed (files s) dir watched y -> filed (files s') dir watched y) ->
  readable s x -> readable s' x.
Proof. intros Ht Hh Hd [(id & H1 & H2)|H]; [left; exists id; rewrite Ht; auto|right; auto]. Qed.

Lemma data_quiet c t s' p' l :
  inv c -> data c ->
  table s' = table (sh c) -> (forall id, view s' id = view (sh c) id) -> files s' = files (sh c) ->
  stored s' = stored (sh c) -> replies s' = replies (sh c) ++ l ->
  (forall j, job_of p' = Some j -> is_i64 (ts (j_candle j))) ->
  (room (sh c) -> owed (sh c) p') -> (room (sh c) -> Forall (reply_ok (sh c)) l) ->
  data (put c s' t p').
Proof.
  intros Hi Hd Ht Hv Hf Hs Hr Hj Ho Hl. pose proof (grows_same (sh c) s' Hv Hf Hs) as Hg.
  assert (Hroom : room s' <-> room (sh c)) by (unfold room; by rewrite Hs).
  apply data_step; try done.
  - intros id sym cs. unfold pushed. rewrite Hv, Hs. apply (d_cells c Hd).
  - rewrite Hs. apply (d_i64 c Hd).
  - rewrite Hroom, Hs. intros Hrm x Hx. eapply readable_same; [done| | |by apply (d_kept c Hd)].
    + by apply (g_held _ _ Hg), Hroom.
    + intros tt. apply (g_disk _ _ Hg).
  - rewrite Hroom. intros Hrm. destruct p' as [ | | | | | | | | | | | | | | | | |hot q m [|]| | ]; simpl in *; try done;
      try (rewrite Hs; by apply Ho); rewrite ?Hf, ?Hs; unfold held; try setoid_rewrite Hv; by apply Ho.
  - rewrite Hroom, Hr. intros Hrm r [H|H]%in_app_or; [by left|right].
    eapply reply_ok_grows; [exact Hg|]. by apply (proj1 (List.Forall_forall _ _) (Hl Hrm)).
Qed.

Lemma view_set_cell s s' id x y :
  cells s !! id = Some x -> symbol_of y = symbol_of x -> ring y = ring x -> cells s' = <[id := y]> (cells s) ->
  forall i, view s' i = view s i.
Proof.
  intros Hx H1 H2 Hc i. unfold view. rewrite Hc. destruct (decide (i = id)) as [->|Hn].
  - rewrite list_lookup_insert_eq by (by eapply lookup_lt_Some). rewrite Hx. simpl. by rewrite H1, H2.
  - by rewrite list_lookup_insert_ne.
Qed.

(** ** The steps that move candles *)

(** [buf_guard.push(candle)] on a live entry. *)
Lemma data_push c t id j x rb s' :
  inv c -> data c -> pc_of c t = Checked id j -> cells (sh c) !! id = Some x ->
  RingBuffer.contents rb = lastn (LruCache.ring_capacity cfg) (RingBuffer.contents (ring x) ++ [j_candle j]) ->
  table s' = table (sh c) -> cells s' = <[id := set_lock (set_ring x rb) None]> (cells (sh c)) ->
  files s' = files (sh c) -> replies s' = replies (sh c) -> stored s' = stored (sh c) ++ [(j_sym j, j_candle j)] ->
  data (put c s' t (Publish j)).
Proof.
  intros Hi Hd Hp Hx Hrb Ht Hc Hf Hr Hs. pose proof (i_knows _ c Hi t) as Hk. rewrite Hp in Hk.
  destruct Hk as (x' & Hx' & Hsym & Hrm). simplify_eq. set (cs := RingBuffer.contents (ring x)) in *.
  assert (Hjob : is_i64 (ts (j_candle j))) by (apply (d_jobs c Hd t); by rewrite Hp).
  assert (Hold : view (sh c) id = Some (j_sym j, cs)) by (unfold view; rewrite Hx; simpl; by rewrite Hsym).
  assert (Hnew : view s' id = Some (j_sym j, lastn (LruCache.ring_capacity cfg) (cs ++ [j_candle j]))).
  { unfold view. rewrite Hc, list_lookup_insert_eq by (by eapply lookup_lt_Some). simpl. by rewrite Hsym, Hrb. }
  assert (Hoth : forall i, i <> id -> view s' i = view (sh c) i).
  { intros i Hn. unfold view. by rewrite Hc, list_lookup_insert_ne. }
  destruct (cells_ok_in _ _ _ _ (d_cells c Hd) Hold) as [Hlen Hin].
  assert (Hall : j_sym j = watched -> room s' -> lastn (LruCache.ring_capacity cfg) (cs ++ [j_candle j]) = cs ++ [j_candle j]).
  { intros Hj Hrm'. apply lastn_all. rewrite length_app. simpl. unfold room in Hrm'.
    rewrite <- Hj, Hs, of_sym_snoc_eq in Hrm'. lia. }
  assert (Hg : grows (sh c) s').
  { split; rewrite ?Hf; [by eexists|done|done| |].
    - intros Hrm' i y (cy & Hv & Hy). destruct (decide (i = id)) as [->|Hn].
      + rewrite Hold in Hv. injection Hv as Hj <-. exists (cs ++ [j_candle j]).
        rewrite Hnew, (Hall Hj Hrm'), Hj. split; [done|]. apply in_or_app. auto.
      + exists cy. by rewrite Hoth.
    - intros i y Hy Hyr. destruct (decide (i = id)) as [->|Hn]; [congruence|]. by apply Hoth. }
  apply data_step; try done.
  - intros i sy cy Hv. destruct (decide (i = id)) as [->|Hn].
    + rewrite Hnew in Hv. injection Hv as <- <-. rewrite (pushed_snoc _ _ _ _ _ Hs), decide_True by done.
      etransitivity; [apply sublist_drop|]. apply sublist_app; [by apply (d_cells c Hd id)|done].
    + rewrite Hoth in Hv by done. rewrite (pushed_snoc _ _ _ _ _ Hs). apply (d_cells c Hd) in Hv. case_decide; [by apply sublist_inserts_r|done].
  - rewrite Hs. intros p [Hpin|[<-|[]]]%in_app_or; [by apply (d_i64 c Hd)|done].
  - simpl. intros ? [= <-]. done.
  - intros Hrm' y Hy. rewrite Hs in Hy. apply in_app_or in Hy as [Hy|[[= Hj <-]|[]]].
    + eapply readable_same; [done|by apply Hg|by apply Hg|]. apply (d_kept c Hd); [by eapply grows_room|done].
    + left. exists id. split; [rewrite Ht, <- Hj, <- Hsym; by apply (i_live _ c Hi)|]. exists (cs ++ [j_candle j]).
      rewrite Hnew, Hall, Hj by done. split; [done|]. apply in_or_app. right. by left.
  - intros _. simpl. rewrite Hs. apply in_or_app. right. by left.
  - rewrite Hr. by left.
Qed.

(** [g.insert(symbol, ..)] of a new entry. *)
Lemma data_insert c t j rb s' :
  inv c -> data c -> pc_of c t = Inserting j ->
  RingBuffer.contents rb = [j_candle j] ->
  table s' = <[j_sym j := length (cells (sh c))]> (table (sh c)) ->
  cells s' = cells (sh c) ++ [mkCell (j_sym j) rb (j_tick j) false None] ->
  files s' = files (sh c) -> replies s' = replies (sh c) -> stored s' = stored (sh c) ++ [(j_sym j, j_candle j)] ->
  data (put c s' t (Publish j)).
Proof.
  intros Hi Hd Hp Hrb Ht Hc Hf Hr Hs. pose proof (i_knows _ c Hi t) as Hk. rewrite Hp in Hk. destruct Hk as [Hnone _].
  assert (Hjob : is_i64 (ts (j_candle j))) by (apply (d_jobs c Hd t); by rewrite Hp).
  assert (Hold : forall i v, view (sh c) i = Some v -> view s' i = Some v).
  { intros i v. unfold view. intros (x & Hx & ->)%fmap_Some. rewrite Hc. apply fmap_Some. exists x. split; [|done].
    by apply lookup_app_l_Some. }
  assert (Hnew : view s' (length (cells (sh c))) = Some (j_sym j, [j_candle j])).
  { unfold view. rewrite Hc, lookup_app_r, Nat.sub_diag by done. simpl. by rewrite Hrb. }
  assert (Hview : forall i v, view s' i = Some v -> view (sh c) i = Some v \/ v = (j_sym j, [j_candle j])).
  { intros i v. unfold view. rewrite Hc. intros (x & [Hx|[_ Hx]]%lookup_app_Some & ->)%fmap_Some.
    - left. by rewrite Hx.
    - right. apply list_lookup_singleton_Some in Hx as [_ <-]. simpl. by rewrite Hrb. }
  assert (Hheld : forall i x, held (sh c) i x -> held s' i x).
  { intros i x (cy & Hv & Hx). exists cy. auto. }
  assert (Hg : grows (sh c) s').
  { split; rewrite ?Hf; [by eexists|done|done|by auto|]. intros i x Hx _.
    transitivity (Some (symbol_of x, RingBuffer.contents (ring x))); [apply Hold|symmetry]; unfold view; by rewrite Hx. }
  apply data_step; try done.
  - intros i sy cy [Hv|[= -> ->]]%Hview; rewrite (pushed_snoc _ _ _ _ _ Hs).
    + apply (d_cells c Hd) in Hv. case_decide; [by apply sublist_inserts_r|done].
    + rewrite decide_True by done. by apply sublist_inserts_l.
  - rewrite Hs. intros p [Hpin|[<-|[]]]%in_app_or; [by apply (d_i64 c Hd)|done].
  - simpl. intros ? [= <-]. done.
  - intros Hrm' y Hy. rewrite Hs in Hy. apply in_app_or in Hy as [Hy|[[= Hj <-]|[]]].
    + destruct (d_kept c Hd (grows_room _ _ Hg Hrm') y Hy) as [(i & H1 & H2)|H]; [|right; by rewrite Hf].
      left. exists i. rewrite Ht, lookup_insert_ne by congruence. auto.
    + left. eexists. rewrite Ht, Hj, lookup_insert_eq. split; [done|]. exists [j_candle j]. rewrite Hnew, Hj. split; [done|by left].
  - intros _. simpl. rewrite Hs. apply in_or_app. right. by left.
  - rewrite Hr. by left.
Qed.

(** [g.remove(&key)] after a spill. *)
Lemma data_remove c t key id j s' :
  inv c -> data c -> pc_of c t = Removing key id j ->
  table s' = delete key (table (sh c)) -> cells s' = cells (sh c) ->
  files s' = files (sh c) -> replies s' = replies (sh c) -> stored s' = stored (sh c) ->
  data (put c s' t (Inserting j)).
Proof.
  intros Hi Hd Hp Ht Hc Hf Hr Hs. pose proof (i_knows _ c Hi t) as Hk. rewrite Hp in Hk. destruct Hk as (K1 & _ & _).
  assert (Hv : forall i, view s' i = view (sh c) i) by (intros i; unfold view; by rewrite Hc).
  pose proof (grows_same (sh c) s' Hv Hf Hs) as Hg.
  apply data_step; try done.
  - intros i sy cy. unfold pushed. rewrite Hv, Hs. apply (d_cells c Hd).
  - rewrite Hs. apply (d_i64 c Hd).
  - simpl. intros ? [= <-]. apply (d_jobs c Hd t). by rewrite Hp.
  - intros Hrm y. rewrite Hs. intros Hy. pose proof (grows_room _ _ Hg Hrm) as Hrm0.
    destruct (d_kept c Hd Hrm0 y Hy) as [(i & H1 & H2)|H]; [|right; by rewrite Hf].
    destruct (decide (key = watched)) as [E|Hn].
    + right. rewrite Hf. assert (i = id) as -> by congruence. pose proof (d_owed c Hd Hrm0 t) as Ho. rewrite Hp in Ho. by apply Ho.
    + left. exists i. rewrite Ht, lookup_delete_ne by done. split; [done|]. by apply (g_held _ _ Hg).
  - rewrite Hr. by left.
Qed.

(** [parquet::spill], failed or not, and what a success leaves on disk. *)
Lemma data_spill c t key id cs j f s' p' d' r :
  inv c -> data c -> pc_of c t = Spilling key id cs j ->
  spill f (files (sh c)) dir key cs = (d', r) ->
  table s' = table (sh c) -> cells s' = cells (sh c) ->
  files s' = d' -> replies s' = replies (sh c) -> stored s' = stored (sh c) ->
  (r = Ok tt /\ p' = Removing key id j \/ exists n e, p' = Clearing key id n e j) ->
  data (put c s' t p').
Proof.
  intros Hi Hd Hp Hsp Ht Hc Hf Hr Hs Hcase. pose proof (i_knows _ c Hi t) as Hk. rewrite Hp in Hk.
  destruct Hk as (K1 & _ & x & Hx & Hrm & Hcs). destruct (i_table _ c Hi _ _ K1) as (x' & Hx' & Hsym). simplify_eq.
  assert (Hjob : is_i64 (ts (j_candle j))) by (apply (d_jobs c Hd t); by rewrite Hp).
  set (cs := RingBuffer.contents (ring x)) in *.
  assert (Hv : forall i, view s' i = view (sh c) i) by (intros i; unfold view; by rewrite Hc).
  assert (Hvx : view (sh c) id = Some (symbol_of x, cs)) by (unfold view; by rewrite Hx).
  assert (Hg : grows (sh c) s').
  { split; [exists []; by rewrite app_nil_r| | | |by intros; apply Hv].
    - intros sy y H. apply (spill_keeps_filed f _ _ (symbol_of x) cs) in H. by rewrite Hsp in H.
    - intros sy y H. apply (spill_keeps_on_disk f _ _ (symbol_of x) cs) in H. by rewrite Hsp in H.
    - intros _ i y. unfold held. by rewrite Hv. }
  apply data_step; try done.
  - intros i sy cy. unfold pushed. rewrite Hv, Hs. apply (d_cells c Hd).
  - rewrite Hs. apply (d_i64 c Hd).
  - intros j' Hj'. destruct Hcase as [[_ ->]|(n & e & ->)]; by injection Hj' as <-.
  - intros Hrm' y. rewrite Hs. intros Hy. eapply readable_same; [done|by apply Hg|by apply Hg|].
    apply (d_kept c Hd); [by eapply grows_room|done].
  - intros _. destruct Hcase as [[-> ->]|(n & e & ->)]; [|done]. intros E y (cy & Hv' & Hy).
    rewrite Hv, Hvx in Hv'. injection Hv' as _ <-. rewrite <- E. destruct (cells_ok_in _ _ _ _ (d_cells c Hd) Hvx) as [_ Hin].
    eapply spill_filed; [exact Hsp| |done]. apply List.Forall_forall. intros z Hz. by apply (d_i64 c Hd (symbol_of x, z)), Hin.
  - rewrite Hr. by left.
Qed.

(** ** Every step keeps the data *)

Lemma init_data (d : disk) : data (init d).
Proof. by split. Qed.

Lemma quiet_pc c t s' p' :
  inv c -> data c ->
  table s' = table (sh c) -> (forall id, view s' id = view (sh c) id) -> files s' = files (sh c) ->
  stored s' = stored (sh c) -> replies s' = replies (sh c) ->
  (forall j, job_of p' = Some j -> job_of (pc_of c t) = Some j) ->
  (room (sh c) -> owed (sh c) p') -> data (put c s' t p').
Proof.
  intros Hi Hd ? ? ? ? Hr Hj Ho. apply (data_quiet c t s' p' []); rewrite ?app_nil_r; try done.
  intros j Hp%Hj. by apply (d_jobs c Hd t).
Qed.

(** What a query owes when it has found its symbol's entry, or none. *)
Lemma owed_lookup c q :
  data c -> room (sh c) ->
  owed (sh c) (match table (sh c) !! q_sym q with
               | Some id => RHot id q (stored (sh c))
               | None => RCold [] q (stored (sh c)) true
               end).
Proof.
  intros Hd Hr. destruct (table (sh c) !! q_sym q) as [id|] eqn:Et; simpl.
  - intros E x Hx. destruct (d_kept c Hd Hr _ Hx) as [(i & H1 & H2)|H]; [|by right]. left. congruence.
  - split; [constructor|]. intros E. split; [done|]. intros x Hx _. destruct (d_kept c Hd Hr _ Hx) as [(i & H1 & H2)|H]; [congruence|by right].
Qed.

(** Reading the ring turns a held candle into one of the result. *)
Lemma owed_hot s id q m x hot :
  cells s !! id = Some x -> RingBuffer.wf (ring x) ->
  RingBuffer.range (ring x) (q_from q) (q_to q) = Some hot -> owed s (RHot id q m) ->
  cells_ok s -> symbol_of x = q_sym q ->
  owed s (RCold hot q m (in_order (RingBuffer.contents (ring x)))).
Proof.
  intros Hx Hwf Hhot Ho Hok Hsym. destruct (in_order _) eqn:Eo; [|done]. apply in_order_sorted in Eo.
  rewrite RingBuffer.range_sorted in Hhot by done. injection Hhot as <-. split.
  - apply sorted_filter, StoreCold.ts_sorted_strongly, Eo.
  - intros E. assert (Hvx : view s id = Some (watched, RingBuffer.contents (ring x))) by (unfold view; rewrite Hx; cbn; by rewrite Hsym, E).
    split.
    { intros h Hh. apply list_elem_of_In, list_elem_of_filter in Hh as [Hw Hh%list_elem_of_In]. split; [|exact Hw].
      by apply (proj2 (cells_ok_in _ _ _ _ Hok Hvx)). }
    intros c Hc Hw. destruct (Ho E c Hc) as [(cy & Hv & Hin)|H]; [|by right]. left.
    unfold view in Hv. rewrite Hx in Hv. injection Hv as _ <-.
    apply list_elem_of_In, list_elem_of_filter. split; [exact Hw|]. by apply list_elem_of_In.
Qed.

(** The merge of both tiers loses no timestamp and adds nothing. *)
Lemma merged_reply s q hot m :
  owed s (RCold hot q m true) ->
  reply_ok s (RRange q (let cold := query_cold (files s) dir (q_sym q) (q_from q) (q_to q) in
                        match cold, hot with
                        | [], _ => hot
                        | _, [] => cold
                        | _, _ => Store.merge_by_ts cold hot
                        end) m true).
Proof.
  intros [Hs Ho] Eq. destruct (Ho Eq) as [Hh Ho']. clear Ho. pose proof (query_sorted (files s) dir (q_sym q) (q_from q) (q_to q)) as Hcs.
  pose proof (fun y => query_window (files s) dir (q_sym q) (q_from q) (q_to q) y) as Hwin.
  pose proof (fun y => query_on_disk (files s) dir (q_sym q) (q_from q) (q_to q) y) as Hdisk.
  set (cold := query_cold (files s) dir (q_sym q) (q_from q) (q_to q)) in *.
  assert (Hall : (forall c, In (watched, c) m -> q_from q <= ts c <= q_to q -> exists x, In x (Store.merge_by_ts cold hot) /\ ts x = ts c) /\
    forall x, In x (Store.merge_by_ts cold hot) -> q_from q <= ts x <= q_to q /\ genuine s x).
  { split.
    - intros c Hc Hw. destruct (Ho' c Hc Hw) as [H|[_ Hrec]]; [exists c; split; [apply StoreCold.merge_in; auto|done]|].
      rewrite <- Eq in Hrec. destruct (Hrec _ _ Hw) as (x & Hx & Hts). fold cold in Hx.
      destruct (decide (Exists (fun h => ts h = ts x) hot)) as [(h & Hin & Hhx)%Exists_exists|Hn].
      + exists h. split; [|congruence]. apply StoreCold.merge_in; [done..|]. left. by apply list_elem_of_In.
      + exists x. split; [|done]. apply StoreCold.merge_in; [done..|]. right. split; [done|]. intros h Hin E.
        apply Hn, Exists_exists. exists h. split; [by apply list_elem_of_In|done].
    - intros x Hx. apply StoreCold.merge_in in Hx as [Hx|[Hx _]]; [| |done|done].
      + destruct (Hh x Hx). split; [done|by left].
      + split; [by apply Hwin|right; rewrite <- Eq; by apply Hdisk]. }
  by destruct cold, hot.
Qed.

Lemma step_data_cell c t f victim s p :
  inv c -> data c ->
  match pc_of c t with
  | Touch _ _ | WantBuf _ _ | HoldBuf _ _ | Checked _ _ | Flagging _ _ _ | Clearing _ _ _ _ _ => True
  | _ => False
  end ->
  step cfg t f victim (sh c) (pc_of c t) = Some (s, p) -> data (put c s t p).
Proof.
  intros Hi Hd Hcase Hst. pose proof (i_knows _ c Hi t) as Hk.
  assert (Hset : forall id x y p', cells (sh c) !! id = Some x -> symbol_of y = symbol_of x -> ring y = ring x ->
    job_of p' = job_of (pc_of c t) -> owed (sh c) p' -> data (put c (set_cell (sh c) id y) t p')).
  { intros id x y p' Hx Hsy Hry Hj Ho. apply quiet_pc; try done; [by eapply view_set_cell|by rewrite Hj]. }
  assert (Hstay : forall p', job_of p' = job_of (pc_of c t) -> owed (sh c) p' -> data (put c (sh c) t p')).
  { intros p' Hj Ho. apply quiet_pc; try done. by rewrite Hj. }
  destruct (pc_of c t) as [ | |id j|id j|id j|id j| | | |key id j| |key id n e j| | | | | | | | ] eqn:Hp; try done; simpl in Hk, Hst.
  - destruct Hk as (x & Hx & Hs). rewrite Hx in Hst. injection Hst as <- <-. by eapply Hset.
  - destruct Hk as (x & Hx & Hs). rewrite Hx in Hst. simpl in Hst. destruct (lock x); injection Hst as <- <-; [by apply Hstay|by eapply Hset].
  - destruct Hk as (x & Hx & Hs). rewrite Hx in Hst. simpl in Hst. destruct (removed x); injection Hst as <- <-; [by eapply Hset|by apply Hstay].
  - destruct Hk as (x & Hx & Hs & Hr). rewrite Hx in Hst. cbn [mbind option_bind] in Hst.
    destruct (next_ring cfg x (j_candle j) (known_ring _ _ _ _ Hi Hx)) as (rb & o & E & _ & Hrb). rewrite E in Hst.
    injection Hst as <- <-. eapply (data_push c t id j x rb); try done; by destruct o.
  - destruct Hk as (K1 & K2). destruct (i_table _ c Hi _ _ K1) as (x & Hx & Hs). rewrite Hx in Hst. cbn [mbind option_bind] in Hst.
    destruct (lock x); [injection Hst as <- <-; by apply Hstay|].
    rewrite RingBuffer.to_vec_contents in Hst by apply (known_ring _ _ _ _ Hi Hx). injection Hst as <- <-. by eapply Hset.
  - destruct Hk as (K1 & K2 & x & Hx & Hr). rewrite K1, Hx in Hst. injection Hst as <- <-. by eapply Hset.
Qed.

Lemma step_data_other c t f victim s p :
  inv c -> data c ->
  match pc_of c t with
  | Touch _ _ | WantBuf _ _ | HoldBuf _ _ | Checked _ _ | Flagging _ _ _ | Clearing _ _ _ _ _ => False
  | _ => True
  end ->
  step cfg t f victim (sh c) (pc_of c t) = Some (s, p) -> data (put c s t p).
Proof.
  intros Hi Hd Hcase Hst. pose proof (i_knows _ c Hi t) as Hk.
  assert (Hown : room (sh c) -> owed (sh c) (pc_of c t)) by (intros Hr; by apply (d_owed c Hd)).
  assert (Hans : forall s' r, table s' = table (sh c) -> cells s' = cells (sh c) -> files s' = files (sh c) -> stored s' = stored (sh c) ->
    replies s' = replies (sh c) ++ [r] -> (room (sh c) -> reply_ok (sh c) r) -> data (put c s' t Idle)).
  { intros s' r E1 E2 E3 E4 E5 Hr. apply (data_quiet c t s' Idle [r]); try done; [by intros id; unfold view; rewrite E2|].
    intros Hrm. apply Forall_singleton. auto. }
  assert (Hstay : forall s' p', table s' = table (sh c) -> cells s' = cells (sh c) -> files s' = files (sh c) -> stored s' = stored (sh c) ->
    replies s' = replies (sh c) -> (forall j, job_of p' = Some j -> job_of (pc_of c t) = Some j) -> (room (sh c) -> owed (sh c) p') ->
    data (put c s' t p')).
  { intros s' p' E1 E2 E3 E4 E5 Hj Ho. apply quiet_pc; try done. intros id. unfold view. by rewrite E2. }
  destruct (pc_of c t) as [ |j| | | | |j|j|j| |key id cs j| |key n e j|key id j|j|q|id q m|hot q m b| |v n] eqn:Hp; try done; cbn [step] in Hst; simpl in Hk.
  - injection Hst as <- <-. by apply Hstay.
  - destruct (outer (sh c)); injection Hst as <- <-; apply Hstay; try done; by destruct (table (sh c) !! j_sym j).
  - injection Hst as <- <-. by eapply Hans.
  - destruct (outer (sh c)); injection Hst as <- <-; by apply Hstay.
  - destruct (table (sh c) !! j_sym j); [injection Hst as <- <-; by apply Hstay|].
    destruct (LruCache.max_symbols cfg <=? _); [|injection Hst as <- <-; by apply Hstay].
    destruct (decide (table (sh c) = ∅)); [injection Hst as <- <-; by apply Hstay|].
    destruct (table (sh c) !! victim); injection Hst as <- <-; by apply Hstay.
  - rewrite Hdir in Hst. destruct cs as [|c0 cs].
    + injection Hst as <- <-. apply Hstay; try done. intros _ _ y (cy & Hv & Hy). destruct Hk as (_ & _ & x & Hx & _ & Hcs).
      unfold view in Hv. rewrite Hx in Hv. simpl in Hv. rewrite Hcs in Hv. by injection Hv as _ <-.
    + destruct (spill f (files (sh c)) dir key (c0 :: cs)) as [d' [[]|e]] eqn:Esp; injection Hst as <- <-;
        (eapply data_spill; [done|done|exact Hp|exact Esp|done..|]); [by left|right; eauto].
  - injection Hst as <- <-. by eapply Hans.
  - injection Hst as <- <-. by eapply data_remove.
  - destruct (first_ring cfg Hcap j) as (rb & o & E & _ & Hrb). rewrite E in Hst. cbn [mbind option_bind] in Hst.
    injection Hst as <- <-. by eapply data_insert.
  - destruct (outer (sh c)); injection Hst as <- <-; apply Hstay; try done; [by destruct (table (sh c) !! q_sym q)|].
    intros Hr. by apply owed_lookup.
  - destruct Hk as (x & Hx & Hs). rewrite Hx in Hst. cbn [mbind option_bind] in Hst.
    destruct (lock x); [injection Hst as <- <-; by apply Hstay|].
    destruct (RingBuffer.range (ring x) (q_from q) (q_to q)) as [hot|] eqn:Eh; [|done]. injection Hst as <- <-. apply Hstay; try done.
    intros Hr. eapply owed_hot; [done|by apply (known_ring _ _ _ _ Hi Hx)|done|by apply Hown|by apply (d_cells c Hd)|done].
  - rewrite Hdir in Hst. injection Hst as <- <-. eapply Hans; try done. intros Hr. destruct b; [|done].
    apply (merged_reply (sh c) q hot m). by apply Hown.
  - injection Hst as <- <-. by eapply Hans.
  - injection Hst as <- <-. by eapply Hans.
Qed.

(** The calls of a schedule bring machine timestamps. *)
Definition i64_event (e : @event faults) : Prop :=
  match e with Start _ (TryAppend _ c) => is_i64 (ts c) | _ => True end.

Lemma start_data c t o s p :
  inv c -> data c -> pc_of c t = Idle -> i64_event (Start t o) -> start (sh c) o = (s, p) -> data (put c s t p).
Proof.
  intros Hi Hd Ht Hev H.
  destruct o as [sym cd| | | ]; simpl in H, Hev; [destruct (is_valid cd)|..]; injection H as <- <-;
    first [apply (data_quiet c t _ _ []); rewrite ?app_nil_r; try done; by intros ? [= <-]
          |eapply (data_quiet c t); try done; by intros; repeat constructor].
Qed.

Lemma fire_data c e c' : inv c -> data c -> i64_event e -> fire cfg c e = Some c' -> data c'.
Proof.
  intros Hi Hd Hev Hf. destruct e as [t o|t f victim]; cbn [fire] in Hf.
  - destruct (pc_of c t) eqn:Hp; try by injection Hf as <-. destruct (start (sh c) o) as [s p] eqn:E.
    injection Hf as <-. by eapply start_data.
  - destruct (step cfg t f victim (sh c) (pc_of c t)) as [[s p]|] eqn:E; [|done]. injection Hf as <-.
    change (data (put c s t p)).
    destruct (pc_of c t) eqn:Hp; rewrite <- Hp in E;
      first [eapply step_data_cell; [done..| |exact E]; by rewrite Hp | eapply step_data_other; [done..| |exact E]; by rewrite Hp].
Qed.

Lemma run_data c es c' : inv c -> data c -> Forall i64_event es -> run cfg c es = Some c' -> inv c' /\ data c'.
Proof.
  intros Hi Hd Hes. revert c Hi Hd. induction Hes as [|e es He Hes IH]; intros c Hi Hd Hrun; [by injection Hrun as <-|].
  cbn [run] in Hrun. destruct (fire_inv cfg Hcap c e Hi) as (c1 & E & Hi1). rewrite E in Hrun.
  cbn [mbind option_bind] in Hrun. apply (IH c1); [done|exact (fire_data _ _ _ Hi Hd He E)|done].
Qed.

End safe.

(** ** Any cold tier *)

Section claims.
Context {disk faults : Type} `{!ColdStorage disk faults} `{!ColdStorageLaws disk faults} `{!ColdFiles disk faults}.
Context (cfg : LruCache.config) (dir : string).
Hypothesis Hcap : (0 < LruCache.ring_capacity cfg)%nat.
Hypothesis Hdir : LruCache.data_dir cfg = Some dir.

Lemma run_kept (d : disk) (es : list (@event faults)) c sym :
  Forall i64_event es -> run cfg (init d) es = Some c -> data cfg dir sym c.
Proof. intros Hes Hrun. by apply (run_data cfg dir sym Hcap Hdir _ _ _ (conc_init_inv cfg d) (init_data cfg dir sym d) Hes Hrun). Qed.

(** What every interleaving keeps, against the interface of the cold tier. *)
Lemma conc_no_loss (d : disk) (es : list (@event faults)) :
  Forall i64_event es ->
  exists c, run cfg (init d) es = Some c /\
    forall sym, room cfg sym (sh c) ->
      (forall x, In (RAppend sym x (Ok tt)) (replies (sh c)) -> In (sym, x) (stored (sh c))) /\
      forall x, In (sym, x) (stored (sh c)) ->
        (exists id cell, table (sh c) !! sym = Some id /\ cells (sh c) !! id = Some cell /\
           symbol_of cell = sym /\ In x (RingBuffer.contents (ring cell))) \/
        on_disk (files (sh c)) dir sym x /\
        forall from_ts to_ts, from_ts <= ts x <= to_ts ->
          (exists y, In y (query_cold (files (sh c)) dir sym from_ts to_ts) /\ ts y = ts x) /\
          ((forall y, on_disk (files (sh c)) dir sym y -> ts y = ts x -> y = x) ->
             In x (query_cold (files (sh c)) dir sym from_ts to_ts)).
Proof.
  intros Hes. destruct (conc_run_inv cfg Hcap (init d) es (conc_init_inv cfg d)) as (c & Hrun & _).
  exists c. split; [done|]. intros sym Hr. pose proof (run_kept d es c sym Hes Hrun) as Hd. split.
  { intros x Hin. exact (d_replies _ _ _ c Hd Hr _ Hin). }
  intros x Hin. destruct (d_kept _ _ _ c Hd Hr x Hin) as [(id & Ht & cs & Hv & Hx)|Hf].
  - left. unfold view in Hv. apply fmap_Some in Hv as (cell & Hc & [= E ->]). by exists id, cell.
  - right. split; [apply Hf|]. intros from_ts to_ts Hw. split; [by apply Hf|]. intros Hu. by apply filed_answered.
Qed.

(** What a query beside them answers. *)
Lemma conc_range_complete (d : disk) (es : list (@event faults)) c q out must :
  Forall i64_event es -> run cfg (init d) es = Some c -> room cfg (q_sym q) (sh c) ->
  In (RRange q out must true) (replies (sh c)) ->
  (forall x, In (q_sym q, x) must -> q_from q <= ts x <= q_to q ->
     (exists y, In y out /\ ts y = ts x) /\
     ((forall y, genuine dir (q_sym q) (sh c) y -> ts y = ts x -> y = x) -> In x out)) /\
  (forall y, In y out -> q_from q <= ts y <= q_to q /\ genuine dir (q_sym q) (sh c) y).
Proof.
  intros Hes Hrun Hr Hin. destruct (d_replies _ _ _ c (run_kept d es c (q_sym q) Hes Hrun) Hr _ Hin eq_refl) as [H1 H2].
  split; [|done]. intros x Hx Hw. destruct (H1 x Hx Hw) as (y & Hy & Ht). split; [by exists y|].
  intros Hu. rewrite <- (Hu y); [done|by apply H2|done].
Qed.

End claims.

(** ** Claims: the store over the Parquet files *)

Section parquet.
#[local] Existing Instances Parquet.parquet_cold Parquet.parquet_laws Parquet.parquet_files.
Context {bytes : Type} `{!Parquet.Codec bytes} `{!Parquet.CodecLaws bytes}.
Context (cfg : LruCache.config) (dir : string).
Hypothesis Hcap : (0 < LruCache.ring_capacity cfg)%nat.
Hypothesis Hdir : LruCache.data_dir cfg = Some dir.

(** C4. No interleaving loses a candle.  Whatever calls any number of threads
    make on a fresh store with cold storage, in whatever order their steps
    interleave, whichever entries the eviction scan picks and whichever
    spills fail: no step panics, and for every symbol that received no more
    candles than a ring holds, however many the others received, every candle
    that was pushed into a ring (in particular every one whose append returned
    [Ok]) is kept with all its values, in the ring of the entry the table has
    for its symbol or as a row of a readable Parquet file of the symbol
    ([Parquet.holds]).  In the second case [query_cold] answers for its
    timestamp, with that very candle unless a different one of the same
    timestamp is in the symbol's files too. *)
Theorem store_conc_no_loss (d : Parquet.disk bytes) (es : list (@event (@Parquet.faults bytes))) :
  Forall i64_event es ->
  exists c, run cfg (init d) es = Some c /\
    forall sym, room cfg sym (sh c) ->
      (forall x, In (RAppend sym x (Ok tt)) (replies (sh c)) -> In (sym, x) (stored (sh c))) /\
      forall x, In (sym, x) (stored (sh c)) ->
        (exists id cell, table (sh c) !! sym = Some id /\ cells (sh c) !! id = Some cell /\
           symbol_of cell = sym /\ In x (RingBuffer.contents (ring cell))) \/
        Parquet.holds (files (sh c)) dir sym x /\
        forall from_ts to_ts, from_ts <= ts x <= to_ts ->
          exists out, Parquet.query_cold (files (sh c)) dir sym from_ts to_ts = Some out /\
            (exists y, In y out /\ ts y = ts x) /\
            ((forall y, Parquet.holds (files (sh c)) dir sym y -> ts y = ts x -> y = x) -> In x out).
Proof.
  intros Hes. destruct (conc_no_loss cfg dir Hcap Hdir d es Hes) as (c & Hrun & Hkept). exists c. split; [done|].
  intros sym Hr. destruct (Hkept sym Hr) as [H1 H2]. split; [done|]. intros x Hx. destruct (H2 x Hx) as [Hh|[Hf Hq]]; [by left|right].
  split; [exact Hf|]. intros from_ts to_ts Hw. specialize (Hq from_ts to_ts Hw). cbn in Hq.
  destruct (Parquet.query_cold_spec (files (sh c)) dir sym from_ts to_ts) as (out & E & _). rewrite E in *. by exists out.
Qed.

(** C6. A range query that runs beside appends and evictions, for a symbol that
    received no more candles than a ring holds and provided the ring it read
    was in time order, misses nothing that was stored for its symbol when it
    looked the symbol up: for every such candle in its window it returns a
    candle with that timestamp, also when the entry was evicted between the
    lookup and the read.  It makes nothing up either: every candle it returns
    is in the window and was pushed for the symbol or is a row of one of its
    files; so a candle whose timestamp no other such candle has is returned itself. *)
Theorem store_conc_range_complete (d : Parquet.disk bytes) (es : list (@event (@Parquet.faults bytes))) c q out must :
  Forall i64_event es -> run cfg (init d) es = Some c -> room cfg (q_sym q) (sh c) ->
  In (RRange q out must true) (replies (sh c)) ->
  let known y := In (q_sym q, y) (stored (sh c)) \/ Parquet.holds (files (sh c)) dir (q_sym q) y in
  (forall x, In (q_sym q, x) must -> q_from q <= ts x <= q_to q ->
     (exists y, In y out /\ ts y = ts x) /\ ((forall y, known y -> ts y = ts x -> y = x) -> In x out)) /\
  (forall y, In y out -> q_from q <= ts y <= q_to q /\ known y).
Proof. intros Hes Hrun Hr Hin known. exact (conc_range_complete cfg dir Hcap Hdir d es c q out must Hes Hrun Hr Hin). Qed.

End parquet.

(** ** A schedule in which an eviction overtakes an append and a query *)

Section race.
#[local] Existing Instance Parquet.plain_codec.
#[local] Existing Instance Parquet.plain_codec_laws.
#[local] Existing Instance Parquet.parquet_cold.
#[local] Existing Instance Parquet.parquet_laws.
#[local] Existing Instance Parquet.parquet_files.

Abbreviation cd := StoreSpec.cd.
Abbreviation ev := (@event (@Parquet.faults Parquet.plain_bytes)).

Definition one_slot : LruCache.config := LruCache.mkConfig 1 4 (Some "data"%string).

Definition steps (t n : nat) (victim : string) : list ev := repeat (Step t Parquet.NoFault victim) n.

(** Thread 0 inserts A.  Thread 1 (a second append to A) and thread 3 (a
    query of A) look A up; thread 2 then evicts A to insert B, with thread 1
    reaching the ring's lock after the flag is set.  Thread 1 goes through
    the slow path and evicts B in turn; thread 4 queries A at the end. *)
Definition race : list ev :=
  (Start 0 (TryAppend "A" (cd 1)) :: steps 0 5 "" ++
  Start 1 (TryAppend "A" (cd 2)) :: steps 1 2 "" ++
  Start 3 (Range "A" 0 10) :: steps 3 1 "" ++
  Start 2 (TryAppend "B" (cd 5)) :: steps 2 4 "A" ++
  steps 1 2 "" ++ steps 2 4 "A" ++ steps 3 2 "" ++ steps 1 7 "B" ++
  Start 4 (Range "A" 0 10) :: steps 4 3 "")%string.

Definition race_end : (list (string * Candle) * list reply) :=
  ([("A", cd 1); ("B", cd 5); ("A", cd 2)],
   [RAppend "A" (cd 1) (Ok tt); RAppend "B" (cd 5) (Ok tt);
    RRange (mkQuery "A" 0 10) [cd 1] [("A", cd 1)] true; RAppend "A" (cd 2) (Ok tt);
    RRange (mkQuery "A" 0 10) [cd 1; cd 2] [("A", cd 1); ("B", cd 5); ("A", cd 2)] true])%string.

Lemma race_runs :
  (fun c => (stored (sh c), replies (sh c))) <$> run one_slot (init (∅ : StoreCold.parquet_disk)) race = Some race_end.
Proof. vm_compute. reflexivity. Qed.
Lemma race_room (c : @conf StoreCold.parquet_disk) sym :
  stored (sh c) = race_end.1 -> room one_slot sym (sh c).
Proof.
  intros E. unfold room, of_sym. rewrite E. etransitivity; [apply length_filter|]. simpl. lia.
Qed.

Lemma race_i64 : Forall i64_event race.
Proof. repeat constructor; vm_compute; discriminate. Qed.

Lemma store_conc_no_loss_witness :
  exists c, run one_slot (init (∅ : StoreCold.parquet_disk)) race = Some c /\ table (sh c) !! "B"%string = None /\
    Parquet.holds (files (sh c)) "data" "B" (cd 5).
Proof.
  destruct (store_conc_no_loss one_slot "data" ltac:(simpl; lia) eq_refl (∅ : StoreCold.parquet_disk) race race_i64) as (c & Hrun & H).
  pose proof race_runs as E. rewrite Hrun in E. injection E as Es Er.
  assert (Ht : table (sh c) !! "B"%string = None).
  { assert (Hb : (fun c => table (sh c) !! "B"%string) <$> run one_slot (init (∅ : StoreCold.parquet_disk)) race = Some None)
      by (vm_compute; reflexivity). rewrite Hrun in Hb. by injection Hb. }
  exists c. split; [done|]. split; [done|]. destruct (H "B"%string (race_room c _ Es)) as [_ H3].
  destruct (H3 (cd 5)) as [(id & cell & Hx & _)|[Hf _]]; [rewrite Es; simpl; auto|congruence|exact Hf].
Defined.

Lemma store_conc_range_complete_witness :
  exists c out, run one_slot (init (∅ : StoreCold.parquet_disk)) race = Some c /\
    (exists must, In (RRange (mkQuery "A" 0 10) out must true) (replies (sh c))) /\
    (exists y, In y out /\ ts y = 1) /\ exists y, In y out /\ ts y = 2.
Proof.
  pose proof race_runs as E. destruct (run one_slot (init (∅ : StoreCold.parquet_disk)) race) as [c|] eqn:Hrun; [|done].
  injection E as Es Er. exists c, [cd 1; cd 2]. split; [done|].
  assert (Hin : In (RRange (mkQuery "A" 0 10) [cd 1; cd 2] [("A", cd 1); ("B", cd 5); ("A", cd 2)] true)%string (replies (sh c))).
  { rewrite Er. simpl. auto 10. }
  split; [by eexists|].
  destruct (store_conc_range_complete one_slot "data" ltac:(simpl; lia) eq_refl ∅ race c _ _ _ race_i64 Hrun (race_room c _ Es) Hin) as [H _].
  split; [apply (H (cd 1))|apply (H (cd 2))]; simpl; auto; lia.
Defined.
End race.
End StoreConcSafe.
