(* ===== verification/StoreConcLive.v ===== *)
(** * The concurrent store makes progress

    No call on the store waits forever.  A step either waits for a lock, and
    then changes nothing, or moves its thread on; the number of steps that
    move is bounded by a measure of the configuration, and as long as a call
    is in progress some thread can move.  The measure counts two things: how
    many of the calls in progress can still flag an entry for eviction (each
    flags at most once), and how far each thread is from returning if no
    further entry is flagged.  An append that finds its entry flagged starts
    over, so the first component dominates. *)

From S2P Require Import Prelude Float64 Candle RingBuffer Cold Text Parquet Store StoreSpec StoreCold StoreConc StoreConcInv StoreConcSafe.

#[local] Open Scope Z_scope.

Module StoreConcLive.
Import StoreConc StoreConcInv.

(** ** Sums over the first [n] threads *)

Fixpoint total (f : nat -> nat) (n : nat) : nat :=
  match n with O => O | S n' => (total f n' + f n')%nat end.

Lemma total_le f g n : (forall u, (u < n)%nat -> (g u <= f u)%nat) -> (total g n <= total f n)%nat.
Proof. induction n as [|n IH]; intros H; simpl; [done|]. pose proof (H n). specialize (IH ltac:(auto)). lia. Qed.

Lemma total_slack f g n k :
  (forall u, (u < n)%nat -> (g u <= f u + k)%nat) -> (total g n <= total f n + k * n)%nat.
Proof. induction n as [|n IH]; intros H; simpl; [lia|]. pose proof (H n). specialize (IH ltac:(auto)). lia. Qed.

Lemma total_lt f g n t :
  (t < n)%nat -> (forall u, (u < n)%nat -> (g u <= f u)%nat) -> (g t < f t)%nat -> (total g n < total f n)%nat.
Proof.
  induction n as [|n IH]; intros Ht H Hlt; simpl; [lia|]. destruct (decide (t = n)) as [->|Hn].
  - pose proof (total_le f g n ltac:(auto)). lia.
  - specialize (IH ltac:(lia) ltac:(auto) Hlt). pose proof (H n). lia.
Qed.

Lemma total_zero f n u : total f n = O -> (u < n)%nat -> f u = O.
Proof. induction n as [|n IH]; intros H Hu; simpl in H; [lia|]. destruct (decide (u = n)) as [->|]; [lia|]. apply IH; lia. Qed.

Section live.
Context {disk faults : Type} `{!ColdStorage disk faults}.
Context (cfg : LruCache.config).
Hypothesis Hcap : (0 < LruCache.ring_capacity cfg)%nat.
Abbreviation shared := (@shared disk).
Abbreviation conf := (@conf disk).
Abbreviation inv := (inv cfg).

(** ** Waiting *)

Definition locked (s : shared) (id : nat) : bool :=
  match cells s !! id with Some x => bool_decide (is_Some (lock x)) | None => false end.

(** The next step of a thread at [p] only waits; an eviction scan waits for
    the schedule to name an entry of the table. *)
Definition waits (s : shared) (victim : string) (p : pc) : bool :=
  match p with
  | Idle => true
  | Lookup _ | WantOuter _ | RLookup _ => bool_decide (is_Some (outer s))
  | WantBuf id _ | Flagging _ id _ | RHot id _ _ => locked s id
  | HoldOuter j =>
      match table s !! j_sym j with
      | Some _ => false
      | None =>
          if LruCache.max_symbols cfg <=? Z.of_nat (size (table s)) then
            if decide (table s = ∅) then false else bool_decide (table s !! victim = None)
          else false
      end
  | _ => false
  end.

Lemma waits_stays t f victim s p : waits s victim p = true -> step cfg t f victim s p = Some (s, p).
Proof.
  intros Hw. unfold waits, locked in Hw. destruct p; try done; simpl;
    try (by destruct (outer s));
    try (match goal with id : nat |- _ => destruct (cells s !! id) as [x|]; [|done] end;
         cbn [mbind option_bind]; by destruct (lock x)).
  destruct (table s !! j_sym j); [done|]. destruct (_ <=? _); [|done]. destruct (decide (table s = ∅)); [done|].
  apply bool_decide_eq_true in Hw. by rewrite Hw.
Qed.

(** ** The measure *)

Definition dead (s : shared) (id : nat) : bool :=
  match cells s !! id with Some x => removed x | None => false end.

Definition rank (s : shared) (p : pc) : nat :=
  match p with
  | Idle => 0
  | Publish _ | Failing _ _ _ _ | RCold _ _ _ _ | Signalling | Counting _ _ => 1
  | Checked _ _ | Clearing _ _ _ _ _ | Inserting _ | RHot _ _ _ => 2
  | Removing _ _ _ | RLookup _ => 3
  | Spilling _ _ _ _ => 4
  | Flagging _ _ _ => 5
  | HoldOuter _ => 6
  | WantOuter _ => 7
  | HoldBuf id _ => if dead s id then 8 else 3
  | WantBuf id _ => if dead s id then 9 else 4
  | Touch id _ => if dead s id then 10 else 5
  | Lookup _ => 11
  end.

(** Calls that can still flag an entry. *)
Definition may_flag (p : pc) : nat :=
  match p with
  | Lookup _ | Touch _ _ | WantBuf _ _ | HoldBuf _ _ | WantOuter _ | HoldOuter _ | Flagging _ _ _ => 1
  | _ => 0
  end.

Definition measure (n : nat) (c : conf) : nat :=
  (total (fun u => rank (sh c) (pc_of c u)) n + 6 * n * total (fun u => may_flag (pc_of c u)) n)%nat.

Lemma rank_le s s' p : (forall id, dead s' id = true -> dead s id = true) -> (rank s' p <= rank s p)%nat.
Proof.
  intros H. destruct p; simpl; try lia;
    match goal with |- context [dead s' ?i] => specialize (H i); destruct (dead s' i) eqn:E' end;
    try rewrite (H eq_refl); try destruct (dead s id); lia.
Qed.

Lemma rank_slack s s' p : (rank s' p <= rank s p + 5)%nat.
Proof. destruct p; simpl; try lia; destruct (dead s id), (dead s' id); lia. Qed.

(** A step that flags nothing and lowers its thread's rank. *)
Lemma measure_rank n c t s' p' :
  (t < n)%nat -> (forall id, dead s' id = true -> dead (sh c) id = true) ->
  (rank s' p' < rank (sh c) (pc_of c t))%nat -> (may_flag p' <= may_flag (pc_of c t))%nat ->
  (measure n (put c s' t p') < measure n c)%nat.
Proof.
  intros Ht Hd Hr Hf. unfold measure. cbn [put sh].
  assert (H1 : (total (fun u => rank s' (pc_of (put c s' t p') u)) n < total (fun u => rank (sh c) (pc_of c u)) n)%nat).
  { apply (total_lt _ _ n t Ht); [intros u Hu|]; cbn beta; rewrite pc_of_put; case_decide; subst; try done; [lia|by apply rank_le]. }
  assert (H2 : (total (fun u => may_flag (pc_of (put c s' t p') u)) n <= total (fun u => may_flag (pc_of c u)) n)%nat).
  { apply total_le. intros u Hu. rewrite pc_of_put. case_decide; subst; done. }
  nia.
Qed.

(** The step that flags. *)
Lemma measure_flag n c t s' p' :
  (t < n)%nat -> may_flag (pc_of c t) = 1%nat -> may_flag p' = 0%nat -> (rank s' p' <= rank (sh c) (pc_of c t) + 5)%nat ->
  (measure n (put c s' t p') < measure n c)%nat.
Proof.
  intros Ht Hf Hf' Hr. unfold measure. cbn [put sh].
  assert (H1 : (total (fun u => rank s' (pc_of (put c s' t p') u)) n <= total (fun u => rank (sh c) (pc_of c u)) n + 5 * n)%nat).
  { apply total_slack. intros u Hu. rewrite pc_of_put. case_decide; subst; [done|apply rank_slack]. }
  assert (H2 : (total (fun u => may_flag (pc_of (put c s' t p') u)) n < total (fun u => may_flag (pc_of c u)) n)%nat).
  { apply (total_lt _ _ n t Ht); [intros u Hu|]; cbn beta; rewrite pc_of_put; case_decide; subst; try done; lia. }
  nia.
Qed.

(** ** A step that does not wait lowers the measure *)

Lemma dead_set s s' id x y :
  cells s !! id = Some x -> (removed y = true -> removed x = true) -> cells s' = <[id := y]> (cells s) ->
  forall i, dead s' i = true -> dead s i = true.
Proof.
  intros Hx Hr Hc i. unfold dead. rewrite Hc. destruct (decide (i = id)) as [->|Hn].
  - rewrite list_lookup_insert_eq by (by eapply lookup_lt_Some). by rewrite Hx.
  - by rewrite list_lookup_insert_ne.
Qed.

Lemma dead_at s s' id x y :
  cells s !! id = Some x -> cells s' = <[id := y]> (cells s) -> removed y = removed x -> dead s' id = dead s id.
Proof.
  intros Hx Hc Hr. unfold dead. rewrite Hc, list_lookup_insert_eq by (by eapply lookup_lt_Some). by rewrite Hx.
Qed.

Lemma dead_app s s' y :
  removed y = false -> cells s' = cells s ++ [y] -> forall i, dead s' i = true -> dead s i = true.
Proof.
  intros Hy Hc i. unfold dead. rewrite Hc. destruct (cells s !! i) as [x|] eqn:E.
  - by rewrite (lookup_app_l_Some _ _ _ _ E).
  - destruct ((cells s ++ [y]) !! i) as [z|] eqn:E'; [|done]. apply lookup_app_Some in E' as [E'|[_ E']]; [congruence|].
    apply list_lookup_singleton_Some in E' as [_ <-]. congruence.
Qed.

(** An entry of the table is live while no eviction is under way. *)
Lemma table_live (c : conf) k id : inv c -> (forall u, evicts (pc_of c u) = None) -> table (sh c) !! k = Some id -> dead (sh c) id = false.
Proof.
  intros Hi Hn Hk. unfold dead. destruct (i_table _ c Hi _ _ Hk) as (x & Hx & _). rewrite Hx.
  destruct (removed x) eqn:Er; [|done]. destruct (i_dead _ c Hi _ _ _ Hk Hx Er) as [u Hu]. by rewrite Hn in Hu.
Qed.

Lemma no_evictor_unlocked (c : conf) : inv c -> outer (sh c) = None -> forall u, evicts (pc_of c u) = None.
Proof.
  intros Hi Ho u. destruct (evicts (pc_of c u)) eqn:E; [|done]. apply evicts_owns, (i_outer _ c Hi) in E. congruence.
Qed.

Lemma no_evictor_other (c : conf) t : inv c -> owns (pc_of c t) = true -> evicts (pc_of c t) = None -> forall u, evicts (pc_of c u) = None.
Proof.
  intros Hi Ho He u. destruct (evicts (pc_of c u)) eqn:E; [|done]. pose proof (evicts_owns _ _ E) as Hu.
  assert (u = t) as -> by (by eapply owner_unique). congruence.
Qed.

Lemma step_moves_cell n (c : conf) t f victim :
  inv c -> (t < n)%nat -> waits (sh c) victim (pc_of c t) = false ->
  match pc_of c t with
  | Touch _ _ | WantBuf _ _ | HoldBuf _ _ | Checked _ _ | Flagging _ _ _ | Clearing _ _ _ _ _ => True
  | _ => False
  end ->
  exists s p, step cfg t f victim (sh c) (pc_of c t) = Some (s, p) /\ (measure n (put c s t p) < measure n c)%nat.
Proof.
  intros Hi Ht Hw Hcase. pose proof (i_knows _ c Hi t) as Hk.
  assert (Hset : forall id x y s' p', cells (sh c) !! id = Some x -> (removed y = true -> removed x = true) ->
    cells s' = <[id := y]> (cells (sh c)) -> (rank s' p' < rank (sh c) (pc_of c t))%nat ->
    (may_flag p' <= may_flag (pc_of c t))%nat -> (measure n (put c s' t p') < measure n c)%nat).
  { intros id x y s' p' Hx Hy Hc' Hr Hf. apply measure_rank; try done. exact (dead_set _ _ _ _ _ Hx Hy Hc'). }
  destruct (pc_of c t) as [ | |id j|id j|id j|id j| | | |key id j| |key id m e j| | | | | | | | ] eqn:Hp; try done; simpl in Hk |- *.
  - destruct Hk as (x & Hx & Hs). rewrite Hx. do 2 eexists. split; [reflexivity|]. eapply Hset; [done| |done|simpl|done]; [done|].
    rewrite (dead_at (sh c) (set_cell (sh c) id _) id x _ Hx eq_refl) by done. destruct (dead (sh c) id); lia.
  - destruct Hk as (x & Hx & Hs). simpl in Hw. unfold locked in Hw. rewrite Hx in Hw |- *. cbn [mbind option_bind].
    destruct (lock x); [done|]. do 2 eexists. split; [reflexivity|]. eapply Hset; [done| |done|simpl|done]; [done|].
    rewrite (dead_at (sh c) (set_cell (sh c) id _) id x _ Hx eq_refl) by done. destruct (dead (sh c) id); lia.
  - destruct Hk as (x & Hx & Hs). rewrite Hx. cbn [mbind option_bind].
    assert (Hd : dead (sh c) id = removed x) by (unfold dead; by rewrite Hx).
    destruct (removed x) eqn:Er; do 2 eexists; (split; [reflexivity|]).
    + eapply Hset; [done| |done|simpl; rewrite Hd; lia|done]. done.
    + apply measure_rank; rewrite ?Hp; simpl; rewrite ?Hd; try done; lia.
  - destruct Hk as (x & Hx & Hs & Hr). rewrite Hx. cbn [mbind option_bind].
    destruct (next_ring cfg x (j_candle j) (known_ring _ _ _ _ Hi Hx)) as (rb & o & -> & _). cbn [mbind option_bind].
    do 2 eexists. split; [reflexivity|].
    eapply (Hset id x (set_lock (set_ring x rb) None)); [done|done|by destruct o|simpl; lia|simpl; lia].
  - destruct Hk as (K1 & K2). destruct (i_table _ c Hi _ _ K1) as (x & Hx & Hs). simpl in Hw. unfold locked in Hw. rewrite Hx in Hw |- *.
    cbn [mbind option_bind]. destruct (lock x); [done|].
    rewrite RingBuffer.to_vec_contents by apply (known_ring _ _ _ _ Hi Hx). cbn [mbind option_bind].
    do 2 eexists. split; [reflexivity|]. apply measure_flag; rewrite ?Hp; simpl; try done; lia.
  - destruct Hk as (K1 & K2 & x & Hx & Hr). rewrite K1, Hx. cbn [mbind option_bind].
    do 2 eexists. split; [reflexivity|]. eapply Hset; [done| |done|simpl; lia|simpl; lia]. by rewrite Hr.
Qed.

Lemma step_moves_other n (c : conf) t f victim :
  inv c -> (t < n)%nat -> waits (sh c) victim (pc_of c t) = false ->
  match pc_of c t with
  | Touch _ _ | WantBuf _ _ | HoldBuf _ _ | Checked _ _ | Flagging _ _ _ | Clearing _ _ _ _ _ => False
  | _ => True
  end ->
  exists s p, step cfg t f victim (sh c) (pc_of c t) = Some (s, p) /\ (measure n (put c s t p) < measure n c)%nat.
Proof.
  intros Hi Ht Hw Hcase. pose proof (i_knows _ c Hi t) as Hk.
  assert (Hpc : forall s' p', cells s' = cells (sh c) -> (rank s' p' < rank (sh c) (pc_of c t))%nat ->
    (may_flag p' <= may_flag (pc_of c t))%nat -> (measure n (put c s' t p') < measure n c)%nat).
  { intros s' p' Hc' Hr Hf. apply measure_rank; try done. unfold dead. by rewrite Hc'. }
  destruct (pc_of c t) as [ |j| | | | |j|j|j| |key id cs j| |key m e j|key id j|j|q|id q m|hot q m b| |v m] eqn:Hp; try done; simpl in Hw, Hk |- *.
  - destruct (outer (sh c)) eqn:Eo; [done|]. do 2 eexists. split; [reflexivity|].
    destruct (table (sh c) !! j_sym j) eqn:Et; apply Hpc; simpl; try lia; try done.
    rewrite (table_live c (j_sym j)); [lia|done|by apply no_evictor_unlocked|done].
  - do 2 eexists. split; [reflexivity|]. apply Hpc; simpl; try done; lia.
  - destruct (outer (sh c)) eqn:Eo; [done|]. do 2 eexists. split; [reflexivity|]. apply Hpc; simpl; try done; lia.
  - destruct (table (sh c) !! j_sym j) as [id|] eqn:Et.
    { do 2 eexists. split; [reflexivity|]. apply Hpc; [done|cbn [rank]|simpl; lia]. 
      change (dead (with_outer (sh c) None) id) with (dead (sh c) id).
      rewrite (table_live c (j_sym j)); [lia|done|apply (no_evictor_other c t); by rewrite ?Hp|done]. }
    destruct (LruCache.max_symbols cfg <=? _); [|do 2 eexists; split; [reflexivity|]; apply Hpc; simpl; try done; lia].
    destruct (decide (table (sh c) = ∅)); [do 2 eexists; split; [reflexivity|]; apply Hpc; simpl; try done; lia|].
    destruct (table (sh c) !! victim); [|done]. do 2 eexists; split; [reflexivity|]; apply Hpc; simpl; try done; lia.
  - destruct cs as [|c0 cs]; [do 2 eexists; split; [reflexivity|]; apply Hpc; simpl; try done; lia|].
    destruct (LruCache.data_dir cfg) as [dir|]; [|do 2 eexists; split; [reflexivity|]; apply Hpc; simpl; try done; lia].
    destruct (spill f (files (sh c)) dir key (c0 :: cs)) as [d' [[]|e]]; do 2 eexists; (split; [reflexivity|]); apply Hpc; simpl; try done; lia.
  - do 2 eexists. split; [reflexivity|]. apply Hpc; simpl; try done; lia.
  - do 2 eexists. split; [reflexivity|]. apply Hpc; simpl; try done; lia.
  - destruct (first_ring cfg Hcap j) as (rb & o & -> & _). cbn [mbind option_bind].
    do 2 eexists. split; [reflexivity|]. apply measure_rank; rewrite ?Hp; simpl; try done; try lia. by apply (dead_app (sh c) _ (mkCell (j_sym j) rb (j_tick j) false None)).
  - destruct (outer (sh c)) eqn:Eo; [done|]. do 2 eexists. split; [reflexivity|].
    destruct (table (sh c) !! q_sym q) eqn:Et; apply Hpc; simpl; try lia; done.
  - destruct Hk as (x & Hx & Hs). unfold locked in Hw. rewrite Hx in Hw |- *. cbn [mbind option_bind]. destruct (lock x); [done|].
    destruct (RingBuffer.range_slice (ring x) (proj1 (known_ring _ _ _ _ Hi Hx)) (q_from q) (q_to q)) as (k & m' & ->). cbn [mbind option_bind].
    do 2 eexists. split; [reflexivity|]. apply Hpc; simpl; try done; lia.
  - do 2 eexists. split; [reflexivity|]. apply Hpc; simpl; try done; lia.
  - do 2 eexists. split; [reflexivity|]. apply Hpc; simpl; try done; lia.
  - do 2 eexists. split; [reflexivity|]. apply Hpc; simpl; try done; lia.
Qed.

Lemma step_moves n (c : conf) t f victim :
  inv c -> (t < n)%nat -> waits (sh c) victim (pc_of c t) = false ->
  exists s p, step cfg t f victim (sh c) (pc_of c t) = Some (s, p) /\ (measure n (put c s t p) < measure n c)%nat.
Proof.
  intros Hi Ht Hw. destruct (pc_of c t) eqn:Hp; rewrite <- Hp;
    first [apply step_moves_cell; by rewrite ?Hp | apply step_moves_other; by rewrite ?Hp].
Qed.

(** ** While a call is in progress, some thread can move *)

Definition can_move (c : conf) (t : nat) : Prop := exists victim, waits (sh c) victim (pc_of c t) = false.

Lemma holder_moves (c : conf) t id : holds_buf (pc_of c t) = Some id -> can_move c t.
Proof. intros H. exists ""%string. by destruct (pc_of c t). Qed.

Lemma locked_moves (c : conf) t id :
  inv c -> (forall victim, waits (sh c) victim (pc_of c t) = locked (sh c) id) -> exists u, can_move c u.
Proof.
  intros Hi Hw. destruct (locked (sh c) id) eqn:El; [|exists t; exists ""%string; by rewrite Hw].
  unfold locked in El. destruct (cells (sh c) !! id) as [x|] eqn:Hx; [|done]. apply bool_decide_eq_true in El as [u Hu].
  exists u. apply (holder_moves c u id), (i_buf _ c Hi). eauto.
Qed.

Lemma owner_moves (c : conf) t : inv c -> owns (pc_of c t) = true -> exists u, can_move c u.
Proof.
  intros Hi Ho. destruct (pc_of c t) as [ | | | | | | | |j|key id j| | | | | | | | | | ] eqn:Hp; try done;
    try (exists t; exists ""%string; by rewrite Hp).
  - destruct (decide (table (sh c) = ∅)) as [E|E].
    + exists t, ""%string. rewrite Hp. simpl. rewrite E, lookup_empty, decide_True by done. by destruct (_ <=? _).
    + apply map_choose in E as (k & i & Hk). exists t, k. rewrite Hp. simpl. rewrite Hk.
      destruct (table (sh c) !! j_sym j); [done|]. destruct (_ <=? _); [|done]. by destruct (decide (table (sh c) = ∅)).
  - apply (locked_moves c t id); [done|]. by rewrite Hp.
Qed.

Lemma some_thread_moves (c : conf) t : inv c -> pc_of c t <> Idle -> exists u, can_move c u.
Proof.
  intros Hi Ht. destruct (outer (sh c)) as [o|] eqn:Eo; [apply (owner_moves c o); [done|by apply (i_outer _ c Hi)]|].
  destruct (owns (pc_of c t)) eqn:Ew; [by eapply owner_moves|].
  destruct (pc_of c t) as [ | | |id j| | | | | | | | | | | | |id q m| | | ] eqn:Hp; try done;
    try (exists t; exists ""%string; rewrite Hp; simpl; by rewrite ?Eo);
    (apply (locked_moves c t id); [done|by rewrite Hp]).
Qed.

(** ** Schedules *)

(** The schedule makes no new call. *)
Definition no_calls (e : @event faults) : Prop := match e with Step _ _ _ => True | Start _ _ => False end.

(** The steps of a schedule that move their thread. *)
Fixpoint moves (c : conf) (es : list (@event faults)) : nat :=
  match es with
  | [] => 0
  | e :: es' =>
      let m := match e with
               | Step t _ victim => if waits (sh c) victim (pc_of c t) then 0%nat else 1%nat
               | Start _ _ => 0%nat
               end in
      match fire cfg c e with Some c1 => (m + moves c1 es')%nat | None => m end
  end.

(** Every call has returned; no lock is held and no live entry is flagged. *)
Definition quiescent (c : conf) : Prop :=
  (forall t, pc_of c t = Idle) /\ outer (sh c) = None /\
  forall id x, cells (sh c) !! id = Some x ->
    lock x = None /\ (removed x = false <-> table (sh c) !! symbol_of x = Some id).

Lemma idle_quiescent (c : conf) : inv c -> (forall t, pc_of c t = Idle) -> quiescent c.
Proof.
  intros Hi Hn. assert (Ho : outer (sh c) = None).
  { destruct (outer (sh c)) as [o|] eqn:E; [|done]. apply (i_outer _ c Hi) in E. by rewrite Hn in E. }
  split_and!; [done..|]. intros id x Hx. split.
  - destruct (lock x) as [u|] eqn:El; [|done]. assert (H : holds_buf (pc_of c u) = Some id) by (apply (i_buf _ c Hi); eauto).
    by rewrite Hn in H.
  - split; [by apply (i_live _ c Hi)|]. intros Ht. destruct (removed x) eqn:Er; [|done].
    destruct (i_dead _ c Hi _ _ _ Ht Hx Er) as [u Hu]. by rewrite Hn in Hu.
Qed.

Definition idle_beyond (n : nat) (c : conf) : Prop := forall t, (n <= t)%nat -> pc_of c t = Idle.

Lemma idle_beyond_exists (c : conf) : exists n, idle_beyond n c.
Proof.
  destruct c as [s m]. unfold idle_beyond, pc_of. simpl. induction m as [|k p m Hk [n Hn]] using map_ind.
  - exists 0%nat. intros t _. by rewrite lookup_empty.
  - exists (n `max` S k)%nat. intros t Ht. rewrite lookup_insert_ne by lia. apply Hn. lia.
Qed.

Lemma put_same (c : conf) t u : pc_of (put c (sh c) t (pc_of c t)) u = pc_of c u.
Proof. rewrite pc_of_put. by case_decide; subst. Qed.

Lemma measure_same n (c : conf) t : measure n (put c (sh c) t (pc_of c t)) = measure n c.
Proof.
  unfold measure. cbn [put sh]. f_equal; [|f_equal];
    (apply Nat.le_antisymm; apply total_le; intros u Hu; by rewrite put_same).
Qed.

(** One scheduled step: a wait, or a move that pays for itself. *)
Lemma fire_pays n (c : conf) t f victim :
  inv c -> idle_beyond n c ->
  exists c', fire cfg c (Step t f victim) = Some c' /\ inv c' /\ idle_beyond n c' /\
    ((if waits (sh c) victim (pc_of c t) then 0 else 1) + measure n c' <= measure n c)%nat.
Proof.
  intros Hi Hb. destruct (fire_inv cfg Hcap c (Step t f victim) Hi) as (c' & Hf & Hi'). exists c'. split; [done|]. split; [done|].
  cbn [fire] in Hf. destruct (waits (sh c) victim (pc_of c t)) eqn:Ew.
  - rewrite (waits_stays t f) in Hf by done. injection Hf as <-. change (mkConf _ _) with (put c (sh c) t (pc_of c t)).
    split; [|rewrite measure_same; lia]. intros u Hu. rewrite put_same. auto.
  - assert (Ht : (t < n)%nat).
    { destruct (decide (t < n)%nat) as [|Hge]; [done|]. rewrite (Hb t) in Ew by lia. done. }
    destruct (step_moves n c t f victim Hi Ht Ew) as (s & p & E & Hm). rewrite E in Hf. injection Hf as <-.
    change (mkConf s _) with (put c s t p) in *. split; [|lia]. intros u Hu. rewrite pc_of_put_ne by lia. auto.
Qed.

Lemma run_pays n (c : conf) es :
  inv c -> idle_beyond n c -> Forall no_calls es ->
  exists c', run cfg c es = Some c' /\ inv c' /\ idle_beyond n c' /\ (moves c es + measure n c' <= measure n c)%nat.
Proof.
  intros Hi Hb Hes. revert c Hi Hb. induction Hes as [|e es He Hes IH]; intros c Hi Hb; [by exists c|].
  destruct e as [t o|t f victim]; [done|]. destruct (fire_pays n c t f victim Hi Hb) as (c1 & Hf & Hi1 & Hb1 & Hm).
  destruct (IH c1 Hi1 Hb1) as (c' & Hr & Hi' & Hb' & Hm'). exists c'. cbn [run moves]. rewrite Hf. cbn [mbind option_bind].
  split_and!; [done..|]. lia.
Qed.

Lemma measure_zero_idle n (c : conf) : idle_beyond n c -> measure n c = 0%nat -> forall t, pc_of c t = Idle.
Proof.
  intros Hb Hm t. destruct (decide (t < n)%nat) as [Ht|]; [|apply Hb; lia]. unfold measure in Hm.
  assert (H : rank (sh c) (pc_of c t) = 0%nat) by (apply (total_zero (fun u => rank (sh c) (pc_of c u)) n); [lia|done]).
  destruct (pc_of c t); simpl in H; try done; by destruct (dead (sh c) id).
Qed.

Lemma idle_dec n (c : conf) : idle_beyond n c -> (forall t, pc_of c t = Idle) \/ exists t, pc_of c t <> Idle.
Proof.
  intros Hb. assert (H : forall m, (forall t, (t < m)%nat -> pc_of c t = Idle) \/ exists t, pc_of c t <> Idle).
  { induction m as [|m [IH|IH]]; [left; lia| |by right].
    destruct (pc_of c m) eqn:E; try (right; exists m; by rewrite E).
    left. intros t Ht. destruct (decide (t = m)) as [->|]; [done|]. apply IH. lia. }
  destruct (H n) as [Hn|Hn]; [left|by right]. intros t. destruct (decide (t < n)%nat); [auto|]. apply Hb. lia.
Qed.

Lemma finishes (f : faults) n (c : conf) :
  inv c -> idle_beyond n c -> exists es c', Forall no_calls es /\ run cfg c es = Some c' /\ quiescent c'.
Proof.
  intros Hi Hb. remember (measure n c) as k eqn:Ek. revert c Hi Hb Ek.
  induction k as [k IH] using lt_wf_ind. intros c Hi Hb Ek.
  destruct (idle_dec n c Hb) as [Hn|[t Ht]]; [exists [], c; split_and!; [done..|by apply idle_quiescent]|].
  destruct (some_thread_moves c t Hi Ht) as (u & victim & Hu).
  destruct (fire_pays n c u f victim Hi Hb) as (c1 & Hf & Hi1 & Hb1 & Hm). rewrite Hu in Hm.
  destruct (IH (measure n c1) ltac:(lia) c1 Hi1 Hb1 eq_refl) as (es & c' & Hes & Hr & Hq).
  exists (Step u f victim :: es), c'. split_and!; [by constructor| |done]. cbn [run]. by rewrite Hf.
Qed.

(** C5. No deadlock and no endless retry.  From any configuration the store
    can reach, however the threads' next steps are scheduled (with any spill
    outcomes and eviction choices): no step panics; only finitely many steps
    move a thread, with a bound known in advance; as long as some call has
    not returned, some thread can move; once the bound is used up every call
    has returned; and when every call has returned no lock is held and
    exactly the entries of the table are unflagged.  In particular a
    schedule that completes every call exists. *)
Theorem store_conc_liveness (d : disk) es0 (c : conf) :
  run cfg (init d) es0 = Some c ->
  (exists bound, forall es : list (@event faults), Forall no_calls es ->
     exists c', run cfg c es = Some c' /\ (moves c es <= bound)%nat /\
       (quiescent c' \/ exists t, can_move c' t) /\ (moves c es = bound -> quiescent c')) /\
  (faults -> exists es c', Forall no_calls es /\ run cfg c es = Some c' /\ quiescent c').
Proof.
  intros H0. destruct (conc_run_inv cfg Hcap (init d) es0 (conc_init_inv cfg d)) as (c0 & E & Hi). rewrite H0 in E. injection E as <-.
  destruct (idle_beyond_exists c) as [n Hb]. split; [|intros f; by apply (finishes f n)].
  exists (measure n c). intros es Hes. destruct (run_pays n c es Hi Hb Hes) as (c' & Hr & Hi' & Hb' & Hm).
  exists c'. split_and!; [done|lia| |].
  - destruct (idle_dec n c' Hb') as [Hn|[t Ht]]; [left; by apply idle_quiescent|right; by eapply some_thread_moves].
  - intros Hall. apply idle_quiescent; [done|]. apply (measure_zero_idle n); [done|lia].
Qed.

End live.

(** ** A schedule stopped in the middle of an eviction *)

Section race.
#[local] Existing Instance Parquet.plain_codec.
#[local] Existing Instance Parquet.parquet_cold.

(** Thread 2 has flagged the entry thread 1 is about to lock, and holds the
    table; thread 3 is about to read the entry. *)
Lemma store_conc_liveness_witness :
  exists c, run StoreConcSafe.one_slot (init (∅ : StoreCold.parquet_disk)) (take 16 StoreConcSafe.race) = Some c /\
    outer (sh c) = Some 2%nat /\ dead (sh c) 0 = true /\
    exists es c', Forall no_calls es /\ run StoreConcSafe.one_slot c es = Some c' /\ quiescent c'.
Proof.
  assert (H : (fun c => (outer (sh c), dead (sh c) 0)) <$>
    run StoreConcSafe.one_slot (init (∅ : StoreCold.parquet_disk)) (take 16 StoreConcSafe.race) = Some (Some 2%nat, true))
    by (vm_compute; reflexivity).
  destruct (run StoreConcSafe.one_slot (init (∅ : StoreCold.parquet_disk)) (take 16 StoreConcSafe.race)) as [c|] eqn:E; [|discriminate H].
  injection H as H1 H2. exists c. split_and!; [done..|].
  destruct (store_conc_liveness StoreConcSafe.one_slot ltac:(simpl; lia) ∅ (take 16 StoreConcSafe.race) c E) as [_ Hf].
  apply Hf. exact Parquet.NoFault.
Defined.
End race.
End StoreConcLive.
