(* ===== verification/StoreConcCount.v ===== *)
(** * The store's counters under concurrency

    [snapshot] computes its append count from two counters that other threads
    keep changing: [version], bumped by appends and by [signal_waiters], and
    [signals], bumped by [signal_waiters] before [version].  The model gives
    every thread the latest value of a counter (sequential consistency). *)

From S2P Require Import Prelude Float64 Candle RingBuffer Cold Text Parquet Store StoreSpec StoreCold StoreConc StoreConcInv StoreConcSafe StoreConcLive.

#[local] Open Scope Z_scope.

Module StoreConcCount.
Import StoreConc StoreConcInv StoreConcLive.

Definition is_append_ok (r : reply) : bool := match r with RAppend _ _ (Ok _) => true | _ => false end.
Definition is_signal (r : reply) : bool := match r with RSignal => true | _ => false end.
Definition is_snapshot (r : reply) : bool := match r with RSnapshot _ _ => true | _ => false end.

Definition tally (f : reply -> bool) (l : list reply) : nat := length (List.filter f l).

Lemma tally_app f l l' : tally f (l ++ l') = (tally f l + tally f l')%nat.
Proof. unfold tally. by rewrite List.filter_app, length_app. Qed.

Definition signalling (p : pc) : nat := match p with Signalling => 1%nat | _ => 0%nat end.

Lemma total_put f g n t :
  (t < n)%nat -> (forall u, u <> t -> g u = f u) -> (total g n + f t = total f n + g t)%nat.
Proof.
  induction n as [|n IH]; intros Ht H; [lia|]. simpl. destruct (decide (t = n)) as [->|Hn].
  - assert (total g n = total f n); [|lia]. clear -H. assert (Hle : (n <= n)%nat) by lia. revert Hle.
    generalize n at 1 3 4 as m. induction m as [|m IH]; intros Hm; simpl; [done|]. rewrite IH, H by lia. done.
  - rewrite (H n) by lia. specialize (IH ltac:(lia) H). lia.
Qed.

Section counts.
Context {disk faults : Type} `{!ColdStorage disk faults}.
Context (cfg : LruCache.config).
Abbreviation shared := (@shared disk).
Abbreviation conf := (@conf disk).

(** How a step changes the counters, the replies and the program point. *)
Inductive effect (s s' : shared) (p p' : pc) : Prop :=
| EQuiet l :
    version (counts s') = version (counts s) -> signals (counts s') = signals (counts s) ->
    published s' = published s -> replies s' = replies s ++ l ->
    Forall (fun r => is_append_ok r = false /\ is_signal r = false /\ is_snapshot r = false) l ->
    signalling p' = 0%nat -> signalling p = 0%nat -> (forall v b, p' <> Counting v b) -> effect s s' p p'
| EPublish r :
    version (counts s') = fetch_add1 (version (counts s)) -> signals (counts s') = signals (counts s) ->
    published s' = S (published s) -> replies s' = replies s ++ [r] -> is_append_ok r = true ->
    signalling p = 0%nat -> p' = Idle -> effect s s' p p'
| ESignal :
    version (counts s') = fetch_add1 (version (counts s)) -> signals (counts s') = signals (counts s) ->
    published s' = published s -> replies s' = replies s ++ [RSignal] -> p = Signalling -> p' = Idle -> effect s s' p p'
| ECount v b :
    version (counts s') = version (counts s) -> signals (counts s') = signals (counts s) ->
    published s' = published s -> replies s' = replies s ++ [RSnapshot (u64_saturating_sub v (signals (counts s))) b] ->
    p = Counting v b -> p' = Idle -> effect s s' p p'.

Lemma quiet_stay (s s' : shared) p p' :
  version (counts s') = version (counts s) -> signals (counts s') = signals (counts s) ->
  published s' = published s -> replies s' = replies s ->
  signalling p' = 0%nat -> signalling p = 0%nat -> (forall v b, p' <> Counting v b) -> effect s s' p p'.
Proof. intros. eapply (EQuiet _ _ _ _ []); rewrite ?app_nil_r; done. Qed.

Lemma step_effect t f victim (s : shared) p s' p' : step cfg t f victim s p = Some (s', p') -> effect s s' p p'.
Proof.
  intros Hst. destruct p; cbn [step] in Hst.
  all: try (injection Hst as <- <-; first [by eapply EPublish|by eapply ESignal|by eapply ECount|by apply quiet_stay
    |eapply EQuiet; try done; by repeat constructor]).
  all: repeat match type of Hst with
    | context [cells ?s !! ?i ≫= _] => destruct (cells s !! i); [cbn [mbind option_bind] in Hst|discriminate Hst]
    | context [RingBuffer.push ?a ?b] => destruct (RingBuffer.push a b) as [[rb [|]]|]; [..|discriminate Hst]; cbn [mbind option_bind] in Hst
    | context [RingBuffer.to_vec ?a] => destruct (RingBuffer.to_vec a); [cbn [mbind option_bind] in Hst|discriminate Hst]
    | context [RingBuffer.range ?a ?b ?c] => destruct (RingBuffer.range a b c); [cbn [mbind option_bind] in Hst|discriminate Hst]
    | context [if ?b then _ else _] => destruct b
    | context [match ?x with _ => _ end] => destruct x
    end; injection Hst as <- <-; by apply quiet_stay.
Qed.

(** ** What the counters mean *)

Definition oks (s : shared) : nat := tally is_append_ok (replies s).
Definition signals_done (s : shared) : nat := tally is_signal (replies s).

(** After [k] events, with threads below [n]. *)
Record cnt (n : nat) (k : Z) (c : conf) : Prop := {
  k_published : published (sh c) = oks (sh c);
  k_version : version (counts (sh c)) = Z.of_nat (oks (sh c)) + Z.of_nat (signals_done (sh c));
  k_signals : signals (counts (sh c)) =
    Z.of_nat (signals_done (sh c)) + Z.of_nat (total (fun u => signalling (pc_of c u)) n);
  k_bound : version (counts (sh c)) <= k /\ signals (counts (sh c)) <= k;
  k_counting t v b : pc_of c t = Counting v b ->
    (b <= oks (sh c))%nat /\ v <= Z.of_nat b + Z.of_nat (signals_done (sh c)) /\
    (signals (counts (sh c)) = 0 -> v = Z.of_nat b);
  k_reply a b : In (RSnapshot a b) (replies (sh c)) ->
    a <= Z.of_nat b /\ (b <= oks (sh c))%nat /\ (signals (counts (sh c)) = 0 -> a = Z.of_nat b)
}.

Lemma total_signalling (c : conf) n t s' p' :
  (t < n)%nat ->
  (total (fun u => signalling (pc_of (put c s' t p') u)) n + signalling (pc_of c t) =
   total (fun u => signalling (pc_of c u)) n + signalling p')%nat.
Proof.
  intros Ht.
  pose proof (total_put (fun u => signalling (pc_of c u)) (fun u => signalling (pc_of (put c s' t p') u)) n t Ht) as H.
  cbn beta in H. rewrite pc_of_put_eq in H. apply H. intros u Hu. by rewrite pc_of_put_ne.
Qed.

Lemma tally_none f l : Forall (fun r => f r = false) l -> tally f l = 0%nat.
Proof. unfold tally. induction 1 as [|r l Hr _ IH]; simpl; [done|]. by rewrite Hr. Qed.

(** A step that bumps no counter. *)
Lemma cnt_quiet n k (c : conf) t s' p' l :
  cnt n k c -> (t < n)%nat ->
  version (counts s') = version (counts (sh c)) -> signals (counts s') = signals (counts (sh c)) ->
  published s' = published (sh c) -> replies s' = replies (sh c) ++ l ->
  Forall (fun r => is_append_ok r = false /\ is_signal r = false) l ->
  (forall a b, In (RSnapshot a b) l -> a <= Z.of_nat b /\ (b <= oks (sh c))%nat /\ (signals (counts (sh c)) = 0 -> a = Z.of_nat b)) ->
  signalling p' = signalling (pc_of c t) ->
  (forall v b, p' = Counting v b -> (b <= oks (sh c))%nat /\ v <= Z.of_nat b + Z.of_nat (signals_done (sh c)) /\
    (signals (counts (sh c)) = 0 -> v = Z.of_nat b)) ->
  cnt n (k + 1) (put c s' t p').
Proof.
  intros [K1 K2 K3 K4 K5 K6] Ht Hv Hs Hp Hr Hl Hsn Hsig Hcn. pose proof (total_signalling c n t s' p' Ht) as Htot.
  assert (Ho : oks s' = oks (sh c)).
  { unfold oks. rewrite Hr, tally_app, (tally_none _ l); [lia|]. eapply Forall_impl; [exact Hl|]. by intros r []. }
  assert (Hd : signals_done s' = signals_done (sh c)).
  { unfold signals_done. rewrite Hr, tally_app, (tally_none _ l); [lia|]. eapply Forall_impl; [exact Hl|]. by intros r []. }
  split; cbn [put sh]; rewrite ?Ho, ?Hd, ?Hv, ?Hs, ?Hp; try done; try lia.
  - intros u v b. rewrite pc_of_put. case_decide; eauto.
  - intros a b. rewrite Hr. intros [H|H]%in_app_or; auto.
Qed.

(** A step that bumps [version] and answers. *)
Lemma cnt_answer n k (c : conf) t s' r :
  cnt n k c -> (t < n)%nat -> 0 <= k < u64_max ->
  version (counts s') = fetch_add1 (version (counts (sh c))) -> signals (counts s') = signals (counts (sh c)) ->
  replies s' = replies (sh c) ++ [r] ->
  is_append_ok r = true /\ published s' = S (published (sh c)) /\ signalling (pc_of c t) = 0%nat \/
  is_signal r = true /\ published s' = published (sh c) /\ signalling (pc_of c t) = 1%nat ->
  cnt n (k + 1) (put c s' t Idle).
Proof.
  intros [K1 K2 K3 K4 K5 K6] Ht Hk Hv Hs Hr Hcase. pose proof (total_signalling c n t s' Idle Ht) as Htot. cbn [signalling] in Htot.
  rewrite fetch_add1_small in Hv by lia.
  assert (Hcnt : oks s' = (oks (sh c) + tally is_append_ok [r])%nat /\ signals_done s' = (signals_done (sh c) + tally is_signal [r])%nat)
    by (unfold oks, signals_done; by rewrite Hr, !tally_app).
  destruct Hcnt as [Ho Hd].
  assert (Hone : (tally is_append_ok [r] = 1 /\ tally is_signal [r] = 0 \/ tally is_append_ok [r] = 0 /\ tally is_signal [r] = 1)%nat /\
    (tally is_append_ok [r] + published (sh c) = published s')%nat /\ (tally is_signal [r] = signalling (pc_of c t))%nat /\ is_snapshot r = false).
  { destruct Hcase as [(H1 & H2 & H3)|(H1 & H2 & H3)]; destruct r as [? ? [|]| | | ]; try done; cbn; split_and!; try done; auto; lia. }
  destruct Hone as (H1 & H2 & H3 & H4). split; cbn [put sh]; rewrite ?Ho, ?Hd, ?Hv, ?Hs; try lia.
  - intros u v b. rewrite pc_of_put. case_decide; [done|]. intros Hu. destruct (K5 _ _ _ Hu) as (E1 & E2 & E3). split_and!; [lia|lia|done].
  - intros a b. rewrite Hr. intros [H|[->|[]]]%in_app_or; [|done]. destruct (K6 a b H) as (E1 & E2 & E3). split_and!; [lia|lia|done].
Qed.

Lemma cnt_step n k (c : conf) t f victim s' p' :
  cnt n k c -> (t < n)%nat -> 0 <= k < u64_max ->
  step cfg t f victim (sh c) (pc_of c t) = Some (s', p') -> cnt n (k + 1) (put c s' t p').
Proof.
  intros Hc Ht Hk Hst. destruct (step_effect _ _ _ _ _ _ _ Hst) as
    [l Hv Hs Hp Hr Hl Hg Hg0 Hn|r Hv Hs Hp Hr Hok Hg ->|Hv Hs Hp Hr Hg ->|v b Hv Hs Hp Hr Hg ->].
  - eapply (cnt_quiet n k c t s' p' l); try done.
    + eapply Forall_impl; [exact Hl|]. by intros r (? & ? & ?).
    + intros a b Hin. apply (proj1 (List.Forall_forall _ _) Hl) in Hin as (_ & _ & [=]).
    + by rewrite Hg, Hg0.
    + intros v b ->. by destruct (Hn v b).
  - eapply (cnt_answer n k c t s' r); try done. left. done.
  - eapply (cnt_answer n k c t s' RSignal); try done. right. by rewrite Hg.
  - destruct (k_counting _ _ _ Hc _ _ _ Hg) as (E1 & E2 & E3). pose proof (k_signals _ _ _ Hc) as Hsg.
    eapply (cnt_quiet n k c t s' Idle _); try done.
    + by repeat constructor.
    + intros a b' [[= <- <-]|[]]. unfold u64_saturating_sub. split_and!; [lia|done|]. intros H0. specialize (E3 H0). lia.
    + by rewrite Hg.
Qed.

Lemma cnt_start n k (c : conf) t o s' p' :
  cnt n k c -> (t < n)%nat -> 0 <= k < u64_max -> pc_of c t = Idle ->
  start (sh c) o = (s', p') -> cnt n (k + 1) (put c s' t p').
Proof.
  intros Hc Ht Hk Hp H. pose proof Hc as [K1 K2 K3 K4 K5 K6]. destruct o as [sym cd|sym a b| | ]; simpl in H.
  - destruct (is_valid cd); injection H as <- <-; [eapply (cnt_quiet n k c t _ _ []); by rewrite ?Hp, ?app_nil_r|].
    eapply (cnt_quiet n k c t); rewrite ?Hp; try done; [by repeat constructor|by intros ? ? [|[]]].
  - injection H as <- <-. eapply (cnt_quiet n k c t _ _ []); rewrite ?Hp, ?app_nil_r; try done.
  - injection H as <- <-. pose proof (total_signalling c n t (count (sh c) bump_signals) Signalling Ht) as Htot.
    rewrite Hp in Htot. cbn [signalling] in Htot.
    assert (Hs : signals (counts (count (sh c) bump_signals)) = signals (counts (sh c)) + 1)
      by (cbn; apply fetch_add1_small; lia).
    split; cbn [put sh]; rewrite ?Hs; try done; try (cbn; lia).
    + change (signals_done (count (sh c) bump_signals)) with (signals_done (sh c)). lia.
    + intros u v b. rewrite pc_of_put. case_decide; [done|]. intros Hu. destruct (K5 _ _ _ Hu) as (E1 & E2 & E3). split_and!; [done..|lia].
    + intros a b Hin. destruct (K6 a b Hin) as (E1 & E2 & E3). split_and!; [done..|lia].
  - injection H as <- <-. eapply (cnt_quiet n k c t _ _ []); rewrite ?Hp, ?app_nil_r; try done.
    intros v b [= <- <-]. rewrite K1. split_and!; [done|lia|]. lia.
Qed.

Definition thread_of (e : @event faults) : nat := match e with Start t _ => t | Step t _ _ => t end.

Lemma cnt_fire n k c e c' :
  cnt n k c -> (thread_of e < n)%nat -> 0 <= k < u64_max -> fire cfg c e = Some c' -> cnt n (k + 1) c'.
Proof.
  intros Hc Ht Hk Hf. destruct e as [t o|t f victim]; cbn [fire thread_of] in *.
  - assert (Hw : cnt n (k + 1) c) by (destruct Hc as [K1 K2 K3 K4 K5 K6]; split; try done; lia).
    destruct (pc_of c t) eqn:Hp; try by injection Hf as <-. destruct (start (sh c) o) as [s p] eqn:E.
    injection Hf as <-. by eapply cnt_start.
  - destruct (step cfg t f victim (sh c) (pc_of c t)) as [[s p]|] eqn:E; [|done]. injection Hf as <-.
    change (cnt n (k + 1) (put c s t p)). by eapply cnt_step.
Qed.

Lemma cnt_run n k c es c' :
  cnt n k c -> Forall (fun e => thread_of e < n)%nat es -> 0 <= k -> k + Z.of_nat (length es) <= u64_max ->
  run cfg c es = Some c' -> cnt n (k + Z.of_nat (length es)) c'.
Proof.
  intros Hc Hes. revert k c Hc. induction Hes as [|e es He Hes IH]; intros k c Hc Hk Hb Hrun; cbn [length] in *.
  - injection Hrun as <-. by rewrite Z.add_0_r.
  - cbn [run] in Hrun. destruct (fire cfg c e) as [c1|] eqn:Hf; [|done]. cbn [mbind option_bind] in Hrun.
    replace (k + Z.of_nat (S (length es))) with ((k + 1) + Z.of_nat (length es)) by lia.
    apply (IH (k + 1) c1); [|lia|lia|done]. eapply cnt_fire; [done..|lia|done].
Qed.

Lemma threads_below (es : list (@event faults)) : exists n, Forall (fun e => thread_of e < n)%nat es.
Proof.
  induction es as [|e es [n IH]]; [by exists 0%nat|]. exists (n + S (thread_of e))%nat.
  constructor; [lia|]. eapply Forall_impl; [exact IH|]. simpl. lia.
Qed.

Lemma cnt_init n (d : disk) : cnt n 0 (init d).
Proof.
  split; try done. cbn. assert (H : total (fun u => signalling (pc_of (init d) u)) n = 0%nat); [|by rewrite H].
  induction n as [|n IH]; [done|]. cbn [total]. by rewrite IH.
Qed.

(** The counters under any interleaving of at most [u64::MAX] events:
    [version] is the number of appends that returned [Ok] plus the number of
    [signal_waiters] calls that returned; [snapshot]'s append count never
    exceeds the number of appends that had been accepted when it began, and
    equals it while [signal_waiters] has not been called. *)
Theorem store_conc_snapshot (d : disk) (es : list (@event faults)) c :
  run cfg (init d) es = Some c -> Z.of_nat (length es) <= u64_max ->
  version (counts (sh c)) = Z.of_nat (oks (sh c)) + Z.of_nat (signals_done (sh c)) /\
  Z.of_nat (signals_done (sh c)) <= signals (counts (sh c)) /\
  forall a before, In (RSnapshot a before) (replies (sh c)) ->
    a <= Z.of_nat before /\ (before <= oks (sh c))%nat /\ (signals (counts (sh c)) = 0 -> a = Z.of_nat before).
Proof.
  intros Hrun Hb. destruct (threads_below es) as [n Hn].
  pose proof (cnt_run n 0 _ _ _ (cnt_init n d) Hn ltac:(lia) ltac:(lia) Hrun) as [K1 K2 K3 K4 K5 K6].
  split_and!; [done|lia|done].
Qed.

End counts.

(** A snapshot that falls between the two bumps of a signal, and one after
    the signal has finished. *)
Section example.
#[local] Existing Instance Parquet.plain_codec.
#[local] Existing Instance Parquet.parquet_cold.

Definition counted : list (@event (@Parquet.faults Parquet.plain_bytes)) :=
  Start 0 (TryAppend "A" (StoreSpec.cd 1)) :: repeat (Step 0 Parquet.NoFault "") 5 ++
  [Start 1 SignalWaiters; Start 2 Snapshot; Step 2 Parquet.NoFault ""; Step 1 Parquet.NoFault "";
   Start 2 Snapshot; Step 2 Parquet.NoFault ""]%string.

Lemma store_conc_snapshot_witness :
  exists c, run StoreConcSafe.one_slot (init (∅ : StoreCold.parquet_disk)) counted = Some c /\
    version (counts (sh c)) = 2 /\ In (RSnapshot 0 1) (replies (sh c)) /\ In (RSnapshot 1 1) (replies (sh c)) /\
    1 <= Z.of_nat 1 /\ (1 <= oks (sh c))%nat.
Proof.
  assert (H : (fun c => replies (sh c)) <$> run StoreConcSafe.one_slot (init (∅ : StoreCold.parquet_disk)) counted =
    Some [RAppend "A" (StoreSpec.cd 1) (Ok tt); RSnapshot 0 1; RSignal; RSnapshot 1 1]%string) by (vm_compute; reflexivity).
  destruct (run StoreConcSafe.one_slot (init (∅ : StoreCold.parquet_disk)) counted) as [c|] eqn:E; [|discriminate H].
  injection H as Hr. destruct (store_conc_snapshot StoreConcSafe.one_slot ∅ counted c E) as (H1 & H2 & H3); [by vm_compute|].
  exists c. split; [done|]. split; [rewrite H1; unfold oks, signals_done; by rewrite Hr|].
  assert (Hin : In (RSnapshot 1 1) (replies (sh c))) by (rewrite Hr; simpl; auto).
  destruct (H3 _ _ Hin) as (E1 & E2 & _). split_and!; [rewrite Hr; simpl; auto|done..].
Defined.
End example.
End StoreConcCount.
