(* ===== verification/StoreWorkers.v ===== *)
(** * Threads that append in a loop

    [examples/multi_symbol_contention.rs] and the concurrency tests of
    [store.rs] start threads which each append their own sequence of candles,
    join them all and look at the store.  This file runs such a crew on the
    concurrent store of [StoreConc.v]: a thread that has returned from a call
    makes the next one of its sequence.  While the table has room for every
    symbol the outcome does not depend on the schedule, except for the order
    in which candles of different threads reach a shared ring.

    [append] is [try_append] plus the counting and logging of its errors, of
    which there are none here. *)

From S2P Require Import Prelude Float64 Candle RingBuffer Cold Text Parquet Store StoreSpec StoreCold StoreConc StoreConcInv StoreConcSafe StoreConcLive StoreConcCount.

#[local] Open Scope Z_scope.

Module StoreWorkers.
Import StoreConc StoreConcInv StoreConcSafe StoreConcLive StoreConcCount.

Abbreviation loop := (list (string * Candle)).

Section crew.
Context {disk faults : Type} `{!ColdStorage disk faults}.
Context (cfg : LruCache.config).
Abbreviation shared := (@shared disk).
Abbreviation conf := (@conf disk).

(** The store with its threads, and what each thread has still to append. *)
Record crew : Type := mkCrew { at_work : conf; todo : gmap nat loop }.

Definition left_of (w : crew) (t : nat) : loop := default [] (todo w !! t).

(** Thread [t] moves; [victim] and [f] are as in [StoreConc.step]. *)
Definition step (w : crew) (e : nat * faults * string) : panics crew :=
  let '(t, f, victim) := e in
  match pc_of (at_work w) t with
  | Idle =>
      match left_of w t with
      | [] => Some w
      | (sym, c) :: rest => c' ← fire cfg (at_work w) (Start t (TryAppend sym c)); Some (mkCrew c' (<[t := rest]> (todo w)))
      end
  | _ => c' ← fire cfg (at_work w) (Step t f victim); Some (mkCrew c' (todo w))
  end.

Fixpoint run (w : crew) (es : list (nat * faults * string)) : panics crew :=
  match es with
  | [] => Some w
  | e :: es' => w1 ← step w e; run w1 es'
  end.

(** The threads [0], [1], ... start on a fresh store. *)
Definition spawn (d : disk) (loops : list loop) : crew := mkCrew (init d) (map_seq 0 loops).

(** Every thread has left its loop, so the joins return. *)
Definition joined (w : crew) : Prop := forall t, pc_of (at_work w) t = Idle /\ left_of w t = [].

Definition candle_count (s : shared) (sym : string) : nat :=
  match table s !! sym ≫= (fun id => cells s !! id) with Some x => RingBuffer.len (ring x) | None => 0 end.
End crew.

(** ** Accounting *)

Definition calm (p : pc) : bool :=
  match p with
  | Idle | Lookup _ | Touch _ _ | WantBuf _ _ | HoldBuf _ _ | Checked _ _ | Publish _ | WantOuter _ | HoldOuter _ | Inserting _ => true
  | _ => false
  end.

Definition publishing (p : pc) : nat := match p with Publish _ => 1 | _ => 0 end.

(** The candle of the current call, until it has been pushed. *)
Definition flight (p : pc) : loop :=
  match p with
  | Publish _ => []
  | _ => match job_of p with Some j => [(j_sym j, j_candle j)] | None => [] end
  end.

Section steady.
Context {disk faults : Type} `{!ColdStorage disk faults}.
Context (cfg : LruCache.config) (syms : gset string) (loops : list loop).
Hypothesis Hcap : (0 < LruCache.ring_capacity cfg)%nat.
Hypothesis Hmax : Z.of_nat (size syms) <= LruCache.max_symbols cfg.
Hypothesis Hloops : Forall (fun p => p.1 ∈ syms /\ is_valid p.2 = true) (concat loops).
Hypothesis Hlen : Z.of_nat (length (concat loops)) < u64_max.
Abbreviation crew := (@crew disk).
Abbreviation shared := (@shared disk).

Definition owing (w : crew) (t : nat) : loop := flight (pc_of (at_work w) t) ++ left_of w t.

(** The table and the cells. *)
Record rings (s : shared) : Prop := {
  g_table : dom (table s) ⊆ syms;
  g_live id x : cells s !! id = Some x -> removed x = false;
  g_ring id x : cells s !! id = Some x -> RingBuffer.contents (ring x) = lastn (LruCache.ring_capacity cfg) (pushed s (symbol_of x));
  g_fresh sym : table s !! sym = None -> pushed s sym = [];
  g_used id x : cells s !! id = Some x -> pushed s (symbol_of x) <> []
}.

Record steady (w : crew) : Prop := {
  y_rings : rings (sh (at_work w));
  y_calm t : calm (pc_of (at_work w) t) = true;
  y_acct : stored (sh (at_work w)) ++ concat (owing w <$> seq 0 (length loops)) ≡ₚ concat loops;
  y_idle t : (length loops <= t)%nat -> pc_of (at_work w) t = Idle /\ left_of w t = [];
  y_count : (published (sh (at_work w)) + total (fun u => publishing (pc_of (at_work w) u)) (length loops) = length (stored (sh (at_work w))))%nat;
  y_version : version (counts (sh (at_work w))) = Z.of_nat (published (sh (at_work w)));
  y_evictions : evictions (counts (sh (at_work w))) = 0
}.

(** A thread's candles are those of the loops. *)
Lemma owing_ok w t p : steady w -> p ∈ owing w t -> p.1 ∈ syms /\ is_valid p.2 = true.
Proof.
  intros Hy Hp. destruct (decide (t < length loops)%nat) as [Ht|Ht].
  - pose proof (y_acct w Hy) as Ha. rewrite Forall_forall in Hloops. apply Hloops. rewrite <- Ha. apply elem_of_app. right.
    apply list_elem_of_In, in_concat. exists (owing w t). split; [|by apply list_elem_of_In].
    apply list_elem_of_In, list_elem_of_fmap_2. apply elem_of_seq. lia.
  - unfold owing in Hp. destruct (y_idle w Hy t ltac:(lia)) as [E1 E2]. rewrite E1, E2 in Hp. by apply elem_of_nil in Hp.
Qed.

Lemma working_below w t : steady w -> owing w t <> [] \/ pc_of (at_work w) t <> Idle -> (t < length loops)%nat.
Proof.
  intros Hy Hw. destruct (decide (t < length loops)%nat) as [|Hn]; [done|]. exfalso.
  destruct (y_idle w Hy t ltac:(lia)) as [E1 E2]. unfold owing in Hw. rewrite E1, E2 in Hw. cbn in Hw. naive_solver.
Qed.

(** A step of thread [t] which stores the candles [x]. *)
Lemma steady_step w w' t s' p' x :
  steady w -> (t < length loops)%nat -> at_work w' = put (at_work w) s' t p' ->
  (forall u, u <> t -> left_of w' u = left_of w u) -> owing w t = x ++ owing w' t ->
  stored s' = stored (sh (at_work w)) ++ x -> calm p' = true -> rings s' ->
  (published s' + publishing p' = published (sh (at_work w)) + publishing (pc_of (at_work w) t) + length x)%nat ->
  version (counts s') = Z.of_nat (published s') -> evictions (counts s') = 0 -> steady w'.
Proof.
  intros Hy Ht Hw Hl Hx Hst Hc Hg Hp Hv He.
  assert (Hpc : forall u, u <> t -> pc_of (at_work w') u = pc_of (at_work w) u) by (intros u Hu; rewrite Hw; by apply pc_of_put_ne).
  split; rewrite ?Hw; cbn [put sh]; try done.
  - intros u. rewrite pc_of_put. case_decide; [done|]. by apply Hy.
  - rewrite Hst, <- (y_acct w Hy), <- app_assoc. apply Permutation_app_head. symmetry.
    apply (concat_update (owing w) (owing w') _ t); [done| |by rewrite Hx]. intros u Hu. unfold owing. by rewrite Hpc, Hl.
  - intros u Hu. rewrite pc_of_put_ne by lia. rewrite Hl by lia. by apply Hy.
  - pose proof (total_put (fun u => publishing (pc_of (at_work w) u)) (fun u => publishing (pc_of (at_work w') u)) (length loops) t Ht) as E.
    cbn beta in E. rewrite Hw in E. rewrite pc_of_put_eq in E. pose proof (y_count w Hy) as K.
    rewrite Hst, length_app. specialize (E ltac:(intros u Hu; by rewrite pc_of_put_ne)). cbn [put] in *. lia.
Qed.

(** ** The table and the rings *)

Lemma rings_quiet (s s' : shared) :
  rings s -> table s' = table s -> stored s' = stored s ->
  (forall id x', cells s' !! id = Some x' ->
     exists x, cells s !! id = Some x /\ symbol_of x' = symbol_of x /\ ring x' = ring x /\ removed x' = removed x) -> rings s'.
Proof.
  intros [G1 G2 G3 G4 G5] Ht Hs Hc. unfold pushed in *. split; unfold pushed; rewrite ?Ht, ?Hs; try done.
  - intros id x' Hx'. destruct (Hc id x' Hx') as (x & Hx & _ & _ & ->). eauto.
  - intros id x' Hx'. destruct (Hc id x' Hx') as (x & Hx & -> & -> & _). eauto.
  - intros id x' Hx'. destruct (Hc id x' Hx') as (x & Hx & -> & _). eauto.
Qed.

Lemma rings_same (s s' : shared) : rings s -> table s' = table s -> cells s' = cells s -> stored s' = stored s -> rings s'.
Proof. intros H Ht Hc Hs. apply (rings_quiet s); rewrite ?Hc; eauto. Qed.

Lemma rings_cell (s s' : shared) id x y :
  rings s -> cells s !! id = Some x -> table s' = table s -> stored s' = stored s -> cells s' = <[id := y]> (cells s) ->
  symbol_of y = symbol_of x -> ring y = ring x -> removed y = removed x -> rings s'.
Proof.
  intros H Hx Ht Hs Hc E1 E2 E3. apply (rings_quiet s); try done. intros id' x' Hx'. rewrite Hc in Hx'.
  destruct (decide (id' = id)) as [->|Hne].
  - rewrite list_lookup_insert_eq in Hx' by (by eapply lookup_lt_Some). injection Hx' as <-. eauto.
  - rewrite list_lookup_insert_ne in Hx' by done. eauto.
Qed.

Lemma cell_in_table (c : @conf disk) id x : inv cfg c -> rings (sh c) -> cells (sh c) !! id = Some x -> table (sh c) !! symbol_of x = Some id.
Proof. intros Hi Hg Hx. apply (i_live _ c Hi id x Hx). by eapply g_live. Qed.

(** The push into a ring that is in the table. *)
Lemma rings_push (c : @conf disk) id x y cd (s' : shared) :
  inv cfg c -> rings (sh c) -> cells (sh c) !! id = Some x -> table s' = table (sh c) -> cells s' = <[id := y]> (cells (sh c)) ->
  stored s' = stored (sh c) ++ [(symbol_of x, cd)] -> symbol_of y = symbol_of x -> removed y = removed x ->
  RingBuffer.contents (ring y) = lastn (LruCache.ring_capacity cfg) (RingBuffer.contents (ring x) ++ [cd]) -> rings s'.
Proof.
  intros Hi Hg Hx Ht Hc Hs E1 E2 E3. pose proof (cell_in_table c id x Hi Hg Hx) as Hid. pose proof (lookup_lt_Some _ _ _ Hx) as Hlt.
  split; rewrite ?Ht; [apply Hg|intros i z Hz..|intros sym Hsym|intros i z Hz]; rewrite ?Hc in *.
  - destruct (decide (i = id)) as [->|Hne]; [rewrite list_lookup_insert_eq in Hz by done|rewrite list_lookup_insert_ne in Hz by done];
      [injection Hz as <-; rewrite E2|]; by eapply g_live.
  - rewrite (pushed_snoc _ _ _ _ _ Hs). destruct (decide (i = id)) as [->|Hne].
    + rewrite list_lookup_insert_eq in Hz by done. injection Hz as <-. rewrite E3, E1, decide_True by done.
      by rewrite (g_ring _ Hg id x Hx), lastn_app_lastn.
    + rewrite list_lookup_insert_ne in Hz by done. rewrite decide_False; [by apply (g_ring _ Hg i)|].
      intros E. pose proof (cell_in_table c i z Hi Hg Hz). congruence.
  - rewrite (pushed_snoc _ _ _ _ _ Hs), decide_False by congruence. by apply Hg.
  - rewrite (pushed_snoc _ _ _ _ _ Hs). case_decide; [by intros []%app_nil|].
    destruct (decide (i = id)) as [->|Hne]; [rewrite list_lookup_insert_eq in Hz by done; injection Hz as <-; congruence|].
    rewrite list_lookup_insert_ne in Hz by done. by apply (g_used _ Hg i).
Qed.

(** The insertion of a new symbol. *)
Lemma rings_insert (c : @conf disk) sym cd x (s' : shared) :
  rings (sh c) -> sym ∈ syms -> table (sh c) !! sym = None -> table s' = <[sym := length (cells (sh c))]> (table (sh c)) ->
  cells s' = cells (sh c) ++ [x] -> stored s' = stored (sh c) ++ [(sym, cd)] -> symbol_of x = sym -> removed x = false ->
  RingBuffer.contents (ring x) = [cd] -> inv cfg c -> rings s'.
Proof.
  intros Hg Hsym Hn Ht Hc Hs E1 E2 E3 Hi. split; rewrite ?Ht; [|intros i z Hz..|intros k Hk|intros i z Hz]; rewrite ?Hc in *.
  - rewrite dom_insert. pose proof (g_table _ Hg). set_solver.
  - apply lookup_snoc_Some in Hz as [[_ Hz]|[_ <-]]; [by eapply g_live|done].
  - rewrite (pushed_snoc _ _ _ _ _ Hs). apply lookup_snoc_Some in Hz as [[_ Hz]|[_ <-]].
    + rewrite decide_False; [by apply (g_ring _ Hg i)|]. intros E. pose proof (cell_in_table c i z Hi Hg Hz). congruence.
    + rewrite E1, E3, decide_True, (g_fresh _ Hg sym Hn) by done. cbn [app]. by rewrite lastn_all by (cbn; lia).
  - rewrite lookup_insert_None in Hk. destruct Hk as [Hk Hne]. rewrite (pushed_snoc _ _ _ _ _ Hs), decide_False by done. by apply Hg.
  - rewrite (pushed_snoc _ _ _ _ _ Hs). case_decide; [by intros []%app_nil|].
    apply lookup_snoc_Some in Hz as [[_ Hz]|[_ <-]]; [by apply (g_used _ Hg i)|congruence].
Qed.

(** A symbol of the loops that is not in the table fits. *)
Lemma table_room (s : shared) sym : rings s -> sym ∈ syms -> table s !! sym = None -> (LruCache.max_symbols cfg <=? Z.of_nat (size (table s))) = false.
Proof.
  intros Hg Hsym Hn. apply Z.leb_gt. assert (Hsub : {[sym]} ∪ dom (table s) ⊆ syms) by (pose proof (g_table _ Hg); set_solver).
  apply subseteq_size in Hsub. rewrite size_union, size_singleton, size_dom in Hsub by (apply not_elem_of_dom in Hn; set_solver). lia.
Qed.

(** ** One step *)

(** What a step inside a call does to the accounts. *)
Record does (s : shared) (p : pc) (s' : shared) (p' : pc) (x : loop) : Prop := {
  o_flight : flight p = x ++ flight p';
  o_stored : stored s' = stored s ++ x;
  o_calm : calm p' = true;
  o_rings : rings s';
  o_count : (published s' + publishing p' = published s + publishing p + length x)%nat;
  o_version : version (counts s) = Z.of_nat (published s) -> version (counts s') = Z.of_nat (published s');
  o_evictions : evictions (counts s') = evictions (counts s)
}.

(** Program points only, or a cell's lock and access stamp. *)
Lemma does_quiet (s s' : shared) p p' :
  rings s' -> flight p = flight p' -> publishing p = publishing p' -> calm p' = true ->
  stored s' = stored s -> published s' = published s -> counts s' = counts s -> does s p s' p' [].
Proof. intros Hg Hf Hp Hc Hs Hpub Hk. split; rewrite ?app_nil_r, ?Hk, ?Hpub; try done. cbn [length]. lia. Qed.

Lemma calm_step (c : @conf disk) t f victim s' p' :
  inv cfg c -> rings (sh c) -> calm (pc_of c t) = true -> pc_of c t <> Idle ->
  (forall p, p ∈ flight (pc_of c t) -> p.1 ∈ syms) -> Z.of_nat (published (sh c)) < u64_max ->
  StoreConc.step cfg t f victim (sh c) (pc_of c t) = Some (s', p') -> exists x, does (sh c) (pc_of c t) s' p' x.
Proof.
  intros Hi Hg Hc Hni Hsy Hb Hst. pose proof (i_knows _ c Hi t) as Hk.
  destruct (pc_of c t) as [|j|id j|id j|id j|id j|j|j|j| | | | | |j| | | | | ] eqn:Hp; try done; cbn [StoreConc.step knows] in Hst, Hk.
  - destruct (outer (sh c)); injection Hst as <- <-; [by exists []; apply does_quiet|]. exists []. by destruct (table (sh c) !! j_sym j); apply does_quiet.
  - destruct Hk as (x & Hx & _). rewrite Hx in Hst. cbn [mbind option_bind] in Hst. injection Hst as <- <-. exists [].
    apply does_quiet; try done. by eapply rings_cell.
  - destruct Hk as (x & Hx & _). rewrite Hx in Hst. cbn [mbind option_bind] in Hst. destruct (lock x); injection Hst as <- <-; exists [];
      apply does_quiet; try done. by eapply rings_cell.
  - destruct Hk as (x & Hx & _). rewrite Hx in Hst. cbn [mbind option_bind] in Hst. rewrite (g_live _ Hg id x Hx) in Hst.
    injection Hst as <- <-. exists []. by apply does_quiet.
  - destruct Hk as (x & Hx & Hsym & _). rewrite Hx in Hst. cbn [mbind option_bind] in Hst.
    destruct (next_ring cfg x (j_candle j) (known_ring _ _ _ _ Hi Hx)) as (rb & o & E & _ & Hcont). rewrite E in Hst. cbn [mbind option_bind] in Hst.
    injection Hst as <- <-. exists [(j_sym j, j_candle j)].
    split; try (by destruct o); [|destruct o; cbn; lia].
    apply (rings_push c id x (set_lock (set_ring x rb) None) (j_candle j)); try done; try (by destruct o). by destruct o; cbn; rewrite Hsym.
  - injection Hst as <- <-. exists []. split; try done; cbn; rewrite ?app_nil_r; try done; [by eapply rings_same|lia|].
    intros ->. rewrite fetch_add1_small by lia. lia.
  - destruct (outer (sh c)); injection Hst as <- <-; exists []; apply does_quiet; try done. by eapply rings_same.
  - destruct (table (sh c) !! j_sym j) as [id|] eqn:Et.
    + injection Hst as <- <-. exists []. apply does_quiet; try done. by eapply rings_same.
    + rewrite (table_room (sh c) (j_sym j) Hg) in Hst; [|by apply (Hsy (j_sym j, j_candle j)); constructor|done].
      injection Hst as <- <-. exists []. by apply does_quiet.
  - destruct Hk as [Hn _]. destruct (first_ring cfg Hcap j) as (rb & o & E & _ & Hcont). rewrite E in Hst. cbn [mbind option_bind] in Hst.
    injection Hst as <- <-. exists [(j_sym j, j_candle j)]. split; try done; [|cbn; lia].
    eapply (rings_insert c (j_sym j)); try done. by apply (Hsy (j_sym j, j_candle j)); constructor.
Qed.

Lemma published_bound w : steady w -> Z.of_nat (published (sh (at_work w))) < u64_max.
Proof.
  intros Hy. pose proof (y_count w Hy). pose proof (Permutation_length (y_acct w Hy)) as Ha. rewrite length_app in Ha. lia.
Qed.

Lemma worker_step w e : inv cfg (at_work w) -> steady w -> exists w', step cfg w e = Some w' /\ inv cfg (at_work w') /\ steady w'.
Proof.
  destruct e as [[t f] victim]. intros Hi Hy. unfold step.
  assert (Hd : pc_of (at_work w) t = Idle \/ pc_of (at_work w) t <> Idle) by (destruct (pc_of (at_work w) t); auto). destruct Hd as [Hp|Hp].
  - rewrite Hp. destruct (left_of w t) as [|[sym c] rest] eqn:El; [by exists w|].
    destruct (fire_inv cfg Hcap (at_work w) (Start t (TryAppend sym c)) Hi) as (c' & Hf & Hi'). rewrite Hf. cbn [mbind option_bind].
    eexists. split; [done|]. split; [done|]. cbn [fire start] in Hf. rewrite Hp in Hf.
    destruct (owing_ok w t (sym, c) Hy) as [_ Hv]; [unfold owing; rewrite Hp, El; constructor|]. cbn in Hv. rewrite Hv in Hf. cbn [negb] in Hf.
    injection Hf as <-.
    apply (steady_step w _ t (count (sh (at_work w)) bump_tick) (Lookup (mkJob sym c (tick (counts (sh (at_work w)))))) []); try done;
      rewrite ?app_nil_r, ?Hp; try done; try apply Hy.
    + apply (working_below w); [done|left]. unfold owing. by rewrite Hp, El.
    + intros u Hu. unfold left_of. cbn. by rewrite lookup_insert_ne.
    + unfold owing. rewrite Hp, El. change (mkConf _ _) with (put (at_work w) (count (sh (at_work w)) bump_tick) t (Lookup (mkJob sym c (tick (counts (sh (at_work w))))))).
      cbn [at_work]. rewrite pc_of_put_eq. unfold left_of. cbn. by rewrite lookup_insert_eq.
    + by eapply rings_same; [apply Hy|..].
  - destruct (fire_inv cfg Hcap (at_work w) (Step t f victim) Hi) as (c' & Hf & Hi').
    exists (mkCrew c' (todo w)). split; [rewrite Hf; by destruct (pc_of (at_work w) t)|]. split; [done|]. cbn [fire] in Hf.
    destruct (StoreConc.step cfg t f victim (sh (at_work w)) (pc_of (at_work w) t)) as [[s' p']|] eqn:Es; [|done]. injection Hf as <-.
    destruct (calm_step (at_work w) t f victim s' p' Hi (y_rings w Hy) (y_calm w Hy t) Hp) as (x & [O1 O2 O3 O4 O5 O6 O7]); [| |done|].
    + intros p Hin. apply (owing_ok w t p Hy). unfold owing. apply elem_of_app. by left.
    + by apply published_bound.
    + apply (steady_step w _ t s' p' x); try done; [apply (working_below w); auto| |by apply O6, Hy|by rewrite O7; apply Hy].
      unfold owing. change (mkConf _ _) with (put (at_work w) s' t p'). cbn [at_work]. rewrite pc_of_put_eq, O1. by rewrite <- app_assoc.
Qed.

Lemma worker_run es : forall w,
  inv cfg (at_work w) -> steady w -> exists w', run cfg w es = Some w' /\ inv cfg (at_work w') /\ steady w'.
Proof.
  induction es as [|e es IH]; intros w Hi Hy; [by exists w|]. destruct (worker_step w e Hi Hy) as (w1 & E & Hi1 & Hy1).
  cbn [run]. rewrite E. cbn [mbind option_bind]. by apply IH.
Qed.

Lemma spawn_steady (d : disk) : steady (spawn d loops).
Proof.
  assert (Hl : forall t, left_of (spawn d loops) t = default [] (loops !! t)) by (intros t; unfold left_of, spawn; cbn; by rewrite lookup_map_seq_0).
  split; try done.
  - cbn [stored init sh spawn at_work app]. replace (owing (spawn d loops) <$> seq 0 (length loops)) with loops; [done|].
    apply list_eq. intros i. rewrite list_lookup_fmap. destruct (loops !! i) as [l|] eqn:E.
    + pose proof (lookup_lt_Some _ _ _ E). rewrite lookup_seq_lt by lia. cbn. unfold owing. rewrite Hl. by rewrite E.
    + apply lookup_ge_None in E. rewrite lookup_seq_ge by lia. done.
  - intros t Ht. split; [done|]. rewrite Hl. by rewrite lookup_ge_None_2.
  - cbn. assert (H0 : total (fun _ => 0%nat) (length loops) = 0%nat) by (induction (length loops); cbn; lia). exact H0.
Qed.

(** ** When the threads have been joined *)

(** The candles the loops hold for a symbol. *)
Definition appends (sym : string) : nat := length (of_sym sym (concat loops)).

Lemma joined_stored w : steady w -> joined w -> stored (sh (at_work w)) ≡ₚ concat loops /\ published (sh (at_work w)) = length (concat loops).
Proof.
  intros Hy Hj. assert (Hn : forall n, concat (owing w <$> seq 0 n) = []).
  { intros n. generalize 0%nat. induction n as [|n IH]; intros k; [done|]. cbn [seq fmap list_fmap concat]. rewrite IH, app_nil_r.
    unfold owing. destruct (Hj k) as [-> ->]. done. }
  pose proof (y_acct w Hy) as Ha. rewrite Hn, app_nil_r in Ha. split; [done|]. rewrite <- (Permutation_length Ha), <- (y_count w Hy).
  assert (H0 : forall n, total (fun u => publishing (pc_of (at_work w) u)) n = 0%nat); [|by rewrite H0, Nat.add_0_r].
  induction n as [|n IH]; [done|]. cbn [total]. rewrite IH. by destruct (Hj n) as [-> _].
Qed.

Lemma ring_len (c : @conf disk) id x :
  inv cfg c -> rings (sh c) -> cells (sh c) !! id = Some x ->
  RingBuffer.len (ring x) = (LruCache.ring_capacity cfg `min` length (of_sym (symbol_of x) (stored (sh c))))%nat.
Proof.
  intros Hi Hg Hx. destruct (known_ring _ _ _ _ Hi Hx) as [Hwf _]. rewrite <- (RingBuffer.contents_length _ Hwf), (g_ring _ Hg id x Hx), length_lastn.
  unfold pushed. by rewrite length_fmap.
Qed.

Lemma joined_tables w sym :
  inv cfg (at_work w) -> steady w -> joined w ->
  candle_count (sh (at_work w)) sym = (LruCache.ring_capacity cfg `min` appends sym)%nat /\
  (is_Some (table (sh (at_work w)) !! sym) <-> (0 < appends sym)%nat).
Proof.
  intros Hi Hy Hj. pose proof (y_rings w Hy) as Hg. destruct (joined_stored w Hy Hj) as [Hs _].
  assert (Ha : length (of_sym sym (stored (sh (at_work w)))) = appends sym) by (unfold appends, of_sym; by rewrite Hs).
  assert (Hp : length (pushed (sh (at_work w)) sym) = appends sym) by (unfold pushed; by rewrite length_fmap).
  unfold candle_count. destruct (table (sh (at_work w)) !! sym) as [id|] eqn:Et; cbn [mbind option_bind].
  - destruct (i_table _ _ Hi _ _ Et) as (x & Hx & Hsym). rewrite Hx, (ring_len _ id x Hi Hg Hx), Hsym, Ha. split; [done|].
    pose proof (g_used _ Hg id x Hx) as Hu. rewrite Hsym in Hu. split; [|by eexists]. intros _.
    rewrite <- Hp. destruct (pushed _ sym); [done|cbn; lia].
  - rewrite <- Hp, (g_fresh _ Hg sym Et). cbn. split; [lia|]. split; [by intros []|lia].
Qed.

(** ** The joins return *)

Definition unstarted (w : crew) : nat := length (concat (left_of w <$> seq 0 (length loops))).

Lemma starts_next (f : faults) w t :
  inv cfg (at_work w) -> steady w -> pc_of (at_work w) t = Idle -> left_of w t <> [] ->
  exists w1, step cfg w (t, f, ""%string) = Some w1 /\ inv cfg (at_work w1) /\ steady w1 /\ (unstarted w1 < unstarted w)%nat.
Proof.
  intros Hi Hy Hp Hl. destruct (worker_step w (t, f, ""%string) Hi Hy) as (w1 & E & Hi1 & Hy1). exists w1. split_and!; try done.
  assert (Ht : (t < length loops)%nat) by (apply (working_below w); [done|left; unfold owing; by rewrite Hp]).
  unfold step in E. rewrite Hp in E. destruct (left_of w t) as [|[sym c] rest] eqn:El; [done|].
  destruct (fire cfg (at_work w) _) as [c1|]; [|done]. injection E as <-. unfold unstarted.
  rewrite (concat_update (left_of w) (left_of (mkCrew c1 (<[t := rest]> (todo w)))) _ t [(sym, c)] Ht); [rewrite length_app; cbn; lia|..].
  - intros u Hu. unfold left_of. cbn. by rewrite lookup_insert_ne.
  - rewrite El. unfold left_of. cbn. by rewrite lookup_insert_eq.
Qed.

Lemma moves_on (f : faults) w t :
  inv cfg (at_work w) -> steady w -> pc_of (at_work w) t <> Idle ->
  exists e w1, step cfg w e = Some w1 /\ inv cfg (at_work w1) /\ steady w1 /\ unstarted w1 = unstarted w /\
    (measure (length loops) (at_work w1) < measure (length loops) (at_work w))%nat.
Proof.
  intros Hi Hy Hp. destruct (some_thread_moves cfg (at_work w) t Hi Hp) as (u & victim & Hu).
  assert (Hb : idle_beyond (length loops) (at_work w)) by (intros v Hv; by apply (y_idle w Hy)).
  destruct (fire_pays cfg Hcap (length loops) (at_work w) u f victim Hi Hb) as (c1 & Hf & Hi1 & _ & Hm). rewrite Hu in Hm.
  destruct (worker_step w (u, f, victim) Hi Hy) as (w1 & E & Hi1' & Hy1). exists (u, f, victim), w1. split_and!; try done.
  - unfold step in E. destruct (pc_of (at_work w) u); [done|..]; rewrite Hf in E; by injection E as <-.
  - unfold step in E. destruct (pc_of (at_work w) u); [done|..]; rewrite Hf in E; injection E as <-; cbn [at_work]; lia.
Qed.

Lemma crew_finishes (f : faults) w : inv cfg (at_work w) -> steady w -> exists es w', run cfg w es = Some w' /\ joined w'.
Proof.
  remember (unstarted w) as a eqn:Ea. revert w Ea. induction a as [a IHa] using lt_wf_ind. intros w Ea.
  remember (measure (length loops) (at_work w)) as b eqn:Eb. revert w Ea Eb. induction b as [b IHb] using lt_wf_ind. intros w Ea Eb Hi Hy.
  assert (Hcons : forall e w1, step cfg w e = Some w1 -> (exists es w', run cfg w1 es = Some w' /\ joined w') ->
    exists es w', run cfg w es = Some w' /\ joined w').
  { intros e w1 E (es & w' & Hr & Hj). exists (e :: es), w'. cbn [run]. by rewrite E. }
  destruct (idle_dec cfg Hcap (length loops) (at_work w)) as [Hn|[t Ht]]; [intros v Hv; by apply (y_idle w Hy)| |].
  - destruct (Forall_Exists_dec (fun t => left_of w t = []) (fun t => left_of w t <> []) (fun t => decide (left_of w t = [])) (seq 0 (length loops))) as [Hl|Hl].
    + exists [], w. split; [done|]. intros t. split; [done|]. destruct (decide (t < length loops)%nat); [|apply (y_idle w Hy); lia].
      rewrite Forall_forall in Hl. apply Hl, elem_of_seq. lia.
    + apply Exists_exists in Hl as (t & _ & Hl). destruct (starts_next f w t Hi Hy (Hn t) Hl) as (w1 & E & Hi1 & Hy1 & Hlt).
      eapply Hcons; [done|]. by apply (IHa (unstarted w1) ltac:(lia)).
  - destruct (moves_on f w t Hi Hy Ht) as (e & w1 & E & Hi1 & Hy1 & Hu & Hm). eapply Hcons; [done|].
    by apply (IHb (measure (length loops) (at_work w1)) ltac:(lia)); [congruence|..].
Qed.

Lemma run_joined (d : disk) (es : list (nat * faults * string)) w :
  run cfg (spawn d loops) es = Some w -> joined w ->
  stored (sh (at_work w)) ≡ₚ concat loops /\ version (counts (sh (at_work w))) = Z.of_nat (length (concat loops)) /\
  evictions (counts (sh (at_work w))) = 0 /\
  forall sym, candle_count (sh (at_work w)) sym = (LruCache.ring_capacity cfg `min` appends sym)%nat /\
    (is_Some (table (sh (at_work w)) !! sym) <-> (0 < appends sym)%nat).
Proof.
  intros Hr Hj. destruct (worker_run es (spawn d loops) (conc_init_inv cfg d) (spawn_steady d)) as (w' & E & Hi & Hy).
  rewrite Hr in E. injection E as <-. destruct (joined_stored w Hy Hj) as [Hs Hp].
  split_and!; [done|by rewrite (y_version w Hy), Hp|by apply Hy|]. intros sym. by apply joined_tables.
Qed.

(** C7. Threads that append in loops of their own, valid candles of no more
    symbols than the table has room for, under every schedule: nothing panics
    and the joins can always be reached; once the threads are joined every
    append is in [version], the candles pushed are exactly those of the loops,
    nothing was evicted, the table holds exactly the symbols appended to and
    each ring as many candles as its symbol received, up to its capacity:
    threads that race to insert one symbol share one entry. *)
Theorem workers_lose_nothing (d : disk) es :
  exists w, run cfg (spawn d loops) es = Some w /\
    (joined w ->
       stored (sh (at_work w)) ≡ₚ concat loops /\ version (counts (sh (at_work w))) = Z.of_nat (length (concat loops)) /\
       evictions (counts (sh (at_work w))) = 0 /\
       forall sym, candle_count (sh (at_work w)) sym = (LruCache.ring_capacity cfg `min` appends sym)%nat /\
         (is_Some (table (sh (at_work w)) !! sym) <-> (0 < appends sym)%nat)) /\
    (faults -> exists es' w', run cfg w es' = Some w' /\ joined w').
Proof.
  destruct (worker_run es (spawn d loops) (conc_init_inv cfg d) (spawn_steady d)) as (w & Hr & Hi & Hy).
  exists w. split; [done|]. split; [by apply (run_joined d es)|intros f; by apply crew_finishes].
Qed.
End steady.

(** ** The crews of the source *)

(** [for i in 0..n { store.append(sym, mk(a + i)) }]. *)
Definition appender (mk : Z -> Candle) (sym : string) (a n : Z) : loop := (fun i => (sym, mk (a + i))) <$> seqZ 0 n.

(** [multi_symbol_contention.rs]. *)
Definition N_THREADS : nat := 4.
Definition N_PER_THREAD : Z := 100000.
Definition make_candle (t : Z) : Candle := mkCandle t (f_of_Z 100) (f_of_Z 101) (f_of_Z 99) (f_lit 1005 10) f_one.

Definition run_contended (n : Z) : list loop := (fun t => appender make_candle "SHARED" (Z.of_nat t * n) n) <$> seq 0 N_THREADS.
Definition run_independent (n : Z) : list loop := (fun t => appender make_candle ("SYM_" +:+ Text.print (Z.of_nat t)) 0 n) <$> seq 0 N_THREADS.

(** Two concurrency tests of [store.rs]. *)
Definition candle (t : Z) : Candle := mkCandle t f_one (f_of_Z 2) (f_lit 5 10) (f_lit 15 10) (f_of_Z 100).

Definition concurrent_inserts_of_same_symbol_dont_double_create (n : Z) : list loop :=
  [appender candle "RACE" 0 n; appender candle "RACE" n n].

Definition symbols : list string := ["BTC"; "ETH"; "SOL"; "ADA"]%string.

Definition concurrent_appends_across_many_symbols_complete_without_data_loss (n : Z) : list loop :=
  (fun t => appender candle (symbols !!! (t mod length symbols)%nat) (Z.of_nat t * n) n) <$> seq 0 8.

(** [CandleStore::new(max_symbols)]. *)
Definition config (max_symbols : Z) : LruCache.config := StoreSpec.config_of (Store.new max_symbols).

Lemma appender_ok mk sym a n (syms : gset string) :
  sym ∈ syms -> (forall t, 0 <= t -> is_valid (mk t) = true) -> 0 <= a -> Forall (fun p => p.1 ∈ syms /\ is_valid p.2 = true) (appender mk sym a n).
Proof.
  intros Hs Hmk Ha. apply Forall_fmap, Forall_forall. intros i Hi%elem_of_seqZ. cbn. split; [done|]. apply Hmk. lia.
Qed.

Lemma appender_count mk sym a n sym' :
  length (of_sym sym' (appender mk sym a n)) = if decide (sym = sym') then Z.to_nat n else 0%nat.
Proof.
  unfold of_sym, appender. case_decide.
  - rewrite filter_keep, length_fmap, length_seqZ; [done|]. apply Forall_fmap, Forall_forall. by intros i _.
  - rewrite filter_drop_all; [done|]. apply Forall_fmap, Forall_forall. by intros i _.
Qed.

Lemma appender_length mk sym a n : length (appender mk sym a n) = Z.to_nat n.
Proof. unfold appender. by rewrite length_fmap, length_seqZ. Qed.

Lemma make_candle_valid t : 0 <= t -> is_valid (make_candle t) = true.
Proof. intros Ht. unfold is_valid. cbn [ts make_candle]. by rewrite (proj2 (Z.leb_le _ _) Ht). Qed.

Lemma candle_valid t : 0 <= t -> is_valid (candle t) = true.
Proof. intros Ht. unfold is_valid. cbn [ts candle]. by rewrite (proj2 (Z.leb_le _ _) Ht). Qed.

Lemma default_capacity max : (0 < LruCache.ring_capacity (config max))%nat.
Proof. change (0 < Store.DEFAULT_RING_CAPACITY)%nat. unfold Store.DEFAULT_RING_CAPACITY. lia. Qed.

Section crews.
Context {disk faults : Type} `{!ColdStorage disk faults}.

(** A crew whose loops add [k sym] candles of each symbol. *)
Lemma crew_outcome max (syms : gset string) (loops : list loop) (k : string -> Z) (d : disk) (es : list (nat * faults * string)) w :
  Z.of_nat (size syms) <= max -> Forall (Forall (fun p => p.1 ∈ syms /\ is_valid p.2 = true)) loops ->
  (forall sym, sum_list_with (fun l => length (of_sym sym l)) loops = Z.to_nat (k sym)) ->
  Z.of_nat (sum_list_with length loops) < u64_max ->
  run (config max) (spawn d loops) es = Some w -> joined w ->
  version (counts (sh (at_work w))) = Z.of_nat (sum_list_with length loops) /\
  (forall sym, candle_count (sh (at_work w)) sym = (Store.DEFAULT_RING_CAPACITY `min` Z.to_nat (k sym))%nat) /\
  forall sym, is_Some (table (sh (at_work w)) !! sym) <-> 0 < k sym.
Proof.
  intros Hm Hl Hk Hb Hr Hj.
  assert (Hlen : length (concat loops) = sum_list_with length loops).
  { clear. induction loops as [|l ls IH]; [done|]. cbn [concat sum_list_with]. by rewrite length_app, IH. }
  assert (Ha : forall sym, appends loops sym = Z.to_nat (k sym)).
  { intros sym. rewrite <- Hk. unfold appends, of_sym. clear. induction loops as [|l ls IH]; [done|]. cbn [concat sum_list_with].
    by rewrite filter_app, length_app, IH. }
  destruct (run_joined (config max) syms loops (default_capacity max) Hm) with (es := es) (d := d) (w := w) as (_ & Hv & _ & Hc);
    [by apply Forall_concat|by rewrite Hlen|exact Hr|exact Hj|].
  split; [by rewrite Hv, Hlen|]. split; intros sym; destruct (Hc sym) as [H1 H2]; rewrite Ha in *; [exact H1|]. rewrite H2. lia.
Qed.

(** The example, all threads on one symbol: every append is counted, and one
    entry holds the newest 10,000 candles at most. *)
Lemma contended_outcome n (d : disk) (es : list (nat * faults * string)) w :
  0 < n < 2 ^ 60 -> run (config 16) (spawn d (run_contended n)) es = Some w -> joined w ->
  version (counts (sh (at_work w))) = 4 * n /\
  candle_count (sh (at_work w)) "SHARED" = (Store.DEFAULT_RING_CAPACITY `min` Z.to_nat (4 * n))%nat /\
  (forall sym, is_Some (table (sh (at_work w)) !! sym) <-> sym = "SHARED"%string).
Proof.
  intros Hn Hr Hj.
  destruct (crew_outcome 16 {["SHARED"%string]} (run_contended n) (fun sym => if decide (sym = "SHARED"%string) then 4 * n else 0) d es w)
    as (Hv & Hc & Ht); [by vm_compute| | | |exact Hr|exact Hj|].
  - apply Forall_fmap, Forall_forall. intros t _. apply appender_ok; [set_solver|apply make_candle_valid|lia].
  - intros sym. cbn [run_contended N_THREADS seq fmap list_fmap sum_list_with]. rewrite !appender_count. repeat case_decide; try congruence; lia.
  - cbn [run_contended N_THREADS seq fmap list_fmap sum_list_with]. rewrite !appender_length. unfold u64_max, u64_modulus. lia.
  - split; [|split].
    + rewrite Hv. cbn [run_contended N_THREADS seq fmap list_fmap sum_list_with]. rewrite !appender_length. lia.
    + by rewrite Hc, decide_True.
    + intros sym. rewrite Ht. case_decide; [|split; [lia|done]]. split; [done|lia].
Qed.

(** The example, every thread on its own symbol: four entries. *)
Lemma independent_outcome n (d : disk) (es : list (nat * faults * string)) w t :
  0 < n < 2 ^ 60 -> run (config 16) (spawn d (run_independent n)) es = Some w -> joined w -> (t < N_THREADS)%nat ->
  version (counts (sh (at_work w))) = 4 * n /\
  candle_count (sh (at_work w)) ("SYM_" +:+ Text.print (Z.of_nat t)) = (Store.DEFAULT_RING_CAPACITY `min` Z.to_nat n)%nat.
Proof.
  intros Hn Hr Hj Ht. set (syms := (["SYM_0"; "SYM_1"; "SYM_2"; "SYM_3"]%string)).
  destruct (crew_outcome 16 (list_to_set syms) (run_independent n) (fun sym => if decide (sym ∈ syms) then n else 0) d es w)
    as (Hv & Hc & _); [by vm_compute| | | |exact Hr|exact Hj|].
  - apply Forall_fmap, Forall_forall. intros u Hu%elem_of_seq. apply appender_ok; [|apply make_candle_valid|lia].
    apply elem_of_list_to_set. unfold N_THREADS in Hu. destruct u as [|[|[|[|]]]]; [..|lia]; apply list_elem_of_In; vm_compute; auto.
  - intros sym. cbn [run_independent N_THREADS seq fmap list_fmap sum_list_with]. rewrite !appender_count.
    change ("SYM_" +:+ Text.print (Z.of_nat 0)) with "SYM_0"%string. change ("SYM_" +:+ Text.print (Z.of_nat 1)) with "SYM_1"%string.
    change ("SYM_" +:+ Text.print (Z.of_nat 2)) with "SYM_2"%string. change ("SYM_" +:+ Text.print (Z.of_nat 3)) with "SYM_3"%string.
    unfold syms. repeat case_decide; subst; try done; try lia; set_solver.
  - cbn [run_independent N_THREADS seq fmap list_fmap sum_list_with]. rewrite !appender_length. unfold u64_max, u64_modulus. lia.
  - split.
    + rewrite Hv. cbn [run_independent N_THREADS seq fmap list_fmap sum_list_with]. rewrite !appender_length. lia.
    + rewrite Hc, decide_True; [done|]. unfold N_THREADS in Ht. destruct t as [|[|[|[|]]]]; [..|lia]; apply list_elem_of_In; vm_compute; auto.
Qed.

(** The two tests, whose loops fill the rings to the brim at most. *)
Lemma race_outcome n (d : disk) (es : list (nat * faults * string)) w :
  0 < n <= 5000 -> run (config 4) (spawn d (concurrent_inserts_of_same_symbol_dont_double_create n)) es = Some w -> joined w ->
  candle_count (sh (at_work w)) "RACE" = Z.to_nat (2 * n) /\ (forall sym, is_Some (table (sh (at_work w)) !! sym) <-> sym = "RACE"%string).
Proof.
  intros Hn Hr Hj.
  destruct (crew_outcome 4 {["RACE"%string]} (concurrent_inserts_of_same_symbol_dont_double_create n) (fun sym => if decide (sym = "RACE"%string) then 2 * n else 0) d es w)
    as (_ & Hc & Ht); [by vm_compute| | | |exact Hr|exact Hj|].
  - repeat constructor; apply appender_ok; try apply candle_valid; try lia; set_solver.
  - intros sym. cbn [concurrent_inserts_of_same_symbol_dont_double_create sum_list_with]. rewrite !appender_count. repeat case_decide; try congruence; lia.
  - cbn [concurrent_inserts_of_same_symbol_dont_double_create sum_list_with]. rewrite !appender_length. unfold u64_max, u64_modulus. lia.
  - split.
    + rewrite Hc, decide_True by done. unfold Store.DEFAULT_RING_CAPACITY. lia.
    + intros sym. rewrite Ht. case_decide; [|split; [lia|done]]. split; [done|lia].
Qed.

Lemma stress_outcome n (d : disk) (es : list (nat * faults * string)) w :
  0 < n <= 5000 -> run (config 8) (spawn d (concurrent_appends_across_many_symbols_complete_without_data_loss n)) es = Some w -> joined w ->
  version (counts (sh (at_work w))) = 8 * n /\ forall sym, sym ∈ symbols -> candle_count (sh (at_work w)) sym = Z.to_nat (2 * n).
Proof.
  intros Hn Hr Hj. set (loops := concurrent_appends_across_many_symbols_complete_without_data_loss n) in *.
  assert (Hl : loops = [appender candle "BTC" (0 * n) n; appender candle "ETH" (1 * n) n; appender candle "SOL" (2 * n) n; appender candle "ADA" (3 * n) n;
    appender candle "BTC" (4 * n) n; appender candle "ETH" (5 * n) n; appender candle "SOL" (6 * n) n; appender candle "ADA" (7 * n) n]) by done.
  destruct (crew_outcome 8 (list_to_set symbols) loops (fun sym => if decide (sym ∈ symbols) then 2 * n else 0) d es w)
    as (Hv & Hc & _); [by vm_compute| | | |exact Hr|exact Hj|]; rewrite ?Hl.
  - repeat constructor; apply appender_ok; try apply candle_valid; try lia; unfold symbols; set_solver.
  - intros sym. rewrite ?Hl. cbn [sum_list_with]. rewrite !appender_count. unfold symbols. repeat case_decide; subst; try done; try lia; set_solver.
  - cbn [sum_list_with]. rewrite !appender_length. unfold u64_max, u64_modulus. lia.
  - split.
    + rewrite Hv, Hl. cbn [sum_list_with]. rewrite !appender_length. lia.
    + intros sym Hs. rewrite Hc, decide_True by done. unfold Store.DEFAULT_RING_CAPACITY. lia.
Qed.
End crews.

(** Two threads on one symbol and one on another, in a store with room for
    both: some schedule joins them, and the counts are those of the loops. *)
Section example.
#[local] Existing Instance StoreSpec.journal_cold.

Definition trio : list loop := [appender candle "A" 0 2; appender candle "A" 2 1; appender candle "B" 0 1].
Definition two_rings : LruCache.config := LruCache.mkConfig 2 8 None.

Lemma workers_lose_nothing_witness :
  exists (es : list (nat * bool * string)) w, run two_rings (spawn ([] : StoreSpec.journal) trio) es = Some w /\ joined w /\
    version (counts (sh (at_work w))) = 4 /\ candle_count (sh (at_work w)) "A" = 3%nat /\ candle_count (sh (at_work w)) "B" = 1%nat.
Proof.
  assert (H1 : (0 < LruCache.ring_capacity two_rings)%nat) by (vm_compute; lia).
  assert (H2 : Z.of_nat (size (list_to_set ["A"; "B"]%string : gset string)) <= LruCache.max_symbols two_rings) by (by vm_compute).
  assert (H3 : Forall (fun p => p.1 ∈ (list_to_set ["A"; "B"]%string : gset string) /\ is_valid p.2 = true) (concat trio)).
  { repeat constructor; cbn; set_solver. }
  assert (H4 : Z.of_nat (length (concat trio)) < u64_max) by (by vm_compute).
  destruct (workers_lose_nothing two_rings _ trio H1 H2 H3 H4 ([] : StoreSpec.journal) ([] : list (nat * bool * string))) as (w0 & E0 & _ & Hfin).
  injection E0 as <-. destruct (Hfin false) as (es & w & Hr & Hj).
  destruct (workers_lose_nothing two_rings _ trio H1 H2 H3 H4 ([] : StoreSpec.journal) es) as (w' & E & Hend & _).
  rewrite Hr in E. injection E as <-. destruct (Hend Hj) as (_ & Hv & _ & Hc).
  exists es, w. split; [exact Hr|]. split; [exact Hj|]. split; [exact Hv|]. split; [exact (proj1 (Hc "A"%string))|exact (proj1 (Hc "B"%string))].
Defined.
End example.
End StoreWorkers.
