(* ===== verification/StoreRaces.v ===== *)
(** * Racing programs on the store ([src/src/store.rs], tests)

    The tests of [store.rs] that race threads against one another: writers
    and an eviction churner that count what was accepted, an appender whose
    candles are spilled under it, a poller that takes snapshots while a writer
    runs.  A [pool] is a [StoreConc] configuration with a program for every
    thread: which call it makes next, given how many it has made and the stop
    flag, and what it has heard back.  A pool's run is a schedule of the
    concurrent store, so its theorems apply; here they are turned into the
    assertions of the tests, proved for every schedule. *)

From S2P Require Import Prelude Float64 Candle RingBuffer Cold Text Parquet Store StoreSpec StoreCold StoreConc StoreConcInv StoreConcSafe StoreConcLive StoreConcCount StoreWorkers.

#[local] Open Scope Z_scope.

Module StoreRaces.
Import StoreConc StoreConcInv StoreConcSafe StoreConcCount.

(** ** Pools *)

(** A thread's loop: the call it makes as its [i]th, and whether it makes
    one more, given the stop flag. *)
Record program : Type := mkProgram { call : nat -> op; more : bool -> nat -> bool }.

Section pool.
Context {disk faults : Type} `{!ColdStorage disk faults}.
Context (cfg : LruCache.config) (programs : list program).
Abbreviation shared := (@shared disk).
Abbreviation conf := (@conf disk).

Record pool : Type := mkPool { store : conf; stop : bool; heard : gmap nat (list reply) }.

Definition heard_by (w : pool) (t : nat) : list reply := default [] (heard w !! t).

(** A thread that is idle after a step has just been answered. *)
Definition settle (w : pool) (t : nat) (c : conf) : pool :=
  match pc_of c t, last (replies (sh c)) with
  | Idle, Some r => mkPool c (stop w) (<[t := heard_by w t ++ [r]]> (heard w))
  | _, _ => mkPool c (stop w) (heard w)
  end.

Inductive turn : Type :=
| Turn (t : nat) (f : faults) (victim : string)
| RaiseStop.                                     (* [stop.store(true)] *)

Definition step (w : pool) (e : turn) : panics pool :=
  match e with
  | RaiseStop => Some (mkPool (store w) true (heard w))
  | Turn t f victim =>
      match programs !! t with
      | None => Some w
      | Some p =>
          match pc_of (store w) t with
          | Idle =>
              let i := length (heard_by w t) in
              if more p (stop w) i then c ← fire cfg (store w) (Start t (call p i)); Some (settle w t c) else Some w
          | _ => c ← fire cfg (store w) (Step t f victim); Some (settle w t c)
          end
      end
  end.

Fixpoint run (w : pool) (es : list turn) : panics pool :=
  match es with
  | [] => Some w
  | e :: es' => w1 ← step w e; run w1 es'
  end.

(** The threads are spawned on a fresh store. *)
Definition spawn (d : disk) : pool := mkPool (init d) false ∅.

(** Every thread has left its loop. *)
Definition joined (w : pool) : Prop :=
  forall t p, programs !! t = Some p -> pc_of (store w) t = Idle /\ more p (stop w) (length (heard_by w t)) = false.

End pool.
Arguments turn faults : clear implicits.

(** ** Calls and their answers *)

Definition answers (o : op) (r : reply) : Prop :=
  match o, r with
  | TryAppend sym c, RAppend sym' c' _ => sym' = sym /\ c' = c
  | Range sym a b, RRange q _ _ _ => q = mkQuery sym a b
  | SignalWaiters, RSignal => True
  | Snapshot, RSnapshot _ _ => True
  | _, _ => False
  end.

(** The call a program point is inside of. *)
Definition inside (p : pc) : option op :=
  match p with
  | Idle => None
  | RLookup q | RHot _ q _ | RCold _ q _ _ => Some (Range (q_sym q) (q_from q) (q_to q))
  | Signalling => Some SignalWaiters
  | Counting _ _ => Some Snapshot
  | _ => (fun j => TryAppend (j_sym j) (j_candle j)) <$> job_of p
  end.

Lemma idle_or_busy (p : pc) : p = Idle \/ p <> Idle.
Proof. destruct p; [by left|by right..]. Qed.

(** What one step of the call [o] does, its first included: it goes on, or it
    returns with an answer; and it stores its candle at most once, on the way
    to its publication. *)
Inductive moved {disk} (o : op) (s : @shared disk) (p : pc) (s' : @shared disk) (p' : pc) : Prop :=
| Goes :
    inside p' = Some o -> replies s' = replies s -> stored s' = stored s -> published s' = published s ->
    (forall v b, p' = Counting v b -> p' = p \/ b = published s) -> StoreWorkers.publishing p' = StoreWorkers.publishing p -> moved o s p s' p'
| Stores j :
    o = TryAppend (j_sym j) (j_candle j) -> StoreWorkers.publishing p = 0%nat -> p' = Publish j ->
    replies s' = replies s -> stored s' = stored s ++ [(j_sym j, j_candle j)] -> published s' = published s -> moved o s p s' p'
| Returns r :
    p' = Idle -> answers o r -> replies s' = replies s ++ [r] -> stored s' = stored s -> (published s <= published s')%nat ->
    (forall a b, r = RSnapshot a b -> exists v, p = Counting v b) -> moved o s p s' p'.

Section steps.
Context {disk faults : Type} `{!ColdStorage disk faults}.
Context (cfg : LruCache.config).
Abbreviation shared := (@shared disk).
Abbreviation conf := (@conf disk).

Lemma step_moved t f victim (s : shared) p s' p' o :
  inside p = Some o -> StoreConc.step cfg t f victim s p = Some (s', p') -> moved o s p s' p'.
Proof.
  intros Hp Hst. destruct p; [done|..]; cbn [StoreConc.step] in Hst; cbn in Hp; injection Hp as <-.
  all: repeat match type of Hst with
    | context [cells ?s !! ?i ≫= _] => destruct (cells s !! i); [cbn [mbind option_bind] in Hst|discriminate Hst]
    | context [RingBuffer.push ?a ?b] => destruct (RingBuffer.push a b) as [[rb [|]]|]; [..|discriminate Hst]; cbn [mbind option_bind] in Hst
    | context [RingBuffer.to_vec ?a] => destruct (RingBuffer.to_vec a); [cbn [mbind option_bind] in Hst|discriminate Hst]
    | context [RingBuffer.range ?a ?b ?c] => destruct (RingBuffer.range a b c); [cbn [mbind option_bind] in Hst|discriminate Hst]
    | context [if ?b then _ else _] => destruct b
    | context [let out := match ?x with _ => _ end in _] => destruct x
    | context [match ?x with _ => _ end] => destruct x
    end; try discriminate Hst; injection Hst as <- <-.
  all: try (by apply Goes); try (by eapply Stores).
  all: eapply Returns; try done; try (cbn; lia); try (by destruct q); try (by intros ? ? [=]; eauto); by split.
Qed.

Lemma start_moved (s : shared) o s' p' : start s o = (s', p') -> moved o s Idle s' p'.
Proof.
  intros H. destruct o as [sym c|sym a b| | ]; cbn in H; [destruct (is_valid c)|..]; injection H as <- <-.
  2: eapply Returns; try done; by split.
  all: apply Goes; try done. intros v b [= _ <-]. by right.
Qed.

(** ** What a turn does to a pool *)

Context (programs : list program).
Abbreviation pool := (@pool disk).

Definition running (w : pool) (t : nat) (p : program) : op := call p (length (heard_by w t)).

Inductive acts (w w' : pool) : Prop :=
| Rests : store w' = store w -> heard w' = heard w -> acts w w'
| Acts t p (e : @event faults) s' p' :
    programs !! t = Some p -> fire cfg (store w) e = Some (store w') -> store w' = put (store w) s' t p' -> thread_of e = t ->
    (forall o, e = Start t o -> o = running w t p) ->
    (pc_of (store w) t = Idle -> more p (stop w) (length (heard_by w t)) = true) ->
    moved (running w t p) (sh (store w)) (pc_of (store w) t) s' p' ->
    (p' <> Idle /\ heard w' = heard w \/
     p' = Idle /\ exists r, replies s' = replies (sh (store w)) ++ [r] /\ heard w' = <[t := heard_by w t ++ [r]]> (heard w)) ->
    acts w w'.

(** Program points agree with the calls being made. *)
Definition in_calls (w : pool) : Prop :=
  forall t p, programs !! t = Some p -> pc_of (store w) t = Idle \/ inside (pc_of (store w) t) = Some (running w t p).

Lemma settle_acts w t p e (s' : shared) p' :
  programs !! t = Some p -> fire cfg (store w) e = Some (put (store w) s' t p') -> thread_of e = t ->
  (forall o, e = Start t o -> o = running w t p) ->
  (pc_of (store w) t = Idle -> more p (stop w) (length (heard_by w t)) = true) ->
  moved (running w t p) (sh (store w)) (pc_of (store w) t) s' p' ->
  acts w (settle w t (put (store w) s' t p')).
Proof.
  intros Hp Hf He Ho Hmore Hm.
  assert (Hset : settle w t (put (store w) s' t p') =
    match p', last (replies s') with
    | Idle, Some r => mkPool (put (store w) s' t p') (stop w) (<[t := heard_by w t ++ [r]]> (heard w))
    | _, _ => mkPool (put (store w) s' t p') (stop w) (heard w)
    end) by (unfold settle; by rewrite pc_of_put_eq).
  assert (Hst : store (settle w t (put (store w) s' t p')) = put (store w) s' t p') by (rewrite Hset; destruct p'; try done; by destruct (last (replies s'))).
  eapply Acts; rewrite ?Hst; try done. rewrite Hset. destruct Hm as [Hi Hr _ _ _ _|j _ _ -> Hr _ _|r -> _ Hr _ _ _].
  - left. split; [by intros ->|]. by destruct p'.
  - by left.
  - right. split; [done|]. exists r. split; [done|]. by rewrite Hr, last_snoc.
Qed.

Lemma step_acts w e w' : in_calls w -> step cfg programs w e = Some w' -> acts w w'.
Proof.
  intros Hin Hst. destruct e as [t f victim|]; cbn [step] in Hst; [|injection Hst as <-; by apply Rests].
  destruct (programs !! t) as [p|] eqn:Hp; [|injection Hst as <-; by apply Rests].
  destruct (idle_or_busy (pc_of (store w) t)) as [Hidle|Hbusy].
  - rewrite Hidle in Hst. destruct (more p (stop w) _) eqn:Em; [|injection Hst as <-; by apply Rests].
    cbn [fire] in Hst. rewrite Hidle in Hst. fold (running w t p) in Hst. destruct (start (sh (store w)) (running w t p)) as [s' p'] eqn:E.
    cbn [mbind option_bind] in Hst. injection Hst as <-. eapply (settle_acts w t p (Start t (running w t p))); try done.
    + cbn [fire]. by rewrite Hidle, E.
    + by intros o [= <-].
    + rewrite Hidle. by apply start_moved.
  - destruct (Hin t p Hp) as [|Hi]; [done|].
    assert (Hst' : (c ← fire cfg (store w) (Step t f victim); Some (settle w t c)) = Some w') by (by destruct (pc_of (store w) t)).
    clear Hst. cbn [fire] in Hst'.
    destruct (StoreConc.step cfg t f victim (sh (store w)) (pc_of (store w) t)) as [[s' p']|] eqn:E; [|done].
    cbn [mbind option_bind] in Hst'. injection Hst' as <-. eapply (settle_acts w t p (Step t f victim)); try done.
    + cbn [fire]. by rewrite E.
    + by apply (step_moved t f victim).
Qed.

(** ** The books of a pool *)

Record books (w : pool) : Prop := {
  b_in : in_calls w;
  b_out t : programs !! t = None -> pc_of (store w) t = Idle;
  b_log : replies (sh (store w)) ≡ₚ concat (heard_by w <$> seq 0 (length programs));
  b_answers (t : nat) (p : program) (i : nat) (r : reply) : programs !! t = Some p -> heard_by w t !! i = Some r -> answers (call p i) r
}.

Lemma heard_by_insert (w : pool) (c : conf) b t l u :
  heard_by (mkPool c b (<[t := l]> (heard w))) u = if decide (u = t) then l else heard_by w u.
Proof. unfold heard_by. cbn. case_decide as H; [subst; by rewrite lookup_insert_eq|by rewrite lookup_insert_ne]. Qed.

Lemma books_acts w w' : books w -> acts w w' -> books w'.
Proof.
  intros [Hin Hout Hlog Hans] [Hs Hh|t p e s' p' Hp _ Hs _ _ _ Hm Hcase].
  { unfold heard_by in *. split; unfold in_calls, running, heard_by in *; rewrite ?Hs, ?Hh; done. }
  assert (Ht : (t < length programs)%nat) by (by eapply lookup_lt_Some).
  assert (Hout' : forall u, programs !! u = None -> pc_of (store w') u = Idle).
  { intros u Hu. rewrite Hs, pc_of_put_ne by congruence. auto. }
  destruct Hcase as [[Hne Hh]|(-> & r & Hr & Hh)].
  - assert (Hr : replies s' = replies (sh (store w))) by (destruct Hm; done).
    split; try done; unfold in_calls, running, heard_by in *; rewrite ?Hh; try done; [|by rewrite Hs; cbn; rewrite Hr].
    intros u q Hq. rewrite Hs, pc_of_put. case_decide; [subst|by apply Hin]. right.
    replace q with p by congruence. by destruct Hm as [-> _ _ _ _ _|j -> _ -> _ _ _|? -> _ _ _ _ _].
  - assert (Hhb : forall u, heard_by w' u = if decide (u = t) then heard_by w t ++ [r] else heard_by w u).
    { intros u. unfold heard_by at 1. rewrite Hh. apply (heard_by_insert w (store w) (stop w)). }
    split; [|done| |].
    + intros u q Hq. unfold running. rewrite Hhb, Hs, pc_of_put. case_decide; [by left|by apply Hin].
    + rewrite Hs. cbn. rewrite Hr, Hlog, Permutation_app_comm. symmetry. apply (concat_update _ _ _ t); [done|..].
      * intros u Hu. by rewrite Hhb, decide_False.
      * by rewrite Hhb, decide_True, Permutation_app_comm.
    + intros u q i x Hq. rewrite Hhb. case_decide; [subst u|by apply Hans]. replace q with p by congruence.
      intros [[_ Hx]|[-> <-]]%lookup_snoc_Some; [by apply (Hans t)|]. destruct Hm as [_ Hr' _ _ _ _|j _ _ _ Hr' _ _|r' _ Ha Hr' _ _ _].
      * rewrite Hr' in Hr. by apply (f_equal length) in Hr; rewrite length_app in Hr; cbn in Hr; lia.
      * rewrite Hr' in Hr. by apply (f_equal length) in Hr; rewrite length_app in Hr; cbn in Hr; lia.
      * rewrite Hr' in Hr. by apply app_inj_tail in Hr as [_ <-].
Qed.

Lemma heard_spawn (d : disk) t : heard_by (spawn d) t = [].
Proof. unfold heard_by. cbn. by rewrite lookup_empty. Qed.

Lemma spawn_books (d : disk) : books (spawn d).
Proof.
  split; [by left|done| |intros t p i r _; by rewrite heard_spawn].
  assert (H : forall n m, concat (heard_by (spawn d) <$> seq m n) = []); [|by rewrite H].
  induction n as [|n IH]; intros m; [done|]. cbn. rewrite heard_spawn. apply IH.
Qed.

(** ** Runs of a pool are schedules of the store *)

Hypothesis Hcap : (0 < LruCache.ring_capacity cfg)%nat.

(** The threads are the programs', and their calls among the first [k]. *)
Definition event_of (k : nat) (e : @event faults) : Prop :=
  (thread_of e < length programs)%nat /\
  forall t o, e = Start t o -> exists p i, programs !! t = Some p /\ (i < k)%nat /\ o = call p i.

Lemma acts_heard w w' t : acts w w' -> (length (heard_by w' t) <= S (length (heard_by w t)))%nat.
Proof.
  intros [Hs Hh|u p e s' p' Hp _ _ _ _ _ _ [[_ Hh]|(_ & r & _ & Hh)]]; unfold heard_by; rewrite Hh; try lia.
  destruct (decide (t = u)) as [->|Hne]; [|rewrite lookup_insert_ne by done; lia]. rewrite lookup_insert_eq. cbn. rewrite length_app. cbn. unfold heard_by. lia.
Qed.

Lemma pool_step w e :
  inv cfg (store w) -> books w -> exists w', step cfg programs w e = Some w' /\ acts w w' /\ inv cfg (store w') /\ books w'.
Proof.
  intros Hi Hb.
  assert (Hs : exists w', step cfg programs w e = Some w').
  { destruct e as [t f victim|]; cbn [step]; [|by eexists]. destruct (programs !! t) as [p|]; [|by eexists].
    destruct (fire_inv cfg Hcap (store w) (Start t (call p (length (heard_by w t)))) Hi) as (c1 & E1 & _).
    destruct (fire_inv cfg Hcap (store w) (Step t f victim) Hi) as (c2 & E2 & _). rewrite E1, E2.
    destruct (pc_of (store w) t), (more p (stop w) (length (heard_by w t))); by eexists. }
  destruct Hs as [w' Hs]. pose proof (step_acts w e w' (b_in w Hb) Hs) as Ha. exists w'. split_and!; [done|done| |by eapply books_acts].
  destruct Ha as [E _|t p ev s' p' _ Hf _ _ _ _ _ _]; [by rewrite E|].
  destruct (fire_inv cfg Hcap (store w) ev Hi) as (c & E & Hc). rewrite Hf in E. by injection E as <-.
Qed.

Section along.
Context (P : pool -> Prop).
Hypothesis HP : forall w w', inv cfg (store w) -> books w -> acts w w' -> P w -> P w'.

Lemma pool_run es : forall w k,
  inv cfg (store w) -> books w -> P w -> (forall t, length (heard_by w t) <= k)%nat ->
  exists w' evs, run cfg programs w es = Some w' /\ inv cfg (store w') /\ books w' /\ P w' /\
    StoreConc.run cfg (store w) evs = Some (store w') /\ Forall (event_of (k + length es)) evs /\ (length evs <= length es)%nat.
Proof.
  induction es as [|e es IH]; intros w k Hi Hb Hw Hk; cbn [run length].
  { exists w, []. split_and!; done. }
  destruct (pool_step w e Hi Hb) as (w1 & E & Ha & Hi1 & Hb1). rewrite E. cbn [mbind option_bind].
  destruct (IH w1 (S k) Hi1 Hb1 (HP _ _ Hi Hb Ha Hw)) as (w2 & evs & -> & Hi2 & Hb2 & Hw2 & Hrun & Hev & Hlen).
  { intros t. pose proof (acts_heard w w1 t Ha). specialize (Hk t). lia. }
  replace (k + S (length es))%nat with (S k + length es)%nat by lia.
  destruct Ha as [Es _|t p ev s' p' Hp Hf _ Ht Ho _ _ _].
  - exists w2, evs. rewrite <- Es. split_and!; try done. lia.
  - exists w2, (ev :: evs). cbn [StoreConc.run length]. rewrite Hf. split_and!; try done; [|lia]. constructor; [|done]. split.
    + rewrite Ht. by eapply lookup_lt_Some.
    + intros u o Hu. assert (u = t) as -> by (by rewrite Hu in Ht). exists p, (length (heard_by w t)).
      split_and!; [done|specialize (Hk t); lia|by apply Ho].
Qed.
End along.

Lemma pool_run_spawned (P : pool -> Prop) (d : disk) es :
  (forall w w', inv cfg (store w) -> books w -> acts w w' -> P w -> P w') -> P (spawn d) ->
  exists w evs, run cfg programs (spawn d) es = Some w /\ inv cfg (store w) /\ books w /\ P w /\
    StoreConc.run cfg (init d) evs = Some (store w) /\ Forall (event_of (length es)) evs /\ (length evs <= length es)%nat.
Proof.
  intros HP H0. apply (pool_run P HP es (spawn d) 0); [apply conc_init_inv|apply spawn_books|done|]. intros t. by rewrite heard_spawn.
Qed.

(** A reply was heard by the thread that made the call. *)
Lemma reply_heard w r :
  books w -> In r (replies (sh (store w))) -> exists t p i, programs !! t = Some p /\ heard_by w t !! i = Some r /\ answers (call p i) r.
Proof.
  intros Hb Hin. apply list_elem_of_In in Hin. rewrite (b_log w Hb) in Hin. apply list_elem_of_In, in_concat in Hin as (l & Hl & Hr).
  apply list_elem_of_In, list_elem_of_fmap in Hl as (t & -> & Ht%elem_of_seq). apply list_elem_of_In, list_elem_of_lookup in Hr as [i Hi].
  destruct (lookup_lt_is_Some_2 programs t ltac:(lia)) as [p Hp]. exists t, p, i. split_and!; [done..|by eapply b_answers].
Qed.

Lemma heard_reply w t p r : books w -> programs !! t = Some p -> In r (heard_by w t) -> In r (replies (sh (store w))).
Proof.
  intros Hb Hp Hr. apply list_elem_of_In. rewrite (b_log w Hb). apply list_elem_of_In, in_concat. exists (heard_by w t). split; [|done].
  apply list_elem_of_In, list_elem_of_fmap. exists t. split; [done|]. apply elem_of_seq. apply lookup_lt_Some in Hp. lia.
Qed.

(** ** Counting what was accepted *)

Definition accepted (w : pool) : nat := tally is_append_ok (concat (heard_by w <$> seq 0 (length programs))).

Lemma tally_perm f l l' : l ≡ₚ l' -> tally f l = tally f l'.
Proof. unfold tally. induction 1; cbn; repeat case_match; cbn; lia. Qed.

Lemma total_none f n : (forall u, (u < n)%nat -> f u = 0%nat) -> StoreConcLive.total f n = 0%nat.
Proof. induction n as [|n IH]; intros H; cbn; [done|]. rewrite IH by (intros; apply H; lia). rewrite H by lia. done. Qed.

(** Nobody calls [signal_waiters]. *)
Hypothesis Hquiet : forall t p i, programs !! t = Some p -> call p i <> SignalWaiters.

Lemma no_signals w k : books w -> cnt (length programs) k (store w) -> signals (counts (sh (store w))) = 0.
Proof.
  intros Hb Hk. rewrite (k_signals _ _ _ Hk).
  assert (H1 : signals_done (sh (store w)) = 0%nat).
  { apply tally_none, List.Forall_forall. intros r Hr. destruct (reply_heard w r Hb Hr) as (t & p & i & Hp & _ & Ha).
    destruct r; try done. destruct (call p i) eqn:E; try done. by destruct (Hquiet t p i Hp). }
  rewrite H1, total_none; [done|]. intros u Hu. destruct (lookup_lt_is_Some_2 programs u Hu) as [p Hp].
  destruct (b_in w Hb u p Hp) as [E|E]; [by rewrite E|]. destruct (pc_of (store w) u); try done. cbn in E. injection E as E.
  by destruct (Hquiet u p _ Hp (eq_sym E)).
Qed.

Lemma counted w k : books w -> cnt (length programs) k (store w) -> version (counts (sh (store w))) = Z.of_nat (accepted w).
Proof.
  intros Hb Hk. pose proof (no_signals w k Hb Hk) as H0. rewrite (k_signals _ _ _ Hk) in H0. rewrite (k_version _ _ _ Hk).
  unfold accepted. rewrite <- (tally_perm _ _ _ (b_log w Hb)). unfold oks. lia.
Qed.

(** [snapshot] by a thread outside the pool. *)
Lemma counted_snapshot w k (f : faults) :
  books w -> cnt (length programs) k (store w) ->
  exists c, StoreConc.run cfg (store w) [Start (length programs) Snapshot; Step (length programs) f ""%string] = Some c /\
    last (replies (sh c)) = Some (RSnapshot (Z.of_nat (accepted w)) (accepted w)).
Proof.
  intros Hb Hk. pose proof (counted w k Hb Hk) as Hv. pose proof (no_signals w k Hb Hk) as H0.
  assert (Hidle : pc_of (store w) (length programs) = Idle) by (apply (b_out w Hb), lookup_ge_None; lia).
  cbn [StoreConc.run fire start]. rewrite Hidle. cbn [mbind option_bind fire]. unfold pc_of. cbn [pcs]. rewrite lookup_insert_eq. cbn.
  eexists. split; [done|]. cbn. rewrite last_snoc, Hv, H0. unfold u64_saturating_sub. rewrite Z.sub_0_r, Z.max_r by lia.
  do 2 f_equal. rewrite (k_published _ _ _ Hk). unfold accepted. by rewrite <- (tally_perm _ _ _ (b_log w Hb)).
Qed.

(** ** What a poller sees *)

Definition polls (l : list reply) : list Z := omap (fun r => match r with RSnapshot a _ => Some a | _ => None end) l.
Definition befores (l : list reply) : list nat := omap (fun r => match r with RSnapshot _ b => Some b | _ => None end) l.

Record polling (w : pool) (t : nat) : Prop := {
  pl_sorted : StronglySorted le (befores (heard_by w t));
  pl_seen : Forall (fun b => b <= published (sh (store w)))%nat (befores (heard_by w t));
  pl_now v b : pc_of (store w) t = Counting v b ->
    Forall (fun b' => b' <= b)%nat (befores (heard_by w t)) /\ (b <= published (sh (store w)))%nat
}.

Lemma polling_acts w w' : acts w w' -> (forall t, polling w t) -> forall t, polling w' t.
Proof.
  intros [Hs Hh|u p e s' p' Hp _ Hs _ _ _ Hm Hcase] Hw t; specialize (Hw t); destruct Hw as [W1 W2 W3].
  { split; unfold heard_by in *; rewrite ?Hs, ?Hh; done. }
  assert (Hpub : (published (sh (store w)) <= published s')%nat) by (destruct Hm; lia).
  assert (Hup : forall l, Forall (fun b => b <= published (sh (store w)))%nat l -> Forall (fun b => b <= published s')%nat l)
    by (intros l Hl; eapply Forall_impl; [exact Hl|]; cbn; lia).
  destruct (decide (t = u)) as [->|Hne].
  2: { assert (Hh : heard_by w' t = heard_by w t).
       { destruct Hcase as [[_ Hh]|(_ & r & _ & Hh)]; unfold heard_by; rewrite Hh; [done|]. by rewrite lookup_insert_ne. }
       split; rewrite Hh, ?Hs; cbn; [done|by apply Hup|]. rewrite pc_of_put_ne by done. intros v b Hb. destruct (W3 v b Hb). split; [done|lia]. }
  destruct Hcase as [[Hne Hh]|(-> & r & Hr & Hh)].
  - assert (Hhb : heard_by w' u = heard_by w u) by (unfold heard_by; by rewrite Hh).
    split; rewrite Hhb, ?Hs; cbn; [done|by apply Hup|]. rewrite pc_of_put_eq. intros v b ->.
    destruct Hm as [_ _ _ Hpb Hc _|j _ _ [=] _ _ _|? [=] _ _ _ _ _]. rewrite Hpb.
    destruct (Hc v b eq_refl) as [E| ->]; [by apply (W3 v)|done].
  - assert (Hhb : heard_by w' u = heard_by w u ++ [r]) by (unfold heard_by at 1; rewrite Hh; by rewrite lookup_insert_eq).
    assert (Hnew : forall a b, r = RSnapshot a b -> Forall (fun b' => b' <= b)%nat (befores (heard_by w u)) /\ (b <= published (sh (store w)))%nat).
    { intros a b ->. destruct Hm as [_ Hr' _ _ _ _|j _ _ _ Hr' _ _|r' _ _ Hr' _ _ Hcount].
      1,2: rewrite Hr' in Hr; apply (f_equal length) in Hr; rewrite length_app in Hr; cbn in Hr; lia.
      rewrite Hr' in Hr. apply app_inj_tail in Hr as [_ ->]. destruct (Hcount a b eq_refl) as [v Hv]. by apply (W3 v). }
    split; rewrite Hhb, ?Hs; cbn; unfold befores; rewrite ?omap_app; fold (befores (heard_by w u)).
    + destruct r as [| | |a b]; cbn; rewrite ?app_nil_r; try done. destruct (Hnew a b eq_refl) as [Hf _]. by apply sorted_snoc.
    + apply Forall_app. split; [by apply Hup|]. destruct r as [| | |a b]; cbn; try constructor; [|constructor].
      destruct (Hnew a b eq_refl). lia.
    + by rewrite pc_of_put_eq.
Qed.

Lemma polls_monotone w k t p :
  books w -> cnt (length programs) k (store w) -> programs !! t = Some p -> polling w t -> StronglySorted Z.le (polls (heard_by w t)).
Proof.
  intros Hb Hk Hp [Hs _ _]. assert (E : polls (heard_by w t) = Z.of_nat <$> befores (heard_by w t)).
  { assert (Hall : Forall (fun r => forall a b, r = RSnapshot a b -> a = Z.of_nat b) (heard_by w t)).
    { apply List.Forall_forall. intros r Hr a b ->. by apply (k_reply _ _ _ Hk a b (heard_reply w t p _ Hb Hp Hr)), (no_signals w k). }
    clear Hs. induction Hall as [|r l Hr Hl IH]; [done|]. unfold polls, befores in *. destruct r as [| | |a b]; cbn; [done..|].
    rewrite (Hr a b eq_refl). by f_equal. }
  rewrite E. clear E Hb Hk. induction Hs as [|b l Hs IH Hl]; cbn; constructor; [done|]. apply Forall_fmap. eapply Forall_impl; [exact Hl|]. cbn. lia.
Qed.

End steps.

(** ** One appender among evictions *)

Section victim.
Context {disk faults : Type} `{!ColdStorage disk faults} `{!ColdStorageLaws disk faults}.

(** Only timestamps matter here: nothing is asked of the files. *)
#[local] Instance any_files : ColdFiles disk faults.
Proof. by refine {| on_disk _ _ _ _ := True |}. Defined.

Context (cfg : LruCache.config) (dir : string) (programs : list program).
Context (v : nat) (pv : program) (sym : string) (mk : nat -> Candle) (limit : nat).
Hypothesis Hcap : (0 < LruCache.ring_capacity cfg)%nat.
Hypothesis Hdir : LruCache.data_dir cfg = Some dir.
(** Thread [v] appends [limit] candles stamped with their number, no more
    than a ring holds, and nobody else appends to the symbol. *)
Hypothesis Hv : programs !! v = Some pv.
Hypothesis Hcall : forall i, call pv i = TryAppend sym (mk i).
Hypothesis Hmore : forall b i, more pv b i = (i <? limit)%nat.
Hypothesis Hts : forall i, ts (mk i) = Z.of_nat i.
Hypothesis Hlimit : (limit <= LruCache.ring_capacity cfg)%nat.
Hypothesis Halone : forall t p i c, programs !! t = Some p -> t <> v -> call p i <> TryAppend sym c.
Abbreviation pool := (@pool disk).

Definition busy (p : pc) : nat := match p with Idle => 0 | _ => 1 end.

(** The symbol's candles are stored in the order of the calls. *)
Record ordered (w : pool) : Prop := {
  o_sorted : StronglySorted (fun a b => ts a <= ts b) (pushed (sh (store w)) sym);
  o_past : Forall (fun x => ts x < Z.of_nat (length (heard_by w v) + StoreWorkers.publishing (pc_of (store w) v)))
             (pushed (sh (store w)) sym);
  o_count : (length (pushed (sh (store w)) sym) <= length (heard_by w v) + StoreWorkers.publishing (pc_of (store w) v))%nat;
  o_limit : (length (heard_by w v) + busy (pc_of (store w) v) <= limit)%nat
}.

Lemma pushed_eq (s s' : @shared disk) : stored s' = stored s -> pushed s' sym = pushed s sym.
Proof. intros E. unfold pushed. by rewrite E. Qed.

Lemma ordered_spawn (d : disk) : ordered (spawn d).
Proof.
  assert (Hi : pc_of (init d) v = Idle) by done. split; rewrite ?heard_spawn; cbn; rewrite ?Hi; cbn; [constructor|constructor|lia|lia].
Qed.

(** The other threads leave the account alone. *)
Lemma ordered_other w w' t p s' p' :
  ordered w -> programs !! t = Some p -> t <> v -> store w' = put (store w) s' t p' -> heard_by w' v = heard_by w v ->
  moved (running w t p) (sh (store w)) (pc_of (store w) t) s' p' -> ordered w'.
Proof.
  intros [O1 O2 O3 O4] Hp Hne Hs Hh Hm.
  assert (Hpu : pushed s' sym = pushed (sh (store w)) sym).
  { destruct Hm as [_ _ E _ _ _|j E _ _ _ Es _|r _ _ _ E _ _]; [by apply pushed_eq| |by apply pushed_eq].
    rewrite (pushed_snoc _ _ _ _ _ Es), decide_False; [done|]. intros Ej. unfold running in E. rewrite Ej in E. by destruct (Halone t p _ _ Hp Hne E). }
  split; rewrite ?Hh, ?Hs, ?pc_of_put_ne by congruence; cbn; by rewrite ?Hpu.
Qed.

(** One step of its own call. *)
Lemma ordered_own w w' s' p' r :
  ordered w -> store w' = put (store w) s' v p' ->
  (pc_of (store w) v = Idle -> more pv (stop w) (length (heard_by w v)) = true) ->
  moved (running w v pv) (sh (store w)) (pc_of (store w) v) s' p' ->
  (p' <> Idle /\ heard_by w' v = heard_by w v \/ p' = Idle /\ heard_by w' v = heard_by w v ++ [r]) -> ordered w'.
Proof.
  intros [O1 O2 O3 O4] Hs Hm Hmv Hcase. set (n := length (heard_by w v)) in *.
  assert (Hlt : (n < limit)%nat).
  { destruct (idle_or_busy (pc_of (store w) v)) as [Hi|Hb].
    - specialize (Hm Hi). rewrite Hmore in Hm. by apply Nat.ltb_lt in Hm.
    - destruct (pc_of (store w) v); [done|cbn in O4; lia..]. }
  assert (Hbz : (busy p' <= 1)%nat) by (destruct p'; cbn; lia).
  assert (Hpz : (StoreWorkers.publishing (pc_of (store w) v) <= 1)%nat) by (destruct (pc_of (store w) v); cbn; lia).
  assert (Hup : forall m, (n + StoreWorkers.publishing (pc_of (store w) v) <= m)%nat ->
    Forall (fun x => ts x < Z.of_nat m) (pushed (sh (store w)) sym)) by (intros m Hle; eapply Forall_impl; [exact O2|]; cbn; lia).
  destruct Hmv as [Hin Hr E _ _ Hpub|j E Hnp -> _ Es _|x -> _ Hr E _ _].
  - destruct Hcase as [[_ Hh]|[-> Hh]]; [|done].
    split; rewrite ?Hh, ?Hs, ?pc_of_put_eq; cbn [sh put]; rewrite ?Hpub, ?(pushed_eq _ _ E); fold n; try done. lia.
  - destruct Hcase as [[_ Hh]|[[=] _]]. unfold running in E. rewrite Hcall in E. injection E as Ej Ec.
    assert (Hpu : pushed s' sym = pushed (sh (store w)) sym ++ [mk n]) by (rewrite (pushed_snoc _ _ _ _ _ Es), decide_True, <- Ec by done; done).
    split; rewrite ?Hh, ?Hs, ?pc_of_put_eq; cbn [sh put StoreWorkers.publishing busy]; rewrite ?Hpu; fold n; [..|lia].
    + apply sorted_snoc; [done|]. eapply Forall_impl; [apply (Hup n); lia|]. cbn. intros x Hx. rewrite Hts. lia.
    + apply Forall_app. split; [apply Hup; lia|]. apply Forall_singleton. rewrite Hts. lia.
    + rewrite length_app. cbn. lia.
  - destruct Hcase as [[[] _]|[_ Hh]]; [done|].
    split; rewrite ?Hh, ?Hs, ?pc_of_put_eq; cbn [sh put StoreWorkers.publishing busy]; rewrite ?(pushed_eq _ _ E), ?length_app; cbn [length]; fold n; [done|apply Hup; lia|lia|lia].
Qed.

Lemma ordered_acts w w' : acts cfg programs w w' -> ordered w -> ordered w'.
Proof.
  intros [Hs Hh|t p e s' p' Hp _ Hs _ _ Hm Hmv Hcase] Ho.
  { destruct Ho as [O1 O2 O3 O4]. split; unfold heard_by in *; rewrite ?Hs, ?Hh; done. }
  destruct (decide (t = v)) as [->|Hne].
  - assert (p = pv) as -> by congruence. destruct Hcase as [[Hn Hh]|(-> & r & _ & Hh)].
    + eapply (ordered_own w w' s' p' RSignal); [done..|]. left. split; [done|]. unfold heard_by. by rewrite Hh.
    + eapply (ordered_own w w' s' Idle r); [done..|]. right. split; [done|]. unfold heard_by at 1. by rewrite Hh, lookup_insert_eq.
  - eapply (ordered_other w w' t p s' p'); try done. destruct Hcase as [[_ Hh]|(_ & r & _ & Hh)]; unfold heard_by; rewrite Hh; [done|].
    by rewrite lookup_insert_ne.
Qed.

Lemma ordered_room w : ordered w -> room cfg sym (sh (store w)).
Proof.
  intros [_ _ O3 O4]. unfold room, pushed in *. rewrite length_fmap in O3.
  assert (StoreWorkers.publishing (pc_of (store w) v) <= busy (pc_of (store w) v))%nat by (destruct (pc_of (store w) v); cbn; lia). lia.
Qed.

(** ** The query at the end *)

Lemma sorted_in_order l : StronglySorted (fun a b => ts a <= ts b) l -> in_order l = true.
Proof.
  induction 1 as [|a l Hs IH Ha]; [done|]. destruct l as [|b l]; [done|].
  change ((ts a <=? ts b) && in_order (b :: l) = true). apply Forall_cons in Ha as [Ha _].
  rewrite IH, (proj2 (Z.leb_le _ _) Ha). done.
Qed.

Lemma fire_step (c : @conf disk) t (f : faults) p s' p' :
  pc_of c t = p -> StoreConc.step cfg t f "" (sh c) p = Some (s', p') -> fire cfg c (Step t f "") = Some (put c s' t p').
Proof. intros <- E. cbn [fire]. by rewrite E. Qed.

Lemma conc_run_app (c : @conf disk) (es es' : list (@event faults)) :
  StoreConc.run cfg c (es ++ es') = c1 ← StoreConc.run cfg c es; StoreConc.run cfg c1 es'.
Proof. revert c. induction es as [|e es IH]; intros c; cbn; [done|]. destruct (fire cfg c e); cbn; [apply IH|done]. Qed.

(** With every thread idle, [range] reads the entry of its symbol, if any,
    and answers within three steps. *)
Lemma idle_range (c : @conf disk) t (f : faults) from_ts to_ts :
  inv cfg c -> (forall u, pc_of c u = Idle) -> cells_ok (sh c) -> StronglySorted (fun a b => ts a <= ts b) (pushed (sh c) sym) ->
  exists c' out, StoreConc.run cfg c (Start t (Range sym from_ts to_ts) :: repeat (Step t f "") 3) = Some c' /\
    replies (sh c') = replies (sh c) ++ [RRange (mkQuery sym from_ts to_ts) out (stored (sh c)) true] /\ stored (sh c') = stored (sh c).
Proof.
  intros Hi Hidle Hc Hs. set (q := mkQuery sym from_ts to_ts).
  assert (Ho : outer (sh c) = None).
  { destruct (outer (sh c)) as [u|] eqn:E; [|done]. apply (i_outer _ c Hi) in E. by rewrite Hidle in E. }
  cbn [repeat StoreConc.run]. assert (Hst : fire cfg c (Start t (Range sym from_ts to_ts)) = Some (put c (sh c) t (RLookup q)))
    by (cbn [fire]; by rewrite Hidle).
  rewrite Hst. cbn [mbind option_bind].
  erewrite (fire_step _ t f (RLookup q)) by (rewrite ?pc_of_put_eq; cbn [StoreConc.step put sh]; by rewrite ?Ho). cbn [mbind option_bind put sh].
  destruct (table (sh c) !! q_sym q) as [id|] eqn:Et.
  - destruct (i_table _ c Hi _ _ Et) as (x & Hx & Hsym).
    assert (Hl : lock x = None).
    { destruct (lock x) as [u|] eqn:E; [|done]. assert (H : holds_buf (pc_of c u) = Some id) by (apply (i_buf _ c Hi); eauto). by rewrite Hidle in H. }
    assert (Hord : in_order (RingBuffer.contents (ring x)) = true).
    { apply sorted_in_order. eapply sorted_sublist; [|exact Hs]. apply (Hc id). unfold view. rewrite Hx. cbn. by rewrite Hsym. }
    destruct (known_ring cfg c id x Hi Hx) as [Hwf _]. pose proof (RingBuffer.range_sorted (ring x) Hwf from_ts to_ts (in_order_sorted _ Hord)) as Hr.
    erewrite (fire_step _ t f (RHot id q (stored (sh c)))) by
      (rewrite ?pc_of_put_eq; cbn [StoreConc.step put sh]; rewrite ?Hx; cbn [mbind option_bind]; rewrite ?Hl; cbn [q q_from q_to]; by rewrite ?Hr).
    cbn [mbind option_bind put sh]. rewrite Hord.
    erewrite (fire_step _ t f (RCold _ q _ true)) by (rewrite ?pc_of_put_eq; done). eexists _, _. split; [done|]. done.
  - erewrite (fire_step _ t f (RCold [] q _ true)) by (rewrite ?pc_of_put_eq; done). cbn [mbind option_bind put sh].
    erewrite (fire_step _ t f Idle) by (rewrite ?pc_of_put_eq; done). eexists _, _. split; [done|]. done.
Qed.

(** Every call brings a machine timestamp, as far as the counters reach. *)
Hypothesis Hi64 : forall t p i sy c, programs !! t = Some p -> call p i = TryAppend sy c -> Z.of_nat i <= i64_max -> is_i64 (ts c).

Lemma events_i64 k (evs : list (@event faults)) : Z.of_nat k <= i64_max -> Forall (event_of programs k) evs -> Forall i64_event evs.
Proof.
  intros Hk Hf. eapply Forall_impl; [exact Hf|]. intros [t o|t f vi] [_ He]; [|done]. destruct o as [sy c| | | ]; try done.
  destruct (He t _ eq_refl) as (p & i & Hp & Hi & E). cbn. by eapply (Hi64 t p i sy c); [|symmetry|lia].
Qed.

(** What the appender got accepted, the final query returns. *)
Lemma victim_conserved (d : disk) es :
  Z.of_nat (length es) <= i64_max ->
  exists w, run cfg programs (spawn d) es = Some w /\
    (joined programs w -> forall f, exists c out must,
       StoreConc.run cfg (store w) (Start (length programs) (Range sym 0 i64_max) :: repeat (Step (length programs) f "") 3) = Some c /\
       last (replies (sh c)) = Some (RRange (mkQuery sym 0 i64_max) out must true) /\
       forall i sy r, heard_by w v !! i = Some (RAppend sy r (Ok tt)) -> exists x, In x out /\ ts x = Z.of_nat i).
Proof.
  intros Hn.
  destruct (pool_run_spawned cfg programs Hcap ordered d es (fun w w' _ _ Ha => ordered_acts w w' Ha) (ordered_spawn d))
    as (w & evs & Hrun & Hi & Hb & Ho & Hev & Hok & _).
  exists w. split; [done|]. intros Hj f. set (n := length programs).
  pose proof (events_i64 _ _ Hn Hok) as H64. pose proof (run_kept cfg dir Hcap Hdir d evs _ sym H64 Hev) as Hd.
  assert (Hidle : forall u, pc_of (store w) u = Idle).
  { intros u. destruct (programs !! u) as [p|] eqn:Hp; [by apply (Hj u p)|by apply (b_out _ _ Hb)]. }
  destruct (idle_range (store w) n f 0 i64_max Hi Hidle (d_cells _ _ _ _ Hd) (o_sorted w Ho)) as (c & out & Hq & Hr & Hst).
  exists c, out, (stored (sh (store w))). split; [done|]. split; [by rewrite Hr, last_snoc|]. intros i sy r Hh.
  assert (Hall : StoreConc.run cfg (init d) (evs ++ Start n (Range sym 0 i64_max) :: repeat (Step n f "") 3) = Some c).
  { by rewrite conc_run_app, Hev. }
  assert (H64' : Forall i64_event (evs ++ Start n (Range sym 0 i64_max) :: repeat (Step n f ""%string) 3)) by (apply Forall_app; by split; [|repeat constructor]).
  pose proof (run_kept cfg dir Hcap Hdir d _ _ sym H64' Hall) as Hd'.
  assert (Hroom : room cfg sym (sh c)) by (unfold room; rewrite Hst; by apply ordered_room).
  pose proof (b_answers _ _ Hb v pv i _ Hv Hh) as Ha. rewrite Hcall in Ha. cbn in Ha. destruct Ha as [-> ->].
  assert (Hin : In (RAppend sym (mk i) (Ok tt)) (replies (sh (store w)))).
  { eapply (heard_reply cfg programs Hcap w v pv); [done|done|]. by eapply list_elem_of_In, list_elem_of_lookup_2. }
  assert (Hstored : In (sym, mk i) (stored (sh (store w)))) by exact (d_replies _ _ _ _ Hd (ordered_room w Ho) _ Hin).
  pose proof (d_i64 _ _ _ _ Hd _ Hstored) as [_ Hlen]. cbn in Hlen. rewrite Hts in Hlen.
  assert (Hlast : In (RRange (mkQuery sym 0 i64_max) out (stored (sh (store w))) true) (replies (sh c)))
    by (rewrite Hr; apply in_or_app; right; by left).
  destruct (proj1 (d_replies _ _ _ _ Hd' Hroom _ Hlast eq_refl) (mk i) Hstored) as (x & Hx & Ex); [cbn; rewrite Hts; lia|].
  exists x. by rewrite <- Hts.
Qed.

End victim.

(** ** The tests *)

Definition candle (i : nat) : Candle := StoreWorkers.candle (Z.of_nat i).

(** [while !stop.load(..) { .. i += 1 }] and [for i in 0..n]. *)
Definition until_stopped (stop : bool) (i : nat) : bool := negb stop.
Definition times (n : nat) (stop : bool) (i : nat) : bool := (i <? n)%nat.

Definition writer (sym : string) : program := mkProgram (fun i => TryAppend sym (candle i)) until_stopped.
Definition churner : program := mkProgram (fun i => TryAppend ("CHURN_" +:+ Text.print (Z.of_nat i mod 8)) (candle i)) until_stopped.
Definition victim (n : nat) : program := mkProgram (fun i => TryAppend "VICTIM" (candle i)) (times n).
Definition poller (n : nat) : program := mkProgram (fun _ => Snapshot) (times n).

Definition appends_during_concurrent_eviction_are_never_lost : list program := [writer "STABLE_A"; writer "STABLE_B"; churner].
Definition appends_landing_during_spill_window_are_spilled_or_kept (n : nat) : list program := [churner; victim n].
Definition snapshot_is_safe_under_concurrent_writers (n : nat) : list program := [writer "BTC"; poller n].

(** What the appender of the second test collects: [accepted_ts]. *)
Definition is_ok (r : reply) : bool := match r with RAppend _ _ (Ok _) => true | _ => false end.
Definition accepted_ts (l : list reply) : list Z := fst <$> filter (fun x => is_ok x.2 = true) (zip (Z.of_nat <$> seq 0 (length l)) l).

Lemma races_counted {disk faults : Type} `{!ColdStorage disk faults} (cfg : LruCache.config) (programs : list program) (d : disk)
    (es : list (turn faults)) :
  (0 < LruCache.ring_capacity cfg)%nat -> (forall t p i, programs !! t = Some p -> call p i <> SignalWaiters) ->
  Z.of_nat (length es) <= u64_max ->
  exists w, run cfg programs (spawn d) es = Some w /\
    version (counts (sh (store w))) = Z.of_nat (accepted programs w) /\
    (forall f, exists c, StoreConc.run cfg (store w) [Start (length programs) Snapshot; Step (length programs) f ""%string] = Some c /\
       last (replies (sh c)) = Some (RSnapshot (Z.of_nat (accepted programs w)) (accepted programs w))) /\
    forall t p, programs !! t = Some p -> StronglySorted Z.le (polls (heard_by w t)).
Proof.
  intros Hcap Hq Hn.
  destruct (pool_run_spawned cfg programs Hcap (fun w => forall t, polling w t) d es
    (fun w w' _ _ Ha Hw => polling_acts cfg programs Hcap w w' Ha Hw)) as (w & evs & Hrun & Hi & Hb & Hpo & Hev & Hok & Hlen).
  { intros t. split; rewrite ?heard_spawn; cbn; [constructor|constructor|done]. }
  assert (Hk : exists k, cnt (length programs) k (store w)).
  { eexists. eapply (cnt_run cfg _ 0 _ evs); [apply cnt_init| |done|lia|exact Hev]. eapply Forall_impl; [exact Hok|]. by intros e []. }
  destruct Hk as [k Hk]. exists w. split_and!; [done|by eapply counted|intros f; by eapply counted_snapshot|].
  intros t p Hp. by eapply polls_monotone.
Qed.

(** The two tests that count, for the stores they open: the first rotates
    symbols through a store of two, the second polls a store of four. *)
Section counting_tests.
Context {disk faults : Type} `{!ColdStorage disk faults} (d : disk) (es : list (turn faults)).
Hypothesis Hes : Z.of_nat (length es) <= u64_max.

Lemma never_lost_outcome :
  let programs := appends_during_concurrent_eviction_are_never_lost in
  exists w, run (StoreWorkers.config 2) programs (spawn d) es = Some w /\ version (counts (sh (store w))) = Z.of_nat (accepted programs w).
Proof.
  intros programs. destruct (races_counted (StoreWorkers.config 2) programs d es (StoreWorkers.default_capacity 2)) as (w & Hr & Hv & _); [|done|by exists w].
  intros [|[|[|t]]] p i Hp; [| | |done]; by injection Hp as <-.
Qed.

Lemma safe_snapshot_outcome n :
  let programs := snapshot_is_safe_under_concurrent_writers n in
  exists w, run (StoreWorkers.config 4) programs (spawn d) es = Some w /\ StronglySorted Z.le (polls (heard_by w 1)).
Proof.
  intros programs. destruct (races_counted (StoreWorkers.config 4) programs d es (StoreWorkers.default_capacity 4)) as (w & Hr & _ & _ & Hp); [|done|].
  - intros [|[|t]] p i Hp; [| |done]; by injection Hp as <-.
  - exists w. split; [done|]. by apply (Hp 1%nat (poller n)).
Qed.
End counting_tests.

(** ** Claims *)

(** C10. Racing callers are counted exactly.  Whatever calls any number of
    threads make in their loops (nobody calling [signal_waiters]), under every
    schedule, whichever entries are evicted and whichever spills fail:
    nothing panics; [version] is the number of appends the threads have been
    told succeeded, which is also what a [snapshot] taken then reports, so no
    append that lost a race with an eviction was counted or dropped; and the
    counts one thread reads in successive snapshots never decrease. *)
Theorem racing_counts {disk faults : Type} `{!ColdStorage disk faults} (cfg : LruCache.config) (programs : list program) (d : disk)
    (es : list (turn faults)) :
  (0 < LruCache.ring_capacity cfg)%nat -> (forall t p i, programs !! t = Some p -> call p i <> SignalWaiters) ->
  Z.of_nat (length es) <= u64_max ->
  exists w, run cfg programs (spawn d) es = Some w /\
    version (counts (sh (store w))) = Z.of_nat (accepted programs w) /\
    (forall f, exists c, StoreConc.run cfg (store w) [Start (length programs) Snapshot; Step (length programs) f ""%string] = Some c /\
       last (replies (sh c)) = Some (RSnapshot (Z.of_nat (accepted programs w)) (accepted programs w))) /\
    forall t p, programs !! t = Some p -> StronglySorted Z.le (polls (heard_by w t)).
Proof. apply races_counted. Qed.

(** C9. The spill window loses nothing: while a churner rotates symbols
    through a store with cold storage and forces evictions, one thread appends
    candles 0, 1, 2, ... of its own symbol, at most a ring's worth.  Under every schedule
    of the two threads and the stop flag, whatever is evicted and whichever
    spills fail, nothing panics, and once both loops have ended a query of the
    whole time range returns a candle for every timestamp whose append was
    accepted: each is hot or was spilled, also those that arrived while their
    entry was being written to disk. *)
Theorem spill_window_conserves {disk faults : Type} `{!ColdStorage disk faults} `{!ColdStorageLaws disk faults}
    (cfg : LruCache.config) (dir : string) (n : nat) (d : disk) (es : list (turn faults)) :
  let programs := appends_landing_during_spill_window_are_spilled_or_kept n in
  LruCache.data_dir cfg = Some dir -> (0 < LruCache.ring_capacity cfg)%nat -> (n <= LruCache.ring_capacity cfg)%nat ->
  Z.of_nat (length es) <= i64_max ->
  exists w, run cfg programs (spawn d) es = Some w /\
    (joined programs w -> forall f, exists c out must,
       StoreConc.run cfg (store w) (Start 2 (Range "VICTIM" 0 i64_max) :: repeat (Step 2 f ""%string) 3) = Some c /\
       last (replies (sh c)) = Some (RRange (mkQuery "VICTIM" 0 i64_max) out must true) /\
       Forall (fun t => exists x, In x out /\ ts x = t) (accepted_ts (heard_by w 1))).
Proof.
  intros programs Hdir Hcap Hn Hes.
  destruct (victim_conserved cfg dir programs 1 (victim n) "VICTIM" candle n Hcap Hdir eq_refl (fun i => eq_refl) (fun _ i => eq_refl)
    (fun i => eq_refl) Hn) with (d := d) (es := es) as (w & Hrun & Hq).
  - intros [|[|t]] p i c Hp Hne; cbn in Hp; [|done..]. injection Hp as <-. done.
  - intros t p i sy c Hp Hc Hi. assert (Hts : ts c = Z.of_nat i).
    { destruct t as [|[|t]]; cbn in Hp; [| |done]; injection Hp as <-; cbn in Hc; by injection Hc as _ <-. }
    rewrite Hts. unfold is_i64, i64_min. lia.
  - done.
  - exists w. split; [done|]. intros Hj f. destruct (Hq Hj f) as (c & out & must & H1 & H2 & H3). exists c, out, must. split; [exact H1|]. split; [done|].
    apply Forall_fmap, Forall_forall. intros [t r] [Hok Hin]%list_elem_of_filter. cbn in Hok |- *.
    apply list_elem_of_lookup in Hin as [i Hi]. apply lookup_zip_Some in Hi as [Ht Hr].
    apply list_lookup_fmap_Some in Ht as (m & -> & Hm). apply lookup_seq in Hm as [-> _]. cbn.
    destruct r as [sy x [[]|e]| | | ]; [|done..]. by eapply H3.
Qed.

(** *** Witnesses, on the Parquet directory *)

Section example.
#[local] Existing Instance Parquet.plain_codec.
#[local] Existing Instance Parquet.plain_codec_laws.
#[local] Existing Instance Parquet.parquet_cold.
#[local] Existing Instance Parquet.parquet_laws.

Definition turns (t n : nat) (victim : string) : list (turn (@Parquet.faults Parquet.plain_bytes)) := repeat (Turn t Parquet.NoFault victim) n.

(** On a store of one symbol: VICTIM's first candle is stored, the churner
    evicts it, VICTIM's second candle evicts the churner's symbol. *)
Definition tug_of_war : list (turn (@Parquet.faults Parquet.plain_bytes)) :=
  turns 1 6 "" ++ turns 0 9 "VICTIM" ++ [RaiseStop] ++ turns 1 9 "CHURN_0".

Lemma spill_window_conserves_witness :
  exists w c out must,
    run one_slot (appends_landing_during_spill_window_are_spilled_or_kept 2) (spawn (∅ : StoreCold.parquet_disk)) tug_of_war = Some w /\
    StoreConc.run one_slot (store w) (Start 2 (Range "VICTIM" 0 i64_max) :: repeat (Step 2 Parquet.NoFault ""%string) 3) = Some c /\
    last (replies (sh c)) = Some (RRange (mkQuery "VICTIM" 0 i64_max) out must true) /\
    Forall (fun t => exists x, In x out /\ ts x = t) [0; 1].
Proof.
  destruct (spill_window_conserves one_slot "data" 2 (∅ : StoreCold.parquet_disk) tug_of_war eq_refl ltac:(cbn; lia) ltac:(cbn; lia)
    ltac:(vm_compute; discriminate)) as (w & Hrun & H).
  assert (E : (fun w => (pc_of (store w) 0, pc_of (store w) 1, stop w, length (heard_by w 1), accepted_ts (heard_by w 1))) <$>
    run one_slot (appends_landing_during_spill_window_are_spilled_or_kept 2) (spawn (∅ : StoreCold.parquet_disk)) tug_of_war =
    Some (Idle, Idle, true, 2%nat, [0; 1])) by (vm_compute; reflexivity).
  rewrite Hrun in E. injection E as E1 E2 E3 E4 E5.
  assert (Hj : joined (appends_landing_during_spill_window_are_spilled_or_kept 2) w).
  { intros [|[|t]] p Hp; [| |discriminate Hp]; injection Hp as <-; split; [exact E1|cbn; by rewrite E3|exact E2|cbn; by rewrite E4]. }
  destruct (H Hj Parquet.NoFault) as (c & out & must & H1 & H2 & H3). rewrite E5 in H3.
  exists w, c, out, must. split; [exact Hrun|]. split; [exact H1|]. split; [exact H2|exact H3].
Defined.

(** Three appends and two snapshots of a poller between them. *)
Definition watched_writer : list (turn (@Parquet.faults Parquet.plain_bytes)) :=
  turns 0 6 "" ++ turns 1 2 "" ++ turns 0 14 "" ++ turns 1 2 "" ++ [RaiseStop].

Lemma racing_counts_witness :
  exists w, run one_slot (snapshot_is_safe_under_concurrent_writers 2) (spawn (∅ : StoreCold.parquet_disk)) watched_writer = Some w /\
    version (counts (sh (store w))) = Z.of_nat (accepted (snapshot_is_safe_under_concurrent_writers 2) w) /\
    polls (heard_by w 1) = [1; 3] /\ StronglySorted Z.le (polls (heard_by w 1)).
Proof.
  destruct (racing_counts one_slot (snapshot_is_safe_under_concurrent_writers 2) (∅ : StoreCold.parquet_disk) watched_writer)
    as (w & Hrun & Hv & _ & Hp); [cbn; lia| |vm_compute; discriminate|].
  { intros [|[|t]] p i E; [| |discriminate E]; injection E as <-; discriminate. }
  assert (E : (fun w => polls (heard_by w 1)) <$>
    run one_slot (snapshot_is_safe_under_concurrent_writers 2) (spawn (∅ : StoreCold.parquet_disk)) watched_writer = Some [1; 3])
    by (vm_compute; reflexivity).
  rewrite Hrun in E. injection E as E. exists w. split; [exact Hrun|]. split; [exact Hv|]. split; [exact E|exact (Hp 1%nat _ eq_refl)].
Defined.
End example.

End StoreRaces.
