(* ===== verification/Feed.v ===== *)
(** * The Binance feed ([src/src/feed.rs])

    Subscriptions and their names, the kline record and its conversion to a
    candle, one streaming session, and the reconnecting [run] over any number
    of sessions, into the store of [Store.v].

    The JSON decoder ([serde_json]), decimal parsing ([F64Text]) and Unicode
    case mapping are parameters; of the last only its ASCII part is assumed.
    The network is an argument: for each connection attempt, what connecting
    to a URL and reading the socket give. *)

From Stdlib Require Import Ascii.
From S2P Require Import Prelude Float64 Candle RingBuffer Cold Text Store StoreSpec StoreCold.

#[local] Open Scope Z_scope.

(** [str::to_uppercase] and [str::to_lowercase]. *)
Class CaseMap : Type := {
  to_uppercase : string -> string;
  to_lowercase : string -> string
}.

Definition is_ascii (c : ascii) : bool := (nat_of_ascii c <=? 127)%nat.

Definition upper_char (c : ascii) : ascii :=
  if (97 <=? nat_of_ascii c)%nat && (nat_of_ascii c <=? 122)%nat then ascii_of_nat (nat_of_ascii c - 32) else c.
Definition lower_char (c : ascii) : ascii :=
  if (65 <=? nat_of_ascii c)%nat && (nat_of_ascii c <=? 90)%nat then ascii_of_nat (nat_of_ascii c + 32) else c.

Fixpoint map_chars (f : ascii -> ascii) (s : string) : string :=
  match s with EmptyString => EmptyString | String c s' => String (f c) (map_chars f s') end.

Class CaseMapLaws (C : CaseMap) : Prop := {
  upper_ascii s : Text.all_chars is_ascii s = true -> to_uppercase s = map_chars upper_char s;
  lower_ascii s : Text.all_chars is_ascii s = true -> to_lowercase s = map_chars lower_char s
}.

Module Feed.

Record Subscription : Type := mkSub { symbol : string; interval : string }.

Inductive FeedError : Type :=
| Ws (e : Z)
| Json (e : Z)
| NoSubscriptions.

Record KlineData : Type := mkKline {
  k_ts : Z;
  k_open : string; k_high : string; k_low : string; k_close : string; k_volume : string;
  is_closed : bool;
  k_symbol : string; k_interval : string
}.

Record KlineEvent : Type := mkEvent { k : KlineData }.
Record CombinedMsg : Type := mkCombined { data : KlineEvent }.

(** [serde_json::from_str::<CombinedMsg>]. *)
Class JsonDecode : Type := from_str : string -> option CombinedMsg.

(** A WebSocket message: text, or one of the other kinds. *)
Inductive Message : Type := TextMsg (text : string) | OtherMsg.

Definition WS_BASE : string := "wss://stream.binance.com:9443/stream".

Section feed.
Context `{C : CaseMap} `{T : F64Text} `{J : JsonDecode}.

Definition stream_name (s : Subscription) : string := to_lowercase (symbol s) +:+ "@kline_" +:+ interval s.

Definition sub_key (s : Subscription) : string := to_uppercase (symbol s) +:+ String ":" (interval s).

Definition to_candle (d : KlineData) : option Candle :=
  o ← parse_f64 (k_open d);
  h ← parse_f64 (k_high d);
  l ← parse_f64 (k_low d);
  c ← parse_f64 (k_close d);
  v ← parse_f64 (k_volume d);
  Some (mkCandle (k_ts d) o h l c v).

Definition store_key (d : KlineData) : string := to_uppercase (k_symbol d) +:+ String ":" (k_interval d).

(** [format!("{}?streams={}", WS_BASE, streams.join("/"))]. *)
Definition stream_url (subs : list Subscription) : string :=
  WS_BASE +:+ "?streams=" +:+ String.concat "/" (stream_name <$> subs).

Section cold.
Context {disk faults : Type} `{!ColdStorage disk faults}.

(** What the socket delivers, with the disk faults each append would meet. *)
Definition socket : Type := list (faults * result Message Z).

(** The [while let Some(msg) = reader.next().await] loop. *)
Fixpoint stream (fuel : nat) (st : Store.t) (d : disk) (msgs : socket)
    : panics (Store.t * disk * result unit FeedError) :=
  match msgs with
  | [] => Some (st, d, Ok tt)
  | (_, Err e) :: _ => Some (st, d, Err (Ws e))
  | (f, Ok msg) :: msgs' =>
      '(st1, d1) ←
        match msg with
        | TextMsg text =>
            match from_str text with
            | Some combined =>
                let kd := k (data combined) in
                if is_closed kd then
                  match to_candle kd with
                  | Some candle => Store.append fuel f st d (store_key kd) candle
                  | None => Some (st, d)
                  end
                else Some (st, d)
            | None => Some (st, d)
            end
        | OtherMsg => Some (st, d)
        end;
      stream fuel st1 d1 msgs'
  end.

(** One attempt at connecting, as a function of the URL. *)
Definition attempt : Type := string -> result socket Z.

Definition stream_once (fuel : nat) (st : Store.t) (d : disk) (subs : list Subscription) (connect_async : attempt)
    : panics (Store.t * disk * result unit FeedError) :=
  match connect_async (stream_url subs) with
  | Err e => Some (st, d, Err (Ws e))
  | Ok msgs => stream fuel st d msgs
  end.

(** [run], seen after any number of attempts: still looping, or returned. *)
Inductive outcome : Type :=
| Looping (st : Store.t) (d : disk)
| Returned (r : result unit FeedError).

Fixpoint reconnect (fuel : nat) (st : Store.t) (d : disk) (subs : list Subscription) (net : list attempt)
    : panics (Store.t * disk) :=
  match net with
  | [] => Some (st, d)
  | a :: net' =>
      '(st1, d1, r) ← stream_once fuel st d subs a;
      match r with
      | Ok _ => reconnect fuel st1 d1 subs net'
      | Err _ => reconnect fuel st1 d1 subs net'
      end
  end.

Definition run (fuel : nat) (st : Store.t) (d : disk) (subs : list Subscription) (net : list attempt) : panics outcome :=
  match subs with
  | [] => Some (Returned (Err NoSubscriptions))
  | _ :: _ => '(st', d') ← reconnect fuel st d subs net; Some (Looping st' d')
  end.

(** ** What a feed delivers *)

(** The candle a message carries, with the key it is stored under. *)
Definition kline_of (msg : Message) : option (string * Candle) :=
  match msg with
  | TextMsg text =>
      combined ← from_str text;
      let kd := k (data combined) in
      if is_closed kd then (fun c => (store_key kd, c)) <$> to_candle kd else None
  | OtherMsg => None
  end.

(** The messages of a session up to its first error. *)
Fixpoint before_error (msgs : socket) : list (faults * Message) :=
  match msgs with
  | (f, Ok msg) :: msgs' => (f, msg) :: before_error msgs'
  | _ => []
  end.

Definition session_ops (msgs : socket) : list (faults * string * Candle) :=
  omap (fun x => (fun kc => (x.1, kc.1, kc.2)) <$> kline_of x.2) (before_error msgs).

(** The appends of all attempts, in order. *)
Definition delivered (subs : list Subscription) (net : list attempt) : list (faults * string * Candle) :=
  concat ((fun a : attempt => match a (stream_url subs) with Ok msgs => session_ops msgs | Err _ => [] end) <$> net).

(** The valid candles of one key. *)
Definition candles_of (key : string) (ops : list (faults * string * Candle)) : list Candle :=
  snd <$> filter (fun op => op.1.2 = key /\ is_valid op.2 = true) ops.

(** ** A cache that never needs to evict *)

Definition kept (cap : nat) (l : list Candle) : option (list Candle) :=
  match l with [] => None | _ => Some (lastn cap l) end.

Record roomy (cfg : LruCache.config) (keys : list string) (done : list (faults * string * Candle)) (a : LruCache.t) : Prop := {
  r_nodup : NoDup a.*1;
  r_keys : forall s, s ∈ a.*1 -> s ∈ keys;
  r_lookup key : LruCache.lookup key a = kept (LruCache.ring_capacity cfg) (candles_of key done)
}.

Lemma lookup_not_in s (a : LruCache.t) : LruCache.lookup s a = None <-> s ∉ a.*1.
Proof.
  induction a as [|[k0 cs] a IH]; simpl; [split; [set_solver|done]|]. case_decide; [split; [done|set_solver]|].
  rewrite IH. set_solver.
Qed.

Lemma candles_of_snoc key done f s c :
  candles_of key (done ++ [(f, s, c)]) =
  candles_of key done ++ (if decide (s = key /\ is_valid c = true) then [c] else []).
Proof.
  unfold candles_of. rewrite filter_app, fmap_app. f_equal. destruct (decide _) as [H|H].
  - by rewrite filter_cons_True.
  - by rewrite filter_cons_False.
Qed.

Lemma roomy_append cfg keys done a (f : faults) (d : disk) s c a' d' r :
  roomy cfg keys done a -> NoDup keys -> Z.of_nat (length keys) <= LruCache.max_symbols cfg ->
  (0 < LruCache.ring_capacity cfg)%nat -> s ∈ keys ->
  LruCache.append cfg f a d s c = (a', d', r) -> roomy cfg keys (done ++ [(f, s, c)]) a' /\ d' = d.
Proof.
  intros [Hnd Hks Hl] Hkn Hroom Hcap Hs Hap. unfold LruCache.append in Hap. destruct (is_valid c) eqn:Hv.
  2: { injection Hap as <- <- <-. split; [|done]. split; [done..|]. intros key. rewrite candles_of_snoc, decide_False by (intros [_ ?]; congruence).
       by rewrite app_nil_r. }
  assert (Hlook : forall key, candles_of key (done ++ [(f, s, c)]) = candles_of key done ++ (if decide (key = s) then [c] else [])).
  { intros key. rewrite candles_of_snoc. f_equal. destruct (decide (key = s)) as [->|Hn]; [by rewrite decide_True|]. rewrite decide_False; [done|]. by intros [-> _]. }
  destruct (LruCache.lookup s a) as [cs|] eqn:Es.
  - injection Hap as <- <- <-. split; [|done]. rewrite Hl in Es.
    assert (Hw : (LruCache.without s a).*1 = filter (fun k => k <> s) a.*1).
    { unfold LruCache.without. clear. induction a as [|[k0 cs0] a IH]; [done|]. destruct (decide (k0 = s)) as [->|Hn].
      - rewrite filter_cons_False by (simpl; auto). rewrite fmap_cons, filter_cons_False by (simpl; auto). exact IH.
      - rewrite filter_cons_True, !fmap_cons, filter_cons_True by done. f_equal. exact IH. }
    split.
    + rewrite fmap_app, Hw. apply NoDup_app. split_and!; [by apply NoDup_filter| |by apply NoDup_singleton].
      intros x [Hx _]%list_elem_of_filter Hin. apply list_elem_of_singleton in Hin. done.
    + intros x. rewrite fmap_app, Hw. intros [[_ Hx]%list_elem_of_filter|Hx]%elem_of_app; [auto|]. apply list_elem_of_singleton in Hx. by rewrite Hx.
    + intros key. rewrite StoreCold.lookup_app, StoreCold.lookup_without, Hlook.
      destruct (decide (key = s)) as [->|Hn]; simpl.
      * rewrite decide_True by done. unfold kept in Es. destruct (candles_of s done) as [|x l] eqn:Ex; [done|].
        injection Es as <-. rewrite lastn_app_lastn. by destruct l.
      * rewrite decide_False by congruence. rewrite app_nil_r, <- Hl. by destruct (LruCache.lookup key a).
  - assert (Hlen : (length a < length keys)%nat).
    { assert (Hsub : (s :: a.*1) ⊆+ keys).
      { apply NoDup_submseteq; [constructor; [by apply lookup_not_in|done]|set_solver]. }
      apply submseteq_length in Hsub. simpl in Hsub. rewrite length_fmap in Hsub. lia. }
    unfold LruCache.make_room in Hap. destruct (Z.leb_spec (LruCache.max_symbols cfg) (Z.of_nat (length a))); [lia|].
    injection Hap as <- <- <-. split; [|done]. split.
    + rewrite fmap_app. apply NoDup_app. split_and!; [done| |by apply NoDup_singleton].
      intros x Hx Hin. apply list_elem_of_singleton in Hin. simpl in Hin. subst. by apply lookup_not_in in Es.
    + intros x. rewrite fmap_app. intros [Hx|Hx]%elem_of_app; [auto|]. apply list_elem_of_singleton in Hx. by rewrite Hx.
    + intros key. rewrite StoreCold.lookup_app, Hlook. destruct (decide (key = s)) as [->|Hn].
      * rewrite Es. simpl. rewrite decide_True by done. rewrite Hl in Es. destruct (candles_of s done) as [|x l]; [|done].
        simpl. f_equal. symmetry. apply lastn_all. simpl. lia.
      * rewrite app_nil_r, <- Hl. destruct (LruCache.lookup key a); [done|]. simpl. by rewrite decide_False.
Qed.

(** ** The feed drives the store *)

(** The store holds what the deliveries so far say. *)
Record fed (cfg : LruCache.config) (keys : list string) (n : nat) (done : list (faults * string * Candle)) (st : Store.t) : Prop := {
  f_cfg : StoreSpec.config_of st = cfg;
  f_tick : Store.tick st <= Z.of_nat (length done);
  f_n : (length done <= n)%nat;
  f_cache : exists a, StoreSpec.refines st a /\ roomy cfg keys done a
}.

Context (cfg : LruCache.config) (keys : list string) (n fuel : nat).
Hypothesis Hkeys : NoDup keys.
Hypothesis Hroom : Z.of_nat (length keys) <= LruCache.max_symbols cfg.
Hypothesis Hcap : (0 < LruCache.ring_capacity cfg)%nat.
Hypothesis Hn : Z.of_nat n <= u64_max.

Lemma feed_append_fed done st (f : faults) (d : disk) s c :
  fed cfg keys n done st -> s ∈ keys -> (length done < n)%nat ->
  exists st', Store.append (S fuel) f st d s c = Some (st', d) /\ fed cfg keys n (done ++ [(f, s, c)]) st'.
Proof.
  intros [Hcfg Htk Hle (a & Href & Hr)] Hs Hlt.
  destruct (StoreSpec.sim_append fuel f st a d s c Href ltac:(lia)) as (st' & a' & d' & r & Hp & Hab & Href' & Hcfg' & Htk' & _).
  rewrite Hcfg in Hab. destruct (roomy_append cfg keys done a f d s c a' d' r Hr Hkeys Hroom Hcap Hs Hab) as [Hr' ->].
  exists st'. split; [done|]. split; [congruence|rewrite length_app; simpl; lia|rewrite length_app; simpl; lia|eauto].
Qed.

Lemma stream_fed done st (d : disk) msgs :
  fed cfg keys n done st -> (forall op, In op (session_ops msgs) -> op.1.2 ∈ keys) ->
  (length done + length (session_ops msgs) <= n)%nat ->
  exists st' r, stream (S fuel) st d msgs = Some (st', d, r) /\ fed cfg keys n (done ++ session_ops msgs) st'.
Proof.
  revert done st. induction msgs as [|[f [msg|e]] msgs IH]; intros done st Hf Hin Hlen;
    [exists st, (Ok tt); by rewrite app_nil_r| |exists st, (Err (Ws e)); by rewrite app_nil_r].
  assert (Hops : session_ops ((f, Ok msg) :: msgs) =
    match kline_of msg with Some kc => (f, kc.1, kc.2) :: session_ops msgs | None => session_ops msgs end).
  { unfold session_ops. cbn [before_error omap list_omap fst snd]. by destruct (kline_of msg). }
  rewrite Hops in Hin, Hlen |- *. cbn [stream]. unfold kline_of in Hin, Hlen |- *.
  destruct msg as [text|]; [|cbn [mbind option_bind]; by apply IH].
  destruct (from_str text) as [combined|]; [|cbn [mbind option_bind] in *; by apply IH].
  cbn [mbind option_bind] in Hin, Hlen |- *. destruct (is_closed (k (data combined))); [|cbn [mbind option_bind] in *; by apply IH].
  destruct (to_candle (k (data combined))) as [c|]; [|cbn [mbind option_bind fmap option_fmap option_map] in *; by apply IH].
  cbn [fmap option_fmap option_map fst snd length] in Hin, Hlen |- *.
  destruct (feed_append_fed done st f d (store_key (k (data combined))) c Hf) as (st1 & E & Hf1);
    [by apply (Hin (f, store_key (k (data combined)), c)); left|lia|].
  rewrite E. cbn [mbind option_bind]. destruct (IH _ _ Hf1) as (st' & r & Hst & Hf').
  - intros op Hop. apply Hin. by right.
  - rewrite length_app. simpl. lia.
  - exists st', r. split; [done|]. by rewrite <- app_assoc in Hf'.
Qed.

Lemma reconnect_fed subs net done st (d : disk) :
  fed cfg keys n done st -> (forall op, In op (delivered subs net) -> op.1.2 ∈ keys) ->
  (length done + length (delivered subs net) <= n)%nat ->
  exists st', reconnect (S fuel) st d subs net = Some (st', d) /\ fed cfg keys n (done ++ delivered subs net) st'.
Proof.
  revert done st. induction net as [|a net IH]; intros done st Hf Hin Hlen.
  { exists st. split; [done|]. by rewrite app_nil_r. }
  unfold delivered in *. cbn [fmap list_fmap concat reconnect] in *. unfold stream_once.
  destruct (a (stream_url subs)) as [msgs|e].
  - rewrite length_app in Hlen. destruct (stream_fed done st d msgs Hf) as (st1 & r & E & Hf1).
    + intros op Hop. apply Hin, in_or_app. by left.
    + lia.
    + rewrite E. cbn [mbind option_bind]. destruct (IH _ _ Hf1) as (st' & E' & Hf').
      * intros op Hop. apply Hin, in_or_app. by right.
      * rewrite length_app. lia.
      * exists st'. rewrite app_assoc. split; [|done]. by destruct r.
  - cbn [mbind option_bind]. by apply IH.
Qed.

Lemma fed_open dir : LruCache.data_dir cfg = dir ->
  fed cfg keys n [] (Store.open_store (LruCache.max_symbols cfg) (LruCache.ring_capacity cfg) dir).
Proof.
  intros <-. pose proof (StoreSpec.refines_open (LruCache.max_symbols cfg) (LruCache.ring_capacity cfg) (LruCache.data_dir cfg) Hcap) as H.
  destruct cfg as [ms rc [dd|]]; (split; [done|simpl; lia|simpl; lia|exists []; split; [exact H|]; split; [constructor|set_solver|done]]).
Qed.

Lemma fed_last_n done st key m :
  fed cfg keys n done st -> Store.last_n st key m = Some (lastn m (lastn (LruCache.ring_capacity cfg) (candles_of key done))).
Proof.
  intros [_ _ _ (a & Href & Hr)]. rewrite (StoreSpec.refines_last_n st a) by done.
  rewrite (StoreSpec.refines_hot st a), (r_lookup _ _ _ _ Hr) by done. by destruct (candles_of key done).
Qed.

End cold.

(** ** Claims *)

(** C39. The feed delivers every closed kline once and in order, across
    reconnects: after any number of connection attempts, failed ones and
    sessions cut short by an error included, [run] is still looping (only an
    empty subscription list makes it return), nothing has panicked, and as
    long as the klines have no more distinct keys than the store has room
    for, the newest candles under each key are exactly those of the closed,
    numeric, valid klines read before each session's first error, in
    arrival order. *)
Theorem feed_delivers {disk faults : Type} `{!ColdStorage disk faults} fuel cfg keys (subs : list Subscription)
    (net : list (@attempt faults)) (d : disk) :
  NoDup keys -> Z.of_nat (length keys) <= LruCache.max_symbols cfg -> (0 < LruCache.ring_capacity cfg)%nat ->
  Z.of_nat (length (delivered subs net)) <= u64_max -> (forall op, In op (delivered subs net) -> op.1.2 ∈ keys) ->
  let st0 := Store.open_store (LruCache.max_symbols cfg) (LruCache.ring_capacity cfg) (LruCache.data_dir cfg) in
  exists st,
    run (S fuel) st0 d subs net = Some (match subs with [] => Returned (Err NoSubscriptions) | _ => Looping st d end) /\
    forall key m, Store.last_n st key m =
      Some (lastn m (lastn (LruCache.ring_capacity cfg) (candles_of key (delivered subs net)))).
Proof.
  intros Hk Hroom Hcap Hn Hin st0.
  destruct (reconnect_fed cfg keys (length (delivered subs net)) fuel Hk Hroom Hcap Hn subs net [] st0 d) as (st & E & Hf);
    [by apply fed_open|done|done|].
  exists st. split; [unfold run; by destruct subs; [|rewrite E]|].
  intros key m. exact (fed_last_n _ _ _ _ _ _ _ Hf).
Qed.

(** Keys match subscriptions: for ASCII symbols and intervals without a
    colon, a kline is stored under a subscription's key exactly when its
    symbol is the subscription's up to case and its interval is the same, so
    no two subscribed streams share a ring. *)
Theorem feed_keys_match {L : CaseMapLaws C} (s : Subscription) (d : KlineData) :
  Text.all_chars is_ascii (symbol s) = true -> Text.all_chars is_ascii (k_symbol d) = true ->
  Text.all_chars (Text.other_than ":") (interval s) = true -> Text.all_chars (Text.other_than ":") (k_interval d) = true ->
  store_key d = sub_key s <->
  map_chars upper_char (k_symbol d) = map_chars upper_char (symbol s) /\ k_interval d = interval s.
Proof.
  intros H1 H2 H3 H4. unfold store_key, sub_key. rewrite !upper_ascii by done. split; [|by intros [-> ->]].
  intros E. apply (f_equal (Text.rsplit_once ":")) in E. rewrite !Text.rsplit_once_app in E by done. by injection E.
Qed.

End feed.

(** ** An example session *)

Section example.

Definition ascii_case : CaseMap := {| to_uppercase := map_chars upper_char; to_lowercase := map_chars lower_char |}.
#[local] Existing Instance ascii_case.

#[local] Instance ascii_case_laws : CaseMapLaws ascii_case.
Proof. by split. Qed.

#[local] Existing Instance PlainText.plain_text.
#[local] Existing Instance StoreSpec.journal_cold.

Definition one : string := "+4503599627370496e-52".
Definition bar (t : Z) (sym : string) (closed : bool) (price : string) : CombinedMsg :=
  mkCombined (mkEvent (mkKline t price one one one one closed sym "1m")).

(** A decoder for four messages. *)
#[local] Instance demo_json : JsonDecode := fun text =>
  if String.eqb text "a" then Some (bar 1 "BTCUSDT" true one)
  else if String.eqb text "b" then Some (bar 2 "btcusdt" true one)
  else if String.eqb text "open" then Some (bar 3 "BTCUSDT" false one)
  else if String.eqb text "bad" then Some (bar 4 "BTCUSDT" true "x")
  else None.

Definition subs1 : list Subscription := [mkSub "btcusdt" "1m"].

(** A refused connection, a session that ends in an error after which a
    message is never read, and one the server closes. *)
Definition net1 : list (@attempt bool) :=
  [fun _ => Err 111;
   fun _ => Ok [(false, Ok (TextMsg "a")); (false, Ok OtherMsg); (false, Ok (TextMsg "open")); (false, Err 5); (false, Ok (TextMsg "a"))];
   fun _ => Ok [(false, Ok (TextMsg "bad")); (false, Ok (TextMsg "junk")); (false, Ok (TextMsg "b"))]]%string.

Example url1 : stream_url [mkSub "BTCUSDT" "1m"; mkSub "EthUsdt" "5m"] =
  "wss://stream.binance.com:9443/stream?streams=btcusdt@kline_1m/ethusdt@kline_5m"%string.
Proof. vm_compute. reflexivity. Qed.

Lemma feed_delivers_witness :
  exists st, run 1 (Store.open_store 2 4 None) ([] : StoreSpec.journal) subs1 net1 = Some (Looping st []) /\
    ts <$> candles_of "BTCUSDT:1m" (delivered subs1 net1) = [1; 2] /\
    (forall m, Store.last_n st "BTCUSDT:1m" m = Some (lastn m (lastn 4 (candles_of "BTCUSDT:1m" (delivered subs1 net1))))).
Proof.
  destruct (feed_delivers 0 (LruCache.mkConfig 2 4 None) ["BTCUSDT:1m"%string] subs1 net1 ([] : StoreSpec.journal))
    as (st & H1 & H2).
  - apply NoDup_singleton.
  - simpl. lia.
  - simpl. lia.
  - vm_compute. discriminate.
  - intros op. replace (delivered subs1 net1) with
      [(false, "BTCUSDT:1m"%string, mkCandle 1 f_one f_one f_one f_one f_one); (false, "BTCUSDT:1m"%string, mkCandle 2 f_one f_one f_one f_one f_one)]
      by (vm_compute; reflexivity).
    intros [<-|[<-|[]]]; simpl; set_solver.
  - exists st. split; [exact H1|]. split; [vm_compute; reflexivity|]. intros m. apply H2.
Defined.

Lemma feed_keys_match_witness :
  store_key (mkKline 1 one one one one one true "BtcUSDT" "1m") = sub_key (mkSub "btcusdt" "1m").
Proof.
  apply (feed_keys_match (mkSub "btcusdt" "1m") (mkKline 1 one one one one one true "BtcUSDT" "1m")); [reflexivity..|].
  split; reflexivity.
Defined.

End example.
End Feed.
