(* ===== verification/Hw.v ===== *)
(** * Hardware sizing ([src/src/hw.rs])

    The profile, the sizing arithmetic on it, the cache detection of each
    target, and [CandleStore::from_hardware], which is the store's constructor
    that uses it.  The target and what its operating system answers (the
    sysfs files, [sysctlbyname], the physical core count of the [num_cpus]
    crate) are an argument. *)

From Stdlib Require Import Ascii.
From S2P Require Import Prelude Float64 Candle Text RingBuffer Cold Store.

#[local] Open Scope Z_scope.

Module Hw.

Record HardwareProfile : Type := mkProfile {
  l3_cache_bytes : Z;
  cache_line_bytes : Z;
  physical_cores : Z;
  resource_fraction : f64
}.

(** [parse_cache_size]; the products wrap as in a release build. *)
Definition parse_cache_size (s : string) : option Z :=
  match Text.strip_suffix "K" s with
  | Some k => (fun v => u64_wrapping_mul v 1024) <$> Text.parse_usize (Text.trim k)
  | None =>
      match Text.strip_suffix "M" s with
      | Some m => (fun v => u64_wrapping_mul (u64_wrapping_mul v 1024) 1024) <$> Text.parse_usize (Text.trim m)
      | None => Text.parse_usize s
      end
  end.

Definition default_l3 : Z := 8 * 1024 * 1024.

(** The target and what the machine answers: what the [level] and [size]
    files of [index0], [index1], ... read as, [None] for an unreadable one;
    the value of a sysctl, [None] when the call fails; the cores. *)
Inductive Os : Type := Linux | MacOS | OtherOs.
Inductive Arch : Type := Aarch64 | X86_64 | OtherArch.

Record machine : Type := mkMachine {
  target_os : Os;
  target_arch : Arch;
  sysfs : list (option string * option string);
  sysctlbyname : string -> option Z;
  num_physical : Z
}.

(** [default_l3_with_warning], with whether it was called before: the size
    and whether it warns. *)
Definition default_l3_with_warning (warned : bool) : Z * bool := (default_l3, negb warned).

(** The scan of [detect_l3_cache] on Linux: the first level-3 entry whose
    size parses wins. *)
Fixpoint scan_l3 (entries : list (option string * option string)) : option Z :=
  match entries with
  | [] => None
  | (Some level, Some size) :: rest =>
      if String.eqb (Text.trim level) "3" then
        match parse_cache_size (Text.trim size) with
        | Some bytes => Some bytes
        | None => scan_l3 rest
        end
      else scan_l3 rest
  | _ :: rest => scan_l3 rest
  end.

Definition sysctl_u64 (m : machine) (name : string) : Z :=
  match sysctlbyname m name with Some v => v | None => 0 end.

(** [detect_l3_cache] of each target; the boolean is whether it warned. *)
Definition detect_l3_cache (m : machine) (warned : bool) : Z * bool :=
  match target_os m with
  | Linux =>
      match scan_l3 (take 8 (sysfs m)) with
      | Some bytes => (bytes, false)
      | None => default_l3_with_warning warned
      end
  | MacOS =>
      let l3 := sysctl_u64 m "hw.l3cachesize" in
      if 0 <? l3 then (l3, false)
      else
        let l2 := sysctl_u64 m "hw.l2cachesize" in
        if 0 <? l2 then (l2, false) else default_l3_with_warning warned
  | OtherOs => default_l3_with_warning warned
  end.

Definition detect_cache_line (m : machine) : Z :=
  match target_arch m, target_os m with
  | Aarch64, MacOS => let v := sysctl_u64 m "hw.cachelinesize" in if 0 <? v then v else 128
  | Aarch64, _ => 128
  | X86_64, _ | OtherArch, _ => 64
  end.

(** [HardwareProfile::detect], [dedicated] and [with_fraction]. *)
Definition detect (m : machine) : HardwareProfile :=
  mkProfile (detect_l3_cache m true).1 (detect_cache_line m) (num_physical m) (f_div f_one (f_of_Z 3)).

Definition set_fraction (p : HardwareProfile) (x : f64) : HardwareProfile :=
  mkProfile (l3_cache_bytes p) (cache_line_bytes p) (physical_cores p) x.

Definition dedicated (m : machine) : HardwareProfile := set_fraction (detect m) f_one.

(** [f64::clamp]. *)
Definition f_clamp (x lo hi : f64) : f64 :=
  let x := if f_lt x lo then lo else x in
  if f_lt hi x then hi else x.

Definition with_fraction (p : HardwareProfile) (fraction : f64) : HardwareProfile :=
  set_fraction p (f_clamp fraction (f_lit 5 100) f_one).

Definition usable_l3_bytes (p : HardwareProfile) : Z :=
  f_to_u64 (f_mul (f_of_Z (l3_cache_bytes p)) (resource_fraction p)).

Definition usable_cores (p : HardwareProfile) : Z :=
  Z.max 1 (f_to_u64 (f_ceil (f_mul (f_of_Z (physical_cores p)) (resource_fraction p)))).

Definition ring_capacity_for (p : HardwareProfile) (max_symbols : Z) : Z :=
  let bytes_per_symbol := usable_l3_bytes p / Z.max 1 max_symbols in
  let candles := bytes_per_symbol / candle_size in
  Z.max 256 (Z.min 1000000 candles).

Definition candles_per_cache_line (p : HardwareProfile) : Z := Z.max 1 (cache_line_bytes p / candle_size).

(** [CandleStore::from_hardware]. *)
Definition from_hardware (p : HardwareProfile) (max_symbols : Z) : Store.t :=
  Store.with_capacity max_symbols (Z.to_nat (ring_capacity_for p max_symbols)).

(** ** Claims *)

(** Hardware sizing is safe and within budget on every profile, however
    odd (no cache detected, a NaN or huge fraction, any symbol count): the
    ring capacity lies in [256, 1000000], so a store built from it can take
    appends, and above the 256-candle floor the rings of all [max_symbols]
    symbols together fit the usable part of the cache; the usable core count
    is at least one; and a fraction set through [with_fraction] lies in
    [0.05, 1] unless it is NaN. *)
Theorem hw_sizing_fits p max_symbols fraction :
  let n := ring_capacity_for p max_symbols in
  256 <= n <= 1000000 /\
  (n = 256 \/ n * candle_size * Z.max 1 max_symbols <= usable_l3_bytes p) /\
  Store.wf (from_hardware p max_symbols) /\
  1 <= usable_cores p <= u64_max /\
  let x := resource_fraction (with_fraction p fraction) in
  (f_is_nan fraction = false -> f_le (f_lit 5 100) x = true /\ f_le x f_one = true) /\
  (f_is_nan fraction = true -> f_is_nan x = true).
Proof.
  cbv zeta. assert (Hn : 256 <= ring_capacity_for p max_symbols <= 1000000) by (unfold ring_capacity_for; lia).
  split; [done|]. split; [|split; [|split]].
  - unfold ring_capacity_for, candle_size in *.
    set (k := usable_l3_bytes p / Z.max 1 max_symbols). set (m := Z.max 1 max_symbols) in *.
    assert (Hm : 1 <= m) by lia. clearbody m.
    destruct (Z.le_gt_cases (k / 48) 256) as [Hle|Hgt]; [left; lia|right].
    assert (H1 : k / 48 * 48 <= k) by (pose proof (Z.mul_div_le k 48); lia).
    assert (H2 : k * m <= usable_l3_bytes p) by (unfold k; pose proof (Z.mul_div_le (usable_l3_bytes p) m); lia).
    assert (H3 : Z.max 256 (Z.min 1000000 (k / 48)) <= k / 48) by lia. nia.
  - change (Store.wf (Store.open_store max_symbols (Z.to_nat (ring_capacity_for p max_symbols)) None)).
    apply Store.open_store_wf. lia.
  - unfold usable_cores. pose proof (f_to_u64_bounds (f_ceil (f_mul (f_of_Z (physical_cores p)) (resource_fraction p)))).
    unfold u64_max, u64_modulus in *. lia.
  - unfold with_fraction, set_fraction. cbn [resource_fraction]. unfold f_clamp. split.
    + intros Hf. destruct (f_lt fraction (f_lit 5 100)) eqn:E1; [done|].
      rewrite f_lt_not_le in E1 by done. apply negb_false_iff in E1.
      destruct (f_lt f_one fraction) eqn:E2; [done|]. split; [done|].
      rewrite f_lt_not_le in E2 by done. by apply negb_false_iff in E2.
    + by destruct fraction.
Qed.

(** The shape sysfs has: two L1 entries, an L2 and a 32 MiB L3. *)
Definition workstation : machine :=
  mkMachine Linux X86_64 [(Some "1", Some "48K"); (Some "1", Some "32K"); (Some "2", Some "2048K"); (Some "3", Some "32M")]%string
    (fun _ => None) 8.

Lemma detect_demo : detect_l3_cache workstation false = (32 * 1024 * 1024, false).
Proof. vm_compute. reflexivity. Qed.

(** A Mac without an L3 sysctl falls back to its L2; a container without
    sysfs to the default, with a warning the first time. *)
Lemma detect_fallbacks :
  let mac := mkMachine MacOS Aarch64 [] (fun n => if String.eqb n "hw.l2cachesize" then Some 4194304 else None) 8 in
  let container := mkMachine Linux X86_64 [] (fun _ => None) 4 in
  detect_l3_cache mac false = (4194304, false) /\ detect_cache_line mac = 128 /\
  detect_l3_cache container false = (default_l3, true) /\ detect_l3_cache container true = (default_l3, false).
Proof. vm_compute. auto. Qed.

End Hw.
