(* ===== verification/Affinity.v ===== *)
(** * Core affinity ([src/src/affinity.rs])

    [pin_to_core] of each target as the request it hands to the operating
    system, [available_cores], and the cores the two binaries ask for.  The
    set operation [CPU_SET] of the libc crate is a parameter: it is documented
    to add a processor below [CPU_SETSIZE]. *)

From S2P Require Import Prelude Float64 Candle Text RingBuffer Cold Store Hw.

#[local] Open Scope Z_scope.

Module Affinity.

(** [usize as c_int]: the low 32 bits, as a signed number. *)
Definition c_int (z : Z) : Z := let m := z mod 2 ^ 32 in if m <? 2 ^ 31 then m else m - 2 ^ 32.

(** The processors of a [cpu_set_t]; [CPU_ZERO] is the empty set. *)
Class CpuSet : Type := CPU_SET : Z -> gset Z -> panics (gset Z).

Definition CPU_SETSIZE : Z := 1024.

Class CpuSetLaws (C : CpuSet) : Prop :=
  CPU_SET_adds : forall cpu s, 0 <= cpu < CPU_SETSIZE -> CPU_SET cpu s = Some ({[cpu]} ∪ s).

Definition THREAD_AFFINITY_POLICY : Z := 4.
Definition THREAD_AFFINITY_POLICY_COUNT : Z := 1.

(** The calls, for the calling thread. *)
Inductive request : Type :=
| sched_setaffinity (set : gset Z)
| thread_policy_set (flavor affinity_tag count : Z).

Section affinity.
Context `{C : CpuSet}.

(** [answer] is the operating system's return code. *)
Definition set_affinity (core_id : Z) (answer : request -> Z) : panics (list request * bool) :=
  set ← CPU_SET core_id ∅;
  let rq := sched_setaffinity set in Some ([rq], answer rq =? 0).

Definition set_affinity_tag (core_id : Z) (answer : request -> Z) : list request * bool :=
  let rq := thread_policy_set THREAD_AFFINITY_POLICY (c_int (u64_wrapping_add core_id 1)) THREAD_AFFINITY_POLICY_COUNT in
  ([rq], answer rq =? 0).

Definition pin_to_core (os : Hw.Os) (core_id : Z) (answer : request -> Z) : panics (list request * bool) :=
  match os with
  | Hw.Linux => set_affinity core_id answer
  | Hw.MacOS => Some (set_affinity_tag core_id answer)
  | Hw.OtherOs => Some ([], false)
  end.

(** [available_parallelism] fails or returns a non-zero number. *)
Definition available_cores (parallelism : option Z) : Z := match parallelism with Some n => n | None => 1 end.

(** The cores of the hub's ingester, strategy and executor: [main] reduces
    each, and the latter two threads reduce theirs again. *)
Definition hub_cores (hub_core : Z) (parallelism : option Z) : Z * Z * Z :=
  let cores := available_cores parallelism in
  (hub_core mod cores,
   (u64_wrapping_add hub_core 1 mod cores) mod cores,
   (u64_wrapping_add hub_core 2 mod cores) mod cores).

(** A request names a processor the machine has: the core asked for on Linux,
    and on macOS a tag that is not 0, which would mean no preference. *)
Lemma pin_request {L : CpuSetLaws C} os core_id answer cores :
  0 <= core_id < cores -> cores <= CPU_SETSIZE ->
  exists rqs ok, pin_to_core os core_id answer = Some (rqs, ok) /\
    match os with
    | Hw.Linux => rqs = [sched_setaffinity {[core_id]}]
    | Hw.MacOS => rqs = [thread_policy_set 4 (core_id + 1) 1] /\ core_id + 1 <> 0
    | Hw.OtherOs => rqs = [] /\ ok = false
    end.
Proof.
  intros H Hc. unfold CPU_SETSIZE in *. destruct os; cbn [pin_to_core].
  - unfold set_affinity. rewrite CPU_SET_adds by (unfold CPU_SETSIZE; lia). rewrite (right_id_L ∅ (∪)). by do 2 eexists.
  - unfold set_affinity_tag. do 2 eexists. split; [done|]. split; [|lia]. do 2 f_equal.
    unfold c_int, u64_wrapping_add, u64_wrap, u64_modulus. rewrite (Z.mod_small (core_id + 1)) by lia.
    rewrite Z.mod_small by lia. by destruct (Z.ltb_spec (core_id + 1) (2 ^ 31)); [|lia].
  - by do 2 eexists.
Qed.

Lemma mod_shift_neq a d n : 0 < d < n -> a mod n <> (a + d) mod n.
Proof.
  intros H E. pose proof (Z.div_mod a n ltac:(lia)). pose proof (Z.div_mod (a + d) n ltac:(lia)).
  assert (Hk : d = n * ((a + d) / n - a / n)) by lia. set (k := (a + d) / n - a / n) in *.
  destruct (Z.le_gt_cases k 0); nia.
Qed.

(** The three hot threads of the hub get cores the machine has, and on a
    machine with three or more no two share one. *)
Lemma hub_cores_distinct hub_core cores :
  0 < cores -> 0 <= hub_core < u64_max - 1 ->
  let '(i, s, e) := hub_cores hub_core (Some cores) in
  (0 <= i < cores /\ 0 <= s < cores /\ 0 <= e < cores) /\ (3 <= cores -> i <> s /\ s <> e /\ i <> e).
Proof.
  intros Hc Hh. unfold hub_cores. cbn [available_cores]. unfold u64_wrapping_add, u64_wrap, u64_max, u64_modulus in *.
  rewrite (Z.mod_small (hub_core + 1)), (Z.mod_small (hub_core + 2)) by lia. rewrite !Z.mod_mod by lia.
  pose proof (Z.mod_pos_bound hub_core cores Hc). pose proof (Z.mod_pos_bound (hub_core + 1) cores Hc).
  pose proof (Z.mod_pos_bound (hub_core + 2) cores Hc). split; [lia|]. intros H3.
  pose proof (mod_shift_neq hub_core 1 cores ltac:(lia)). pose proof (mod_shift_neq (hub_core + 1) 1 cores ltac:(lia)).
  pose proof (mod_shift_neq hub_core 2 cores ltac:(lia)). rewrite <- Z.add_assoc in *. split_and!; assumption.
Qed.

End affinity.

(** A 1024-bit mask, and the hub's cores on a machine of four. *)
#[local] Instance mask_set : CpuSet := fun cpu s => if (0 <=? cpu) && (cpu <? CPU_SETSIZE) then Some ({[cpu]} ∪ s) else None.

#[local] Instance mask_set_laws : CpuSetLaws mask_set.
Proof. intros cpu s H. unfold CPU_SET, mask_set. by destruct (Z.leb_spec 0 cpu), (Z.ltb_spec cpu CPU_SETSIZE); try lia. Qed.

Example hub_on_four : hub_cores 3 (Some 4) = (3, 0, 1).
Proof. reflexivity. Qed.

Example pin_three :
  exists rqs ok, pin_to_core Hw.Linux 3 (fun _ => 0) = Some (rqs, ok) /\ rqs = [sched_setaffinity {[3]}].
Proof. destruct (pin_request Hw.Linux 3 (fun _ => 0) 4 ltac:(lia) ltac:(vm_compute; congruence)) as (rqs & ok & H1 & H2). by exists rqs, ok. Qed.
End Affinity.
