(* ===== verification/CacheLadder.v ===== *)
(** * The memory-ladder example ([src/examples/cache_ladder.rs])

    [build_chase_chain] lays out a pointer chase, one node per cache line,
    and [measure_latency_ns] follows it with [get_unchecked]: the only unsafe
    indexing among the examples.  Modelled are the chain and the chase; the
    timing and the printed table are not.  An index panic of the safe part is
    [None]; an unchecked access outside the chain is [None] too, so that a
    total chase means the unsafe block is never reached with a bad index. *)

From S2P Require Import Prelude.

#[local] Open Scope Z_scope.

Module CacheLadder.

Definition USIZE_BYTES : Z := 8.

(** [rng.wrapping_mul(6364136223846793005).wrapping_add(1442695040888963407)]. *)
Definition next_rng (rng : Z) : Z := u64_wrapping_add (u64_wrapping_mul rng 6364136223846793005) 1442695040888963407.

(** [slice::swap]. *)
Definition swap (l : list nat) (i j : nat) : panics (list nat) :=
  a ← l !! i; b ← l !! j; Some (<[j := a]> (<[i := b]> l)).

(** [for i in (1..n).rev()]: the indices [i], [i - 1], ..., 1. *)
Fixpoint shuffle (i : nat) (rng : Z) (perm : list nat) : panics (list nat) :=
  match i with
  | O => Some perm
  | S i' =>
      let rng := next_rng rng in
      perm' ← swap perm i (Z.to_nat (rng mod (Z.of_nat i + 1)));
      shuffle i' rng perm'
  end.

Definition permutation (n : nat) : panics (list nat) := shuffle (n - 1) 0x123456789 (seq 0 n).

(** [for i in 0..n { chain[i * stride] = perm[i] * stride }]. *)
Fixpoint fill (n stride : nat) (perm : list nat) (chain : list nat) : panics (list nat) :=
  match n with
  | O => Some chain
  | S i =>
      chain' ← fill i stride perm chain;
      p ← perm !! i;
      if (i * stride <? length chain')%nat then Some (<[(i * stride)%nat := (p * stride)%nat]> chain') else None
  end.

Definition node_count (size_bytes cache_line : Z) : nat := Z.to_nat (Z.max 2 (size_bytes / cache_line)).
Definition stride_of (cache_line : Z) : nat := Z.to_nat (cache_line / USIZE_BYTES).

Definition build_chase_chain (size_bytes cache_line : Z) : panics (list nat) :=
  let stride := stride_of cache_line in
  let n := node_count size_bytes cache_line in
  perm ← permutation n;
  fill n stride perm (replicate (n * stride) 0%nat).

(** [n_hops] of [measure_latency_ns]. *)
Definition n_hops (size_bytes cache_line : Z) : Z :=
  let n_nodes := size_bytes / cache_line in Z.max 5 (50000000 / Z.max 1 n_nodes) * n_nodes.

(** The unchecked loop. *)
Fixpoint chase (chain : list nat) (hops : nat) (pos : nat) : panics nat :=
  match hops with
  | O => Some pos
  | S hops' => pos' ← chain !! pos; chase chain hops' pos'
  end.

(** ** The shuffle is a permutation *)

Lemma swap_permutes l i j : (i < length l)%nat -> (j < length l)%nat -> exists l', swap l i j = Some l' /\ l' ≡ₚ l.
Proof.
  intros Hi Hj. destruct (lookup_lt_is_Some_2 l i Hi) as [a Ha]. destruct (lookup_lt_is_Some_2 l j Hj) as [b Hb].
  unfold swap. rewrite Ha, Hb. cbn [mbind option_bind]. eexists. split; [done|].
  destruct (decide (i = j)) as [->|Hne]; [simplify_eq; rewrite list_insert_insert_eq; by rewrite list_insert_id|].
  symmetry. apply Permutation_inj. split; [by rewrite !length_insert|].
  exists (fun k => if decide (k = i) then j else if decide (k = j) then i else k). split.
  - intros x y. repeat case_decide; congruence.
  - intros k. repeat case_decide; subst.
    + by rewrite list_lookup_insert_eq by (by rewrite length_insert).
    + by rewrite list_lookup_insert_ne, list_lookup_insert_eq by done.
    + by rewrite !list_lookup_insert_ne by done.
Qed.

Lemma shuffle_permutes i : forall rng perm, (i < length perm)%nat \/ i = 0%nat -> exists perm', shuffle i rng perm = Some perm' /\ perm' ≡ₚ perm.
Proof.
  induction i as [|i IH]; intros rng perm Hi; cbn [shuffle]; [by exists perm|].
  set (j := Z.to_nat (next_rng rng mod (Z.of_nat (S i) + 1))).
  assert (Hj : (j <= S i)%nat) by (unfold j; pose proof (Z.mod_pos_bound (next_rng rng) (Z.of_nat (S i) + 1) ltac:(lia)); lia).
  destruct (swap_permutes perm (S i) j) as (p1 & E & H1); [lia|lia|]. rewrite E. cbn [mbind option_bind].
  pose proof (Permutation_length H1). destruct (IH (next_rng rng) p1) as (p2 & E2 & H2); [lia|].
  exists p2. split; [done|]. by rewrite H2.
Qed.

Lemma permutation_spec n : exists perm, permutation n = Some perm /\ perm ≡ₚ seq 0 n.
Proof. apply shuffle_permutes. rewrite length_seq. destruct n; [by right|left; lia]. Qed.

(** ** The chain *)

Lemma fill_spec stride perm n0 : (0 < stride)%nat -> forall n chain,
  (n <= n0)%nat -> length perm = n0 -> length chain = (n0 * stride)%nat ->
  exists chain', fill n stride perm chain = Some chain' /\ length chain' = (n0 * stride)%nat /\
    forall i p, (i < n)%nat -> perm !! i = Some p -> chain' !! (i * stride)%nat = Some (p * stride)%nat.
Proof.
  intros Hs. induction n as [|n IH]; intros chain Hn Hp Hl; cbn [fill]; [exists chain; split_and!; [done..|lia]|].
  destruct (IH chain ltac:(lia) Hp Hl) as (chain' & -> & Hl' & Hc). cbn [mbind option_bind].
  destruct (lookup_lt_is_Some_2 perm n) as [p Hpn]; [lia|]. rewrite Hpn. cbn [mbind option_bind].
  assert (Hlt : (n * stride < length chain')%nat) by (rewrite Hl'; apply Nat.mul_lt_mono_pos_r; lia).
  rewrite (proj2 (Nat.ltb_lt _ _) Hlt). eexists. split; [done|]. rewrite length_insert. split; [done|].
  intros i q Hi Hq. destruct (decide (i = n)) as [->|Hne].
  - rewrite Hpn in Hq. injection Hq as <-. by rewrite list_lookup_insert_eq.
  - rewrite list_lookup_insert_ne by (intros E; apply Nat.mul_cancel_r in E; lia). apply Hc; [lia|done].
Qed.

(** Where a chase can be: at the start of a node. *)
Definition node_pos (n stride pos : nat) : Prop := exists i, (i < n)%nat /\ pos = (i * stride)%nat.

Lemma chase_stays chain n stride :
  (forall i, (i < n)%nat -> exists j, (j < n)%nat /\ chain !! (i * stride)%nat = Some (j * stride)%nat) ->
  forall hops pos, node_pos n stride pos -> exists pos', chase chain hops pos = Some pos' /\ node_pos n stride pos'.
Proof.
  intros Hc. induction hops as [|hops IH]; intros pos (i & Hi & ->); cbn [chase]; [eexists; split; [done|]; by exists i|].
  destruct (Hc i Hi) as (j & Hj & ->). cbn [mbind option_bind]. apply IH. by exists j.
Qed.

(** The unchecked reads of the latency measurement are in bounds: for any
    working-set size and any cache line that holds a [usize], the chain is
    built without a panic and every hop of a chase of any length from its
    start reads inside it. *)
Theorem chase_in_bounds size_bytes cache_line hops :
  0 <= size_bytes -> USIZE_BYTES <= cache_line ->
  exists chain pos, build_chase_chain size_bytes cache_line = Some chain /\ chase chain hops 0 = Some pos /\ (pos < length chain)%nat.
Proof.
  intros Hs Hc. set (n := node_count size_bytes cache_line). set (stride := stride_of cache_line).
  assert (Hn : (2 <= n)%nat) by (unfold n, node_count; lia).
  assert (Hst : (0 < stride)%nat).
  { unfold stride, stride_of, USIZE_BYTES in *. pose proof (Z.div_str_pos cache_line 8 ltac:(lia)). lia. }
  destruct (permutation_spec n) as (perm & Hp & Hperm). pose proof (Permutation_length Hperm) as Hlen. rewrite length_seq in Hlen.
  destruct (fill_spec stride perm n Hst n (replicate (n * stride) 0%nat)) as (chain & Hf & Hl & Hch); [lia|done|by rewrite length_replicate|].
  destruct (chase_stays chain n stride) with (hops := hops) (pos := 0%nat) as (pos & Hpos & i & Hi & ->).
  - intros i Hi. destruct (lookup_lt_is_Some_2 perm i) as [p Hpi]; [lia|]. exists p. split; [|by apply Hch].
    assert (Hin : p ∈ seq 0 n) by (rewrite <- Hperm; by eapply list_elem_of_lookup_2). apply elem_of_seq in Hin. lia.
  - exists 0%nat. split; [lia|done].
  - exists chain, (i * stride)%nat. unfold build_chase_chain. fold n stride. rewrite Hp. cbn [mbind option_bind].
    split_and!; [done..|]. rewrite Hl. apply Nat.mul_lt_mono_pos_r; lia.
Qed.

Lemma chase_in_bounds_witness :
  exists chain pos, build_chase_chain 4096 64 = Some chain /\ chase chain 100 0 = Some pos /\ (pos < length chain)%nat.
Proof. apply (chase_in_bounds 4096 64 100); [lia|vm_compute; congruence]. Defined.

(** How many hops until the chase is back at its start. *)
Fixpoint cycle_length (chain : list nat) (fuel pos : nat) : option nat :=
  match fuel with
  | O => None
  | S fuel' =>
      pos' ← chain !! pos;
      if (pos' =? 0)%nat then Some 1%nat else n ← cycle_length chain fuel' pos'; Some (S n)
  end.

(** The permutation is not one cycle: with 128-byte lines the chase of the
    smallest working set comes back after 9 of its 32 nodes, with 64-byte
    lines after 47 of 64, so the set measured is smaller than the one named. *)
Example chase_short_cycle :
  (chain ← build_chase_chain 4096 128; cycle_length chain 1000 0) = Some 9%nat /\ node_count 4096 128 = 32%nat /\
  (chain ← build_chase_chain 4096 64; cycle_length chain 1000 0) = Some 47%nat /\ node_count 4096 64 = 64%nat.
Proof. vm_compute. done. Qed.
End CacheLadder.
