(* ===== verification/Orders.v ===== *)
(** * Orders and trade events ([src/src/matching/order.rs], [event.rs])

    The data of the matching layer with the constructors of the source, the
    relative dust tolerance, and the well-formedness of an order that both
    matching engines maintain: a positive finite quantity and a remaining
    quantity between zero and it. *)

From S2P Require Import Prelude Float64.

#[local] Open Scope Z_scope.

Module Orders.

(** [OrderId = u64]. *)
Definition OrderId : Type := Z.

(** [QTY_REL_TOL = 1e-9]. *)
Definition QTY_REL_TOL : f64 := f_lit 1 1000000000.

(** [qty_is_zero]. *)
Definition qty_is_zero (remaining original : f64) : bool := f_le remaining (f_mul original QTY_REL_TOL).

Inductive Side : Type := Buy | Sell.
Inductive OrderType : Type := Limit | Market | Ioc | Fok.

#[export] Instance side_eq_dec : EqDecision Side.
Proof. solve_decision. Defined.
#[export] Instance order_type_eq_dec : EqDecision OrderType.
Proof. solve_decision. Defined.

Record Order : Type := mkOrder {
  id : OrderId;
  symbol : string;
  side : Side;
  kind : OrderType;
  price : option f64;
  qty : f64;
  remaining : f64;
  ots : Z
}.

(** [Order::limit], [market], [ioc] and [fok]. *)
Definition limit (id : OrderId) (symbol : string) (side : Side) (price qty : f64) (ts : Z) : Order :=
  mkOrder id symbol side Limit (Some price) qty qty ts.
Definition market (id : OrderId) (symbol : string) (side : Side) (qty : f64) (ts : Z) : Order :=
  mkOrder id symbol side Market None qty qty ts.
Definition ioc (id : OrderId) (symbol : string) (side : Side) (price qty : f64) (ts : Z) : Order :=
  mkOrder id symbol side Ioc (Some price) qty qty ts.
Definition fok (id : OrderId) (symbol : string) (side : Side) (price qty : f64) (ts : Z) : Order :=
  mkOrder id symbol side Fok (Some price) qty qty ts.

(** [Order::is_filled]. *)
Definition is_filled (o : Order) : bool := qty_is_zero (remaining o) (qty o).

(** [o.remaining = r]. *)
Definition set_remaining (o : Order) (r : f64) : Order :=
  mkOrder (id o) (symbol o) (side o) (kind o) (price o) (qty o) r (ots o).

(** ** Events *)

Record Fill : Type := mkFill {
  order_id : OrderId;
  f_symbol : string;
  f_side : Side;
  f_price : f64;
  f_qty : f64;
  f_ts : Z
}.

Inductive CancelReason : Type := IocRemainder | FokNoFill | MarketNoLiquidity | InvalidOrder.

Inductive TradeEvent : Type :=
| FillEvent (f : Fill)
| Cancel (order_id : OrderId) (reason : CancelReason).

(** [TradeEvent::order_id] and [is_fill]. *)
Definition event_order_id (e : TradeEvent) : OrderId :=
  match e with FillEvent f => order_id f | Cancel i _ => i end.
Definition is_fill (e : TradeEvent) : bool := match e with FillEvent _ => true | Cancel _ _ => false end.

(** ** Well-formed orders *)

Record order_wf (o : Order) : Prop := {
  ow_qty : f_pos (qty o);
  ow_rem : f_nonneg (remaining o);
  ow_le : fval (remaining o) <= fval (qty o)
}.

Lemma tol_pos : f_pos QTY_REL_TOL.
Proof. split_and!; [by vm_compute..|]. vm_compute. done. Qed.

(** The dust threshold of a positive quantity is not negative. *)
Lemma tolerance_nonneg q : f_pos q -> f_le f_zero (f_mul q QTY_REL_TOL) = true.
Proof. intros H. apply f_signed_nonneg, f_mul_signed; [done|apply tol_pos]. Qed.

(** An exactly exhausted order is filled. *)
Lemma filled_zero o : f_pos (qty o) -> remaining o = f_zero -> is_filled o = true.
Proof. intros Hq Hr. unfold is_filled, qty_is_zero. rewrite Hr. by apply tolerance_nonneg. Qed.

(** An order that is not filled has something left. *)
Lemma unfilled_pos o : order_wf o -> is_filled o = false -> f_pos (remaining o).
Proof.
  intros [Hq Hr Hle] Hf. destruct Hr as (Hv & Hfin & H0). split_and!; [done..|].
  destruct (decide (fval (remaining o) = 0)) as [E|]; [|lia]. exfalso.
  assert (Hz : f_le (remaining o) f_zero = true).
  { apply fval_le; [done|by vm_compute|done|done|]. simpl. lia. }
  unfold is_filled, qty_is_zero in Hf.
  by rewrite (f_le_trans _ _ _ Hz (tolerance_nonneg _ Hq)) in Hf.
Qed.

(** ** One fill *)

(** Both sides of a fill of [min(taker, maker)]: each stays well formed, and
    the side that provided the minimum is exhausted. *)
Lemma fill_step t m q :
  q = f_min (remaining t) (remaining m) ->
  order_wf t -> order_wf m -> is_filled t = false -> is_filled m = false ->
  order_wf (set_remaining t (f_sub (remaining t) q)) /\ order_wf (set_remaining m (f_sub (remaining m) q)) /\
  f_pos q /\
  (is_filled (set_remaining t (f_sub (remaining t) q)) = true \/
   is_filled (set_remaining m (f_sub (remaining m) q)) = true).
Proof.
  intros Eq Ht Hm Hft Hfm.
  pose proof (unfilled_pos t Ht Hft) as Pt. pose proof (unfilled_pos m Hm Hfm) as Pm.
  destruct Ht as [Qt Rt Lt], Hm as [Qm Rm Lm], Pt as (Vt & Ft & Zt), Pm as (Vm & Fm & Zm).
  assert (Hq : (q = remaining t /\ fval q <= fval (remaining m)) \/ (q = remaining m /\ fval q <= fval (remaining t))).
  { rewrite Eq. destruct (f_min_cases (remaining t) (remaining m)) as [[-> H]|[-> H]]; [auto with f64..| |].
    - left. split; [done|]. by apply fval_le.
    - right. split; [done|]. apply fval_le; auto with f64. }
  assert (Pq : f_pos q) by (destruct Hq as [[-> _]|[-> _]]; done).
  assert (Lq : fval q <= fval (remaining t) /\ fval q <= fval (remaining m))
    by (destruct Hq as [[E ?]|[E ?]]; rewrite <- ?E; rewrite ?E in *; lia).
  destruct Lq as [Lqt Lqm].
  destruct (f_sub_nonneg (remaining t) q Rt (f_pos_nonneg _ Pq) Lqt) as [Nt Dt].
  destruct (f_sub_nonneg (remaining m) q Rm (f_pos_nonneg _ Pq) Lqm) as [Nm Dm].
  split_and!; [split; [done..|simpl; lia]|split; [done..|simpl; lia]|done|].
  destruct Hq as [[E _]|[E _]].
  - left. apply filled_zero; [done|]. simpl. rewrite E. by apply f_sub_diag.
  - right. apply filled_zero; [done|]. simpl. rewrite E. by apply f_sub_diag.
Qed.

End Orders.
