(* ===== verification/Book.v ===== *)
(** * The order book ([src/src/matching/book.rs])

    [Module Book] models [OrderBook]: price keys with their validation, the
    two [BTreeMap]s of FIFO levels as key-ordered lists, validation, the
    matching loops, resting and cancelling.  [None] is a panic or a loop that
    does not end; the loops carry a fuel computed from the size of the book,
    which [match_levels_list] shows to be enough for well-formed orders.

    [match_list] is the reference the loops are compared with: one structural
    pass over the opposing levels in priority order. *)

From stdpp Require Import sorting.
From S2P Require Import Prelude Float64 Orders.

#[local] Open Scope Z_scope.

Module Book.
Import Orders.

Inductive BookError : Type :=
| PriceNotFinite
| PriceNonPositive (p : f64)
| PriceOutOfRange (p : f64)
| QuantityInvalid (q : f64).

(** ** Price keys *)

Definition PRICE_SCALE : f64 := f_of_Z 100000000.
Definition MAX_PRICE : f64 := f_div (f_of_Z u64_max) PRICE_SCALE.

(** [try_price_key]. *)
Definition try_price_key (p : f64) : result Z BookError :=
  if negb (f_is_finite p) then Err PriceNotFinite
  else if f_le p f_zero then Err (PriceNonPositive p)
  else if f_lt MAX_PRICE p then Err (PriceOutOfRange p)
  else Ok (f_to_u64 (f_round (f_mul p PRICE_SCALE))).

(** [price_key], whose [expect] panics. *)
Definition price_key (p : f64) : panics Z :=
  match try_price_key p with Ok k => Some k | Err _ => None end.

Definition key_price (k : Z) : f64 := f_div (f_of_Z k) PRICE_SCALE.

(** [validate_order]. *)
Definition validate_order (order : Order) : result unit BookError :=
  if negb (f_is_finite (qty order)) || f_le (qty order) f_zero then Err (QuantityInvalid (qty order))
  else
    match price order with
    | Some p => match try_price_key p with Ok _ => Ok tt | Err e => Err e end
    | None => Ok tt
    end.

(** ** [BTreeMap<u64, VecDeque<Order>>]

    The levels by increasing key. *)

Abbreviation levels := (list (Z * list Order)).

Definition first_key (lv : levels) : option Z := fst <$> list.head lv.
Definition last_key (lv : levels) : option Z := fst <$> last lv.

Fixpoint get (k : Z) (lv : levels) : option (list Order) :=
  match lv with
  | [] => None
  | (k', l) :: lv' => if k =? k' then Some l else get k lv'
  end.

Fixpoint set_level (k : Z) (l : list Order) (lv : levels) : levels :=
  match lv with
  | [] => []
  | (k', l') :: lv' => if k =? k' then (k', l) :: lv' else (k', l') :: set_level k l lv'
  end.

Fixpoint remove (k : Z) (lv : levels) : levels :=
  match lv with
  | [] => []
  | (k', l') :: lv' => if k =? k' then lv' else (k', l') :: remove k lv'
  end.

(** [entry(k).or_default().push_back(o)]. *)
Fixpoint push_back (k : Z) (o : Order) (lv : levels) : levels :=
  match lv with
  | [] => [(k, [o])]
  | (k', l) :: lv' =>
      if k <? k' then (k, [o]) :: (k', l) :: lv'
      else if k =? k' then (k', l ++ [o]) :: lv'
      else (k', l) :: push_back k o lv'
  end.

Record OrderBook : Type := mkBook {
  b_symbol : string;
  bids : levels;
  asks : levels
}.

Definition new (symbol : string) : OrderBook := mkBook symbol [] [].

(** ** Matching *)

(** The two [Fill] events of one match: taker first, then maker. *)
Definition fill_events (taker maker : Order) (fill_price q : f64) (ts : Z) : list TradeEvent :=
  [FillEvent (mkFill (id taker) (symbol taker) (side taker) fill_price q ts);
   FillEvent (mkFill (id maker) (symbol maker) (side maker) fill_price q ts)].

(** The [while] loop of [fill_at]. *)
Fixpoint fill_loop (fuel : nat) (fill_price : f64) (ts : Z) (level : list Order) (taker : Order)
    (events : list TradeEvent) : option (list Order * Order * list TradeEvent) :=
  match fuel with
  | O => None
  | S fuel' =>
      if is_filled taker then Some (level, taker, events)
      else
        match level with
        | [] => Some (level, taker, events)
        | maker :: rest =>
            let q := f_min (remaining taker) (remaining maker) in
            let taker' := set_remaining taker (f_sub (remaining taker) q) in
            let maker' := set_remaining maker (f_sub (remaining maker) q) in
            let events' := events ++ fill_events taker maker fill_price q ts in
            fill_loop fuel' fill_price ts (if is_filled maker' then rest else maker' :: rest) taker' events'
        end
  end.

(** [fill_at] on the opposing side's levels. *)
Definition fill_at (key : Z) (lv : levels) (taker : Order) (events : list TradeEvent) (ts : Z)
    : option (levels * Order * list TradeEvent) :=
  match get key lv with
  | None => Some (lv, taker, events)
  | Some level =>
      '(level', taker', events') ← fill_loop (S (S (length level))) (key_price key) ts level taker events;
      Some (set_level key level' lv, taker', events')
  end.

(** The [while let Some(best)] loop of [match_buy] and [match_sell]; [best]
    picks the best key, [past b lk] says that [b] is beyond the limit. *)
Fixpoint match_loop (fuel : nat) (best : levels -> option Z) (past : Z -> Z -> bool) (limit_key : option Z)
    (lv : levels) (order : Order) (events : list TradeEvent) (ts : Z)
    : option (levels * Order * list TradeEvent) :=
  match fuel with
  | O => None
  | S fuel' =>
      match best lv with
      | None => Some (lv, order, events)
      | Some b =>
          if match limit_key with Some lk => past b lk | None => false end then Some (lv, order, events)
          else
            '(lv1, order1, events1) ← fill_at b lv order events ts;
            let lv2 := match get b lv1 with Some (_ :: _) => lv1 | _ => remove b lv1 end in
            if is_filled order1 then Some (lv2, order1, events1)
            else match_loop fuel' best past limit_key lv2 order1 events1 ts
      end
  end.

(** [order.price.map(price_key)]. *)
Definition limit_key_of (order : Order) : panics (option Z) :=
  match price order with
  | Some p => Some <$> price_key p
  | None => Some None
  end.

Definition match_buy (lv : levels) (order : Order) (events : list TradeEvent) (ts : Z)
    : option (levels * Order * list TradeEvent) :=
  limit_key ← limit_key_of order;
  match_loop (S (length lv)) first_key (fun best lk => lk <? best) limit_key lv order events ts.

Definition match_sell (lv : levels) (order : Order) (events : list TradeEvent) (ts : Z)
    : option (levels * Order * list TradeEvent) :=
  limit_key ← limit_key_of order;
  match_loop (S (length lv)) last_key (fun best lk => best <? lk) limit_key lv order events ts.

(** [match_order]. *)
Definition match_order (b : OrderBook) (order : Order) (events : list TradeEvent) (ts : Z)
    : option (OrderBook * Order * list TradeEvent) :=
  match side order with
  | Buy =>
      '(lv, order', events') ← match_buy (asks b) order events ts;
      Some (mkBook (b_symbol b) (bids b) lv, order', events')
  | Sell =>
      '(lv, order', events') ← match_sell (bids b) order events ts;
      Some (mkBook (b_symbol b) lv (asks b), order', events')
  end.

(** The summed remaining quantity of a list of levels. *)
Definition available (lv : levels) : f64 := f_sum (remaining <$> concat (snd <$> lv)).

(** [can_fill]. *)
Definition can_fill (b : OrderBook) (order : Order) : panics bool :=
  limit_key ← limit_key_of order;
  let avail :=
    match side order with
    | Buy =>
        let cap := default u64_max limit_key in
        available (filter (fun x => x.1 <= cap) (asks b))
    | Sell =>
        let floor := default 0 limit_key in
        available (filter (fun x => floor <= x.1) (bids b))
    end in
  Some (f_le (f_mul (remaining order) (f_sub f_one QTY_REL_TOL)) avail).

(** [rest]; a limit order without a price panics. *)
Definition rest (b : OrderBook) (order : Order) : panics OrderBook :=
  p ← price order;
  key ← price_key p;
  Some (match side order with
        | Buy => mkBook (b_symbol b) (push_back key order (bids b)) (asks b)
        | Sell => mkBook (b_symbol b) (bids b) (push_back key order (asks b))
        end).

(** [submit_validated]. *)
Definition submit_validated (b : OrderBook) (order : Order) (ts : Z) : panics (OrderBook * list TradeEvent) :=
  match kind order with
  | Fok =>
      ok ← can_fill b order;
      if negb ok then Some (b, [Cancel (id order) FokNoFill])
      else
        '(b', _, events) ← match_order b order [] ts;
        Some (b', events)
  | Limit =>
      '(b', order', events) ← match_order b order [] ts;
      if is_filled order' then Some (b', events)
      else b'' ← rest b' order'; Some (b'', events)
  | Ioc =>
      '(b', order', events) ← match_order b order [] ts;
      Some (b', if is_filled order' then events else events ++ [Cancel (id order') IocRemainder])
  | Market =>
      '(b', order', events) ← match_order b order [] ts;
      Some (b', if is_filled order' then events else events ++ [Cancel (id order') MarketNoLiquidity])
  end.

(** [OrderBook::try_submit]. *)
Definition try_submit (b : OrderBook) (order : Order) (ts : Z)
    : panics (OrderBook * result (list TradeEvent) BookError) :=
  match validate_order order with
  | Err e => Some (b, Err e)
  | Ok _ => '(b', events) ← submit_validated b order ts; Some (b', Ok events)
  end.

(** [OrderBook::submit]. *)
Definition submit (b : OrderBook) (order : Order) (ts : Z) : panics (OrderBook * list TradeEvent) :=
  match validate_order order with
  | Err _ => Some (b, [Cancel (id order) InvalidOrder])
  | Ok _ => submit_validated b order ts
  end.

(** A sequence of submissions, each at its time. *)
Fixpoint submit_all (b : OrderBook) (orders : list (Order * Z)) : panics (OrderBook * list (list TradeEvent)) :=
  match orders with
  | [] => Some (b, [])
  | (o, ts) :: orders' =>
      '(b1, ev) ← submit b o ts;
      '(b2, evs) ← submit_all b1 orders';
      Some (b2, ev :: evs)
  end.

(** [best_bid], [best_ask] and [spread]. *)
Definition best_bid (b : OrderBook) : option f64 := key_price <$> last_key (bids b).
Definition best_ask (b : OrderBook) : option f64 := key_price <$> first_key (asks b).
Definition spread (b : OrderBook) : option f64 :=
  a ← best_ask b;
  c ← best_bid b;
  Some (f_sub a c).

(** ** The reference: one pass in priority order *)

(** A match: the level's key, the maker as it stood, the quantity. *)
Record trade : Type := mkTrade { tr_key : Z; tr_maker : Order; tr_qty : f64 }.

Definition reduced (t : trade) : Order := set_remaining (tr_maker t) (f_sub (remaining (tr_maker t)) (tr_qty t)).

Fixpoint fill_list (key : Z) (level : list Order) (taker : Order) : list Order * Order * list trade :=
  if is_filled taker then (level, taker, [])
  else
    match level with
    | [] => ([], taker, [])
    | maker :: rest =>
        let q := f_min (remaining taker) (remaining maker) in
        let taker' := set_remaining taker (f_sub (remaining taker) q) in
        let maker' := set_remaining maker (f_sub (remaining maker) q) in
        if is_filled maker' then
          let '(level', taker'', trades) := fill_list key rest taker' in
          (level', taker'', mkTrade key maker q :: trades)
        else (maker' :: rest, taker', [mkTrade key maker q])
    end.

Fixpoint match_list (past : Z -> Z -> bool) (limit_key : option Z) (q : levels) (taker : Order)
    : levels * Order * list trade :=
  match q with
  | [] => ([], taker, [])
  | (k, level) :: q' =>
      if match limit_key with Some lk => past k lk | None => false end then (q, taker, [])
      else
        let '(level', taker', trades) := fill_list k level taker in
        let q1 := match level' with [] => q' | _ => (k, level') :: q' end in
        if is_filled taker' then (q1, taker', trades)
        else
          let '(q2, taker'', trades') := match_list past limit_key q' taker' in
          (q2, taker'', trades ++ trades')
  end.

Definition events_of (taker : Order) (ts : Z) (trades : list trade) : list TradeEvent :=
  concat ((fun t => fill_events taker (tr_maker t) (key_price (tr_key t)) (tr_qty t) ts) <$> trades).

(** ** Invariant *)

(** A resting order. *)
Record resting (s : Side) (k : Z) (o : Order) : Prop := {
  rs_wf : order_wf o;
  rs_open : is_filled o = false;
  rs_side : side o = s;
  rs_kind : kind o = Limit;
  rs_key : exists p, price o = Some p /\ try_price_key p = Ok k
}.

Definition level_wf (s : Side) (x : Z * list Order) : Prop := x.2 <> [] /\ Forall (resting s x.1) x.2.

Definition key_lt (x y : Z * list Order) : Prop := x.1 < y.1.

Record side_wf (s : Side) (lv : levels) : Prop := {
  sw_sorted : StronglySorted key_lt lv;
  sw_levels : Forall (level_wf s) lv
}.

Record book_wf (b : OrderBook) : Prop := {
  bw_bids : side_wf Buy (bids b);
  bw_asks : side_wf Sell (asks b);
  bw_uncrossed : forall x y, In x (bids b) -> In y (asks b) -> x.1 < y.1
}.

(** ** One level *)

Lemma resting_reduced s k m r :
  resting s k m -> order_wf (set_remaining m r) -> is_filled (set_remaining m r) = false ->
  resting s k (set_remaining m r).
Proof. intros [Hwf Hopen Hs Hk Hp] Hw Ho. by split. Qed.

(** The maker of the trade is done. *)
Definition used_up (t : trade) : Prop := is_filled (reduced t) = true.

(** The queue after some trades: a prefix of it is gone, all of it used up,
    except that the last maker remains when it has something left. *)
Definition took (before : list (Z * Order)) (tr : list trade) (after : list (Z * Order)) : Prop :=
  exists rest, before = ((fun t => (tr_key t, tr_maker t)) <$> tr) ++ rest /\
    (after = rest /\ Forall used_up tr \/
     exists pre t, tr = pre ++ [t] /\ Forall used_up pre /\ ~ used_up t /\ after = (tr_key t, reduced t) :: rest).

(** The trades of a taker with [r] left to fill: none after it is filled, each
    for as much as both sides have; and what they leave it. *)
Fixpoint fills (o : Order) (r : f64) (tr : list trade) : Prop :=
  match tr with
  | [] => True
  | t :: tr' =>
      is_filled (set_remaining o r) = false /\ tr_qty t = f_min r (remaining (tr_maker t)) /\ fills o (f_sub r (tr_qty t)) tr'
  end.

Definition left_after (r : f64) (tr : list trade) : f64 := fold_left f_sub (tr_qty <$> tr) r.

Lemma fills_app o r a b : fills o r (a ++ b) <-> fills o r a /\ fills o (left_after r a) b.
Proof. revert r. induction a as [|t a IH]; intros r; cbn; [tauto|]. rewrite IH. unfold left_after. cbn. tauto. Qed.

Lemma fills_same o x r tr : fills (set_remaining o x) r tr -> fills o r tr.
Proof. revert r. induction tr as [|t tr IH]; intros r; cbn; [done|]. intros (H1 & H2 & H3). auto. Qed.

Lemma left_after_app r a b : left_after r (a ++ b) = left_after (left_after r a) b.
Proof. unfold left_after. by rewrite fmap_app, fold_left_app. Qed.

(** What holds of every trade: a positive quantity the maker had. *)
Record fair_trade (s : Side) (t : trade) : Prop := {
  ft_maker : resting s (tr_key t) (tr_maker t);
  ft_qty : f_pos (tr_qty t);
  ft_le : fval (tr_qty t) <= fval (remaining (tr_maker t))
}.

Lemma min_le_maker t m :
  order_wf t -> order_wf m -> fval (f_min (remaining t) (remaining m)) <= fval (remaining m).
Proof.
  intros [_ (Vt & Ft & _) _] [_ (Vm & Fm & _) _].
  destruct (f_min_cases (remaining t) (remaining m)) as [[-> H]|[-> H]]; [auto with f64..| |lia].
  by apply fval_le.
Qed.

Lemma fill_list_spec s key level taker level' taker' tr :
  order_wf taker -> Forall (resting s key) level -> fill_list key level taker = (level', taker', tr) ->
  order_wf taker' /\ taker' = set_remaining taker (remaining taker') /\ Forall (resting s key) level' /\
  (is_filled taker' = false -> level' = []) /\ Forall (fair_trade s) tr /\ Forall (fun t => tr_key t = key) tr /\
  took (pair key <$> level) tr (pair key <$> level') /\
  fills taker (remaining taker) tr /\ remaining taker' = left_after (remaining taker) tr.
Proof.
  intros Ht Hl. revert taker Ht level' taker' tr. induction Hl as [|m rest Hm Hrest IH]; intros taker Ht level' taker' tr H.
  - simpl in H. destruct (is_filled taker) eqn:E; simplify_eq;
      (split_and!; [done|by destruct taker'|done|done|done|done|exists []; auto|done|done]).
  - cbn [fill_list] in H. destruct (is_filled taker) eqn:E.
    { simplify_eq. split_and!; [done|by destruct taker'|by constructor|by rewrite E|done|done| |done|done].
      exists (pair key <$> m :: rest). auto. }
    pose proof (fill_step taker m _ eq_refl Ht (rs_wf _ _ _ Hm) E (rs_open _ _ _ Hm)) as (Wt & Wm & Pq & Hdone).
    pose proof (min_le_maker taker m Ht (rs_wf _ _ _ Hm)) as Lq.
    set (q := f_min (remaining taker) (remaining m)) in *.
    assert (Hft : fair_trade s (mkTrade key m q)) by (by split).
    assert (Hopen : is_filled (set_remaining taker (remaining taker)) = false) by (by destruct taker).
    destruct (is_filled (set_remaining m (f_sub (remaining m) q))) eqn:Em.
    + destruct (fill_list key rest (set_remaining taker (f_sub (remaining taker) q))) as [[l1 t1] tr1] eqn:Er.
      simplify_eq. destruct (IH _ Wt _ _ _ Er) as (W1 & E1 & L1 & D1 & F1 & K1 & (r & Hb & Ha) & Hfl & Hlf).
      split_and!; [done|by rewrite E1|done|done|by constructor|by constructor| |split_and!; [done|done|by apply fills_same in Hfl]|done].
      exists r. rewrite fmap_cons, Hb. split; [done|]. destruct Ha as [[-> Ha]|(pre & t0 & -> & Hu & Hn & ->)]; [left; by split; [|constructor]|].
      right. exists (mkTrade key m q :: pre), t0. split_and!; [done|by constructor|done|done].
    + simplify_eq. destruct Hdone as [Hdone|Hdone]; [|done].
      split_and!; [done|done|by constructor; [apply resting_reduced|]|by rewrite Hdone|by apply Forall_singleton|by apply Forall_singleton| |by split_and!|done].
      exists (pair key <$> rest). split; [done|]. right. exists [], (mkTrade key m q). split_and!; [done|done| |done].
      unfold used_up, reduced. cbn. by rewrite Em.
Qed.

Lemma fill_loop_list s fuel key ts level taker ev :
  order_wf taker -> Forall (resting s key) level -> (length level < fuel)%nat ->
  fill_loop fuel (key_price key) ts level taker ev =
    let '(level', taker', tr) := fill_list key level taker in Some (level', taker', ev ++ events_of taker ts tr).
Proof.
  revert level taker ev. induction fuel as [|fuel IH]; intros level taker ev Ht Hl Hf; [lia|].
  destruct level as [|m rest]; cbn [fill_loop fill_list].
  { destruct (is_filled taker); unfold events_of; simpl; by rewrite app_nil_r. }
  destruct (is_filled taker) eqn:E; [unfold events_of; simpl; by rewrite app_nil_r|].
  apply Forall_cons in Hl as [Hm Hrest]. cbn [length] in Hf.
  pose proof (fill_step taker m _ eq_refl Ht (rs_wf _ _ _ Hm) E (rs_open _ _ _ Hm)) as (Wt & Wm & Pq & Hdone).
  set (q := f_min (remaining taker) (remaining m)) in *.
  destruct (is_filled (set_remaining m (f_sub (remaining m) q))) eqn:Em.
  - rewrite IH by (done || lia). destruct (fill_list key rest _) as [[l1 t1] tr1].
    unfold events_of. simpl. by rewrite <- app_assoc.
  - destruct Hdone as [Hdone|Hdone]; [|done].
    destruct fuel as [|fuel]; [lia|]. cbn [fill_loop]. rewrite Hdone. done.
Qed.

(** ** The ordered map *)

Section level_map.
Context (pre post : levels) (k : Z) (l : list Order) (Hk : k ∉ pre.*1).

Lemma get_mid : get k (pre ++ (k, l) :: post) = Some l.
Proof.
  clear -Hk. induction pre as [|[k' l'] p IH]; simpl; [by rewrite Z.eqb_refl|].
  destruct (Z.eqb_spec k k'); [set_solver|]. apply IH. set_solver.
Qed.

Lemma set_level_mid l1 : set_level k l1 (pre ++ (k, l) :: post) = pre ++ (k, l1) :: post.
Proof.
  clear -Hk. induction pre as [|[k' l'] p IH]; simpl; [by rewrite Z.eqb_refl|].
  destruct (Z.eqb_spec k k'); [set_solver|]. f_equal. apply IH. set_solver.
Qed.

Lemma remove_mid : remove k (pre ++ (k, l) :: post) = pre ++ post.
Proof.
  clear -Hk. induction pre as [|[k' l'] p IH]; simpl; [by rewrite Z.eqb_refl|].
  destruct (Z.eqb_spec k k'); [set_solver|]. f_equal. apply IH. set_solver.
Qed.

End level_map.

(** A side seen from its best price. *)
Class Orientation (best : levels -> option Z) (orient : levels -> levels) : Prop := {
  or_best lv : best lv = fst <$> list.head (orient lv);
  or_inv lv : orient (orient lv) = lv;
  or_nil : orient [] = [];
  or_length lv : length (orient lv) = length lv;
  or_keys lv : (orient lv).*1 ≡ₚ lv.*1;
  or_cons lv k l q :
    orient lv = (k, l) :: q ->
    exists pre post, lv = pre ++ (k, l) :: post /\ (pre ++ post).*1 ≡ₚ q.*1 /\
      (forall l', orient (pre ++ (k, l') :: post) = (k, l') :: q) /\ orient (pre ++ post) = q
}.

#[export] Instance ask_orientation : Orientation first_key (fun lv => lv).
Proof.
  split; try done. intros lv k l q H. exists [], q. by subst.
Qed.

#[export] Instance bid_orientation : Orientation last_key (@reverse (Z * list Order)).
Proof.
  split.
  - intros lv. unfold last_key. by rewrite head_reverse.
  - apply reverse_involutive.
  - done.
  - apply length_reverse.
  - intros lv. by rewrite reverse_Permutation.
  - intros lv k l q H. exists (reverse q), []. rewrite app_nil_r. split_and!.
    + rewrite <- reverse_cons, <- H. by rewrite reverse_involutive.
    + by rewrite reverse_Permutation.
    + intros l'. rewrite reverse_app. simpl. by rewrite reverse_involutive.
    + apply reverse_involutive.
Qed.

Lemma events_of_app taker ts a b : events_of taker ts (a ++ b) = events_of taker ts a ++ events_of taker ts b.
Proof. unfold events_of. by rewrite fmap_app, concat_app. Qed.

Lemma events_of_taker t t' ts tr : t' = set_remaining t (remaining t') -> events_of t' ts tr = events_of t ts tr.
Proof. intros ->. done. Qed.

Section loop.
Context {best : levels -> option Z} {orient : levels -> levels} `{!Orientation best orient}.
Context (s : Side) (past : Z -> Z -> bool) (limit_key : option Z).

(** The matching loop is one pass over the levels in priority order, within
    one step more than there are levels. *)
Lemma match_loop_list fuel lv order ev ts :
  order_wf order -> Forall (level_wf s) (orient lv) -> NoDup lv.*1 -> (length lv < fuel)%nat ->
  match_loop fuel best past limit_key lv order ev ts =
    let '(q', order', tr) := match_list past limit_key (orient lv) order in
    Some (orient q', order', ev ++ events_of order ts tr).
Proof.
  revert lv order ev. induction fuel as [|fuel IH]; intros lv order ev Ho Hlv Hnd Hf; [lia|].
  assert (Hstop : Some (lv, order, ev) = Some (orient (orient lv), order, ev ++ events_of order ts []))
    by (unfold events_of; simpl; by rewrite or_inv, app_nil_r).
  cbn [match_loop]. rewrite or_best. destruct (orient lv) as [|[k l] q] eqn:Eo; cbn [list.head fmap option_fmap option_map fst match_list].
  { exact Hstop. }
  destruct (match limit_key with Some lk => past k lk | None => false end); [exact Hstop|].
  destruct (or_cons lv k l q Eo) as (pre & post & -> & Hq & Hset & Hrem).
  apply Forall_cons in Hlv as [[Hne Hl] Hlv]. simpl in Hl.
  assert (Hnk : (k ∉ pre.*1) /\ NoDup (pre ++ post).*1).
  { rewrite fmap_app, fmap_cons in Hnd. apply NoDup_app in Hnd as (H1 & H2 & H3).
    apply NoDup_cons in H3 as [H4 H5]. split; [intros Hin; apply (H2 k Hin); left|].
    rewrite fmap_app. apply NoDup_app. split_and!; [done| |done]. intros x Hx Hx'. apply (H2 x Hx). by right. }
  destruct Hnk as [Hnk Hnd'].
  unfold fill_at. rewrite get_mid, (fill_loop_list s) by (done || lia).
  destruct (fill_list k l order) as [[l' o'] tr] eqn:Ef. cbn [mbind option_bind].
  destruct (fill_list_spec s k l order l' o' tr Ho Hl Ef) as (Ho' & Hid & Hl' & Hdone & _).
  rewrite set_level_mid, get_mid by done.
  assert (Hlen : (length (pre ++ post) < fuel)%nat) by (rewrite length_app in *; simpl in Hf; lia).
  destruct (is_filled o') eqn:Efill.
  - destruct l' as [|m l']; [rewrite remove_mid by done; by rewrite <- Hrem, or_inv|].
    by rewrite <- Hset, or_inv.
  - rewrite (Hdone eq_refl) in *. rewrite remove_mid by done.
    rewrite IH by (rewrite ?Hrem; done). rewrite Hrem.
    destruct (match_list past limit_key q o') as [[q2 o2] tr2].
    by rewrite events_of_app, app_assoc, (events_of_taker _ _ _ _ Hid).
Qed.

End loop.

(** ** Price-time priority *)

(** The resting orders of a side in the order they are to be matched. *)
Definition level_orders (x : Z * list Order) : list (Z * Order) := pair x.1 <$> x.2.
Definition flat (q : levels) : list (Z * Order) := concat (level_orders <$> q).

Definition within (past : Z -> Z -> bool) (limit_key : option Z) (k : Z) : bool :=
  negb (match limit_key with Some lk => past k lk | None => false end).

Lemma took_app_l a tr b c : took a tr b -> took (a ++ c) tr (b ++ c).
Proof.
  intros (r & -> & [[-> Hu]|(pre & t & -> & Hu & Hn & ->)]); exists (r ++ c); rewrite <- app_assoc; split; auto.
  right. by exists pre, t.
Qed.

Lemma took_all_app a tr c tr' c' : took a tr [] -> took c tr' c' -> took (a ++ c) (tr ++ tr') c'.
Proof.
  intros (r & -> & Ha) (r' & -> & Hc). destruct Ha as [[<- Hu]|(pre & t & _ & _ & _ & [=])].
  exists r'. rewrite app_nil_r, fmap_app, <- app_assoc. split; [done|].
  destruct Hc as [[-> Hu']|(pre & t & -> & Hu' & Hn & ->)]; [left; split; [done|by apply Forall_app]|].
  right. exists (tr ++ pre), t. rewrite app_assoc. split_and!; [done|by apply Forall_app|done|done].
Qed.

Lemma match_list_spec s past limit_key q taker q' taker' tr :
  order_wf taker -> Forall (level_wf s) q -> match_list past limit_key q taker = (q', taker', tr) ->
  order_wf taker' /\ taker' = set_remaining taker (remaining taker') /\ Forall (level_wf s) q' /\
  (is_filled taker' = false -> forall x, list.head q' = Some x -> within past limit_key x.1 = false) /\
  (exists pre, q.*1 = pre ++ q'.*1) /\
  Forall (fair_trade s) tr /\ Forall (fun t => within past limit_key (tr_key t) = true) tr /\
  took (flat q) tr (flat q') /\ fills taker (remaining taker) tr /\ remaining taker' = left_after (remaining taker) tr.
Proof.
  intros Ht Hq. revert taker Ht q' taker' tr.
  induction Hq as [|[k l] q [Hne Hl] Hq IH]; intros taker Ht q' taker' tr H; simpl in H.
  { simplify_eq. split_and!; try done; [by destruct taker'|by exists []|exists []; auto]. }
  destruct (match limit_key with Some lk => past k lk | None => false end) eqn:Elim.
  { simplify_eq. split_and!; try done; [by destruct taker'|by constructor| |by exists []|exists (flat ((k, l) :: q)); auto].
    intros _ x [= <-]. unfold within. simpl. by rewrite Elim. }
  destruct (fill_list k l taker) as [[l' t1] tr1] eqn:Ef.
  destruct (fill_list_spec s k l taker l' t1 tr1 Ht Hl Ef) as (W1 & I1 & L1 & D1 & F1 & K1 & T1 & Hfl1 & Hlf1).
  assert (Hin1 : Forall (fun t => within past limit_key (tr_key t) = true) tr1).
  { eapply Forall_impl; [exact K1|]. simpl. intros t ->. unfold within. by rewrite Elim. }
  assert (Hflat : flat ((k, l) :: q) = (pair k <$> l) ++ flat q) by done.
  destruct (is_filled t1) eqn:E1.
  - simplify_eq. destruct l' as [|m l'].
    + split_and!; try done; [by rewrite E1|by exists [k]|]. rewrite Hflat. by apply took_app_l with (b := []).
    + split_and!; try done; [by constructor|by rewrite E1|by exists []|]. rewrite Hflat. by apply took_app_l.
  - rewrite (D1 eq_refl) in *. destruct (match_list past limit_key q t1) as [[q2 t2] tr2] eqn:Em. simplify_eq.
    destruct (IH t1 W1 _ _ _ Em) as (W2 & I2 & L2 & D2 & [pre P2] & F2 & N2 & T2 & Hfl2 & Hlf2).
    split_and!; try done; [by rewrite I2, I1|exists (k :: pre); exact (f_equal (cons k) P2)|by apply Forall_app|by apply Forall_app| | |].
    + rewrite Hflat. by apply took_all_app.
    + apply fills_app. rewrite <- Hlf1. split; [done|]. rewrite I1 in Hfl2. by apply fills_same in Hfl2.
    + by rewrite left_after_app, <- Hlf1.
Qed.

(** ** Books *)

Lemma sorted_keys lv : StronglySorted key_lt lv <-> StronglySorted Z.lt lv.*1.
Proof.
  induction lv as [|x lv IH]; simpl; [split; constructor|].
  split; intros [Hs Hx]%StronglySorted_inv; constructor.
  - by apply IH.
  - rewrite Forall_fmap. exact Hx.
  - by apply IH.
  - rewrite Forall_fmap in Hx. exact Hx.
Qed.

Lemma sorted_keys_nodup lv : StronglySorted key_lt lv -> NoDup lv.*1.
Proof.
  rewrite sorted_keys. induction 1 as [|k l Hs IH Hk]; constructor; [|done].
  intros Hin. rewrite Forall_forall in Hk. specialize (Hk _ Hin). lia.
Qed.

Definition opposing (b : OrderBook) (s : Side) : levels :=
  match s with Buy => asks b | Sell => reverse (bids b) end.
Definition own (b : OrderBook) (s : Side) : levels := match s with Buy => bids b | Sell => asks b end.
Definition opposite (s : Side) : Side := match s with Buy => Sell | Sell => Buy end.
Definition beyond (s : Side) : Z -> Z -> bool :=
  match s with Buy => fun best lk => lk <? best | Sell => fun best lk => best <? lk end.

Lemma opposing_wf b s : book_wf b -> Forall (level_wf (opposite s)) (opposing b s).
Proof.
  intros [[_ Hb] [_ Ha] _]. destruct s; simpl; [done|]. by apply Forall_reverse.
Qed.

(** [match_order] as the reference pass. *)
Lemma match_order_list b o ev ts lk :
  book_wf b -> order_wf o -> limit_key_of o = Some lk ->
  exists b' o' tr, match_order b o ev ts = Some (b', o', ev ++ events_of o ts tr) /\
    match_list (beyond (side o)) lk (opposing b (side o)) o = (opposing b' (side o), o', tr) /\
    own b' (side o) = own b (side o) /\ b_symbol b' = b_symbol b.
Proof.
  intros Hb Ho Hlk. pose proof (opposing_wf b (side o) Hb) as Hlv. destruct Hb as [[Sb _] [Sa _] _].
  unfold match_order. destruct (side o) eqn:Es; simpl in Hlv.
  - unfold match_buy. rewrite Hlk. cbn [mbind option_bind].
    rewrite (match_loop_list Sell _ _ _ _ _ _ _ Ho Hlv (sorted_keys_nodup _ Sa)) by lia.
    destruct (match_list _ lk (asks b) o) as [[q' o'] tr] eqn:Em. cbn [mbind option_bind].
    by exists (mkBook (b_symbol b) (bids b) q'), o', tr.
  - unfold match_sell. rewrite Hlk. cbn [mbind option_bind].
    rewrite (match_loop_list Buy _ _ _ _ _ _ _ Ho Hlv (sorted_keys_nodup _ Sb)) by lia.
    destruct (match_list _ lk (reverse (bids b)) o) as [[q' o'] tr] eqn:Em. cbn [mbind option_bind].
    exists (mkBook (b_symbol b) (reverse q') (asks b)), o', tr. simpl. by rewrite reverse_involutive.
Qed.

(** A side that only lost levels from its best end stays well formed. *)
Lemma book_wf_shrunk b b' s :
  book_wf b -> own b' s = own b s -> Forall (level_wf (opposite s)) (opposing b' s) ->
  (exists pre, (opposing b s).*1 = pre ++ (opposing b' s).*1) ->
  book_wf b' /\ (forall x, x ∈ (opposing b' s).*1 -> x ∈ (opposing b s).*1).
Proof.
  intros [[Sb Lb] [Sa La] Hu] Hown Hlv [pre Hpre].
  assert (Hsub : forall x, x ∈ (opposing b' s).*1 -> x ∈ (opposing b s).*1) by (intros x Hx; rewrite Hpre; set_solver).
  assert (Hin : forall lv (x : Z * list Order), In x lv -> x.1 ∈ lv.*1)
    by (intros lv x Hx; apply list_elem_of_fmap; exists x; by rewrite list_elem_of_In).
  split; [|done]. destruct s; simpl in *.
  - split; [by rewrite Hown| |].
    + split; [|done]. rewrite sorted_keys in *. rewrite Hpre in Sa. by eapply StronglySorted_app_1_r.
    + intros x y Hx Hy. rewrite Hown in Hx. apply Hin, Hsub, list_elem_of_fmap in Hy as ([k l] & -> & Hy).
      apply list_elem_of_In in Hy. apply (Hu x (k, l) Hx Hy).
  - split; [|by rewrite Hown|].
    + apply Forall_reverse in Hlv. rewrite reverse_involutive in Hlv. split; [|done]. rewrite sorted_keys in *.
      rewrite !fmap_reverse in Hpre. apply (f_equal reverse) in Hpre.
      rewrite reverse_app, !reverse_involutive in Hpre. rewrite Hpre in Sb. by eapply StronglySorted_app_1_l.
    + intros x y Hx Hy. rewrite Hown in Hy.
      assert (Hx' : x.1 ∈ (reverse (bids b)).*1).
      { apply Hsub, Hin. apply list_elem_of_In. rewrite elem_of_reverse. by apply list_elem_of_In. }
      apply list_elem_of_fmap in Hx' as ([k l] & Ex & Hx'). rewrite elem_of_reverse in Hx'.
      apply list_elem_of_In in Hx'. rewrite Ex. apply (Hu (k, l) y Hx' Hy).
Qed.

(** ** Resting *)

Lemma push_back_keys k o lv x : x ∈ (push_back k o lv).*1 -> x = k \/ x ∈ lv.*1.
Proof.
  induction lv as [|[k' l] lv IH]; simpl; [set_solver|].
  destruct (Z.ltb_spec k k'); [set_solver|]. destruct (Z.eqb_spec k k'); set_solver.
Qed.

Lemma push_back_wf s k o lv : side_wf s lv -> resting s k o -> side_wf s (push_back k o lv).
Proof.
  intros [Hs Hl] Ho. induction lv as [|[k' l] lv IH].
  { split; simpl; [by repeat constructor|]. apply Forall_singleton. split; [done|]. by apply Forall_singleton. }
  apply StronglySorted_inv in Hs as [Hs Hk]. apply Forall_cons in Hl as [Hl' Hl].
  assert (Hlow : Forall (fun x => k' < x.1) lv) by done.
  simpl. destruct (Z.ltb_spec k k') as [Hlt|Hge]; [|destruct (Z.eqb_spec k k') as [<-|Hne]].
  - split; [|constructor; [split; [done|by apply Forall_singleton]|by constructor]].
    constructor; [by constructor|]. constructor; [done|]. eapply Forall_impl; [exact Hlow|].
    intros x Hx. unfold key_lt. simpl in *. lia.
  - split; [by constructor|]. constructor; [|done]. destruct Hl' as [_ Hl']. simpl in Hl'.
    split; simpl; [by destruct l|]. apply Forall_app. by rewrite Forall_singleton.
  - destruct (IH Hs Hl) as [Hs' Hl'']. split; [|by constructor]. constructor; [done|].
    apply Forall_forall. intros [kx lx] Hx. unfold key_lt. simpl.
    assert (Hkx : kx ∈ (push_back k o lv).*1) by (apply list_elem_of_fmap; by exists (kx, lx)).
    apply push_back_keys in Hkx as [->|Hkx]; [lia|].
    apply list_elem_of_fmap in Hkx as ([k0 l0] & -> & H0). by apply (proj1 (Forall_forall _ _) Hlow) in H0.
Qed.

(** ** Submission *)

(** An order as the constructors of [Order] build it. *)
Record fresh_order (o : Order) : Prop := {
  fo_valid : f_valid (qty o);
  fo_full : remaining o = qty o;
  fo_priced : kind o = Limit -> price o <> None
}.

Lemma validated o :
  validate_order o = Ok tt ->
  (f_is_finite (qty o) = true /\ f_lt f_zero (qty o) = true) /\ exists lk, limit_key_of o = Some lk /\
    forall p, price o = Some p -> exists k, try_price_key p = Ok k /\ price_key p = Some k /\ lk = Some k.
Proof.
  unfold validate_order. intros H. destruct (negb (f_is_finite (qty o)) || f_le (qty o) f_zero) eqn:E; [done|].
  apply orb_false_iff in E as [E1 E2]. apply negb_false_iff in E1. split.
  { split; [done|]. rewrite f_lt_not_le by auto with f64. by rewrite E2. }
  unfold limit_key_of, price_key. destruct (price o) as [p|]; [|by exists None].
  destruct (try_price_key p) as [k|] eqn:Ek; [|done]. exists (Some k). split; [done|]. intros p' [= <-]. by exists k; rewrite Ek.
Qed.

Lemma fresh_wf o : fresh_order o -> validate_order o = Ok tt -> order_wf o.
Proof.
  intros [Hv Hr _] [[Hf H0] _]%validated. assert (Hp : f_pos (qty o)) by (by apply f_pos_lt).
  split; rewrite ?Hr; [done|auto with f64|lia].
Qed.

(** Everything matching guarantees, for one validated order. *)
Record matched (b : OrderBook) (o : Order) (lk : option Z) (b' : OrderBook) (o' : Order) (tr : list trade) : Prop := {
  md_book : book_wf b';
  md_own : own b' (side o) = own b (side o);
  md_order : order_wf o' /\ o' = set_remaining o (remaining o');
  md_exhausted : is_filled o' = false -> forall k, k ∈ (opposing b' (side o)).*1 -> within (beyond (side o)) lk k = false;
  md_fair : Forall (fair_trade (opposite (side o))) tr;
  md_limit : Forall (fun t => within (beyond (side o)) lk (tr_key t) = true) tr;
  md_took : took (flat (opposing b (side o))) tr (flat (opposing b' (side o)));
  md_fills : fills o (remaining o) tr;
  md_left : remaining o' = left_after (remaining o) tr
}.

(** The key of the order's own limit price; none for an order without one. *)
Definition own_limit (o : Order) (lk : option Z) : Prop :=
  match price o with
  | Some p => exists k, try_price_key p = Ok k /\ lk = Some k
  | None => lk = None
  end.

(** The keys of a side in priority order are ever further beyond a limit. *)
Lemma within_head b s lk x :
  book_wf b -> list.head (opposing b s) = Some x -> within (beyond s) lk x.1 = false ->
  forall k, k ∈ (opposing b s).*1 -> within (beyond s) lk k = false.
Proof.
  intros [[Sb _] [Sa _] _] Hx Hw k Hk. unfold within in *. destruct lk as [lk|]; [|done].
  apply negb_false_iff in Hw. apply negb_false_iff.
  destruct s; simpl in *.
  - destruct (asks b) as [|y l]; [done|]. injection Hx as ->. rewrite sorted_keys in Sa.
    apply StronglySorted_inv in Sa as [_ Hall]. rewrite Forall_forall in Hall.
    apply elem_of_cons in Hk as [->|Hk]; [done|]. specialize (Hall _ Hk). lia.
  - rewrite head_reverse in Hx. apply last_Some in Hx as [l El]. rewrite El, reverse_app in Hk. simpl in Hk.
    rewrite sorted_keys, El, fmap_app in Sb. apply elem_of_cons in Hk as [->|Hk]; [done|].
    rewrite fmap_reverse, elem_of_reverse in Hk.
    assert (k < x.1) by (eapply StronglySorted_app_1_elem_of; [exact Sb|done|by left]). lia.
Qed.

Lemma match_order_spec b o ts lk :
  book_wf b -> order_wf o -> limit_key_of o = Some lk ->
  exists b' o' tr, match_order b o [] ts = Some (b', o', events_of o ts tr) /\ matched b o lk b' o' tr.
Proof.
  intros Hb Ho Hlk. destruct (match_order_list b o [] ts lk Hb Ho Hlk) as (b' & o' & tr & Hm & Hl & Hown & _).
  exists b', o', tr. split; [done|].
  destruct (match_list_spec _ _ _ _ _ _ _ _ Ho (opposing_wf b (side o) Hb) Hl)
    as (W & I & L & D & P & F & N & T & Hfl & Hlf).
  destruct (book_wf_shrunk b b' (side o) Hb Hown L P) as [Hb' _].
  split; try done. intros Hf k Hk. destruct (list.head (opposing b' (side o))) as [x|] eqn:Eh.
  - by apply (within_head b' (side o) lk x Hb' Eh (D Hf x eq_refl)).
  - apply head_None in Eh. rewrite Eh in Hk. by apply not_elem_of_nil in Hk.
Qed.

(** Resting what is left of a limit order keeps the book well formed. *)
Lemma rest_spec b o lk b' o' tr p k :
  matched b o lk b' o' tr -> is_filled o' = false -> kind o = Limit -> price o = Some p ->
  try_price_key p = Ok k -> lk = Some k ->
  exists b2, rest b' o' = Some b2 /\ book_wf b2 /\ own b2 (side o) = push_back k o' (own b (side o)) /\
    opposing b2 (side o) = opposing b' (side o).
Proof.
  intros [[Bb Ba Hu] Hown [Wo Io] Hex _ _ _ _ _] Hf Hkind Hp Hk ->. specialize (Hex Hf).
  assert (Hs : side o' = side o) by (by rewrite Io). assert (Hp' : price o' = Some p) by (by rewrite Io).
  assert (Hr : resting (side o) k o').
  { split; [done|done|done|by rewrite Io|eauto]. }
  unfold rest, price_key. rewrite Hp'. simpl. rewrite Hk. simpl. rewrite Hs. eexists. split; [done|].
  destruct (side o); simpl in *; rewrite <- Hown; split_and!; try done; split; simpl; try done;
    try (by apply push_back_wf).
  - intros [k1 l1] [k2 l2] Hx Hy. simpl.
    assert (H1 : k1 ∈ (push_back k o' (bids b')).*1) by (apply list_elem_of_fmap; exists (k1, l1); by rewrite list_elem_of_In).
    apply push_back_keys in H1 as [->|H1].
    + assert (H2 : k2 ∈ (asks b').*1) by (apply list_elem_of_fmap; exists (k2, l2); by rewrite list_elem_of_In).
      specialize (Hex k2 H2). unfold within in Hex. simpl in Hex. lia.
    + apply list_elem_of_fmap in H1 as ([k3 l3] & -> & H1). apply list_elem_of_In in H1. apply (Hu _ _ H1 Hy).
  - intros [k1 l1] [k2 l2] Hx Hy. simpl.
    assert (H1 : k2 ∈ (push_back k o' (asks b')).*1) by (apply list_elem_of_fmap; exists (k2, l2); by rewrite list_elem_of_In).
    apply push_back_keys in H1 as [->|H1].
    + assert (H2 : k1 ∈ (reverse (bids b')).*1).
      { rewrite fmap_reverse, elem_of_reverse. apply list_elem_of_fmap; exists (k1, l1); by rewrite list_elem_of_In. }
      specialize (Hex k1 H2). unfold within in Hex. simpl in Hex. lia.
    + apply list_elem_of_fmap in H1 as ([k3 l3] & -> & H1). apply list_elem_of_In in H1. apply (Hu _ _ Hx H1).
Qed.

(** The cancel event a partly filled order of each kind leaves. *)
Definition remainder_events (o : Order) : list TradeEvent :=
  match kind o with
  | Ioc => [Cancel (id o) IocRemainder]
  | Market => [Cancel (id o) MarketNoLiquidity]
  | Limit | Fok => []
  end.

(** What a submission does, by cases. *)
Inductive outcome (b : OrderBook) (o : Order) (ts : Z) : OrderBook -> list TradeEvent -> Prop :=
| out_invalid e :
    validate_order o = Err e -> outcome b o ts b [Cancel (id o) InvalidOrder]
| out_fok_rejected :
    validate_order o = Ok tt -> kind o = Fok -> can_fill b o = Some false ->
    outcome b o ts b [Cancel (id o) FokNoFill]
| out_filled lk b' o' tr :
    validate_order o = Ok tt -> (kind o = Fok -> can_fill b o = Some true) ->
    own_limit o lk -> matched b o lk b' o' tr -> is_filled o' = true -> outcome b o ts b' (events_of o ts tr)
| out_cancelled lk b' o' tr :
    validate_order o = Ok tt -> (kind o = Fok -> can_fill b o = Some true) -> kind o <> Limit ->
    own_limit o lk -> matched b o lk b' o' tr -> is_filled o' = false ->
    outcome b o ts b' (events_of o ts tr ++ remainder_events o)
| out_rested k b1 b' o' tr :
    validate_order o = Ok tt -> kind o = Limit -> own_limit o (Some k) -> matched b o (Some k) b1 o' tr -> is_filled o' = false ->
    own b' (side o) = push_back k o' (own b (side o)) -> opposing b' (side o) = opposing b1 (side o) ->
    outcome b o ts b' (events_of o ts tr).

Lemma submit_outcome b o ts :
  book_wf b -> fresh_order o ->
  exists b' ev, submit b o ts = Some (b', ev) /\ book_wf b' /\ outcome b o ts b' ev.
Proof.
  intros Hb Ho. unfold submit. destruct (validate_order o) as [[]|e] eqn:Ev.
  2: { eexists _, _. split_and!; [done|done|by econstructor]. }
  pose proof (fresh_wf o Ho Ev) as Hwf. destruct (validated o Ev) as (_ & lk & Hlk & Hprice).
  destruct (match_order_spec b o ts lk Hb Hwf Hlk) as (b1 & o' & tr & Hm & Hmd).
  pose proof (md_order _ _ _ _ _ _ Hmd) as [_ Hid].
  assert (Hown : own_limit o lk).
  { unfold own_limit, limit_key_of in *. destruct (price o) as [p|]; [|by injection Hlk]. destruct (Hprice p eq_refl) as (k & Hk & _ & ->). eauto. }
  unfold submit_validated. destruct (kind o) eqn:Ek.
  - rewrite Hm. cbn [mbind option_bind]. destruct (is_filled o') eqn:Ef.
    + eexists _, _. split_and!; [done|apply Hmd|]. eapply out_filled; [done|by rewrite Ek|done..].
    + destruct (price o) as [p|] eqn:Ep; [|by apply fo_priced in Ep].
      destruct (Hprice p eq_refl) as (k & Hk & _ & ->).
      destruct (rest_spec b o _ b1 o' tr p k Hmd Ef Ek Ep Hk eq_refl) as (b2 & -> & Hb2 & Hown2 & Hopp).
      eexists _, _. split_and!; [done|done|]. by eapply out_rested.
  - rewrite Hm. cbn [mbind option_bind]. eexists _, _. split_and!; [done|apply Hmd|].
    destruct (is_filled o') eqn:Ef; [eapply out_filled; [done|by rewrite Ek|done..]|].
    replace [Cancel (id o') MarketNoLiquidity] with (remainder_events o) by (rewrite Hid; unfold remainder_events; by rewrite Ek).
    eapply out_cancelled; [done|by rewrite Ek|by rewrite Ek|done..].
  - rewrite Hm. cbn [mbind option_bind]. eexists _, _. split_and!; [done|apply Hmd|].
    destruct (is_filled o') eqn:Ef; [eapply out_filled; [done|by rewrite Ek|done..]|].
    replace [Cancel (id o') IocRemainder] with (remainder_events o) by (rewrite Hid; unfold remainder_events; by rewrite Ek).
    eapply out_cancelled; [done|by rewrite Ek|by rewrite Ek|done..].
  - destruct (can_fill b o) as [ok|] eqn:Ec; [|unfold can_fill in Ec; by rewrite Hlk in Ec].
    cbn [mbind option_bind]. destruct ok; cbn [negb].
    + rewrite Hm. cbn [mbind option_bind]. eexists _, _. split_and!; [done|apply Hmd|].
      destruct (is_filled o') eqn:Ef; [by eapply out_filled|].
      rewrite <- (app_nil_r (events_of o ts tr)). replace [] with (remainder_events o) by (unfold remainder_events; by rewrite Ek).
      eapply out_cancelled; [done|done|by rewrite Ek|done..].
    + eexists _, _. split_and!; [done|done|by eapply out_fok_rejected].
Qed.

(** ** Claims *)

Lemma new_book_wf sym : book_wf (new sym).
Proof. repeat split; simpl; try constructor. done. Qed.

(** The constructors of [Order] build such orders, whatever the price and
    quantity. *)
Lemma constructors_fresh i sym sd p q ts :
  f_valid q ->
  fresh_order (limit i sym sd p q ts) /\ fresh_order (market i sym sd q ts) /\
  fresh_order (ioc i sym sd p q ts) /\ fresh_order (fok i sym sd p q ts).
Proof. intros Hq. by split_and!; split. Qed.

(** C24. Any sequence of orders built by the constructors of [Order], whether
    their prices and quantities pass validation or not, submitted to a fresh
    book is processed without a panic and in bounded time (each matching loop
    ends within one step per resting order), and leaves a well-formed book:
    both sides ordered by price with no empty level, every resting order a
    limit order at its own price level with a finite, non-negative, non-dust
    remainder no larger than its quantity, and the book uncrossed: every bid
    below every ask.  (Orders whose public fields were set by hand, a limit
    order without a price or with a remainder that is not its quantity, are
    excluded by [fresh_order].) *)
Theorem book_stays_well_formed sym orders :
  Forall (fun x => fresh_order x.1) orders ->
  exists b evs, submit_all (new sym) orders = Some (b, evs) /\ book_wf b /\ length evs = length orders.
Proof.
  assert (H : forall b, book_wf b -> Forall (fun x => fresh_order x.1) orders ->
    exists b' evs, submit_all b orders = Some (b', evs) /\ book_wf b' /\ length evs = length orders);
    [|by apply H, new_book_wf].
  induction orders as [|[o ts] orders IH]; intros b Hb Ho; [by exists b, []|].
  apply Forall_cons in Ho as [Ho Hos]. destruct (submit_outcome b o ts Hb Ho) as (b1 & ev & Hs & Hb1 & _).
  destruct (IH b1 Hb1 Hos) as (b2 & evs & Hs2 & Hb2 & Hlen).
  exists b2, (ev :: evs). simpl. rewrite Hs. cbn [mbind option_bind]. rewrite Hs2. simpl. by rewrite Hlen.
Qed.

Definition demo_orders : list (Order * Z) :=
  [(limit 1 "BTC" Sell (f_of_Z 101) (f_of_Z 3) 0, 0); (limit 2 "BTC" Sell (f_of_Z 100) (f_of_Z 2) 0, 0);
   (limit 3 "BTC" Sell (f_of_Z 100) (f_of_Z 2) 0, 0); (limit 4 "BTC" Buy (f_of_Z 100) (f_of_Z 5) 0, 1);
   (market 5 "BTC" Buy f_nan 0, 2)]%string.

Lemma fresh_check o :
  valid_binary f64_prec f64_emax (qty o) = true -> remaining o = qty o -> (kind o = Limit -> price o <> None) -> fresh_order o.
Proof. by split. Qed.

Lemma demo_fresh : Forall (fun x => fresh_order x.1) demo_orders.
Proof. repeat (apply Forall_cons; split; [by apply fresh_check|]). constructor. Qed.

Lemma book_stays_well_formed_witness :
  exists b evs, submit_all (new "BTC") demo_orders = Some (b, evs) /\ book_wf b /\ length evs = 5%nat.
Proof. exact (book_stays_well_formed "BTC" demo_orders demo_fresh). Defined.



(** Orders 2 and 3 trade first (better price, then arrival), order 4 rests. *)
Example demo_priority :
  (fun x : OrderBook * list (list TradeEvent) => (event_order_id <$> concat x.2, first_key (asks x.1), last_key (bids x.1)))
    <$> submit_all (new "BTC") demo_orders
  = Some ([4; 2; 4; 3; 5], Some 10100000000, Some 10000000000).
Proof. vm_compute. reflexivity. Qed.

(** ** Divergences *)

Definition fok_ask : Order := limit 1 "BTC" Sell f_one (f_lit 1074999998925 100000000000) 0.
Definition fok_buy : Order := fok 2 "BTC" Buy f_one (f_lit 1075 100) 0.

(** A fill-or-kill order is not always all-or-nothing: [can_fill] admits
    it when the available quantity reaches [needed * (1 - 1e-9)], but what is
    then left can exceed the dust threshold [qty * 1e-9], so the order trades
    partly, is not filled, and no cancel event reports the remainder. *)
Theorem fok_partial_fill :
  exists b b' o' ev, submit (new "BTC") fok_ask 0 = Some (b, []) /\
    can_fill b fok_buy = Some true /\
    match_order b fok_buy [] 1 = Some (b', o', ev) /\ is_filled o' = false /\
    submit b fok_buy 1 = Some (b', ev) /\ length ev = 2%nat /\ Forall (fun e => is_fill e = true) ev /\
    asks b' = [].
Proof.
  do 4 eexists. split; [vm_compute; reflexivity|]. split; [vm_compute; reflexivity|].
  split; [vm_compute; reflexivity|]. split; [vm_compute; reflexivity|]. split; [vm_compute; reflexivity|].
  split; [reflexivity|]. split; [by repeat constructor|reflexivity].
Qed.

(** Price keys: every accepted price has a 64-bit key, and rejection is
    exact: NaN and infinities, then non-positive prices, then prices above
    [MAX_PRICE].  The largest accepted price does saturate (its scaled value
    is 2^64), and positive prices below half a unit of the scale all map to
    key 0, whose level trades at price 0. *)
Theorem price_key_bounds p :
  (forall k, try_price_key p = Ok k -> 0 <= k <= u64_max /\ f_is_finite p = true /\ f_lt f_zero p = true /\ f_le p MAX_PRICE = true) /\
  (f_is_finite p = true -> f_lt f_zero p = true -> f_le p MAX_PRICE = true -> exists k, try_price_key p = Ok k) /\
  f_mul MAX_PRICE PRICE_SCALE = f_of_Z (2 ^ 64) /\
  try_price_key MAX_PRICE = Ok u64_max /\
  try_price_key (f_lit 1 1000000000) = Ok 0 /\ key_price 0 = f_zero.
Proof.
  assert (Hmax : f_is_nan MAX_PRICE = false) by (vm_compute; reflexivity).
  split_and!; [| |vm_compute; reflexivity..].
  - unfold try_price_key. intros k H. destruct (f_is_finite p) eqn:E1; [|done]. simpl in H.
    destruct (f_le p f_zero) eqn:E2; [done|]. destruct (f_lt MAX_PRICE p) eqn:E3; [done|]. injection H as <-.
    pose proof (f_to_u64_bounds (f_round (f_mul p PRICE_SCALE))). split_and!; [lia|lia|done| |].
    + rewrite f_lt_not_le by auto with f64. by rewrite E2.
    + rewrite f_lt_not_le in E3 by auto with f64. by apply negb_false_iff in E3.
  - unfold try_price_key. intros E1 E2 E3. rewrite E1. simpl.
    rewrite f_lt_not_le in E2 by auto with f64. apply negb_true_iff in E2. rewrite E2.
    rewrite f_lt_not_le by auto with f64. rewrite E3. simpl. eauto.
Qed.

End Book.
