(* ===== verification/Portfolio.v ===== *)
(** * The portfolio ([src/src/matching/portfolio.rs])

    [Module Portfolio] models the signed-position, average-cost portfolio:
    the two hash maps, the trade log, cash and realised PnL, and [apply] on
    every branch (open, add, reduce, flip, snap to flat), all in [f64]
    arithmetic. *)

From S2P Require Import Prelude Float64 Orders.

#[local] Open Scope Z_scope.

Module Portfolio.
Import Orders.

Record Trade : Type := mkTrade {
  t_order_id : OrderId;
  t_symbol : string;
  t_side : Side;
  t_price : f64;
  t_qty : f64;
  t_ts : Z
}.

Record t : Type := mkPortfolio {
  cash : f64;
  positions : gmap string f64;
  avg_costs : gmap string f64;
  trades : list Trade;
  realized_pnl : f64
}.

(** [Portfolio::new]. *)
Definition new (initial_cash : f64) : t := mkPortfolio initial_cash ∅ ∅ [] f_zero.

(** The [match fill.side] of [apply] for one symbol: position and average
    cost before, to position, average cost, realised PnL and cash after. *)
Definition apply_side (s : Side) (q p pos cost pnl cash : f64) : f64 * f64 * f64 * f64 :=
  match s with
  | Buy =>
      if f_le f_zero pos then
        (f_add pos q, f_div (f_add (f_mul pos cost) (f_mul q p)) (f_add pos q), pnl, f_sub cash (f_mul q p))
      else
        let covered := f_min q (f_neg pos) in
        let pnl' := f_add pnl (f_mul (f_sub cost p) covered) in
        let leftover := f_sub q covered in
        if negb (qty_is_zero leftover q) then (leftover, p, pnl', f_sub cash (f_mul q p))
        else (f_add pos covered, cost, pnl', f_sub cash (f_mul q p))
  | Sell =>
      if f_le pos f_zero then
        (f_sub pos q, f_div (f_add (f_mul (f_neg pos) cost) (f_mul q p)) (f_add (f_neg pos) q), pnl, f_add cash (f_mul q p))
      else
        let closed := f_min q pos in
        let pnl' := f_add pnl (f_mul (f_sub p cost) closed) in
        let leftover := f_sub q closed in
        if negb (qty_is_zero leftover q) then (f_neg leftover, p, pnl', f_add cash (f_mul q p))
        else (f_sub pos closed, cost, pnl', f_add cash (f_mul q p))
  end.

(** The final snap to flat. *)
Definition snap (q pos cost : f64) : f64 * f64 :=
  if f_le (f_abs pos) (f_mul q QTY_REL_TOL) then (f_zero, f_zero) else (pos, cost).

(** [Portfolio::apply]. *)
Definition apply (pf : t) (fill : Fill) : t :=
  let trade := mkTrade (order_id fill) (f_symbol fill) (f_side fill) (f_price fill) (f_qty fill) (f_ts fill) in
  let pos := default f_zero (positions pf !! f_symbol fill) in
  let cost := default f_zero (avg_costs pf !! f_symbol fill) in
  let '(pos1, cost1, pnl1, cash1) :=
    apply_side (f_side fill) (f_qty fill) (f_price fill) pos cost (realized_pnl pf) (cash pf) in
  let '(pos2, cost2) := snap (f_qty fill) pos1 cost1 in
  mkPortfolio cash1 (<[f_symbol fill := pos2]> (positions pf)) (<[f_symbol fill := cost2]> (avg_costs pf))
    (trades pf ++ [trade]) pnl1.

(** [Portfolio::position] and [avg_cost]. *)
Definition position (pf : t) (sym : string) : f64 := default f_zero (positions pf !! sym).
Definition avg_cost (pf : t) (sym : string) : f64 := default f_zero (avg_costs pf !! sym).

(** [Portfolio::unrealized_pnl]. *)
Definition unrealized_pnl (pf : t) (sym : string) (current_price : f64) : f64 :=
  f_mul (f_sub current_price (avg_cost pf sym)) (position pf sym).

(** [Portfolio::total_pnl], the prices in the order the map yields them. *)
Definition total_pnl (pf : t) (prices : list (string * f64)) : f64 :=
  f_add (realized_pnl pf) (f_sum ((fun x => unrealized_pnl pf x.1 x.2) <$> prices)).

(** A sequence of fills. *)
Definition apply_all (pf : t) (fills : list Fill) : t := fold_left apply fills pf.

(** ** Lemmas *)

Definition flat_costless (pf : t) : Prop :=
  forall sym, f_eq (position pf sym) f_zero = true -> avg_cost pf sym = f_zero.

Lemma f_eq_zero x : f_eq x f_zero = true -> exists s, x = S754_zero s.
Proof. destruct x as [s|[]| |[]]; try discriminate. by exists s. Qed.

Lemma snap_flat q pos cost pos' cost' :
  f_pos q -> snap q pos cost = (pos', cost') -> f_eq pos' f_zero = true -> cost' = f_zero.
Proof.
  intros Hq H E. unfold snap in H. destruct (f_le (f_abs pos) (f_mul q QTY_REL_TOL)) eqn:El; simplify_eq; [done|].
  apply f_eq_zero in E as [s ->]. simpl in El. by rewrite tolerance_nonneg in El.
Qed.

Lemma apply_other pf fill sym :
  sym <> f_symbol fill -> position (apply pf fill) sym = position pf sym /\ avg_cost (apply pf fill) sym = avg_cost pf sym.
Proof.
  intros Hne. unfold apply. destruct (apply_side _ _ _ _ _ _ _) as [[[p1 c1] r1] k1].
  destruct (snap _ _ _) as [p2 c2]. unfold position, avg_cost. simpl. by rewrite !lookup_insert_ne.
Qed.

Lemma apply_own pf fill :
  let '(pos1, cost1, pnl1, cash1) :=
    apply_side (f_side fill) (f_qty fill) (f_price fill) (position pf (f_symbol fill)) (avg_cost pf (f_symbol fill))
      (realized_pnl pf) (cash pf) in
  (position (apply pf fill) (f_symbol fill), avg_cost (apply pf fill) (f_symbol fill)) = snap (f_qty fill) pos1 cost1 /\
  realized_pnl (apply pf fill) = pnl1 /\ cash (apply pf fill) = cash1.
Proof.
  unfold position, avg_cost, apply.
  destruct (apply_side _ _ _ _ _ _ _) as [[[p1 c1] r1] k1]. destruct (snap _ _ _) as [p2 c2].
  simpl. by rewrite !lookup_insert_eq.
Qed.

Lemma apply_flat_costless pf fill : f_pos (f_qty fill) -> flat_costless pf -> flat_costless (apply pf fill).
Proof.
  intros Hq Hpf sym. destruct (decide (sym = f_symbol fill)) as [->|Hne].
  - pose proof (apply_own pf fill) as Ho. destruct (apply_side _ _ _ _ _ _ _) as [[[p1 c1] r1] k1].
    destruct Ho as [Ho _]. symmetry in Ho. by eapply snap_flat.
  - destruct (apply_other pf fill sym Hne) as [-> ->]. apply Hpf.
Qed.

(** Cash and realised PnL of one fill. *)
Lemma apply_side_money s q p pos cost pnl cash pos' cost' pnl' cash' :
  apply_side s q p pos cost pnl cash = (pos', cost', pnl', cash') ->
  cash' = match s with Buy => f_sub cash (f_mul q p) | Sell => f_add cash (f_mul q p) end /\
  pnl' = match s with
         | Buy => if f_le f_zero pos then pnl else f_add pnl (f_mul (f_sub cost p) (f_min q (f_neg pos)))
         | Sell => if f_le pos f_zero then pnl else f_add pnl (f_mul (f_sub p cost) (f_min q pos))
         end.
Proof.
  unfold apply_side. intros H. destruct s.
  - destruct (f_le f_zero pos); [by simplify_eq|]. destruct (negb _); by simplify_eq.
  - destruct (f_le pos f_zero); [by simplify_eq|]. destruct (negb _); by simplify_eq.
Qed.

(** Opening from flat and closing in full. *)
Lemma buy_from_flat pf sym q p i ts :
  f_pos q -> qty_is_zero q q = false -> position pf sym = f_zero -> position (apply pf (mkFill i sym Buy p q ts)) sym = q.
Proof.
  intros Hq Hdust Hpos. pose proof Hq as (_ & _ & Hp). destruct q as [| | |[] m e]; try discriminate; try (simpl in Hp; lia).
  set (q := S754_finite false m e) in *. pose proof (apply_own pf (mkFill i sym Buy p q ts)) as Ho.
  cbn [apply_side f_side f_qty f_price f_symbol] in Ho. rewrite Hpos in Ho. destruct Ho as [Ho _]. unfold snap in Ho.
  change (f_abs (f_add f_zero q)) with q in Ho. change (f_le q (f_mul q QTY_REL_TOL)) with (qty_is_zero q q) in Ho.
  rewrite Hdust in Ho. by injection Ho as Ho _.
Qed.

Lemma sell_all pf sym q p i ts :
  f_pos q -> position pf sym = q ->
  let pf' := apply pf (mkFill i sym Sell p q ts) in position pf' sym = f_zero /\ avg_cost pf' sym = f_zero.
Proof.
  intros Hq Hpos pf'. pose proof Hq as (_ & Hfin & Hp). destruct q as [| | |[] m e]; try discriminate; try (simpl in Hp; lia).
  set (q := S754_finite false m e) in *. pose proof (apply_own pf (mkFill i sym Sell p q ts)) as Ho.
  cbn [apply_side f_side f_qty f_price f_symbol] in Ho. rewrite Hpos in Ho. change (f_le q f_zero) with false in Ho. cbn iota in Ho.
  destruct (f_min_cases q q eq_refl eq_refl) as [[Em _]|[Em _]]; rewrite Em, f_sub_diag in Ho by done;
    unfold qty_is_zero in Ho; rewrite (tolerance_nonneg q Hq) in Ho; cbn [negb] in Ho; destruct Ho as [Ho _];
    unfold snap in Ho; change (f_abs f_zero) with f_zero in Ho; rewrite (tolerance_nonneg q Hq) in Ho;
    by injection Ho as Hp1 Hp2.
Qed.

(** ** Claims *)

(** The documented invariant: after any sequence of fills of positive
    quantity, a symbol whose position is zero has average cost exactly zero,
    so no stale cost reaches its next round trip; and the trade log has one
    entry per fill. *)
Theorem portfolio_flat_has_no_cost initial_cash fills sym :
  Forall (fun f => f_pos (f_qty f)) fills ->
  let pf := apply_all (new initial_cash) fills in
  (f_eq (position pf sym) f_zero = true -> avg_cost pf sym = f_zero) /\ length (trades pf) = length fills.
Proof.
  intros Hall. assert (H : forall pf, flat_costless pf -> flat_costless (apply_all pf fills) /\
    length (trades (apply_all pf fills)) = (length (trades pf) + length fills)%nat).
  { induction Hall as [|f fills Hf Hall IH]; intros pf Hpf; simpl; [split; [done|lia]|].
    destruct (IH (apply pf f) (apply_flat_costless pf f Hf Hpf)) as [H1 H2]. split; [done|].
    unfold apply_all in *. simpl. rewrite H2. unfold apply. destruct (apply_side _ _ _ _ _ _ _) as [[[? ?] ?] ?].
    destruct (snap _ _ _). simpl. rewrite length_app. simpl. lia. }
  destruct (H (new initial_cash)) as [H1 H2]; [by intros s _|]. split; [apply H1|done].
Qed.

Definition buy_fill (q p : f64) : Fill := mkFill 1 "BTC" Buy p q 0.
Definition sell_fill (q p : f64) : Fill := mkFill 2 "BTC" Sell p q 1.

Lemma portfolio_flat_has_no_cost_witness :
  let pf := apply_all (new (f_of_Z 1000)) [buy_fill (f_lit 1 10) (f_of_Z 30); buy_fill (f_lit 2 10) (f_of_Z 31);
                                          sell_fill (f_lit 3 10) (f_of_Z 32)] in
  f_eq (position pf "BTC") f_zero = true /\ avg_cost pf "BTC" = f_zero.
Proof.
  intros pf. assert (E : f_eq (position pf "BTC") f_zero = true) by (vm_compute; reflexivity). split; [exact E|].
  refine (proj1 (portfolio_flat_has_no_cost (f_of_Z 1000) _ "BTC" _) E).
  repeat (apply Forall_cons; split; [split; [|split]; vm_compute; reflexivity|]). constructor.
Defined.

(** Money: a fill moves cash by exactly its notional, books realised PnL
    only when it reduces an existing position of the other sign, and then
    exactly (exit - entry) on the part it closes, at most the position;
    positions and costs of other symbols do not change. *)
Theorem portfolio_fill_money pf fill :
  let q := f_qty fill in let p := f_price fill in
  let pos := position pf (f_symbol fill) in let cost := avg_cost pf (f_symbol fill) in
  (forall sym, sym <> f_symbol fill ->
     position (apply pf fill) sym = position pf sym /\ avg_cost (apply pf fill) sym = avg_cost pf sym) /\
  (f_side fill = Buy ->
     cash (apply pf fill) = f_sub (cash pf) (f_mul q p) /\
     realized_pnl (apply pf fill) =
       if f_le f_zero pos then realized_pnl pf
       else f_add (realized_pnl pf) (f_mul (f_sub cost p) (f_min q (f_neg pos)))) /\
  (f_side fill = Sell ->
     cash (apply pf fill) = f_add (cash pf) (f_mul q p) /\
     realized_pnl (apply pf fill) =
       if f_le pos f_zero then realized_pnl pf
       else f_add (realized_pnl pf) (f_mul (f_sub p cost) (f_min q pos))).
Proof.
  intros q p pos cost. split; [intros; by apply apply_other|].
  pose proof (apply_own pf fill) as Ho. fold q p pos cost in Ho.
  destruct (apply_side (f_side fill) q p pos cost (realized_pnl pf) (cash pf)) as [[[p1 c1] r1] k1] eqn:E.
  destruct Ho as (_ & -> & ->). apply apply_side_money in E as [-> ->].
  split; intros ->; done.
Qed.

(** C28. Round trip: from flat, buying any positive quantity (not dust to
    itself) and selling the same quantity back, at whatever prices, ends
    exactly flat with no residual cost: no dust position survives the two
    roundings, and no short is opened. *)
Theorem portfolio_round_trip pf sym q p1 p2 i1 i2 t1 t2 :
  f_pos q -> qty_is_zero q q = false -> position pf sym = f_zero -> avg_cost pf sym = f_zero ->
  let pf1 := apply pf (mkFill i1 sym Buy p1 q t1) in
  let pf2 := apply pf1 (mkFill i2 sym Sell p2 q t2) in
  position pf1 sym = q /\ position pf2 sym = f_zero /\ avg_cost pf2 sym = f_zero.
Proof.
  intros Hq Hdust Hpos Hcost pf1 pf2. assert (H1 : position pf1 sym = q) by (by apply buy_from_flat).
  split; [done|]. by apply (sell_all pf1).
Qed.

Lemma portfolio_round_trip_witness :
  let pf1 := apply (new (f_of_Z 5)) (mkFill 1 "ETH" Buy (f_lit 31 10) (f_lit 7 10) 0) in
  let pf2 := apply pf1 (mkFill 2 "ETH" Sell (f_lit 29 10) (f_lit 7 10) 1) in
  position pf1 "ETH" = f_lit 7 10 /\ position pf2 "ETH" = f_zero /\ avg_cost pf2 "ETH" = f_zero.
Proof.
  apply portfolio_round_trip; [split; [|split]; vm_compute; reflexivity|vm_compute; reflexivity|reflexivity..].
Defined.

End Portfolio.
