(* ===== verification/Paper.v ===== *)
(** * The paper-trading engine ([src/src/matching/paper.rs])

    [Module Paper] models [PaperEngine]: submission with validation and id
    assignment, and [on_candle], which fills pending orders against a candle,
    applies the fills to the portfolio and drops the finished orders. *)

From S2P Require Import Prelude Float64 Candle Orders Book Portfolio.

#[local] Open Scope Z_scope.

Module Paper.
Import Orders.

Record t : Type := mkEngine {
  portfolio : Portfolio.t;
  pending : list Order;
  next_id : Z
}.

(** [PaperEngine::new]. *)
Definition new (initial_cash : f64) : t := mkEngine (Portfolio.new initial_cash) [] 1.

(** [order.id = ...]. *)
Definition with_id (o : Order) (i : OrderId) : Order :=
  mkOrder i (symbol o) (side o) (kind o) (price o) (qty o) (remaining o) (ots o).

(** [enqueue]. *)
Definition enqueue (e : t) (order : Order) : t * OrderId :=
  (mkEngine (portfolio e) (pending e ++ [with_id order (next_id e)]) (fetch_add1 (next_id e)), next_id e).

(** [PaperEngine::try_submit]. *)
Definition try_submit (e : t) (order : Order) : t * result OrderId Book.BookError :=
  match Book.validate_order order with
  | Err x => (e, Err x)
  | Ok _ => let '(e', i) := enqueue e order in (e', Ok i)
  end.

(** [PaperEngine::submit]: a rejected order burns an id. *)
Definition submit (e : t) (order : Order) : t * OrderId :=
  match try_submit e order with
  | (e', Ok i) => (e', i)
  | (e', Err _) => (mkEngine (portfolio e') (pending e') (fetch_add1 (next_id e')), next_id e')
  end.

(** [limit_fill_price]. *)
Definition limit_fill_price (order : Order) (candle : Candle) : option f64 :=
  p ← price order;
  match side order with
  | Buy => if f_le (low candle) p then Some (f_min p (open candle)) else None
  | Sell => if f_le p (high candle) then Some (f_max p (open candle)) else None
  end.

(** [emit_fill]. *)
Definition emit_fill (order : Order) (p q : f64) (ts : Z) : Order * TradeEvent :=
  (set_remaining order (f_sub (remaining order) q),
   FillEvent (mkFill (id order) (symbol order) (side order) p q ts)).

(** The body of [on_candle]'s loop over the pending orders. *)
Definition process_order (sym : string) (candle : Candle) (order : Order) : Order * list TradeEvent :=
  if negb (bool_decide (symbol order = sym)) || is_filled order then (order, [])
  else
    match kind order with
    | Market =>
        let '(o', ev) := emit_fill order (open candle) (remaining order) (ts candle) in (o', [ev])
    | Limit =>
        match limit_fill_price order candle with
        | Some p => let '(o', ev) := emit_fill order p (remaining order) (ts candle) in (o', [ev])
        | None => (order, [])
        end
    | Ioc | Fok =>
        match limit_fill_price order candle with
        | Some p => let '(o', ev) := emit_fill order p (remaining order) (ts candle) in (o', [ev])
        | None =>
            (set_remaining order f_zero,
             [Cancel (id order) (if decide (kind order = Fok) then FokNoFill else IocRemainder)])
        end
    end.

(** The fills among the events. *)
Fixpoint fills_of (events : list TradeEvent) : list Fill :=
  match events with
  | [] => []
  | FillEvent f :: events' => f :: fills_of events'
  | Cancel _ _ :: events' => fills_of events'
  end.

(** [PaperEngine::on_candle]. *)
Definition on_candle (e : t) (sym : string) (candle : Candle) : t * list TradeEvent :=
  let processed := process_order sym candle <$> pending e in
  let events := concat processed.*2 in
  let pf := Portfolio.apply_all (portfolio e) (fills_of events) in
  (mkEngine pf (filter (fun o => is_filled o = false) processed.*1) (next_id e), events).

Definition pending_count (e : t) : nat := length (pending e).

(** ** Lemmas *)

(** Pending orders: well formed, open, priced unless they are market orders,
    with distinct increasing ids below the next one. *)
Record pending_wf (o : Order) : Prop := {
  pw_wf : order_wf o;
  pw_open : is_filled o = false
}.

Record engine_wf (e : t) : Prop := {
  ew_pending : Forall pending_wf (pending e);
  ew_ids : StronglySorted Z.lt (id <$> pending e);
  ew_fresh : Forall (fun o => id o < next_id e) (pending e)
}.

Lemma full_fill o p ts : order_wf o -> is_filled (emit_fill o p (remaining o) ts).1 = true.
Proof.
  intros [Hq (_ & Hf & _) _]. apply filled_zero; [done|]. simpl. by apply f_sub_diag.
Qed.

(** The candle traded through the order's limit: down to a buyer's, up to a
    seller's. *)
Definition reached (candle : Candle) (o : Order) : bool :=
  match price o, side o with
  | Some p, Buy => f_le (low candle) p
  | Some p, Sell => f_le p (high candle)
  | None, _ => false
  end.

(** Whether an order is still to be worked after the candle. *)
Definition still_pending (sym : string) (candle : Candle) (o : Order) : bool :=
  negb (bool_decide (symbol o = sym)) || (bool_decide (kind o = Limit) && negb (reached candle o)).

(** What the candle is to report of a pending order: its fill if it is a
    market order or was reached, the cancel of an IOC or FOK order that was
    not, nothing otherwise. *)
Definition reports (sym : string) (candle : Candle) (o : Order) (events : list TradeEvent) : Prop :=
  if bool_decide (symbol o = sym) then
    if bool_decide (kind o = Market) || reached candle o
    then exists p, events = [FillEvent (mkFill (id o) sym (side o) p (remaining o) (ts candle))]
    else events = match kind o with
                  | Ioc => [Cancel (id o) IocRemainder]
                  | Fok => [Cancel (id o) FokNoFill]
                  | _ => []
                  end
  else events = [].

Lemma limit_fill_reached o candle : is_Some (limit_fill_price o candle) <-> reached candle o = true.
Proof.
  unfold limit_fill_price, reached. destruct (price o) as [p|]; cbn; [|split; intros H; [by destruct H|done]].
  destruct (side o); [destruct (f_le (low candle) p)|destruct (f_le p (high candle))]; split; intros H; first [done|by eexists|by destruct H].
Qed.

Lemma process_order_reports sym candle o :
  pending_wf o -> reports sym candle o (process_order sym candle o).2.
Proof.
  intros [_ Hopen]. unfold process_order, reports. rewrite Hopen, orb_false_r. pose proof (limit_fill_reached o candle) as Hr.
  destruct (bool_decide (symbol o = sym)) eqn:Es; cbn [negb]; [|done]. apply bool_decide_eq_true in Es. rewrite <- Es.
  destruct (kind o) eqn:Ek; cbn [bool_decide orb]; [|by eexists|..];
    (destruct (limit_fill_price o candle) as [p|]; [rewrite (proj1 Hr ltac:(eauto)), ?orb_true_r; by eexists|];
     destruct (reached candle o); [by destruct (proj2 Hr eq_refl)|]); by rewrite ?bool_decide_false by done.
Qed.

Lemma process_order_done sym candle o :
  pending_wf o ->
  let o' := (process_order sym candle o).1 in
  if still_pending sym candle o then o' = o else is_filled o' = true.
Proof.
  intros [Hwf Hopen]. unfold process_order, still_pending. rewrite Hopen, orb_false_r.
  destruct (negb (bool_decide (symbol o = sym))); simpl; [done|].
  assert (Hr : negb (reached candle o) = match limit_fill_price o candle with Some _ => false | None => true end).
  { pose proof (limit_fill_reached o candle) as H. destruct (limit_fill_price o candle); [by rewrite (proj1 H ltac:(eauto))|].
    destruct (reached candle o); [by destruct (proj2 H eq_refl)|done]. }
  rewrite Hr. destruct (kind o); [destruct (limit_fill_price o candle)|..|destruct (limit_fill_price o candle)
    |destruct (limit_fill_price o candle)]; simpl; try done; try (by apply (full_fill o f_zero 0));
    (apply filled_zero; [by destruct Hwf|done]).
Qed.

Lemma processed_pending sym candle l :
  Forall pending_wf l ->
  filter (fun o => is_filled o = false) (process_order sym candle <$> l).*1 =
    filter (fun o => still_pending sym candle o = true) l.
Proof.
  induction 1 as [|o l Ho Hl IH]; [done|]. rewrite !fmap_cons. pose proof (process_order_done sym candle o Ho) as Hd.
  simpl in Hd. destruct (still_pending sym candle o) eqn:Es.
  - rewrite Hd, filter_cons_True by apply Ho. rewrite filter_cons_True by done. by rewrite IH.
  - rewrite filter_cons_False by congruence. rewrite filter_cons_False by congruence. done.
Qed.

Lemma filter_ids_sorted (P : Order -> Prop) `{!forall x, Decision (P x)} l :
  StronglySorted Z.lt (id <$> l) -> StronglySorted Z.lt (id <$> filter P l).
Proof.
  induction l as [|o l IH]; [done|]. rewrite fmap_cons. intros [Hs Ho]%StronglySorted_inv.
  rewrite filter_cons. case_decide; [|by apply IH]. rewrite fmap_cons. constructor; [by apply IH|].
  rewrite Forall_fmap in *. by apply Forall_filter_sub.
Qed.

Lemma on_candle_wf e sym candle : engine_wf e -> engine_wf (on_candle e sym candle).1.
Proof.
  intros [Hp Hi Hf]. unfold on_candle. simpl. split; simpl; rewrite (processed_pending sym candle _ Hp).
  - by apply Forall_filter_sub.
  - by apply filter_ids_sorted.
  - by apply Forall_filter_sub.
Qed.

(** A quantity that is not dust to itself. *)
Definition submittable (o : Order) : Prop :=
  f_valid (qty o) /\ remaining o = qty o /\ qty_is_zero (qty o) (qty o) = false.

Lemma submit_wf e o :
  engine_wf e -> submittable o -> 0 <= next_id e < u64_max ->
  engine_wf (submit e o).1 /\ (submit e o).2 = next_id e /\ next_id (submit e o).1 = next_id e + 1.
Proof.
  intros [Hp Hi Hf] (Hv & Hr & Hd) Hn.
  assert (Hnext : fetch_add1 (next_id e) = next_id e + 1).
  { unfold fetch_add1, u64_wrapping_add, u64_wrap. apply Z.mod_small. unfold u64_max in Hn. lia. }
  assert (Hf' : Forall (fun o => id o < next_id e + 1) (pending e)) by (eapply Forall_impl; [exact Hf|]; simpl; lia).
  unfold submit, try_submit. destruct (Book.validate_order o) as [[]|x] eqn:Ev; simpl.
  - rewrite Hnext. split; [|done]. destruct (Book.validated o Ev) as [[Hfin Hpos] _].
    assert (Pq : f_pos (qty o)) by (by apply f_pos_lt). split; simpl.
    + apply Forall_app. split; [done|]. apply Forall_singleton. split.
      * split; simpl; rewrite ?Hr; [done|auto with f64|lia].
      * unfold is_filled. simpl. by rewrite Hr.
    + rewrite fmap_app. apply sorted_snoc; [done|]. by rewrite Forall_fmap.
    + apply Forall_app. split; [done|]. apply Forall_singleton. simpl. lia.
  - rewrite Hnext. by split.
Qed.

(** ** Claims *)

(** Ids are unique: any sequence of submissions, valid or not, returns
    the ids 1, 2, 3, ...; every pending order is well formed and open, and
    the pending ids are distinct, increasing and already handed out. *)
Theorem paper_ids_unique initial_cash (orders : list Order) :
  Forall submittable orders -> Z.of_nat (length orders) + 1 <= u64_max ->
  let '(e, ids) := fold_left (fun acc o => let '(e', i) := submit acc.1 o in (e', acc.2 ++ [i])) orders (new initial_cash, []) in
  engine_wf e /\ ids = (fun i => Z.of_nat (S i)) <$> seq 0 (length orders) /\
  next_id e = Z.of_nat (length orders) + 1.
Proof.
  intros Hall Hn. induction orders as [|o orders IH] using rev_ind.
  { simpl. split; [|done]. by repeat constructor. }
  apply Forall_app in Hall as [Hall Ho]. apply Forall_cons in Ho as [Ho _]. rewrite length_app in *. simpl in Hn.
  rewrite fold_left_app. simpl. destruct (fold_left _ orders _) as [e ids]. destruct IH as (Hwf & -> & Hid); [done|lia|].
  destruct (submit_wf e o Hwf Ho ltac:(lia)) as (Hwf' & H2 & H3). simpl. destruct (submit e o) as [e' i]. simpl in *.
  split_and!; [done| |lia]. rewrite Nat.add_1_r, seq_S, fmap_app. simpl. do 2 f_equal. lia.
Qed.

Definition demo_orders : list Order :=
  [market 0 "BTC" Buy f_one 0; limit 0 "BTC" Sell (f_neg f_one) f_one 0; ioc 0 "ETH" Sell (f_of_Z 3) f_one 0].

Lemma demo_submittable : Forall submittable demo_orders.
Proof. repeat (apply Forall_cons; split; [split; [|split]; vm_compute; reflexivity|]). constructor. Qed.

Lemma paper_ids_unique_witness :
  let '(e, ids) := fold_left (fun acc o => let '(e', i) := submit acc.1 o in (e', acc.2 ++ [i])) demo_orders (new f_one, []) in
  engine_wf e /\ ids = [1; 2; 3] /\ next_id e = 4.
Proof. exact (paper_ids_unique f_one demo_orders demo_submittable ltac:(vm_compute; discriminate)). Defined.

(** C27. One candle settles everything it can.  Afterwards the pending orders
    are exactly those of other symbols and the limit orders the candle did not
    reach (its low is not at or below a buyer's limit, its high not at or above
    a seller's), unchanged and in order; in particular no market, IOC or FOK order of the symbol and
    no filled order stays pending.  The events are, order by order, the fill
    of every market order and every order that was reached, for its whole
    remainder, and the cancel of every IOC and FOK order that was not.  Ids
    stay unique, and the portfolio has received exactly the fills reported. *)
Theorem paper_candle_settles e sym candle :
  engine_wf e ->
  let '(e', events) := on_candle e sym candle in
  pending e' = filter (fun o => still_pending sym candle o = true) (pending e) /\
  (exists evs, events = concat evs /\ Forall2 (reports sym candle) (pending e) evs) /\
  engine_wf e' /\ portfolio e' = Portfolio.apply_all (portfolio e) (fills_of events) /\
  (forall o, In o (pending e') -> symbol o = sym -> kind o = Limit /\ reached candle o = false).
Proof.
  intros Hwf. pose proof (on_candle_wf e sym candle Hwf) as Hwf'. destruct Hwf as [Hp _ _].
  unfold on_candle in *. simpl in Hwf'. split_and!; [by apply processed_pending| |done|done|].
  - eexists. split; [reflexivity|]. clear Hwf'. induction Hp as [|o l Ho Hl IH]; cbn; constructor; [by apply process_order_reports|done].
  - intros o Ho Hs. simpl in Ho. rewrite (processed_pending sym candle _ Hp) in Ho.
    apply list_elem_of_In, list_elem_of_filter in Ho as [Ho _]. unfold still_pending in Ho.
    rewrite (bool_decide_true (symbol o = sym)) in Ho by done. cbn [negb orb] in Ho.
    apply andb_true_iff in Ho as [H1%bool_decide_eq_true H2%negb_true_iff]. done.
Qed.

Definition demo_engine : t :=
  (fold_left (fun acc o => let '(e', i) := submit acc.1 o in (e', acc.2 ++ [i])) demo_orders (new f_one, [])).1.

Lemma demo_engine_wf : engine_wf demo_engine.
Proof.
  pose proof (submit_wf (new f_one)) as H.
  assert (H0 : engine_wf (new f_one)) by (by repeat constructor).
  pose proof demo_submittable as Hd. apply Forall_cons in Hd as [S1 Hd]. apply Forall_cons in Hd as [S2 Hd].
  apply Forall_cons in Hd as [S3 _].
  destruct (H _ H0 S1 ltac:(split; vm_compute; congruence)) as (W1 & _ & N1).
  destruct (submit_wf _ _ W1 S2 ltac:(split; vm_compute; congruence)) as (W2 & _ & N2).
  destruct (submit_wf _ _ W2 S3 ltac:(split; vm_compute; congruence)) as (W3 & _ & N3). exact W3.
Qed.

Lemma paper_candle_settles_witness :
  let '(e', events) := on_candle demo_engine "BTC" (mkCandle 7 f_one f_one f_one f_one f_one) in
  pending e' = filter (fun o => still_pending "BTC" (mkCandle 7 f_one f_one f_one f_one f_one) o = true) (pending demo_engine).
Proof.
  pose proof (paper_candle_settles demo_engine "BTC" (mkCandle 7 f_one f_one f_one f_one f_one) demo_engine_wf) as H.
  destruct (on_candle demo_engine "BTC" (mkCandle 7 f_one f_one f_one f_one f_one)) as [e' ev]. apply H.
Defined.

Lemma fill_source e sym candle f :
  Forall (fun o => forall p, price o = Some p -> f_is_nan p = false) (pending e) -> f_is_nan (open candle) = false ->
  In f (fills_of (on_candle e sym candle).2) ->
  exists o, In o (pending e) /\ is_filled o = false /\ symbol o = sym /\
    order_id f = id o /\ f_side f = side o /\ f_qty f = remaining o /\ f_ts f = ts candle /\
    ((kind o = Market /\ f_price f = open candle) \/
     exists p, kind o <> Market /\ price o = Some p /\ (f_price f = p \/ f_price f = open candle) /\
       match side o with
       | Buy => f_le (low candle) p = true /\ f_le (f_price f) p = true /\ f_le (f_price f) (open candle) = true
       | Sell => f_le p (high candle) = true /\ f_le p (f_price f) = true /\ f_le (open candle) (f_price f) = true
       end).
Proof.
  intros Hnn Hopen Hf. unfold on_candle in Hf. simpl in Hf. induction (pending e) as [|o l IH]; [done|].
  apply Forall_cons in Hnn as [Ho Hl]. simpl in Hf.
  assert (Happ : forall a b, In f (fills_of (a ++ b)) -> In f (fills_of a) \/ In f (fills_of b)).
  { clear. induction a as [|[]]; intros b; simpl; [auto|..]; intros H; [destruct H as [->|H]; [auto|]|];
      destruct (IHa _ H); auto. }
  apply Happ in Hf as [Hf|Hf].
  2: { destruct (IH Hl Hf) as (o' & Hin & Hrest). exists o'. split; [by right|done]. }
  exists o. split; [by left|]. unfold process_order in Hf.
  destruct (bool_decide (symbol o = sym)) eqn:Es; simpl in Hf; [|done]. apply bool_decide_eq_true in Es.
  destruct (is_filled o) eqn:Ef; [done|].
  assert (Hlim : forall p, limit_fill_price o candle = Some p ->
    exists q, price o = Some q /\ (p = q \/ p = open candle) /\ match side o with
       | Buy => f_le (low candle) q = true /\ f_le p q = true /\ f_le p (open candle) = true
       | Sell => f_le q (high candle) = true /\ f_le q p = true /\ f_le (open candle) p = true end).
  { intros p Hp. unfold limit_fill_price in Hp. destruct (price o) as [q|]; [|done]. simpl in Hp. exists q.
    split; [done|]. specialize (Ho q eq_refl). destruct (side o).
    - destruct (f_le (low candle) q) eqn:El; [|done]. simplify_eq.
      destruct (f_min_cases q (open candle) Ho Hopen) as [[-> H]|[-> H]]; split_and!; auto with f64.
    - destruct (f_le q (high candle)) eqn:El; [|done]. simplify_eq.
      destruct (f_max_cases q (open candle) Ho Hopen) as [[-> H]|[-> H]]; split_and!; auto with f64. }
  destruct (kind o) eqn:Ek; [destruct (limit_fill_price o candle) as [p|]|..|destruct (limit_fill_price o candle) as [p|]
    |destruct (limit_fill_price o candle) as [p|]]; simpl in Hf; try done;
    destruct Hf as [<-|[]]; simpl; split_and!; try done; first [by left|right; destruct (Hlim p eq_refl) as (q & Hq); exists q; by split].
Qed.

(** C26. Fills are honest.  With limits and an open that are numbers, every
    fill reported for a candle belongs to an open pending order of that symbol,
    is for the order's whole remaining quantity and at the candle's time; a
    market order trades at the open; a priced order trades only if the candle
    reached its limit, at the better of limit and open for its owner: at one of
    the two, a buy at no more than either, a sell at no less than either.  On a
    candle whose open lies between its low and high every fill does too. *)
Theorem paper_fills_honest e sym candle f :
  Forall (fun o => forall p, price o = Some p -> f_is_nan p = false) (pending e) -> f_is_nan (open candle) = false ->
  In f (fills_of (on_candle e sym candle).2) ->
  (exists o, In o (pending e) /\ is_filled o = false /\ symbol o = sym /\
    order_id f = id o /\ f_side f = side o /\ f_qty f = remaining o /\ f_ts f = ts candle /\
    ((kind o = Market /\ f_price f = open candle) \/
     exists p, kind o <> Market /\ price o = Some p /\ (f_price f = p \/ f_price f = open candle) /\
       match side o with
       | Buy => f_le (low candle) p = true /\ f_le (f_price f) p = true /\ f_le (f_price f) (open candle) = true
       | Sell => f_le p (high candle) = true /\ f_le p (f_price f) = true /\ f_le (open candle) (f_price f) = true
       end)) /\
  (f_le (low candle) (open candle) = true -> f_le (open candle) (high candle) = true ->
   f_le (low candle) (f_price f) = true /\ f_le (f_price f) (high candle) = true).
Proof.
  intros Hnn Hopen Hf. pose proof (fill_source e sym candle f Hnn Hopen Hf) as Hsrc. split; [done|]. intros Hlo Hhi.
  destruct Hsrc as (o & _ & _ & _ & _ & _ & _ & _ & [[_ ->]|(p & _ & _ & Hp & Hs)]); [done|].
  destruct (side o), Hp as [E|E]; rewrite E in *; destruct Hs as (H1 & H2 & H3); split; try done; by eapply f_le_trans.
Qed.

Lemma paper_fills_honest_witness :
  exists f o, In f (fills_of (on_candle demo_engine "BTC" (mkCandle 7 f_one f_one f_one f_one f_one)).2) /\
    In o (pending demo_engine) /\ order_id f = id o /\ f_qty f = remaining o.
Proof.
  destruct (fills_of (on_candle demo_engine "BTC" (mkCandle 7 f_one f_one f_one f_one f_one)).2) as [|f l] eqn:E;
    [by vm_compute in E|].
  destruct (paper_fills_honest demo_engine "BTC" (mkCandle 7 f_one f_one f_one f_one f_one) f)
    as ((o & H1 & _ & _ & H2 & _ & H3 & _) & _).
  - repeat (apply Forall_cons; split; [intros p [= <-] || intros p; done|]). constructor.
  - reflexivity.
  - rewrite E. by left.
  - exists f, o. split_and!; [by left|done..].
Defined.

End Paper.
