(* ===== verification/PaperTrade.v ===== *)
(** * The paper-trading example ([src/examples/paper_trade.rs])

    A moving-average crossover strategy over the public interface of the
    library: candles are appended to a store, each candle's history is fetched
    with a range query, and position changes go through the paper engine into
    its portfolio.  It is the program that uses store, engine and portfolio
    together; the sines and cosines of its synthetic prices are a parameter.
    What it prints about fills is kept in [printed]. *)

From S2P Require Import Prelude Float64 Candle RingBuffer Cold Store StoreSpec StoreCold Orders Book Portfolio Paper.

#[local] Open Scope Z_scope.

Module PaperTrade.
Import Orders.

Definition SYMBOL : string := "BTCUSDT:1m".
Definition FAST : nat := 10.
Definition SLOW : nat := 20.

Inductive Signal : Type := NoSignal | Long | Short.

#[export] Instance signal_eq_dec : EqDecision Signal.
Proof. solve_decision. Defined.

Definition sma (candles : list Candle) : f64 := f_div (f_sum (close <$> candles)) (f_of_Z (Z.of_nat (length candles))).

(** ** Synthetic prices *)

Class Trig : Type := { sin : f64 -> f64; cos : f64 -> f64 }.

Section synthetic.
Context `{Trig}.

(** One pass of the loop of [synthetic_btc_candles]. *)
Definition synthetic_candle (i : nat) (price : f64) (t : Z) : f64 * Candle :=
  let x := f_of_Z (Z.of_nat i) in
  let trend := f_mul (sin (f_mul x (f_lit 8 100))) (f_of_Z 500) in
  let noise := f_add (f_mul (sin (f_mul x (f_lit 17 10))) (f_of_Z 100)) (f_mul (cos (f_mul x (f_lit 31 10))) (f_of_Z 50)) in
  let price := f_add price (f_add (f_mul trend (f_lit 1 10)) (f_mul noise (f_lit 5 100))) in
  let price := f_max price (f_of_Z 30000) in
  (price,
   mkCandle t price (f_add price (f_mul price (f_lit 2 1000))) (f_sub price (f_mul price (f_lit 2 1000)))
     (f_add price (f_mul (f_mul (sin (f_mul x (f_lit 23 10))) price) (f_lit 1 1000)))
     (f_add (f_of_Z 10) (f_mul (f_abs (sin (f_mul x (f_lit 5 10)))) (f_of_Z 5)))).

Fixpoint synthetic_from (n i : nat) (price : f64) (t : Z) : list Candle :=
  match n with
  | O => []
  | S n' => let '(price', c) := synthetic_candle i price t in c :: synthetic_from n' (S i) price' (t + 60000)
  end.

Definition synthetic_btc_candles (n : nat) : list Candle := synthetic_from n 0 (f_of_Z 50000) 1700000000000.
End synthetic.

(** ** The strategy *)

Record t : Type := mkRun {
  engine : Paper.t;
  last_signal : Signal;
  trade_count : Z;
  printed : list (string * Fill)
}.

Definition start : t := mkRun (Paper.new (f_of_Z 100000)) NoSignal 0 [].

Definition lot : f64 := f_lit 1 100.

Definition print_events (label : string) (events : list TradeEvent) : list (string * Fill) := pair label <$> Paper.fills_of events.

(** Submit a market order and settle it on the candle. *)
Definition trade (e : Paper.t) (side : Side) (q : f64) (candle : Candle) : Paper.t * list TradeEvent :=
  Paper.on_candle (Paper.submit e (market 0 SYMBOL side q (ts candle))).1 SYMBOL candle.

(** The [match signal] of the loop. *)
Definition on_signal (s : t) (signal : Signal) (candle : Candle) : t :=
  let pos := Portfolio.position (Paper.portfolio (engine s)) SYMBOL in
  match signal with
  | Long =>
      if f_eq pos f_zero then
        let '(e, events) := trade (engine s) Buy lot candle in
        mkRun e signal (trade_count s + 1) (printed s ++ print_events "BUY " events)
      else mkRun (Paper.on_candle (engine s) SYMBOL candle).1 signal (trade_count s) (printed s)
  | Short =>
      if f_lt f_zero pos then
        let '(e, events) := trade (engine s) Sell pos candle in
        mkRun e signal (trade_count s + 1) (printed s ++ print_events "SELL" events)
      else mkRun (Paper.on_candle (engine s) SYMBOL candle).1 signal (trade_count s) (printed s)
  | NoSignal => mkRun (Paper.on_candle (engine s) SYMBOL candle).1 signal (trade_count s) (printed s)
  end.

Definition decide_signal (history : list Candle) : panics Signal :=
  fast ← (if (FAST <=? length history)%nat then Some (drop (length history - FAST) history) else None);
  Some (if f_lt (sma history) (sma fast) then Long else Short).

Section cold.
Context {disk faults : Type} `{!ColdStorage disk faults}.

Fixpoint load (fuel : nat) (f : faults) (st : Store.t) (d : disk) (candles : list Candle) : panics (Store.t * disk) :=
  match candles with
  | [] => Some (st, d)
  | c :: candles' => '(st1, d1) ← Store.append fuel f st d SYMBOL c; load fuel f st1 d1 candles'
  end.

(** One pass of the loop over the candles, [i] being the index. *)
Definition turn (st : Store.t) (d : disk) (candles : list Candle) (s : t) (i : nat) : panics t :=
  candle ← candles !! i;
  oldest ← candles !! (i - SLOW)%nat;
  history ← Store.range st d SYMBOL (ts oldest) (ts candle);
  if (length history <? SLOW)%nat then Some s
  else
    signal ← decide_signal history;
    Some (if decide (signal = last_signal s)
          then mkRun (Paper.on_candle (engine s) SYMBOL candle).1 (last_signal s) (trade_count s) (printed s)
          else on_signal s signal candle).

Fixpoint loop (st : Store.t) (d : disk) (candles : list Candle) (s : t) (idx : list nat) : panics t :=
  match idx with
  | [] => Some s
  | i :: idx' => s1 ← turn st d candles s i; loop st d candles s1 idx'
  end.

(** Step 3 of [main]. *)
Definition close_out (candles : list Candle) (s : t) : panics t :=
  let pos := Portfolio.position (Paper.portfolio (engine s)) SYMBOL in
  if f_lt f_zero pos then
    last ← last candles;
    Some (mkRun (trade (engine s) Sell pos last).1 (last_signal s) (trade_count s + 1) (printed s))
  else Some s.

(** [main] over a candle series, up to the printed results: the end state and
    the total PnL at the last close. *)
Definition main (fuel : nat) (f : faults) (d : disk) (candles : list Candle) : panics (t * f64) :=
  '(st, d1) ← load fuel f (Store.new 10) d candles;
  s ← loop st d1 candles start (seq SLOW (length candles - SLOW));
  s' ← close_out candles s;
  last ← last candles;
  Some (s', Portfolio.total_pnl (Paper.portfolio (engine s')) [(SYMBOL, close last)]).
End cold.

(** ** The history of a candle *)

Section history.
Context {disk faults : Type} `{!ColdStorage disk faults}.

Lemma load_fed fuel (f : faults) (d : disk) max cap cs : forall done st,
  (0 < cap)%nat -> StoreSpec.config_of st = LruCache.mkConfig max cap None ->
  StoreSpec.refines st (LruCache.fed cap SYMBOL done) -> Store.tick st + Z.of_nat (length cs) <= u64_max ->
  exists st', load (S fuel) f st d cs = Some (st', d) /\ StoreSpec.refines st' (LruCache.fed cap SYMBOL (done ++ cs)) /\
    Store.data_dir st' = None.
Proof.
  induction cs as [|c cs IH]; intros done st Hcap Hcfg Href Htk; cbn [load length] in *.
  { exists st. rewrite app_nil_r. split_and!; [done..|]. exact (f_equal LruCache.data_dir Hcfg). }
  destruct (StoreSpec.sim_append_fed fuel f st d max cap None SYMBOL done c Hcap Hcfg Href ltac:(lia)) as (st1 & -> & Href1 & Hcfg1 & Htk1).
  cbn [mbind option_bind]. destruct (IH (done ++ [c]) st1) as (st' & -> & H1 & H2); [done|congruence|done|lia|].
  exists st'. by rewrite <- app_assoc in H1.
Qed.

Definition earlier (a b : Candle) : Prop := ts a < ts b.

Lemma earlier_lookup cs i j a b :
  StronglySorted earlier cs -> cs !! i = Some a -> cs !! j = Some b -> (ts a <= ts b <-> (i <= j)%nat).
Proof.
  intros Hs. assert (Hlt : forall i j a b, (i < j)%nat -> cs !! i = Some a -> cs !! j = Some b -> ts a < ts b).
  { clear i j a b. induction Hs as [|x l Hs IH Hx]; intros i j a b Hij Ha Hb; [done|]. destruct j as [|j]; [lia|].
    destruct i as [|i]; simplify_eq/=; [by apply (proj1 (Forall_lookup _ _) Hx j b)|]. apply (IH i j); [lia|done..]. }
  intros Ha Hb. destruct (Nat.lt_total i j) as [H|[H|H]].
  - pose proof (Hlt i j a b H Ha Hb). lia.
  - subst. simplify_eq. lia.
  - pose proof (Hlt j i b a H Hb Ha). lia.
Qed.

Lemma earlier_ts_sorted cs : StronglySorted earlier cs -> ts_sorted cs.
Proof. intros Hs i j a b Hij Ha Hb. by apply (earlier_lookup cs i j a b). Qed.

(** The window of one turn. *)
Lemma window_slice cs i a b :
  StronglySorted earlier cs -> (SLOW <= i)%nat -> cs !! (i - SLOW)%nat = Some a -> cs !! i = Some b ->
  filter (in_window (ts a) (ts b)) cs = take (S SLOW) (drop (i - SLOW) cs).
Proof.
  intros Hs Hi Ha Hb. pose proof (lookup_lt_Some _ _ _ Hb).
  rewrite (filter_slice _ cs (i - SLOW) (S i)); [f_equal; lia|lia|].
  intros j x Hx. unfold in_window. rewrite (earlier_lookup cs (i - SLOW) j a x), (earlier_lookup cs j i x b) by done. lia.
Qed.

(** What the store answers in one turn: the candle and the [SLOW] before it,
    so [SLOW + 1] closes enter the slow average. *)
Lemma turn_sees (st : Store.t) (d : disk) cap cs s i c :
  StoreSpec.refines st (LruCache.fed cap SYMBOL cs) -> Store.data_dir st = None -> Forall (fun c => is_valid c = true) cs ->
  StronglySorted earlier cs -> (length cs <= cap)%nat -> (SLOW <= i)%nat -> cs !! i = Some c ->
  exists signal, turn st d cs s i =
    Some (if decide (signal = last_signal s)
          then mkRun (Paper.on_candle (engine s) SYMBOL c).1 (last_signal s) (trade_count s) (printed s)
          else on_signal s signal c) /\
    decide_signal (take (S SLOW) (drop (i - SLOW) cs)) = Some signal /\ signal <> NoSignal.
Proof.
  intros Href Hdir Hv Hs Hcap Hi Hc. unfold turn. pose proof (lookup_lt_Some _ _ _ Hc).
  destruct (lookup_lt_is_Some_2 cs (i - SLOW)) as [a Ha]; [lia|]. rewrite Hc, Ha. cbn [mbind option_bind].
  assert (Hhot : Store.hot st SYMBOL = cs).
  { rewrite (StoreSpec.fed_hot _ _ _ _ Href), (filter_keep _ cs) by done. by apply lastn_all. }
  rewrite (StoreCold.refines_range st _ d SYMBOL _ _ Href Hdir) by (rewrite Hhot; by apply earlier_ts_sorted).
  rewrite Hhot, (window_slice cs i a c) by done. cbn [mbind option_bind].
  assert (Hlen : length (take (S SLOW) (drop (i - SLOW) cs)) = S SLOW) by (rewrite length_take, length_drop; lia).
  rewrite Hlen. cbn [Nat.ltb Nat.leb SLOW]. unfold decide_signal. rewrite Hlen.
  change (FAST <=? S SLOW)%nat with true. cbn [mbind option_bind].
  eexists. split; [reflexivity|]. split; [reflexivity|]. by destruct (f_lt _ _).
Qed.
End history.

(** ** Trades *)

Definition side_at (n : nat) : Side := if Nat.even n then Buy else Sell.

(** The [n]-th trade: the lot, at the open of a candle of the series. *)
Definition honest (cs : list Candle) (n : nat) (tr : Portfolio.Trade) : Prop :=
  Portfolio.t_symbol tr = SYMBOL /\ Portfolio.t_side tr = side_at n /\ Portfolio.t_qty tr = lot /\
  exists c, In c cs /\ Portfolio.t_price tr = open c /\ Portfolio.t_ts tr = ts c.

Abbreviation trades s := (Portfolio.trades (Paper.portfolio (engine s))).
Abbreviation holding s := (Portfolio.position (Paper.portfolio (engine s)) SYMBOL).

Record book (cs : list Candle) (s : t) : Prop := {
  b_pending : Paper.pending (engine s) = [];
  b_count : trade_count s = Z.of_nat (length (trades s));
  b_holding : holding s = if Nat.even (length (trades s)) then f_zero else lot;
  b_cost : Nat.even (length (trades s)) = true -> Portfolio.avg_cost (Paper.portfolio (engine s)) SYMBOL = f_zero;
  b_trades : forall n tr, trades s !! n = Some tr -> honest cs n tr
}.

Lemma lot_pos : f_pos lot.
Proof. by vm_compute. Qed.

Lemma lot_not_dust : qty_is_zero lot lot = false.
Proof. by vm_compute. Qed.

(** A market order of the lot fills at once, at the candle's open. *)
Lemma trade_fills e side c :
  Paper.pending e = [] ->
  trade e side lot c =
    (Paper.mkEngine (Portfolio.apply (Paper.portfolio e) (mkFill (Paper.next_id e) SYMBOL side (open c) lot (ts c))) []
       (fetch_add1 (Paper.next_id e)),
     [FillEvent (mkFill (Paper.next_id e) SYMBOL side (open c) lot (ts c))]).
Proof.
  intros Hp. unfold trade, Paper.submit, Paper.try_submit.
  assert (Hv : Book.validate_order (market 0 SYMBOL side lot (ts c)) = Ok tt) by (vm_compute; reflexivity).
  rewrite Hv. unfold Paper.enqueue. rewrite Hp. cbn [app fst]. unfold Paper.on_candle. cbn [Paper.pending Paper.portfolio Paper.next_id].
  assert (Hpo : Paper.process_order SYMBOL c (Paper.with_id (market 0 SYMBOL side lot (ts c)) (Paper.next_id e)) =
    (set_remaining (Paper.with_id (market 0 SYMBOL side lot (ts c)) (Paper.next_id e)) f_zero,
     [FillEvent (mkFill (Paper.next_id e) SYMBOL side (open c) lot (ts c))])) by (vm_compute; reflexivity).
  cbn [fmap list_fmap]. rewrite Hpo. cbn [fst snd concat app Paper.fills_of Portfolio.apply_all fold_left].
  rewrite filter_cons_False by (by vm_compute). by rewrite filter_nil.
Qed.

Lemma apply_trades pf fill :
  Portfolio.trades (Portfolio.apply pf fill) =
    Portfolio.trades pf ++ [Portfolio.mkTrade (order_id fill) (f_symbol fill) (f_side fill) (f_price fill) (f_qty fill) (f_ts fill)].
Proof. unfold Portfolio.apply. destruct (Portfolio.apply_side _ _ _ _ _ _ _) as [[[? ?] ?] ?]. by destruct (Portfolio.snap _ _ _). Qed.

Lemma even_snoc n : Nat.even (n + 1) = negb (Nat.even n).
Proof. rewrite Nat.add_1_r. by rewrite Nat.even_succ, <- Nat.negb_even. Qed.

(** The next trade, of the side whose turn it is. *)
Lemma trade_book cs s c sig pr :
  book cs s -> In c cs ->
  book cs (mkRun (trade (engine s) (side_at (length (trades s))) lot c).1 sig (trade_count s + 1) pr).
Proof.
  intros [Hp Hc Hh Hk Ht] Hin. rewrite trade_fills by done. cbn [fst]. split; cbn [engine Paper.pending Paper.portfolio trade_count]; [done|..].
  - rewrite apply_trades, length_app. simpl. lia.
  - rewrite apply_trades, length_app, even_snoc. unfold side_at in *. destruct (Nat.even (length (trades s))).
    + apply Portfolio.buy_from_flat; [exact lot_pos|exact lot_not_dust|done].
    + by apply Portfolio.sell_all; [exact lot_pos|].
  - rewrite apply_trades, length_app, even_snoc. unfold side_at. destruct (Nat.even (length (trades s))); [done|]. intros _.
    by apply Portfolio.sell_all; [exact lot_pos|].
  - intros n tr. rewrite apply_trades. intros [Hn|[Hn Hl]]%lookup_app_Some; [by apply Ht|].
    destruct (n - length (trades s))%nat as [|m] eqn:E; [|by destruct m]. injection Hl as <-.
    replace n with (length (trades s)) by lia. split_and!; [done..|]. by exists c.
Qed.

Lemma idle_candle e c : Paper.pending e = [] -> (Paper.on_candle e SYMBOL c).1 = e.
Proof. intros Hp. unfold Paper.on_candle. rewrite Hp. destruct e. simpl in *. by rewrite Hp. Qed.

Lemma on_signal_book cs s sig c : book cs s -> In c cs -> book cs (on_signal s sig c).
Proof.
  intros Hb Hin. pose proof Hb as [Hp Hc Hh Hk Ht]. unfold on_signal. rewrite Hh, idle_candle by done.
  assert (Hsame : forall sig', book cs (mkRun (engine s) sig' (trade_count s) (printed s))) by (by intros; split).
  pose proof (trade_book cs s c sig) as Htb. unfold side_at in Htb.
  destruct sig; [done|..]; destruct (Nat.even (length (trades s))) eqn:Ev.
  - change (f_eq f_zero f_zero) with true. cbn iota.
    pose proof (Htb (printed s ++ print_events "BUY " (trade (engine s) Buy lot c).2) Hb Hin) as H.
    by destruct (trade (engine s) Buy lot c).
  - change (f_eq lot f_zero) with false. cbn iota. apply Hsame.
  - change (f_lt f_zero f_zero) with false. cbn iota. apply Hsame.
  - change (f_lt f_zero lot) with true. cbn iota.
    pose proof (Htb (printed s ++ print_events "SELL" (trade (engine s) Sell lot c).2) Hb Hin) as H.
    by destruct (trade (engine s) Sell lot c).
Qed.

Section main.
Context {disk faults : Type} `{!ColdStorage disk faults}.

Lemma turn_book (st : Store.t) (d : disk) cap cs s i :
  StoreSpec.refines st (LruCache.fed cap SYMBOL cs) -> Store.data_dir st = None -> Forall (fun c => is_valid c = true) cs ->
  StronglySorted earlier cs -> (length cs <= cap)%nat -> (SLOW <= i < length cs)%nat -> book cs s ->
  exists s', turn st d cs s i = Some s' /\ book cs s'.
Proof.
  intros Href Hdir Hv Hs Hcap Hi Hb. destruct (lookup_lt_is_Some_2 cs i) as [c Hc]; [lia|].
  destruct (turn_sees st d cap cs s i c Href Hdir Hv Hs Hcap ltac:(lia) Hc) as (sig & -> & _). eexists. split; [reflexivity|].
  destruct (decide _); [|apply on_signal_book; [done|]; by eapply list_elem_of_In, list_elem_of_lookup_2].
  rewrite idle_candle by apply Hb. by destruct Hb; split.
Qed.

Lemma loop_book (st : Store.t) (d : disk) cap cs idx : forall s,
  StoreSpec.refines st (LruCache.fed cap SYMBOL cs) -> Store.data_dir st = None -> Forall (fun c => is_valid c = true) cs ->
  StronglySorted earlier cs -> (length cs <= cap)%nat -> Forall (fun i => SLOW <= i < length cs)%nat idx -> book cs s ->
  exists s', loop st d cs s idx = Some s' /\ book cs s'.
Proof.
  induction idx as [|i idx IH]; intros s Href Hdir Hv Hs Hcap Hi Hb; [by exists s|]. apply Forall_cons in Hi as [Hi Hidx].
  destruct (turn_book st d cap cs s i Href Hdir Hv Hs Hcap Hi Hb) as (s1 & E & Hb1). cbn [loop]. rewrite E. cbn [mbind option_bind].
  by apply IH.
Qed.

Lemma close_out_flat cs s : book cs s -> cs <> [] -> exists s', close_out cs s = Some s' /\ book cs s' /\ Nat.even (length (trades s')) = true.
Proof.
  intros Hb Hne. pose proof Hb as [Hp _ Hh _ _]. unfold close_out. rewrite Hh. destruct (Nat.even (length (trades s))) eqn:Ev.
  - change (f_lt f_zero f_zero) with false. cbn iota. by exists s.
  - change (f_lt f_zero lot) with true. cbn iota. destruct (last cs) as [c|] eqn:El; [|by apply last_None in El]. cbn [mbind option_bind].
    assert (Hin : In c cs) by (apply last_Some in El as [l ->]; apply in_or_app; simpl; auto).
    pose proof (trade_book cs s c (last_signal s) (printed s) Hb Hin) as Ht. unfold side_at in Ht. rewrite Ev in Ht.
    eexists. split; [reflexivity|]. split; [done|]. cbn [engine]. rewrite trade_fills by done. cbn [fst Paper.portfolio].
    by rewrite apply_trades, length_app, even_snoc, Ev.
Qed.

(** ** Claims *)

(** C40. The crossover example on any series of valid candles in time order
    that the store can hold: it never panics; it ends flat, with no residual
    cost and no pending order; its trades alternate buy and sell, each of one
    lot at the open of a candle of the series, as many of each; and the count
    it prints is their number. *)
Theorem paper_trade_flat fuel (f : faults) (d : disk) cs :
  Forall (fun c => is_valid c = true) cs -> StronglySorted earlier cs -> cs <> [] -> (length cs <= Store.DEFAULT_RING_CAPACITY)%nat ->
  exists s pnl, main (S fuel) f d cs = Some (s, pnl) /\
    holding s = f_zero /\ Portfolio.avg_cost (Paper.portfolio (engine s)) SYMBOL = f_zero /\ Paper.pending (engine s) = [] /\
    trade_count s = Z.of_nat (length (trades s)) /\ Nat.even (length (trades s)) = true /\
    forall n tr, trades s !! n = Some tr -> honest cs n tr.
Proof.
  intros Hv Hs Hne Hlen. assert (Hcap : (0 < Store.DEFAULT_RING_CAPACITY)%nat) by (unfold Store.DEFAULT_RING_CAPACITY; lia).
  destruct (load_fed fuel f d 10 Store.DEFAULT_RING_CAPACITY cs [] (Store.new 10) Hcap eq_refl) as (st & Hl & Href & Hdir);
    [by apply (StoreSpec.refines_open 10 Store.DEFAULT_RING_CAPACITY None)|cbn [Store.tick Store.new Store.with_capacity];
      unfold Store.DEFAULT_RING_CAPACITY, u64_max, u64_modulus in *; lia|].
  unfold main. rewrite Hl. cbn [mbind option_bind app] in *.
  destruct (loop_book st d Store.DEFAULT_RING_CAPACITY cs (seq SLOW (length cs - SLOW)) start) as (s & -> & Hb); [done..| | |].
  - apply Forall_forall. intros i Hi%elem_of_seq. lia.
  - by split.
  - cbn [mbind option_bind]. destruct (close_out_flat cs s Hb Hne) as (s' & -> & Hb' & Hev). cbn [mbind option_bind].
    destruct (last cs) as [c|] eqn:El; [|by apply last_None in El]. cbn [mbind option_bind].
    destruct Hb' as [Hp Hc Hh Hk Ht]. rewrite Hev in Hh. eexists s', _. split; [reflexivity|]. split_and!; auto.
Qed.
End main.

(** ** The series of the example *)

Lemma synthetic_from_earlier `{Trig} n : forall i price t,
  StronglySorted earlier (synthetic_from n i price t) /\ Forall (fun c => t <= ts c) (synthetic_from n i price t).
Proof.
  induction n as [|n IH]; intros i price t; cbn [synthetic_from]; [by split; constructor|].
  destruct (synthetic_candle i price t) as [price' c] eqn:E. unfold synthetic_candle in E. injection E as E <-.
  destruct (IH (S i) price' (t + 60000)) as [H1 H2]. split; constructor; cbn [ts]; [done| |lia|].
  - eapply Forall_impl; [exact H2|]. unfold earlier. simpl. lia.
  - eapply Forall_impl; [exact H2|]. simpl. lia.
Qed.

(** Square waves in place of the sines. *)
Definition square : Trig :=
  let wave x := if f_to_u64 x mod 6 <? 3 then f_lit 3 4 else f_lit (-3) 4 in {| sin := wave; cos := wave |}.

#[local] Existing Instance StoreSpec.journal_cold.

Lemma paper_trade_flat_witness :
  exists s pnl, main 1 false ([] : StoreSpec.journal) (@synthetic_btc_candles square 50) = Some (s, pnl) /\
    trade_count s = 2 /\ holding s = f_zero.
Proof.
  destruct (paper_trade_flat 0 false ([] : StoreSpec.journal) (@synthetic_btc_candles square 50)) as (s & pnl & Hm & Hh & _).
  - apply Forall_forall. intros c Hc. assert (Hall : forallb is_valid (@synthetic_btc_candles square 50) = true) by (vm_compute; reflexivity).
    apply (proj1 (forallb_forall _ _) Hall). by apply list_elem_of_In.
  - apply synthetic_from_earlier.
  - discriminate.
  - vm_compute. lia.
  - exists s, pnl. split; [exact Hm|]. split; [|exact Hh].
    assert (E : (fun x => trade_count x.1) <$> main 1 false ([] : StoreSpec.journal) (@synthetic_btc_candles square 50) = Some 2) by (vm_compute; reflexivity).
    rewrite Hm in E. by injection E as E.
Defined.
End PaperTrade.
