(* ===== verification/Shm.v ===== *)
(** * The shared-memory ring and its ingester ([src/src/shm.rs], [shm_impl])

    Three layers.  [Module ShmSys] is the set-up and tear-down code of
    [ShmRingWriter] and [ShmRingReader]: which system calls it issues, in
    which order, on every error path; the answers of the operating system are
    an argument ([env]), never a definition.  [Module ShmRing] is the data
    path: byte offsets in the mapping, [try_push] / [try_pop] on the mapped
    cursors and slots (the algorithm of [Spsc.v] at the writer's and reader's
    own copy of the capacity), [push_until] against an arbitrary schedule of
    consumer progress and cancellation.  [Module Ingester] is the background
    loop that drains the ring into the candle store, interleaved with the
    producer. *)

From Stdlib Require Import Ascii.
From S2P Require Import Prelude Float64 Candle RingBuffer Spsc Text Cold Store StoreSpec.

#[local] Open Scope Z_scope.

Module ShmSys.

Definition READY_MAGIC : Z := 0x00CAFECA1D1E5748.
Definition SLOTS_OFFSET : Z := 384.

(** [mapping_size], in wrapping [usize] arithmetic. *)
Definition mapping_size (capacity : Z) : Z :=
  u64_wrapping_add SLOTS_OFFSET (u64_wrapping_mul capacity candle_size).

(** The errors returned: an errno from the system, or a kind of the code's
    own. *)
Inductive IoError : Type :=
| Os (errno : Z)
| InvalidInput
| TimedOut
| InvalidData (reader_capacity writer_capacity : Z).

(** The calls issued, with the descriptor or address they act on. *)
Inductive syscall : Type :=
| ShmUnlink (name : string)
| ShmOpen (name : string) (creat excl : bool)
| Ftruncate (fd size : Z)
| Mmap (fd size : Z)
| Close (fd : Z)
| Munmap (ptr size : Z).

(** The answers of the system, in the order of the calls. *)
Record env : Type := mkEnv {
  e_shm_open : result Z Z;       (* descriptor, or errno *)
  e_ftruncate : option Z;        (* errno, when it fails *)
  e_mmap : result Z Z            (* address, or errno *)
}.

Record ShmHeader : Type := mkHeader { ready : Z; hcapacity : Z; hhead : Z; htail : Z }.

Record ShmRingWriter : Type := mkWriter { w_ptr : Z; w_map_size : Z; w_name : string; w_capacity : Z; push_full : Z }.
Record ShmRingReader : Type := mkReader { r_ptr : Z; r_map_size : Z; r_capacity : Z }.

(** [CString::new]: no interior NUL. *)
Definition cstring (name : string) : option string :=
  if Text.all_chars (Text.other_than zero) name then Some name else None.

(** [ShmRingWriter::create_inner]: the calls made, the header written when
    the segment was mapped, and the result. *)
Definition create_inner (name : string) (capacity : Z) (force : bool) (e : env)
    : panics (list syscall * option ShmHeader * result ShmRingWriter IoError) :=
  if negb (Spsc.is_power_of_two capacity) then None
  else
    Some
      match cstring name with
      | None => ([], None, Err InvalidInput)
      | Some cname =>
          let tr0 := if force then [ShmUnlink cname] else [] in
          let tr1 := tr0 ++ [ShmOpen cname true (negb force)] in
          match e_shm_open e with
          | Err errno => (tr1, None, Err (Os errno))
          | Ok fd =>
              let map_size := mapping_size capacity in
              let tr2 := tr1 ++ [Ftruncate fd map_size] in
              match e_ftruncate e with
              | Some errno => (tr2 ++ [Close fd], None, Err (Os errno))
              | None =>
                  let tr3 := tr2 ++ [Mmap fd map_size; Close fd] in
                  match e_mmap e with
                  | Err errno => (tr3, None, Err (Os errno))
                  | Ok ptr =>
                      (tr3, Some (mkHeader READY_MAGIC capacity 0 0), Ok (mkWriter ptr map_size name capacity 0))
                  end
              end
          end
      end.

(** [create] and [create_force]. *)
Definition create (name : string) (capacity : Z) (e : env) := create_inner name capacity false e.
Definition create_force (name : string) (capacity : Z) (e : env) := create_inner name capacity true e.

(** [Drop for ShmRingWriter] and [Drop for ShmRingReader]. *)
Definition drop_writer (w : ShmRingWriter) : list syscall :=
  Munmap (w_ptr w) (w_map_size w) ::
  match cstring (w_name w) with Some cname => [ShmUnlink cname] | None => [] end.
Definition drop_reader (r : ShmRingReader) : list syscall := [Munmap (r_ptr r) (r_map_size r)].

(** The spin of [open]: each iteration loads [ready], then looks at the
    clock; [None] while it still spins. *)
Fixpoint wait_ready (obs : list (Z * bool)) : option bool :=
  match obs with
  | [] => None
  | (r, expired) :: obs' =>
      if r =? READY_MAGIC then Some true else if expired : bool then Some false else wait_ready obs'
  end.

(** [ShmRingReader::open] against the header loads it sees. *)
Definition open_reader (name : string) (capacity : Z) (e : env) (obs : list (Z * bool)) (header_capacity : Z)
    : panics (option (list syscall * result ShmRingReader IoError)) :=
  if negb (Spsc.is_power_of_two capacity) then None
  else
    Some
      match cstring name with
      | None => Some ([], Err InvalidInput)
      | Some cname =>
          let tr1 := [ShmOpen cname false false] in
          match e_shm_open e with
          | Err errno => Some (tr1, Err (Os errno))
          | Ok fd =>
              let map_size := mapping_size capacity in
              let tr2 := tr1 ++ [Mmap fd map_size; Close fd] in
              match e_mmap e with
              | Err errno => Some (tr2, Err (Os errno))
              | Ok ptr =>
                  match wait_ready obs with
                  | None => None
                  | Some false => Some (tr2 ++ [Munmap ptr map_size], Err TimedOut)
                  | Some true =>
                      if negb (header_capacity =? capacity) then
                        Some (tr2 ++ [Munmap ptr map_size], Err (InvalidData capacity header_capacity))
                      else Some (tr2, Ok (mkReader ptr map_size capacity))
                  end
              end
          end
      end.

(** ** Resources *)

(** Descriptors opened and not yet closed after a trace, given what
    [shm_open] answered. *)
Definition opens (e : env) (c : syscall) : list Z :=
  match c, e_shm_open e with ShmOpen _ _ _, Ok fd => [fd] | _, _ => [] end.
Definition closes (c : syscall) : list Z := match c with Close fd => [fd] | _ => [] end.
Definition maps (e : env) (c : syscall) : list Z :=
  match c, e_mmap e with Mmap _ _, Ok ptr => [ptr] | _, _ => [] end.
Definition unmaps (c : syscall) : list Z := match c with Munmap ptr _ => [ptr] | _ => [] end.

Definition collect {A} (f : syscall -> list A) (tr : list syscall) : list A := concat (f <$> tr).

(** C18. Set-up leaks nothing: on every path of [create] and [open], success
    or error, each descriptor obtained is closed exactly once, and the
    mapping obtained is either owned by the returned object, whose drop
    unmaps exactly it, or already unmapped (on a timeout or a capacity
    mismatch); an error never returns an object. *)
Theorem shm_setup_leaks_nothing name capacity force e obs hc :
  (forall tr h r, create_inner name capacity force e = Some (tr, h, r) ->
     collect (opens e) tr = collect closes tr /\
     collect (maps e) tr = match r with Ok w => collect unmaps (drop_writer w) | Err _ => [] end) /\
  (forall tr r, open_reader name capacity e obs hc = Some (Some (tr, r)) ->
     collect (opens e) tr = collect closes tr /\
     collect (maps e) tr = match r with Ok rd => collect unmaps (drop_reader rd) | Err _ => collect unmaps tr end).
Proof.
  unfold create_inner, open_reader, collect, opens, maps, closes, unmaps, drop_writer, drop_reader. split.
  - intros tr h r H. destruct (negb _); [done|]. destruct (cstring name) as [cn|] eqn:Ec; [|by simplify_eq].
    destruct (e_shm_open e), (e_ftruncate e), (e_mmap e), force; simplify_eq/=; rewrite ?Ec; done.
  - intros tr r H. destruct (negb (Spsc.is_power_of_two _)); [done|]. destruct (cstring name) as [cn|]; [|by simplify_eq].
    destruct (e_shm_open e), (e_mmap e); simplify_eq/=; try done.
    destruct (wait_ready obs) as [[]|]; [destruct (negb _)|..]; simplify_eq/=; done.
Qed.

(** The handshake: a reader is returned only after the ready magic was
    observed and only when the writer's capacity equals its own, so both
    sides mask cursors identically; and the writer publishes its header (the
    capacity, both cursors zero) before or together with the magic. *)
Theorem shm_open_agrees name capacity e obs hc tr rd :
  open_reader name capacity e obs hc = Some (Some (tr, Ok rd)) ->
  Spsc.is_power_of_two capacity = true /\ hc = capacity /\ r_capacity rd = capacity /\
  r_map_size rd = mapping_size capacity /\ (exists x, In x obs /\ x.1 = READY_MAGIC) /\
  (forall n f e' tr' h w, create_inner n hc f e' = Some (tr', Some h, Ok w) ->
     hcapacity h = r_capacity rd /\ hhead h = 0 /\ htail h = 0 /\ ready h = READY_MAGIC /\ w_map_size w = r_map_size rd).
Proof.
  unfold open_reader. intros H. destruct (Spsc.is_power_of_two capacity) eqn:Ep; [|done]. simpl in H.
  destruct (cstring name); [|done]. destruct (e_shm_open e); [|done]. destruct (e_mmap e); [|done].
  assert (Hobs : wait_ready obs = Some true -> exists x, In x obs /\ x.1 = READY_MAGIC).
  { clear. induction obs as [|[r x] obs IH]; simpl; [done|]. destruct (Z.eqb_spec r READY_MAGIC) as [->|].
    - intros _. by exists (READY_MAGIC, x); auto.
    - destruct x; [done|]. intros H. destruct (IH H) as (y & Hy & E). exists y. auto. }
  destruct (wait_ready obs) as [[]|]; [|done..]. destruct (Z.eqb_spec hc capacity) as [->|]; [|done].
  simpl in H. simplify_eq. split_and!; try done; [by apply Hobs|].
  intros n f e' tr' h w Hc. unfold create_inner in Hc. rewrite Ep in Hc. simpl in Hc.
  destruct (cstring n); [|done]. destruct (e_shm_open e'), (e_ftruncate e'), (e_mmap e'); by simplify_eq/=.
Qed.

Lemma shm_open_agrees_witness :
  exists tr rd, open_reader "/feed" 8 (mkEnv (Ok 3) None (Ok 4096)) [(0, false); (READY_MAGIC, false)] 8 = Some (Some (tr, Ok rd)) /\
    r_capacity rd = 8.
Proof.
  eexists _, _. split; [reflexivity|].
  apply (shm_open_agrees "/feed" 8 (mkEnv (Ok 3) None (Ok 4096)) [(0, false); (READY_MAGIC, false)] 8
    [ShmOpen "/feed" false false; Mmap 3 768; Close 3] (mkReader 4096 768 8) eq_refl).
Defined.

End ShmSys.

Module ShmRing.
Import ShmSys.

(** A mapped segment: the header and the slot array behind it. *)
Record Segment : Type := mkSegment { header : ShmHeader; slots : list Candle }.

Definition set_head (h : ShmHeader) (v : Z) : ShmHeader := mkHeader (ready h) (hcapacity h) v (htail h).
Definition set_tail (h : ShmHeader) (v : Z) : ShmHeader := mkHeader (ready h) (hcapacity h) (hhead h) v.

(** [SLOTS_OFFSET + slot * size_of::<Candle>()]. *)
Definition slot_offset (slot : Z) : Z := u64_wrapping_add SLOTS_OFFSET (u64_wrapping_mul slot candle_size).

(** The slot at a byte offset, when the access stays inside the mapping. *)
Definition slot_at (map_size offset : Z) : option nat :=
  if (SLOTS_OFFSET <=? offset) && (offset + candle_size <=? map_size)
  then Some (Z.to_nat ((offset - SLOTS_OFFSET) / candle_size)) else None.

(** [ShmRingWriter::try_push]; [None] is an access outside the mapping. *)
Definition try_push (w : ShmRingWriter) (seg : Segment) (candle : Candle) : panics (Segment * bool) :=
  let head := hhead (header seg) in
  let tail := htail (header seg) in
  if w_capacity w <=? u64_wrapping_sub head tail then Some (seg, false)
  else
    let slot := Spsc.slot_of (w_capacity w) head in
    i ← slot_at (w_map_size w) (slot_offset slot);
    if (i <? length (slots seg))%nat then
      Some (mkSegment (set_head (header seg) (u64_wrapping_add head 1)) (<[i := candle]> (slots seg)), true)
    else None.

(** [ShmRingReader::try_pop]. *)
Definition try_pop (r : ShmRingReader) (seg : Segment) : panics (Segment * option Candle) :=
  let tail := htail (header seg) in
  let head := hhead (header seg) in
  if head =? tail then Some (seg, None)
  else
    let slot := Spsc.slot_of (r_capacity r) tail in
    i ← slot_at (r_map_size r) (slot_offset slot);
    candle ← slots seg !! i;
    Some (mkSegment (set_tail (header seg) (u64_wrapping_add tail 1)) (slots seg), Some candle).

(** [ShmRingReader::capacity] and [ShmRingReader::depth]. *)
Definition capacity (r : ShmRingReader) : Z := r_capacity r.
Definition depth (seg : Segment) : Z := u64_wrapping_sub (hhead (header seg)) (htail (header seg)).

(** [ShmRingWriter::stats]. *)
Record WriterStats : Type := mkWriterStats { push_full_events : Z; ws_ring_capacity : Z }.

Definition stats (w : ShmRingWriter) : WriterStats := mkWriterStats (push_full w) (w_capacity w).

Definition count_full (w : ShmRingWriter) : ShmRingWriter :=
  mkWriter (w_ptr w) (w_map_size w) (w_name w) (w_capacity w) (fetch_add1 (push_full w)).

(** Consumer progress between two looks of the producer: [n] pops. *)
Fixpoint consume (r : ShmRingReader) (seg : Segment) (n : nat) : panics Segment :=
  match n with
  | O => Some seg
  | S n' => '(seg', _) ← try_pop r seg; consume r seg' n'
  end.

(** The loop of [push_until]: before each try the consumer makes some
    progress; after a failed try the cancel flag is read.  [Some None] while
    it still spins. *)
Fixpoint push_spin (w : ShmRingWriter) (r : ShmRingReader) (seg : Segment) (candle : Candle)
    (schedule : list (nat * bool)) : panics (option (Segment * bool)) :=
  match schedule with
  | [] => Some None
  | (pops, cancel) :: schedule' =>
      seg1 ← consume r seg pops;
      '(seg2, ok) ← try_push w seg1 candle;
      if ok : bool then Some (Some (seg2, true))
      else if cancel : bool then Some (Some (seg2, false))
      else push_spin w r seg2 candle schedule'
  end.

(** [ShmRingWriter::push_until]. *)
Definition push_until (w : ShmRingWriter) (r : ShmRingReader) (seg : Segment) (candle : Candle)
    (schedule : list (nat * bool)) : panics (option (ShmRingWriter * Segment * bool)) :=
  '(seg1, ok) ← try_push w seg candle;
  if ok : bool then Some (Some (w, seg1, true))
  else
    res ← push_spin w r seg1 candle schedule;
    Some ('(seg2, b) ← res; Some (count_full w, seg2, b)).

(** [ShmRingWriter::push], which has no cancel flag; [None] inside while it
    still spins. *)
Fixpoint push_wait (w : ShmRingWriter) (r : ShmRingReader) (seg : Segment) (candle : Candle) (schedule : list nat)
    : panics (option Segment) :=
  match schedule with
  | [] => Some None
  | pops :: schedule' =>
      seg1 ← consume r seg pops;
      '(seg2, ok) ← try_push w seg1 candle;
      if ok : bool then Some (Some seg2) else push_wait w r seg2 candle schedule'
  end.

Definition push (w : ShmRingWriter) (r : ShmRingReader) (seg : Segment) (candle : Candle) (schedule : list nat)
    : panics (option (ShmRingWriter * Segment)) :=
  '(seg1, ok) ← try_push w seg candle;
  if ok : bool then Some (Some (w, seg1))
  else
    res ← push_wait w r seg1 candle schedule;
    Some (seg2 ← res; Some (count_full w, seg2)).

(** Producer progress between two looks of the consumer. *)
Fixpoint produce (w : ShmRingWriter) (seg : Segment) (cs : list Candle) : panics Segment :=
  match cs with
  | [] => Some seg
  | c :: cs' => '(seg', _) ← try_push w seg c; produce w seg' cs'
  end.

(** [ShmRingReader::pop]. *)
Fixpoint pop (w : ShmRingWriter) (r : ShmRingReader) (seg : Segment) (schedule : list (list Candle))
    : panics (option (Segment * Candle)) :=
  match schedule with
  | [] => Some None
  | cs :: schedule' =>
      seg1 ← produce w seg cs;
      '(seg2, x) ← try_pop r seg1;
      match x with
      | Some c => Some (Some (seg2, c))
      | None => pop w r seg2 schedule'
      end
  end.

(** One call on either end. *)
Definition shm_step (w : ShmRingWriter) (r : ShmRingReader) (seg : Segment) (o : Spsc.op Candle)
    : panics (Segment * Spsc.reply Candle) :=
  match o with
  | Spsc.Push x => '(seg', b) ← try_push w seg x; Some (seg', Spsc.Pushed b)
  | Spsc.Pop => '(seg', x) ← try_pop r seg; Some (seg', Spsc.Popped x)
  end.

Fixpoint shm_run (w : ShmRingWriter) (r : ShmRingReader) (seg : Segment) (os : list (Spsc.op Candle))
    : panics (Segment * list (Spsc.reply Candle)) :=
  match os with
  | [] => Some (seg, [])
  | o :: os' =>
      '(seg1, x) ← shm_step w r seg o;
      '(seg2, xs) ← shm_run w r seg1 os';
      Some (seg2, x :: xs)
  end.

(** ** The mapped ring is the ring of [Spsc.v] *)

Definition view (cap : Z) (seg : Segment) : Spsc.t Candle :=
  Spsc.mkSpsc (slots seg) cap (hhead (header seg)) (htail (header seg)).

(** A writer, a reader and a segment that belong together. *)
Record attached (w : ShmRingWriter) (r : ShmRingReader) (seg : Segment) (q : list Candle) : Prop := {
  at_cap : r_capacity r = w_capacity w;
  at_size_w : w_map_size w = mapping_size (w_capacity w);
  at_size_r : r_map_size r = mapping_size (w_capacity w);
  at_bound : w_capacity w <= 2 ^ 57;
  at_ring : Spsc.models (view (w_capacity w) seg) q
}.

Lemma mapping_size_small cap : 0 <= cap <= 2 ^ 57 -> mapping_size cap = SLOTS_OFFSET + cap * candle_size.
Proof.
  intros H. unfold mapping_size, u64_wrapping_add, u64_wrapping_mul, u64_wrap, u64_modulus, SLOTS_OFFSET, candle_size.
  assert (cap * 48 <= 2 ^ 57 * 48) by nia. rewrite (Z.mod_small (cap * 48)) by lia. apply Z.mod_small. lia.
Qed.

(** Every slot lies inside the mapping. *)
Lemma slot_in_mapping cap slot :
  0 <= cap <= 2 ^ 57 -> 0 <= slot < cap -> slot_at (mapping_size cap) (slot_offset slot) = Some (Z.to_nat slot).
Proof.
  intros Hc Hs. rewrite mapping_size_small by done.
  assert (Ho : slot_offset slot = SLOTS_OFFSET + slot * candle_size).
  { unfold slot_offset, u64_wrapping_add, u64_wrapping_mul, u64_wrap, u64_modulus, SLOTS_OFFSET, candle_size.
    assert (slot * 48 <= 2 ^ 57 * 48) by nia. rewrite (Z.mod_small (slot * 48)) by lia. apply Z.mod_small. lia. }
  rewrite Ho. unfold slot_at, candle_size in *.
  destruct (Z.leb_spec SLOTS_OFFSET (SLOTS_OFFSET + slot * 48)); [|lia].
  destruct (Z.leb_spec (SLOTS_OFFSET + slot * 48 + 48) (SLOTS_OFFSET + cap * 48)); [|lia]. simpl.
  do 2 f_equal. rewrite Z.add_simpl_l. by rewrite Z.div_mul by lia.
Qed.

Section attached.
Context (w : ShmRingWriter) (r : ShmRingReader).

Lemma shm_cap_range seg q : attached w r seg q -> 0 <= w_capacity w <= 2 ^ 57 /\
  forall cursor, 0 <= Spsc.slot_of (w_capacity w) cursor < w_capacity w.
Proof.
  intros [_ _ _ Hb Hm]. pose proof (Spsc.slot_in_range _ _ 0 Hm) as H0. pose proof (Spsc.m_slots _ _ Hm) as Hs.
  simpl in *. split; [lia|]. intros cursor. pose proof (Spsc.slot_in_range _ _ cursor Hm). simpl in *. lia.
Qed.

Lemma try_push_view seg q x :
  attached w r seg q ->
  try_push w seg x =
    '(s, b) ← Spsc.try_push (view (w_capacity w) seg) x;
    Some (mkSegment (set_head (header seg) (Spsc.head s)) (Spsc.slots s), b).
Proof.
  intros Ha. destruct (shm_cap_range seg q Ha) as [Hc Hsl]. destruct Ha as [_ Hw _ _ _].
  unfold try_push, Spsc.try_push, view. simpl.
  destruct (w_capacity w <=? _); [simpl; by destruct seg as [[] ?]|].
  rewrite Hw, slot_in_mapping by auto. simpl. by destruct (_ <? _)%nat.
Qed.

Lemma try_pop_view seg q :
  attached w r seg q ->
  try_pop r seg =
    '(s, x) ← Spsc.try_pop (view (w_capacity w) seg);
    Some (mkSegment (set_tail (header seg) (Spsc.tail s)) (slots seg), x).
Proof.
  intros Ha. destruct (shm_cap_range seg q Ha) as [Hc Hsl]. destruct Ha as [Hr _ Hm _ _].
  unfold try_pop, Spsc.try_pop, view. simpl. rewrite Hr, Hm.
  destruct (hhead (header seg) =? htail (header seg)); [simpl; by destruct seg as [[] ?]|].
  rewrite slot_in_mapping by auto. simpl. by destruct (slots seg !! _).
Qed.

Lemma shm_step_fifo seg q o :
  attached w r seg q ->
  let '(q', rep) := Spsc.fifo_step (Z.to_nat (w_capacity w)) q o in
  exists seg', shm_step w r seg o = Some (seg', rep) /\ attached w r seg' q' /\
    length (slots seg') = length (slots seg).
Proof.
  intros Ha. pose proof Ha as [H1 H2 H3 H4 Hm].
  pose proof (Spsc.ring_step_refines _ q o Hm) as Hstep. simpl Spsc.capacity in Hstep.
  destruct (Spsc.fifo_step (Z.to_nat (w_capacity w)) q o) as [q' rep].
  destruct Hstep as (s' & Hs & Hm' & Hcap). destruct o as [x|]; simpl in Hs |- *.
  - rewrite (try_push_view seg q x Ha). destruct (Spsc.try_push (view (w_capacity w) seg) x) as [[s b]|] eqn:E; [|done].
    simpl in *. simplify_eq. eexists. split; [reflexivity|].
    assert (Ht : Spsc.tail s' = htail (header seg) /\ length (Spsc.slots s') = length (slots seg)).
    { unfold Spsc.try_push in E. simpl in E. destruct (w_capacity w <=? _); [by simplify_eq|].
      destruct (_ <? _)%nat; [|done]. simplify_eq. simpl. by rewrite length_insert. }
    split; [|apply Ht]. split; try done. unfold view. simpl. rewrite <- (proj1 Ht), <- Hcap. by destruct s'.
  - rewrite (try_pop_view seg q Ha). destruct (Spsc.try_pop (view (w_capacity w) seg)) as [[s x]|] eqn:E; [|done].
    simpl in *. simplify_eq. eexists. split; [reflexivity|].
    assert (Ht : Spsc.head s' = hhead (header seg) /\ Spsc.slots s' = slots seg).
    { unfold Spsc.try_pop in E. simpl in E. destruct (_ =? _); [by simplify_eq|].
      destruct (slots seg !! _); simpl in E; [|done]. by simplify_eq. }
    split; [|done]. split; try done. unfold view. simpl. rewrite <- (proj1 Ht), <- (proj2 Ht), <- Hcap. by destruct s'.
Qed.

End attached.

Lemma shm_run_fifo w r seg q os :
  attached w r seg q ->
  exists seg', shm_run w r seg os = Some (seg', Spsc.fifo_run (Z.to_nat (w_capacity w)) q os).
Proof.
  revert seg q. induction os as [|o os IH]; intros seg q Ha; simpl; [by eexists|].
  pose proof (shm_step_fifo w r seg q o Ha) as Hstep.
  destruct (Spsc.fifo_step (Z.to_nat (w_capacity w)) q o) as [q' rep].
  destruct Hstep as (seg1 & -> & Ha1 & _). simpl.
  destruct (IH seg1 q' Ha1) as [seg2 ->]. simpl. by eexists.
Qed.

(** A freshly created segment and a reader that opened it belong together,
    whatever its slots hold. *)
Lemma create_open_attached name cap force e tr h w name' e' obs tr' r sl :
  cap <= 2 ^ 57 -> create_inner name cap force e = Some (tr, Some h, Ok w) ->
  open_reader name' cap e' obs (hcapacity h) = Some (Some (tr', Ok r)) ->
  Z.of_nat (length sl) = cap -> attached w r (mkSegment h sl) [].
Proof.
  intros Hb Hc Ho Hl.
  unfold create_inner in Hc. destruct (Spsc.is_power_of_two cap) eqn:Ep; [|done]. simpl in Hc.
  destruct (cstring name); [|done]. destruct (e_shm_open e), (e_ftruncate e), (e_mmap e); simplify_eq/=.
  unfold open_reader in Ho. rewrite Ep in Ho. simpl in Ho. destruct (cstring name'); [|done].
  destruct (e_shm_open e'), (e_mmap e'); [|done..]. destruct (wait_ready obs) as [[]|]; [|done..].
  rewrite Z.eqb_refl in Ho. simpl in Ho. simplify_eq.
  apply Spsc.is_power_of_two_spec in Ep as (Hpos & k & Hk & Ek). split; simpl; try done.
  split; simpl; [|done|by split|done|lia|done]. exists k. split; [|done]. split; [done|].
  rewrite Ek in Hb. apply Z.pow_le_mono_r_iff in Hb; lia.
Qed.

(** C16. Across processes the ring is a FIFO: a writer that created a segment
    and a reader that opened it, with any power-of-two capacity up to 2^57,
    answer every sequence of pushes and pops as a bounded queue of that
    capacity does, and no access ever leaves the mapping, whatever the
    segment's slots held before. *)
Theorem shm_ring_is_fifo name cap force e tr h w name' e' obs tr' r sl os :
  cap <= 2 ^ 57 -> create_inner name cap force e = Some (tr, Some h, Ok w) ->
  open_reader name' cap e' obs (hcapacity h) = Some (Some (tr', Ok r)) ->
  Z.of_nat (length sl) = cap ->
  exists seg, shm_run w r (mkSegment h sl) os = Some (seg, Spsc.fifo_run (Z.to_nat cap) [] os).
Proof.
  intros Hb Hc Ho Hl. pose proof (create_open_attached _ _ _ _ _ _ _ _ _ _ _ _ sl Hb Hc Ho Hl) as Ha.
  assert (Ew : w_capacity w = cap).
  { unfold create_inner in Hc. destruct (negb _); [done|]. destruct (cstring name); [|done].
    destruct (e_shm_open e), (e_ftruncate e), (e_mmap e); by simplify_eq/=. }
  rewrite <- Ew. by apply (shm_run_fifo w r (mkSegment h sl) []).
Qed.

Definition cndl (t : Z) : Candle := mkCandle t f_one f_one f_one f_one f_one.

Lemma shm_ring_is_fifo_witness :
  exists tr h w tr' r seg,
    create "/feed" 2 (mkEnv (Ok 3) None (Ok 4096)) = Some (tr, Some h, Ok w) /\
    open_reader "/feed" 2 (mkEnv (Ok 4) None (Ok 8192)) [(READY_MAGIC, false)] (hcapacity h) = Some (Some (tr', Ok r)) /\
    shm_run w r (mkSegment h [cndl 0; cndl 0]) [Spsc.Push (cndl 1); Spsc.Push (cndl 2); Spsc.Push (cndl 3); Spsc.Pop; Spsc.Pop; Spsc.Pop] =
      Some (seg, Spsc.fifo_run 2 [] [Spsc.Push (cndl 1); Spsc.Push (cndl 2); Spsc.Push (cndl 3); Spsc.Pop; Spsc.Pop; Spsc.Pop]).
Proof.
  do 5 eexists. assert (Hc : create_inner "/feed" 2 false (mkEnv (Ok 3) None (Ok 4096)) =
    Some ([ShmOpen "/feed" true true; Ftruncate 3 480; Mmap 3 480; Close 3], Some (mkHeader READY_MAGIC 2 0 0), Ok (mkWriter 4096 480 "/feed" 2 0)))
    by reflexivity.
  assert (Ho : open_reader "/feed" 2 (mkEnv (Ok 4) None (Ok 8192)) [(READY_MAGIC, false)] 2 =
    Some (Some ([ShmOpen "/feed" false false; Mmap 4 480; Close 4], Ok (mkReader 8192 480 2)))) by reflexivity.
  destruct (shm_ring_is_fifo "/feed" 2 false _ _ _ _ "/feed" _ _ _ _ [cndl 0; cndl 0]
    [Spsc.Push (cndl 1); Spsc.Push (cndl 2); Spsc.Push (cndl 3); Spsc.Pop; Spsc.Pop; Spsc.Pop] ltac:(lia) Hc Ho eq_refl)
    as [seg Hseg].
  exists seg. split; [exact Hc|]. split; [exact Ho|exact Hseg].
Defined.

(** ** [push_until] *)

Lemma consume_spec w r seg q n :
  attached w r seg q -> exists seg', consume r seg n = Some seg' /\ attached w r seg' (drop n q).
Proof.
  revert seg q. induction n as [|n IH]; intros seg q Ha; simpl; [by exists seg|].
  pose proof (shm_step_fifo w r seg q Spsc.Pop Ha) as Hp. simpl in Hp.
  destruct q as [|x q]; destruct Hp as (seg1 & Hp & Ha1 & _);
    destruct (try_pop r seg) as [[s o]|]; simpl in *; simplify_eq; destruct (IH _ _ Ha1) as (seg2 & -> & H2); eexists; split; try done.
  by rewrite drop_nil in H2.
Qed.

Lemma try_push_spec w r seg q x :
  attached w r seg q ->
  exists seg' b, try_push w seg x = Some (seg', b) /\ b = (Z.of_nat (length q) <? w_capacity w) /\
    attached w r seg' (if b then q ++ [x] else q).
Proof.
  intros Ha. pose proof (shm_step_fifo w r seg q (Spsc.Push x) Ha) as Hp. destruct (shm_cap_range w r seg q Ha) as [Hc _].
  simpl in Hp. destruct (Nat.ltb_spec (length q) (Z.to_nat (w_capacity w))); destruct Hp as (seg1 & Hp & Ha1 & _);
    destruct (try_push w seg x) as [[s o]|]; simpl in *; simplify_eq; eexists _, _; (split; [done|]); split; try done; lia.
Qed.

(** What the spin ends with: the candle enqueued behind what is left, or a
    cancellation that found the ring full. *)
Definition spun (w : ShmRingWriter) (r : ShmRingReader) (q : list Candle) (c : Candle) (seg : Segment) (b : bool) : Prop :=
  exists n, (if b : bool then attached w r seg (drop n q ++ [c])
             else attached w r seg (drop n q) /\ Z.of_nat (length (drop n q)) = w_capacity w).

Lemma push_spin_spec w r seg q c sched :
  attached w r seg q ->
  exists res, push_spin w r seg c sched = Some res /\
    (forall seg' b, res = Some (seg', b) -> spun w r q c seg' b /\ (b = false -> exists n, In (n, true) sched)) /\
    (forall n b, In (n, b) sched -> b = true \/ (0 < n)%nat -> res <> None).
Proof.
  revert seg q. induction sched as [|[n cancel] sched IH]; intros seg q Ha; simpl; [by exists None|].
  destruct (consume_spec w r seg q n Ha) as (seg1 & -> & Ha1). simpl.
  destruct (try_push_spec w r seg1 _ c Ha1) as (seg2 & b & -> & Hb & Ha2). simpl.
  destruct (shm_cap_range w r seg q Ha) as [Hc _]. pose proof (Spsc.m_len _ _ (at_ring _ _ _ _ Ha2)) as Hlen. simpl in Hlen.
  destruct b.
  { eexists. split; [done|]. split; [|done]. intros seg' b [= <- <-]. split; [by exists n|done]. }
  destruct cancel.
  { eexists. split; [done|]. split; [|done]. intros seg' b [= <- <-]. split; [|eauto]. exists n. split; [done|lia]. }
  destruct (IH seg2 _ Ha2) as (res & -> & Hres & Hlive). exists res. split; [done|]. split.
  - intros seg' b E. destruct (Hres seg' b E) as [[m Hm] Hcan]. split.
    + exists (n + m)%nat. by rewrite <- drop_drop.
    + intros Hf. destruct (Hcan Hf) as [k Hk]. eauto.
  - intros m b [E|Hin] Hprog; [|by apply (Hlive m b)]. simplify_eq. destruct Hprog as [|Hprog]; [done|].
    exfalso. pose proof (Spsc.m_len _ _ (at_ring _ _ _ _ Ha)) as Hq. simpl in Hq. symmetry in Hb.
    apply Z.ltb_ge in Hb. rewrite length_drop in Hb.
    destruct (shm_cap_range w r seg q Ha) as [_ Hsl]. specialize (Hsl 0). lia.
Qed.

(** C19. [push_until] never loses or duplicates a candle and never hangs on
    shutdown: it returns [true] exactly with the candle enqueued behind what
    the consumer left, [false] only after a cancellation was seen while the
    ring was full, with nothing enqueued; it does return as soon as the
    consumer makes progress or the caller cancels; and a stall is counted
    once, however long it spins. *)
Theorem push_until_cancellable w r seg q c sched :
  attached w r seg q ->
  exists res, push_until w r seg c sched = Some res /\
    (forall w' seg' b, res = Some (w', seg', b) ->
       spun w r q c seg' b /\ (b = false -> exists n, In (n, true) sched) /\
       push_full w' = if Z.of_nat (length q) <? w_capacity w then push_full w else fetch_add1 (push_full w)) /\
    (forall n b, In (n, b) sched -> b = true \/ (0 < n)%nat -> res <> None).
Proof.
  intros Ha. unfold push_until. destruct (try_push_spec w r seg q c Ha) as (seg1 & b & -> & Hb & Ha1). simpl.
  destruct b.
  - eexists. split; [done|]. split; [|done]. intros w' seg' b [= <- <- <-]. rewrite <- Hb. split_and!; [by exists 0%nat|done..].
  - destruct (push_spin_spec w r seg1 q c sched Ha1) as (res & -> & Hres & Hlive). simpl.
    eexists. split; [done|]. split.
    + intros w' seg' b E. destruct res as [[s b']|]; [|done]. simpl in E. simplify_eq.
      destruct (Hres _ _ eq_refl) as [H1 H2]. rewrite <- Hb. done.
    + intros n b Hin Hp. specialize (Hlive n b Hin Hp). by destruct res as [[]|].
Qed.

(** ** [push] and [pop] *)

(** [push] is [push_until] with a flag nobody raises. *)
Lemma push_uncancelled w r seg c sched :
  push w r seg c sched =
    (fun res => x ← res; Some x.1) <$> push_until w r seg c ((fun n => (n, false)) <$> sched).
Proof.
  assert (Hw : forall seg, push_wait w r seg c sched =
    (fun res => x ← res; Some x.1) <$> push_spin w r seg c ((fun n => (n, false)) <$> sched)).
  { induction sched as [|n sched IH]; intros sg; [done|]. cbn [push_wait push_spin fmap list_fmap].
    destruct (consume r sg n) as [sg1|]; [|done]. cbn [mbind option_bind].
    destruct (try_push w sg1 c) as [[sg2 []]|]; [done| |done]. cbn [mbind option_bind]. apply IH. }
  unfold push, push_until. destruct (try_push w seg c) as [[sg []]|]; [done| |done]. cbn [mbind option_bind]. rewrite Hw.
  by destruct (push_spin w r sg c _) as [[[s b]|]|].
Qed.

Lemma produce_spec w r cs : forall seg q,
  attached w r seg q -> exists seg' added, produce w seg cs = Some seg' /\ attached w r seg' (q ++ added) /\ (cs <> [] -> q ++ added <> []).
Proof.
  induction cs as [|c cs IH]; intros seg q Ha; cbn [produce]; [exists seg, []; by rewrite app_nil_r|].
  destruct (try_push_spec w r seg q c Ha) as (seg1 & b & -> & Hb & Ha1). cbn [mbind option_bind].
  destruct (IH seg1 _ Ha1) as (seg2 & added & -> & Ha2 & _). exists seg2.
  destruct b; [exists (c :: added)|exists added]; (split; [done|]).
  - rewrite <- app_assoc in Ha2. split; [done|]. intros _ E. by apply app_nil in E as [_ ?].
  - split; [done|]. intros _ E. apply app_nil in E as [-> _]. destruct (shm_cap_range w r seg _ Ha) as [_ Hsl]. specialize (Hsl 0).
    symmetry in Hb. apply Z.ltb_ge in Hb. simpl in Hb. lia.
Qed.

(** [pop] returns the oldest candle, as soon as there is one. *)
Lemma pop_spec w r sched : forall seg q,
  attached w r seg q ->
  exists res, pop w r seg sched = Some res /\
    (forall seg' c, res = Some (seg', c) -> exists added q', q ++ added = c :: q' /\ attached w r seg' q') /\
    (sched <> [] -> q <> [] \/ Exists (fun cs => cs <> []) sched -> res <> None).
Proof.
  induction sched as [|cs sched IH]; intros seg q Ha; cbn [pop]; [by exists None|].
  destruct (produce_spec w r cs seg q Ha) as (seg1 & added & -> & Ha1 & Hne). cbn [mbind option_bind].
  pose proof (shm_step_fifo w r seg1 _ Spsc.Pop Ha1) as Hp. cbn [shm_step] in Hp.
  destruct (q ++ added) as [|c q1] eqn:Eq; cbn [Spsc.fifo_step] in Hp; destruct Hp as (seg2 & Hp & Ha2 & _);
    destruct (try_pop r seg1) as [[s x]|]; [|done| |done]; cbn [mbind option_bind] in Hp; injection Hp as -> ->; cbn [mbind option_bind].
  - apply app_nil in Eq as [-> ->]. assert (Hcs : cs = []) by (destruct cs; [done|]; by destruct (Hne ltac:(done))).
    destruct (IH seg2 [] Ha2) as (res & -> & H1 & H2). exists res. split_and!; [done..|].
    intros _ [|Hex]; [done|]. apply Exists_cons in Hex as [|Hex]; [done|]. apply H2; [by intros ->; apply Exists_nil in Hex|by right].
  - eexists. split; [done|]. split; [|done]. intros seg' c' [= <- <-]. by exists added, q1.
Qed.

Definition demo_writer : ShmRingWriter := mkWriter 4096 432 "/feed" 1 0.
Definition demo_reader : ShmRingReader := mkReader 8192 432 1.
Definition demo_seg : Segment := mkSegment (mkHeader READY_MAGIC 1 1 0) [cndl 5].

Lemma demo_attached : attached demo_writer demo_reader demo_seg [cndl 5].
Proof.
  split; try done. split; simpl; [by exists 0|done|by split|done|lia|].
  intros [|i] x; simpl; [by intros [= <-]|done].
Qed.

Lemma push_until_cancellable_witness :
  exists w' seg' b, push_until demo_writer demo_reader demo_seg (cndl 6) [(0%nat, false); (0%nat, true)] = Some (Some (w', seg', b)) /\
    spun demo_writer demo_reader [cndl 5] (cndl 6) seg' b.
Proof.
  destruct (push_until_cancellable demo_writer demo_reader demo_seg [cndl 5] (cndl 6) [(0%nat, false); (0%nat, true)] demo_attached)
    as (res & Hres & H1 & H2).
  destruct res as [[[w' seg'] b]|]; [|exfalso; apply (H2 0%nat true); [simpl; auto|auto|done]].
  exists w', seg', b. split; [done|]. by destruct (H1 w' seg' b eq_refl).
Defined.

End ShmRing.

Module Ingester.
Import ShmSys ShmRing.

Record IngesterStats : Type := mkIngesterStats { popped_total : Z; ring_depth : Z; is_ring_capacity : Z }.

Section cold.
Context {disk faults : Type} `{!ColdStorage disk faults}.

(** The ring shared with the producer, the store behind the ingester, its
    flag and counter; [accepted] records the pushes the ring took. *)
Record t : Type := mkIngester {
  seg : Segment;
  store : Store.t;
  disk_state : disk;
  running : bool;
  popped : Z;
  accepted : list Candle
}.

(** [start_on_core], before the thread's first iteration. *)
Definition start (sg : Segment) (st : Store.t) (d : disk) : t := mkIngester sg st d true 0 [].

(** The events of an interleaving: the producer pushes, the ingester thread
    runs one iteration of its loop (meeting the faults [f] if it appends),
    and someone signals it to stop. *)
Inductive event : Type :=
| Produce (c : Candle)
| Iterate (f : faults)
| StopSignal.

(** One event; the loop body is [match try_pop { Some => append; None => spin }]
    behind the [running] check. *)
Definition step (fuel : nat) (w : ShmRingWriter) (r : ShmRingReader) (symbol : string) (s : t) (e : event) : panics t :=
  match e with
  | Produce c =>
      '(sg, ok) ← try_push w (seg s) c;
      Some (mkIngester sg (store s) (disk_state s) (running s) (popped s)
              (if ok : bool then accepted s ++ [c] else accepted s))
  | Iterate f =>
      if negb (running s) then Some s
      else
        '(sg, x) ← try_pop r (seg s);
        match x with
        | Some candle =>
            '(st, d) ← Store.append fuel f (store s) (disk_state s) symbol candle;
            Some (mkIngester sg st d (running s) (fetch_add1 (popped s)) (accepted s))
        | None => Some (mkIngester sg (store s) (disk_state s) (running s) (popped s) (accepted s))
        end
  | StopSignal => Some (mkIngester (seg s) (store s) (disk_state s) false (popped s) (accepted s))
  end.

Fixpoint run (fuel : nat) (w : ShmRingWriter) (r : ShmRingReader) (symbol : string) (s : t) (es : list event) : panics t :=
  match es with
  | [] => Some s
  | e :: es' => s1 ← step fuel w r symbol s e; run fuel w r symbol s1 es'
  end.

(** [ShmIngester::stats]. *)
Definition stats (r : ShmRingReader) (s : t) : IngesterStats := mkIngesterStats (popped s) (depth (seg s)) (capacity r).

(** ** The store behind one ingester *)

(** Invariant of the interleaving. *)
Record inv (max_symbols : Z) (cap : nat) (dir : option string) (w : ShmRingWriter) (r : ShmRingReader)
    (symbol : string) (n : nat) (s : t) (k : nat) : Prop := {
  i_ring : attached w r (seg s) (drop k (accepted s));
  i_le : (k <= length (accepted s))%nat;
  i_popped : popped s = Z.of_nat k;
  i_bound : (k <= n)%nat;
  i_cfg : StoreSpec.config_of (store s) = LruCache.mkConfig max_symbols cap dir;
  i_tick : Store.tick (store s) <= Z.of_nat k;
  i_store : StoreSpec.refines (store s) (LruCache.fed cap symbol (take k (accepted s)))
}.

Lemma ingester_step_inv fuel max_symbols cap dir w r symbol n s k e :
  (0 < cap)%nat -> inv max_symbols cap dir w r symbol n s k -> Z.of_nat n + 1 < u64_max ->
  exists s' k', step (S fuel) w r symbol s e = Some s' /\ inv max_symbols cap dir w r symbol (S n) s' k'.
Proof.
  intros Hcap [Hring Hle Hpop Hbd Hcfg Htk Href] Hn. destruct e as [c|f|]; simpl.
  - destruct (try_push_spec w r _ _ c Hring) as (sg & b & -> & Hb & Ha). simpl.
    exists (mkIngester sg (store s) (disk_state s) (running s) (popped s) (if b then accepted s ++ [c] else accepted s)), k.
    split; [done|]. destruct b; split; simpl; auto; try lia.
    + by rewrite drop_app_le by lia.
    + rewrite length_app. simpl. lia.
    + by rewrite take_app_le by lia.
  - destruct (running s); simpl; [|exists s, k; split; [done|]; split; auto; lia].
    pose proof (shm_step_fifo w r _ _ Spsc.Pop Hring) as Hp. simpl in Hp.
    destruct (drop k (accepted s)) as [|c q] eqn:Ed.
    + destruct Hp as (sg & Hp & Ha & _). destruct (try_pop r (seg s)) as [[sg' x]|]; [|done]. simpl in Hp. simplify_eq. simpl.
      eexists _, k. split; [done|]. split; simpl; auto; try lia; by rewrite Ed.
    + destruct Hp as (sg & Hp & Ha & _). destruct (try_pop r (seg s)) as [[sg' x]|]; [|done]. simpl in Hp. simplify_eq. simpl.
      assert (Hk : accepted s !! k = Some c) by (pose proof (lookup_drop (accepted s) k 0) as Hl; rewrite Ed, Nat.add_0_r in Hl; by rewrite <- Hl).
      destruct (StoreSpec.sim_append_fed fuel f (store s) (disk_state s) max_symbols cap dir symbol _ c Hcap Hcfg Href ltac:(lia))
        as (st' & -> & Href' & Hcfg' & Htk'). simpl.
      eexists _, (S k). split; [done|]. pose proof (lookup_lt_Some _ _ _ Hk).
      split; simpl; auto; try lia; [| |congruence|by rewrite (take_S_r _ _ c)].
      * replace (S k) with (k + 1)%nat by lia. rewrite <- drop_drop, Ed. done.
      * rewrite Hpop. rewrite fetch_add1_small by lia. lia.
  - eexists _, k. split; [done|]. split; simpl; auto; lia.
Qed.

Lemma run_inv fuel max_symbols cap dir w r symbol es n s k :
  (0 < cap)%nat -> inv max_symbols cap dir w r symbol n s k -> Z.of_nat n + Z.of_nat (length es) < u64_max ->
  exists s' k', run (S fuel) w r symbol s es = Some s' /\ inv max_symbols cap dir w r symbol (n + length es) s' k'.
Proof.
  intros Hcap. revert n s k. induction es as [|e es IH]; intros n s k Hi Hn; simpl.
  { exists s, k. split; [done|]. by rewrite Nat.add_0_r. }
  cbn [length] in Hn. destruct (ingester_step_inv fuel max_symbols cap dir w r symbol n s k e Hcap Hi ltac:(lia)) as (s1 & k1 & -> & H1).
  simpl. destruct (IH (S n) s1 k1 H1 ltac:(lia)) as (s2 & k2 & -> & H2). exists s2, k2. split; [done|].
  by replace (n + S (length es))%nat with (S n + length es)%nat by lia.
Qed.

Lemma start_inv max_symbols cap dir w r symbol sg (d : disk) :
  (0 < cap)%nat -> attached w r sg [] ->
  inv max_symbols cap dir w r symbol 0 (start sg (Store.open_store max_symbols cap dir) d) 0.
Proof.
  intros Hcap Ha. split; simpl; auto; [by destruct dir|by destruct dir; simpl; lia|].
  unfold LruCache.fed. simpl. by apply StoreSpec.refines_open.
Qed.

(** C17. The pipeline, under every interleaving of producer and ingester and
    whatever the spills meet: the ingester forwards the candles the ring
    accepted, in order, none lost and none twice ([popped] of them so far,
    the rest still in the ring), and the store's newest candles of the
    symbol are exactly the valid ones among those forwarded; nothing panics
    and no access leaves the mapping. *)
Theorem ingester_pipeline fuel max_symbols cap dir w r symbol sg (d : disk) (es : list event) :
  (0 < cap)%nat -> attached w r sg [] -> Z.of_nat (length es) < u64_max ->
  exists s k, run (S fuel) w r symbol (start sg (Store.open_store max_symbols cap dir) d) es = Some s /\
    popped s = Z.of_nat k /\ (k <= length (accepted s))%nat /\
    attached w r (seg s) (drop k (accepted s)) /\
    forall n, Store.last_n (store s) symbol n =
      Some (lastn n (lastn cap (filter (fun c => is_valid c = true) (take k (accepted s))))).
Proof.
  intros Hcap Ha Hn.
  destruct (run_inv fuel max_symbols cap dir w r symbol es 0 _ 0 Hcap (start_inv max_symbols cap dir w r symbol sg d Hcap Ha) ltac:(lia))
    as (s & k & Hrun & [Hring Hle Hpop _ _ _ Href]).
  exists s, k. split_and!; [done..|]. intros n. by rewrite (StoreSpec.refines_last_n _ _ _ _ Href), (StoreSpec.fed_hot _ _ _ _ Href).
Qed.

(** A stopped ingester stays stopped: once the flag is cleared no further
    candle is popped or appended, whatever happens next. *)
Theorem ingester_stop_is_final fuel w r symbol s es s' :
  running s = false -> run fuel w r symbol s es = Some s' ->
  running s' = false /\ popped s' = popped s /\ store s' = store s /\ disk_state s' = disk_state s.
Proof.
  revert s. induction es as [|e es IH]; intros s Hr Hrun; simpl in Hrun; [by simplify_eq|].
  destruct (step fuel w r symbol s e) as [s1|] eqn:E; [|done]. simpl in Hrun.
  assert (H1 : running s1 = false /\ popped s1 = popped s /\ store s1 = store s /\ disk_state s1 = disk_state s).
  { destruct e as [c|f|]; simpl in E.
    - destruct (try_push w (seg s) c) as [[sg ok]|]; [|done]. simpl in E. by simplify_eq.
    - rewrite Hr in E. simpl in E. by simplify_eq.
    - by simplify_eq. }
  destruct H1 as (H1 & H2 & H3 & H4). rewrite <- H2, <- H3, <- H4. by apply IH.
Qed.

End cold.

#[local] Existing Instance StoreSpec.journal_cold.

Definition demo_events : list (@event bool) :=
  [Produce (cndl 1); Iterate false; Produce (cndl 2); Produce (cndl 3); Iterate false; Iterate false; StopSignal; Produce (cndl 9)].

Definition empty_seg : Segment := mkSegment (mkHeader READY_MAGIC 1 0 0) [cndl 0].

Lemma empty_attached : attached demo_writer demo_reader empty_seg [].
Proof. split; try done. split; simpl; [by exists 0|done|by split|done|lia|done]. Qed.

Lemma ingester_pipeline_witness :
  exists s k, run 1 demo_writer demo_reader "BTC" (start empty_seg (Store.open_store 4 8 None) ([] : StoreSpec.journal)) demo_events = Some s /\
    popped s = Z.of_nat k /\
    forall n, Store.last_n (store s) "BTC" n =
      Some (lastn n (lastn 8 (filter (fun c => is_valid c = true) (take k (accepted s))))).
Proof.
  destruct (ingester_pipeline 0 4 8 None demo_writer demo_reader "BTC" empty_seg ([] : StoreSpec.journal) demo_events
    ltac:(lia) empty_attached ltac:(by vm_compute)) as (s & k & H1 & H2 & _ & _ & H3).
  exists s, k. split; [exact H1|]. split; [exact H2|exact H3].
Defined.

Lemma ingester_stop_is_final_witness :
  exists s', run 1 demo_writer demo_reader "BTC"
      (mkIngester empty_seg (Store.open_store 4 8 None) ([] : StoreSpec.journal) false 7 []) [Produce (cndl 1); Iterate false] = Some s' /\
    popped s' = 7.
Proof.
  eexists. split; [vm_compute; reflexivity|].
  refine (proj1 (proj2 (ingester_stop_is_final 1 demo_writer demo_reader "BTC"
    (mkIngester empty_seg (Store.open_store 4 8 None) ([] : StoreSpec.journal) false 7 []) [Produce (cndl 1); Iterate false] _ eq_refl _))).
  vm_compute. reflexivity.
Defined.

End Ingester.
