(* ===== verification/Layout.v ===== *)
(** * Memory layouts ([src/src/shm.rs], [candle.rs], [signal.rs])

    The layout rules of [repr(C)] and [repr(C, align(N))], executable, and
    the structs of the program that rely on them: the padded cursor, the
    header of the shared segment, the candle and the signal.  The compile-time
    assertions of the source are computed; what they are there for is proved:
    the cursors sit on cache lines of their own, the slots behind the header
    are aligned, disjoint and inside the mapping, and no struct that crosses
    a process or language boundary has padding bytes. *)

From S2P Require Import Prelude Float64 Candle Spsc Text Cold Store StoreSpec Shm.

#[local] Open Scope Z_scope.

Module Layout.

(** ** [repr(C)] *)

Record ty : Type := mkTy { size : Z; align : Z }.

Definition u8 : ty := mkTy 1 1.
Definition u32 : ty := mkTy 4 4.
Definition u64 : ty := mkTy 8 8.
Definition i64 : ty := mkTy 8 8.
Definition f64 : ty := mkTy 8 8.
(** Same size and alignment as the integer, by its documentation. *)
Definition AtomicU64 : ty := u64.
Definition array (t : ty) (n : Z) : ty := mkTy (n * size t) (align t).

Definition round_up (z a : Z) : Z := (z + a - 1) / a * a.

(** Fields in order, each at the next multiple of its alignment: name,
    offset and type; and where the last one ends. *)
Fixpoint place (off : Z) (fields : list (string * ty)) : list (string * Z * ty) * Z :=
  match fields with
  | [] => ([], off)
  | (f, t) :: fields' =>
      let o := round_up off (align t) in
      let '(placed, stop) := place (o + size t) fields' in
      ((f, o, t) :: placed, stop)
  end.

(** A [repr(C)] struct, with the [align(N)] of its attribute (1 if none). *)
Record struct : Type := mkStruct { fields : list (string * ty); attr_align : Z }.

Definition align_of (s : struct) : Z := foldr (fun ft a => Z.max (align ft.2) a) (attr_align s) (fields s).
Definition placed (s : struct) : list (string * Z * ty) := (place 0 (fields s)).1.
Definition size_of (s : struct) : Z := round_up (place 0 (fields s)).2 (align_of s).
Definition offset_of (s : struct) (field : string) : option Z :=
  (fun p => p.1.2) <$> head (filter (fun p : string * Z * ty => p.1.1 = field) (placed s)).
Definition as_ty (s : struct) : ty := mkTy (size_of s) (align_of s).

(** ** The structs *)

Definition CACHE_LINE : Z := 128.

Definition CachePadded : struct := mkStruct [("value", AtomicU64); ("_pad", array u8 (CACHE_LINE - 8))]%string 128.

Definition ShmHeader : struct :=
  mkStruct [("ready", AtomicU64); ("capacity", u64); ("_pad0", array u8 112);
            ("head", AtomicU64); ("_pad1", array u8 120);
            ("tail", AtomicU64); ("_pad2", array u8 120)]%string 1.

Definition Candle : struct :=
  mkStruct [("ts", i64); ("open", f64); ("high", f64); ("low", f64); ("close", f64); ("volume", f64)]%string 1.

Definition Signal : struct :=
  mkStruct [("ts", i64); ("symbol", array u8 24); ("side", u8); ("_pad", array u8 7); ("qty", f64); ("price", f64);
            ("strategy", u32); ("_pad2", array u8 4)]%string 1.

(** ** The rules are sound *)

(** Alignments are powers of two and divide the size. *)
Definition ty_ok (t : ty) : Prop := (exists k, 0 <= k /\ align t = 2 ^ k) /\ 0 <= size t /\ (align t | size t).
Definition struct_ok (s : struct) : Prop := Forall (fun ft => ty_ok ft.2) (fields s) /\ exists k, 0 <= k /\ attr_align s = 2 ^ k.

Lemma round_up_spec z a : 0 < a -> z <= round_up z a < z + a /\ (a | round_up z a).
Proof.
  intros Ha. unfold round_up. split; [|by exists ((z + a - 1) / a)].
  pose proof (Z.div_mod (z + a - 1) a ltac:(lia)). pose proof (Z.mod_pos_bound (z + a - 1) a Ha). nia.
Qed.

Lemma pow2_divide a b j k : 0 <= j -> 0 <= k -> a = 2 ^ j -> b = 2 ^ k -> (a | Z.max a b).
Proof.
  intros Hj Hk -> ->. destruct (Z.max_spec (2 ^ j) (2 ^ k)) as [[H ->]|[H ->]]; [|done].
  apply Z.pow_lt_mono_r_iff in H; [|lia..]. exists (2 ^ (k - j)). rewrite <- Z.pow_add_r by lia. f_equal. lia.
Qed.

Lemma max_pow2 a b : (exists j, 0 <= j /\ a = 2 ^ j) -> (exists k, 0 <= k /\ b = 2 ^ k) -> exists k, 0 <= k /\ Z.max a b = 2 ^ k.
Proof. intros (j & Hj & ->) (k & Hk & ->). destruct (Z.max_spec (2 ^ j) (2 ^ k)) as [[_ ->]|[_ ->]]; eauto. Qed.

Lemma align_of_spec s :
  struct_ok s -> (exists k, 0 <= k /\ align_of s = 2 ^ k) /\ (attr_align s | align_of s) /\
    Forall (fun ft => (align ft.2 | align_of s)) (fields s).
Proof.
  destruct s as [fs a]. unfold struct_ok, align_of. cbn. intros [Hf Ha].
  induction fs as [|[f t] fs IH]; cbn; [by split_and!|].
  apply Forall_cons in Hf as [Ht Hf]. destruct (IH Hf) as (Hk & Hd & Hfs). cbn in Ht.
  assert (Hm : forall x, (x | foldr (fun ft m => Z.max (align ft.2) m) a fs) ->
    (x | Z.max (align t) (foldr (fun ft m => Z.max (align ft.2) m) a fs))).
  { intros x Hx. etransitivity; [exact Hx|]. destruct Ht as [(j & Hj & Ej) _], Hk as (k & Hk & Ek). rewrite Z.max_comm. by apply (pow2_divide _ _ k j). }
  split; [apply max_pow2; [apply Ht|done]|]. split; [by apply Hm|]. constructor.
  - cbn. destruct Ht as [(j & Hj & Ej) _], Hk as (k & Hk & Ek). by apply (pow2_divide _ _ j k).
  - eapply Forall_impl; [exact Hfs|]. intros ft. apply Hm.
Qed.

(** Fields follow one another without overlap, aligned. *)
Lemma place_spec fs : forall off,
  0 <= off -> Forall (fun ft => ty_ok ft.2) fs ->
  let '(ps, stop) := place off fs in
  off <= stop /\ Forall (fun p => off <= p.1.2 /\ p.1.2 + size p.2 <= stop /\ (align p.2 | p.1.2)) ps /\
  (forall i j p q, (i < j)%nat -> ps !! i = Some p -> ps !! j = Some q -> p.1.2 + size p.2 <= q.1.2).
Proof.
  induction fs as [|[f t] fs IH]; intros off Hoff Hf; cbn [place]; [by split_and!|].
  apply Forall_cons in Hf as [Ht Hf]. cbn in Ht. destruct Ht as [(k & Hk & Ek) [Hs Hd]].
  destruct (round_up_spec off (align t)) as [Hr1 Hr2]; [rewrite Ek; by apply Z.pow_pos_nonneg; lia|].
  specialize (IH (round_up off (align t) + size t) ltac:(lia) Hf). destruct (place _ fs) as [ps stop].
  destruct IH as (H1 & H2 & H3). split; [lia|]. split.
  - constructor; [cbn; split_and!; [lia|lia|done]|]. eapply Forall_impl; [exact H2|]. intros p (? & ? & ?). split_and!; [lia|lia|done].
  - intros [|i] [|j] p q Hij Hp Hq; try lia; cbn in Hp, Hq.
    + simplify_eq. cbn. exact (proj1 (proj1 (Forall_lookup _ _) H2 j q Hq)).
    + exact (H3 i j p q ltac:(lia) Hp Hq).
Qed.

(** Every field of a struct is aligned and inside it, no two overlap, and
    the size is a multiple of the alignment, so arrays of it are aligned too. *)
Lemma layout_sound s :
  struct_ok s ->
  (align_of s | size_of s) /\
  (forall i p, placed s !! i = Some p ->
     0 <= p.1.2 /\ p.1.2 + size p.2 <= size_of s /\ (align p.2 | p.1.2)) /\
  (forall i j p q, (i < j)%nat -> placed s !! i = Some p -> placed s !! j = Some q -> p.1.2 + size p.2 <= q.1.2).
Proof.
  intros Hok. destruct (align_of_spec s Hok) as ((k & Hk & Ek) & _ & _). destruct Hok as [Hf _].
  pose proof (place_spec (fields s) 0 ltac:(lia) Hf) as Hp. unfold placed, size_of. destruct (place 0 (fields s)) as [ps stop]. cbn.
  destruct Hp as (_ & H2 & H3). destruct (round_up_spec stop (align_of s)) as [Hr Hd]; [rewrite Ek; by apply Z.pow_pos_nonneg; lia|].
  split_and!; [done| |exact H3]. intros i p Hi. destruct (proj1 (Forall_lookup _ _) H2 i p Hi) as (? & ? & ?). split_and!; [lia|lia|done].
Qed.

Ltac solve_ty_ok :=
  split; [first [by exists 0 | by exists 2 | by exists 3]|split; [done|]];
  match goal with |- (?a | ?n) => exists (n / a); reflexivity end.
Ltac solve_struct_ok :=
  split; [repeat apply Forall_cons_2; try apply Forall_nil_2; cbn; solve_ty_ok|first [by exists 7 | by exists 0]].

Lemma structs_ok : Forall struct_ok [CachePadded; ShmHeader; Candle; Signal].
Proof. repeat apply Forall_cons_2; [solve_struct_ok..|apply Forall_nil_2]. Qed.

(** No padding bytes: the fields fill the struct. *)
Definition packed (s : struct) : bool := size_of s =? foldr (fun ft n => size ft.2 + n) 0 (fields s).

(** ** Cache lines *)

Definition line (address : Z) : Z := address / CACHE_LINE.

(** An aligned cursor has its line to itself. *)
Lemma padded_owns_line a b :
  (align_of CachePadded | a) -> line b = line a <-> a <= b < a + size_of CachePadded.
Proof.
  change (align_of CachePadded) with 128. change (size_of CachePadded) with 128. unfold line, CACHE_LINE. intros [k ->].
  rewrite Z.div_mul by done. split; intros H.
  - pose proof (Z.div_mod b 128 ltac:(done)). pose proof (Z.mod_pos_bound b 128 ltac:(done)). lia.
  - symmetry. apply (Z.div_unique _ _ _ (b - k * 128)); lia.
Qed.

(** The lines of a mapping that starts on a page. *)
Lemma line_offset ptr o : ptr mod 4096 = 0 -> line (ptr + o) = line ptr + o / CACHE_LINE.
Proof.
  intros H. unfold line, CACHE_LINE. apply Z.mod_divide in H as [k ->]; [|done].
  replace (k * 4096 + o) with (o + (k * 32) * 128) by lia. replace (k * 4096) with (k * 32 * 128) by lia.
  rewrite Z.div_add, Z.div_mul by done. lia.
Qed.

Lemma slot_offset_small cap slot :
  0 <= cap <= 2 ^ 57 -> 0 <= slot < cap -> ShmRing.slot_offset slot = ShmSys.SLOTS_OFFSET + slot * candle_size.
Proof. intros Hc Hs. apply (ShmRing.mapping_size_small slot). lia. Qed.

(** C14. The segment's layout is the one the code asserts, and does what its
    constants claim.  By the layout rules the header is 384 bytes, where the
    slots start, with [ready] at 0, [capacity] at 8, [head] at 128 and [tail]
    at 256; a candle is 48 bytes, the stride of the slots, with its six fields
    8 bytes apart; neither has padding.  Mapped at a page boundary, the
    handshake words, the producer's cursor and the consumer's cursor are on
    three different 128-byte lines, which no byte of any slot is on; and every
    slot of a ring of up to 2^57 candles is aligned for a candle, with each of
    its fields, lies behind the header and inside the mapping, and overlaps no
    other slot. *)
Theorem shm_segment_layout ptr cap slot slot' :
  ptr mod 4096 = 0 -> 0 <= cap <= 2 ^ 57 -> 0 <= slot < slot' -> slot' < cap ->
  (size_of ShmHeader = 384 /\ ShmSys.SLOTS_OFFSET = 384 /\ packed ShmHeader = true /\
   offset_of ShmHeader "ready" = Some 0 /\ offset_of ShmHeader "capacity" = Some 8 /\
   offset_of ShmHeader "head" = Some 128 /\ offset_of ShmHeader "tail" = Some 256) /\
  (size_of Candle = 48 /\ candle_size = 48 /\ packed Candle = true /\
   offset_of Candle "ts" = Some 0 /\ offset_of Candle "open" = Some 8 /\ offset_of Candle "high" = Some 16 /\
   offset_of Candle "low" = Some 24 /\ offset_of Candle "close" = Some 32 /\ offset_of Candle "volume" = Some 40) /\
  (line (ptr + 8) = line (ptr + 0) /\ NoDup [line (ptr + 0); line (ptr + 128); line (ptr + 256)] /\
   forall b, ShmSys.SLOTS_OFFSET <= b -> line (ptr + b) ∉ [line (ptr + 0); line (ptr + 128); line (ptr + 256)]) /\
  (forall p, p ∈ placed Candle -> (align p.2 | ptr + (ShmRing.slot_offset slot + p.1.2))) /\
  ShmSys.SLOTS_OFFSET <= ShmRing.slot_offset slot /\
  ShmRing.slot_offset slot + size_of Candle <= ShmRing.slot_offset slot' /\
  ShmRing.slot_offset slot' + size_of Candle <= ShmSys.mapping_size cap.
Proof.
  intros Hp Hc Hs Hs'. rewrite (slot_offset_small cap slot), (slot_offset_small cap slot') by lia.
  rewrite ShmRing.mapping_size_small by lia. change (size_of Candle) with candle_size. unfold candle_size, ShmSys.SLOTS_OFFSET.
  rewrite !(line_offset ptr _ Hp). change (0 / CACHE_LINE) with 0. change (8 / CACHE_LINE) with 0.
  change (128 / CACHE_LINE) with 1. change (256 / CACHE_LINE) with 2. split_and!; try done; try lia.
  - repeat constructor; rewrite ?list_elem_of_In; cbn; lia.
  - intros b Hb. rewrite list_elem_of_In, (line_offset ptr b Hp).
    assert (3 <= b / CACHE_LINE) by (apply Z.div_le_lower_bound; unfold CACHE_LINE; lia). cbn. lia.
  - intros p Hin. apply list_elem_of_lookup in Hin as [i Hi].
    assert (Hok : struct_ok Candle) by exact (proj1 (Forall_lookup _ _) structs_ok 2%nat Candle eq_refl).
    destruct (layout_sound Candle Hok) as (_ & Hf & _). destruct (Hf i p Hi) as (_ & _ & Hd).
    assert (Ha : align p.2 = 8) by (do 6 (destruct i as [|i]; [by injection Hi as <-|]); done). rewrite Ha in *.
    apply Z.mod_divide in Hp as [k ->]; [|done]. destruct Hd as [m ->]. exists (k * 512 + 48 + slot * 6 + m). lia.
Qed.

Lemma shm_segment_layout_witness :
  ShmRing.slot_offset 2 + size_of Candle <= ShmRing.slot_offset 5 /\
  ShmRing.slot_offset 5 + size_of Candle <= ShmSys.mapping_size 8.
Proof.
  destruct (shm_segment_layout 8192 8 2 5 eq_refl ltac:(lia) ltac:(lia) ltac:(lia)) as (_ & _ & _ & _ & _ & H1 & H2).
  split; [exact H1|exact H2].
Defined.

(** The trade-off noted on [Candle]: with its 48-byte stride, from a 64-byte
    boundary, a candle crosses a 64-byte line exactly when its index is 1 or 2
    modulo 4, half of any four in a row. *)
Theorem candle_straddles base i :
  base mod 64 = 0 ->
  let first := base + i * size_of Candle in
  first / 64 <> (first + size_of Candle - 1) / 64 <-> i mod 4 = 1 \/ i mod 4 = 2.
Proof.
  intros Hb. change (size_of Candle) with 48. cbn zeta. apply Z.mod_divide in Hb as [k ->]; [|done].
  pose proof (Z.div_mod i 4 ltac:(done)) as Hi. pose proof (Z.mod_pos_bound i 4 ltac:(done)). set (q := i / 4) in *. set (m := i mod 4) in *.
  replace (k * 64 + i * 48) with (m * 48 + (k + q * 3) * 64) by lia.
  replace (m * 48 + (k + q * 3) * 64 + 48 - 1) with (m * 48 + 47 + (k + q * 3) * 64) by lia. rewrite !Z.div_add by done.
  assert (m = 0 \/ m = 1 \/ m = 2 \/ m = 3) as [E|[E|[E|E]]] by lia; rewrite E;
    repeat match goal with |- context [?a / 64] => let v := eval vm_compute in (a / 64) in change (a / 64) with v end; lia.
Qed.

(** The signal: 64 bytes, without padding of the compiler's. *)
Example signal_layout : size_of Signal = 64 /\ packed Signal = true /\ align_of Signal = 8.
Proof. done. Qed.

End Layout.
