(* ===== verification/ShmDemo.v ===== *)
(** * The shared-memory examples ([src/examples/shm_pipeline.rs],
      [shm_reader.rs], [reactive_latency.rs])

    [Module Pipeline] is the ingestion demo: [main] pushes its candles with
    the blocking [push], sleeps, stops and joins the ingester, queries the
    store and asserts that every candle is there.  [Module Latency] is what
    the reader computes from the latencies it measured.  [Module Reactive] is
    the wake-up demo over [wait_for_change].  Clock readings are arguments. *)

From S2P Require Import Prelude Float64 Candle RingBuffer Spsc Text Cold Store StoreSpec StoreCold Shm.
From stdpp Require Import sorting.

#[local] Open Scope Z_scope.

Module Pipeline.
Import ShmSys ShmRing.

Definition SHM_NAME : string := "/candlestore_pipeline".
Definition N : nat := Z.to_nat 50000.
Definition SHM_CAP : Z := 65536.
Definition SYMBOL : string := "BTCUSDT:1m".

(** [STORE_CAP], for a demo of [n] candles. *)
Definition STORE_CAP (n : nat) : nat := n + 1.

Definition make_candle (now_nanos : Z) : Candle :=
  mkCandle now_nanos (f_of_Z 50000) (f_of_Z 50100) (f_of_Z 49900) (f_of_Z 50050) f_one.

(** The main thread. *)
Inductive mpc : Type :=
| Pushing (todo : list Candle)    (* in [writer.push] of the first one *)
| Sleeping
| Stopping                        (* [ingester.stop()]: the flag is cleared, joining *)
| Querying
| Finished (count : nat).

Section demo.
Context {disk faults : Type} `{!ColdStorage disk faults}.
Context (fuel : nat) (w : ShmRingWriter) (r : ShmRingReader) (ts_start ts_end : Z).

Record demo : Type := mkDemo { ing : @Ingester.t disk; exited : bool; m_pc : mpc }.

Inductive event : Type := Main | Ingest (f : faults).

Definition ing_step (i : @Ingester.t disk) (e : @Ingester.event faults) : panics Ingester.t := Ingester.step fuel w r SYMBOL i e.

Definition step (s : demo) (e : event) : panics demo :=
  match e with
  | Ingest f =>
      if exited s then Some s
      else if Ingester.running (ing s) then i ← ing_step (ing s) (Ingester.Iterate f); Some (mkDemo i false (m_pc s))
      else Some (mkDemo (ing s) true (m_pc s))
  | Main =>
      match m_pc s with
      | Pushing [] => Some (mkDemo (ing s) (exited s) Sleeping)
      | Pushing (c :: todo) =>
          i ← ing_step (ing s) (Ingester.Produce c);
          Some (mkDemo i (exited s)
                  (if (length (Ingester.accepted i) =? length (Ingester.accepted (ing s)))%nat then Pushing (c :: todo) else Pushing todo))
      | Sleeping => i ← ing_step (ing s) Ingester.StopSignal; Some (mkDemo i (exited s) Stopping)
      | Stopping => Some (if exited s then mkDemo (ing s) true Querying else s)
      | Querying =>
          candles ← Store.range (Ingester.store (ing s)) (Ingester.disk_state (ing s)) SYMBOL (ts_start - 1) (ts_end + 1000000000);
          Some (mkDemo (ing s) (exited s) (Finished (length candles)))
      | Finished _ => Some s
      end
  end.

Fixpoint run (s : demo) (es : list event) : panics demo :=
  match es with
  | [] => Some s
  | e :: es' => s1 ← step s e; run s1 es'
  end.

(** [now_nanos] is read once per candle. *)
Definition init (sg : Segment) (d : disk) (readings : list Z) : demo :=
  mkDemo (Ingester.start sg (Store.with_capacity 1 (STORE_CAP (length readings))) d) false (Pushing (make_candle <$> readings)).
End demo.

Section proofs.
Context {disk faults : Type} `{!ColdStorage disk faults}.
Context (fuel : nat) (w : ShmRingWriter) (r : ShmRingReader) (ts_start ts_end : Z) (readings : list Z).
Hypothesis Hsorted : StronglySorted Z.le readings.
Hypothesis Hrange : Forall (fun t => 0 <= t /\ ts_start <= t <= ts_end) readings.

Abbreviation feed := (make_candle <$> readings).
Abbreviation ing_inv := (Ingester.inv 1 (STORE_CAP (length readings)) None w r SYMBOL).

Record inv (k : nat) (s : @demo disk) : Prop := {
  v_ing : exists n j, ing_inv n (ing s) j /\ (n <= k)%nat;
  v_left : match m_pc s with Pushing todo => Ingester.accepted (ing s) ++ todo = feed | _ => Ingester.accepted (ing s) = feed end;
  v_count : forall c, m_pc s = Finished c -> Ingester.popped (ing s) = Z.of_nat c;
  v_stopped : match m_pc s with Pushing _ | Sleeping => True | _ => Ingester.running (ing s) = false end
}.

Lemma feed_valid : Forall (fun c => is_valid c = true) feed.
Proof.
  apply Forall_fmap. eapply Forall_impl; [exact Hrange|]. intros t [Ht _]. unfold compose, make_candle, is_valid. cbn [ts open high low close volume].
  by rewrite (proj2 (Z.leb_le _ _) Ht).
Qed.

Lemma feed_sorted : ts_sorted feed.
Proof.
  clear Hrange. induction Hsorted as [|t l Hs IH Ht]; [apply ts_sorted_nil|]. intros [|i] [|j] a b Hij Ha Hb; try lia; cbn [fmap list_fmap] in *.
  - by simplify_eq/=.
  - simplify_eq/=. apply list_lookup_fmap_Some in Hb as (t' & -> & Ht'). cbn. exact (proj1 (Forall_lookup _ _) Ht _ _ Ht').
  - by apply (IH Hs i j a b); [lia|..].
Qed.

(** What the query sees: all that was popped. *)
Lemma query_counts n j i :
  ing_inv n i j -> Ingester.accepted i = feed ->
  exists candles, Store.range (Ingester.store i) (Ingester.disk_state i) SYMBOL (ts_start - 1) (ts_end + 1000000000) = Some candles /\
    Ingester.popped i = Z.of_nat (length candles).
Proof.
  intros [_ Hle Hpop _ Hcfg _ Href] Ha. rewrite Ha in *. set (l := take j feed) in *.
  assert (Hv : Forall (fun c => is_valid c = true) l) by (apply Forall_take, feed_valid).
  assert (Hlen : length l = j) by (unfold l; rewrite length_take; lia).
  assert (Hhot : Store.hot (Ingester.store i) SYMBOL = l).
  { rewrite (StoreSpec.fed_hot _ _ _ _ Href), (filter_keep _ l) by done. apply lastn_all. unfold STORE_CAP.
    rewrite Hlen. rewrite length_fmap in Hle. lia. }
  exists l. split; [|lia]. rewrite (StoreCold.refines_range _ _ _ SYMBOL _ _ Href); [|exact (f_equal LruCache.data_dir Hcfg)|].
  - rewrite Hhot, filter_keep; [done|]. apply Forall_take, Forall_fmap. eapply Forall_impl; [exact Hrange|].
    intros t [_ Ht]. unfold compose, in_window, make_candle. cbn [ts]. lia.
  - rewrite Hhot. intros a b x y Hab Hx Hy. apply lookup_take_Some in Hx as [Hx _]. apply lookup_take_Some in Hy as [Hy _].
    by apply (feed_sorted a b).
Qed.

Lemma pipeline_step k s e :
  inv k s -> Z.of_nat k + 1 < u64_max -> exists s', step (S fuel) w r ts_start ts_end s e = Some s' /\ inv (S k) s'.
Proof.
  intros [(n & j & Hi & Hn) Hl Hc Hst] Hk. assert (Hcap : (0 < STORE_CAP (length readings))%nat) by (unfold STORE_CAP; lia).
  assert (Hstep : forall ev, exists i j', ing_step (S fuel) w r (ing s) ev = Some i /\ ing_inv (S n) i j').
  { intros ev. apply (Ingester.ingester_step_inv fuel 1 _ None w r SYMBOL n (ing s) j ev Hcap Hi ltac:(lia)). }
  assert (Hkeep : forall s', ing s' = ing s -> exists n j, ing_inv n (ing s') j /\ (n <= S k)%nat) by (intros s' ->; exists n, j; split; [done|lia]).
  destruct e as [|f]; cbn [step].
  - destruct (m_pc s) as [[|c todo]| | | |count] eqn:Ep.
    + eexists. split; [done|]. split; cbn; auto; [by rewrite app_nil_r in Hl|done].
    + destruct (Hstep (Ingester.Produce c)) as (i & j' & E & Hi'). rewrite E. cbn [mbind option_bind]. eexists. split; [done|].
      unfold ing_step in E. cbn [Ingester.step] in E. destruct (try_push w _ c) as [[sg b]|]; [|done]. injection E as <-. cbn.
      split; cbn; [exists (S n), j'; split; [done|lia]|..].
      * destruct b; [|by rewrite Nat.eqb_refl]. rewrite length_app. simpl.
        rewrite (proj2 (Nat.eqb_neq _ _)) by lia. by rewrite <- app_assoc.
      * by destruct (_ =? _)%nat.
      * by destruct (_ =? _)%nat.
    + destruct (Hstep Ingester.StopSignal) as (i & j' & E & Hi'). rewrite E. cbn [mbind option_bind]. eexists. split; [done|].
      injection E as <-. split; cbn; try done. exists (S n), j'. split; [done|lia].
    + eexists. split; [done|]. destruct (exited s); (split; [by apply Hkeep|..]); cbn; rewrite ?Ep; done.
    + destruct (query_counts n j (ing s) Hi Hl) as (candles & -> & Hcnt). cbn [mbind option_bind]. eexists. split; [done|].
      split; cbn; auto. by intros c [= <-].
    + eexists. split; [done|]. split; [by apply Hkeep|..]; rewrite ?Ep; done.
  - destruct (exited s); [eexists; split; [done|]; split; [by apply Hkeep|done..]|]. destruct (Ingester.running (ing s)) eqn:Er.
    + destruct (Hstep (Ingester.Iterate f)) as (i & j' & E & Hi'). rewrite E. cbn [mbind option_bind]. eexists. split; [done|].
      assert (Ha : Ingester.accepted i = Ingester.accepted (ing s)).
      { unfold ing_step in E. cbn [Ingester.step] in E. rewrite Er in E. cbn [negb] in E.
        destruct (try_pop r _) as [[sg [c|]]|]; [| |done]; cbn [mbind option_bind] in E; [|by injection E as <-].
        destruct (Store.append _ _ _ _ _ _) as [[st d]|]; [|done]. by injection E as <-. }
      split; cbn; rewrite ?Ha; [exists (S n), j'; split; [done|lia]|done|..]; destruct (m_pc s); try done; congruence.
    + eexists. split; [done|]. split; [by apply Hkeep|exact Hl|exact Hc|cbn; by rewrite Er].
Qed.

Lemma pipeline_run es : forall k s,
  inv k s -> Z.of_nat k + Z.of_nat (length es) < u64_max ->
  exists s', run (S fuel) w r ts_start ts_end s es = Some s' /\ inv (k + length es) s'.
Proof.
  induction es as [|e es IH]; intros k s Hi Hk; cbn [run length] in *; [exists s; by rewrite Nat.add_0_r|].
  destruct (pipeline_step k s e Hi ltac:(lia)) as (s1 & -> & Hi1). cbn [mbind option_bind].
  replace (k + S (length es))%nat with (S k + length es)%nat by lia. apply IH; [done|lia].
Qed.

(** The ingestion demo, with a clock that does not go backwards and under
    any schedule of its two threads: nothing panics before the final
    assertion, the candles reach the ring all and in order, and the query at
    the end returns exactly the candles the ingester had popped when it was
    stopped.  So the assertion [count == N] holds exactly when the 100 ms
    sleep was long enough for the ingester to drain the ring. *)
Theorem pipeline_counts_drained sg (d : disk) es :
  attached w r sg [] -> Z.of_nat (length es) < u64_max ->
  exists s, run (S fuel) w r ts_start ts_end (init sg d readings) es = Some s /\
    (forall count, m_pc s = Finished count ->
       Ingester.accepted (ing s) = feed /\ Ingester.popped (ing s) = Z.of_nat count /\
       (count = length readings <-> depth (Ingester.seg (ing s)) = 0)).
Proof.
  intros Ha Hn. destruct (pipeline_run es 0 (init sg d readings)) as (s & Hrun & [(n & j & Hi & _) Hl Hc _]); [|lia|].
  - split; try done. exists 0%nat, 0%nat. split; [|done].
    by apply (Ingester.start_inv 1 (STORE_CAP (length readings)) None); [unfold STORE_CAP; lia|].
  - exists s. split; [done|]. intros count Ep. rewrite Ep in Hl. specialize (Hc count Ep). split_and!; [done..|].
    destruct Hi as [Hring Hle Hpop _ _ _ _]. rewrite Hl, length_fmap in *.
    pose proof (Spsc.occupancy _ _ (at_ring _ _ _ _ Hring)) as Hocc. cbn [Spsc.head Spsc.tail view] in Hocc.
    unfold depth. rewrite Hocc, length_drop, length_fmap. lia.
Qed.
End proofs.

(** Two candles; the ingester is stopped after one of them, or after both. *)
Section example.
#[local] Existing Instance StoreSpec.journal_cold.

Definition schedule (iterations : nat) : list (@event bool) :=
  [Main; Ingest false; Main; Main] ++ repeat (Ingest false) iterations ++ [Main; Ingest false; Main; Main].

Lemma pipeline_counts_drained_witness :
  exists s0 s1, run 1 demo_writer demo_reader 5 9 (init Ingester.empty_seg ([] : StoreSpec.journal) [5; 7]) (schedule 0) = Some s0 /\
    run 1 demo_writer demo_reader 5 9 (init Ingester.empty_seg ([] : StoreSpec.journal) [5; 7]) (schedule 1) = Some s1 /\
    m_pc s0 = Finished 1 /\ m_pc s1 = Finished 2 /\ depth (Ingester.seg (ing s1)) = 0.
Proof.
  assert (H1 : StronglySorted Z.le [5; 7]) by (repeat constructor; lia).
  assert (H2 : Forall (fun t => 0 <= t /\ 5 <= t <= 9) [5; 7]) by (repeat constructor; lia).
  destruct (pipeline_counts_drained 0 demo_writer demo_reader 5 9 [5; 7] H1 H2 Ingester.empty_seg ([] : StoreSpec.journal) (schedule 0)
    Ingester.empty_attached ltac:(by vm_compute)) as (s0 & R0 & _).
  destruct (pipeline_counts_drained 0 demo_writer demo_reader 5 9 [5; 7] H1 H2 Ingester.empty_seg ([] : StoreSpec.journal) (schedule 1)
    Ingester.empty_attached ltac:(by vm_compute)) as (s1 & R1 & C1).
  assert (E0 : m_pc <$> run 1 demo_writer demo_reader 5 9 (init Ingester.empty_seg ([] : StoreSpec.journal) [5; 7]) (schedule 0) = Some (Finished 1))
    by (vm_compute; reflexivity).
  assert (E1 : m_pc <$> run 1 demo_writer demo_reader 5 9 (init Ingester.empty_seg ([] : StoreSpec.journal) [5; 7]) (schedule 1) = Some (Finished 2))
    by (vm_compute; reflexivity).
  rewrite R0 in E0. rewrite R1 in E1. injection E0 as E0. injection E1 as E1.
  exists s0, s1. split_and!; [exact R0|exact R1|exact E0|exact E1|]. by apply (C1 2%nat E1).
Defined.
End example.
End Pipeline.

Module Latency.

(** [i64] and [u64] sums wrap in a release build. *)
Definition i64_wrap (z : Z) : Z := (z - i64_min) mod u64_modulus + i64_min.
Definition sum_i64 (l : list Z) : Z := fold_left (fun a x => i64_wrap (a + x)) l 0.
Definition sum_u64 (l : list Z) : Z := fold_left u64_wrapping_add l 0.

Definition sort_unstable (l : list Z) : list Z := merge_sort Z.le l.

(** ** [shm_reader.rs] *)

(** The body of the measuring loop, for the candle [pop] returned. *)
Definition latency (now_nanos : Z) (candle : Candle) : Z := i64_wrap (now_nanos - ts candle).

(** One clock reading per candle popped. *)
Definition latencies_ns (popped : list (Z * Candle)) : list Z := (fun x => latency x.1 x.2) <$> popped.

Definition p99_idx (n : Z) : Z := f_to_u64 (f_mul (f_of_Z n) (f_lit 99 100)).

Record summary : Type := mkSummary { min_ns : Z; avg_ns : Z; p99_ns : Z; max_ns : Z }.

Definition summarise (lat : list Z) : panics summary :=
  let n := length lat in
  let sorted := sort_unstable lat in
  lo ← sorted !! 0%nat;
  hi ← (if (n =? 0)%nat then None else sorted !! (n - 1)%nat);
  p99 ← sorted !! (Z.to_nat (p99_idx (Z.of_nat n)) `min` (n - 1))%nat;
  Some (mkSummary lo (Z.quot (sum_i64 sorted) (Z.of_nat n)) p99 hi).

(** ** [reactive_latency.rs] *)

Record wakeups : Type := mkWakeups { mean : Z; p50 : Z; p99 : Z; p999 : Z; w_max : Z }.

Definition wakeup_summary (lat : list Z) : panics wakeups :=
  let n := length lat in
  let latencies := sort_unstable lat in
  m50 ← latencies !! (n / 2)%nat;
  m99 ← latencies !! (n * 99 / 100)%nat;
  m999 ← latencies !! (n * 999 / 1000)%nat;
  mx ← last latencies;
  Some (mkWakeups (sum_u64 latencies / Z.of_nat n) m50 m99 m999 mx).

(** ** Order statistics *)

Lemma sorted_lookup (l : list Z) i j x y :
  StronglySorted Z.le l -> (i <= j)%nat -> l !! i = Some x -> l !! j = Some y -> x <= y.
Proof.
  intros Hs. revert i j. induction Hs as [|a l Hs IH Ha]; intros [|i] [|j] Hij Hx Hy; try done; try lia; simplify_eq/=; [lia| |].
  - exact (proj1 (Forall_lookup _ _) Ha _ _ Hy).
  - by apply (IH i j); [lia|..].
Qed.

Lemma sort_perm l : sort_unstable l ≡ₚ l.
Proof. apply merge_sort_Permutation. Qed.

Lemma sort_sorted l : StronglySorted Z.le (sort_unstable l).
Proof. apply StronglySorted_merge_sort; [|intros x y; lia]. intros x y z; lia. Qed.

(** The [i]th smallest of the samples: one of them, with more than [i]
    samples at or below it and at most [i] below it. *)
Record ranked (l : list Z) (i : nat) (x : Z) : Prop := {
  rk_in : x ∈ l;
  rk_above : (i < length (filter (fun y => (y <= x)%Z) l))%nat;
  rk_below : (length (filter (fun y => (y < x)%Z) l) <= i)%nat
}.

Lemma sort_ranked l i : (i < length l)%nat -> exists x, sort_unstable l !! i = Some x /\ ranked l i x.
Proof.
  intros Hi. pose proof (sort_perm l) as Hp. pose proof (sort_sorted l) as Hs. set (s := sort_unstable l) in *.
  destruct (lookup_lt_is_Some_2 s i) as [x Hx]; [by rewrite (Permutation_length Hp)|]. exists x. split; [done|].
  split; rewrite <- ?Hp; [by eapply list_elem_of_lookup_2|..]; rewrite <- (take_drop_middle s i x Hx), filter_app, length_app.
  - rewrite (filter_keep _ (take i s)), filter_cons_True by (try apply Forall_lookup; try lia; intros j y [Hy Hj]%lookup_take_Some;
      exact (sorted_lookup s j i y x Hs ltac:(lia) Hy Hx)).
    pose proof (lookup_lt_Some _ _ _ Hx). rewrite length_take. cbn [length]. lia.
  - rewrite (filter_drop_all _ (x :: drop (S i) s)).
    + pose proof (length_filter (fun y => y < x) (take i s)). rewrite length_take in *. cbn [length]. lia.
    + constructor; [lia|]. apply Forall_lookup. intros j y Hy. rewrite lookup_drop in Hy.
      pose proof (sorted_lookup s i (S i + j) x y Hs ltac:(lia) Hx Hy). lia.
Qed.

Definition within (lo hi : Z) (l : list Z) : Prop := Forall (fun x => lo <= x <= hi) l.

Lemma ranked_first l x : ranked l 0 x -> Forall (fun y => x <= y) l.
Proof.
  intros [_ _ Hb]. apply Forall_forall. intros y Hy. apply Z.nlt_ge. intros Hlt.
  assert (Hin : y ∈ filter (fun y => y < x) l) by (by apply list_elem_of_filter).
  destruct (filter _ l); [by apply elem_of_nil in Hin|]. cbn in Hb. lia.
Qed.

Lemma ranked_last l x : ranked l (length l - 1) x -> Forall (fun y => y <= x) l.
Proof.
  intros [Hx Ha _]. destruct (Forall_Exists_dec (fun y => y <= x) (fun y => ~ y <= x) (fun y => decide (y <= x)) l) as [H|H]; [done|].
  exfalso. apply Exists_exists in H as (y & Hy & Hn). apply list_elem_of_split in Hy as (l1 & l2 & ->).
  rewrite filter_app, filter_cons_False, length_app in Ha by done. rewrite length_app in Ha. cbn [length] in Ha.
  pose proof (length_filter (fun y => y <= x) l1). pose proof (length_filter (fun y => y <= x) l2). lia.
Qed.

Definition total (l : list Z) : Z := foldr Z.add 0 l.

Lemma total_within lo hi l : within lo hi l -> Z.of_nat (length l) * lo <= total l <= Z.of_nat (length l) * hi.
Proof. induction 1 as [|x l Hx Hl IH]; cbn [total foldr length] in *; [lia|]. unfold total in IH. nia. Qed.

#[local] Instance total_perm : Proper ((≡ₚ) ==> eq) total.
Proof. induction 1; cbn [total foldr] in *; unfold total in *; lia. Qed.

(** No partial sum leaves the type when the magnitudes add up within it. *)
Lemma i64_wrap_small z : is_i64 z -> i64_wrap z = z.
Proof. unfold is_i64, i64_wrap, i64_min, i64_max, u64_modulus. intros H. rewrite Z.mod_small; lia. Qed.

Lemma sum_i64_exact l : total (Z.abs <$> l) <= i64_max -> sum_i64 l = total l.
Proof.
  intros H. unfold sum_i64. enough (G : forall a, Z.abs a + total (Z.abs <$> l) <= i64_max ->
    fold_left (fun a x => i64_wrap (a + x)) l a = a + total l) by (rewrite G; lia).
  clear H. induction l as [|x l IH]; intros a Ha; cbn [fold_left total foldr fmap list_fmap] in *; [lia|].
  assert (0 <= total (Z.abs <$> l)) by (clear; induction l; cbn in *; unfold total in *; lia).
  unfold total in *. rewrite i64_wrap_small by (unfold is_i64, i64_min, i64_max in *; lia). rewrite IH; lia.
Qed.

Lemma quot_within s n lo hi : 0 < n -> n * lo <= s <= n * hi -> lo <= Z.quot s n <= hi.
Proof.
  intros Hn [Hl Hh]. split.
  - rewrite <- (Z.quot_mul lo n) by lia. apply Z.quot_le_mono; lia.
  - rewrite <- (Z.quot_mul hi n) by lia. apply Z.quot_le_mono; lia.
Qed.

(** What the reader prints about its samples: no index is out of range, the
    extremes are samples and bound all of them, the mean lies between them
    and the 99th percentile is the sample of its rank. *)
Lemma summarise_correct lat :
  lat <> [] -> total (Z.abs <$> lat) <= i64_max ->
  exists s, summarise lat = Some s /\ min_ns s ∈ lat /\ max_ns s ∈ lat /\ within (min_ns s) (max_ns s) lat /\
    min_ns s <= avg_ns s <= max_ns s /\ ranked lat (Z.to_nat (p99_idx (Z.of_nat (length lat))) `min` (length lat - 1)) (p99_ns s).
Proof.
  intros Hne Ht. assert (Hlen : (0 < length lat)%nat) by (destruct lat; cbn; [done|lia]).
  destruct (sort_ranked lat 0 Hlen) as (lo & El & Rl). destruct (sort_ranked lat (length lat - 1) ltac:(lia)) as (hi & Eh & Rh).
  destruct (sort_ranked lat (Z.to_nat (p99_idx (Z.of_nat (length lat))) `min` (length lat - 1))%nat ltac:(lia)) as (p & Ep & Rp).
  unfold summarise. rewrite El, Eh, Ep, (proj2 (Nat.eqb_neq _ _)) by lia. cbn [mbind option_bind]. eexists. split; [done|].
  cbn [min_ns max_ns avg_ns p99_ns].
  assert (Hw : within lo hi lat) by (apply Forall_and; split; [by apply ranked_first|by apply ranked_last]).
  split; [apply Rl|split; [apply Rh|split; [done|split; [|done]]]]. apply quot_within; [lia|].
  rewrite sum_i64_exact; rewrite sort_perm; [by apply total_within|done].
Qed.

(** The percentiles of the wake-up demo are samples of their ranks. *)
Lemma wakeup_summary_correct lat :
  lat <> [] ->
  exists s, wakeup_summary lat = Some s /\ ranked lat (length lat / 2) (p50 s) /\ ranked lat (length lat * 99 / 100) (p99 s) /\
    ranked lat (length lat * 999 / 1000) (p999 s) /\ ranked lat (length lat - 1) (w_max s).
Proof.
  intros Hne. assert (Hlen : (0 < length lat)%nat) by (destruct lat; cbn; [done|lia]).
  assert (Hd : forall a b, (0 < b)%nat -> (a < b)%nat -> (length lat * a / b < length lat)%nat) by (intros; apply Nat.Div0.div_lt_upper_bound; nia).
  destruct (sort_ranked lat (length lat / 2)) as (a & Ea & Ra); [specialize (Hd 1 2 ltac:(lia) ltac:(lia))%nat; by rewrite Nat.mul_1_r in Hd|].
  destruct (sort_ranked lat (length lat * 99 / 100)) as (b & Eb & Rb); [by apply Hd; lia|].
  destruct (sort_ranked lat (length lat * 999 / 1000)) as (c & Ec & Rc); [by apply Hd; lia|].
  destruct (sort_ranked lat (length lat - 1) ltac:(lia)) as (m & Em & Rm).
  unfold wakeup_summary. rewrite Ea, Eb, Ec, last_lookup. rewrite (Permutation_length (sort_perm lat)).
  replace (pred (length lat)) with (length lat - 1)%nat by lia. rewrite Em. cbn [mbind option_bind]. eexists. by split.
Qed.

(** Of the reader's five million samples the 99th percentile is the sample
    with rank 4,950,000. *)
Example p99_rank : p99_idx 5000000 = 4950000.
Proof. by vm_compute. Qed.
End Latency.

Module Reactive.

Definition N : nat := 200.
Definition SYMBOL : string := "BTC/USDT:1m".

Definition candle (ts : Z) : Candle := mkCandle ts (f_of_Z 100) (f_of_Z 101) (f_of_Z 99) (f_of_Z 100) f_one.

Section demo.
Context {disk faults : Type} `{!ColdStorage disk faults}.
Context (fuel : nat).

(** The store, how many candles the producer has appended, and the values
    [wait_for_change] has returned to the consumer, newest last. *)
Record demo : Type := mkDemo { store : Store.t; files : disk; appended : nat; seen : list Z }.

(** The consumer's [last]. *)
Definition last_seen (s : demo) : Z := default 0 (last (seen s)).

(** The producer's next turn, or one load of [wait_for_change]. *)
Inductive event : Type := Append (f : faults) | Look.

(** Both loops run [n] times ([N] in the demo). *)
Definition step (n : nat) (s : demo) (e : event) : panics demo :=
  match e with
  | Append f =>
      if (appended s <? n)%nat then
        '(st, d) ← Store.append fuel f (store s) (files s) SYMBOL (candle (Z.of_nat (appended s)));
        Some (mkDemo st d (S (appended s)) (seen s))
      else Some s
  | Look =>
      if (length (seen s) <? n)%nat then
        match Store.wait_for_change [Store.version (store s)] (last_seen s) with
        | Some v => Some (mkDemo (store s) (files s) (appended s) (seen s ++ [v]))
        | None => Some s
        end
      else Some s
  end.

Fixpoint run (n : nat) (s : demo) (es : list event) : panics demo :=
  match es with
  | [] => Some s
  | e :: es' => s1 ← step n s e; run n s1 es'
  end.

Definition init (d : disk) : demo := mkDemo (Store.new 1) d 0 [].

(** The thread [consumer.join()] waits for has left its loop. *)
Definition joined (n : nat) (s : demo) : bool := (length (seen s) =? n)%nat.
End demo.

Section proofs.
Context {disk faults : Type} `{!ColdStorage disk faults}.
Context (fuel : nat).

(** Increasing versions: each is at least its own position. *)
Fixpoint ahead (k : Z) (l : list Z) : Prop :=
  match l with [] => True | v :: l' => k < v /\ ahead v l' end.

Lemma ahead_snoc l : forall k v, ahead k l -> default k (last l) < v -> ahead k (l ++ [v]).
Proof. induction l as [|x l IH]; intros k v Ha Hv; [done|]. destruct Ha as [Hx Ha]. split; [done|]. apply IH; [done|]. rewrite last_cons in Hv. by destruct (last l). Qed.

Lemma ahead_last l : forall k, ahead k l -> k + Z.of_nat (length l) <= default k (last l).
Proof.
  induction l as [|x l IH]; intros k Ha; [cbn; lia|]. destruct Ha as [Hx Ha]. rewrite last_cons. specialize (IH x Ha).
  destruct (last l); cbn [from_option default length] in *; unfold id in *; lia.
Qed.

(** Nothing skipped: the last one is as small as it can be. *)
Lemma ahead_tight l : forall k, ahead k l -> default k (last l) = k + Z.of_nat (length l) -> l = seqZ (k + 1) (Z.of_nat (length l)).
Proof.
  induction l as [|x l IH]; intros k Ha Hl; [done|]. destruct Ha as [Hx Ha]. rewrite last_cons in Hl.
  assert (Hd : default x (last l) = k + Z.of_nat (length (x :: l))) by (by destruct (last l)).
  pose proof (ahead_last l x Ha). cbn [length] in *. rewrite seqZ_cons by lia.
  assert (x = k + 1) as -> by lia. f_equal. replace (Z.pred _) with (Z.of_nat (length l)) by lia. rewrite <- Z.add_1_r. apply IH; [done|lia].
Qed.

Record inv (n : nat) (s : @demo disk) : Prop := {
  v_appended : (appended s <= n)%nat;
  v_config : StoreSpec.config_of (store s) = LruCache.mkConfig 1 Store.DEFAULT_RING_CAPACITY None;
  v_tick : Store.tick (store s) <= Z.of_nat (appended s);
  v_version : 0 <= Store.version (store s) <= Z.of_nat (appended s);
  v_store : exists a, StoreSpec.refines (store s) a;
  v_seen : ahead 0 (seen s);
  v_last : last_seen s <= Store.version (store s)
}.

Lemma reactive_step n s e :
  inv n s -> Z.of_nat n < u64_max -> exists s', step (S fuel) n s e = Some s' /\ inv n s'.
Proof.
  intros [Ha Hc Ht Hv [a Href] Hs Hl] Hn. destruct e as [f|]; cbn [step].
  - destruct (Nat.ltb_spec (appended s) n) as [Hlt|]; [|by exists s; split; [|split; eauto]].
    destruct (StoreSpec.sim_append fuel f (store s) a (files s) SYMBOL (candle (Z.of_nat (appended s))) Href ltac:(lia))
      as (st & a' & d & rr & -> & _ & Href' & Hc' & Ht' & _ & Hv' & _). cbn [mbind option_bind].
    assert (Hv1 : Store.version (store s) <= Store.version st <= Store.version (store s) + 1).
    { rewrite Hv'. destruct (StoreSpec.is_ok rr); [rewrite fetch_add1_small by lia|]; lia. }
    eexists. split; [done|]. split; unfold last_seen in *; cbn; [lia|congruence|lia|lia|eauto|done|lia].
  - destruct (length (seen s) <? n)%nat; [|by exists s; split; [|split; eauto]]. cbn [Store.wait_for_change].
    destruct (Z.eqb_spec (Store.version (store s)) (last_seen s)) as [|Hne]; cbn [negb]; [by exists s; split; [|split; eauto]|].
    eexists. split; [done|]. unfold last_seen in *. split; cbn; eauto; [apply ahead_snoc; [done|lia]|].
    rewrite last_snoc. cbn. lia.
Qed.

Lemma reactive_run n es : forall s,
  inv n s -> Z.of_nat n < u64_max -> exists s', run (S fuel) n s es = Some s' /\ inv n s'.
Proof.
  induction es as [|e es IH]; intros s Hi Hn; cbn [run]; [by exists s|].
  destruct (reactive_step n s e Hi Hn) as (s1 & -> & H1). cbn [mbind option_bind]. by apply IH.
Qed.

Lemma init_inv n (d : disk) : inv n (init d).
Proof.
  split; cbn; try lia; try done. eexists. apply (StoreSpec.refines_open 1 Store.DEFAULT_RING_CAPACITY None). unfold Store.DEFAULT_RING_CAPACITY. lia.
Qed.

Lemma step_seen n s e s' : step (S fuel) n s e = Some s' -> exists l, seen s' = seen s ++ l.
Proof.
  destruct e as [f|]; cbn [step]; intros H.
  - destruct (_ <? _)%nat; [|injection H as <-; exists []; by rewrite app_nil_r].
    destruct (Store.append _ _ _ _ _ _) as [[st d]|]; [|done]. injection H as <-. exists []. cbn. by rewrite app_nil_r.
  - destruct (_ <? _)%nat; [|injection H as <-; exists []; by rewrite app_nil_r].
    destruct (Store.wait_for_change _ _); injection H as <-; [by eexists|exists []; by rewrite app_nil_r].
Qed.

Lemma run_seen n es : forall s s', run (S fuel) n s es = Some s' -> exists l, seen s' = seen s ++ l.
Proof.
  induction es as [|e es IH]; intros s s' H; cbn [run] in H; [injection H as <-; exists []; by rewrite app_nil_r|].
  destruct (step (S fuel) n s e) as [s1|] eqn:E; [|done]. destruct (step_seen _ _ _ _ E) as [l1 H1].
  destruct (IH _ _ H) as [l2 H2]. exists (l1 ++ l2). by rewrite H2, H1, app_assoc.
Qed.

(** The wake-up demo, under every interleaving of the producer's appends
    and the consumer's loads: nothing panics; the consumer gets its [n]
    samples only if it saw every version from 1 to [n] on its own; and as
    soon as one [wait_for_change] has skipped a version (two appends between
    two loads), no continuation whatever gives the consumer its last sample,
    so [consumer.join()] never returns. *)
Theorem reactive_needs_every_version n (d : disk) es s :
  Z.of_nat n < u64_max -> run (S fuel) n (init d) es = Some s ->
  (joined n s = true -> seen s = seqZ 1 (Z.of_nat n)) /\
  (Z.of_nat (length (seen s)) < last_seen s ->
   forall es', exists s', run (S fuel) n s es' = Some s' /\ joined n s' = false).
Proof.
  intros Hn Hrun. destruct (reactive_run n es (init d) (init_inv n d) Hn) as (s0 & E & Hi). rewrite Hrun in E. injection E as <-.
  assert (Hfull : forall s1, inv n s1 -> joined n s1 = true -> seen s1 = seqZ 1 (Z.of_nat n)).
  { intros s1 [Ha _ _ Hv _ Hs Hl] Hj. apply Nat.eqb_eq in Hj. rewrite <- Hj. apply (ahead_tight _ 0 Hs).
    pose proof (ahead_last _ _ Hs). unfold last_seen in Hl. lia. }
  split; [by apply Hfull|]. intros Hskip es'. destruct (reactive_run n es' s Hi Hn) as (s' & E & Hi'). exists s'. split; [done|].
  apply not_true_iff_false. intros Hj. specialize (Hfull s' Hi' Hj). destruct (run_seen n es' s s' E) as [l Hl]. rewrite Hl in Hfull.
  destruct (seen s) as [|x k _] eqn:Es using rev_ind; [unfold last_seen in Hskip; rewrite Es in Hskip; cbn in Hskip; lia|].
  unfold last_seen in Hskip. rewrite Es, last_snoc, length_app in Hskip. cbn in Hskip.
  assert (Hx : seqZ 1 (Z.of_nat n) !! length k = Some x) by (rewrite <- Hfull, <- app_assoc; by apply list_lookup_middle).
  apply lookup_seqZ in Hx. lia.
Qed.
End proofs.

(** Two appends before the consumer's first load: the first wait returns
    version 2 and the second one has nothing left to wait for. *)
Section example.
#[local] Existing Instance StoreSpec.journal_cold.

Definition coalesced : list (@event bool) := [Append false; Append false; Look].

Lemma reactive_needs_every_version_witness :
  exists s, run 1 2 (init ([] : StoreSpec.journal)) coalesced = Some s /\ seen s = [2] /\
    forall es', exists s', run 1 2 s es' = Some s' /\ joined 2 s' = false.
Proof.
  destruct (reactive_run 0 2 coalesced (init ([] : StoreSpec.journal)) (init_inv 2 _) ltac:(by vm_compute)) as (s & Hrun & _).
  destruct (reactive_needs_every_version 0 2 ([] : StoreSpec.journal) coalesced s ltac:(by vm_compute) Hrun) as [_ Hhang].
  assert (E : seen <$> run 1 2 (init ([] : StoreSpec.journal)) coalesced = Some [2]) by (vm_compute; reflexivity).
  rewrite Hrun in E. injection E as E. exists s. split_and!; [exact Hrun|exact E|]. apply Hhang. unfold last_seen. rewrite E. by vm_compute.
Defined.
End example.
End Reactive.
