(* ===== verification/Transfer.v ===== *)
(** * A producer thread and a consumer thread over one ring
      ([src/src/shm.rs], [src/examples/shm_writer.rs], [shm_reader.rs])

    [Class RingMem] is what the algorithm of the ring needs of the memory
    behind it: two cursors, slots reached through a cursor, and what a stalled
    [push] records.  The heap ring of [SpscRing] and the mapped segment of
    [ShmRingWriter] / [ShmRingReader] are its two instances.  [Module Threads]
    runs one producer in a loop of blocking [push]es and one consumer in a
    loop of blocking [pop]s, split at their atomic accesses and with stale
    cursor loads, against the interface only; its delivery theorem therefore
    holds of both rings.  [Module ShmPair] is the pair
    of example processes that has this shape; the tests of this shape are in
    [UnitThreads.v]. *)

From S2P Require Import Prelude Float64 Candle RingBuffer Spsc Text Cold Store StoreSpec Shm ShmDemo.

#[local] Open Scope Z_scope.

(** ** The interface *)

Class RingMem (M T : Type) : Type := {
  w_cap : M -> Z;                             (* the producer's copy of the capacity *)
  load_head : M -> Z;
  load_tail : M -> Z;
  store_head : M -> Z -> M;
  store_tail : M -> Z -> M;
  write_slot : M -> Z -> T -> panics M;       (* the slot a cursor selects *)
  read_slot : M -> Z -> panics T;
  on_stall : M -> M                           (* [push], once, when the first try fails *)
}.

(** What it promises: on well-formed memory the accesses are those of an
    abstract ring, slot accesses succeed, and everything stays well-formed. *)
Class RingMemLaws (M T : Type) `{!RingMem M T} : Type := {
  rm_ok : M -> Prop;
  rm_view : M -> Spsc.t T;
  rm_ok_shape m : rm_ok m ->
    (exists k, 0 <= k <= 63 /\ Spsc.capacity (rm_view m) = 2 ^ k) /\
    Z.of_nat (length (Spsc.slots (rm_view m))) = Spsc.capacity (rm_view m);
  rm_cap m : rm_ok m -> w_cap m = Spsc.capacity (rm_view m);
  rm_head m : load_head m = Spsc.head (rm_view m);
  rm_tail m : load_tail m = Spsc.tail (rm_view m);
  rm_store_head m v : rm_ok m -> rm_ok (store_head m v) /\ rm_view (store_head m v) = SpscConc.with_head (rm_view m) v;
  rm_store_tail m v : rm_ok m -> rm_ok (store_tail m v) /\ rm_view (store_tail m v) = SpscConc.with_tail (rm_view m) v;
  rm_write m cursor x : rm_ok m ->
    exists m', write_slot m cursor x = Some m' /\ rm_ok m' /\
      rm_view m' = SpscConc.with_slots (rm_view m)
        (<[Z.to_nat (Spsc.slot_of (Spsc.capacity (rm_view m)) cursor) := x]> (Spsc.slots (rm_view m)));
  rm_read m cursor : rm_ok m ->
    read_slot m cursor = Spsc.slots (rm_view m) !! Z.to_nat (Spsc.slot_of (Spsc.capacity (rm_view m)) cursor);
  rm_stall m : rm_ok m -> rm_ok (on_stall m) /\ rm_view (on_stall m) = rm_view m
}.

Module Threads.
Import SpscConc.

(** The producer: where it is in [push], the newest tail it has observed,
    whether the current [push] has failed once, what it still has to push and
    what it has published. *)
Record producer (T : Type) : Type := mkProducer {
  p_pc : wpc T; p_seen : Z; p_stalled : bool; p_todo : list T; p_pushed : list T
}.
Arguments mkProducer {T}. Arguments p_pc {T} _. Arguments p_seen {T} _. Arguments p_stalled {T} _.
Arguments p_todo {T} _. Arguments p_pushed {T} _.

(** The consumer: where it is in [pop], the newest head it has observed, how
    many items it still wants and those it has. *)
Record consumer (T : Type) : Type := mkConsumer { c_pc : rpc T; c_seen : Z; c_want : nat; c_got : list T }.
Arguments mkConsumer {T}. Arguments c_pc {T} _. Arguments c_seen {T} _. Arguments c_want {T} _. Arguments c_got {T} _.

Record pair (M T : Type) : Type := mkPair { mem : M; prod : producer T; cons : consumer T }.
Arguments mkPair {M T}. Arguments mem {M T} _. Arguments prod {M T} _. Arguments cons {M T} _.

(** An [Acquire] load that is [lag] stores behind, but never behind the last
    one observed. *)
Definition observe (seen newest : Z) (lag : nat) : Z := Z.max seen (newest - Z.of_nat lag).

(** Which thread runs, and how stale its cursor load is if it makes one. *)
Inductive event : Type := Writer (lag : nat) | Reader (lag : nat).

Section threads.
Context {M T : Type} `{!RingMem M T}.
Implicit Types s : pair M T.

Definition n_head s : Z := Z.of_nat (length (p_pushed (prod s))).
Definition n_tail s : Z := Z.of_nat (length (c_got (cons s))).

(** [for item in items { w.push(item) }], one atomic access at a time. *)
Definition writer (lag : nat) s : panics (pair M T) :=
  let p := prod s in
  match p_pc p, p_todo p with
  | WIdle, [] => Some s
  | WIdle, item :: _ =>
      let tail := observe (p_seen p) (n_tail s) lag in
      let head := load_head (mem s) in
      if w_cap (mem s) <=? u64_wrapping_sub head (u64_wrap tail) then
        Some (mkPair (if p_stalled p then mem s else on_stall (mem s))
                (mkProducer WIdle tail true (p_todo p) (p_pushed p)) (cons s))
      else Some (mkPair (mem s) (mkProducer (WChecked item head) tail (p_stalled p) (p_todo p) (p_pushed p)) (cons s))
  | WChecked item head, _ =>
      m ← write_slot (mem s) head item;
      Some (mkPair m (mkProducer (WWritten item head) (p_seen p) (p_stalled p) (p_todo p) (p_pushed p)) (cons s))
  | WWritten item head, todo =>
      Some (mkPair (store_head (mem s) (u64_wrapping_add head 1))
              (mkProducer WIdle (p_seen p) false (tail todo) (p_pushed p ++ [item])) (cons s))
  end.

(** [for _ in 0..n { r.pop() }]. *)
Definition reader (lag : nat) s : panics (pair M T) :=
  let c := cons s in
  match c_pc c with
  | RIdle =>
      if (c_want c =? 0)%nat then Some s
      else
        let head := observe (c_seen c) (n_head s) lag in
        let tail := load_tail (mem s) in
        Some (mkPair (mem s) (prod s)
                (mkConsumer (if u64_wrap head =? tail then RIdle else RChecked tail) head (c_want c) (c_got c)))
  | RChecked tail =>
      item ← read_slot (mem s) tail;
      Some (mkPair (mem s) (prod s) (mkConsumer (RRead item tail) (c_seen c) (c_want c) (c_got c)))
  | RRead item tail =>
      Some (mkPair (store_tail (mem s) (u64_wrapping_add tail 1)) (prod s)
              (mkConsumer RIdle (c_seen c) (c_want c - 1) (c_got c ++ [item])))
  end.

Definition step s (e : event) : panics (pair M T) :=
  match e with Writer lag => writer lag s | Reader lag => reader lag s end.

Fixpoint run s (es : list event) : panics (pair M T) :=
  match es with
  | [] => Some s
  | e :: es' => s1 ← step s e; run s1 es'
  end.

(** The two threads are spawned with [items] to transfer. *)
Definition start (m : M) (items : list T) : pair M T :=
  mkPair m (mkProducer WIdle 0 false items []) (mkConsumer RIdle 0 (length items) []).

(** Both loops are left: the threads can be joined. *)
Definition joined s : bool :=
  match p_pc (prod s), p_todo (prod s), c_pc (cons s), c_want (cons s) with
  | WIdle, [], RIdle, O => true
  | _, _, _, _ => false
  end.

(** A round in which each thread runs with an up-to-date view at least once. *)
Definition fair (round : list event) : Prop := In (Writer 0) round /\ In (Reader 0) round.


(** ** Simulation by the step relation of [Spsc.v] *)

Section proofs.
Context `{!RingMemLaws M T}.

Definition project s : conf T :=
  mkConf (rm_view (mem s)) (p_pc (prod s)) (c_pc (cons s)) (n_head s) (n_tail s)
    (p_seen (prod s)) (c_seen (cons s)) (p_pushed (prod s)) (c_got (cons s)).

(** What holds between any two accesses. *)
Record good (items : list T) s : Prop := {
  g_ok : rm_ok (mem s);
  g_inv : inv (project s);
  g_items : p_pushed (prod s) ++ p_todo (prod s) = items;
  g_want : (length (c_got (cons s)) + c_want (cons s))%nat = length items;
  g_pushing : match p_pc (prod s) with
              | WIdle => True
              | WChecked item _ | WWritten item _ => head (p_todo (prod s)) = Some item
              end;
  g_popping : c_pc (cons s) <> RIdle -> (0 < c_want (cons s))%nat
}.

Lemma observe_range seen newest lag : seen <= newest -> seen <= observe seen newest lag <= newest.
Proof. unfold observe. lia. Qed.

Lemma threads_good_step items s c' s' :
  good items s -> SpscConc.step (project s) c' -> project s' = c' -> rm_ok (mem s') ->
  p_pushed (prod s') ++ p_todo (prod s') = items ->
  (length (c_got (cons s')) + c_want (cons s'))%nat = length items ->
  match p_pc (prod s') with WIdle => True | WChecked item _ | WWritten item _ => head (p_todo (prod s')) = Some item end ->
  (c_pc (cons s') <> RIdle -> (0 < c_want (cons s'))%nat) -> good items s'.
Proof. intros Hg Hs <- Hok Hi Hw Hp Hr. split; try done. eapply step_inv; [apply (g_inv _ _ Hg)|done]. Qed.

(** The steps a thread still has to make. *)
Definition w_done (pc : wpc T) : nat := match pc with WIdle => 0 | WChecked _ _ => 1 | WWritten _ _ => 2 end.
Definition r_done (pc : rpc T) : nat := match pc with RIdle => 0 | RChecked _ => 1 | RRead _ _ => 2 end.
Definition work s : nat :=
  (3 * length (p_todo (prod s)) - w_done (p_pc (prod s))) + (3 * c_want (cons s) - r_done (c_pc (cons s))).

(** A failed try: only the observed cursors and the stall counter move. *)
Record still s s' : Prop := {
  st_w : p_pc (prod s') = p_pc (prod s);
  st_todo : p_todo (prod s') = p_todo (prod s);
  st_pushed : p_pushed (prod s') = p_pushed (prod s);
  st_r : c_pc (cons s') = c_pc (cons s);
  st_want : c_want (cons s') = c_want (cons s);
  st_got : c_got (cons s') = c_got (cons s);
  st_cap : Spsc.capacity (rm_view (mem s')) = Spsc.capacity (rm_view (mem s))
}.

Definition w_blocked s : Prop :=
  p_pc (prod s) = WIdle /\ (p_todo (prod s) = [] \/ Spsc.capacity (rm_view (mem s)) <= n_head s - n_tail s).
Definition r_blocked s : Prop := c_pc (cons s) = RIdle /\ (c_want (cons s) = 0%nat \/ n_head s = n_tail s).

#[local] Instance still_preorder : PreOrder still.
Proof. split; [done|]. intros x y z [] []. split; congruence. Qed.

Lemma still_work s s' : still s s' -> work s' = work s.
Proof. intros [H1 H2 _ H4 H5 _ _]. unfold work. by rewrite H1, H2, H4, H5. Qed.

Lemma still_blocked s s' : still s s' -> (w_blocked s' <-> w_blocked s) /\ (r_blocked s' <-> r_blocked s).
Proof. intros [H1 H2 H3 H4 H5 H6 H7]. unfold w_blocked, r_blocked, n_head, n_tail. by rewrite H1, H2, H3, H4, H5, H6, H7. Qed.

(** One access of a thread: it succeeds, keeps the invariant, and either
    completes work or was a failed try, which an up-to-date one is only when
    the thread is blocked. *)
Definition advances (items : list T) (blocked : Prop) (lag : nat) s (r : panics (pair M T)) : Prop :=
  exists s', r = Some s' /\ good items s' /\ ((work s' < work s)%nat \/ still s s' /\ (lag = 0%nat -> blocked)).

Lemma writer_advances items lag s : good items s -> advances items (w_blocked s) lag s (writer lag s).
Proof.
  intros Hg. pose proof Hg as [Hok Hinv Hit Hwant Hpu Hpo]. pose proof (cap_range _ Hinv) as Hcap. cbn in Hcap.
  pose proof Hinv as [_ _ Hh Ht Ho Hr _ _ _ Hw _]. cbn in Hh, Ht, Ho, Hr, Hw.
  unfold writer. destruct (p_pc (prod s)) as [|item h|item h] eqn:Epc.
  - destruct (p_todo (prod s)) as [|item todo] eqn:Etodo.
    { exists s. split_and!; [done|done|]. right. split; [done|]. intros _. split; auto. }
    pose proof (observe_range (p_seen (prod s)) (n_tail s) lag ltac:(lia)) as Hv.
    rewrite rm_head, (rm_cap _ Hok). cbn zeta. destruct (Z.leb_spec (Spsc.capacity (rm_view (mem s)))
      (u64_wrapping_sub (Spsc.head (rm_view (mem s))) (u64_wrap (observe (p_seen (prod s)) (n_tail s) lag)))) as [Hf|Hf].
    + set (m' := if p_stalled (prod s) then mem s else on_stall (mem s)).
      assert (Hm : rm_ok m' /\ rm_view m' = rm_view (mem s)) by (unfold m'; destruct (p_stalled _); [done|by apply rm_stall]).
      destruct Hm as [Hm1 Hm2]. eexists. split; [done|]. split.
      * eapply threads_good_step; [done|apply (w_check_full _ item (observe (p_seen (prod s)) (n_tail s) lag)); [done|done|done]|..]; cbn; try done.
        unfold project. cbn. by rewrite Hm2.
      * right. split; [split; cbn; congruence|]. intros ->. split; [done|]. right. rewrite Hh, Spsc.wrapping_sub_wrap in Hf by lia.
        unfold observe in Hf. lia.
    + eexists. split; [done|]. split.
      * eapply threads_good_step; [done|apply (w_check_space _ item (observe (p_seen (prod s)) (n_tail s) lag)); [done|done|done]|..]; done.
      * left. unfold work. cbn. rewrite Epc, Etodo. cbn. lia.
  - destruct (rm_write (mem s) h item Hok) as (m' & -> & Hm1 & Hm2). cbn. eexists. split; [done|]. split.
    + eapply threads_good_step; [done|apply (w_write _ item h); done|..]; cbn; try done. unfold project. cbn. by rewrite Hm2.
    + left. destruct (p_todo (prod s)) eqn:Etodo; [done|]. unfold work. cbn. rewrite Epc, Etodo. cbn. lia.
  - destruct (p_todo (prod s)) as [|x todo] eqn:Etodo; [done|]. injection Hpu as ->.
    destruct (rm_store_head (mem s) (u64_wrapping_add h 1) Hok) as [Hm1 Hm2]. eexists. split; [done|]. split.
    + eapply threads_good_step; [done|apply (w_publish _ item h); done|..]; cbn; try done; [|by rewrite <- Hit, <- app_assoc].
      unfold project, n_head, n_tail. cbn. rewrite Hm2, length_app. f_equal. cbn. lia.
    + left. unfold work. cbn. rewrite Epc, Etodo. cbn. lia.
Qed.

Lemma reader_advances items lag s : good items s -> advances items (r_blocked s) lag s (reader lag s).
Proof.
  intros Hg. pose proof Hg as [Hok Hinv Hit Hwant Hpu Hpo]. pose proof (cap_range _ Hinv) as Hcap. cbn in Hcap.
  pose proof Hinv as [_ _ Hh Ht Ho Hr _ _ Hd _ Hrd]. cbn in Hh, Ht, Ho, Hr, Hd, Hrd.
  unfold reader. destruct (c_pc (cons s)) as [|tl|item tl] eqn:Epc.
  - destruct (Nat.eqb_spec (c_want (cons s)) 0) as [E0|E0].
    { exists s. split_and!; [done|done|]. right. split; [done|]. intros _. split; auto. }
    pose proof (observe_range (c_seen (cons s)) (n_head s) lag ltac:(lia)) as Hv.
    rewrite rm_tail. cbn zeta. destruct (Z.eqb_spec (u64_wrap (observe (c_seen (cons s)) (n_head s) lag)) (Spsc.tail (rm_view (mem s)))) as [E|E].
    + eexists. split; [done|]. split.
      * eapply threads_good_step; [done|apply (r_check_empty _ (observe (c_seen (cons s)) (n_head s) lag)); done|..]; done.
      * right. split; [split; done|]. intros ->. split; [done|]. right. rewrite Ht in E. apply Spsc.wrap_inj in E; [|lia].
        unfold observe in E. lia.
    + eexists. split; [done|]. split.
      * eapply threads_good_step; [done|apply (r_check_some _ (observe (c_seen (cons s)) (n_head s) lag)); done|..]; cbn; try done. lia.
      * left. unfold work. cbn. rewrite Epc. cbn. lia.
  - specialize (Hpo ltac:(done)). destruct Hrd as [-> Hlt]. rewrite (rm_read _ _ Hok).
    pose proof (slot_of_cell _ (n_tail s) Hinv) as Hs. cbn in Hs. rewrite Hs.
    specialize (Hd (n_tail s) ltac:(lia)). unfold cell in Hd. cbn in Hd.
    destruct (lookup_lt_is_Some_2 (p_pushed (prod s)) (Z.to_nat (n_tail s))) as [item Hi]; [unfold n_head in *; lia|].
    rewrite Hd, Hi. cbn. eexists. split; [done|]. split.
    + eapply threads_good_step; [done|apply (r_read _ (u64_wrap (n_tail s)) item); [done|cbn; by rewrite Hs, Hd]|..]; done.
    + left. unfold work. cbn. rewrite Epc. cbn. lia.
  - specialize (Hpo ltac:(done)). destruct (rm_store_tail (mem s) (u64_wrapping_add tl 1) Hok) as [Hm1 Hm2]. eexists. split; [done|]. split.
    + eapply threads_good_step; [done|apply (r_release _ item tl); done|..]; cbn; try done; [|rewrite length_app; cbn; lia].
      unfold project, n_head, n_tail. cbn. rewrite Hm2, length_app. f_equal. cbn. lia.
    + left. unfold work. cbn. rewrite Epc. cbn. lia.
Qed.

Lemma step_advances items s e :
  good items s ->
  exists s', step s e = Some s' /\ good items s' /\
    ((work s' < work s)%nat \/ still s s' /\ (e = Writer 0 -> w_blocked s) /\ (e = Reader 0 -> r_blocked s)).
Proof.
  intros Hg. destruct e as [lag|lag]; cbn [step];
    [destruct (writer_advances items lag s Hg) as (s' & -> & Hg' & H)|destruct (reader_advances items lag s Hg) as (s' & -> & Hg' & H)];
    exists s'; (split; [done|]); (split; [done|]); (destruct H as [|[Hst Hb]]; [by left|]); right; split_and!; try done;
    intros [= ->]; auto.
Qed.

(** Two blocked threads are two finished threads: the ring cannot be full for
    the one and empty for the other. *)
Lemma both_blocked items s : good items s -> w_blocked s -> r_blocked s -> work s = 0%nat.
Proof.
  intros [Hok Hinv Hit Hwant _ _] [Hw Hfull] [Hr Hempty]. pose proof (cap_range _ Hinv) as Hcap. cbn in Hcap.
  pose proof (i_order _ Hinv) as Ho. cbn in Ho. unfold work, n_head, n_tail in *. rewrite Hw, Hr. cbn.
  apply (f_equal length) in Hit. rewrite length_app in Hit. destruct Hfull as [E|?]; [rewrite E in *|]; cbn [length] in *; lia.
Qed.

Lemma run_advances items es : forall s,
  good items s ->
  exists s', run s es = Some s' /\ good items s' /\
    ((work s' < work s)%nat \/ still s s' /\ (In (Writer 0) es -> w_blocked s) /\ (In (Reader 0) es -> r_blocked s)).
Proof.
  induction es as [|e es IH]; intros s Hg; cbn [run In].
  { exists s. split_and!; [done..|]. right. split_and!; [reflexivity|done..]. }
  destruct (step_advances items s e Hg) as (s1 & -> & Hg1 & H1). cbn [mbind option_bind].
  destruct (IH s1 Hg1) as (s2 & -> & Hg2 & H2). exists s2. split_and!; [done..|].
  destruct H1 as [H1|(Hst1 & HW1 & HR1)], H2 as [H2|(Hst2 & HW2 & HR2)].
  - left. lia.
  - left. rewrite (still_work _ _ Hst2). done.
  - left. by rewrite <- (still_work _ _ Hst1).
  - right. destruct (still_blocked _ _ Hst1) as [HbW HbR]. split_and!; [by transitivity s1|..].
    + intros [->|Hin]; [by apply HW1|by apply HbW, HW2].
    + intros [->|Hin]; [by apply HR1|by apply HbR, HR2].
Qed.

Lemma threads_run_app s es1 es2 : run s (es1 ++ es2) = s1 ← run s es1; run s1 es2.
Proof. revert s. induction es1 as [|e es1 IH]; intros s; cbn; [done|]. destruct (step s e); cbn; [apply IH|done]. Qed.

(** Every fair round completes some of the work, while any is left. *)
Lemma run_rounds items rounds : forall s,
  good items s -> Forall fair rounds ->
  exists s', run s (concat rounds) = Some s' /\ good items s' /\ (work s' <= work s - length rounds)%nat.
Proof.
  induction rounds as [|es rounds IH]; intros s Hg Hf; cbn [concat length].
  { exists s. split_and!; [done..|]. lia. }
  apply Forall_cons in Hf as [[HW HR] Hf]. rewrite threads_run_app.
  destruct (run_advances items es s Hg) as (s1 & -> & Hg1 & H1). cbn [mbind option_bind].
  destruct (IH s1 Hg1 Hf) as (s2 & -> & Hg2 & H2). exists s2. split_and!; [done..|].
  destruct H1 as [H1|(Hst & HbW & HbR)]; [lia|].
  pose proof (both_blocked items s Hg (HbW HW) (HbR HR)). rewrite (still_work _ _ Hst) in H2. lia.
Qed.

Lemma start_good m items :
  rm_ok m -> load_head m = 0 -> load_tail m = 0 -> good items (start m items).
Proof.
  intros Hok Hh Ht. rewrite rm_head in Hh. rewrite rm_tail in Ht. destruct (rm_ok_shape m Hok) as [Hk Hs].
  split; cbn; try done. split; cbn; try done; try lia.
  - destruct Hk as (k & Hk & E). rewrite E.
    unfold n_head, start. cbn. pose proof (Spsc.pow2_range k Hk). lia.
  - intros i. unfold n_tail, n_head, start. cbn. lia.
Qed.

(** What the invariant says of the items. *)
Lemma good_prefix items s : good items s -> c_got (cons s) = take (length (c_got (cons s))) items.
Proof.
  intros [_ Hinv Hit _ _ _]. pose proof (i_popped _ Hinv) as Hpo. pose proof (i_order _ Hinv) as Ho. cbn in Hpo, Ho.
  unfold n_head, n_tail in *. rewrite Nat2Z.id in Hpo. rewrite <- Hit, take_app_le by lia. done.
Qed.

Lemma good_idle items s : good items s -> work s = 0%nat -> joined s = true /\ c_got (cons s) = items.
Proof.
  intros Hg Hw. pose proof (good_prefix items s Hg) as Hp. destruct Hg as [_ Hinv Hit Hwant Hpu Hpo]. unfold work in Hw. unfold joined.
  assert (Hz : p_todo (prod s) = [] /\ c_want (cons s) = 0%nat).
  { destruct (p_todo (prod s)), (c_want (cons s)), (p_pc (prod s)), (c_pc (cons s)); cbn in Hw; try lia; done. }
  destruct Hz as [Hz1 Hz2]. rewrite Hz1, Hz2 in *. split.
  - destruct (p_pc (prod s)); [|done..]. destruct (c_pc (cons s)); [done|..]; specialize (Hpo ltac:(done)); lia.
  - rewrite Hp. apply take_ge. lia.
Qed.

End proofs.
End threads.

(** ** What the threads achieve, whatever memory is behind the ring *)

Section delivery.
Context {M T : Type} `{!RingMem M T} `{!RingMemLaws M T}.

(** Safety, under every schedule and every staleness of the loads: no access
    panics or leaves the memory, what was received is a prefix of what was
    sent, and the memory stays well-formed. *)
Lemma transfer_safe (m : M) (items : list T) es :
  rm_ok m -> load_head m = 0 -> load_tail m = 0 ->
  exists s, run (start m items) es = Some s /\ rm_ok (mem s) /\
    c_got (cons s) = take (length (c_got (cons s))) items.
Proof.
  intros Hok Hh Ht. destruct (run_advances items es _ (start_good m items Hok Hh Ht)) as (s & Hrun & Hg & _).
  exists s. split_and!; [done|apply (g_ok _ _ Hg)|by apply good_prefix].
Qed.

(** Liveness: six fair rounds per item. *)
Lemma transfer_live (m : M) (items : list T) rounds :
  rm_ok m -> load_head m = 0 -> load_tail m = 0 -> Forall fair rounds -> (6 * length items <= length rounds)%nat ->
  exists s, run (start m items) (concat rounds) = Some s /\ joined s = true /\ c_got (cons s) = items.
Proof.
  intros Hok Hh Ht Hf Hn. destruct (run_rounds items rounds _ (start_good m items Hok Hh Ht) Hf) as (s & Hrun & Hg & Hw).
  assert (Hw0 : work (start m items) = (6 * length items)%nat) by (unfold work, start; cbn; lia).
  destruct (good_idle items s Hg ltac:(lia)). by exists s.
Qed.

(** What no access of the ring touches stays as it was. *)
Lemma run_keeps {A} (f : M -> A) :
  (forall m v, f (store_head m v) = f m) -> (forall m v, f (store_tail m v) = f m) -> (forall m, f (on_stall m) = f m) ->
  (forall m c x m', write_slot m c x = Some m' -> f m' = f m) ->
  forall es s s', run s es = Some s' -> f (mem s') = f (mem s).
Proof.
  intros H1 H2 H3 H4 es. induction es as [|e es IH]; intros s s' H; cbn [run] in H; [by simplify_eq|].
  destruct (step s e) as [s1|] eqn:E; [|done]. cbn in H. rewrite (IH _ _ H). clear H.
  destruct e as [lag|lag]; cbn [step] in E; unfold writer, reader in E.
  - destruct (p_pc (prod s)), (p_todo (prod s)); cbn zeta in E; try (destruct (_ <=? _)); try (destruct (p_stalled _));
      try (destruct (write_slot _ _ _) eqn:Ew; [|done]); cbn in E; simplify_eq/=; eauto.
  - destruct (c_pc (cons s)); [destruct (_ =? 0)%nat|destruct (read_slot _ _); [|done]|]; cbn in E; simplify_eq/=; eauto.
Qed.

End delivery.
End Threads.

(** ** The heap ring *)

Section heap.
Context {T : Type}.

Definition heap_write (s : Spsc.t T) (cursor : Z) (item : T) : panics (Spsc.t T) :=
  let slot := Z.to_nat (Spsc.slot_of (Spsc.capacity s) cursor) in
  if (slot <? length (Spsc.slots s))%nat then Some (SpscConc.with_slots s (<[slot := item]> (Spsc.slots s))) else None.

#[export] Instance heap_mem : RingMem (Spsc.t T) T := {
  w_cap := Spsc.capacity;
  load_head := Spsc.head;
  load_tail := Spsc.tail;
  store_head := SpscConc.with_head;
  store_tail := SpscConc.with_tail;
  write_slot := heap_write;
  read_slot s cursor := Spsc.slots s !! Z.to_nat (Spsc.slot_of (Spsc.capacity s) cursor);
  on_stall s := s
}.

(** Run without interruption, the accesses are [try_push] and [try_pop]. *)
Lemma heap_accesses (s : Spsc.t T) x :
  Spsc.try_push s x =
    (if w_cap s <=? u64_wrapping_sub (load_head s) (load_tail s) then Some (s, false)
     else s' ← write_slot s (load_head s) x; Some (store_head s' (u64_wrapping_add (load_head s) 1), true)) /\
  Spsc.try_pop s =
    (if load_head s =? load_tail s then Some (s, None)
     else item ← read_slot s (load_tail s); Some (store_tail s (u64_wrapping_add (load_tail s) 1), Some item)).
Proof.
  unfold Spsc.try_push, Spsc.try_pop. cbn [heap_mem w_cap load_head load_tail write_slot store_head]. unfold heap_write. split; [|done].
  destruct (_ <=? _); [done|]. by destruct (_ <? _)%nat.
Qed.

Definition heap_ok (s : Spsc.t T) : Prop :=
  (exists k, 0 <= k <= 63 /\ Spsc.capacity s = 2 ^ k) /\ Z.of_nat (length (Spsc.slots s)) = Spsc.capacity s.

Lemma heap_slot_range (s : Spsc.t T) cursor : heap_ok s -> 0 <= Spsc.slot_of (Spsc.capacity s) cursor < Spsc.capacity s.
Proof.
  intros [(k & Hk & E) _]. rewrite E, Spsc.slot_of_mod by lia. apply Z.mod_pos_bound. pose proof (Spsc.pow2_range k Hk). lia.
Qed.

Lemma heap_write_ok (s : Spsc.t T) cursor x :
  heap_ok s ->
  exists s', heap_write s cursor x = Some s' /\ heap_ok s' /\
    s' = SpscConc.with_slots s (<[Z.to_nat (Spsc.slot_of (Spsc.capacity s) cursor) := x]> (Spsc.slots s)).
Proof.
  intros Hok. pose proof (heap_slot_range s cursor Hok). destruct Hok as [Hk Hs]. unfold heap_write.
  rewrite (proj2 (Nat.ltb_lt _ _)) by lia. eexists. split_and!; [done| |done]. split; [done|]. cbn. by rewrite length_insert.
Qed.

#[export] Instance heap_laws : RingMemLaws (Spsc.t T) T.
Proof. refine {| rm_ok := heap_ok; rm_view s := s; rm_write := heap_write_ok |}; done. Defined.

End heap.

(** ** The mapped ring *)

(** The two ends and the segment they share. *)
Record Mapped : Type := mkMapped { m_writer : ShmSys.ShmRingWriter; m_reader : ShmSys.ShmRingReader; m_seg : ShmRing.Segment }.

Section mapped.
Import ShmSys ShmRing.

Definition with_seg (m : Mapped) (seg : Segment) : Mapped := mkMapped (m_writer m) (m_reader m) seg.

Definition mapped_write (m : Mapped) (cursor : Z) (candle : Candle) : panics Mapped :=
  let slot := Spsc.slot_of (w_capacity (m_writer m)) cursor in
  i ← slot_at (w_map_size (m_writer m)) (slot_offset slot);
  if (i <? length (slots (m_seg m)))%nat
  then Some (with_seg m (mkSegment (header (m_seg m)) (<[i := candle]> (slots (m_seg m))))) else None.

Definition mapped_read (m : Mapped) (cursor : Z) : panics Candle :=
  let slot := Spsc.slot_of (r_capacity (m_reader m)) cursor in
  i ← slot_at (r_map_size (m_reader m)) (slot_offset slot);
  slots (m_seg m) !! i.

#[export] Instance mapped_mem : RingMem Mapped Candle := {
  w_cap m := w_capacity (m_writer m);
  load_head m := hhead (header (m_seg m));
  load_tail m := htail (header (m_seg m));
  store_head m v := with_seg m (mkSegment (set_head (header (m_seg m)) v) (slots (m_seg m)));
  store_tail m v := with_seg m (mkSegment (set_tail (header (m_seg m)) v) (slots (m_seg m)));
  write_slot := mapped_write;
  read_slot := mapped_read;
  on_stall m := mkMapped (count_full (m_writer m)) (m_reader m) (m_seg m)
}.

Lemma mapped_accesses (m : Mapped) x :
  try_push (m_writer m) (m_seg m) x =
    (if w_cap m <=? u64_wrapping_sub (load_head m) (load_tail m) then Some (m_seg m, false)
     else m' ← write_slot m (load_head m) x; Some (m_seg (store_head m' (u64_wrapping_add (load_head m) 1)), true)) /\
  try_pop (m_reader m) (m_seg m) =
    (if load_head m =? load_tail m then Some (m_seg m, None)
     else item ← read_slot m (load_tail m); Some (m_seg (store_tail m (u64_wrapping_add (load_tail m) 1)), Some item)).
Proof.
  unfold try_push, try_pop. cbn [mapped_mem w_cap load_head load_tail write_slot read_slot store_head store_tail].
  unfold mapped_write, mapped_read. split.
  - destruct (_ <=? _); [done|]. destruct (slot_at _ _); [|done]. cbn [mbind option_bind]. by destruct (_ <? _)%nat.
  - destruct (_ =? _); [done|]. by destruct (slot_at _ _).
Qed.

Record mapped_ok (m : Mapped) : Prop := {
  mo_cap : r_capacity (m_reader m) = w_capacity (m_writer m);
  mo_size_w : w_map_size (m_writer m) = mapping_size (w_capacity (m_writer m));
  mo_size_r : r_map_size (m_reader m) = mapping_size (w_capacity (m_writer m));
  mo_bound : w_capacity (m_writer m) <= 2 ^ 57;
  mo_shape : heap_ok (view (w_capacity (m_writer m)) (m_seg m))
}.

(** A slot access through either end lands on the slot the mask selects. *)
Lemma mapped_slot m cursor :
  mapped_ok m ->
  slot_at (mapping_size (w_capacity (m_writer m))) (slot_offset (Spsc.slot_of (w_capacity (m_writer m)) cursor)) =
    Some (Z.to_nat (Spsc.slot_of (w_capacity (m_writer m)) cursor)).
Proof.
  intros [_ _ _ Hb Hs]. pose proof (heap_slot_range _ cursor Hs) as Hr. cbn in Hr. apply slot_in_mapping; lia.
Qed.

Lemma mapped_ok_ends m w r seg :
  mapped_ok m -> w_capacity w = w_capacity (m_writer m) -> w_map_size w = w_map_size (m_writer m) -> r = m_reader m ->
  length (slots seg) = length (slots (m_seg m)) -> mapped_ok (mkMapped w r seg).
Proof.
  intros [H1 H2 H3 H4 [H5 H6]] E1 E2 -> E3. split; cbn in *; try congruence. split; cbn; rewrite E1; [done|congruence].
Qed.

Lemma mapped_write_ok m cursor x :
  mapped_ok m ->
  exists m', mapped_write m cursor x = Some m' /\ mapped_ok m' /\
    view (w_capacity (m_writer m')) (m_seg m') = SpscConc.with_slots (view (w_capacity (m_writer m)) (m_seg m))
      (<[Z.to_nat (Spsc.slot_of (w_capacity (m_writer m)) cursor) := x]> (slots (m_seg m))).
Proof.
  intros Hok. pose proof (mapped_slot m cursor Hok) as Hsl. pose proof (heap_slot_range _ cursor (mo_shape m Hok)) as Hr.
  pose proof (proj2 (mo_shape m Hok)) as Hs. cbn in *. unfold mapped_write. rewrite (mo_size_w m Hok), Hsl. cbn [mbind option_bind].
  rewrite (proj2 (Nat.ltb_lt _ _)) by lia. eexists. split; [done|]. split; [|done].
  eapply mapped_ok_ends; try done. cbn. by rewrite length_insert.
Qed.

Lemma mapped_read_ok m cursor :
  mapped_ok m -> mapped_read m cursor = slots (m_seg m) !! Z.to_nat (Spsc.slot_of (w_capacity (m_writer m)) cursor).
Proof.
  intros Hok. unfold mapped_read. by rewrite (mo_cap m Hok), (mo_size_r m Hok), (mapped_slot m cursor Hok).
Qed.

#[export] Instance mapped_laws : RingMemLaws Mapped Candle.
Proof.
  refine {| rm_ok := mapped_ok; rm_view m := view (w_capacity (m_writer m)) (m_seg m);
            rm_write := mapped_write_ok; rm_read := mapped_read_ok; rm_ok_shape := mo_shape |};
    try done; intros m; intros; (split; [by eapply mapped_ok_ends|done]).
Defined.

(** What the writer's drop acts on. *)
Definition owner (m : Mapped) : Z * Z * string := (w_ptr (m_writer m), w_map_size (m_writer m), w_name (m_writer m)).

Lemma run_keeps_owner es (s s' : Threads.pair Mapped Candle) :
  Threads.run s es = Some s' -> owner (Threads.mem s') = owner (Threads.mem s).
Proof.
  apply (Threads.run_keeps owner); try done. intros m c x m' E. cbn in E. unfold mapped_write in E.
  destruct (slot_at _ _); [|done]. cbn [mbind option_bind] in E. destruct (_ <? _)%nat; by simplify_eq.
Qed.

Lemma attached_ok w r seg : attached w r seg [] -> mapped_ok (mkMapped w r seg).
Proof. intros [H1 H2 H3 H4 Hm]. split; try done. split; [apply (Spsc.m_cap _ _ Hm)|apply (Spsc.m_slots _ _ Hm)]. Qed.

End mapped.

(** C13. One producer in a loop of blocking [push]es and one consumer in a loop
    of blocking [pop]s, over any memory that keeps the ring's interface (the
    heap ring and the mapped segment do), with the accesses interleaved in any
    order and every cursor load as stale as release/acquire allows: nothing
    panics or leaves the memory and what was received is always a prefix of
    what was sent; and once each thread has run with an up-to-date view in six
    rounds per item, both loops have ended and the consumer has exactly the
    items, in order. *)
Theorem ring_delivers {M T} `{!RingMem M T} `{!RingMemLaws M T} (m : M) (items : list T) es rounds :
  rm_ok m -> load_head m = 0 -> load_tail m = 0 -> Forall Threads.fair rounds -> (6 * length items <= length rounds)%nat ->
  (exists s, Threads.run (Threads.start m items) es = Some s /\ rm_ok (Threads.mem s) /\
     Threads.c_got (Threads.cons s) = take (length (Threads.c_got (Threads.cons s))) items) /\
  (exists s, Threads.run (Threads.start m items) (concat rounds) = Some s /\ Threads.joined s = true /\
     Threads.c_got (Threads.cons s) = items).
Proof. intros. split; [by apply Threads.transfer_safe|by apply Threads.transfer_live]. Qed.

(** The heap ring of one slot, and a mapped ring of one slot whose reader
    lags. *)
Definition demo_round : list Threads.event := [Threads.Reader 3; Threads.Writer 0; Threads.Reader 0].

Lemma ring_delivers_witness :
  (exists s, Threads.run (Threads.start (Spsc.mkSpsc [0] 1 0 0) [7; 8; 9]) (concat (replicate 18 demo_round)) = Some s /\
     Threads.c_got (Threads.cons s) = [7; 8; 9]) /\
  (exists s, Threads.run (Threads.start (mkMapped ShmRing.demo_writer ShmRing.demo_reader Ingester.empty_seg) (ShmRing.cndl <$> [1; 2]))
       (concat (replicate 12 demo_round)) = Some s /\
     Threads.c_got (Threads.cons s) = ShmRing.cndl <$> [1; 2]).
Proof.
  assert (Hf : forall n, Forall Threads.fair (replicate n demo_round)).
  { intros n. apply Forall_replicate. split; simpl; auto. }
  split.
  - destruct (ring_delivers (Spsc.mkSpsc [0] 1 0 0) [7; 8; 9] [] (replicate 18 demo_round)) as [_ (s & H1 & _ & H2)];
      [by split; [exists 0|]|done|done|apply Hf|rewrite length_replicate; simpl; lia|exists s; split; [exact H1|exact H2]].
  - destruct (ring_delivers (mkMapped ShmRing.demo_writer ShmRing.demo_reader Ingester.empty_seg) (ShmRing.cndl <$> [1; 2]) []
      (replicate 12 demo_round)) as [_ (s & H1 & _ & H2)];
      [apply attached_ok, Ingester.empty_attached|done|done|apply Hf|rewrite length_replicate; simpl; lia|exists s; split; [exact H1|exact H2]].
Defined.

(** ** The two example processes *)

Module ShmPair.
Import ShmSys ShmRing.

Definition SHM_NAME : string := "/candlestore_demo".
Definition CAPACITY : Z := 65536.
Definition N : Z := 5000000.

(** The loop body of [shm_writer]: one clock reading per candle. *)
Definition make_candle (now_nanos : Z) : Candle :=
  mkCandle now_nanos (f_of_Z 100) (f_of_Z 101) (f_of_Z 99) (f_lit 1005 10) f_one.

(** The start of [shm_writer]: [create] and its [expect]. *)
Definition writer_setup (e : env) : panics (list syscall * ShmHeader * ShmRingWriter) :=
  '(tr, h, w) ← create SHM_NAME CAPACITY e;
  match h, w with Some h, Ok w => Some (tr, h, w) | _, _ => None end.

(** What one attempt of [shm_reader] to open the segment meets, and whether
    the deadline has passed when it failed. *)
Record attempt : Type := mkAttempt { a_env : env; a_obs : list (Z * bool); a_header_capacity : Z; a_expired : bool }.

Inductive outcome : Type :=
| Connected (r : ShmRingReader)
| Exit (code : Z).

(** The retry loop of [shm_reader]; [Some None] while it is still trying. *)
Fixpoint connect (attempts : list attempt) : panics (option (list syscall * outcome)) :=
  match attempts with
  | [] => Some None
  | a :: attempts' =>
      res ← open_reader SHM_NAME CAPACITY (a_env a) (a_obs a) (a_header_capacity a);
      match res with
      | None => Some None
      | Some (tr, Ok r) => Some (Some (tr, Connected r))
      | Some (tr, Err _) =>
          if a_expired a then Some (Some (tr, Exit 1))
          else rest ← connect attempts'; Some ('(tr', o) ← rest; Some (tr ++ tr', o))
      end
  end.

(** The measuring loop of [shm_reader] on the candles popped: one clock
    reading after each. *)
Definition measure (clock : list Z) (got : list Candle) : list Z := Latency.latencies_ns (zip clock got).

(** The end of [shm_writer]: [drop(writer)]. *)
Definition writer_exit (w : ShmRingWriter) : list syscall := drop_writer w.

(** ** Set-up *)

Lemma setup_inv e tr h w :
  writer_setup e = Some (tr, h, w) ->
  create_inner SHM_NAME CAPACITY false e = Some (tr, Some h, Ok w) /\ w_capacity w = CAPACITY /\ w_name w = SHM_NAME /\
  hcapacity h = CAPACITY /\ hhead h = 0 /\ htail h = 0.
Proof.
  unfold writer_setup, create, create_inner. change (Spsc.is_power_of_two CAPACITY) with true.
  change (cstring SHM_NAME) with (Some SHM_NAME). cbn [negb]. intros H.
  destruct (e_shm_open e), (e_ftruncate e), (e_mmap e); cbn in H; by simplify_eq.
Qed.

Lemma connect_inv attempts tr r :
  connect attempts = Some (Some (tr, Connected r)) ->
  exists a tr', In a attempts /\
    open_reader SHM_NAME CAPACITY (a_env a) (a_obs a) (a_header_capacity a) = Some (Some (tr', Ok r)).
Proof.
  revert tr. induction attempts as [|a attempts IH]; intros tr H; cbn [connect] in H; [done|].
  destruct (open_reader _ _ _ _ _) as [[[tr0 [r0|e0]]|]|] eqn:E; cbn [mbind option_bind] in H; try done.
  - simplify_eq. exists a, tr. split; [by left|done].
  - destruct (a_expired a); [done|]. destruct (connect attempts) as [[[tr1 o]|]|]; [|done..]. cbn in H. simplify_eq.
    destruct (IH _ eq_refl) as (a' & tr' & Hin & Ha'). exists a', tr'. split; [by right|done].
Qed.

(** The reader's capacity check ties the two ends together. *)
Lemma pair_attached e tr h w attempts tr' r sl :
  writer_setup e = Some (tr, h, w) -> connect attempts = Some (Some (tr', Connected r)) ->
  Z.of_nat (length sl) = CAPACITY -> attached w r (mkSegment h sl) [].
Proof.
  intros Hw Hr Hl. destruct (setup_inv e tr h w Hw) as (Hc & _ & _ & Hh & _). destruct (connect_inv _ _ _ Hr) as (a & tr1 & _ & Ho).
  destruct (shm_open_agrees _ _ _ _ _ _ _ Ho) as (_ & Ha & _).
  eapply create_open_attached; [|exact Hc|rewrite Hh; rewrite Ha in Ho; exact Ho|done]. done.
Qed.

(** The retry loop ends with the first attempt that succeeds or finds the
    deadline passed. *)
Lemma connect_ends attempts :
  Forall (fun a => wait_ready (a_obs a) <> None) attempts -> Exists (fun a => a_expired a = true) attempts ->
  exists res, connect attempts = Some (Some res).
Proof.
  intros Hw Hx. induction attempts as [|a attempts IH]; [by apply Exists_nil in Hx|]. apply Forall_cons in Hw as [Ha Hw].
  cbn [connect]. assert (Ho : exists res, open_reader SHM_NAME CAPACITY (a_env a) (a_obs a) (a_header_capacity a) = Some (Some res)).
  { unfold open_reader. change (Spsc.is_power_of_two CAPACITY) with true. cbn [negb].
    destruct (cstring SHM_NAME), (e_shm_open (a_env a)), (e_mmap (a_env a)); eauto. destruct (wait_ready (a_obs a)) as [[]|]; [destruct (negb _)|..]; eauto. done. }
  destruct Ho as [[tr [r|er]] ->]; cbn [mbind option_bind]; [eauto|]. destruct (a_expired a) eqn:Ea; [eauto|].
  apply Exists_cons in Hx as [Hx|Hx]; [congruence|]. destruct (IH Hw Hx) as [[tr' o] ->]. cbn. eauto.
Qed.

Lemma measure_feed clock readings :
  measure clock (make_candle <$> readings) = zip_with (fun now t => Latency.i64_wrap (now - t)) clock readings.
Proof.
  unfold measure, Latency.latencies_ns. revert readings. induction clock as [|t clock IH]; intros [|x readings]; try done.
  cbn. f_equal. apply IH.
Qed.

(** The two example processes: the reader's retry loop ends by the
    deadline at the latest; and when the writer has created the segment and
    the reader has connected to it, then after six fair rounds per candle,
    whatever the schedule and the segment's old contents, the reader has
    received every candle in order, its samples are its clock readings minus
    the writer's, one per candle, and the statistics it prints index in range
    and are ordered; the writer's exit unmaps its mapping once and unlinks the
    name. *)
Theorem shm_pair_delivers e tr h w attempts sl readings clock rounds :
  writer_setup e = Some (tr, h, w) ->
  Forall (fun a => wait_ready (a_obs a) <> None) attempts -> Exists (fun a => a_expired a = true) attempts ->
  Z.of_nat (length sl) = CAPACITY -> length clock = length readings -> readings <> [] ->
  Forall Threads.fair rounds -> (6 * length readings <= length rounds)%nat ->
  exists tr' o, connect attempts = Some (Some (tr', o)) /\
    forall r, o = Connected r ->
    exists s lat, Threads.run (Threads.start (mkMapped w r (mkSegment h sl)) (make_candle <$> readings)) (concat rounds) = Some s /\
      Threads.joined s = true /\
      lat = zip_with (fun now t => Latency.i64_wrap (now - t)) clock readings /\
      measure clock (Threads.c_got (Threads.cons s)) = lat /\
      (Latency.total (Z.abs <$> lat) <= i64_max ->
       exists sm, Latency.summarise lat = Some sm /\ Latency.min_ns sm <= Latency.avg_ns sm <= Latency.max_ns sm /\
         Latency.min_ns sm <= Latency.p99_ns sm <= Latency.max_ns sm) /\
      writer_exit (m_writer (Threads.mem s)) = [Munmap (w_ptr w) (mapping_size CAPACITY); ShmUnlink SHM_NAME].
Proof.
  intros Hw Hobs Hexp Hl Hcl Hne Hf Hn. destruct (connect_ends attempts Hobs Hexp) as [[tr' o] Hc]. exists tr', o. split; [done|].
  intros r ->. pose proof (pair_attached e tr h w attempts tr' r sl Hw Hc Hl) as Ha.
  destruct (setup_inv e tr h w Hw) as (_ & Hcap & Hname & _ & Hh & Ht).
  destruct (Threads.transfer_live (mkMapped w r (mkSegment h sl)) (make_candle <$> readings) rounds) as (s & Hrun & Hj & Hgot);
    [by apply attached_ok|done|done|done|by rewrite length_fmap|].
  eexists s, _. split; [exact Hrun|]. split; [exact Hj|]. split; [done|]. rewrite Hgot, measure_feed. split; [done|]. split.
  - intros Htot. assert (Hlat : zip_with (fun now t => Latency.i64_wrap (now - t)) clock readings <> []) by (by destruct clock, readings).
    destruct (Latency.summarise_correct _ Hlat Htot) as (sm & E & _ & _ & Hwi & Havg & Hp).
    exists sm. split; [done|]. split; [done|]. exact (proj1 (Forall_forall _ _) Hwi _ (Latency.rk_in _ _ _ Hp)).
  - pose proof (run_keeps_owner _ _ _ Hrun) as Hk.
    cbn in Hk. injection Hk as E1 E2 E3. unfold writer_exit, drop_writer. rewrite E1, E2, E3, Hname, (at_size_w _ _ _ _ Ha), Hcap. done.
Qed.

(** Two candles of latency 3 and 4, on the second attempt to open. *)
Lemma shm_pair_delivers_witness :
  let e := mkEnv (Ok 3) None (Ok 4096) in
  let attempts := [mkAttempt (mkEnv (Err 2) None (Ok 0)) [(READY_MAGIC, false)] 0 false;
                   mkAttempt (mkEnv (Ok 5) None (Ok 8192)) [(0, false); (READY_MAGIC, false)] CAPACITY true] in
  exists tr h w tr' r s, writer_setup e = Some (tr, h, w) /\ connect attempts = Some (Some (tr', Connected r)) /\
    Threads.run (Threads.start (mkMapped w r (mkSegment h (replicate (Z.to_nat CAPACITY) candle_default))) (make_candle <$> [10; 20]))
      (concat (replicate 12 demo_round)) = Some s /\
    measure [13; 24] (Threads.c_got (Threads.cons s)) = [3; 4].
Proof.
  intros e attempts. set (sl := replicate (Z.to_nat CAPACITY) candle_default).
  assert (Hs : writer_setup e = Some ([ShmOpen SHM_NAME true true; Ftruncate 3 3146112; Mmap 3 3146112; Close 3],
    mkHeader READY_MAGIC CAPACITY 0 0, mkWriter 4096 3146112 SHM_NAME CAPACITY 0)) by (vm_compute; reflexivity).
  assert (Hc : connect attempts = Some (Some ([ShmOpen SHM_NAME false false; ShmOpen SHM_NAME false false; Mmap 5 3146112; Close 5],
    Connected (mkReader 8192 3146112 CAPACITY)))) by (vm_compute; reflexivity).
  assert (Hl : Z.of_nat (length sl) = CAPACITY) by (unfold sl; rewrite length_replicate; apply Z2Nat.id; discriminate).
  clearbody sl.
  destruct (shm_pair_delivers e _ _ _ attempts sl [10; 20] [13; 24] (replicate 12 demo_round) Hs) as (tr' & o & Hc' & H);
    [repeat constructor; discriminate|apply Exists_cons_tl, Exists_cons_hd; reflexivity|exact Hl|reflexivity|discriminate
    |apply Forall_replicate; split; simpl; auto|simpl; lia|].
  rewrite Hc in Hc'. injection Hc' as <- <-. destruct (H _ eq_refl) as (s & lat & Hrun & _ & -> & Hm & _).
  eexists _, _, _, _, _, s. split; [exact Hs|]. split; [exact Hc|]. split; [exact Hrun|exact Hm].
Defined.

End ShmPair.
