(* ===== verification/Signals.v ===== *)
(** * Trading signals ([src/src/signal.rs])

    The fixed-size [Signal] record with its 24-byte symbol buffer, the strict
    and the lossy constructor and the decoders.  Strings are their UTF-8
    bytes; [from_utf8] is the standard validity check, so that the lossy
    constructor's byte truncation is modelled for every symbol. *)

From S2P Require Import Prelude Float64.

#[local] Open Scope Z_scope.

Module Signals.

Definition MAX_SIGNAL_SYMBOL_LEN : nat := 23.

Inductive SignalError : Type :=
| SymbolTooLong (len max : nat)
| NonFiniteField (qty price : f64).

Inductive Side : Type := Buy | Sell.

(** [side as u8]. *)
Definition side_u8 (s : Side) : Z := match s with Buy => 0 | Sell => 1 end.

Record Signal : Type := mkSignal {
  s_ts : Z;
  s_symbol : list Z;      (* [u8; 24] *)
  s_side : Z;             (* u8 *)
  s_qty : f64;
  s_price : f64;
  s_strategy : Z
}.

(** A symbol as bytes: a [&str] is valid UTF-8. *)
Definition cont (b : Z) : bool := (128 <=? b) && (b <=? 191).
Definition between (lo hi b : Z) : bool := (lo <=? b) && (b <=? hi).

(** [std::str::from_utf8] succeeds. *)
Fixpoint utf8_valid (l : list Z) : bool :=
  match l with
  | [] => true
  | b0 :: l1 =>
      if between 0 127 b0 then utf8_valid l1
      else if between 194 223 b0 then
        match l1 with b1 :: l2 => cont b1 && utf8_valid l2 | _ => false end
      else if between 224 239 b0 then
        match l1 with
        | b1 :: b2 :: l3 =>
            (if b0 =? 224 then between 160 191 b1 else if b0 =? 237 then between 128 159 b1 else cont b1) &&
            cont b2 && utf8_valid l3
        | _ => false
        end
      else if between 240 244 b0 then
        match l1 with
        | b1 :: b2 :: b3 :: l4 =>
            (if b0 =? 240 then between 144 191 b1 else if b0 =? 244 then between 128 143 b1 else cont b1) &&
            cont b2 && cont b3 && utf8_valid l4
        | _ => false
        end
      else false
  end.

(** A 24-byte buffer starting with [bytes], zero after. *)
Definition symbol_buffer (bytes : list Z) : list Z := bytes ++ replicate (24 - length bytes) 0.

(** [Signal::try_new]. *)
Definition try_new (ts : Z) (symbol : list Z) (side : Side) (qty price : f64) (strategy : Z) : result Signal SignalError :=
  if (MAX_SIGNAL_SYMBOL_LEN <? length symbol)%nat then Err (SymbolTooLong (length symbol) MAX_SIGNAL_SYMBOL_LEN)
  else if negb (f_is_finite qty) || negb (f_is_finite price) then Err (NonFiniteField qty price)
  else Ok (mkSignal ts (symbol_buffer symbol) (side_u8 side) qty price strategy).

(** [Signal::new]. *)
Definition new (ts : Z) (symbol : list Z) (side : Side) (qty price : f64) (strategy : Z) : Signal :=
  let len := (length symbol `min` MAX_SIGNAL_SYMBOL_LEN)%nat in
  mkSignal ts (symbol_buffer (take len symbol)) (side_u8 side) qty price strategy.

(** [position(|&b| b == 0)]. *)
Fixpoint until_zero (l : list Z) : list Z :=
  match l with
  | [] => []
  | b :: l' => if b =? 0 then [] else b :: until_zero l'
  end.

(** [Signal::symbol_str]. *)
Definition symbol_str (s : Signal) : list Z :=
  let bytes := until_zero (s_symbol s) in
  if utf8_valid bytes then bytes else [].

(** [Signal::side]. *)
Definition side (s : Signal) : Side := if s_side s =? 0 then Buy else Sell.

(** ** Lemmas *)

Lemma until_zero_buffer bytes :
  Forall (fun b => b <> 0) bytes -> (length bytes < 24)%nat -> until_zero (symbol_buffer bytes) = bytes.
Proof.
  intros Hnz Hlen. unfold symbol_buffer.
  destruct (24 - length bytes)%nat as [|k] eqn:E; [lia|]. clear E Hlen. simpl.
  induction Hnz as [|b l Hb Hl IH]; simpl; [done|]. destruct (Z.eqb_spec b 0); [done|]. by rewrite IH.
Qed.

Lemma side_roundtrip s ts sym q p k : side (mkSignal ts sym (side_u8 s) q p k) = s.
Proof. by destruct s. Qed.

(** ** Claims *)

(** Signals round trip: the strict constructor accepts exactly symbols
    of at most 23 bytes with finite quantity and price, and then the
    decoders give back the symbol (any UTF-8 text without NUL) and the side
    it was built with, in a buffer of exactly 24 bytes whose last byte is
    the NUL terminator. *)
Theorem signal_roundtrip ts symbol sd qty price strategy :
  utf8_valid symbol = true -> Forall (fun b => b <> 0) symbol ->
  (forall s, try_new ts symbol sd qty price strategy = Ok s ->
     symbol_str s = symbol /\ side s = sd /\ length (s_symbol s) = 24%nat /\ last (s_symbol s) = Some 0 /\
     s_qty s = qty /\ s_price s = price /\ f_is_finite qty = true /\ f_is_finite price = true) /\
  ((length symbol <= 23)%nat -> f_is_finite qty = true -> f_is_finite price = true ->
     try_new ts symbol sd qty price strategy = Ok (new ts symbol sd qty price strategy)).
Proof.
  intros Hu Hnz. split.
  - unfold try_new, MAX_SIGNAL_SYMBOL_LEN. intros s H. destruct (Nat.ltb_spec 23 (length symbol)); [done|].
    destruct (f_is_finite qty) eqn:Eq; [|done]. destruct (f_is_finite price) eqn:Ep; [|done]. simpl in H. simplify_eq.
    unfold symbol_str. simpl. rewrite until_zero_buffer, Hu by (done || lia).
    split_and!; try done; [by destruct sd| |].
    + unfold symbol_buffer. rewrite length_app, length_replicate. lia.
    + unfold symbol_buffer. destruct (24 - length symbol)%nat as [|k] eqn:E; [lia|].
      rewrite last_app. rewrite replicate_S_end, last_snoc. done.
  - intros Hl Hq Hp. unfold try_new, new, MAX_SIGNAL_SYMBOL_LEN. destruct (Nat.ltb_spec 23 (length symbol)); [lia|].
    rewrite Hq, Hp. simpl. by rewrite Nat.min_l, take_ge by lia.
Qed.

Lemma signal_roundtrip_witness :
  exists s, try_new 7 [66; 84; 67] Sell f_one f_zero 1 = Ok s /\ symbol_str s = [66; 84; 67] /\ side s = Sell.
Proof.
  eexists. split; [reflexivity|].
  destruct (signal_roundtrip 7 [66; 84; 67] Sell f_one f_zero 1 eq_refl ltac:(repeat constructor; discriminate)) as [H _].
  destruct (H _ eq_refl) as (H1 & H2 & _). split; [exact H1|exact H2].
Defined.

(** The lossy constructor always yields a symbol of at most 23 bytes with
    a terminator, but when its cut splits a multi-byte character the decoded
    symbol is the empty string, not a truncated one. *)
Theorem signal_lossy_truncation ts symbol sd qty price strategy :
  Forall (fun b => b <> 0) symbol ->
  let s := new ts symbol sd qty price strategy in
  length (s_symbol s) = 24%nat /\ until_zero (s_symbol s) = take 23 symbol /\
  symbol_str s = (if utf8_valid (take 23 symbol) then take 23 symbol else []) /\
  (exists sym, utf8_valid sym = true /\ length sym = 24%nat /\ symbol_str (new ts sym sd qty price strategy) = []).
Proof.
  intros Hnz s. unfold s, new, MAX_SIGNAL_SYMBOL_LEN, symbol_str. cbn [s_symbol].
  replace (take (length symbol `min` 23) symbol) with (take 23 symbol).
  2: { destruct (Nat.le_ge_cases (length symbol) 23) as [H|H];
       [by rewrite Nat.min_l, !take_ge by lia|by rewrite Nat.min_r by lia]. }
  rewrite until_zero_buffer by (by apply Forall_take || (rewrite length_take; lia)).
  split_and!; try done.
  - unfold symbol_buffer. rewrite length_app, length_replicate, length_take. lia.
  - exists (replicate 22 65 ++ [195; 169]). split_and!; vm_compute; reflexivity.
Qed.

Lemma signal_lossy_truncation_witness :
  until_zero (s_symbol (new 0 (replicate 30 88) Buy f_one f_zero 0)) = take 23 (replicate 30 88).
Proof.
  refine (proj1 (proj2 (signal_lossy_truncation 0 (replicate 30 88) Buy f_one f_zero 0 _))).
  repeat constructor; discriminate.
Defined.

End Signals.
