(* ===== verification/Ffi.v ===== *)
(** * The C interface ([src/src/ffi.rs])

    Each entry point over the store it calls: pointers are [option]s ([None]
    is null), a C string is the list of its bytes before the terminator, the
    caller's output buffer is the list of its slots.  [ffi_guard] is the panic
    barrier: a panic of the body becomes the error value, and the store it may
    have left half-updated is [Unknown].  A call outside the documented
    pointer contract is undefined behaviour and not modelled. *)

From Stdlib Require Import Ascii.
From S2P Require Import Prelude Float64 Candle Text RingBuffer Cold Store StoreSpec Hw Signals.

#[local] Open Scope Z_scope.

Module Ffi.

(** [ffi_guard]. *)
Definition ffi_guard {T} (err : T) (body : panics T) : T := match body with Some x => x | None => err end.

(** [as c_int] on a 64-bit value. *)
Definition c_int (z : Z) : Z := (z + 2 ^ 31) mod 2 ^ 32 - 2 ^ 31.

(** [CStr::to_str]. *)
Definition to_str (bytes : list Z) : option string :=
  if Signals.utf8_valid bytes
  then Some (fold_right (fun b s => String (ascii_of_nat (Z.to_nat b)) s) EmptyString bytes)
  else None.

(** What a call did to the store behind the handle and to its disk. *)
Inductive effect (disk : Type) : Type :=
| Unchanged
| Became (st : Store.t) (d : disk)
| Unknown.
Arguments Unchanged {disk}.
Arguments Became {disk} st d.
Arguments Unknown {disk}.

(** [candlestore_new]. *)
Definition candlestore_new (max_symbols : Z) : option Store.t :=
  if max_symbols <=? 0 then None else ffi_guard None (Some (Some (Store.new max_symbols))).

(** [candlestore_new_hardware], on the profile detected. *)
Definition candlestore_new_hardware (p : Hw.HardwareProfile) (max_symbols : Z) : option Store.t :=
  if max_symbols <=? 0 then None else ffi_guard None (Some (Some (Hw.from_hardware p max_symbols))).

(** [candlestore_free]: the handle after the call. *)
Definition candlestore_free (ptr : option Store.t) : option Store.t := ffi_guard ptr (Some None).

(** [candlestore_symbol_count] and [candlestore_l3_cache_bytes]. *)
Definition candlestore_symbol_count (ptr : option Store.t) : Z :=
  match ptr with
  | None => -1
  | Some st => ffi_guard (-1) (Some (c_int (Z.of_nat (Store.symbol_count st))))
  end.

Definition candlestore_l3_cache_bytes (p : Hw.HardwareProfile) : Z := ffi_guard 0 (Some (Hw.l3_cache_bytes p)).

Section cold.
Context {disk faults : Type} `{!ColdStorage disk faults}.

(** [candlestore_append]. *)
Definition candlestore_append (fuel : nat) (f : faults) (ptr : option Store.t) (d : disk)
    (symbol : option (list Z)) (candle : Candle) : effect disk * Z :=
  match ptr, symbol with
  | None, _ | _, None => (Unchanged, -1)
  | Some st, Some bytes =>
      ffi_guard (Unknown, -1)
        (match to_str bytes with
         | None => Some (Unchanged, -1)
         | Some sym => '(st', d') ← Store.append fuel f st d sym candle; Some (Became st' d', 0)
         end)
  end.

(** The copy loop [*out.add(i) = *c], from slot [i]; [None] past the end of
    the buffer. *)
Fixpoint copy_out (out : list Candle) (i : nat) (cs : list Candle) : panics (list Candle) :=
  match cs with
  | [] => Some out
  | c :: cs' => if (i <? length out)%nat then copy_out (<[i := c]> out) (S i) cs' else None
  end.

(** [candlestore_range]: the buffer after the call and the code returned. *)
Definition candlestore_range (ptr : option Store.t) (d : disk) (symbol : option (list Z)) (from_ts to_ts : Z)
    (out : option (list Candle)) (max_len : Z) : option (list Candle) * Z :=
  match ptr, symbol, out with
  | Some st, Some bytes, Some buf =>
      if max_len <? 0 then (out, -1)
      else
        ffi_guard (out, -1)
          (match to_str bytes with
           | None => Some (out, -1)
           | Some sym =>
               candles ← Store.range st d sym from_ts to_ts;
               let count := (length candles `min` Z.to_nat max_len)%nat in
               buf' ← copy_out buf 0 (take count candles);
               Some (Some buf', c_int (Z.of_nat count))
           end)
  | _, _, _ => (out, -1)
  end.

(** A caller's session on one handle: appends, in order, with the codes they
    return; it stops at an [Unknown] store. *)
Fixpoint session (fuel : nat) (st : Store.t) (d : disk) (calls : list (faults * option (list Z) * Candle))
    : panics (Store.t * disk * list Z) :=
  match calls with
  | [] => Some (st, d, [])
  | (f, symbol, candle) :: calls' =>
      let '(eff, code) := candlestore_append fuel f (Some st) d symbol candle in
      '(st1, d1) ← match eff with Unchanged => Some (st, d) | Became st1 d1 => Some (st1, d1) | Unknown => None end;
      '(st2, d2, codes) ← session fuel st1 d1 calls';
      Some (st2, d2, code :: codes)
  end.

(** ** Lemmas *)

Lemma c_int_small z : 0 <= z < 2 ^ 31 -> c_int z = z.
Proof. intros H. unfold c_int. rewrite Z.mod_small; lia. Qed.

Lemma copy_out_spec cs out i :
  (i + length cs <= length out)%nat ->
  copy_out out i cs = Some (take i out ++ cs ++ drop (i + length cs) out).
Proof.
  revert out i. induction cs as [|c cs IH]; intros out i H; cbn [copy_out length] in *.
  - rewrite Nat.add_0_r. cbn [app]. by rewrite take_drop.
  - rewrite (proj2 (Nat.ltb_lt i (length out))) by lia. rewrite IH by (rewrite length_insert; lia).
    rewrite insert_take_drop by lia.
    assert (Ht : length (take i out) = i) by (rewrite length_take; lia).
    change (c :: drop (S i) out) with ([c] ++ drop (S i) out). rewrite (app_assoc (take i out)).
    rewrite take_app_length' by (rewrite length_app; simpl; lia).
    rewrite (drop_app_ge _ _ (S i + length cs)) by (rewrite length_app; simpl; lia).
    rewrite length_app, Ht, drop_drop, <- app_assoc. cbn [length app]. do 5 f_equal. lia.
Qed.

(** [CandleStore::range] answers on every well-formed store, sorted or not. *)
Lemma range_total st a (d : disk) sym from_ts to_ts :
  StoreSpec.refines st a -> exists out, Store.range st d sym from_ts to_ts = Some out.
Proof.
  intros [Hwf _]. unfold Store.range.
  assert (Hh : exists hot, match Store.map st !! sym with
    | Some entry => RingBuffer.range (Store.e_buf entry) from_ts to_ts | None => Some [] end = Some hot).
  { destruct (Store.map st !! sym) as [e|] eqn:He; [|by eexists].
    destruct (Store.w_entries st Hwf sym e He) as [Hr _ _ _ _].
    destruct (RingBuffer.range_slice (Store.e_buf e) Hr from_ts to_ts) as (k & m & ->). by eexists. }
  destruct Hh as [hot ->]. cbn [mbind option_bind]. repeat case_match; by eexists.
Qed.

(** The appends of a session that reach the store. *)
Fixpoint reaching (calls : list (faults * option (list Z) * Candle)) : list (faults * string * Candle) :=
  match calls with
  | [] => []
  | (f, symbol, candle) :: calls' =>
      match symbol ≫= to_str with
      | Some sym => (f, sym, candle) :: reaching calls'
      | None => reaching calls'
      end
  end.

Definition code_of (call : faults * option (list Z) * Candle) : Z :=
  match call.1.2 ≫= to_str with Some _ => 0 | None => -1 end.

Lemma session_runs fuel calls st a (d : disk) :
  StoreSpec.refines st a -> Store.tick st + Z.of_nat (length calls) <= u64_max ->
  exists st' d' a' rs, session (S fuel) st d calls = Some (st', d', code_of <$> calls) /\
    LruCache.run (StoreSpec.config_of st) a d (reaching calls) = (a', d', rs) /\ StoreSpec.refines st' a'.
Proof.
  revert st a d. induction calls as [|[[f symbol] c] calls IH]; intros st a d Href Ht; cbn [length] in Ht.
  { by exists st, d, a, []. }
  cbn [session reaching fmap list_fmap]. unfold candlestore_append, code_of at 1. cbn [fst snd].
  destruct symbol as [bytes|]; cbn [mbind option_bind]; [destruct (to_str bytes) as [sym|]|].
  - destruct (StoreSpec.sim_append fuel f st a d sym c Href ltac:(lia)) as (st1 & a1 & d1 & r & Hp & Hab & Href1 & Hcfg & Htk & _).
    rewrite Hp. cbn [mbind option_bind ffi_guard].
    destruct (IH st1 a1 d1 Href1 ltac:(lia)) as (st2 & d2 & a2 & rs & Hs & Hr & Href2).
    rewrite Hs. exists st2, d2, a2, (r :: rs). cbn [LruCache.run]. rewrite Hab, <- Hcfg, Hr. done.
  - destruct (IH st a d Href ltac:(lia)) as (st2 & d2 & a2 & rs & Hs & Hr & Href2). cbn [ffi_guard mbind option_bind].
    rewrite Hs. by exists st2, d2, a2, rs.
  - destruct (IH st a d Href ltac:(lia)) as (st2 & d2 & a2 & rs & Hs & Hr & Href2). cbn [ffi_guard mbind option_bind].
    rewrite Hs. by exists st2, d2, a2, rs.
Qed.

(** What [candlestore_range] returns and writes. *)
Lemma range_writes st a (d : disk) symbol from_ts to_ts buf max_len out' code :
  StoreSpec.refines st a -> max_len <= Z.of_nat (length buf) -> max_len < 2 ^ 31 ->
  candlestore_range (Some st) d symbol from_ts to_ts (Some buf) max_len = (out', code) ->
  match symbol ≫= to_str with
  | Some sym =>
      if max_len <? 0 then out' = Some buf /\ code = -1
      else exists candles, Store.range st d sym from_ts to_ts = Some candles /\
        code = Z.min (Z.of_nat (length candles)) max_len /\
        out' = Some (take (Z.to_nat code) candles ++ drop (Z.to_nat code) buf)
  | None => out' = Some buf /\ code = -1
  end.
Proof.
  intros Href Hlen Hmax H. unfold candlestore_range in H. destruct symbol as [bytes|]; cbn [mbind option_bind]; [|by simplify_eq].
  destruct (Z.ltb_spec max_len 0) as [Hneg|Hpos]; [destruct (to_str bytes); by simplify_eq|].
  destruct (to_str bytes) as [sym|]; cbn [ffi_guard] in H; [|by simplify_eq].
  destruct (range_total st a d sym from_ts to_ts Href) as [candles Hr].
  rewrite Hr in *. cbn [mbind option_bind] in H. exists candles. split; [done|].
  set (count := (length candles `min` Z.to_nat max_len)%nat) in *.
  assert (Hcl : length (take count candles) = count) by (rewrite length_take; lia).
  rewrite copy_out_spec in H by (rewrite Hcl; lia). rewrite Hcl in H. cbn in H. rewrite c_int_small in H by lia. simplify_eq.
  split; [lia|]. by rewrite Nat2Z.id.
Qed.

(** ** Claims *)

(** C36. The C interface upholds its contract on every handle it hands out
    ([candlestore_new] and [candlestore_new_hardware] both, for any positive
    symbol count and any hardware profile): over a whole session of appends no
    panic reaches the barrier, each call returns 0 or -1 exactly as its symbol
    is a UTF-8 string or not, the rejected calls leave the store alone, and
    the store ends as the LRU cache fed the accepted ones. *)
Theorem ffi_session_contract fuel p max_symbols (hw : bool) (d : disk) calls :
  0 < max_symbols -> Z.of_nat (length calls) <= u64_max ->
  exists st0 st' d' a rs,
    (if hw then candlestore_new_hardware p max_symbols else candlestore_new max_symbols) = Some st0 /\
    session (S fuel) st0 d calls = Some (st', d', code_of <$> calls) /\
    LruCache.run (StoreSpec.config_of st0) [] d (reaching calls) = (a, d', rs) /\
    (forall sym n, Store.last_n st' sym n = Some (lastn n (default [] (LruCache.lookup sym a)))) /\
    candlestore_symbol_count (Some st') = c_int (Z.of_nat (length a)).
Proof.
  intros Hm Hn.
  assert (Hopen : exists cap, (0 < cap)%nat /\
    (if hw then candlestore_new_hardware p max_symbols else candlestore_new max_symbols) = Some (Store.open_store max_symbols cap None)).
  { unfold candlestore_new_hardware, candlestore_new. rewrite (proj2 (Z.leb_gt max_symbols 0)) by lia. destruct hw.
    - exists (Z.to_nat (Hw.ring_capacity_for p max_symbols)). split; [|done]. unfold Hw.ring_capacity_for. lia.
    - exists Store.DEFAULT_RING_CAPACITY. split; [|done]. unfold Store.DEFAULT_RING_CAPACITY. lia. }
  destruct Hopen as (cap & Hc & Ho).
  pose proof (StoreSpec.refines_open max_symbols cap None Hc) as Href.
  destruct (session_runs fuel calls _ _ d Href ltac:(simpl; lia)) as (st' & d' & a & rs & Hs & Hr & Href').
  exists (Store.open_store max_symbols cap None), st', d', a, rs. split_and!; [done..| |].
  - intros sym n. by rewrite (StoreSpec.refines_last_n st' a), (StoreSpec.refines_hot st' a).
  - simpl. by rewrite (StoreSpec.refines_symbol_count st' a).
Qed.

(** C37. [candlestore_range] never writes outside the caller's buffer and
    returns what it wrote: on the handle of a well-formed store and a non-null
    buffer of at least [max_len] slots, a negative length or a null or
    malformed symbol returns -1 with the buffer untouched, and otherwise the code [n] is the
    smaller of the answer's length and [max_len], the first [n] slots hold
    the first [n] candles of the answer, and every other slot is as it was. *)
Theorem ffi_range_in_bounds st a (d : disk) symbol from_ts to_ts buf max_len out' code :
  StoreSpec.refines st a -> max_len <= Z.of_nat (length buf) -> max_len < 2 ^ 31 ->
  candlestore_range (Some st) d symbol from_ts to_ts (Some buf) max_len = (out', code) ->
  match symbol ≫= to_str with
  | Some sym =>
      if max_len <? 0 then out' = Some buf /\ code = -1
      else exists candles, Store.range st d sym from_ts to_ts = Some candles /\
        code = Z.min (Z.of_nat (length candles)) max_len /\
        out' = Some (take (Z.to_nat code) candles ++ drop (Z.to_nat code) buf)
  | None => out' = Some buf /\ code = -1
  end.
Proof. apply range_writes. Qed.

End cold.

(** ** Witnesses, on a disk that ignores spills *)

#[local] Instance no_disk : ColdStorage unit unit := {| spill _ d _ _ _ := (d, Ok tt); query_cold _ _ _ _ _ := [] |}.

Definition cndl (t : Z) : Candle := mkCandle t f_one f_one f_one f_one f_one.

(** "A" twice, a malformed symbol, a null one. *)
Definition calls : list (unit * option (list Z) * Candle) :=
  [(tt, Some [65], cndl 1); (tt, Some [255], cndl 2); (tt, None, cndl 3); (tt, Some [65], cndl 4)].

Lemma ffi_session_contract_witness :
  exists st0 st', candlestore_new 2 = Some st0 /\ session 1 st0 tt calls = Some (st', tt, [0; -1; -1; 0]) /\
    candlestore_symbol_count (Some st') = 1.
Proof.
  destruct (ffi_session_contract 0 (Hw.detect Hw.workstation) 2 false tt calls eq_refl ltac:(vm_compute; discriminate))
    as (st0 & st' & [] & a & rs & H0 & Hs & Hr & _ & Hc).
  exists st0, st'. split; [exact H0|]. split; [exact Hs|]. rewrite Hc. clear -H0 Hr.
  injection H0 as <-. vm_compute in Hr. injection Hr as <- _. reflexivity.
Defined.

Definition two_candles : Store.t :=
  match session 1 (Store.with_capacity 2 4) tt calls with Some (st, _, _) => st | None => Store.new 0 end.

Lemma two_candles_refines : exists a, StoreSpec.refines two_candles a.
Proof.
  destruct (session_runs 0 calls (Store.open_store 2 4 None) [] tt (StoreSpec.refines_open 2 4 None ltac:(lia)) ltac:(vm_compute; discriminate))
    as (st' & [] & a & rs & Hs & _ & Href).
  exists a. unfold two_candles. change (Store.with_capacity 2 4) with (Store.open_store 2 4 None). by rewrite Hs.
Qed.

(** A buffer of two slots, a limit of one. *)
Lemma ffi_range_in_bounds_witness :
  candlestore_range (Some two_candles) tt (Some [65]) 0 9 (Some [cndl 7; cndl 8]) 1 = (Some [cndl 1; cndl 8], 1) /\
  exists candles, Store.range two_candles tt "A" 0 9 = Some candles.
Proof.
  assert (H : candlestore_range (Some two_candles) tt (Some [65]) 0 9 (Some [cndl 7; cndl 8]) 1 = (Some [cndl 1; cndl 8], 1))
    by (vm_compute; reflexivity).
  split; [exact H|]. destruct two_candles_refines as [a Ha].
  destruct (ffi_range_in_bounds two_candles a tt (Some [65]) 0 9 [cndl 7; cndl 8] 1 _ _ Ha ltac:(vm_compute; discriminate) ltac:(vm_compute; reflexivity) H)
    as (candles & Hr & _). exists candles. exact Hr.
Defined.

End Ffi.
