(* ===== verification/GoClient.v ===== *)
(** * The Go client ([src/go-client/candlestore/candlestore.go])

    Each method over the C function it calls ([Ffi.v]).  A Go string reaches C
    through [C.CString], so the callee sees its bytes before the first NUL; a
    slice handed to C is the list of its zeroed slots.  [RangeN]'s retry loop
    runs on fuel: 25 tries are enough, because 24 doublings take a buffer of
    one slot past [maxRangeCap]. *)

From S2P Require Import Prelude Float64 Candle Text RingBuffer Cold Store StoreSpec Hw Ffi.

#[local] Open Scope Z_scope.

Module GoClient.
Import Ffi.

(** [C.CString], as the callee reads it. *)
Fixpoint CString (bytes : list Z) : list Z :=
  match bytes with
  | [] => []
  | b :: bytes' => if b =? 0 then [] else b :: CString bytes'
  end.

(** A handle; [None] is nil. *)
Definition handle : Type := option Store.t.

Definition New (maxSymbols : Z) : handle := candlestore_new (c_int maxSymbols).
Definition NewHardware (p : Hw.HardwareProfile) (maxSymbols : Z) : handle := candlestore_new_hardware p (c_int maxSymbols).

(** [Close] frees the store and clears the handle. *)
Definition Close (s : handle) : handle := match candlestore_free s with _ => None end.

Definition SymbolCount (s : handle) : Z := candlestore_symbol_count s.
Definition L3CacheBytes (p : Hw.HardwareProfile) : Z := candlestore_l3_cache_bytes p.

Definition defaultRangeCap : Z := 4096.
Definition maxRangeCap : Z := 10000000.

Section cold.
Context {disk faults : Type} `{!ColdStorage disk faults}.

(** [Append] discards the code C returns. *)
Definition Append (fuel : nat) (f : faults) (s : handle) (d : disk) (symbol : list Z) (c : Candle) : effect disk :=
  (candlestore_append fuel f s d (Some (CString symbol)) c).1.

(** The loop of [RangeN]. *)
Fixpoint range_loop (fuel : nat) (s : handle) (d : disk) (sym : list Z) (fromTs toTs max : Z) : option (list Candle) :=
  match fuel with
  | O => None
  | S fuel' =>
      let '(buf, count) :=
        candlestore_range s d (Some sym) fromTs toTs (Some (replicate (Z.to_nat max) candle_default)) (c_int max) in
      if count <=? 0 then Some []
      else if (count =? max) && (max <? maxRangeCap) then
        let max := max * 2 in
        range_loop fuel' s d sym fromTs toTs (if maxRangeCap <? max then maxRangeCap else max)
      else Some (take (Z.to_nat count) (default [] buf))
  end.

Definition RangeN (fuel : nat) (s : handle) (d : disk) (symbol : list Z) (fromTs toTs max : Z) : option (list Candle) :=
  let max := if max <=? 0 then defaultRangeCap else max in
  let max := if maxRangeCap <? max then maxRangeCap else max in
  range_loop fuel s d (CString symbol) fromTs toTs max.

Definition Range (fuel : nat) (s : handle) (d : disk) (symbol : list Z) (fromTs toTs : Z) : option (list Candle) :=
  RangeN fuel s d symbol fromTs toTs defaultRangeCap.

(** One try, on a well-formed store and with a buffer within the limit. *)
Lemma try_range st a (d : disk) sym name fromTs toTs candles max :
  StoreSpec.refines st a -> to_str sym = Some name -> Store.range st d name fromTs toTs = Some candles -> 1 <= max <= maxRangeCap ->
  candlestore_range (Some st) d (Some sym) fromTs toTs (Some (replicate (Z.to_nat max) candle_default)) (c_int max) =
    (Some (take (Z.to_nat max) candles ++ drop (length candles) (replicate (Z.to_nat max) candle_default)),
     Z.min (Z.of_nat (length candles)) max).
Proof.
  intros Href Hsym Hr Hm. unfold maxRangeCap in Hm. rewrite c_int_small by lia.
  destruct (candlestore_range _ _ _ _ _ _ _) as [out code] eqn:E.
  apply (range_writes st a) in E; [|done|rewrite length_replicate; lia|lia]. cbn [mbind option_bind] in E. rewrite Hsym in E.
  rewrite (proj2 (Z.ltb_ge max 0)) in E by lia. destruct E as (candles' & Hr' & -> & ->). rewrite Hr in Hr'. injection Hr' as <-.
  f_equal. f_equal. destruct (Z.min_spec (Z.of_nat (length candles)) max) as [[Hl ->]|[Hl ->]].
  - rewrite Nat2Z.id, firstn_all, take_ge by lia. done.
  - rewrite !drop_ge by (rewrite ?length_replicate; lia). done.
Qed.

Lemma copied (candles : list Candle) rest max :
  1 <= max -> take (Z.to_nat (Z.min (Z.of_nat (length candles)) max)) (take (Z.to_nat max) candles ++ rest) = take (Z.to_nat max) candles.
Proof.
  intros Hm. rewrite take_app_le by (rewrite length_take; lia). rewrite take_take.
  destruct (Z.min_spec (Z.of_nat (length candles)) max) as [[Hl ->]|[Hl ->]]; [|by rewrite Nat.min_id].
  rewrite !take_ge by lia. done.
Qed.

Lemma range_loop_complete st a (d : disk) sym name fromTs toTs candles :
  StoreSpec.refines st a -> to_str sym = Some name -> Store.range st d name fromTs toTs = Some candles ->
  forall fuel max, 1 <= max <= maxRangeCap -> maxRangeCap <= max * 2 ^ Z.of_nat fuel ->
  range_loop (S fuel) (Some st) d sym fromTs toTs max = Some (take (Z.to_nat maxRangeCap) candles).
Proof.
  intros Href Hsym Hr fuel. induction fuel as [|fuel IH]; intros max Hm Hf;
    match goal with |- range_loop (S ?n) _ _ _ _ _ _ = _ => set (m := n) in |- * end;
    cbn [range_loop]; rewrite (try_range st a d sym name fromTs toTs candles max Href Hsym Hr Hm); cbn iota beta zeta;
    (destruct (Z.leb_spec (Z.min (Z.of_nat (length candles)) max) 0) as [H0|H0]; [destruct candles; [done|cbn [length] in H0; lia]|]);
    (destruct (Z.eqb_spec (Z.min (Z.of_nat (length candles)) max) max) as [Hc|Hc]); cbn [andb from_option id];
    rewrite ?copied by lia.
  2,4: rewrite !take_ge by lia; done.
  - rewrite (proj2 (Z.ltb_ge max maxRangeCap)) by lia. cbn [from_option id]. by assert (max = maxRangeCap) as -> by lia.
  - destruct (Z.ltb_spec max maxRangeCap) as [Hlt|Hge].
    + apply IH; destruct (Z.ltb_spec maxRangeCap (max * 2)) as [Hx|Hx]; try lia.
      * pose proof (Z.pow_pos_nonneg 2 (Z.of_nat fuel) ltac:(lia) ltac:(lia)). unfold maxRangeCap in *. nia.
      * rewrite Nat2Z.inj_succ, Z.pow_succ_r in Hf by lia. lia.
    + by assert (max = maxRangeCap) as -> by lia.
Qed.

Lemma range_loop_refused fuel s (d : disk) sym fromTs toTs max :
  (candlestore_range s d (Some sym) fromTs toTs (Some (replicate (Z.to_nat max) candle_default)) (c_int max)).2 = -1 ->
  range_loop (S fuel) s d sym fromTs toTs max = Some [].
Proof. intros H. cbn [range_loop]. destruct (candlestore_range _ _ _ _ _ _ _) as [out code]. cbn in H. by subst. Qed.

(** C38. [Range] and [RangeN] return everything: on a well-formed store, for a
    symbol C can read and whatever initial capacity the caller chose, the
    retry loop ends within 25 tries and returns exactly the candles of the
    window, up to the documented limit of ten million; a symbol C cannot read,
    or a closed handle, gives the empty slice at once. *)
Theorem go_range_complete st a (d : disk) symbol fromTs toTs max :
  StoreSpec.refines st a ->
  (forall name, to_str (CString symbol) = Some name ->
     exists candles, Store.range st d name fromTs toTs = Some candles /\
       RangeN 25 (Some st) d symbol fromTs toTs max = Some (take (Z.to_nat maxRangeCap) candles) /\
       Range 25 (Some st) d symbol fromTs toTs = Some (take (Z.to_nat maxRangeCap) candles)) /\
  (to_str (CString symbol) = None -> RangeN 25 (Some st) d symbol fromTs toTs max = Some []) /\
  RangeN 25 (Close (Some st)) d symbol fromTs toTs max = Some [].
Proof.
  intros Href. split; [|split].
  - intros name Hn. destruct (range_total st a d name fromTs toTs Href) as [candles Hr]. exists candles. split; [done|].
    assert (Hall : forall max, RangeN 25 (Some st) d symbol fromTs toTs max = Some (take (Z.to_nat maxRangeCap) candles)).
    { intros max'. unfold RangeN. cbn zeta. apply (range_loop_complete st a d _ name fromTs toTs candles Href Hn Hr 24);
        destruct (Z.leb_spec max' 0); unfold defaultRangeCap, maxRangeCap; repeat case_match; lia. }
    split; apply Hall.
  - intros Hn. apply range_loop_refused. unfold candlestore_range. destruct (_ <? 0); [done|]. by rewrite Hn.
  - by apply range_loop_refused.
Qed.

End cold.

(** A store of two candles, a buffer of one slot: two retries. *)
Section example.
#[local] Instance no_disk : ColdStorage unit unit := {| spill _ d _ _ _ := (d, Ok tt); query_cold _ _ _ _ _ := [] |}.

Lemma go_range_complete_witness :
  (exists candles, Store.range two_candles tt "A" 0 9 = Some candles /\
     RangeN 25 (Some two_candles) tt [65; 0; 66] 0 9 1 = Some (take (Z.to_nat maxRangeCap) candles)) /\
  RangeN 3 (Some two_candles) tt [65; 0; 66] 0 9 1 = Some [cndl 1; cndl 4].
Proof.
  split; [|vm_compute; reflexivity]. destruct two_candles_refines as [a Ha].
  destruct (go_range_complete two_candles a tt [65; 0; 66] 0 9 1 Ha) as [H _].
  destruct (H "A"%string eq_refl) as (candles & Hr & Hn & _). exists candles. split; [exact Hr|exact Hn].
Defined.
End example.

End GoClient.
