(* ===== verification/Feeder.v ===== *)
(** * The feed handler ([src/src/bin/feed_handler.rs])

    The candle generator: the pseudo-random price walk, the monotone
    timestamps, the pacing of the loop and one turn of it, up to the push into
    the shared-memory ring (modelled in [Shm.v]), whose result is an input.
    The two clocks are inputs too: [Instant]s in nanoseconds, wall-clock
    readings in nanoseconds since the epoch (negative before it).  Logging,
    metrics, signal handlers and process exit are not modelled. *)

From S2P Require Import Prelude Float64 Candle.

#[local] Open Scope Z_scope.

Module Feeder.

(** [as i64] on a wide integer. *)
Definition i64_wrap (z : Z) : Z := (z + 2 ^ 63) mod 2 ^ 64 - 2 ^ 63.

(** [now_nanos] when the wall clock reads [t]. *)
Definition now_nanos (t : Z) : Z := if t <? 0 then 0 else i64_wrap t.

(** [next_ts], [now] being its own [now_nanos]. *)
Definition next_ts (last now : Z) : Z := if last <? now then now else i64_saturating_add last 1.

(** [next_price]: the price and the seed. *)
Definition next_price (prev : f64) (seed : Z) : f64 * Z :=
  let seed := u64_wrapping_add (u64_wrapping_mul seed 6364136223846793005) 1442695040888963407 in
  let u := f_of_Z (Z.shiftr seed 32 mod 2 ^ 32) in
  let change := f_sub (f_mul (f_div u (f_of_Z (2 ^ 32 - 1))) (f_lit 3 1000)) (f_lit 15 10000) in
  (f_max (f_mul prev (f_add f_one change)) f_one, seed).

(** [rate_env.clamp(1, 1_000_000_000)] and the interval, in nanoseconds. *)
Definition rate_of (rate_env : Z) : Z := Z.max 1 (Z.min 1000000000 rate_env).
Definition interval_of (rate_env : Z) : Z := 1000000000 / rate_of rate_env.

(** The locals of [main]'s loop. *)
Record t : Type := mkFeeder {
  price : f64;
  seed : Z;
  count : Z;
  last_ts : Z;
  clock_skew_corrections : Z;
  next_tick : Z;
  candles_pushed : Z
}.

Definition start (now : Z) : t := mkFeeder (f_of_Z 50000) 0xDEADBEEF12345678 0 0 0 now 0.

(** The pacing at the top of the loop: the schedule after it, and how long it
    sleeps. *)
Definition pace (interval next_tick now : Z) : Z * Z :=
  if now <? next_tick then (next_tick + interval, next_tick - now)
  else if next_tick + interval * 100 <? now then (now + interval, 0)
  else (next_tick + interval, 0).

(** The candle of one turn and the price and seed after it. *)
Definition make_candle (price : f64) (seed ts : Z) : Candle * f64 * Z :=
  let '(close, seed) := next_price price seed in
  let r1 := f_div (f_of_Z (Z.shiftr seed 32 mod 2 ^ 32)) (f_of_Z (2 ^ 32 - 1)) in
  let r2 := f_div (f_of_Z (Z.land seed 0xFFFFFFFF)) (f_of_Z (2 ^ 32 - 1)) in
  let high := f_mul (f_max price close) (f_add f_one (f_mul r1 (f_lit 1 1000))) in
  let low := f_mul (f_min price close) (f_sub f_one (f_mul r2 (f_lit 1 1000))) in
  let volume := f_add (f_lit 1 2) (f_mul r1 (f_of_Z 2)) in
  (mkCandle ts price high low close volume, close, seed).

(** What one turn meets: the [Instant], the two wall-clock readings ([raw]
    and the one inside [next_ts]) and whether [push_until] delivered. *)
Record tick : Type := mkTick { t_now : Z; t_raw : Z; t_wall : Z; t_pushed : bool }.

(** One turn of the loop: the state after it and the candle handed to
    [push_until]; the loop ends when the push was cancelled. *)
Definition turn (interval : Z) (s : t) (k : tick) : t * Candle :=
  let nt := (pace interval (next_tick s) (t_now k)).1 in
  let ts := next_ts (last_ts s) (now_nanos (t_wall k)) in
  let '(candle, price', seed') := make_candle (price s) (seed s) ts in
  let skew := if now_nanos (t_raw k) <=? last_ts s then clock_skew_corrections s + 1 else clock_skew_corrections s in
  let count' := if t_pushed k then count s + 1 else count s in
  let pub := if t_pushed k && (Z.land count' 1023 =? 0) then count' else candles_pushed s in
  (mkFeeder price' seed' count' ts skew nt pub, candle).

(** The loop, over the turns it makes before [shutdown]; then the final
    [candles_pushed.store(count)].  The result lists the candles delivered. *)
Fixpoint loop (interval : Z) (s : t) (ks : list tick) : t * list Candle :=
  match ks with
  | [] => (s, [])
  | k :: ks' =>
      let '(s1, c) := turn interval s k in
      if t_pushed k then let '(s2, cs) := loop interval s1 ks' in (s2, c :: cs) else (s1, [])
  end.

Definition run (rate_env now : Z) (ks : list tick) : t * list Candle :=
  let '(s, cs) := loop (interval_of rate_env) (start now) ks in
  (mkFeeder (price s) (seed s) (count s) (last_ts s) (clock_skew_corrections s) (next_tick s) (count s), cs).

(** ** Lemmas *)

Lemma i64_wrap_range z : is_i64 (i64_wrap z).
Proof. unfold is_i64, i64_wrap, i64_min, i64_max. pose proof (Z.mod_pos_bound (z + 2 ^ 63) (2 ^ 64)). lia. Qed.

Lemma next_ts_advances last t :
  is_i64 last -> let ts := next_ts last (now_nanos t) in
  is_i64 ts /\ (last < ts \/ (last = i64_max /\ ts = i64_max)).
Proof.
  intros H. cbv zeta. unfold next_ts, i64_saturating_add.
  assert (Hn : is_i64 (now_nanos t)).
  { unfold now_nanos. destruct (t <? 0); [unfold is_i64, i64_min, i64_max; lia|apply i64_wrap_range]. }
  unfold is_i64 in *. destruct (Z.ltb_spec last (now_nanos t)); lia.
Qed.

Lemma f_max_ge_right x y : f_is_nan y = false -> f_le y (f_max x y) = true.
Proof.
  intros Hy. destruct (f_is_nan x) eqn:Hx; [unfold f_max; rewrite Hx; by apply f_le_refl|].
  destruct (f_max_cases x y Hx Hy) as [[-> H]|[-> H]]; [done|by apply f_le_refl].
Qed.

(** What a turn does to the timestamps and the price. *)
Lemma turn_spec interval s k s' c :
  is_i64 (last_ts s) -> turn interval s k = (s', c) ->
  open c = price s /\ close c = price s' /\ f_le f_one (price s') = true /\ ts c = last_ts s' /\ is_i64 (last_ts s') /\
  (last_ts s < last_ts s' \/ (last_ts s = i64_max /\ last_ts s' = i64_max)) /\
  count s' = count s + (if t_pushed k then 1 else 0).
Proof.
  intros Hl. unfold turn, make_candle. destruct (next_price (price s) (seed s)) as [p' sd'] eqn:Ep. intros H. simplify_eq. simpl.
  destruct (next_ts_advances (last_ts s) (t_wall k) Hl) as [H1 H2].
  unfold next_price in Ep. simplify_eq. split_and!; try done; [by apply f_max_ge_right|].
  destruct (t_pushed k); lia.
Qed.

(** The order of the stream: strictly increasing, until the last instant an
    [i64] can hold. *)
Definition later (a b : Candle) : Prop := ts a < ts b \/ ts b = i64_max.

Lemma loop_spec interval ks s s' cs :
  is_i64 (last_ts s) -> f_le f_one (price s) = true -> loop interval s ks = (s', cs) ->
  Forall (fun c => (last_ts s < ts c \/ ts c = i64_max) /\ is_i64 (ts c) /\ f_le f_one (open c) = true /\ f_le f_one (close c) = true) cs /\
  StronglySorted later cs /\
  (forall i a b, (mkCandle 0 f_zero f_zero f_zero (price s) f_zero :: cs) !! i = Some a -> cs !! i = Some b -> open b = close a) /\
  count s' = count s + Z.of_nat (length cs).
Proof.
  revert s s' cs. induction ks as [|k ks IH]; intros s s' cs Hl Hp H; cbn [loop] in H.
  { injection H as <- <-. split; [constructor|]. split; [constructor|]. split; [|simpl; lia].
    intros i a b _ Hb. rewrite lookup_nil in Hb. discriminate Hb. }
  destruct (turn interval s k) as [s1 c] eqn:Et.
  destruct (turn_spec _ _ _ _ _ Hl Et) as (T1 & T2 & T3 & T4 & T5 & T6 & T7).
  destruct (t_pushed k) eqn:Ek; 
    [|injection H as <- <-; split; [constructor|]; split; [constructor|]; split;
      [intros i a b _ Hb; rewrite lookup_nil in Hb; discriminate Hb|simpl; lia]].
  destruct (loop interval s1 ks) as [s2 cs2] eqn:El. injection H as <- <-.
  destruct (IH s1 s2 cs2 T5 T3 El) as (I1 & I2 & I3 & I4). split; [|split; [|split]].
  - constructor.
    + rewrite T1, T2, T4. unfold is_i64 in *. split_and!; [lia|lia|lia|done|done].
    + eapply Forall_impl; [exact I1|]. simpl. intros x (X1 & X2 & X3). split; [lia|done].
  - constructor; [done|]. eapply Forall_impl; [exact I1|]. unfold later. simpl. intros x (X1 & _). lia.
  - intros [|i] a b Ha Hb; simpl in *; [by simplify_eq|]. destruct i as [|i]; simpl in *.
    + simplify_eq. rewrite (I3 0%nat _ b eq_refl Hb). by rewrite T2.
    + by apply (I3 (S i) a b).
  - cbn [length]. lia.
Qed.

(** ** Claims *)

(** The stream the feed produces is one the store can search: whatever the
    wall clock does (steps back, pre-1970 readings, stalls) and whatever rate
    is configured (zero and absurd ones included), the timestamps of the
    delivered candles are positive and strictly increase (until the last
    value an [i64] holds), every open and close is at least 1.0 and never
    NaN, each candle opens where the previous one closed, the pacing interval
    is at least a nanosecond, and the published count is the number of
    candles delivered. *)
Theorem feed_stream_monotone rate_env now ks :
  let s := (run rate_env now ks).1 in
  let cs := (run rate_env now ks).2 in
  1 <= interval_of rate_env <= 1000000000 /\
  StronglySorted later cs /\
  Forall (fun c => 0 < ts c <= i64_max /\ f_le f_one (open c) = true /\ f_le f_one (close c) = true) cs /\
  (forall i a b, cs !! i = Some a -> cs !! S i = Some b -> open b = close a) /\
  candles_pushed s = Z.of_nat (length cs) /\ count s = candles_pushed s.
Proof.
  cbv zeta. unfold run. destruct (loop (interval_of rate_env) (start now) ks) as [s cs] eqn:E. cbn [fst snd candles_pushed count].
  destruct (loop_spec _ ks (start now) s cs ltac:(unfold is_i64, i64_min, i64_max; simpl; lia) ltac:(vm_compute; reflexivity) E) as (L1 & L2 & L3 & L4).
  simpl in L4. split; [|split_and!; try done].
  - unfold interval_of. assert (Hr : 1 <= rate_of rate_env <= 1000000000) by (unfold rate_of; lia).
    split; [apply Z.div_le_lower_bound; lia|apply Z.div_le_upper_bound; lia].
  - eapply Forall_impl; [exact L1|]. simpl. intros x (X1 & X2 & X3 & X4). unfold is_i64, i64_max in *. split_and!; [lia|lia|done|done].
  - intros i a b Ha Hb. by apply (L3 (S i) a b).
Qed.

(** A clock that steps back by 40 ns between two ticks. *)
Lemma feed_demo :
  (fun c => ts c) <$> (run 10000 0 [mkTick 0 100 100 true; mkTick 100000 60 60 true; mkTick 200000 160 160 true]).2
  = [100; 101; 160].
Proof. vm_compute. reflexivity. Qed.

End Feeder.
