(* ===== verification/Sma.v ===== *)
(** * The rolling average ([src/src/bin/market_hub.rs], [RollingSma])

    The O(1) moving average of the strategy: a ring of the last closes with a
    running sum.  Indexing panics are explicit; the refinement shows the ring
    to be the window of the last [period] closes and, as long as sums need no
    more than 53 bits, the average to be the one summed afresh over it. *)

From S2P Require Import Prelude Float64.

Module Sma.

Record t : Type := mkSma {
  period : nat;
  buf : list f64;
  next : nat;
  filled : nat;
  sum : f64
}.

(** [RollingSma::new]. *)
Definition new (period : nat) : t := mkSma period (replicate period f_zero) 0 0 f_zero.

(** [RollingSma::push]. *)
Definition push (s : t) (close : f64) : panics t :=
  if (period s =? 0)%nat then Some s
  else
    '(sum1, filled1) ←
      (if (filled s =? period s)%nat then old ← buf s !! next s; Some (f_sub (sum s) old, filled s)
       else Some (sum s, (filled s + 1)%nat));
    let sum2 := f_add sum1 close in
    if (next s <? length (buf s))%nat then
      Some (mkSma (period s) (<[next s := close]> (buf s)) ((next s + 1) mod period s)%nat filled1 sum2)
    else None.

(** [RollingSma::value]. *)
Definition value (s : t) : option f64 :=
  if ((0 <? period s) && (filled s =? period s))%nat
  then Some (f_div (sum s) (f_of_Z (Z.of_nat (period s)))) else None.

Fixpoint push_all (s : t) (closes : list f64) : panics t :=
  match closes with
  | [] => Some s
  | c :: closes' => s1 ← push s c; push_all s1 closes'
  end.

(** ** Reference *)

(** The plain average of a window, summed afresh from left to right. *)
Definition mean (w : list f64) : f64 := f_div (fold_left f_add w f_zero) (f_of_Z (Z.of_nat (length w))).

(** The exact sum of a window, in units of 2^-1074. *)
Definition exact_sum (w : list f64) : Z := foldr Z.add 0%Z (fval <$> w).

(** Closes on a common binary grid, small enough that the sum of a window of
    [p] of them needs no more than 53 bits: whole numbers up to 2^53 / p, for
    instance. *)
Definition summable (p : nat) (u : Z) (closes : list f64) : Prop :=
  (0 <= u <= 2045)%Z /\
  exists M, (Z.of_nat p * M < 2 ^ (u + 53))%Z /\ Forall (fun c => f_on_grid u c /\ (Z.abs (fval c) <= M)%Z) closes.

(** The closes in the ring, oldest first. *)
Definition window (s : t) : list f64 :=
  if (filled s <? period s)%nat then take (filled s) (buf s)
  else drop (next s) (buf s) ++ take (next s) (buf s).

Record wf (s : t) : Prop := {
  wf_period : (0 < period s)%nat;
  wf_buf : length (buf s) = period s;
  wf_next : (next s < period s)%nat;
  wf_filled : (filled s <= period s)%nat;
  wf_partial : (filled s < period s)%nat -> next s = filled s
}.

Lemma new_sma_wf p : (0 < p)%nat -> wf (new p) /\ window (new p) = [].
Proof.
  intros H. split; [split; simpl; rewrite ?length_replicate; lia|].
  unfold window. simpl. by destruct (Nat.ltb_spec 0 p); [|lia].
Qed.

Lemma window_length s : wf s -> length (window s) = filled s.
Proof.
  intros [H1 H2 H3 H4 H5]. unfold window. destruct (Nat.ltb_spec (filled s) (period s)).
  - rewrite length_take. lia.
  - rewrite length_app, length_drop, length_take. lia.
Qed.

Lemma sma_push_spec s c :
  wf s ->
  exists s', push s c = Some s' /\ wf s' /\ period s' = period s /\
    window s' = lastn (period s) (window s ++ [c]) /\
    sum s' = f_add (match window s with
                    | old :: _ => if (length (window s) =? period s)%nat then f_sub (sum s) old else sum s
                    | [] => sum s
                    end) c.
Proof.
  intros Hwf. pose proof (window_length s Hwf) as Hlen. destruct Hwf as [H1 H2 H3 H4 H5].
  unfold push. destruct (Nat.eqb_spec (period s) 0); [lia|].
  destruct (Nat.eqb_spec (filled s) (period s)) as [Ef|Ef].
  - destruct (lookup_lt_is_Some_2 (buf s) (next s)) as [old Hold]; [lia|]. rewrite Hold. simpl.
    destruct (Nat.ltb_spec (next s) (length (buf s))); [|lia]. eexists. split; [done|].
    assert (Hw : window s = drop (next s) (buf s) ++ take (next s) (buf s)).
    { unfold window. by destruct (Nat.ltb_spec (filled s) (period s)); [lia|]. }
    pose proof (rotate_insert (buf s) (next s) c ltac:(lia)) as Hrot. simpl in Hrot. rewrite length_insert, H2 in Hrot.
    assert (Hd : drop (next s) (buf s) = old :: drop (S (next s)) (buf s)) by (by apply drop_S).
    split; [split; simpl; rewrite ?length_insert; try lia; apply Nat.mod_upper_bound; lia|].
    split_and!; [done| |].
    + unfold window at 1. simpl. destruct (Nat.ltb_spec (filled s) (period s)); [lia|].
      rewrite Hrot, Hw, Hd. unfold lastn.
      replace (length (((old :: drop (S (next s)) (buf s)) ++ take (next s) (buf s)) ++ [c]) - period s)%nat with 1%nat
        by (rewrite !length_app; simpl; rewrite length_drop, length_take; lia).
      simpl. by rewrite app_assoc.
    + simpl. rewrite Hlen, Ef, Nat.eqb_refl, Hw, Hd. done.
  - simpl. destruct (Nat.ltb_spec (next s) (length (buf s))); [|lia]. eexists. split; [done|].
    assert (Hnx : next s = filled s) by (apply H5; lia).
    assert (Hw : window s = take (filled s) (buf s)).
    { unfold window. by destruct (Nat.ltb_spec (filled s) (period s)); [|lia]. }
    assert (Hins : <[next s := c]> (buf s) = take (filled s) (buf s) ++ c :: drop (S (filled s)) (buf s))
      by (rewrite Hnx; apply insert_take_drop; lia).
    assert (Htk : length (take (filled s) (buf s)) = filled s) by (rewrite length_take; lia).
    split.
    { split; simpl; rewrite ?length_insert; try lia; [apply Nat.mod_upper_bound; lia|].
      intros Hlt. rewrite Nat.mod_small by lia. lia. }
    split_and!; [done| |].
    + unfold window at 1. simpl. rewrite lastn_all by (rewrite length_app, Hlen; simpl; lia). rewrite Hw, Hins.
      destruct (Nat.ltb_spec (filled s + 1) (period s)).
      * rewrite cons_middle, app_assoc, take_app_length' by (rewrite length_app; simpl; lia). done.
      * replace (next s + 1)%nat with (period s) by lia. rewrite Nat.Div0.mod_same. simpl.
        rewrite app_nil_r, drop_0, (drop_ge (buf s)) by lia. done.
    + simpl. destruct (window s) eqn:E; [done|]. rewrite <- E in *. rewrite Hlen.
      by destruct (Nat.eqb_spec (filled s) (period s)).
Qed.

Lemma sma_push_all_spec closes s :
  wf s ->
  exists s', push_all s closes = Some s' /\ wf s' /\ period s' = period s /\
    window s' = lastn (period s) (window s ++ closes).
Proof.
  revert s. induction closes as [|c closes IH]; intros s Hwf; simpl.
  { exists s. split_and!; try done. rewrite app_nil_r, lastn_all; [done|].
    rewrite window_length by done. by destruct Hwf. }
  destruct (sma_push_spec s c Hwf) as (s1 & -> & Hwf1 & Hp1 & Hw1 & _). simpl.
  destruct (IH s1 Hwf1) as (s2 & -> & Hwf2 & Hp2 & Hw2). exists s2.
  split_and!; [done|done|congruence|]. rewrite Hw2, Hp1, Hw1. rewrite lastn_app_lastn. by rewrite <- app_assoc.
Qed.

(** *** Sums without rounding *)

Lemma exact_sum_app w1 w2 : exact_sum (w1 ++ w2) = (exact_sum w1 + exact_sum w2)%Z.
Proof. unfold exact_sum. rewrite fmap_app. induction (fval <$> w1) as [|c l IH]; simpl; lia. Qed.

(** A float that is the exact sum of a window. *)
Definition sums (u : Z) (x : f64) (w : list f64) : Prop := f_on_grid u x /\ f_not_negzero x /\ fval x = exact_sum w.

Section exact.
Context (p : nat) (u M : Z).
Hypothesis Hu : (0 <= u <= 2045)%Z.
Hypothesis HM : (Z.of_nat p * M < 2 ^ (u + 53))%Z.

Abbreviation small := (Forall (fun c => f_on_grid u c /\ (Z.abs (fval c) <= M)%Z)).

Lemma exact_sum_fits w : small w -> (length w <= p)%nat -> f_fits u (exact_sum w).
Proof.
  intros Hw Hl. assert (H : (2 ^ u | exact_sum w)%Z /\ (Z.abs (exact_sum w) <= Z.of_nat (length w) * M)%Z).
  { clear Hl. induction Hw as [|c w [(_ & _ & Hc) Hm] _ [IH1 IH2]]; [split; [by exists 0%Z|done]|].
    change (exact_sum (c :: w)) with (fval c + exact_sum w)%Z. split; [by apply Z.divide_add_r|]. simpl length. nia. }
  destruct H as [H1 H2]. split; [done|]. destruct w as [|c w]; [simpl in H2; apply Z.le_lt_trans with 0%Z; [lia|apply Z.pow_pos_nonneg; lia]|].
  apply Forall_cons in Hw as [[_ Hc] _]. nia.
Qed.

Lemma zero_sums : sums u f_zero [].
Proof. repeat split; try done. by exists 0%Z. Qed.

Lemma add_sums x w c : small (w ++ [c]) -> (length (w ++ [c]) <= p)%nat -> sums u x w -> sums u (f_add x c) (w ++ [c]).
Proof.
  intros Hs Hl (Hg & Hz & Hv). pose proof (exact_sum_fits _ Hs Hl) as Hf. apply Forall_app in Hs as [_ [[Hc _] _]%Forall_cons].
  assert (E : exact_sum (w ++ [c]) = (fval x + fval c)%Z) by (rewrite exact_sum_app, Hv; unfold exact_sum; simpl; lia).
  rewrite E in Hf. destruct (f_add_exact u x c Hu Hg Hc Hz Hf) as (H1 & H2 & H3). split_and!; [done..|by rewrite H2, E].
Qed.

Lemma drop_sums x old w : small (old :: w) -> (length (old :: w) <= p)%nat -> sums u x (old :: w) -> sums u (f_sub x old) w.
Proof.
  intros Hs Hl (Hg & Hz & Hv). apply Forall_cons in Hs as [[Hc _] Hs]. simpl in Hl.
  assert (E : exact_sum w = (fval x - fval old)%Z) by (rewrite Hv; change (exact_sum (old :: w)) with (fval old + exact_sum w)%Z; lia).
  pose proof (exact_sum_fits w Hs ltac:(lia)) as Hf. rewrite E in Hf.
  destruct (f_sub_exact u x old Hu Hg Hc Hz Hf) as (H1 & H2 & H3). split_and!; [done..|by rewrite H2, E].
Qed.

Lemma fresh_sums w : small w -> (length w <= p)%nat -> sums u (fold_left f_add w f_zero) w.
Proof.
  induction w as [|c w IH] using rev_ind; intros Hs Hl; [apply zero_sums|]. rewrite fold_left_app. simpl.
  apply add_sums; [done..|]. apply IH; [by apply Forall_app in Hs as [? _]|]. rewrite length_app in Hl. lia.
Qed.

Lemma sums_unique x y w : sums u x w -> sums u y w -> x = y.
Proof. intros ((? & ? & _) & ? & E1) ((? & ? & _) & ? & E2). apply fval_inj; try done. congruence. Qed.

Lemma sma_push_all_sums closes s s' :
  wf s -> period s = p -> small (window s ++ closes) -> sums u (sum s) (window s) -> push_all s closes = Some s' ->
  sums u (sum s') (window s').
Proof.
  revert s. induction closes as [|c closes IH]; intros s Hwf Hp Hs Hx Hrun; cbn [push_all] in Hrun; [by injection Hrun as <-|].
  destruct (sma_push_spec s c Hwf) as (s1 & E & Hwf1 & Hp1 & Hw1 & Hs1). rewrite E in Hrun. cbn [mbind option_bind] in Hrun.
  pose proof (window_length s Hwf) as Hlen. pose proof (wf_filled s Hwf) as Hfl. pose proof (wf_period s Hwf) as Hpos.
  assert (Hsc : small (window s ++ [c])) by (rewrite cons_middle, app_assoc in Hs; by apply Forall_app in Hs as [? _]).
  apply (IH s1); [done|congruence| | |done].
  - rewrite Hw1. apply Forall_app in Hs as [_ [_ Hs]%Forall_cons]. apply Forall_app. split; [|done]. by apply Forall_drop.
  - rewrite Hs1, Hw1, Hp. rewrite Hp in *. destruct (Nat.eqb_spec (length (window s)) p) as [El|El].
    + destruct (window s) as [|old w]; [simpl in El; lia|]. unfold lastn. rewrite length_app, El. simpl length.
      replace (p + 1 - p)%nat with 1%nat by lia. cbn [drop app]. apply Forall_app in Hsc as [H1 H2]. simpl in El.
      apply add_sums; [apply Forall_app; split; [by apply Forall_cons in H1 as [_ ?]|done]|rewrite length_app; simpl; lia|].
      apply drop_sums; [done|simpl; lia|done].
    + rewrite lastn_all by (rewrite length_app; simpl; lia).
      replace (match window s with [] => sum s | _ :: _ => sum s end) with (sum s) by (by destruct (window s)).
      apply add_sums; [done|rewrite length_app; simpl; lia|done].
Qed.
End exact.

(** C35. The rolling average of the last [period] closes.  For a positive
    period, after any history of closes: no index is out of bounds, the ring
    holds exactly the last [period] closes, and the average is available
    exactly from the [period]-th close on.  When the closes lie on a common
    binary grid and a window of them sums within 53 bits, the running sum is
    the exact sum of the window and the average equals, bit for bit, the one
    computed by summing the last [period] closes afresh.  (Without that
    condition the running sum keeps rounding errors of closes that have left
    the window: [sma_drifts].) *)
Theorem sma_equals_reference p closes :
  (0 < p)%nat ->
  exists s, push_all (new p) closes = Some s /\ window s = lastn p closes /\
    (value s = None <-> (length closes < p)%nat) /\
    forall u, summable p u closes ->
      fval (sum s) = exact_sum (lastn p closes) /\
      ((p <= length closes)%nat -> value s = Some (mean (lastn p closes))).
Proof.
  intros Hp. destruct (new_sma_wf p Hp) as [Hwf Hw].
  destruct (sma_push_all_spec closes (new p) Hwf) as (s & Hs & Hwf' & Hper & Hwin). rewrite Hw in Hwin. simpl in Hper, Hwin.
  pose proof (window_length s Hwf') as Hl. rewrite Hwin, length_lastn in Hl.
  exists s. split_and!; [done|done| |].
  - unfold value. rewrite Hper, <- Hl. destruct (Nat.ltb_spec 0 p); [|lia]. simpl.
    destruct (Nat.eqb_spec (p `min` length closes) p); split; intros; try done; lia.
  - intros u [Hu (M & HM & Hall)].
    assert (Hsum : sums u (sum s) (window s)).
    { apply (sma_push_all_sums p u M Hu HM closes (new p)); try done; rewrite Hw; [done|apply zero_sums]. }
    rewrite Hwin in Hsum. split; [apply Hsum|]. intros Hlen. unfold value, mean. rewrite Hper, <- Hl, length_lastn.
    replace (p `min` length closes)%nat with p by lia. destruct (Nat.ltb_spec 0 p); [|lia]. rewrite Nat.eqb_refl. simpl. do 2 f_equal.
    apply (sums_unique u _ _ _ Hsum), (fresh_sums p u M Hu HM); [by apply Forall_drop|rewrite length_lastn; lia].
Qed.

(** Whole prices: on the grid of 1, which is [2^1074] units of 2^-1074. *)
Definition sample : list f64 := f_of_Z <$> [10; 20; 40]%Z.

Lemma sample_summable : summable 2 1074 sample.
Proof.
  split; [lia|]. exists (40 * 2 ^ 1074)%Z. split; [vm_compute; reflexivity|].
  repeat constructor; try done; try (by vm_compute); [exists 10%Z|exists 20%Z|exists 40%Z]; vm_compute; reflexivity.
Qed.

Lemma sma_equals_reference_witness :
  exists s, push_all (new 2) sample = Some s /\ window s = f_of_Z <$> [20; 40]%Z /\ value s = Some (f_of_Z 30).
Proof.
  destruct (sma_equals_reference 2 sample ltac:(lia)) as (s & H1 & H2 & _ & H4).
  exists s. split; [exact H1|]. split; [exact H2|]. destruct (H4 1074%Z sample_summable) as [_ H5].
  rewrite H5 by (simpl; lia). vm_compute. reflexivity.
Defined.

(** Off the grid the running sum drifts: after closes 1e17, 1, 1 the average of
    the last two is reported as one half. *)
Example sma_drifts :
  value <$> push_all (new 2) (f_of_Z <$> [100000000000000000; 1; 1]%Z) = Some (Some (f_lit 1 2)) /\
  mean (f_of_Z <$> [1; 1]%Z) = f_one.
Proof. by vm_compute. Qed.

End Sma.
