(* ===== verification/Hub.v ===== *)
(** * The market hub ([src/src/bin/market_hub.rs])

    [Module Strategy] is the body of the strategy thread's loop: one wake-up,
    from the candles it fetches to the crossover decision.  [Module Risk] is
    the executor: rate limiter, risk gates, one popped signal, and a run over
    a sequence of signals with the clock readings they meet.  [Module
    Persist] is the position file: the atomic replacement and the load at
    start-up, over the file operations it issues.

    The clock is an argument (nanoseconds, as [Instant]s are ordered); decimal
    printing and parsing of [f64] are those of [Text.F64Text], with their
    documented round trip as the only hypothesis.  [HubSys.v] puts the threads
    together. *)


From Stdlib Require Import SpecFloat Ascii.
From S2P Require Import Prelude Float64 Candle Text Signals Sma.

#[local] Open Scope Z_scope.

Module Strategy.

(** The locals of [strategy_thread] that change between wake-ups. *)
Record t : Type := mkStrategy {
  min_candles : nat;
  short_sma : Sma.t;
  long_sma : Sma.t;
  candles_seen : nat;
  last_candle_ts : Z;
  prev_short : option f64;
  prev_long : option f64
}.

Definition init (short_p long_p : nat) : t :=
  mkStrategy (long_p + 1) (Sma.new short_p) (Sma.new long_p) 0 i64_min None None.

(** [if c.ts > last_candle_ts { push; push; seen += 1; last = ts }]. *)
Definition fold_candle (s : t) (c : Candle) : panics t :=
  if last_candle_ts s <? ts c then
    sh ← Sma.push (short_sma s) (close c);
    lo ← Sma.push (long_sma s) (close c);
    Some (mkStrategy (min_candles s) sh lo (candles_seen s + 1) (ts c) (prev_short s) (prev_long s))
  else Some s.

Fixpoint fold_candles (s : t) (cs : list Candle) : panics t :=
  match cs with
  | [] => Some s
  | c :: cs' => s1 ← fold_candle s c; fold_candles s1 cs'
  end.

(** The golden and death cross. *)
Definition crossing (ps pl cs cl : f64) : option Signals.Side :=
  if f_le ps pl && f_lt cl cs then Some Signals.Buy
  else if f_le pl ps && f_lt cs cl then Some Signals.Sell
  else None.

(** From the two averages to the decision and the new previous values. *)
Definition decide_side (s : t) : t * option Signals.Side :=
  let cs := Sma.value (short_sma s) in
  let cl := Sma.value (long_sma s) in
  let side :=
    match prev_short s, prev_long s, cs, cl with
    | Some ps, Some pl, Some cs, Some cl => crossing ps pl cs cl
    | _, _, _, _ => None
    end in
  (mkStrategy (min_candles s) (short_sma s) (long_sma s) (candles_seen s) (last_candle_ts s) cs cl, side).

(** One wake-up of the loop, [last_n] being the store's answer; the result
    carries the side of the signal to emit, if any. *)
Definition wake (s : t) (last_n : nat -> panics (list Candle)) : panics (t * option Signals.Side) :=
  if (candles_seen s <? min_candles s)%nat then
    cs ← last_n (min_candles s);
    s1 ← fold_candles s cs;
    if (candles_seen s1 <? min_candles s1)%nat then Some (s1, None) else Some (decide_side s1)
  else
    cs ← last_n 1%nat;
    match last cs with
    | None => Some (s, None)
    | Some c =>
        if ts c <=? last_candle_ts s then Some (s, None)
        else
          sh ← Sma.push (short_sma s) (close c);
          lo ← Sma.push (long_sma s) (close c);
          Some (decide_side (mkStrategy (min_candles s) sh lo (candles_seen s + 1) (ts c) (prev_short s) (prev_long s)))
    end.

(** [while !sig_tx.try_push(sig) { if shutdown { delivered = false; break } }],
    over what successive polls of the ring and of the flag answer: [None]
    while it is still spinning when the answers end. *)
Fixpoint deliver (polls : list (bool * bool)) : option bool :=
  match polls with
  | [] => None
  | (pushed, shutdown) :: polls' =>
      if pushed then Some true else if shutdown then Some false else deliver polls'
  end.

(** How one turn of the loop ends. *)
Inductive turn : Type :=
| Waits (s : t) (signal_count : Z) (sent : option Signals.Signal)   (* back to [wait_for_change] *)
| Exits (signal_count : Z)                                         (* [return] on shutdown *)
| Spinning (sig : Signals.Signal).                                 (* the push has not come back *)

(** One turn of the loop after [wait_for_change] returned; [now] is the wall
    clock in nanoseconds. *)
Definition turn_of (symbol : list Z) (qty : f64) (s : t) (signal_count : Z) (shutdown : bool)
    (last_n : nat -> panics (list Candle)) (now : Z) (polls : list (bool * bool)) : panics turn :=
  if shutdown then Some (Exits signal_count)
  else
    '(s', side) ← wake s last_n;
    match side with
    | None => Some (Waits s' signal_count None)
    | Some sd =>
        let sig := Signals.new now symbol sd qty f_zero 1 in
        match deliver polls with
        | None => Some (Spinning sig)
        | Some false => Some (Exits signal_count)
        | Some true => Some (Waits s' (signal_count + 1) (Some sig))
        end
    end.

(** ** Reference: the candles the strategy has taken in

    The strategy keeps two averages and a timestamp; the reference keeps the
    candles themselves.  [history] is what the successive answers of the store
    leave in it, and the averages are those of the whole history. *)

(** What one turn of the loop meets. *)
Record input : Type := mkInput {
  i_last_n : nat -> panics (list Candle);
  i_now : Z;
  i_polls : list (bool * bool)
}.

(** The candles of an answer that are newer than everything before them. *)
Fixpoint fresh (t : Z) (cs : list Candle) : list Candle :=
  match cs with
  | [] => []
  | c :: cs' => if t <? ts c then c :: fresh (ts c) cs' else fresh t cs'
  end.

Definition last_ts (h : list Candle) : Z := match last h with Some c => ts c | None => i64_min end.

(** During warm-up the whole window is asked for, then the newest candle. *)
Definition grow (long_p : nat) (h : list Candle) (i : input) : list Candle :=
  if (length h <=? long_p)%nat then h ++ fresh (last_ts h) (default [] (i_last_n i (long_p + 1)%nat))
  else h ++ fresh (last_ts h) (option_list (last (default [] (i_last_n i 1%nat)))).

Definition history (long_p : nat) (inputs : list input) : list Candle := fold_left (grow long_p) inputs [].

(** The average over a history. *)
Definition average (p : nat) (h : list Candle) : option f64 :=
  match Sma.push_all (Sma.new p) (close <$> h) with Some s => Sma.value s | None => None end.

(** A run of the loop through turns that go on, with the signal each sent. *)
Fixpoint turns (symbol : list Z) (qty : f64) (s : t) (signal_count : Z) (inputs : list input)
    : option (t * Z * list (option Signals.Signal)) :=
  match inputs with
  | [] => Some (s, signal_count, [])
  | i :: inputs' =>
      match turn_of symbol qty s signal_count false (i_last_n i) (i_now i) (i_polls i) with
      | Some (Waits s1 n1 sent) =>
          '(s2, n2, sents) ← turns symbol qty s1 n1 inputs'; Some (s2, n2, sent :: sents)
      | _ => None
      end
  end.

(** ** Lemmas *)

(** The strategy's state follows the history; the previous averages are those
    of the history once it is warm, and absent before. *)
Record follows (short_p long_p : nat) (s : t) (h : list Candle) : Prop := {
  f_min : min_candles s = (long_p + 1)%nat;
  f_short : Sma.push_all (Sma.new short_p) (close <$> h) = Some (short_sma s);
  f_long : Sma.push_all (Sma.new long_p) (close <$> h) = Some (long_sma s);
  f_seen : candles_seen s = length h;
  f_last : last_candle_ts s = last_ts h;
  f_prev : if (length h <=? long_p)%nat then prev_short s = None /\ prev_long s = None
           else prev_short s = average short_p h /\ prev_long s = average long_p h
}.

Lemma init_follows short_p long_p : follows short_p long_p (init short_p long_p) [].
Proof. by split. Qed.

(** The fields a new candle changes. *)
Record took (short_p long_p : nat) (prevs : option f64 * option f64) (s : t) (h : list Candle) : Prop := {
  k_min : min_candles s = (long_p + 1)%nat;
  k_short : Sma.push_all (Sma.new short_p) (close <$> h) = Some (short_sma s);
  k_long : Sma.push_all (Sma.new long_p) (close <$> h) = Some (long_sma s);
  k_seen : candles_seen s = length h;
  k_last : last_candle_ts s = last_ts h;
  k_prev : (prev_short s, prev_long s) = prevs
}.

Lemma push_all_snoc s cs c : Sma.push_all s (cs ++ [c]) = s1 ← Sma.push_all s cs; Sma.push s1 c.
Proof. revert s. induction cs as [|x cs IH]; intros s; cbn; [by destruct (Sma.push s c)|]. by destruct (Sma.push s x); cbn. Qed.

Lemma last_ts_snoc h c : last_ts (h ++ [c]) = ts c.
Proof. unfold last_ts. by rewrite last_snoc. Qed.

Ltac took_snoc H1 H2 :=
  split; cbn [min_candles short_sma long_sma candles_seen last_candle_ts prev_short prev_long];
  rewrite ?fmap_app, ?last_ts_snoc, ?length_app; cbn [fmap list_fmap]; rewrite ?push_all_snoc, ?H1, ?H2; cbn [mbind option_bind length];
  first [done|lia].

Lemma fold_candle_took short_p long_p prevs s h c s' :
  took short_p long_p prevs s h -> fold_candle s c = Some s' ->
  took short_p long_p prevs s' (h ++ fresh (last_ts h) [c]) /\
  forall cs, h ++ fresh (last_ts h) (c :: cs) = (h ++ fresh (last_ts h) [c]) ++ fresh (last_ts (h ++ fresh (last_ts h) [c])) cs.
Proof.
  intros [K1 K2 K3 K4 K5 K6] H. unfold fold_candle in H. rewrite K5 in H. cbn [fresh].
  destruct (last_ts h <? ts c).
  - destruct (Sma.push (short_sma s) (close c)) as [sh|] eqn:E1; [|done].
    destruct (Sma.push (long_sma s) (close c)) as [lo|] eqn:E2; [|done]. cbn in H. simplify_eq.
    split; [|intros cs; by rewrite last_ts_snoc, <- app_assoc].
    took_snoc K2 K3.
  - simplify_eq. rewrite app_nil_r. by split.
Qed.

Lemma fold_candles_took short_p long_p prevs s h cs s' :
  took short_p long_p prevs s h -> fold_candles s cs = Some s' -> took short_p long_p prevs s' (h ++ fresh (last_ts h) cs).
Proof.
  revert s h. induction cs as [|c cs IH]; intros s h Hk H; cbn [fold_candles] in H; [simplify_eq; by rewrite app_nil_r|].
  destruct (fold_candle s c) as [s1|] eqn:E; [|done]. cbn in H.
  destruct (fold_candle_took _ _ _ _ _ _ _ Hk E) as [Hk1 ->]. by apply (IH s1).
Qed.

(** The verdict on the step of a history, by its averages before and after. *)
Definition verdict (short_p long_p : nat) (h h' : list Candle) : option Signals.Side :=
  match average short_p h, average long_p h, average short_p h', average long_p h' with
  | Some ps, Some pl, Some cs, Some cl => crossing ps pl cs cl
  | _, _, _, _ => None
  end.

Lemma decide_took short_p long_p prevs s h s' o :
  took short_p long_p prevs s h -> (long_p < length h)%nat -> decide_side s = (s', o) ->
  follows short_p long_p s' h /\
  o = match prevs.1, prevs.2, average short_p h, average long_p h with
      | Some ps, Some pl, Some cs, Some cl => crossing ps pl cs cl
      | _, _, _, _ => None
      end.
Proof.
  intros [K1 K2 K3 K4 K5 K6] Hl H. unfold decide_side in H.
  assert (E1 : average short_p h = Sma.value (short_sma s)) by (unfold average; by rewrite K2).
  assert (E2 : average long_p h = Sma.value (long_sma s)) by (unfold average; by rewrite K3).
  rewrite <- E1, <- E2 in H. simplify_eq. split; [|done]. split; cbn; try done.
  destruct (Nat.leb_spec (length h) long_p); [lia|done].
Qed.

(** One wake-up refines one step of the history. *)
Lemma wake_follows short_p long_p s h i s' o :
  follows short_p long_p s h -> wake s (i_last_n i) = Some (s', o) ->
  let h' := grow long_p h i in
  follows short_p long_p s' h' /\
  o = if (length h <=? long_p)%nat || (length h' =? length h)%nat then None else verdict short_p long_p h h'.
Proof.
  intros [F1 F2 F3 F4 F5 F6] H. unfold wake in H. rewrite F1, F4 in H. unfold grow.
  destruct (Nat.leb_spec (length h) long_p) as [Hl|Hl].
  - destruct F6 as [P1 P2]. destruct (Nat.ltb_spec (length h) (long_p + 1)); [|lia].
    destruct (i_last_n i (long_p + 1)%nat) as [cs|]; [|done]. cbn [mbind option_bind default id] in *.
    destruct (fold_candles s cs) as [s1|] eqn:Ef; [|done]. cbn [mbind option_bind] in H.
    assert (Hk : took short_p long_p (None, None) s1 (h ++ fresh (last_ts h) cs)).
    { apply (fold_candles_took _ _ _ s); [|done]. split; try done. by rewrite P1, P2. }
    set (h' := h ++ _) in *. rewrite (k_min _ _ _ _ _ Hk), (k_seen _ _ _ _ _ Hk) in H. cbn [orb].
    destruct (Nat.ltb_spec (length h') (long_p + 1)).
    + simplify_eq. split; [|done]. destruct Hk as [K1 K2 K3 K4 K5 K6]. split; try done.
      destruct (Nat.leb_spec (length h') long_p); [|lia]. by injection K6.
    + assert (Ed : decide_side s1 = (s', o)) by congruence.
      destruct (decide_took _ _ _ _ _ _ _ Hk ltac:(lia) Ed) as [Hf ->]. split; [exact Hf|reflexivity].
  - destruct F6 as [P1 P2]. destruct (Nat.ltb_spec (length h) (long_p + 1)); [lia|]. cbn [orb].
    destruct (i_last_n i 1%nat) as [cs|]; [|done]. cbn [mbind option_bind default id] in *.
    assert (Hkeep : follows short_p long_p s h) by (split; try done; destruct (Nat.leb_spec (length h) long_p); [lia|done]).
    destruct (last cs) as [c|]; [change (option_list (Some c)) with [c]|]; cbn [fresh].
    2: { simplify_eq. rewrite app_nil_r. by rewrite Nat.eqb_refl. }
    rewrite F5 in H. destruct (Z.ltb_spec (last_ts h) (ts c)) as [Hc|Hc].
    2: { destruct (Z.leb_spec (ts c) (last_ts h)); [|lia]. simplify_eq. by rewrite app_nil_r, Nat.eqb_refl. }
    destruct (Z.leb_spec (ts c) (last_ts h)); [lia|].
    destruct (Sma.push (short_sma s) (close c)) as [sh|] eqn:E1; [|done].
    destruct (Sma.push (long_sma s) (close c)) as [lo|] eqn:E2; [|done]. cbn [mbind option_bind] in H.
    rewrite length_app. cbn [length]. destruct (Nat.eqb_spec (length h + 1) (length h)); [lia|].
    match type of H with Some (decide_side ?x) = _ => assert (Hk : took short_p long_p (prev_short s, prev_long s) x (h ++ [c])) end.
    { took_snoc F2 F3. }
    match type of H with Some ?x = Some _ => assert (Ed : x = (s', o)) by congruence end.
    destruct (decide_took _ _ _ _ _ _ _ Hk ltac:(rewrite length_app; cbn; lia) Ed) as [Hf ->].
    split; [done|]. cbn [fst snd]. by rewrite P1, P2.
Qed.

Lemma grow_new long_p h i :
  (long_p < length h)%nat -> length (grow long_p h i) <> length h ->
  exists c, grow long_p h i = h ++ [c] /\ last (default [] (i_last_n i 1%nat)) = Some c /\ last_ts h < ts c.
Proof.
  intros Hl. unfold grow. destruct (Nat.leb_spec (length h) long_p); [lia|]. rewrite length_app.
  destruct (last (default [] (i_last_n i 1%nat))) as [c|]; cbn; [|lia]. destruct (Z.ltb_spec (last_ts h) (ts c)); cbn; [|lia]. eauto.
Qed.

(** A run refines the history, and every turn's signal is the verdict on its
    step. *)
Lemma turns_follow symbol qty short_p long_p inputs : forall s h n s' n' sents,
  follows short_p long_p s h -> turns symbol qty s n inputs = Some (s', n', sents) ->
  n' = n + Z.of_nat (length (filter is_Some sents)) /\ length sents = length inputs /\
  forall k i, inputs !! k = Some i ->
    let h0 := fold_left (grow long_p) (take k inputs) h in
    let h1 := grow long_p h0 i in
    sents !! k = Some ((fun sd => Signals.new (i_now i) symbol sd qty f_zero 1) <$>
      (if (length h0 <=? long_p)%nat || (length h1 =? length h0)%nat then None else verdict short_p long_p h0 h1)).
Proof.
  induction inputs as [|i inputs IH]; intros s h n s' n' sents Hf H; cbn [turns] in H.
  { simplify_eq. cbn. split_and!; [lia|done|done]. }
  unfold turn_of in H. destruct (wake s (i_last_n i)) as [[s1 o]|] eqn:Ew; [|done]. cbn [mbind option_bind] in H.
  destruct (wake_follows _ _ _ _ _ _ _ Hf Ew) as [Hf1 Ho].
  assert (Hrun : exists n1 rest, turns symbol qty s1 n1 inputs = Some (s', n', rest) /\
    sents = ((fun sd => Signals.new (i_now i) symbol sd qty f_zero 1) <$> o) :: rest /\ n1 = n + match o with Some _ => 1 | None => 0 end).
  { destruct o as [sd|]; [destruct (deliver (i_polls i)) as [[]|]; try done|];
      (match type of H with context [turns _ _ ?a ?b _] => destruct (turns symbol qty a b inputs) as [[[s2 n2] rest]|] eqn:Et end; [|done]);
      cbn in H; simplify_eq; eexists _, rest; (split; [exact Et|split; [done|lia]]). }
  destruct Hrun as (n1 & rest & Et & -> & Hn). destruct (IH _ _ _ _ _ _ Hf1 Et) as (I1 & I2 & I3).
  split_and!; [|cbn; lia|].
  - rewrite filter_cons, I1, Hn. destruct o as [sd|]; cbn; case_decide as Hd; cbn [length]; first [lia|by destruct Hd|by destruct Hd; eauto].
  - intros [|k] j Hk; cbn in Hk |- *; [by simplify_eq|]. exact (I3 k j Hk).
Qed.

Lemma crossing_cases ps pl cs cl :
  match crossing ps pl cs cl with
  | Some Signals.Buy => f_le ps pl = true /\ f_lt cl cs = true
  | Some Signals.Sell => f_le pl ps = true /\ f_lt cs cl = true
  | None => (f_le ps pl && f_lt cl cs) || (f_le pl ps && f_lt cs cl) = false
  end.
Proof.
  unfold crossing. destruct (f_le ps pl && f_lt cl cs) eqn:E1; [by apply andb_true_iff in E1|].
  destruct (f_le pl ps && f_lt cs cl) eqn:E2; [by apply andb_true_iff in E2|done].
Qed.

(** ** Claims *)

(** C34. Signals are exactly the crossings.  Through any run of turns from
    the start of the thread, whatever the store answers, [history] being the
    candles taken in so far: a turn sends a signal only when the history was
    already warm (more than [long_p] candles), the turn added one candle [c]
    to it, the newest of the store and strictly later than the last one, and
    the fast average of the history crossed the slow one with [c], up from
    at-or-below for a buy and down from at-or-above for a sell; the signal is
    the one of the configured symbol and quantity.  A turn of a warm history
    that added a candle and sent nothing saw no crossing.  The counter is the
    number of signals sent. *)
Theorem strategy_signal_justified symbol qty short_p long_p inputs s n sents :
  turns symbol qty (init short_p long_p) 0 inputs = Some (s, n, sents) ->
  n = Z.of_nat (length (filter is_Some sents)) /\ length sents = length inputs /\
  forall k i, inputs !! k = Some i ->
    let h := history long_p (take k inputs) in
    let h' := history long_p (take (S k) inputs) in
    (forall sig, sents !! k = Some (Some sig) ->
       (long_p < length h)%nat /\
       (exists c, h' = h ++ [c] /\ last (default [] (i_last_n i 1%nat)) = Some c /\ last_ts h < ts c) /\
       exists sd ps pl cs cl, sig = Signals.new (i_now i) symbol sd qty f_zero 1 /\ Signals.side sig = sd /\
         average short_p h = Some ps /\ average long_p h = Some pl /\
         average short_p h' = Some cs /\ average long_p h' = Some cl /\
         match sd with
         | Signals.Buy => f_le ps pl = true /\ f_lt cl cs = true
         | Signals.Sell => f_le pl ps = true /\ f_lt cs cl = true
         end) /\
    (sents !! k = Some None -> (long_p < length h)%nat -> length h' <> length h ->
       forall ps pl cs cl, average short_p h = Some ps -> average long_p h = Some pl ->
         average short_p h' = Some cs -> average long_p h' = Some cl ->
         (f_le ps pl && f_lt cl cs) || (f_le pl ps && f_lt cs cl) = false).
Proof.
  intros H. destruct (turns_follow _ _ _ _ _ _ _ _ _ _ _ (init_follows short_p long_p) H) as (H1 & H2 & H3).
  split_and!; [lia|done|]. intros k i Hk h h'. specialize (H3 k i Hk). cbn zeta in H3.
  assert (E : h' = grow long_p h i) by (unfold h', h, history; by rewrite (take_S_r _ _ _ Hk), fold_left_app).
  change (fold_left _ _ []) with h in H3. rewrite <- E in H3. rewrite H3. clear H3.
  destruct (Nat.leb_spec (length h) long_p) as [Hl|Hl]; cbn [orb]; [split; [done|lia]|].
  destruct (Nat.eqb_spec (length h') (length h)) as [Hn|Hn]; cbn; [split; [done|congruence]|]. split.
  - intros sig Hs. split; [done|]. split; [rewrite E in *; by apply grow_new|]. injection Hs as Hs. unfold verdict in Hs.
    destruct (average short_p h) as [ps|], (average long_p h) as [pl|], (average short_p h') as [cs|], (average long_p h') as [cl|]; try done.
    pose proof (crossing_cases ps pl cs cl) as Hc. destruct (crossing ps pl cs cl) as [sd|]; [|done]. cbn in Hs. simplify_eq.
    exists sd, ps, pl, cs, cl. split_and!; try done; destruct sd; done.
  - intros Hs _ _ ps pl cs cl E1 E2 E3 E4. pose proof (crossing_cases ps pl cs cl) as Hc. injection Hs as Hs. unfold verdict in Hs.
    rewrite E1, E2, E3, E4 in Hs. by destruct (crossing ps pl cs cl).
Qed.

Definition px (t p : Z) : Candle := mkCandle t (f_of_Z p) (f_of_Z p) (f_of_Z p) (f_of_Z p) f_one.

(** A 1/2 crossover strategy that has seen 10, 10, 10. *)
Definition warm : t :=
  match wake (init 1 2) (fun _ => Some [px 1 10; px 2 10; px 3 10]) with Some (s, _) => s | None => init 0 0 end.

(** Closes 10, 10, 10, 20, 20: the fast average crosses up with the fourth
    and stays above with the fifth. *)
Definition rally : list input :=
  [mkInput (fun _ => Some [px 1 10; px 2 10; px 3 10]) 6 [];
   mkInput (fun _ => Some [px 4 20]) 7 [(false, false); (true, false)];
   mkInput (fun _ => Some [px 5 20]) 8 [];
   mkInput (fun _ => Some [px 5 20]) 9 []].

Definition rally_sent : list (option Signals.Signal) := [None; Some (Signals.new 7 [66; 84; 67] Signals.Buy f_one f_zero 1); None; None].

Lemma strategy_signal_justified_witness :
  (exists s, turns [66; 84; 67] f_one (init 1 2) 0 rally = Some (s, 1, rally_sent)) /\
  last_ts (history 2 (take 1 rally)) < ts (px 4 20).
Proof.
  assert (H : exists s, turns [66; 84; 67] f_one (init 1 2) 0 rally = Some (s, 1, rally_sent)) by (eexists; vm_compute; reflexivity).
  split; [exact H|]. destruct H as [s H].
  destruct (proj1 (proj2 (proj2 (strategy_signal_justified _ _ _ _ _ _ _ _ H)) 1%nat _ eq_refl) _ eq_refl) as (_ & (c & _ & Hc & Hlt) & _).
  injection Hc as <-. exact Hlt.
Defined.

(** Once warm the strategy looks only at the newest candle: when two
    candles arrived since its last wake-up, the older one never enters the
    averages (here the closes are 10, 10, 10, 30, 20, and the two-candle
    average is taken over 10 and 20). *)
Theorem strategy_skips_coalesced_candles :
  exists s', wake warm (fun n => Some (lastn n [px 1 10; px 2 10; px 3 10; px 4 30; px 5 20])) = Some (s', Some Signals.Buy) /\
    candles_seen s' = (candles_seen warm + 1)%nat /\ last_candle_ts s' = 5 /\
    Sma.window (long_sma s') = [f_of_Z 10; f_of_Z 20] /\ Sma.value (long_sma s') = Some (f_of_Z 15).
Proof. eexists. split; [vm_compute; reflexivity|]. split_and!; vm_compute; reflexivity. Qed.

End Strategy.

Module Persist.

(** The files the process can see, by path. *)
Abbreviation files := (gmap string string).

(** [path.with_extension("tmp")], for a path that names a file. *)
Definition with_tmp (path : string) : string :=
  match Text.rsplit_once "/"%char path with
  | Some (dir, name) => dir +:+ String "/" (Text.file_stem name +:+ ".tmp")
  | None => Text.file_stem path +:+ ".tmp"
  end.

Section Text.
Context `{T : F64Text}.

(** [load_position]; [readable] is whether the read itself succeeds on an
    existing file. *)
Definition load_position (fs : files) (readable : bool) (path : string) : f64 :=
  match fs !! path with
  | Some s =>
      if readable then
        match parse_f64 (Text.trim s) with
        | Some p => if f_is_finite p then p else f_zero
        | None => f_zero
        end
      else f_zero
  | None => f_zero
  end.

(** Where an I/O error strikes: the temporary file is not created, is cut
    short after [n] characters, or is not renamed. *)
Inductive io_fault : Type := NoFault | CreateFails | WriteFails (n : nat) | RenameFails.

Definition line (position : f64) : string := print_f64 position +:+ String (Ascii.ascii_of_nat 10) EmptyString.

(** What the two library calls do to the files, one visible change at a time:
    [fs::write] truncates or creates the file and appends to it, [fs::rename]
    replaces the target. *)
Inductive fs_op : Type :=
| Create (path : string)
| Append (path : string) (a : ascii)
| Rename (from to : string).

Definition apply_op (fs : files) (op : fs_op) : files :=
  match op with
  | Create p => <[p := EmptyString]> fs
  | Append p a => match fs !! p with Some s => <[p := s +:+ String a EmptyString]> fs | None => fs end
  | Rename from to => match fs !! from with Some s => <[to := s]> (delete from fs) | None => fs end
  end.

Definition apply_ops (fs : files) (ops : list fs_op) : files := fold_left apply_op ops fs.

Definition write_ops (path content : string) : list fs_op :=
  Create path :: (Append path <$> String.list_ascii_of_string content).

Definition persist_ops (path : string) (position : f64) : list fs_op :=
  write_ops (with_tmp path) (line position) ++ [Rename (with_tmp path) path].

(** [persist_position]: the [?] after each call returns its error. *)
Definition persist_position (fs : files) (path : string) (position : f64) (flt : io_fault) : files * result unit io_fault :=
  let tmp := with_tmp path in
  match flt with
  | CreateFails => (fs, Err CreateFails)
  | WriteFails n => (apply_ops fs (take (S n) (write_ops tmp (line position))), Err (WriteFails n))
  | RenameFails => (apply_ops fs (write_ops tmp (line position)), Err RenameFails)
  | NoFault => (apply_ops fs (persist_ops path position), Ok tt)
  end.

(** What the process can leave when it dies inside [persist_position]: the
    files after any number of these changes. *)
Definition crash_states (fs : files) (path : string) (position : f64) : list files :=
  (fun k => apply_ops fs (take k (persist_ops path position))) <$> seq 0 (S (length (persist_ops path position))).

(** ** Lemmas *)

Lemma load_frame fs path s readable :
  with_tmp path <> path -> load_position (<[with_tmp path := s]> fs) readable path = load_position fs readable path.
Proof. intros H. unfold load_position. by rewrite lookup_insert_ne. Qed.

Lemma append_ops fs p s l :
  apply_ops (<[p := s]> fs) (Append p <$> l) = <[p := s +:+ String.string_of_list_ascii l]> fs.
Proof.
  unfold apply_ops. revert s. induction l as [|a l IH]; intros s; cbn; [by rewrite Text.app_nil_str|].
  rewrite lookup_insert_eq, insert_insert_eq, IH. f_equal. by rewrite Text.app_assoc_str.
Qed.

(** Any part of a write leaves the files alone or has the file hold a prefix
    of the content. *)
Lemma write_part fs p content k :
  apply_ops fs (take k (write_ops p content)) = fs \/
  exists s, apply_ops fs (take k (write_ops p content)) = <[p := s]> fs.
Proof.
  destruct k as [|k]; [by left|right]. unfold write_ops. cbn [take]. rewrite <- fmap_take.
  change (apply_ops fs (Create p :: ?l)) with (apply_ops (<[p := EmptyString]> fs) l). rewrite append_ops. eauto.
Qed.

Lemma write_all fs p content : apply_ops fs (write_ops p content) = <[p := content]> fs.
Proof.
  unfold write_ops. change (apply_ops fs (Create p :: ?l)) with (apply_ops (<[p := EmptyString]> fs) l).
  rewrite append_ops. cbn. by rewrite String.string_of_list_ascii_of_string.
Qed.

Lemma persist_all fs path position :
  apply_ops fs (persist_ops path position) = <[path := line position]> (delete (with_tmp path) fs).
Proof.
  unfold persist_ops, apply_ops. rewrite fold_left_app. fold (apply_ops fs (write_ops (with_tmp path) (line position))).
  rewrite write_all. cbn. by rewrite lookup_insert_eq, delete_insert_eq.
Qed.

Context {L : F64TextLaws T}.

Lemma load_line fs path position :
  f_is_finite position = true -> load_position (<[path := line position]> fs) true path = position.
Proof.
  intros Hf. unfold load_position. rewrite lookup_insert_eq. unfold line.
  rewrite Text.trim_line by (by apply print_no_space). rewrite parse_print by done. by rewrite Hf.
Qed.

Lemma persist_load fs path position flt fs' r :
  with_tmp path <> path -> f_is_finite position = true ->
  persist_position fs path position flt = (fs', r) ->
  load_position fs' true path = match r with Ok _ => position | Err _ => load_position fs true path end.
Proof.
  intros Hne Hf H. destruct flt as [| |n|]; cbn [persist_position] in H; simplify_eq.
  - rewrite persist_all. by apply load_line.
  - done.
  - destruct (write_part fs (with_tmp path) (line position) (S n)) as [->|[s ->]]; [done|by apply load_frame].
  - rewrite write_all. by apply load_frame.
Qed.

End Text.

(** ** Claims *)

(** C33. Replacing the position file is atomic: whatever instant the process
    dies at (after any of the changes its calls make to the files, every length
    the temporary file may have reached included), a restart reads either the old position or the new one, bit for bit; an
    error returned by any of the system calls leaves the old one, success
    the new one. *)
Theorem persist_crash_safe `{T : F64Text} {L : F64TextLaws T} (fs : files) path position :
  with_tmp path <> path -> f_is_finite position = true ->
  (forall fs', In fs' (crash_states fs path position) ->
     load_position fs' true path = load_position fs true path \/ load_position fs' true path = position) /\
  (forall flt, load_position (persist_position fs path position flt).1 true path =
     match (persist_position fs path position flt).2 with Ok _ => position | Err _ => load_position fs true path end).
Proof.
  intros Hne Hf. split.
  - intros fs' Hin. apply list_elem_of_In, list_elem_of_fmap in Hin as (k & -> & _).
    destruct (decide (k <= length (write_ops (with_tmp path) (line position)))%nat) as [Hk|Hk]; unfold persist_ops.
    + left. rewrite take_app_le by done. destruct (write_part fs (with_tmp path) (line position) k) as [->|[s ->]]; [done|by apply load_frame].
    + right. rewrite take_ge by (rewrite length_app; cbn [length]; lia).
      exact (persist_load fs path position NoFault _ _ Hne Hf (surjective_pairing _)).
  - intros flt. exact (persist_load fs path position flt _ _ Hne Hf (surjective_pairing _)).
Qed.

#[local] Existing Instance PlainText.plain_text.
#[local] Existing Instance PlainText.plain_text_laws.

Lemma persist_crash_safe_witness :
  with_tmp "/var/hub/position.state" = "/var/hub/position.tmp"%string /\
  load_position (persist_position ∅ "/var/hub/position.state" (f_lit 3 2) NoFault).1 true "/var/hub/position.state" = f_lit 3 2.
Proof.
  split; [vm_compute; reflexivity|].
  exact (proj2 (persist_crash_safe ∅ "/var/hub/position.state" (f_lit 3 2) ltac:(vm_compute; discriminate) eq_refl) NoFault).
Defined.

End Persist.

Module Risk.

Record RiskGates : Type := mkGates {
  max_abs_position : f64;
  max_qty_per_signal : f64;
  max_signals_per_sec : Z
}.

Inductive RiskRejection : Type := InvalidQty | PositionLimitExceeded | RateLimitExceeded.

Record RateLimiter : Type := mkRate {
  bucket_start : Z;      (* Instant, nanoseconds *)
  count : Z;
  max : Z
}.

Definition SECOND : Z := 1000000000.

(** [RateLimiter::new] and [try_accept] at time [now]. *)
Definition rate_new (now max : Z) : RateLimiter := mkRate now 0 max.

Definition try_accept (r : RateLimiter) (now : Z) : RateLimiter * bool :=
  let r1 := if SECOND <=? u64_saturating_sub now (bucket_start r) then mkRate now 0 (max r) else r in
  if max r1 <=? count r1 then (r1, false) else (mkRate (bucket_start r1) (count r1 + 1) (max r1), true).

(** [check_risk]. *)
Definition check_risk (qty position delta : f64) (gates : RiskGates) (rate : RateLimiter) (now : Z)
    : RateLimiter * result unit RiskRejection :=
  if negb (f_is_finite qty) || f_le qty f_zero || f_lt (max_qty_per_signal gates) qty then (rate, Err InvalidQty)
  else
    let new_pos := f_add position delta in
    if negb (f_is_finite new_pos) || f_lt (max_abs_position gates) (f_abs new_pos) then (rate, Err PositionLimitExceeded)
    else
      match try_accept rate now with
      | (rate', true) => (rate', Ok tt)
      | (rate', false) => (rate', Err RateLimitExceeded)
      end.

(** The executor's locals, what it shares with the poller
    ([signals_consumed], [signals_rejected], [position_atomic]) and the
    files. *)
Record t : Type := mkExecutor {
  position : f64;
  position_atomic : f64;
  total_signals : Z;
  signals_consumed : Z;
  signals_rejected : Z;
  persist_errors : Z;
  rate : RateLimiter;
  fs : Persist.files
}.

(** [delta] of a signal. *)
Definition delta_of (sig : Signals.Signal) : f64 :=
  match Signals.side sig with Signals.Buy => Signals.s_qty sig | Signals.Sell => f_neg (Signals.s_qty sig) end.

Section Executor.
Context `{T : F64Text}.
Context (gates : RiskGates) (position_path : option string).

(** The start of [executor_thread]. *)
Definition start (files : Persist.files) (readable : bool) (now : Z) : t :=
  let position := match position_path with Some p => Persist.load_position files readable p | None => f_zero end in
  mkExecutor position position 0 0 0 0 (rate_new now (max_signals_per_sec gates)) files.

(** The loop body on a popped signal, at clock reading [now], with the I/O
    fault (if any) that its write of the position file meets; the boolean is
    whether the signal was executed. *)
Definition execute (e : t) (sig : Signals.Signal) (now : Z) (flt : Persist.io_fault) : t * bool :=
  let delta := delta_of sig in
  match check_risk (Signals.s_qty sig) (position e) delta gates (rate e) now with
  | (rate', Err _) =>
      (mkExecutor (position e) (position_atomic e) (total_signals e) (signals_consumed e)
         (fetch_add1 (signals_rejected e)) (persist_errors e) rate' (fs e), false)
  | (rate', Ok _) =>
      let total := u64_wrapping_add (total_signals e) 1 in
      let position' := f_add (position e) delta in
      let '(files, errs) :=
        match position_path with
        | None => (fs e, persist_errors e)
        | Some p =>
            match Persist.persist_position (fs e) p position' flt with
            | (files, Ok _) => (files, persist_errors e)
            | (files, Err _) => (files, u64_wrapping_add (persist_errors e) 1)
            end
        end in
      (mkExecutor position' position' total total (signals_rejected e) errs rate' files, true)
  end.

(** The loop over the signals popped, each with its clock reading and the
    fault of its write. *)
Fixpoint execute_all (e : t) (sigs : list (Signals.Signal * Z * Persist.io_fault)) : t * list bool :=
  match sigs with
  | [] => (e, [])
  | (sig, now, flt) :: sigs' =>
      let '(e1, ok) := execute e sig now flt in
      let '(e2, oks) := execute_all e1 sigs' in
      (e2, ok :: oks)
  end.

(** ** Lemmas *)



Lemma check_risk_finite qty position delta rate now rate' :
  check_risk qty position delta gates rate now = (rate', Ok tt) -> f_is_finite (f_add position delta) = true.
Proof. unfold check_risk. repeat case_match; try done. bool_hyps. done. Qed.

Lemma check_risk_accepts qty position delta rate now rate' :
  check_risk qty position delta gates rate now = (rate', Ok tt) -> try_accept rate now = (rate', true).
Proof. unfold check_risk. repeat case_match; by intros; simplify_eq. Qed.

Lemma try_accept_count r now r' b :
  0 <= max r -> 0 <= count r <= max r -> try_accept r now = (r', b) ->
  max r' = max r /\ 0 <= count r' <= max r /\
  (bucket_start r' = bucket_start r /\ count r' = count r + (if b then 1 else 0) \/
   bucket_start r' = now /\ SECOND <= now - bucket_start r /\ count r' = if b then 1 else 0).
Proof.
  intros Hm Hc H. unfold try_accept, u64_saturating_sub in H.
  destruct (Z.leb_spec SECOND (Z.max 0 (now - bucket_start r))) as [Hs|Hs].
  - simpl in H. destruct (Z.leb_spec (max r) 0); simplify_eq; simpl; unfold SECOND in *; lia.
  - destruct (Z.leb_spec (max r) (count r)); simplify_eq; simpl; lia.
Qed.

(** A turn of the loop, seen from outside: either the signal is executed and
    the gates passed, or nothing but the rejection counter and the rate window
    changed. *)
Lemma execute_cases e sig now flt e' ok :
  execute e sig now flt = (e', ok) ->
  (ok = true /\ check_risk (Signals.s_qty sig) (position e) (delta_of sig) gates (rate e) now = (rate e', Ok tt) /\
     position e' = f_add (position e) (delta_of sig) /\ position_atomic e' = position e' /\
     total_signals e' = fetch_add1 (total_signals e) /\ signals_consumed e' = total_signals e' /\
     signals_rejected e' = signals_rejected e /\
     fs e' = match position_path with None => fs e | Some p => (Persist.persist_position (fs e) p (position e') flt).1 end) \/
  (ok = false /\ position e' = position e /\ position_atomic e' = position_atomic e /\ total_signals e' = total_signals e /\
     signals_consumed e' = signals_consumed e /\ signals_rejected e' = fetch_add1 (signals_rejected e) /\ fs e' = fs e /\
     (rate e' = rate e \/ try_accept (rate e) now = (rate e', false))).
Proof.
  unfold execute. destruct (check_risk _ _ _ _ _ _) as [rate' [[]|x]] eqn:Ec; intros H.
  - left. destruct position_path as [p|]; [destruct (Persist.persist_position _ _ _ _) as [files [[]|y]] eqn:Ep|]; simplify_eq; simpl;
      rewrite ?Ep; done.
  - right. simplify_eq. simpl. split_and!; try done. unfold check_risk in Ec. repeat case_match; simplify_eq; auto.
Qed.

(** How many more signals can be accepted in the window [[w, w + 1 s)] from a
    bucket that started at [b] with [c] accepted. *)
Definition allowance (w : Z) (r : RateLimiter) : Z :=
  if w + SECOND <=? bucket_start r then 0
  else if w <=? bucket_start r then max r - count r
  else if w <? bucket_start r + SECOND then 2 * max r - count r
  else 2 * max r.

Definition in_second (w t : Z) : bool := (w <=? t) && (t <? w + SECOND).

Definition rate_ok (r : RateLimiter) : Prop := 0 <= count r <= max r.

Lemma try_accept_allowance w r now r' b :
  rate_ok r -> bucket_start r <= now -> try_accept r now = (r', b) ->
  rate_ok r' /\ max r' = max r /\ bucket_start r' <= now /\
  allowance w r' + (if b && in_second w now then 1 else 0) <= allowance w r.
Proof.
  unfold rate_ok. intros Hc Hn H.
  destruct (try_accept_count r now r' b ltac:(lia) Hc H) as (M & C & HB).
  assert (Hb : bucket_start r' <= now) by lia. split_and!; [lia..|].
  assert (Hlt : bucket_start r' = now \/ now < bucket_start r' + SECOND).
  { unfold try_accept, u64_saturating_sub in H.
    destruct (Z.leb_spec SECOND (Z.max 0 (now - bucket_start r))); repeat case_match; simplify_eq; simpl; lia. }
  unfold allowance, in_second. rewrite M. clear M H.
  destruct (Z.leb_spec (w + SECOND) (bucket_start r')), (Z.leb_spec w (bucket_start r')), (Z.ltb_spec w (bucket_start r' + SECOND)),
    (Z.leb_spec (w + SECOND) (bucket_start r)), (Z.leb_spec w (bucket_start r)), (Z.ltb_spec w (bucket_start r + SECOND)),
    (Z.leb_spec w now), (Z.ltb_spec now (w + SECOND)), b; cbn [andb]; unfold SECOND in *; lia.
Qed.









End Executor.

(** ** Claims *)

Section Claims.
Context `{T : F64Text}.


(** C31. The rate limit: with a monotone clock, at most twice
    [max_signals_per_sec] signals are executed in any window of one second
    (the buckets tumble, so a window can straddle two), and the bucket never
    counts more than its maximum. *)
Theorem executor_rate_bounded gates path files readable t0 sigs e' oks w :
  0 <= max_signals_per_sec gates ->
  StronglySorted Z.le (t0 :: ((fun x => x.1.2) <$> sigs)) ->
  execute_all gates path (start gates path files readable t0) sigs = (e', oks) ->
  rate_ok (rate e') /\
  Z.of_nat (length (filter (fun x => is_true (x.2 && in_second w x.1.1.2)) (zip sigs oks))) <= 2 * max_signals_per_sec gates.
Proof.
  intros Hm Hs H.
  remember (start gates path files readable t0) as e eqn:He.
  assert (Hr : rate_ok (rate e) /\ max (rate e) = max_signals_per_sec gates /\ bucket_start (rate e) <= t0)
    by (subst e; simpl; unfold rate_ok; simpl; lia).
  clear He. destruct Hr as (Hr & Hmax & Hb).
  enough (rate_ok (rate e') /\ Z.of_nat (length (filter (fun x => is_true (x.2 && in_second w x.1.1.2)) (zip sigs oks))) <= allowance w (rate e)) as [Hx Hy].
  { split; [done|]. revert Hy. generalize (length (filter (fun x => is_true (x.2 && in_second w x.1.1.2)) (zip sigs oks))). intros n Hy.
    unfold rate_ok in *. unfold allowance in Hy. rewrite Hmax in *. repeat case_match; lia. }
  clear Hmax Hm. revert t0 e e' oks Hr Hb Hs H.
  induction sigs as [|[[sig now] flt] sigs IH]; intros t0 e e' oks Hr Hb Hs H; simpl in H.
  { simplify_eq. simpl. split; [done|]. unfold allowance, rate_ok in *. repeat case_match; lia. }
  destruct (execute gates path e sig now flt) as [e1 ok] eqn:E1.
  destruct (execute_all gates path e1 sigs) as [e2 oks2] eqn:E2. simplify_eq.
  assert (Hn : t0 <= now /\ StronglySorted Z.le (now :: ((fun x => x.1.2) <$> sigs))).
  { simpl in Hs. inversion Hs as [|? ? Hs' Hf]; subst. inversion Hf; subst. done. }
  destruct Hn as [Hn Hs'].
  assert (Hstep : rate_ok (rate e1) /\ bucket_start (rate e1) <= now /\
    allowance w (rate e1) + (if ok && in_second w now then 1 else 0) <= allowance w (rate e)).
  { destruct (execute_cases _ _ _ _ _ _ _ _ E1) as [(-> & Ec & _)|(-> & _ & _ & _ & _ & _ & _ & [Hsame|Ha])].
    - apply check_risk_accepts in Ec.
      destruct (try_accept_allowance w (rate e) now _ _ Hr ltac:(lia) Ec) as (A1 & _ & A2 & A3). done.
    - rewrite Hsame. simpl. split_and!; [done|lia|lia].
    - destruct (try_accept_allowance w (rate e) now _ _ Hr ltac:(lia) Ha) as (A1 & _ & A2 & A3). done. }
  destruct Hstep as (R1 & R2 & R3). destruct (IH now e1 e' oks2 R1 R2 Hs' E2) as [I1 I2].
  split; [done|]. cbn [zip zip_with]. rewrite filter_cons. cbn [snd fst].
  destruct (ok && in_second w now); case_decide as Hd; cbn [length]; try lia; first [discriminate Hd|exfalso; by apply Hd].
Qed.

(** C32. A restart finds the position: when a state file is configured and
    its writes succeed, a new process reading the file starts with exactly the
    position the old one had, whatever it had executed and rejected. *)
Theorem executor_restart_restores {L : F64TextLaws T} gates path files now sigs e' oks :
  Persist.with_tmp path <> path -> Forall (fun x => x.2 = Persist.NoFault) sigs ->
  execute_all gates (Some path) (start gates (Some path) files true now) sigs = (e', oks) ->
  forall now', position (start gates (Some path) (fs e') true now') = position e'.
Proof.
  intros Hne Hall H now'. change (Persist.load_position (fs e') true path = position e').
  remember (start gates (Some path) files true now) as e eqn:He.
  assert (Hinv : Persist.load_position (fs e) true path = position e) by (by subst e). clear He.
  revert e Hinv oks H. induction Hall as [|[[sig nw] flt] sigs Hf Hall IH]; intros e Hinv oks H; simpl in H; [by simplify_eq|].
  destruct (execute gates (Some path) e sig nw flt) as [e1 ok] eqn:E1.
  destruct (execute_all gates (Some path) e1 sigs) as [e2 oks2] eqn:E2. simplify_eq.
  refine (IH e1 _ _ E2). simpl in Hf. subst flt.
  destruct (execute_cases _ _ _ _ _ _ _ _ E1) as
    [(-> & Ec & Hp & _ & _ & _ & _ & Hfs)|(-> & Hp & _ & _ & _ & _ & Hfs & _)]; rewrite Hfs; [|congruence].
  refine (Persist.persist_load _ _ _ Persist.NoFault _ (Ok tt) Hne _ eq_refl). rewrite Hp. by eapply check_risk_finite.
Qed.

End Claims.

(** ** Witnesses: a buy of 1, a corrupt one, a sell of 3, against limits 2
    and 5 and two signals per second. *)

Definition gates1 : RiskGates := mkGates (f_of_Z 5) (f_of_Z 4) 2.

Definition signal (sd : Signals.Side) (q : f64) : Signals.Signal := Signals.new 0 [66; 84; 67] sd q f_zero 1.

Definition traffic : list (Signals.Signal * Z * Persist.io_fault) :=
  [(signal Signals.Buy f_one, 10, Persist.NoFault); (signal Signals.Buy f_nan, 20, Persist.NoFault);
   (signal Signals.Sell (f_of_Z 3), 30, Persist.NoFault); (signal Signals.Buy f_one, 40, Persist.NoFault)].

Definition state_file : string := "position.state".

#[local] Existing Instances PlainText.plain_text PlainText.plain_text_laws.

Definition run1 : t * list bool := execute_all gates1 (Some state_file) (start gates1 (Some state_file) ∅ true 0) traffic.


Lemma executor_rate_bounded_witness : rate_ok (rate (fst run1)) /\ max_signals_per_sec gates1 = 2.
Proof.
  split; [|reflexivity].
  refine (proj1 (executor_rate_bounded gates1 (Some state_file) ∅ true 0 traffic (fst run1) (snd run1) 0 _ _ (surjective_pairing run1)));
    [vm_compute; discriminate|].
  change (StronglySorted Z.le [0; 10; 20; 30; 40]). repeat constructor; discriminate.
Defined.

Lemma executor_restart_restores_witness :
  position (start gates1 (Some state_file) (fs (fst run1)) true 99) = f_of_Z (-2).
Proof.
  rewrite (executor_restart_restores gates1 state_file ∅ 0 traffic (fst run1) (snd run1));
    [vm_compute; reflexivity|vm_compute; discriminate|repeat constructor|exact (surjective_pairing run1)].
Defined.

(** Tumbling buckets: with a limit of two signals per second, four are
    executed within 0.2 s around the end of a bucket. *)
Lemma rate_window_straddles :
  snd (execute_all gates1 None (start gates1 None ∅ true 0)
    ((fun p => (signal p.1 f_one, p.2, Persist.NoFault)) <$>
       [(Signals.Buy, 900000000); (Signals.Buy, 900000001); (Signals.Buy, 999999999); (Signals.Sell, 1000000000); (Signals.Sell, 1000000001)]))
  = [true; true; false; true; true].
Proof. vm_compute. reflexivity. Qed.

End Risk.
