(* ===== verification/HubSys.v ===== *)
(** * The market hub as one system ([src/src/bin/market_hub.rs], [main])

    The threads of the hub over what they share: the ingester of [Shm.v], the
    strategy and executor of [Hub.v], the metrics poller and [main] itself,
    with the shutdown flag the signal handlers raise, the signal bus (the
    [SpscRing] of [Spsc.v]), the store and its [version], and the counters.
    A schedule is any sequence of events; each event lets one thread take one
    step up to its next access to shared state, or lets the environment act:
    the feed handler pushes a candle, a signal arrives, the five seconds of a
    join pass.  Whole operations of the store and of the rings are one step
    here; [StoreConc] and [SpscConc] take them apart.

    Ghost fields record history: the signals delivered to the bus and those
    the executor took off it. *)

From Stdlib Require Import SpecFloat Ascii.
From S2P Require Import Prelude Float64 Candle RingBuffer Spsc Text Cold Store StoreSpec Shm Signals Sma Hub.

#[local] Open Scope Z_scope.

Module HubSys.
Import ShmSys ShmRing.

(** ** Configuration *)

(** The process environment. *)
Definition environ : Type := gmap string string.

Definition env_usize (env : environ) (key : string) (default : Z) : Z :=
  match env !! key with
  | Some v => match Text.parse_usize v with Some n => n | None => default end
  | None => default
  end.

Definition env_str (env : environ) (key default : string) : string :=
  match env !! key with Some v => v | None => default end.

Section env.
Context `{T : F64Text}.

Definition env_f64 (env : environ) (key : string) (default : f64) : f64 :=
  match env !! key with
  | Some v => match parse_f64 v with Some x => x | None => default end
  | None => default
  end.

(** [RiskGates::from_env]. *)
Definition gates_from_env (env : environ) : Risk.RiskGates :=
  Risk.mkGates (env_f64 env "RISK_MAX_ABS_POSITION" (f_of_Z 100)) (env_f64 env "RISK_MAX_QTY_PER_SIGNAL" (f_of_Z 10))
    (env_usize env "RISK_MAX_SIGNALS_PER_SEC" 1000).

(** What [main] reads before it starts the threads. *)
Record config : Type := mkConfig {
  shm_name : string; shm_cap : Z; hub_core : Z;
  symbol : string; short_p : nat; long_p : nat; qty : f64;
  gates : Risk.RiskGates; position_path : option string
}.

Definition config_from_env (env : environ) : config :=
  mkConfig (env_str env "FEED_SHM_NAME" "/tradekern_feed") (env_usize env "FEED_SHM_CAP" 65536) (env_usize env "HUB_CORE" 1)
    (env_str env "FEED_SYMBOL" "BTCUSDT:1m") (Z.to_nat (env_usize env "SMA_SHORT" 10)) (Z.to_nat (env_usize env "SMA_LONG" 20))
    (env_f64 env "SIGNAL_QTY" (f_lit 1 10)) (gates_from_env env) (env !! "POSITION_STATE_FILE"%string).
End env.

(** ** The metrics poller's report *)

Record metrics : Type := mkMetrics {
  appends_total : Z; symbols_active : f64; evictions_total : Z;
  spill_bytes_total : Z; spill_errors_total : Z; appends_rejected_total : Z;
  invalid_candles_total : Z; out_of_order_total : Z;
  popped_total : Z; ring_depth : f64; ring_fill_ratio : f64;
  signals_total : Z; executor_signals_total : Z; signals_rejected_total : Z; executor_position : f64
}.

Inductive alert : Type :=
| AppendsRejected (total : Z)
| InvalidCandles (total : Z)
| RingFilling (fill : f64) (depth capacity : Z)
| RiskRejecting (rejected : Z).

Definition is_multiple_of (n k : Z) : bool := n mod k =? 0.

Definition fill_ratio (depth capacity : Z) : f64 :=
  if 0 <? capacity then f_div (f_of_Z depth) (f_of_Z capacity) else f_zero.

(** The body of the poller's loop: what it sets and what it warns about. *)
Definition report (snap : Store.StoreSnapshot) (ig : Ingester.IngesterStats) (signals_p signals_c signals_r : Z) (pos : f64)
    : metrics * list alert :=
  let '(Ingester.mkIngesterStats popped depth capacity) := ig in
  let fill := fill_ratio depth capacity in
  (mkMetrics (Store.s_appends_total snap) (f_of_Z (Z.of_nat (Store.s_symbol_count snap))) (Store.s_evictions_total snap)
     (Store.s_parquet_spill_bytes_total snap) (Store.s_parquet_spill_errors_total snap) (Store.s_appends_rejected_total snap)
     (Store.s_invalid_candles_total snap) (Store.s_out_of_order_total snap)
     popped (f_of_Z depth) fill signals_p signals_c signals_r pos,
   (if (0 <? Store.s_appends_rejected_total snap) && is_multiple_of (Store.s_appends_rejected_total snap) 1000
    then [AppendsRejected (Store.s_appends_rejected_total snap)] else []) ++
   (if (0 <? Store.s_invalid_candles_total snap) && is_multiple_of (Store.s_invalid_candles_total snap) 100
    then [InvalidCandles (Store.s_invalid_candles_total snap)] else []) ++
   (if f_lt (f_lit 1 2) fill then [RingFilling fill depth capacity] else []) ++
   (if (0 <? signals_r) && is_multiple_of signals_r 10 then [RiskRejecting signals_r] else [])).

(** ** Threads *)

(** The slots of the signal bus. *)
Definition BUS_CAPACITY : Z := 1024.

(** The ingester thread; its state is the [Ingester.t]. *)
Inductive ipc : Type := INone | IRun | IExit.

(** The strategy thread. *)
Inductive spc : Type :=
| SNone | SWait   (* in [wait_for_change] *)
| SWoken          (* before the shutdown check *)
| SRun            (* before the fetch *)
| SPush           (* before [try_push] *)
| SFull           (* [try_push] failed, before the shutdown check *)
| SSent           (* delivered, before the counter is stored *)
| SExit.

Record strategy : Type := mkStrat {
  s_pc : spc; s_state : Strategy.t; last_seen : Z; signal_count : Z; s_sig : Signals.Signal
}.

(** The executor thread. *)
Inductive epc : Type :=
| ENone | EInit   (* before the position is loaded *)
| ELoop | EEmpty  (* nothing popped, before the shutdown check *)
| EExit.

Record executor : Type := mkExec { e_pc : epc; e_state : Risk.t }.

(** The metrics poller. *)
Inductive ppc : Type := PNone | PTop | PParked | PWoken | PRead | PExit.

Record poller : Type := mkPoll { p_pc : ppc; reported : option metrics; alerts : list alert }.

Inductive target : Type := JStrategy | JExecutor | JPoller.

(** The main thread. *)
Inductive mpc : Type :=
| MOpen           (* waiting for the shared-memory ring *)
| MSpawnStrategy | MSpawnExecutor | MSpawnPoller
| MPark           (* until the flag is raised *)
| MStop           (* ingester.stop_signal() *)
| MSignal         (* store.signal_waiters() *)
| MUnpark
| MJoin (th : target)
| MDrop           (* drop(ingester): stop and join *)
| MDone
| MGaveUp.        (* returned before the ring appeared *)

Section hub.
Context {disk faults : Type} `{!ColdStorage disk faults} `{T : F64Text}.

Record hub : Type := mkHub {
  ing : @Ingester.t disk;
  i_pc : ipc;
  shutdown : bool;
  bus : Spsc.t Signals.Signal;
  strat : strategy;
  signals_produced : Z;
  exec : executor;
  poll : poller;
  m_pc : mpc;
  sent : list Signals.Signal;                                   (* ghost *)
  done : list (Signals.Signal * Z * Persist.io_fault)           (* ghost *)
}.

Definition set_ing (h : hub) (i : Ingester.t) (p : ipc) : hub :=
  mkHub i p (shutdown h) (bus h) (strat h) (signals_produced h) (exec h) (poll h) (m_pc h) (sent h) (done h).
Definition set_strat (h : hub) (s : strategy) : hub :=
  mkHub (ing h) (i_pc h) (shutdown h) (bus h) s (signals_produced h) (exec h) (poll h) (m_pc h) (sent h) (done h).
Definition set_exec (h : hub) (e : executor) : hub :=
  mkHub (ing h) (i_pc h) (shutdown h) (bus h) (strat h) (signals_produced h) e (poll h) (m_pc h) (sent h) (done h).
Definition set_poll (h : hub) (p : poller) : hub :=
  mkHub (ing h) (i_pc h) (shutdown h) (bus h) (strat h) (signals_produced h) (exec h) p (m_pc h) (sent h) (done h).
Definition set_main (h : hub) (m : mpc) : hub :=
  mkHub (ing h) (i_pc h) (shutdown h) (bus h) (strat h) (signals_produced h) (exec h) (poll h) m (sent h) (done h).

Definition at_spc (s : strategy) (p : spc) : strategy := mkStrat p (s_state s) (last_seen s) (signal_count s) (s_sig s).

Definition store_of (h : hub) : Store.t := Ingester.store (ing h).

Context (fuel : nat) (w : ShmRingWriter) (r : ShmRingReader) (cfg : config).

(** ** Steps *)

Definition symbol_bytes (s : string) : list Z := (fun c => Z.of_nat (nat_of_ascii c)) <$> String.list_ascii_of_string s.

(** [strategy_thread]; [now] is the wall clock. *)
Definition strat_step (h : hub) (now : Z) : panics hub :=
  let s := strat h in
  match s_pc s with
  | SNone | SExit => Some h
  | SWait =>
      let v := Store.version (store_of h) in
      if v =? last_seen s then Some h
      else Some (set_strat h (mkStrat SWoken (s_state s) v (signal_count s) (s_sig s)))
  | SWoken => Some (set_strat h (at_spc s (if shutdown h then SExit else SRun)))
  | SRun =>
      '(s', side) ← Strategy.wake (s_state s) (Store.last_n (store_of h) (symbol cfg));
      match side with
      | None => Some (set_strat h (mkStrat SWait s' (last_seen s) (signal_count s) (s_sig s)))
      | Some sd =>
          let sig := Signals.new now (symbol_bytes (symbol cfg)) sd (qty cfg) f_zero 1 in
          Some (set_strat h (mkStrat SPush s' (last_seen s) (signal_count s) sig))
      end
  | SPush =>
      '(b, ok) ← Spsc.try_push (bus h) (s_sig s);
      Some (if ok : bool
            then mkHub (ing h) (i_pc h) (shutdown h) b (at_spc s SSent) (signals_produced h) (exec h) (poll h) (m_pc h)
                   (sent h ++ [s_sig s]) (done h)
            else set_strat h (at_spc s SFull))
  | SFull => Some (set_strat h (at_spc s (if shutdown h then SExit else SPush)))
  | SSent =>
      let n := u64_wrapping_add (signal_count s) 1 in
      Some (mkHub (ing h) (i_pc h) (shutdown h) (bus h) (mkStrat SWait (s_state s) (last_seen s) n (s_sig s)) n
              (exec h) (poll h) (m_pc h) (sent h) (done h))
  end.

(** [executor_thread]; [now], [flt] and [readable] are what its clock and its
    file operations meet. *)
Definition exec_step (h : hub) (now : Z) (flt : Persist.io_fault) (readable : bool) : panics hub :=
  let e := exec h in
  match e_pc e with
  | ENone | EExit => Some h
  | EInit =>
      Some (set_exec h (mkExec ELoop (Risk.start (gates cfg) (position_path cfg) (Risk.fs (e_state e)) readable now)))
  | ELoop =>
      '(b, x) ← Spsc.try_pop (bus h);
      match x with
      | Some sig =>
          let e' := (Risk.execute (gates cfg) (position_path cfg) (e_state e) sig now flt).1 in
          Some (mkHub (ing h) (i_pc h) (shutdown h) b (strat h) (signals_produced h) (mkExec ELoop e') (poll h) (m_pc h)
                  (sent h) (done h ++ [(sig, now, flt)]))
      | None => Some (set_exec h (mkExec EEmpty (e_state e)))
      end
  | EEmpty => Some (set_exec h (mkExec (if shutdown h then EExit else ELoop) (e_state e)))
  end.

(** [metrics_poller]. *)
Definition poll_step (h : hub) : hub :=
  let p := poll h in
  match p_pc p with
  | PNone | PExit => h
  | PTop => set_poll h (mkPoll (if shutdown h then PExit else PParked) (reported p) (alerts p))
  | PParked => set_poll h (mkPoll PWoken (reported p) (alerts p))
  | PWoken => set_poll h (mkPoll (if shutdown h then PExit else PRead) (reported p) (alerts p))
  | PRead =>
      let '(m, al) := report (Store.snapshot (store_of h)) (Ingester.stats r (ing h)) (signals_produced h)
        (Risk.signals_consumed (e_state (exec h))) (Risk.signals_rejected (e_state (exec h)))
        (Risk.position_atomic (e_state (exec h))) in
      set_poll h (mkPoll PTop (Some m) (alerts p ++ al))
  end.

(** [JoinHandle::is_finished]. *)
Definition is_finished (h : hub) (th : target) : bool :=
  match th with
  | JStrategy => match s_pc (strat h) with SExit => true | _ => false end
  | JExecutor => match e_pc (exec h) with EExit => true | _ => false end
  | JPoller => match p_pc (poll h) with PExit => true | _ => false end
  end.

Definition after_join (th : target) : mpc :=
  match th with JStrategy => MJoin JExecutor | JExecutor => MJoin JPoller | JPoller => MDrop end.

(** [ShmIngester::stop_signal], and the first half of [stop]. *)
Definition stop_signal (i : @Ingester.t disk) : Ingester.t :=
  Ingester.mkIngester (Ingester.seg i) (Ingester.store i) (Ingester.disk_state i) false (Ingester.popped i) (Ingester.accepted i).

Definition signal_waiters (i : @Ingester.t disk) : Ingester.t :=
  Ingester.mkIngester (Ingester.seg i) (Store.signal_waiters (Ingester.store i)) (Ingester.disk_state i) (Ingester.running i)
    (Ingester.popped i) (Ingester.accepted i).

(** [main]; [opened] is whether an attempt to open the ring succeeds. *)
Definition main_step (h : hub) (opened : bool) : hub :=
  match m_pc h with
  | MOpen =>
      if shutdown h then set_main h MGaveUp
      else if opened then set_main (set_ing h (ing h) IRun) MSpawnStrategy else h
  | MSpawnStrategy =>
      set_main (set_strat h (mkStrat SWait (Strategy.init (short_p cfg) (long_p cfg)) 0 0 (s_sig (strat h)))) MSpawnExecutor
  | MSpawnExecutor => set_main (set_exec h (mkExec EInit (e_state (exec h)))) MSpawnPoller
  | MSpawnPoller => set_main (set_poll h (mkPoll PTop None [])) MPark
  | MPark => if shutdown h then set_main h MStop else h
  | MStop => set_main (set_ing h (stop_signal (ing h)) (i_pc h)) MSignal
  | MSignal => set_main (set_ing h (signal_waiters (ing h)) (i_pc h)) MUnpark
  | MUnpark => set_main h (MJoin JStrategy)
  | MJoin th => if is_finished h th then set_main h (after_join th) else h
  | MDrop =>
      (* the poller's clone of the Arc is gone exactly when it has exited *)
      if is_finished h JPoller then
        let h' := set_ing h (stop_signal (ing h)) (i_pc h) in
        match i_pc h with IExit => set_main h' MDone | _ => h' end
      else set_main h MDone
  | MDone | MGaveUp => h
  end.

Inductive event : Type :=
| Raise                                                       (* SIGINT or SIGTERM *)
| Produce (c : Candle)                                        (* the feed handler pushes *)
| Ingest (f : faults)
| Strat (now : Z)
| Exec (now : Z) (flt : Persist.io_fault) (readable : bool)
| Poll
| Main (opened : bool)
| Timeout.                                                    (* a join's five seconds are over *)

Definition step (h : hub) (e : event) : panics hub :=
  match e with
  | Raise =>
      Some (mkHub (ing h) (i_pc h) true (bus h) (strat h) (signals_produced h) (exec h) (poll h) (m_pc h) (sent h) (done h))
  | Produce c => i ← Ingester.step (S fuel) w r (symbol cfg) (ing h) (Ingester.Produce c); Some (set_ing h i (i_pc h))
  | Ingest f =>
      match i_pc h with
      | IRun =>
          if Ingester.running (ing h)
          then i ← Ingester.step (S fuel) w r (symbol cfg) (ing h) (Ingester.Iterate f); Some (set_ing h i IRun)
          else Some (set_ing h (ing h) IExit)
      | _ => Some h
      end
  | Strat now => strat_step h now
  | Exec now flt readable => exec_step h now flt readable
  | Poll => Some (poll_step h)
  | Main opened => Some (main_step h opened)
  | Timeout =>
      Some (match m_pc h with
            | MJoin th => if is_finished h th then h else set_main h (after_join th)
            | _ => h
            end)
  end.

Fixpoint run (h : hub) (es : list event) : panics hub :=
  match es with
  | [] => Some h
  | e :: es' => h1 ← step h e; run h1 es'
  end.

(** The process before [main] opens the ring: a fresh store, the bus, the
    files on disk. *)
Definition init (st : Store.t) (sg : Segment) (d : disk) (b : Spsc.t Signals.Signal) (dflt : Signals.Signal)
    (files : Persist.files) : hub :=
  mkHub (Ingester.start sg st d) INone false b
    (mkStrat SNone (Strategy.init (short_p cfg) (long_p cfg)) 0 0 dflt) 0
    (mkExec ENone (Risk.start (gates cfg) None files true 0)) (mkPoll PNone None []) MOpen [] [].

(** ** The data of the system *)

Context (ms : Z) (cap : nat) (dir : option string).
Hypothesis Hcap : (0 < cap)%nat.

Abbreviation ing_inv := (Ingester.inv ms cap dir w r (symbol cfg)).

(** An average that cannot panic. *)
Definition sma_ok (s : Sma.t) : Prop := Sma.period s = 0%nat \/ Sma.wf s.

Lemma sma_ok_new p : sma_ok (Sma.new p).
Proof. destruct p; [by left|right]. apply Sma.new_sma_wf. lia. Qed.

Lemma sma_ok_push s c : sma_ok s -> exists s', Sma.push s c = Some s' /\ sma_ok s'.
Proof.
  intros [H|H]; [exists s; unfold Sma.push; rewrite H; split; [done|by left]|].
  destruct (Sma.sma_push_spec s c H) as (s' & -> & Hwf & _). exists s'. split; [done|by right].
Qed.

Definition strat_ok (s : Strategy.t) : Prop := sma_ok (Strategy.short_sma s) /\ sma_ok (Strategy.long_sma s).

Lemma fold_candles_ok cs s : strat_ok s -> exists s', Strategy.fold_candles s cs = Some s' /\ strat_ok s'.
Proof.
  revert s. induction cs as [|c cs IH]; intros s Hs; [by exists s|]. cbn [Strategy.fold_candles]. unfold Strategy.fold_candle.
  destruct (Strategy.last_candle_ts s <? ts c); [|by apply IH]. destruct Hs as [H1 H2].
  destruct (sma_ok_push _ (close c) H1) as (a & -> & Ha). destruct (sma_ok_push _ (close c) H2) as (b & -> & Hb).
  cbn [mbind option_bind]. apply IH. by split.
Qed.

Lemma wake_ok s (last_n : nat -> panics (list Candle)) :
  strat_ok s -> (forall n, is_Some (last_n n)) -> exists s' o, Strategy.wake s last_n = Some (s', o) /\ strat_ok s'.
Proof.
  intros Hs Hl. unfold Strategy.wake. destruct (Nat.ltb _ _).
  - destruct (Hl (Strategy.min_candles s)) as [cs ->]. cbn [mbind option_bind].
    destruct (fold_candles_ok cs s Hs) as (s1 & -> & Hs1). cbn [mbind option_bind].
    destruct (Nat.ltb _ _); [by exists s1, None|]. do 2 eexists. split; [reflexivity|done].
  - destruct (Hl 1%nat) as [cs ->]. cbn [mbind option_bind]. destruct (last cs) as [c|]; [|by exists s, None].
    destruct (ts c <=? _); [by exists s, None|]. destruct Hs as [H1 H2].
    destruct (sma_ok_push _ (close c) H1) as (a & -> & Ha). destruct (sma_ok_push _ (close c) H2) as (b & -> & Hb).
    cbn [mbind option_bind]. do 2 eexists. split; [reflexivity|]. by split.
Qed.

(** A signal of the configured symbol and quantity. *)
Definition of_config (sig : Signals.Signal) : Prop :=
  exists now sd, sig = Signals.new now (symbol_bytes (symbol cfg)) sd (qty cfg) f_zero 1.

Definition counted (h : hub) : Z := signal_count (strat h) + match s_pc (strat h) with SSent => 1 | _ => 0 end.

(** After at most [k] events. *)
Record ok (k : nat) (h : hub) : Prop := {
  o_ing : exists n j, ing_inv n (ing h) j /\ (n <= k)%nat;
  o_version : 0 <= Store.version (store_of h) <= Z.of_nat k;
  o_bus : exists q, Spsc.models (bus h) q /\ Spsc.capacity (bus h) = BUS_CAPACITY /\ sent h = ((fun x => x.1.1) <$> done h) ++ q;
  o_strat : strat_ok (s_state (strat h));
  o_exec : match e_pc (exec h) with
           | ENone | EInit => done h = []
           | _ => exists files readable now, e_state (exec h) =
                    (Risk.execute_all (gates cfg) (position_path cfg)
                       (Risk.start (gates cfg) (position_path cfg) files readable now) (done h)).1
           end;
  o_sent : Forall of_config (sent h);
  o_sig : s_pc (strat h) = SPush \/ s_pc (strat h) = SFull -> of_config (s_sig (strat h));
  o_count : counted h = Z.of_nat (length (sent h)) /\ (length (sent h) <= k)%nat;
  o_fresh : s_pc (strat h) = SNone -> sent h = []
}.

Lemma ok_weaken k h : ok k h -> ok (S k) h.
Proof.
  intros [(n & j & H1 & H2) Hv Hb Hs He Hst Hsg [Hc1 Hc2] Hf]. split; try done; [|lia|split; [done|lia]].
  exists n, j. split; [done|lia].
Qed.

Lemma last_n_total k h n : ok k h -> is_Some (Store.last_n (store_of h) (symbol cfg) n).
Proof. intros Hk. destruct (o_ing k h Hk) as (m & j & Hi & _). unfold store_of. rewrite (StoreSpec.refines_last_n _ _ _ _ (Ingester.i_store _ _ _ _ _ _ _ _ _ Hi)). by eexists. Qed.

Lemma strat_step_ok k h now : ok k h -> Z.of_nat k < u64_max -> exists h', strat_step h now = Some h' /\ ok (S k) h'.
Proof.
  intros Hok Hk. pose proof (ok_weaken k h Hok) as Hok'. unfold strat_step.
  pose proof Hok' as [Hi Hv (q & Hq & Hcp & Hs) Hst He Hse Hsg [Hc1 Hc2] Hf]. unfold counted in Hc1.
  destruct (s_pc (strat h)) eqn:Ep.
  - by exists h.
  - destruct (Store.version (store_of h) =? last_seen (strat h)); [by exists h|]. eexists. split; [reflexivity|].
    split; try done; [by eauto|by intros [|]].
  - eexists. split; [reflexivity|]. destruct (shutdown h); (split; try done; [by eauto|by intros [|]]).
  - destruct (wake_ok (s_state (strat h)) (Store.last_n (store_of h) (symbol cfg)) Hst) as (s' & o & -> & Hs');
      [intros m; by apply (last_n_total k)|]. cbn [mbind option_bind].
    destruct o as [sd|]; (eexists; split; [reflexivity|]); (split; try done; [by eauto|]).
    + intros _. by exists now, sd.
    + by intros [|].
  - pose proof (Spsc.m_len _ _ Hq) as Hl. destruct (decide (Z.of_nat (length q) = Spsc.capacity (bus h))) as [Hfull|Hsp].
    + rewrite (Spsc.try_push_full _ _ _ Hq Hfull). cbn [mbind option_bind]. eexists. split; [reflexivity|].
      split; try done; [by eauto|intros _; apply Hsg; by left].
    + destruct (Spsc.try_push_space _ _ (s_sig (strat h)) Hq ltac:(lia)) as (b & -> & Hq' & Hcp'). cbn [mbind option_bind].
      eexists. split; [reflexivity|]. split; cbn; try done.
      * exists (q ++ [s_sig (strat h)]). split; [done|]. split; [congruence|]. by rewrite Hs, app_assoc.
      * apply Forall_app. split; [done|]. apply Forall_singleton, Hsg. by left.
      * by intros [|].
      * unfold counted. cbn. destruct (o_count k h Hok) as [_ Hck]. rewrite length_app. simpl. split; [lia|lia].
  - eexists. split; [reflexivity|]. destruct (shutdown h); (split; try done; [by eauto|]); [by intros [|]|intros _; apply Hsg; by right].
  - eexists. split; [reflexivity|]. destruct (o_count k h Hok) as [Hck1 Hck2]. unfold counted in Hck1. rewrite Ep in Hck1.
    assert (E : u64_wrapping_add (signal_count (strat h)) 1 = signal_count (strat h) + 1).
    { unfold u64_wrapping_add, u64_wrap. apply Z.mod_small. unfold u64_max in Hk. lia. }
    split; cbn; try done; [by eauto|by intros [|]|]. unfold counted. cbn. rewrite E. split; lia.
  - by exists h.
Qed.

Lemma execute_all_snoc e sigs sig now flt :
  (Risk.execute_all (gates cfg) (position_path cfg) e (sigs ++ [(sig, now, flt)])).1 =
  (Risk.execute (gates cfg) (position_path cfg) (Risk.execute_all (gates cfg) (position_path cfg) e sigs).1 sig now flt).1.
Proof.
  revert e. induction sigs as [|[[s n] f] sigs IH]; intros e; cbn [Risk.execute_all app].
  - cbn [fst]. by destruct (Risk.execute _ _ e sig now flt).
  - destruct (Risk.execute _ _ e s n f) as [e1 b]. specialize (IH e1).
    destruct (Risk.execute_all _ _ e1 (sigs ++ _)), (Risk.execute_all _ _ e1 sigs). exact IH.
Qed.

Lemma exec_step_ok k h now flt readable : ok k h -> exists h', exec_step h now flt readable = Some h' /\ ok (S k) h'.
Proof.
  intros Hok. pose proof (ok_weaken k h Hok) as Hok'. unfold exec_step.
  pose proof Hok' as [Hi Hv (q & Hq & Hcp & Hs) Hst He Hse Hsg Hc Hf].
  destruct (e_pc (exec h)) eqn:Ep.
  - by exists h.
  - eexists. split; [reflexivity|]. split; cbn; try done; [by eauto|]. rewrite He. by exists (Risk.fs (e_state (exec h))), readable, now.
  - destruct He as (files & rd & nw & He). destruct q as [|sig q].
    + rewrite (Spsc.try_pop_empty _ Hq). cbn [mbind option_bind]. eexists. split; [reflexivity|].
      split; cbn; try done; [by eauto|]. by exists files, rd, nw.
    + destruct (Spsc.try_pop_cons _ _ _ Hq) as (b & -> & Hq' & Hcp'). cbn [mbind option_bind]. eexists. split; [reflexivity|].
      split; cbn; try done.
      * exists q. split; [done|]. split; [congruence|]. rewrite fmap_app, Hs. simpl. by rewrite <- app_assoc.
      * exists files, rd, nw. by rewrite execute_all_snoc, He.
  - eexists. split; [reflexivity|]. destruct (shutdown h); (split; cbn; try done; by eauto).
  - by exists h.
Qed.

Lemma ingester_facts n s j e s' :
  ing_inv n s j -> Z.of_nat n + 1 < u64_max -> e <> Ingester.StopSignal ->
  Ingester.step (S fuel) w r (symbol cfg) s e = Some s' ->
  Ingester.running s' = Ingester.running s /\
  (Store.version (Ingester.store s') = Store.version (Ingester.store s) \/
   Store.version (Ingester.store s') = fetch_add1 (Store.version (Ingester.store s))).
Proof.
  intros [_ _ _ Hbd _ Htk Href] Hn He Hst. destruct e as [c|f|]; cbn [Ingester.step] in Hst; [| |done].
  - destruct (try_push w (Ingester.seg s) c) as [[sg b]|]; [|done]. injection Hst as <-. simpl. auto.
  - destruct (negb (Ingester.running s)); [injection Hst as <-; auto|].
    destruct (try_pop r (Ingester.seg s)) as [[sg [c|]]|]; [| |done]; cbn [mbind option_bind] in Hst; [|injection Hst as <-; auto].
    destruct (StoreSpec.sim_append fuel f (Ingester.store s) _ (Ingester.disk_state s) (symbol cfg) c Href ltac:(lia))
      as (st' & a' & d' & rr & E & _ & _ & _ & _ & _ & Hv & _).
    rewrite E in Hst. injection Hst as <-. simpl. split; [done|]. rewrite Hv. destruct (StoreSpec.is_ok rr); auto.
Qed.

(** An event of the ring leaves the rest of the system as it was. *)
Lemma ing_event_ok k h e p :
  ok k h -> Z.of_nat k + 1 < u64_max -> e <> Ingester.StopSignal ->
  exists i, Ingester.step (S fuel) w r (symbol cfg) (ing h) e = Some i /\ ok (S k) (set_ing h i p) /\
    Ingester.running i = Ingester.running (ing h) /\ Store.version (store_of h) <= Store.version (Ingester.store i).
Proof.
  intros Hok Hk He. pose proof (ok_weaken k h Hok) as [_ _ Hb Hst Hex Hse Hsg Hc Hf].
  destruct (o_ing k h Hok) as (n & j & Hi & Hn). pose proof (o_version k h Hok) as Hv. unfold store_of in *.
  destruct (Ingester.ingester_step_inv fuel ms cap dir w r (symbol cfg) n (ing h) j e Hcap Hi ltac:(lia)) as (i & j' & E & Hi').
  destruct (ingester_facts n (ing h) j e i Hi ltac:(lia) He E) as [Hr Hver].
  rewrite fetch_add1_small in Hver by lia. exists i. split_and!; [done| |done|lia].
  split; try done; [exists (S n), j'; split; [done|lia]|]. unfold store_of. cbn. lia.
Qed.

Lemma ing_inv_stop n s j : ing_inv n s j -> ing_inv n (stop_signal s) j.
Proof. by intros []. Qed.

Lemma ing_inv_signal n s j : ing_inv n s j -> ing_inv n (signal_waiters s) j.
Proof.
  intros [H1 H2 H3 H4 H5 H6 H7]. split; try done. simpl. eapply StoreSpec.refines_counters; [exact H7|done|done|done].
Qed.

(** ** Control *)

(** How far [main] is from the end. *)
Definition mrank (m : mpc) : nat :=
  match m with
  | MGaveUp => 13 | MOpen => 12 | MSpawnStrategy => 11 | MSpawnExecutor => 10 | MSpawnPoller => 9 | MPark => 8
  | MStop => 7 | MSignal => 6 | MUnpark => 5 | MJoin JStrategy => 4 | MJoin JExecutor => 3 | MJoin JPoller => 2
  | MDrop => 1 | MDone => 0
  end.

(** The strategy will look at [version] again. *)
Definition will_wait (p : spc) : bool :=
  match p with SWait | SRun | SPush | SFull | SSent => true | _ => false end.

Record ctl (h : hub) : Prop := {
  c_flag : (mrank (m_pc h) <= 7)%nat -> shutdown h = true;
  c_stop : (mrank (m_pc h) <= 6)%nat -> Ingester.running (ing h) = false;
  c_ing : i_pc h = INone <-> (12 <= mrank (m_pc h))%nat;
  c_strat : s_pc (strat h) = SNone <-> (11 <= mrank (m_pc h))%nat;
  c_exec : e_pc (exec h) = ENone <-> (10 <= mrank (m_pc h))%nat;
  c_poll : p_pc (poll h) = PNone <-> (9 <= mrank (m_pc h))%nat;
  c_seen : last_seen (strat h) <= Store.version (store_of h);
  (** no wake-up is lost *)
  c_wake : (mrank (m_pc h) <= 5)%nat -> will_wait (s_pc (strat h)) = true -> last_seen (strat h) < Store.version (store_of h)
}.

Lemma main_step_ok k h opened : ok k h -> ctl h -> Z.of_nat k + 1 < u64_max -> ok (S k) (main_step h opened).
Proof.
  intros Hok Hc Hk. pose proof (ok_weaken k h Hok) as Hok'. pose proof Hok' as [(n & j & Hi & Hn) Hv Hb Hst He Hse Hsg Hco Hf].
  unfold main_step. destruct (m_pc h) as [ | | | | | | | |th| | | ] eqn:Em; try done.
  - destruct (shutdown h); [by split; try done; eauto|]. destruct opened; [|done]. by split; try done; eauto.
  - assert (Hn0 : s_pc (strat h) = SNone) by (apply (c_strat h Hc); rewrite Em; simpl; lia).
    assert (Hs0 : sent h = []) by (by apply Hf). split; cbn; try done; [by eauto| |by intros [|]|].
    + split; apply sma_ok_new.
    + unfold counted. cbn. rewrite Hs0. simpl. lia.
  - assert (Hn0 : e_pc (exec h) = ENone) by (apply (c_exec h Hc); rewrite Em; simpl; lia).
    rewrite Hn0 in He. by split; try done; eauto.
  - by split; try done; eauto.
  - destruct (shutdown h); [by split; try done; eauto|done].
  - split; try done. exists n, j. split; [by apply ing_inv_stop|done].
  - split; try done; [exists n, j; split; [by apply ing_inv_signal|done]|]. unfold store_of. cbn.
    pose proof (o_version k h Hok) as Hv0. unfold store_of in Hv0. rewrite fetch_add1_small by lia. lia.
  - by split; try done; eauto.
  - destruct (is_finished h th); [by split; try done; eauto|done].
  - destruct (is_finished h JPoller); [|by split; try done; eauto].
    destruct (i_pc h); (split; try done; exists n, j; split; [by apply ing_inv_stop|done]).
Qed.

Lemma poll_step_ok k h : ok k h -> ok (S k) (poll_step h).
Proof.
  intros Hok. pose proof (ok_weaken k h Hok) as Hok'. pose proof Hok' as [Hi Hv Hb Hst He Hse Hsg Hco Hf].
  unfold poll_step. by destruct (p_pc (poll h)); try done; split; try done; eauto.
Qed.

Lemma step_ok k h e : ok k h -> ctl h -> Z.of_nat k + 1 < u64_max -> exists h', step h e = Some h' /\ ok (S k) h'.
Proof.
  intros Hok Hc Hk. pose proof (ok_weaken k h Hok) as Hok'. destruct e as [ |c|f|now|now flt rd| |opened| ]; cbn [step].
  - eexists. split; [reflexivity|]. destruct Hok' as [Hi Hv Hb Hst He Hse Hsg Hco Hf]. by split; try done; eauto.
  - destruct (ing_event_ok k h (Ingester.Produce c) (i_pc h) Hok Hk ltac:(done)) as (i & -> & Hi & _). cbn [mbind option_bind]. eauto.
  - destruct (i_pc h) eqn:Ei; [by eauto| |by eauto]. destruct (Ingester.running (ing h)).
    + destruct (ing_event_ok k h (Ingester.Iterate f) IRun Hok Hk ltac:(done)) as (i & -> & Hi & _). cbn [mbind option_bind]. eauto.
    + eexists. split; [reflexivity|]. destruct Hok' as [Hi Hv Hb Hst He Hse Hsg Hco Hf]. by split; try done; eauto.
  - apply strat_step_ok; [done|lia].
  - by apply exec_step_ok.
  - eexists. split; [reflexivity|]. by apply poll_step_ok.
  - eexists. split; [reflexivity|]. by apply main_step_ok.
  - eexists. split; [reflexivity|]. destruct (m_pc h); try done. destruct (is_finished h th); [done|].
    destruct Hok' as [Hi Hv Hb Hst He Hse Hsg Hco Hf]. by split; try done; eauto.
Qed.

Lemma strat_step_ctl h now h' : ctl h -> strat_step h now = Some h' -> ctl h'.
Proof.
  intros Hc Hst. pose proof Hc as [C1 C2 C3 C4 C5 C6 C7 C8]. unfold strat_step in Hst.
  assert (Hset : forall s', s_pc (strat h) <> SNone -> s_pc s' <> SNone -> last_seen s' <= Store.version (store_of h) ->
    ((mrank (m_pc h) <= 5)%nat -> will_wait (s_pc s') = true -> last_seen s' < Store.version (store_of h)) -> ctl (set_strat h s')).
  { intros s' H1 H2 H3 H4. split; try done. cbn. rewrite <- C4. done. }
  assert (Hkeep : forall s', s_pc (strat h) <> SNone -> s_pc s' <> SNone -> last_seen s' = last_seen (strat h) ->
    will_wait (s_pc (strat h)) = true -> ctl (set_strat h s')).
  { intros s' H1 H2 H3 H4. apply Hset; rewrite ?H3; auto. }
  destruct (s_pc (strat h)) eqn:Ep.
  - by injection Hst as <-.
  - destruct (Store.version (store_of h) =? last_seen (strat h)); injection Hst as <-; [done|]. by apply Hset.
  - injection Hst as <-. destruct (shutdown h) eqn:Es; [by apply Hset|]. apply Hset; try done. intros Hm. specialize (C1 ltac:(lia)). congruence.
  - destruct (Strategy.wake _ _) as [[s' [sd|]]|]; [| |done]; cbn [mbind option_bind] in Hst; injection Hst as <-; by apply Hkeep.
  - destruct (Spsc.try_push _ _) as [[b []]|]; [| |done]; cbn [mbind option_bind] in Hst; injection Hst as <-; [|by apply Hkeep].
    split; cbn; first [done|by rewrite <- C4|by auto].
  - injection Hst as <-. destruct (shutdown h); by apply Hkeep.
  - injection Hst as <-. split; cbn; first [done|by rewrite <- C4|by auto].
  - by injection Hst as <-.
Qed.

Lemma exec_step_ctl h now flt rd h' : ctl h -> exec_step h now flt rd = Some h' -> ctl h'.
Proof.
  intros Hc Hst. pose proof Hc as [C1 C2 C3 C4 C5 C6 C7 C8]. unfold exec_step in Hst. destruct (e_pc (exec h)) eqn:Ep.
  - by injection Hst as <-.
  - injection Hst as <-. split; try done; cbn. by rewrite <- C5.
  - destruct (Spsc.try_pop _) as [[b [sig|]]|]; [| |done]; cbn [mbind option_bind] in Hst; injection Hst as <-;
      (split; try done; cbn; by rewrite <- C5).
  - injection Hst as <-. split; try done; cbn. rewrite <- C5. by destruct (shutdown h).
  - by injection Hst as <-.
Qed.

Lemma poll_step_ctl h : ctl h -> ctl (poll_step h).
Proof.
  intros Hc. pose proof Hc as [C1 C2 C3 C4 C5 C6 C7 C8]. unfold poll_step. destruct (p_pc (poll h)) eqn:Ep; try done;
    (split; try done; cbn; rewrite <- C6; by destruct (shutdown h)).
Qed.

(** The clauses of [ctl] after a step of [main]. *)
Ltac ctl_main :=
  split; cbn;
  first [ done
        | lia
        | solve [unfold store_of in *; cbn; lia]
        | solve [intros; match goal with H : _ -> _ |- _ => apply H; first [done|lia] end]
        | solve [split; [done|lia]]
        | match goal with H : _ <-> _ |- _ => rewrite H; lia end ].

Lemma set_main_ctl h m :
  ctl h -> (mrank m <= 4)%nat -> (mrank (m_pc h) <= 5)%nat -> ctl (set_main h m).
Proof. intros [C1 C2 C3 C4 C5 C6 C7 C8] H1 H2. ctl_main. Qed.

Lemma main_step_ctl k h opened : ok k h -> ctl h -> Z.of_nat k + 1 < u64_max -> ctl (main_step h opened).
Proof.
  intros Hok Hc Hk. pose proof Hc as [C1 C2 C3 C4 C5 C6 C7 C8]. pose proof (o_version k h Hok) as Hv. unfold main_step.
  destruct (m_pc h) as [ | | | | | | | |th| | | ] eqn:Em; try done; cbn [mrank] in *.
  - destruct (shutdown h) eqn:Es; [ctl_main|]. destruct opened; [ctl_main|done].
  - ctl_main.
  - ctl_main.
  - ctl_main.
  - destruct (shutdown h) eqn:Es; [ctl_main|done].
  - ctl_main.
  - assert (Hb : Store.version (Store.signal_waiters (store_of h)) = Store.version (store_of h) + 1).
    { unfold Store.signal_waiters. simpl. apply fetch_add1_small. lia. }
    assert (Hs : store_of (set_main (set_ing h (signal_waiters (ing h)) (i_pc h)) MUnpark) = Store.signal_waiters (store_of h)) by done.
    split; rewrite ?Hs, ?Hb; cbn; try lia; try (by intros; first [apply C1|apply C2]; lia);
      match goal with H : _ <-> _ |- _ => rewrite H; lia end.
  - apply set_main_ctl; [done|simpl; lia|rewrite Em; simpl; lia].
  - destruct (is_finished h th); [|done]. apply set_main_ctl; [done|by destruct th; simpl; lia|rewrite Em; destruct th; simpl; lia].
  - destruct (is_finished h JPoller).
    + assert (Hs : ctl (set_ing h (stop_signal (ing h)) (i_pc h))) by (split; cbn; rewrite ?Em; done).
      destruct (i_pc h); try done. apply set_main_ctl; [done|simpl; lia|]. cbn. rewrite Em. simpl. lia.
    + apply set_main_ctl; [done|simpl; lia|rewrite Em; simpl; lia].
Qed.

Lemma ing_step_ctl k h e p i :
  ok k h -> ctl h -> Z.of_nat k + 1 < u64_max -> e <> Ingester.StopSignal -> (p = INone <-> i_pc h = INone) ->
  Ingester.step (S fuel) w r (symbol cfg) (ing h) e = Some i -> ctl (set_ing h i p).
Proof.
  intros Hok [C1 C2 C3 C4 C5 C6 C7 C8] Hk He Hp E.
  destruct (ing_event_ok k h e p Hok Hk He) as (i' & E' & _ & Hr & Hv). rewrite E in E'. injection E' as <-.
  split; cbn; try done; [intros Hm; rewrite Hr; auto|by rewrite Hp|unfold store_of in *; cbn; lia|].
  intros Hm Hw. specialize (C8 Hm Hw). unfold store_of in *. cbn. lia.
Qed.

Lemma step_ctl k h e h' : ok k h -> ctl h -> Z.of_nat k + 1 < u64_max -> step h e = Some h' -> ctl h'.
Proof.
  intros Hok Hc Hk Hst. destruct e as [ |c|f|now|now flt rd| |opened| ]; cbn [step] in Hst.
  - injection Hst as <-. by destruct Hc; split.
  - destruct (Ingester.step _ _ _ _ _ _) as [i|] eqn:E; [|done]. injection Hst as <-.
    by apply (ing_step_ctl k h (Ingester.Produce c)).
  - destruct (i_pc h) eqn:Ei; [by injection Hst as <-| |by injection Hst as <-]. destruct (Ingester.running (ing h)).
    + destruct (Ingester.step _ _ _ _ _ _) as [i|] eqn:E; [|done]. injection Hst as <-.
      apply (ing_step_ctl k h (Ingester.Iterate f)); try done. by rewrite Ei.
    + injection Hst as <-. destruct Hc as [C1 C2 C3 C4 C5 C6 C7 C8]. split; try done. cbn. by rewrite <- C3, Ei.
  - by eapply strat_step_ctl.
  - by eapply exec_step_ctl.
  - injection Hst as <-. by apply poll_step_ctl.
  - injection Hst as <-. by eapply main_step_ctl.
  - injection Hst as <-. destruct (m_pc h) as [ | | | | | | | |th| | | ] eqn:Em; try done. destruct (is_finished h th); [done|].
    apply set_main_ctl; [done|by destruct th; simpl; lia|rewrite Em; destruct th; simpl; lia].
Qed.

Lemma run_ok es : forall k h, ok k h -> ctl h -> Z.of_nat k + Z.of_nat (length es) < u64_max ->
  exists h', run h es = Some h' /\ ok (k + length es) h' /\ ctl h'.
Proof.
  induction es as [|e es IH]; intros k h Hok Hc Hk; cbn [length] in *.
  { exists h. rewrite Nat.add_0_r. done. }
  destruct (step_ok k h e Hok Hc ltac:(lia)) as (h1 & E & Hok1). pose proof (step_ctl k h e h1 Hok Hc ltac:(lia) E) as Hc1.
  cbn [run]. rewrite E. cbn [mbind option_bind]. replace (k + S (length es))%nat with (S k + length es)%nat by lia.
  apply IH; [done..|lia].
Qed.

Lemma init_ok sg (d : disk) b dflt files :
  attached w r sg [] -> Spsc.models b [] -> Spsc.capacity b = BUS_CAPACITY -> ok 0 (init (Store.open_store ms cap dir) sg d b dflt files).
Proof.
  intros Ha Hb Hcb. split; cbn; try done.
  - exists 0%nat, 0%nat. split; [by apply Ingester.start_inv|done].
  - unfold store_of. cbn. destruct dir; simpl; lia.
  - by exists [].
  - split; apply sma_ok_new.
  - by intros [|].
Qed.

Lemma init_ctl sg (d : disk) b dflt files : ctl (init (Store.open_store ms cap dir) sg d b dflt files).
Proof. split; cbn; try done; try lia; try (split; [intros _; lia|done]). unfold store_of. cbn. by destruct dir. Qed.

(** ** Claims *)

(** C29. Signals from the strategy to the executor, through every schedule of
    the whole system: nothing panics; the signals the executor has taken are
    the first ones the strategy delivered, in that order, none skipped or taken
    twice, and the rest are on the bus, where a shutdown can leave them
    unexecuted ([shutdown_strands_signal]); the executor's state is what running
    its loop body over exactly those signals gives; every signal delivered is
    one of the configured symbol and quantity; and the strategy's count is
    the number delivered. *)
Theorem hub_signals_in_order sg (d : disk) b dflt files (es : list event) :
  attached w r sg [] -> Spsc.new dflt BUS_CAPACITY = Some b -> Z.of_nat (length es) < u64_max ->
  exists h q, run (init (Store.open_store ms cap dir) sg d b dflt files) es = Some h /\
    Spsc.models (bus h) q /\ sent h = ((fun x => x.1.1) <$> done h) ++ q /\
    Forall of_config (sent h) /\ counted h = Z.of_nat (length (sent h)) /\
    (done h <> [] -> exists files' readable now, e_state (exec h) =
       (Risk.execute_all (gates cfg) (position_path cfg)
          (Risk.start (gates cfg) (position_path cfg) files' readable now) (done h)).1).
Proof.
  intros Ha Hb Hn. destruct (Spsc.new_models dflt BUS_CAPACITY b) as [Hm Hcb]; [by vm_compute|done|].
  destruct (run_ok es 0 _ (init_ok sg d b dflt files Ha Hm Hcb) (init_ctl sg d b dflt files) ltac:(lia)) as (h & Hrun & Hok & _).
  destruct Hok as [_ _ (q & Hq & _ & Hs) _ He Hse _ [Hc _] _]. exists h, q. split_and!; [done..|]. intros Hne.
  by destruct (e_pc (exec h)).
Qed.

End hub.

(** ** An example: a crossover, and a shutdown that strands its signal *)

Section example.
#[local] Existing Instance StoreSpec.journal_cold.
#[local] Existing Instance PlainText.plain_text.

Definition cfg1 : config :=
  mkConfig "/feed" 1 1 "BTC" 1 2 f_one (Risk.mkGates (f_of_Z 5) (f_of_Z 4) 2) None.

(** Unset and unparseable variables fall back to their defaults. *)
Example config_defaults :
  (fun c => (shm_name c, shm_cap c, short_p c, long_p c, Risk.max_signals_per_sec (gates c), position_path c))
    (config_from_env (<["SMA_SHORT" := "5"]> (<["FEED_SHM_CAP" := "64k"]> ∅)))%string =
  ("/tradekern_feed"%string, 65536, 5%nat, 20%nat, 1000, None).
Proof. vm_compute. reflexivity. Qed.

Definition sig0 : Signals.Signal := Signals.new 0 [] Signals.Buy f_zero f_zero 0.

Definition bus0 : Spsc.t Signals.Signal := Spsc.mkSpsc (replicate 1024 sig0) 1024 0 0.

Abbreviation ev := (@event bool).

Definition candle_in (t p : Z) : list ev := [Produce (Strategy.px t p); Ingest false; Strat 7; Strat 7; Strat 7].

(** Start-up and four candles, the last of which makes the averages cross;
    the signal is on the bus after the next two steps of the strategy. *)
Definition crossover : list ev :=
  [Main true; Main true; Main true; Main true; Exec 0 Persist.NoFault true] ++
  candle_in 1 10 ++ candle_in 2 10 ++ candle_in 3 10 ++ candle_in 4 20.

(** The executor finds the bus empty before the signal is pushed and reads the
    flag after it is raised. *)
Definition stranding : list ev :=
  crossover ++ [Exec 1 Persist.NoFault true; Strat 8; Strat 8; Raise; Exec 2 Persist.NoFault true] ++
  repeat (Main true) 4 ++ [Strat 9; Strat 9; Poll; Ingest false] ++ repeat (Main true) 4.

Definition start1 : hub := init cfg1 (Store.open_store 4 8 None) Ingester.empty_seg ([] : StoreSpec.journal) bus0 sig0 ∅.

Abbreviation run1 := (run 0 demo_writer demo_reader cfg1 start1).

(** The signal was delivered before the shutdown signal arrived; every thread
    exited and was joined; the executor never saw it. *)
Example shutdown_strands_signal :
  (fun h => (m_pc h, length (sent h), length (done h), signals_produced h)) <$> run1 stranding = Some (MDone, 1%nat, 0%nat, 1).
Proof. vm_compute. reflexivity. Qed.

Lemma hub_signals_in_order_witness :
  exists h q, run1 (crossover ++ [Strat 8; Strat 8; Exec 9 Persist.NoFault true]) = Some h /\
    sent h = ((fun x => x.1.1) <$> done h) ++ q /\ counted h = 1 /\ length (done h) = 1%nat.
Proof.
  destruct (hub_signals_in_order 0 demo_writer demo_reader cfg1 4 8 None ltac:(lia) Ingester.empty_seg ([] : StoreSpec.journal) bus0 sig0 ∅
    (crossover ++ [Strat 8; Strat 8; Exec 9 Persist.NoFault true]) Ingester.empty_attached ltac:(vm_compute; reflexivity) ltac:(by vm_compute))
    as (h & q & Hrun & _ & Hs & _ & Hc & _).
  exists h, q. split; [exact Hrun|]. split; [exact Hs|].
  assert (E : (fun h => (length (sent h), length (done h))) <$> run1 (crossover ++ [Strat 8; Strat 8; Exec 9 Persist.NoFault true]) = Some (1%nat, 1%nat))
    by (vm_compute; reflexivity).
  fold start1 in Hrun. rewrite Hrun in E. injection E as E1 E2. rewrite Hc, E1. split; [reflexivity|exact E2].
Defined.
End example.
End HubSys.
