(* ===== verification/HubLive.v ===== *)
(** * The hub shuts down

    Once SIGINT or SIGTERM has raised the flag, every thread of the hub exits
    and [main] joins them all, whatever the threads were doing and however
    the rest is scheduled: a round of a schedule lets each thread take at
    least one step, and a bounded number of rounds is enough.  The bound is a
    measure of the system that no step raises and that some thread lowers in
    every round until the end. *)

From Stdlib Require Import SpecFloat Ascii.
From S2P Require Import Prelude Float64 Candle RingBuffer Spsc Text Cold Store StoreSpec Shm Signals Sma Hub HubSys.

#[local] Open Scope Z_scope.

Module HubLive.
Import ShmSys ShmRing HubSys.

Section live.
Context {disk faults : Type} `{!ColdStorage disk faults} `{T : F64Text}.
Context (fuel : nat) (w : ShmRingWriter) (r : ShmRingReader) (cfg : config).
Context (ms : Z) (cap : nat) (dir : option string).
Hypothesis Hcap : (0 < cap)%nat.
Abbreviation hub := (@hub disk).
Abbreviation event := (@event faults).
Abbreviation step := (step fuel w r cfg).
Abbreviation run := (run fuel w r cfg).
Abbreviation ok := (ok w r cfg ms cap dir).

(** ** Joins, when none of them times out *)

Record joined (h : hub) : Prop := {
  j_strat : (mrank (m_pc h) <= 3)%nat -> s_pc (strat h) = SExit;
  j_exec : (mrank (m_pc h) <= 2)%nat -> e_pc (exec h) = EExit;
  j_poll : (mrank (m_pc h) <= 1)%nat -> p_pc (poll h) = PExit;
  j_ing : (mrank (m_pc h) <= 0)%nat -> i_pc h = IExit
}.

Definition finished (h : hub) : Prop :=
  m_pc h = MDone /\ s_pc (strat h) = SExit /\ e_pc (exec h) = EExit /\ p_pc (poll h) = PExit /\ i_pc h = IExit \/
  m_pc h = MGaveUp /\ s_pc (strat h) = SNone /\ e_pc (exec h) = ENone /\ p_pc (poll h) = PNone /\ i_pc h = INone.

Inductive kind : Type := KIng | KStrat | KExec | KPoll | KMain.

Definition kind_of (e : event) : option kind :=
  match e with
  | Ingest _ => Some KIng | Strat _ => Some KStrat | Exec _ _ _ => Some KExec | Poll => Some KPoll | Main _ => Some KMain
  | Raise | Produce _ | Timeout => None
  end.

Definition no_timeout (e : event) : Prop := match e with Timeout => False | _ => True end.

(** A round gives every thread a step. *)
Definition fair (es : list event) : Prop :=
  Forall no_timeout es /\ forall kd, exists e, In e es /\ kind_of e = Some kd.

(** ** The measure *)

Definition mleft (m : mpc) : nat := match m with MGaveUp => 0%nat | _ => mrank m end.
Definition sleft (p : spc) : nat :=
  match p with SNone => 8 | SRun => 6 | SPush => 5 | SSent => 4 | SWait => 3 | SWoken => 2 | SFull => 1 | SExit => 0 end.
Definition eleft (p : epc) : nat := match p with ENone => 4 | EInit => 3 | ELoop => 2 | EEmpty => 1 | EExit => 0 end.
Definition pleft (p : ppc) : nat := match p with PNone => 5 | PRead => 2 | PParked => 2 | PTop => 1 | PWoken => 1 | PExit => 0 end.
Definition ileft (p : ipc) : nat := match p with INone => 2 | IRun => 1 | IExit => 0 end.

Definition bus_len (b : Spsc.t Signals.Signal) : nat := Z.to_nat (u64_wrapping_sub (Spsc.head b) (Spsc.tail b)).

Definition left (h : hub) : nat :=
  (mleft (m_pc h) + 3 * sleft (s_pc (strat h)) + 2 * bus_len (bus h) + eleft (e_pc (exec h)) + pleft (p_pc (poll h)) + ileft (i_pc h))%nat.

Lemma bus_len_models b q : Spsc.models b q -> bus_len b = length q.
Proof. intros H. unfold bus_len. rewrite (Spsc.occupancy b q H). lia. Qed.

Lemma left_bound k h : ok k h -> (left h <= 2100)%nat.
Proof.
  intros Hok. destruct (o_bus _ _ _ _ _ _ k h Hok) as (q & Hq & Hc & _). pose proof (Spsc.m_len _ _ Hq) as Hl.
  rewrite Hc in Hl. unfold left. rewrite (bus_len_models _ _ Hq). unfold BUS_CAPACITY in Hl.
  assert (mleft (m_pc h) <= 12)%nat by (destruct (m_pc h) as [ | | | | | | | |[]| | | ]; simpl; lia).
  assert (sleft (s_pc (strat h)) <= 8)%nat by (destruct (s_pc (strat h)); simpl; lia).
  assert (eleft (e_pc (exec h)) <= 4)%nat by (destruct (e_pc (exec h)); simpl; lia).
  assert (pleft (p_pc (poll h)) <= 5)%nat by (destruct (p_pc (poll h)); simpl; lia).
  assert (ileft (i_pc h) <= 2)%nat by (destruct (i_pc h); simpl; lia). lia.
Qed.

(** The thread of this kind moves at its next step, once the flag is up. *)
Definition busy (h : hub) (kd : kind) : Prop :=
  match kd with
  | KIng => i_pc h = IRun /\ Ingester.running (ing h) = false
  | KStrat =>
      match s_pc (strat h) with
      | SNone | SExit => False
      | SWait => last_seen (strat h) < Store.version (store_of h)
      | _ => True
      end
  | KExec => match e_pc (exec h) with ENone | EExit => False | _ => True end
  | KPoll => match p_pc (poll h) with PNone | PExit => False | _ => True end
  | KMain =>
      match m_pc h with
      | MDone | MGaveUp => False
      | MJoin th => is_finished h th = true
      | MDrop => is_finished h JPoller = true /\ i_pc h = IExit
      | _ => True
      end
  end.

(** Until the end, some thread is busy. *)
Lemma someone_busy h : ctl h -> joined h -> shutdown h = true -> finished h \/ exists kd, busy h kd.
Proof.
  intros [C1 C2 C3 C4 C5 C6 C7 C8] [J1 J2 J3 J4] Hs.
  destruct (m_pc h) as [ | | | | | | | |th| | | ] eqn:Em; cbn [mrank] in *;
    try (right; exists KMain; unfold busy; by rewrite Em).
  - destruct (is_finished h th) eqn:Ef; [right; exists KMain; unfold busy; by rewrite Em|].
    destruct th; cbn in Ef, C4, C5, C6, C8.
    + right. exists KStrat. unfold busy. destruct (s_pc (strat h)) eqn:Es; try done; [|by apply C8; [lia|]].
      assert (11 <= 4)%nat by (by apply C4). lia.
    + right. exists KExec. unfold busy. destruct (e_pc (exec h)) eqn:Es; try done. assert (10 <= 3)%nat by (by apply C5). lia.
    + right. exists KPoll. unfold busy. destruct (p_pc (poll h)) eqn:Es; try done. assert (9 <= 2)%nat by (by apply C6). lia.
  - right. assert (Hp : p_pc (poll h) = PExit) by (apply J3; lia). destruct (i_pc h) eqn:Ei.
    + assert (12 <= 1)%nat by (by apply C3). lia.
    + exists KIng. split; [done|]. apply C2. lia.
    + exists KMain. unfold busy. rewrite Em. cbn. by rewrite Hp.
  - left. left. split_and!; [done|apply J1; lia|apply J2; lia|apply J3; lia|apply J4; lia].
  - left. right. split_and!; [done|apply C4; lia|apply C5; lia|apply C6; lia|apply C3; lia].
Qed.

(** ** What one event does to the measure *)

Record advance (h h' : hub) (ek : option kind) : Prop := {
  a_le : (left h' <= left h)%nat;
  a_lt kd : ek = Some kd -> busy h kd -> (left h' < left h)%nat;
  a_stay kd : ek <> Some kd -> busy h kd -> busy h' kd;
  a_join : joined h -> joined h';
  a_flag : shutdown h' = true
}.

Lemma advance_same h ek : shutdown h = true -> (forall kd, ek = Some kd -> ~ busy h kd) -> advance h h ek.
Proof. intros Hs Hn. split; try done. intros kd E Hb. by destruct (Hn kd E). Qed.

(** A step of the strategy that is not its last. *)
Lemma strat_advance h h' :
  shutdown h = true -> shutdown h' = true -> s_pc (strat h) <> SExit ->
  m_pc h' = m_pc h -> i_pc h' = i_pc h -> ing h' = ing h -> exec h' = exec h -> poll h' = poll h ->
  (3 * sleft (s_pc (strat h')) + 2 * bus_len (bus h') < 3 * sleft (s_pc (strat h)) + 2 * bus_len (bus h))%nat ->
  advance h h' (Some KStrat).
Proof.
  intros Hs Hs' Hne Em Ei Eg Ee Ep Hlt. unfold left. split; unfold left; rewrite ?Em, ?Ei, ?Ee, ?Ep; try done; try lia.
  - intros [ | | | | ] Hk Hb; try done; unfold busy in *; rewrite ?Ei, ?Eg, ?Ee, ?Ep, ?Em; try done.
    assert (Hf : forall th, is_finished h th = true -> is_finished h' th = true).
    { intros [] Hf; cbn in *; [|by rewrite Ee|by rewrite Ep]. by destruct (s_pc (strat h)). }
    destruct (m_pc h); try done; [by apply Hf|]. destruct Hb as [H1 H2]. split; [by apply Hf|done].
  - intros [J1 J2 J3 J4]. split; rewrite ?Em, ?Ei, ?Ee, ?Ep; try done. intros Hm. destruct Hne. by apply J1.
Qed.

Lemma strat_step_advance k h now h' :
  ok k h -> shutdown h = true -> strat_step cfg h now = Some h' -> advance h h' (Some KStrat).
Proof.
  intros Hok Hs Hst. destruct (o_bus _ _ _ _ _ _ k h Hok) as (q & Hq & _). pose proof (Spsc.m_len _ _ Hq) as Hl. unfold strat_step in Hst.
  destruct (s_pc (strat h)) eqn:Ep.
  - injection Hst as <-. apply advance_same; [done|]. intros kd [= <-]. unfold busy. rewrite Ep. tauto.
  - destruct (Z.eqb_spec (Store.version (store_of h)) (last_seen (strat h))); injection Hst as <-.
    + apply advance_same; [done|]. intros kd [= <-]. unfold busy. rewrite Ep. lia.
    + apply strat_advance; rewrite ?Ep; try done. simpl. lia.
  - injection Hst as <-. rewrite Hs. apply strat_advance; rewrite ?Ep; try done. simpl. lia.
  - destruct (Strategy.wake _ _) as [[s' [sd|]]|]; [| |done]; cbn [mbind option_bind] in Hst; injection Hst as <-;
      (apply strat_advance; rewrite ?Ep; try done; simpl; lia).
  - destruct (decide (Z.of_nat (length q) = Spsc.capacity (bus h))) as [Hf|Hf].
    + rewrite (Spsc.try_push_full _ _ _ Hq Hf) in Hst. injection Hst as <-. apply strat_advance; rewrite ?Ep; try done. simpl. lia.
    + destruct (Spsc.try_push_space _ _ (s_sig (strat h)) Hq ltac:(lia)) as (b & E & Hq' & _). rewrite E in Hst. injection Hst as <-.
      apply strat_advance; rewrite ?Ep; try done. cbn. rewrite (bus_len_models _ _ Hq), (bus_len_models _ _ Hq'), length_app. simpl. lia.
  - injection Hst as <-. rewrite Hs. apply strat_advance; rewrite ?Ep; try done. simpl. lia.
  - injection Hst as <-. apply strat_advance; rewrite ?Ep; try done. simpl. lia.
  - injection Hst as <-. apply advance_same; [done|]. intros kd [= <-]. unfold busy. rewrite Ep. tauto.
Qed.

Lemma exec_advance h h' :
  shutdown h = true -> shutdown h' = true -> e_pc (exec h) <> EExit ->
  m_pc h' = m_pc h -> i_pc h' = i_pc h -> ing h' = ing h -> strat h' = strat h -> poll h' = poll h ->
  (eleft (e_pc (exec h')) + 2 * bus_len (bus h') < eleft (e_pc (exec h)) + 2 * bus_len (bus h))%nat ->
  advance h h' (Some KExec).
Proof.
  intros Hs Hs' Hne Em Ei Eg Ee Ep Hlt. split; unfold left; rewrite ?Em, ?Ei, ?Ee, ?Ep; try done; try lia.
  - intros [ | | | | ] Hk Hb; try done; unfold busy, store_of in *; rewrite ?Ei, ?Eg, ?Ee, ?Ep, ?Em; try done.
    assert (Hf : forall th, is_finished h th = true -> is_finished h' th = true).
    { intros [] Hf; cbn in *; [by rewrite Ee| |by rewrite Ep]. by destruct (e_pc (exec h)). }
    destruct (m_pc h); try done; [by apply Hf|]. destruct Hb as [H1 H2]. split; [by apply Hf|done].
  - intros [J1 J2 J3 J4]. split; rewrite ?Em, ?Ei, ?Ee, ?Ep; try done. intros Hm. destruct Hne. by apply J2.
Qed.

Lemma exec_step_advance k h now flt rd h' :
  ok k h -> shutdown h = true -> exec_step cfg h now flt rd = Some h' -> advance h h' (Some KExec).
Proof.
  intros Hok Hs Hst. destruct (o_bus _ _ _ _ _ _ k h Hok) as (q & Hq & _). unfold exec_step in Hst.
  destruct (e_pc (exec h)) eqn:Ep.
  - injection Hst as <-. apply advance_same; [done|]. intros kd [= <-]. unfold busy. rewrite Ep. tauto.
  - injection Hst as <-. apply exec_advance; rewrite ?Ep; try done. simpl. lia.
  - destruct q as [|sig q].
    + rewrite (Spsc.try_pop_empty _ Hq) in Hst. injection Hst as <-. apply exec_advance; rewrite ?Ep; try done. simpl. lia.
    + destruct (Spsc.try_pop_cons _ _ _ Hq) as (b & E & Hq' & _). rewrite E in Hst. injection Hst as <-.
      apply exec_advance; rewrite ?Ep; try done. cbn. rewrite (bus_len_models _ _ Hq), (bus_len_models _ _ Hq'). simpl. lia.
  - injection Hst as <-. rewrite Hs. apply exec_advance; rewrite ?Ep; try done. simpl. lia.
  - injection Hst as <-. apply advance_same; [done|]. intros kd [= <-]. unfold busy. rewrite Ep. tauto.
Qed.

Lemma poll_advance h p :
  shutdown h = true -> p_pc (poll h) <> PExit -> (pleft (p_pc p) < pleft (p_pc (poll h)))%nat ->
  advance h (set_poll h p) (Some KPoll).
Proof.
  intros Hs Hne Hlt. split; unfold left; cbn; try done; try lia.
  - intros [ | | | | ] Hk Hb; try done; unfold busy in *; cbn in *; try done.
    assert (Hf : forall th, is_finished h th = true -> is_finished (set_poll h p) th = true).
    { intros [] Hf; cbn in *; try done. by destruct (p_pc (poll h)). }
    destruct (m_pc h); try done; [by apply Hf|]. destruct Hb as [H1 H2]. split; [exact (Hf JPoller H1)|done].
  - intros [J1 J2 J3 J4]. split; cbn; try done. intros Hm. destruct Hne. by apply J3.
Qed.

Lemma poll_step_advance h : shutdown h = true -> advance h (poll_step r h) (Some KPoll).
Proof.
  intros Hs. unfold poll_step. destruct (p_pc (poll h)) eqn:Ep; rewrite ?Hs;
    try (apply poll_advance; rewrite ?Ep; try done; simpl; lia);
    (apply advance_same; [done|]; intros kd [= <-]; unfold busy; rewrite Ep; tauto).
Qed.

(** A step of [main]: the other threads' needs only grow. *)
Lemma main_advance h h' :
  shutdown h = true -> shutdown h' = true -> (left h' < left h)%nat ->
  (forall kd, kd <> KMain -> busy h kd -> busy h' kd) -> (joined h -> joined h') -> advance h h' (Some KMain).
Proof. intros Hs Hs' Hlt Hb Hj. split; try done; [lia|]. intros kd Hk. apply Hb. congruence. Qed.

Lemma set_main_advance h m :
  shutdown h = true -> (mleft m < mleft (m_pc h))%nat ->
  (joined h -> joined (set_main h m)) -> advance h (set_main h m) (Some KMain).
Proof.
  intros Hs Hlt Hj. apply main_advance; try done; [unfold left; cbn; lia|]. by intros [ | | | | ].
Qed.

Lemma main_step_advance k h opened :
  ok k h -> ctl h -> shutdown h = true -> Z.of_nat k + 1 < u64_max -> advance h (main_step cfg h opened) (Some KMain).
Proof.
  intros Hok Hc Hs Hk. pose proof Hc as [C1 C2 C3 C4 C5 C6 C7 C8]. pose proof (o_version _ _ _ _ _ _ k h Hok) as Hv. unfold main_step.
  destruct (m_pc h) as [ | | | | | | | |th| | | ] eqn:Em; cbn [mrank] in *.
  - rewrite Hs. apply set_main_advance; rewrite ?Em; [done|simpl; lia|]. intros _. split; cbn; lia.
  - assert (Hn : s_pc (strat h) = SNone) by (apply C4; lia). apply main_advance; try done; [unfold left; cbn; rewrite Hn, Em; simpl; lia| |].
    + intros [ | | | | ]; try done. intros _. unfold busy. by rewrite Hn.
    + intros _. split; cbn; lia.
  - assert (Hn : e_pc (exec h) = ENone) by (apply C5; lia). apply main_advance; try done; [unfold left; cbn; rewrite Hn, Em; simpl; lia| |].
    + intros [ | | | | ]; try done.
    + intros _. split; cbn; lia.
  - assert (Hn : p_pc (poll h) = PNone) by (apply C6; lia). apply main_advance; try done; [unfold left; cbn; rewrite Hn, Em; simpl; lia| |].
    + intros [ | | | | ]; try done.
    + intros _. split; cbn; lia.
  - rewrite Hs. apply set_main_advance; rewrite ?Em; [done|simpl; lia|]. intros _. split; cbn; lia.
  - apply main_advance; try done; [unfold left; cbn; rewrite Em; simpl; lia| |].
    + intros [ | | | | ]; try done. intros _ [H1 _]. by split.
    + intros _. split; cbn; lia.
  - apply main_advance; try done; [unfold left; cbn; rewrite Em; simpl; lia| |].
    + intros [ | | | | ]; try done. intros _ Hb. unfold busy, store_of in *. cbn. destruct (s_pc (strat h)); try done.
      rewrite fetch_add1_small by lia. lia.
    + intros _. split; cbn; lia.
  - apply set_main_advance; rewrite ?Em; [done|simpl; lia|]. intros _. split; cbn; lia.
  - destruct (is_finished h th) eqn:Ef; [|apply advance_same; [done|]; intros kd [= <-]; unfold busy; rewrite Em; congruence].
    apply set_main_advance; rewrite ?Em; [done|destruct th; simpl; lia|].
    intros [J1 J2 J3 J4]. rewrite Em in *. destruct th; split; cbn in *; try lia; intros _; auto with lia;
      [by destruct (s_pc (strat h))|by destruct (e_pc (exec h))|by destruct (p_pc (poll h))].
  - destruct (is_finished h JPoller) eqn:Ef.
    + destruct (i_pc h) eqn:Ei.
      * split; unfold left; cbn; rewrite ?Em, ?Ei; try done; [|intros kd ? Hb|intros []; split; cbn; try done; rewrite Em; simpl; lia].
        -- intros kd [= <-]. unfold busy. rewrite Em, Ei. by intros [_ ?].
        -- destruct kd; try done. unfold busy in *. cbn. destruct Hb as [Hb _]. split; [congruence|done].
      * split; unfold left; cbn; rewrite ?Em, ?Ei; try done; [|intros kd ? Hb|intros []; split; cbn; try done; rewrite Em; simpl; lia].
        -- intros kd [= <-]. unfold busy. rewrite Em, Ei. by intros [_ ?].
        -- by destruct kd.
      * apply main_advance; try done; [unfold left; cbn; rewrite Em, Ei; simpl; lia| |].
        -- intros [ | | | | ]; try done. intros _ [H1 _]. congruence.
        -- intros [J1 J2 J3 J4]. rewrite Em in *. split; cbn in *; auto with lia.
    + apply set_main_advance; rewrite ?Em; [done|simpl; lia|]. intros [J1 J2 J3 J4]. rewrite Em in *. exfalso.
      cbn in Ef, J3. rewrite J3 in Ef by lia. done.
  - apply advance_same; [done|]. intros kd [= <-]. unfold busy. rewrite Em. tauto.
  - apply advance_same; [done|]. intros kd [= <-]. unfold busy. rewrite Em. tauto.
Qed.

(** An event of the ring: [version] only grows, nothing else is shared. *)
Lemma ing_advance k h e i ek :
  ok k h -> shutdown h = true -> Z.of_nat k + 1 < u64_max -> e <> Ingester.StopSignal ->
  Ingester.step (S fuel) w r (symbol cfg) (ing h) e = Some i ->
  (forall kd, ek = Some kd -> ~ busy h kd) -> advance h (set_ing h i (i_pc h)) ek.
Proof.
  intros Hok Hs Hk He E Hn. destruct (ing_event_ok fuel w r cfg ms cap dir Hcap k h e (i_pc h) Hok Hk He) as (i' & E' & _ & Hr & Hv).
  rewrite E in E'. injection E' as <-. split; try done.
  - intros kd Hkd Hb. by destruct (Hn kd Hkd).
  - intros [ | | | | ] _ Hb; try done; unfold busy, store_of in *; cbn; [by rewrite Hr|].
    destruct (s_pc (strat h)); try done. lia.
  - by intros [].
Qed.

Lemma ing_step_advance k h f h' :
  ok k h -> ctl h -> shutdown h = true -> Z.of_nat k + 1 < u64_max -> step h (Ingest f) = Some h' -> advance h h' (Some KIng).
Proof.
  intros Hok Hc Hs Hk Hst. cbn [HubSys.step] in Hst. destruct (i_pc h) eqn:Ei.
  - injection Hst as <-. apply advance_same; [done|]. intros kd [= <-] [H _]. congruence.
  - destruct (Ingester.running (ing h)) eqn:Er.
    + destruct (Ingester.step _ _ _ _ _ _) as [i|] eqn:E; [|done]. injection Hst as <-. rewrite <- Ei.
      apply (ing_advance k h (Ingester.Iterate f)); try done. intros kd [= <-] [_ H]. congruence.
    + injection Hst as <-. split; unfold left; cbn; rewrite ?Ei; try done; try (simpl; lia).
      * intros [ | | | | ] ? Hb; try done. unfold busy in *. cbn. destruct (m_pc h); try done. destruct Hb as [_ ?]. congruence.
      * intros [J1 J2 J3 J4]. by split.
  - injection Hst as <-. apply advance_same; [done|]. intros kd [= <-] [H _]. congruence.
Qed.

Lemma step_advance k h e h' :
  ok k h -> ctl h -> shutdown h = true -> Z.of_nat k + 1 < u64_max -> no_timeout e -> step h e = Some h' -> advance h h' (kind_of e).
Proof.
  intros Hok Hc Hs Hk Ht Hst. destruct e as [ |c|f|now|now flt rd| |opened| ]; cbn [kind_of]; [..|done].
  - injection Hst as <-. split; try done. by intros [].
  - cbn [HubSys.step] in Hst. destruct (Ingester.step _ _ _ _ _ _) as [i|] eqn:E; [|done]. injection Hst as <-.
    by apply (ing_advance k h (Ingester.Produce c)).
  - by eapply ing_step_advance.
  - by eapply strat_step_advance.
  - by eapply exec_step_advance.
  - injection Hst as <-. by apply poll_step_advance.
  - injection Hst as <-. by eapply main_step_advance.
Qed.

(** ** Schedules *)

Record good (k : nat) (h : hub) : Prop := {
  g_ok : ok k h; g_ctl : ctl h; g_joined : joined h; g_flag : shutdown h = true
}.

Lemma good_step k h e h' :
  good k h -> Z.of_nat k + 1 < u64_max -> no_timeout e -> step h e = Some h' -> good (S k) h' /\ advance h h' (kind_of e).
Proof.
  intros [Hok Hc Hj Hs] Hk Ht Hst. pose proof (step_advance k h e h' Hok Hc Hs Hk Ht Hst) as Ha.
  destruct (step_ok fuel w r cfg ms cap dir Hcap k h e Hok Hc Hk) as (h1 & E & Hok1). rewrite Hst in E. injection E as <-.
  split; [|done]. split; [done|exact (step_ctl fuel w r cfg ms cap dir Hcap k h e h' Hok Hc Hk Hst)|by apply (a_join _ _ _ Ha)|by apply (a_flag _ _ _ Ha)].
Qed.

(** Along any schedule the measure does not grow; it shrinks when a thread
    that was busy at the start gets a step. *)
Lemma good_run es : forall k h,
  good k h -> Z.of_nat k + Z.of_nat (length es) < u64_max -> Forall no_timeout es ->
  exists h', run h es = Some h' /\ good (k + length es) h' /\ (left h' <= left h)%nat /\
    forall kd, busy h kd -> (exists e, In e es /\ kind_of e = Some kd) -> (left h' < left h)%nat.
Proof.
  induction es as [|e es IH]; intros k h Hg Hk Ht; cbn [length] in *.
  { exists h. rewrite Nat.add_0_r. split_and!; try done. by intros kd _ (e & [] & _). }
  apply Forall_cons in Ht as [He Ht].
  destruct (step_ok fuel w r cfg ms cap dir Hcap k h e (g_ok _ _ Hg) (g_ctl _ _ Hg) ltac:(lia)) as (h1 & E & _).
  destruct (good_step k h e h1 Hg ltac:(lia) He E) as [Hg1 Ha].
  destruct (IH (S k) h1 Hg1 ltac:(lia) Ht) as (h' & Hrun & Hg' & Hle & Hlt).
  exists h'. cbn [HubSys.run]. rewrite E. cbn [mbind option_bind]. replace (k + S (length es))%nat with (S k + length es)%nat by lia.
  pose proof (a_le _ _ _ Ha). split_and!; [done..|lia|]. intros kd Hb (x & Hin & Hx).
  assert (Hcase : kind_of e = Some kd \/ kind_of e <> Some kd) by (destruct (kind_of e) as [[]|], kd; auto; by right).
  destruct Hcase as [Hkd|Hkd].
  - pose proof (a_lt _ _ _ Ha kd Hkd Hb). lia.
  - assert (left h' < left h1)%nat; [|lia]. apply (Hlt kd); [by apply (a_stay _ _ _ Ha)|].
    destruct Hin as [->|Hin]; [done|]. by exists x.
Qed.

Lemma finished_step h e h' : finished h -> no_timeout e -> step h e = Some h' -> finished h'.
Proof.
  intros Hf Ht Hst. destruct e as [ |c|f|now|now flt rd| |opened| ]; cbn [HubSys.step] in Hst; [..|done].
  - by injection Hst as <-.
  - destruct (Ingester.step _ _ _ _ _ _) as [i|]; [|done]. by injection Hst as <-.
  - destruct Hf as [(H1 & H2 & H3 & H4 & H5)|(H1 & H2 & H3 & H4 & H5)]; rewrite H5 in Hst; injection Hst as <-; [by left|by right].
  - unfold strat_step in Hst. destruct Hf as [(H1 & H2 & H3 & H4 & H5)|(H1 & H2 & H3 & H4 & H5)]; rewrite H2 in Hst; injection Hst as <-; [by left|by right].
  - unfold exec_step in Hst. destruct Hf as [(H1 & H2 & H3 & H4 & H5)|(H1 & H2 & H3 & H4 & H5)]; rewrite H3 in Hst; injection Hst as <-; [by left|by right].
  - injection Hst as <-. unfold poll_step. destruct Hf as [(H1 & H2 & H3 & H4 & H5)|(H1 & H2 & H3 & H4 & H5)]; rewrite H4; [by left|by right].
  - injection Hst as <-. unfold main_step. destruct Hf as [(H1 & H2 & H3 & H4 & H5)|(H1 & H2 & H3 & H4 & H5)]; rewrite H1; [by left|by right].
Qed.

Lemma finished_run es : forall h h', finished h -> Forall no_timeout es -> run h es = Some h' -> finished h'.
Proof.
  induction es as [|e es IH]; intros h h' Hf Ht Hrun; cbn [HubSys.run] in Hrun; [by injection Hrun as <-|].
  apply Forall_cons in Ht as [He Ht]. destruct (step h e) as [h1|] eqn:E; [|done]. cbn [mbind option_bind] in Hrun.
  eapply IH; [|done|exact Hrun]. by eapply finished_step.
Qed.

Lemma run_app h es h1 es' : run h es = Some h1 -> run h (es ++ es') = run h1 es'.
Proof.
  revert h. induction es as [|e es IH]; intros h Hrun; cbn [HubSys.run app] in *; [by injection Hrun as ->|].
  destruct (step h e) as [h2|]; [|done]. cbn [mbind option_bind] in *. by apply IH.
Qed.

(** A busy thread still has steps to make. *)
Lemma busy_left h kd : busy h kd -> (0 < left h)%nat.
Proof.
  unfold left. destruct kd; unfold busy; intros Hb.
  - destruct Hb as [-> _]. simpl. lia.
  - destruct (s_pc (strat h)); simpl; try done; lia.
  - destruct (e_pc (exec h)); simpl; try done; lia.
  - destruct (p_pc (poll h)); simpl; try done; lia.
  - destruct (m_pc h) as [ | | | | | | | |[]| | | ]; simpl; try done; lia.
Qed.

Lemma rounds_finish rs : forall k h,
  good k h -> Z.of_nat k + Z.of_nat (length (concat rs)) < u64_max -> Forall fair rs -> (left h <= length rs)%nat ->
  exists h', run h (concat rs) = Some h' /\ finished h'.
Proof.
  induction rs as [|es rs IH]; intros k h Hg Hk Hf Hl;
    (destruct (someone_busy h (g_ctl _ _ Hg) (g_joined _ _ Hg) (g_flag _ _ Hg)) as [Hfin|[kd Hb]]; [|pose proof (busy_left h kd Hb)]).
  - by exists h.
  - simpl in Hl. lia.
  - assert (Ht : Forall no_timeout (concat (es :: rs))).
    { apply Forall_concat. eapply Forall_impl; [exact Hf|]. by intros l []. }
    destruct (good_run (concat (es :: rs)) k h Hg Hk Ht) as (h' & Hrun & _). exists h'. split; [done|]. by eapply finished_run.
  - apply Forall_cons in Hf as [[Ht Hf0] Hf]. cbn [concat] in Hk |- *. rewrite length_app in Hk.
    destruct (good_run es k h Hg ltac:(lia) Ht) as (h1 & Hrun & Hg1 & Hle & Hlt). rewrite (run_app _ _ _ _ Hrun).
    pose proof (Hlt kd Hb (Hf0 kd)). apply (IH (k + length es)%nat); [done|lia|done|]. simpl in Hl. lia.
Qed.

(** Before the shutdown sequence a step of any thread moves [main] at most to
    its start. *)
Lemma early_step h e h' : (7 < mrank (m_pc h))%nat -> step h e = Some h' -> (6 < mrank (m_pc h'))%nat.
Proof.
  intros Hm Hst. destruct e as [ |c|f|now|now flt rd| |opened| ]; cbn [HubSys.step] in Hst.
  - injection Hst as <-. simpl. lia.
  - destruct (Ingester.step _ _ _ _ _ _) as [i|]; [|done]. injection Hst as <-. simpl. lia.
  - destruct (i_pc h); [injection Hst as <-; lia| |injection Hst as <-; lia].
    destruct (Ingester.running (ing h)); [|injection Hst as <-; simpl; lia].
    destruct (Ingester.step _ _ _ _ _ _) as [i|]; [|done]. injection Hst as <-. simpl. lia.
  - unfold strat_step in Hst. destruct (s_pc (strat h)); try (injection Hst as <-; simpl; lia).
    + destruct (_ =? _); injection Hst as <-; simpl; lia.
    + destruct (Strategy.wake _ _) as [[s' [sd|]]|]; [| |done]; injection Hst as <-; simpl; lia.
    + destruct (Spsc.try_push _ _) as [[b []]|]; [| |done]; injection Hst as <-; simpl; lia.
  - unfold exec_step in Hst. destruct (e_pc (exec h)); try (injection Hst as <-; simpl; lia).
    destruct (Spsc.try_pop _) as [[b [sig|]]|]; [| |done]; injection Hst as <-; simpl; lia.
  - injection Hst as <-. unfold poll_step. destruct (p_pc (poll h)); simpl; lia.
  - injection Hst as <-. unfold main_step. destruct (m_pc h) as [ | | | | | | | |[]| | | ] eqn:Em; simpl in *; try lia;
      destruct (shutdown h), opened; simpl; rewrite ?Em; simpl; lia.
  - injection Hst as <-. destruct (m_pc h) as [ | | | | | | | |[]| | | ] eqn:Em; simpl in *; rewrite ?Em; simpl; lia.
Qed.

(** Without a timeout, what [main] has joined has exited; the flag is not
    needed for it. *)
Lemma joined_run es : forall k h h',
  ok k h -> ctl h -> joined h -> Z.of_nat k + Z.of_nat (length es) < u64_max -> Forall no_timeout es ->
  run h es = Some h' -> ok (k + length es) h' /\ ctl h' /\ joined h'.
Proof.
  induction es as [|e es IH]; intros k h h' Hok Hc Hj Hk Ht Hrun; cbn [length HubSys.run] in *.
  { injection Hrun as <-. by rewrite Nat.add_0_r. }
  apply Forall_cons in Ht as [He Ht]. destruct (step_ok fuel w r cfg ms cap dir Hcap k h e Hok Hc ltac:(lia)) as (h1 & E & Hok1).
  pose proof (step_ctl fuel w r cfg ms cap dir Hcap k h e h1 Hok Hc ltac:(lia) E) as Hc1. rewrite E in Hrun. cbn [mbind option_bind] in Hrun.
  replace (k + S (length es))%nat with (S k + length es)%nat by lia. apply (IH (S k) h1); [done..| |lia|done|done].
  destruct (shutdown h) eqn:Es; [apply (a_join _ _ _ (step_advance k h e h1 Hok Hc Es ltac:(lia) He E) Hj)|].
  (* while the flag is down [main] has not started to join *)
  assert (Hm : (7 < mrank (m_pc h))%nat).
  { destruct (decide (mrank (m_pc h) <= 7)%nat) as [Hle|]; [|lia]. rewrite (c_flag h Hc Hle) in Es. done. }
  assert (Hm1 : (6 < mrank (m_pc h1))%nat) by (exact (early_step h e h1 Hm E)).
  split; lia.
Qed.

(** ** Claims *)

(** Graceful shutdown completes.  From any state the hub can reach before
    a join has timed out, with the shutdown flag raised, whatever the threads
    are doing (waiting for a candle, spinning on a full bus, draining it,
    parked): after at most 2100 rounds of any schedule in which every round
    gives each thread a step, every thread has exited and [main] has joined
    them all and returned; if the flag came before the ring was opened, no
    thread was started and [main] returned.  In particular no wake-up of the
    strategy is lost, nothing panics, and candles that keep arriving do not
    delay it. *)
Theorem hub_shutdown_completes sg (d : disk) b dflt files (es0 : list event) h (rs : list (list event)) :
  attached w r sg [] -> Spsc.new dflt BUS_CAPACITY = Some b ->
  Forall no_timeout es0 -> run (init cfg (Store.open_store ms cap dir) sg d b dflt files) es0 = Some h -> shutdown h = true ->
  Forall fair rs -> (2100 <= length rs)%nat -> Z.of_nat (length es0) + Z.of_nat (length (concat rs)) < u64_max ->
  exists h', run h (concat rs) = Some h' /\ finished h'.
Proof.
  intros Ha Hb Ht Hrun Hs Hf Hl Hk. destruct (Spsc.new_models dflt BUS_CAPACITY b) as [Hm Hcb]; [by vm_compute|done|].
  assert (Hj : joined (init cfg (Store.open_store ms cap dir) sg d b dflt files)) by (split; cbn; lia).
  destruct (joined_run es0 0 _ h (init_ok w r cfg ms cap dir Hcap sg d b dflt files Ha Hm Hcb)
    (init_ctl cfg ms cap dir Hcap sg d b dflt files) Hj ltac:(lia) Ht Hrun) as (Hok & Hc & Hjn).
  pose proof (left_bound _ _ Hok). apply (rounds_finish rs (length es0)); [by split|done|done|lia].
Qed.

End live.

(** ** An example *)

Section example.
#[local] Existing Instance StoreSpec.journal_cold.
#[local] Existing Instance PlainText.plain_text.

Definition round1 : list (@event bool) := [Main true; Poll; Exec 5 Persist.NoFault true; Strat 5; Ingest true; Produce (Strategy.px 9 9)].

Lemma round1_fair : fair round1.
Proof.
  split; [by repeat constructor|]. intros []; [exists (Ingest true)|exists (Strat 5)|exists (Exec 5 Persist.NoFault true)|exists Poll|exists (Main true)];
    (split; [simpl; auto 10|done]).
Qed.

(** The signal arrives while the strategy has a signal to deliver. *)
Lemma hub_shutdown_completes_witness :
  exists h h', HubSys.run 0 demo_writer demo_reader cfg1 start1 (crossover ++ [Raise]) = Some h /\
    s_pc (strat h) = SPush /\
    HubSys.run 0 demo_writer demo_reader cfg1 h (concat (repeat round1 2100)) = Some h' /\ finished h'.
Proof.
  assert (E : (fun h => (s_pc (strat h), shutdown h)) <$> HubSys.run 0 demo_writer demo_reader cfg1 start1 (crossover ++ [Raise]) =
    Some (SPush, true)) by (vm_compute; reflexivity).
  destruct (HubSys.run 0 demo_writer demo_reader cfg1 start1 (crossover ++ [Raise])) as [h|] eqn:Hrun; [|discriminate E].
  injection E as E1 E2.
  destruct (hub_shutdown_completes 0 demo_writer demo_reader cfg1 4 8 None ltac:(lia) Ingester.empty_seg ([] : StoreSpec.journal) bus0 sig0 ∅
    (crossover ++ [Raise]) h (repeat round1 2100) Ingester.empty_attached) as (h' & H1 & H2).
  - vm_compute. reflexivity.
  - repeat constructor.
  - exact Hrun.
  - exact E2.
  - apply List.Forall_forall. intros x Hx. apply repeat_spec in Hx. rewrite Hx. apply round1_fair.
  - rewrite repeat_length. lia.
  - vm_compute. reflexivity.
  - exists h, h'. split_and!; [reflexivity|exact E1|exact H1|exact H2].
Defined.
End example.
End HubLive.
