(* ===== verification/FeederSys.v ===== *)
(** * The feed handler as a process ([src/src/bin/feed_handler.rs], [main])

    The generator loop of [Feeder.v] pushing into the shared-memory ring of
    [Shm.v] with [push_until], its metrics poller, the signal that stops it
    and a consumer in another process, under any schedule.  The metrics
    poller holds a clone of the writer, so [main] joins it before it drops
    its own: only then is the segment unmapped and unlinked.

    An event lets one side take one step up to its next access to shared
    state.  Ghost fields record the candles delivered and consumed and the
    system calls of the drop. *)

From S2P Require Import Prelude Float64 Candle RingBuffer Spsc Text Cold Store StoreSpec Shm Signals Sma Hub HubSys Feeder.

#[local] Open Scope Z_scope.

Module FeederSys.
Import ShmSys ShmRing.

(** The main thread. *)
Inductive gpc : Type :=
| GTop                 (* the [while !shutdown] check *)
| GFirst (c : Candle)  (* [push_until]: the first try *)
| GSpin (c : Candle)   (* the ring was full: trying again *)
| GCancel (c : Candle) (* that try failed: before the flag is read *)
| GFlush               (* candles_pushed.store(count) *)
| GJoin                (* poller_join.join() *)
| GDrop                (* drop(writer) *)
| GDone.

(** The metrics poller. *)
Inductive qpc : Type := QTop | QParked | QExit.

(** What the poller publishes: pushed, full events, capacity; and its alerts. *)
Record published : Type := mkPub { pub_pushed : Z; pub_full : Z; pub_capacity : f64 }.

Record sys : Type := mkSys {
  writer : ShmRingWriter;
  seg : Segment;
  shutdown : bool;
  g_pc : gpc;
  gen : Feeder.t;
  q_pc : qpc;
  reported : option published;
  behind : list Z;                  (* the poller's warnings *)
  calls : list syscall;             (* ghost *)
  delivered : list Candle;          (* ghost *)
  consumed : list Candle            (* ghost *)
}.

Definition at_gpc (s : sys) (p : gpc) : sys :=
  mkSys (writer s) (seg s) (shutdown s) p (gen s) (q_pc s) (reported s) (behind s) (calls s) (delivered s) (consumed s).
Definition with_gen (s : sys) (g : Feeder.t) (p : gpc) : sys :=
  mkSys (writer s) (seg s) (shutdown s) p g (q_pc s) (reported s) (behind s) (calls s) (delivered s) (consumed s).

(** [count += 1; if count & 1023 == 0 { candles_pushed.store(count) }]. *)
Definition counted (g : Feeder.t) : Feeder.t :=
  let n := Feeder.count g + 1 in
  Feeder.mkFeeder (Feeder.price g) (Feeder.seed g) n (Feeder.last_ts g) (Feeder.clock_skew_corrections g) (Feeder.next_tick g)
    (if Z.land n 1023 =? 0 then n else Feeder.candles_pushed g).

Definition flushed (g : Feeder.t) : Feeder.t :=
  Feeder.mkFeeder (Feeder.price g) (Feeder.seed g) (Feeder.count g) (Feeder.last_ts g) (Feeder.clock_skew_corrections g)
    (Feeder.next_tick g) (Feeder.count g).

(** A try of [push_until]: on success the candle is counted and the loop
    starts over. *)
Definition push_step (s : sys) (c : Candle) (full : sys -> sys) : panics sys :=
  '(sg, ok) ← try_push (writer s) (seg s) c;
  Some (if ok : bool
        then mkSys (writer s) sg (shutdown s) GTop (counted (gen s)) (q_pc s) (reported s) (behind s) (calls s) (delivered s ++ [c]) (consumed s)
        else full s).

Section feeder.
Context (rate_env : Z) (r : ShmRingReader).

(** The main thread; the three clock readings of a turn are arguments. *)
Definition gen_step (s : sys) (now raw wall : Z) : panics sys :=
  match g_pc s with
  | GTop =>
      if shutdown s then Some (at_gpc s GFlush)
      else
        let '(g, c) := Feeder.turn (Feeder.interval_of rate_env) (gen s) (Feeder.mkTick now raw wall false) in
        Some (with_gen s g (GFirst c))
  | GFirst c =>
      push_step s c (fun s =>
        mkSys (count_full (writer s)) (seg s) (shutdown s) (GSpin c) (gen s) (q_pc s) (reported s) (behind s) (calls s) (delivered s) (consumed s))
  | GSpin c => push_step s c (fun s => at_gpc s (GCancel c))
  | GCancel c => Some (at_gpc s (if shutdown s then GFlush else GSpin c))
  | GFlush => Some (with_gen s (flushed (gen s)) GJoin)
  | GJoin => Some (match q_pc s with QExit => at_gpc s GDrop | _ => s end)
  | GDrop =>
      Some (mkSys (writer s) (seg s) (shutdown s) GDone (gen s) (q_pc s) (reported s) (behind s)
              (calls s ++ drop_writer (writer s)) (delivered s) (consumed s))
  | GDone => Some s
  end.

(** The poller: [while !shutdown { park_timeout; publish }]. *)
Definition poll_step (s : sys) : sys :=
  match q_pc s with
  | QTop =>
      mkSys (writer s) (seg s) (shutdown s) (g_pc s) (gen s) (if shutdown s then QExit else QParked) (reported s) (behind s)
        (calls s) (delivered s) (consumed s)
  | QParked =>
      let '(mkWriterStats full cap) := stats (writer s) in
      mkSys (writer s) (seg s) (shutdown s) (g_pc s) (gen s) QTop
        (Some (mkPub (Feeder.candles_pushed (gen s)) full (f_of_Z cap)))
        (behind s ++ (if (0 <? full) && (full mod 10000 =? 0) then [full] else []))
        (calls s) (delivered s) (consumed s)
  | QExit => s
  end.

Inductive event : Type :=
| Raise
| Gen (now raw wall : Z)
| Poll
| Consume.       (* the other process pops *)

Definition step (s : sys) (e : event) : panics sys :=
  match e with
  | Raise =>
      Some (mkSys (writer s) (seg s) true (g_pc s) (gen s) (q_pc s) (reported s) (behind s) (calls s) (delivered s) (consumed s))
  | Gen now raw wall => gen_step s now raw wall
  | Poll => Some (poll_step s)
  | Consume =>
      '(sg, x) ← try_pop r (seg s);
      Some (mkSys (writer s) sg (shutdown s) (g_pc s) (gen s) (q_pc s) (reported s) (behind s) (calls s) (delivered s)
              (match x with Some c => consumed s ++ [c] | None => consumed s end))
  end.

Fixpoint run (s : sys) (es : list event) : panics sys :=
  match es with
  | [] => Some s
  | e :: es' => s1 ← step s e; run s1 es'
  end.

(** After [create] succeeded and the poller was spawned. *)
Definition init (w : ShmRingWriter) (sg : Segment) (now : Z) : sys :=
  mkSys w sg false GTop (Feeder.start now) QTop None [] [] [] [].

(** ** Start-up *)

(** What [main] reads from the environment, with the helpers both binaries
    define alike. *)
Record config : Type := mkConfig { shm_name : string; shm_cap : Z; core_id : Z; symbol : string; rate_env_of : Z }.

Definition config_from_env (e : HubSys.environ) : config :=
  mkConfig (HubSys.env_str e "FEED_SHM_NAME" "/tradekern_feed") (HubSys.env_usize e "FEED_SHM_CAP" 65536)
    (HubSys.env_usize e "FEED_CORE" 0) (HubSys.env_str e "FEED_SYMBOL" "BTCUSDT:1m") (HubSys.env_usize e "FEED_RATE" 10000).

(** The process either runs its threads or leaves with an exit code, in both
    cases after the system calls of [create]; [slots] is what the fresh
    mapping holds. *)
Inductive launched : Type :=
| Running (tr : list syscall) (s : sys)
| Exited (tr : list syscall) (code : Z).

Definition launch (cfg : config) (e : env) (slots : list Candle) (now : Z) : panics launched :=
  '(tr, hdr, res) ← create (shm_name cfg) (shm_cap cfg) e;
  Some match res, hdr with
       | Ok w, Some h => Running tr (init w (mkSegment h slots) now)
       | _, _ => Exited tr 1
       end.

(** A process that runs has a writer any matching reader can be attached to,
    so the theorems below apply to it; one whose name is taken exits with 1
    and has created nothing. *)
Lemma launch_attached cfg e slots now tr s name' e' obs tr' :
  shm_cap cfg <= 2 ^ 57 -> Z.of_nat (length slots) = shm_cap cfg -> launch cfg e slots now = Some (Running tr s) ->
  open_reader name' (shm_cap cfg) e' obs (hcapacity (header (seg s))) = Some (Some (tr', Ok r)) ->
  s = init (writer s) (seg s) now /\ attached (writer s) r (seg s) [].
Proof.
  intros Hb Hl H Ho. unfold launch in H. destruct (create (shm_name cfg) (shm_cap cfg) e) as [[[tr0 hdr] res]|] eqn:Hc; [|done].
  cbn [mbind option_bind] in H. destruct res as [w|]; [|done]. destruct hdr as [h|]; [|done]. injection H as <- <-. split; [done|].
  exact (create_open_attached _ _ _ _ _ _ _ _ _ _ _ _ _ Hb Hc Ho Hl).
Qed.

Lemma launch_exits cfg e slots now errno :
  Spsc.is_power_of_two (shm_cap cfg) = true -> cstring (shm_name cfg) <> None -> e_shm_open e = Err errno ->
  launch cfg e slots now = Some (Exited [ShmOpen (shm_name cfg) true true] 1).
Proof.
  intros Hp Hn He. unfold launch, create, create_inner. rewrite Hp. unfold cstring in *.
  destruct (Text.all_chars _ _); [|done]. simpl. by rewrite He.
Qed.

(** ** Invariant *)

(** The candles come from turns of the generator. *)
Record stream (s : sys) : Prop := {
  t_open : Forall (fun c => 0 < ts c <= i64_max /\ f_le f_one (open c) = true /\ f_le f_one (close c) = true) (delivered s);
  t_sorted : StronglySorted Feeder.later (delivered s);
  t_last : Forall (fun c => ts c <= Feeder.last_ts (gen s)) (delivered s);
  t_i64 : is_i64 (Feeder.last_ts (gen s)) /\ 0 <= Feeder.last_ts (gen s);
  t_price : f_le f_one (Feeder.price (gen s)) = true;
  t_count : Feeder.count (gen s) = Z.of_nat (length (delivered s));
  t_pending c : g_pc s = GFirst c \/ g_pc s = GSpin c \/ g_pc s = GCancel c ->
    0 < ts c <= i64_max /\ f_le f_one (open c) = true /\ f_le f_one (close c) = true /\ ts c = Feeder.last_ts (gen s) /\
    Forall (fun x => Feeder.later x c) (delivered s)
}.

Record inv (w0 : ShmRingWriter) (s : sys) : Prop := {
  v_ring : exists q, attached (writer s) r (seg s) q /\ delivered s = consumed s ++ q;
  v_writer : drop_writer (writer s) = drop_writer w0;
  v_stream : stream s;
  v_calls : calls s = match g_pc s with GDone => drop_writer w0 | _ => [] end;
  v_join : g_pc s = GDrop \/ g_pc s = GDone -> q_pc s = QExit;
  v_flag : g_pc s = GFlush \/ g_pc s = GJoin \/ g_pc s = GDrop \/ g_pc s = GDone -> shutdown s = true;
  v_flushed : g_pc s = GJoin \/ g_pc s = GDrop \/ g_pc s = GDone -> Feeder.candles_pushed (gen s) = Feeder.count (gen s)
}.

(** A turn of the generator makes the next candle of the stream. *)
Lemma turn_stream s now raw wall g c :
  stream s -> Feeder.turn (Feeder.interval_of rate_env) (gen s) (Feeder.mkTick now raw wall false) = (g, c) ->
  stream (with_gen s g (GFirst c)).
Proof.
  intros [H1 H2 H3 [H4 H4'] H5 H6 H7] Ht. destruct (Feeder.turn_spec _ _ _ _ _ H4 Ht) as (T1 & T2 & T3 & T4 & T5 & T6 & T7).
  simpl in T7. split; cbn; try done.
  - eapply Forall_impl; [exact H3|]. simpl. unfold is_i64 in *. lia.
  - unfold is_i64 in *. lia.
  - lia.
  - intros x [[= <-]|[|]]; [|done|done]. rewrite T1, T2, T4. unfold is_i64, i64_max in *. split_and!; try done; try lia.
    eapply Forall_impl; [exact H3|]. unfold Feeder.later, i64_max. simpl. intros y Hy. lia.
Qed.

(** A delivered candle extends the stream. *)
Lemma push_stream s c sg :
  stream s -> g_pc s = GFirst c \/ g_pc s = GSpin c ->
  stream (mkSys (writer s) sg (shutdown s) GTop (counted (gen s)) (q_pc s) (reported s) (behind s) (calls s) (delivered s ++ [c]) (consumed s)).
Proof.
  intros [H1 H2 H3 H4 H5 H6 H7] Hp. destruct (H7 c) as (P1 & P2 & P3 & P4 & P5); [tauto|]. split; cbn; try done.
  - apply Forall_app. split; [done|]. by apply Forall_singleton.
  - by apply sorted_snoc.
  - apply Forall_app. split; [done|]. apply Forall_singleton. lia.
  - rewrite length_app. simpl. lia.
  - by intros x [|[|]].
Qed.

Lemma stream_pc s s' :
  stream s -> gen s' = gen s -> delivered s' = delivered s ->
  (forall c, g_pc s' = GFirst c \/ g_pc s' = GSpin c \/ g_pc s' = GCancel c -> g_pc s = GFirst c \/ g_pc s = GSpin c \/ g_pc s = GCancel c) ->
  stream s'.
Proof. intros [H1 H2 H3 H4 H5 H6 H7] Eg Ed Hp. split; rewrite ?Eg, ?Ed; auto. Qed.

Lemma attached_count w sg q : attached w r sg q -> attached (count_full w) r sg q.
Proof. by intros []. Qed.

Lemma push_inv w0 s c full :
  inv w0 s -> g_pc s = GFirst c \/ g_pc s = GSpin c -> inv w0 (full s) ->
  exists s', push_step s c full = Some s' /\ inv w0 s' /\ (g_pc s' = GTop \/ s' = full s).
Proof.
  intros [(q & Ha & Hd) Hw Hst Hc Hj Hf Hfl] Hp Hfull. unfold push_step.
  destruct (try_push_spec (writer s) r (seg s) q c Ha) as (sg & b & -> & _ & Ha'). cbn [mbind option_bind].
  eexists. split; [reflexivity|]. destruct b; [|by auto]. split; [|by left]. split; cbn; try done.
  - exists (q ++ [c]). split; [done|]. by rewrite Hd, app_assoc.
  - by apply push_stream.
  - destruct Hp as [E|E]; by rewrite E in Hc.
  - by intros [|].
  - by intros [|[|[|]]].
  - by intros [|[|]].
Qed.

Lemma gen_step_inv w0 s now raw wall : inv w0 s -> exists s', gen_step s now raw wall = Some s' /\ inv w0 s'.
Proof.
  intros Hi. pose proof Hi as [Hq Hw Hst Hc Hj Hf Hfl]. unfold gen_step. destruct (g_pc s) as [ |c|c|c| | | | ] eqn:Ep.
  - destruct (shutdown s) eqn:Es.
    + eexists. split; [reflexivity|]. split; cbn; try done; [by apply (stream_pc s); rewrite ?Ep; try done; intros c [|[|]]|by intros [|]|by intros [|[|]]].
    + destruct (Feeder.turn _ _ _) as [g c] eqn:Et. eexists. split; [reflexivity|].
      split; cbn; try done; [by eapply turn_stream|by intros [|]|by intros [|[|[|]]]|by intros [|[|]]].
  - destruct (push_inv w0 s c (fun s => mkSys (count_full (writer s)) (seg s) (shutdown s) (GSpin c) (gen s) (q_pc s) (reported s)
        (behind s) (calls s) (delivered s) (consumed s)) Hi ltac:(auto)) as (s' & E & Hi' & _); [|by exists s'].
    split; cbn; try done; [destruct Hq as (q & Ha & Hd); exists q; by split; [apply attached_count|]| |by intros [|]|by intros [|[|[|]]]|by intros [|[|]]].
    apply (stream_pc s); rewrite ?Ep; try done. cbn. intros x [|[[= <-]|]]; [done|by left|done].
  - destruct (push_inv w0 s c (fun s => at_gpc s (GCancel c)) Hi ltac:(auto)) as (s' & E & Hi' & _); [|by exists s'].
    split; cbn; try done; [|by intros [|]|by intros [|[|[|]]]|by intros [|[|]]].
    apply (stream_pc s); rewrite ?Ep; try done. cbn. intros x [|[|[= <-]]]; [done|done|auto].
  - eexists. split; [reflexivity|]. destruct (shutdown s) eqn:Es.
    + split; cbn; try done; [by apply (stream_pc s); rewrite ?Ep; try done; intros x [|[|]]|by intros [|]|by intros [|[|]]].
    + split; cbn; try done; [|by intros [|]|by intros [|[|[|]]]|by intros [|[|]]].
      apply (stream_pc s); rewrite ?Ep; try done. cbn. intros x [|[[= <-]|]]; [done|auto|done].
  - eexists. split; [reflexivity|]. split; cbn; try done; [|by intros [|]|by intros _; apply Hf; auto].
    destruct Hst as [H1 H2 H3 H4 H5 H6 H7]. split; cbn; try done. by intros x [|[|]].
  - eexists. split; [reflexivity|]. destruct (q_pc s) eqn:Eq; try done.
    split; cbn; try done; [by apply (stream_pc s); rewrite ?Ep; try done; intros c [|[|]]|by intros _; apply Hf; auto|by intros _; apply Hfl; auto].
  - eexists. split; [reflexivity|]. split; cbn; try done;
      [by apply (stream_pc s); rewrite ?Ep; try done; intros c [|[|]]|by rewrite Hc, Hw|by intros _; apply Hj; auto|by intros _; apply Hf; auto|by intros _; apply Hfl; auto].
  - by exists s.
Qed.

Lemma poll_step_inv w0 s : inv w0 s -> inv w0 (poll_step s).
Proof.
  intros Hi. pose proof Hi as [Hq Hw Hst Hc Hj Hf Hfl]. unfold poll_step. destruct (q_pc s) eqn:Eq; [| |done];
    (split; cbn; try done; [by apply (stream_pc s)|intros Hp; by specialize (Hj Hp)]).
Qed.

Lemma feeder_step_inv w0 s e : inv w0 s -> exists s', step s e = Some s' /\ inv w0 s'.
Proof.
  intros Hi. pose proof Hi as [(q & Ha & Hd) Hw Hst Hc Hj Hf Hfl]. destruct e as [ |now raw wall| | ]; cbn [step].
  - eexists. split; [reflexivity|]. split; cbn; try done; [by exists q|by apply (stream_pc s)].
  - by apply gen_step_inv.
  - eexists. split; [reflexivity|]. by apply poll_step_inv.
  - pose proof (shm_step_fifo (writer s) r (seg s) q Spsc.Pop Ha) as Hp. simpl in Hp.
    assert (Hok : exists sg x q', try_pop r (seg s) = Some (sg, x) /\ attached (writer s) r sg q' /\
      delivered s = (match x with Some c => consumed s ++ [c] | None => consumed s end) ++ q').
    { destruct q as [|c q]; destruct Hp as (sg & Hp & Ha' & _); destruct (try_pop r (seg s)) as [[sg' x]|]; try done;
        injection Hp as -> ->; [exists sg, None, []|exists sg, (Some c), q]; (split_and!; [done..|]); [done|]. by rewrite Hd, <- app_assoc. }
    destruct Hok as (sg & x & q' & -> & Ha' & Hd'). cbn [mbind option_bind]. eexists. split; [reflexivity|].
    split; cbn; try done; [by exists q'|by apply (stream_pc s)].
Qed.

Lemma feeder_run_inv w0 es : forall s, inv w0 s -> exists s', run s es = Some s' /\ inv w0 s'.
Proof.
  induction es as [|e es IH]; intros s Hi; [by exists s|]. destruct (feeder_step_inv w0 s e Hi) as (s1 & E & Hi1).
  cbn [run]. rewrite E. cbn [mbind option_bind]. by apply IH.
Qed.

Lemma feeder_run_app s es s1 es' : run s es = Some s1 -> run s (es ++ es') = run s1 es'.
Proof.
  revert s. induction es as [|e es IH]; intros s Hrun; cbn [run app] in *; [by injection Hrun as ->|].
  destruct (step s e) as [s2|]; [|done]. by apply IH.
Qed.

Lemma feeder_init_inv w sg now : attached w r sg [] -> inv w (init w sg now).
Proof.
  intros Ha. split; cbn; try done; [by exists []| |by intros [|]|by intros [|[|[|]]]].
  split; cbn; try done; [constructor|by intros c [|[|]]].
Qed.

(** ** Shutdown *)

Definition gleft (p : gpc) : nat :=
  match p with GFirst _ => 8 | GSpin _ => 7 | GTop | GCancel _ => 6 | GFlush => 4 | GJoin => 3 | GDrop => 2 | GDone => 0 end.
Definition qleft (p : qpc) : nat := match p with QParked => 2 | QTop => 1 | QExit => 0 end.
Definition left (s : sys) : nat := (gleft (g_pc s) + qleft (q_pc s))%nat.

Lemma left_le s : (left s <= 10)%nat.
Proof. unfold left. destruct (g_pc s), (q_pc s); simpl; lia. Qed.

Inductive kind : Type := KGen | KPoll.
Definition kind_of (e : event) : option kind :=
  match e with Gen _ _ _ => Some KGen | Poll => Some KPoll | _ => None end.

Definition fair (es : list event) : Prop := forall kd, exists e, In e es /\ kind_of e = Some kd.

Definition busy (s : sys) (kd : kind) : Prop :=
  match kd with
  | KGen => g_pc s <> GDone /\ (g_pc s = GJoin -> q_pc s = QExit)
  | KPoll => q_pc s <> QExit
  end.

Lemma feeder_someone_busy s : g_pc s = GDone \/ exists kd, busy s kd.
Proof.
  destruct (q_pc s) eqn:Eq; [right; exists KPoll; unfold busy; congruence..|].
  destruct (g_pc s) eqn:Eg; [right; exists KGen; split; congruence..|by left].
Qed.

(** Once the flag is up, an event never adds work, and does some when its
    thread is busy. *)
Lemma step_left w0 s e s' :
  inv w0 s -> shutdown s = true -> step s e = Some s' ->
  shutdown s' = true /\ (left s' <= left s)%nat /\
  (forall kd, kind_of e = Some kd -> busy s kd -> (left s' < left s)%nat) /\
  (forall kd, kind_of e <> Some kd -> busy s kd -> busy s' kd).
Proof.
  intros Hi Hs Hst. destruct e as [ |now raw wall| | ]; cbn [step] in Hst.
  - by injection Hst as <-.
  - assert (Hgen : shutdown s' = true /\ q_pc s' = q_pc s /\ (g_pc s' = g_pc s /\ ~ busy s KGen \/ (gleft (g_pc s') < gleft (g_pc s))%nat)).
    { unfold gen_step in Hst. destruct (g_pc s) as [ |c|c|c| | | | ] eqn:Ep.
      - rewrite Hs in Hst. injection Hst as <-. cbn. split_and!; [done..|right; lia].
      - unfold push_step in Hst. destruct (try_push _ _ _) as [[sg []]|]; [| |done]; injection Hst as <-; cbn; (split_and!; [done..|right; lia]).
      - unfold push_step in Hst. destruct (try_push _ _ _) as [[sg []]|]; [| |done]; injection Hst as <-; cbn; (split_and!; [done..|right; lia]).
      - rewrite Hs in Hst. injection Hst as <-. cbn. split_and!; [done..|right; lia].
      - injection Hst as <-. cbn. split_and!; [done..|right; lia].
      - destruct (q_pc s) eqn:Eq; injection Hst as <-; cbn; rewrite ?Ep, ?Eq; (split_and!; [done..|]); [left|left|right; lia];
          (split; [done|]); intros [_ H]; (discriminate (H eq_refl) || discriminate (H Ep)).
      - injection Hst as <-. cbn. split_and!; [done..|right; lia].
      - injection Hst as <-. rewrite Ep. split_and!; [done..|left]. split; [done|]. intros [H _]. congruence. }
    destruct Hgen as (H1 & H2 & H3). unfold left. rewrite H2. split_and!; [done| | |].
    + destruct H3 as [[-> _]|H3]; lia.
    + intros kd [= <-] Hb. destruct H3 as [[_ Hn]|H3]; [done|lia].
    + intros [] Hk Hb; [done|]. unfold busy in *. congruence.
  - injection Hst as <-. unfold poll_step, left. destruct (q_pc s) eqn:Eq; cbn; rewrite ?Hs, ?Eq; cbn; (split_and!; [done|lia|..]).
    + intros. lia.
    + intros [] Hk Hb; [|done]. destruct Hb as [Hb1 Hb2]. by split.
    + intros. lia.
    + intros [] Hk Hb; [|done]. destruct Hb as [Hb1 Hb2]. split; [done|]. cbn. intros Hj. specialize (Hb2 Hj). congruence.
    + intros kd [= <-] Hb. unfold busy in Hb. congruence.
    + done.
  - destruct (try_pop r (seg s)) as [[sg x]|]; [|done]. by injection Hst as <-.
Qed.

Lemma run_left w0 es : forall s, inv w0 s -> shutdown s = true ->
  exists s', run s es = Some s' /\ inv w0 s' /\ shutdown s' = true /\ (left s' <= left s)%nat /\
    forall kd, busy s kd -> (exists e, In e es /\ kind_of e = Some kd) -> (left s' < left s)%nat.
Proof.
  induction es as [|e es IH]; intros s Hi Hs.
  { exists s. split_and!; try done. by intros kd _ (e & [] & _). }
  destruct (feeder_step_inv w0 s e Hi) as (s1 & E & Hi1). destruct (step_left w0 s e s1 Hi Hs E) as (Hs1 & Hle1 & Hlt1 & Hst1).
  destruct (IH s1 Hi1 Hs1) as (s' & Hrun & Hi' & Hs' & Hle & Hlt). exists s'. cbn [run]. rewrite E. cbn [mbind option_bind].
  split_and!; [done..|lia|]. intros kd Hb (x & Hin & Hx).
  assert (Hcase : kind_of e = Some kd \/ kind_of e <> Some kd) by (destruct (kind_of e) as [[]|], kd; auto; by right).
  destruct Hcase as [Hk|Hk]; [pose proof (Hlt1 kd Hk Hb); lia|].
  assert (left s' < left s1)%nat; [|lia]. apply (Hlt kd); [by apply Hst1|]. destruct Hin as [->|Hin]; [done|]. by exists x.
Qed.

Lemma feeder_rounds_finish w0 rs : forall s, inv w0 s -> shutdown s = true -> Forall fair rs -> (left s <= length rs)%nat ->
  exists s', run s (concat rs) = Some s' /\ inv w0 s' /\ g_pc s' = GDone.
Proof.
  induction rs as [|es rs IH]; intros s Hi Hs Hf Hl.
  - exists s. split_and!; try done. unfold left in Hl. simpl in Hl. destruct (g_pc s); simpl in Hl; try lia. done.
  - apply Forall_cons in Hf as [Hf0 Hf]. cbn [concat].
    destruct (run_left w0 es s Hi Hs) as (s1 & Hrun & Hi1 & Hs1 & Hle & Hlt).
    rewrite (feeder_run_app _ _ _ _ Hrun). apply IH; [done..|]. simpl in Hl.
    destruct (feeder_someone_busy s) as [Hd|[kd Hb]]; [|pose proof (Hlt kd Hb (Hf0 kd)); lia].
    (* already stopped: the poller has exited, nothing is left *)
    assert (Hq : q_pc s = QExit) by (apply (v_join _ _ Hi); auto). unfold left in *. rewrite Hd, Hq in Hle. simpl in Hle. lia.
Qed.

(** ** Claims *)

(** The stream another process reads from the ring, under any schedule of
    generator, poller, consumer and signals and whatever the clocks do:
    nothing panics; the candles consumed so far are the first of those
    delivered, the rest wait in the ring; they carry positive timestamps that
    strictly increase (until the last value an [i64] holds) and prices of at
    least 1.0; and the segment is not unmapped or unlinked before the poller,
    which uses it, has exited. *)
Theorem feeder_stream_reaches_consumer w sg now es :
  attached w r sg [] ->
  exists s q, run (init w sg now) es = Some s /\ attached (writer s) r (seg s) q /\ delivered s = consumed s ++ q /\
    StronglySorted Feeder.later (delivered s) /\
    Forall (fun c => 0 < ts c <= i64_max /\ f_le f_one (open c) = true /\ f_le f_one (close c) = true) (delivered s) /\
    Feeder.count (gen s) = Z.of_nat (length (delivered s)) /\ (calls s <> [] -> q_pc s = QExit).
Proof.
  intros Ha. destruct (feeder_run_inv w es _ (feeder_init_inv w sg now Ha)) as (s & Hrun & Hi).
  destruct Hi as [(q & Hq & Hd) Hw [T1 T2 T3 T4 T5 T6 T7] Hc Hj Hf Hfl]. exists s, q. split_and!; try done.
  intros Hne. apply Hj. rewrite Hc in Hne. destruct (g_pc s); try done; auto.
Qed.

(** The feed handler stops: from any state it can reach with the signal
    delivered, the ring full and its consumer dead included, at most ten
    rounds of any schedule that gives both threads a step in each bring
    [main] to its end, with the poller joined, the published count equal to
    the number of candles delivered, and the segment unmapped and unlinked
    exactly once. *)
Theorem feeder_shutdown_unlinks w sg now es0 s (rs : list (list event)) :
  attached w r sg [] -> run (init w sg now) es0 = Some s -> shutdown s = true -> Forall fair rs -> (10 <= length rs)%nat ->
  exists s', run s (concat rs) = Some s' /\ g_pc s' = GDone /\ q_pc s' = QExit /\ calls s' = drop_writer w /\
    Feeder.candles_pushed (gen s') = Z.of_nat (length (delivered s')).
Proof.
  intros Ha Hrun Hs Hf Hl. destruct (feeder_run_inv w es0 _ (feeder_init_inv w sg now Ha)) as (s0 & E & Hi). rewrite Hrun in E. injection E as <-.
  pose proof (left_le s) as Hb.
  destruct (feeder_rounds_finish w rs s Hi Hs Hf ltac:(lia)) as (s' & Hr & Hi' & Hd). exists s'. split_and!; [done..|apply (v_join _ _ Hi'); auto| |].
  - rewrite (v_calls _ _ Hi'), Hd. done.
  - rewrite (v_flushed _ _ Hi') by auto. apply (v_stream _ _ Hi').
Qed.

End feeder.

(** ** Example: a ring of one slot whose consumer stops *)

Definition stalled : list event :=
  [Gen 0 100 100; Gen 0 0 0; Poll; Consume; Gen 0 60 60; Gen 0 0 0; Gen 0 160 160; Gen 0 0 0; Gen 0 0 0; Poll; Raise].

Lemma feeder_stream_reaches_consumer_witness :
  exists s q, run 10000 demo_reader (init demo_writer Ingester.empty_seg 0) stalled = Some s /\
    delivered s = consumed s ++ q /\ ts <$> delivered s = [100; 101] /\ StronglySorted Feeder.later (delivered s).
Proof.
  destruct (feeder_stream_reaches_consumer 10000 demo_reader demo_writer Ingester.empty_seg 0 stalled Ingester.empty_attached)
    as (s & q & Hrun & _ & Hd & Hs & _).
  assert (E : (fun s => ts <$> delivered s) <$> run 10000 demo_reader (init demo_writer Ingester.empty_seg 0) stalled = Some [100; 101])
    by (vm_compute; reflexivity).
  rewrite Hrun in E. injection E as E. exists s, q. split_and!; [exact Hrun|exact Hd|exact E|exact Hs].
Defined.

Lemma feeder_shutdown_unlinks_witness :
  exists s s', run 10000 demo_reader (init demo_writer Ingester.empty_seg 0) stalled = Some s /\ depth (seg s) = 1 /\
    run 10000 demo_reader s (concat (repeat [Poll; Gen 0 0 0] 10)) = Some s' /\
    g_pc s' = GDone /\ calls s' = drop_writer demo_writer.
Proof.
  assert (E : (fun s => (shutdown s, depth (seg s))) <$> run 10000 demo_reader (init demo_writer Ingester.empty_seg 0) stalled = Some (true, 1))
    by (vm_compute; reflexivity).
  destruct (run 10000 demo_reader (init demo_writer Ingester.empty_seg 0) stalled) as [s|] eqn:Hrun; [|discriminate E]. injection E as E1 E2.
  destruct (feeder_shutdown_unlinks 10000 demo_reader demo_writer Ingester.empty_seg 0 stalled s (repeat [Poll; Gen 0 0 0] 10)
    Ingester.empty_attached Hrun E1) as (s' & H1 & H2 & _ & H3 & _).
  - apply List.Forall_forall. intros x Hx. apply repeat_spec in Hx. rewrite Hx.
    intros []; [exists (Gen 0 0 0)|exists Poll]; (split; [simpl; auto|done]).
  - rewrite repeat_length. lia.
  - exists s, s'. split_and!; [reflexivity|exact E2|exact H1|exact H2|exact H3].
Defined.
End FeederSys.
