(* ===== verification/System.v ===== *)
(** * The two processes together

    [feed_handler] ([FeederSys.v]) and [market_hub] ([HubSys.v]) share one
    shared-memory segment: the generator of the first pushes into it, the
    ingester of the second pops from it.  This file runs both under one
    schedule.  Each process steps as its own file says; what it does to the
    segment is what the other sees next ([seen_by_hub], [seen_by_feeder]).

    The two files model the other end as an environment (the [Produce] events
    of the hub, the [Consume] events of the feed handler).  [system_projects]
    shows that this environment is all the real peer can do: a run of the
    system is a run of each process against its environment, so the theorems
    about the processes hold of the system, and together they give what
    neither has alone. *)

From S2P Require Import Prelude Float64 Candle RingBuffer Spsc Text Cold Store StoreSpec StoreCold Shm Signals Sma Hub HubSys HubLive Feeder FeederSys.

#[local] Open Scope Z_scope.

Module System.
Import ShmSys ShmRing.

Section system.
Context {disk faults : Type} `{!ColdStorage disk faults} `{T : F64Text}.
Context (fuel : nat) (w : ShmRingWriter) (r : ShmRingReader) (cfg : HubSys.config) (rate_env : Z).

Abbreviation hub := (@HubSys.hub disk).
Abbreviation hub_step := (HubSys.step fuel w r cfg).
Abbreviation hub_run := (HubSys.run fuel w r cfg).
Abbreviation feed_step := (FeederSys.step rate_env r).
Abbreviation feed_run := (FeederSys.run rate_env r).

Record system : Type := mkSystem { feeder : FeederSys.sys; market_hub : hub }.

(** The feed handler's stores to the segment, as the hub's mapping shows
    them; [accepted] is the ghost record of the pushes. *)
Definition seen_by_hub (h : hub) (f : FeederSys.sys) : hub :=
  let i := HubSys.ing h in
  HubSys.set_ing h
    (Ingester.mkIngester (FeederSys.seg f) (Ingester.store i) (Ingester.disk_state i) (Ingester.running i) (Ingester.popped i)
       (FeederSys.delivered f))
    (HubSys.i_pc h).

(** The hub's stores to the segment, as the feed handler's mapping shows
    them; [consumed] is the ghost record of the pops. *)
Definition seen_by_feeder (f : FeederSys.sys) (h : hub) : FeederSys.sys :=
  let i := HubSys.ing h in
  FeederSys.mkSys (FeederSys.writer f) (Ingester.seg i) (FeederSys.shutdown f) (FeederSys.g_pc f) (FeederSys.gen f)
    (FeederSys.q_pc f) (FeederSys.reported f) (FeederSys.behind f) (FeederSys.calls f) (FeederSys.delivered f)
    (take (Z.to_nat (Ingester.popped i)) (Ingester.accepted i)).

(** Signals go to one process each. *)
Inductive event : Type :=
| FeedRaise
| FeedGen (now raw wall : Z)
| FeedPoll
| HubRaise
| HubIngest (f : faults)
| HubStrat (now : Z)
| HubExec (now : Z) (flt : Persist.io_fault) (readable : bool)
| HubPoll
| HubMain (opened : bool)
| HubTimeout.

Definition feed_event (e : event) : option FeederSys.event :=
  match e with
  | FeedRaise => Some FeederSys.Raise
  | FeedGen now raw wall => Some (FeederSys.Gen now raw wall)
  | FeedPoll => Some FeederSys.Poll
  | _ => None
  end.

Definition hub_event (e : event) : option (@HubSys.event faults) :=
  match e with
  | HubRaise => Some HubSys.Raise
  | HubIngest f => Some (HubSys.Ingest f)
  | HubStrat now => Some (HubSys.Strat now)
  | HubExec now flt readable => Some (HubSys.Exec now flt readable)
  | HubPoll => Some HubSys.Poll
  | HubMain opened => Some (HubSys.Main opened)
  | HubTimeout => Some HubSys.Timeout
  | _ => None
  end.

Definition step (s : system) (e : event) : panics system :=
  match feed_event e, hub_event e with
  | Some fe, _ => f ← feed_step (feeder s) fe; Some (mkSystem f (seen_by_hub (market_hub s) f))
  | None, Some he => h ← hub_step (market_hub s) he; Some (mkSystem (seen_by_feeder (feeder s) h) h)
  | None, None => Some s
  end.

Fixpoint run (s : system) (es : list event) : panics system :=
  match es with
  | [] => Some s
  | e :: es' => s1 ← step s e; run s1 es'
  end.

Definition init (st : Store.t) (sg : Segment) (now : Z) (d : disk) (b : Spsc.t Signals.Signal) (dflt : Signals.Signal)
    (files : Persist.files) : system :=
  mkSystem (FeederSys.init w sg now) (HubSys.init cfg st sg d b dflt files).

(** ** Agreement on the segment *)

Record agree (s : system) : Prop := {
  a_seg : FeederSys.seg (feeder s) = Ingester.seg (HubSys.ing (market_hub s));
  a_accepted : Ingester.accepted (HubSys.ing (market_hub s)) = FeederSys.delivered (feeder s);
  a_consumed : FeederSys.consumed (feeder s) = take (Z.to_nat (Ingester.popped (HubSys.ing (market_hub s)))) (FeederSys.delivered (feeder s));
  a_le : (Z.to_nat (Ingester.popped (HubSys.ing (market_hub s))) <= length (FeederSys.delivered (feeder s)))%nat;
  a_cap : w_capacity (FeederSys.writer (feeder s)) = w_capacity w;
  a_size : w_map_size (FeederSys.writer (feeder s)) = w_map_size w
}.

(** [try_push] reads the capacity and the size of the writer only. *)
Lemma try_push_writer w1 w2 sg c :
  w_capacity w1 = w_capacity w2 -> w_map_size w1 = w_map_size w2 -> try_push w1 sg c = try_push w2 sg c.
Proof. intros H1 H2. unfold try_push. by rewrite H1, H2. Qed.

(** A step of the generator leaves the segment alone, or is one push. *)
Lemma gen_step_segment (f f' : FeederSys.sys) e :
  feed_step f e = Some f' -> e <> FeederSys.Consume ->
  w_capacity (FeederSys.writer f') = w_capacity (FeederSys.writer f) /\
  w_map_size (FeederSys.writer f') = w_map_size (FeederSys.writer f) /\
  FeederSys.consumed f' = FeederSys.consumed f /\
  (FeederSys.seg f' = FeederSys.seg f /\ FeederSys.delivered f' = FeederSys.delivered f \/
   exists c, try_push (FeederSys.writer f) (FeederSys.seg f) c = Some (FeederSys.seg f', true) /\
     FeederSys.delivered f' = FeederSys.delivered f ++ [c]).
Proof.
  intros H Hne. destruct e as [ |now raw wall| | ]; [| | |done]; cbn [FeederSys.step] in H.
  - injection H as <-. cbn. auto 10.
  - unfold FeederSys.gen_step, FeederSys.push_step in H. destruct (FeederSys.g_pc f) as [ |c|c|c| | | | ].
    + destruct (FeederSys.shutdown f); [by injection H as <-; cbn; auto 10|].
      destruct (Feeder.turn _ _ _) as [g c]. injection H as <-. cbn. auto 10.
    + destruct (try_push _ _ c) as [[sg []]|] eqn:E; [| |done]; injection H as <-; cbn; split_and!; auto 10. right. by exists c.
    + destruct (try_push _ _ c) as [[sg []]|] eqn:E; [| |done]; injection H as <-; cbn; split_and!; auto 10. right. by exists c.
    + injection H as <-. cbn. auto 10.
    + injection H as <-. cbn. auto 10.
    + injection H as <-. destruct (FeederSys.q_pc f); cbn; auto 10.
    + injection H as <-. cbn. auto 10.
    + injection H as <-. auto 10.
  - injection H as <-. unfold FeederSys.poll_step. destruct (FeederSys.q_pc f); cbn; auto 10.
Qed.

Lemma seen_by_hub_id (s : system) : agree s -> seen_by_hub (market_hub s) (feeder s) = market_hub s.
Proof.
  intros [H1 H2 _ _ _ _]. unfold seen_by_hub. rewrite H1, <- H2. destruct (market_hub s) as [[] ]. done.
Qed.

Lemma seen_by_feeder_id (s : system) : agree s -> seen_by_feeder (feeder s) (market_hub s) = feeder s.
Proof.
  intros [H1 H2 H3 _ _ _]. unfold seen_by_feeder. rewrite <- H1, H2, <- H3. by destruct (feeder s).
Qed.

(** ** Projections *)

(** The hub's side of a step of the feed handler: a [Produce], or nothing. *)
Lemma feed_step_projects s e f' :
  agree s -> feed_step (feeder s) e = Some f' -> e <> FeederSys.Consume ->
  exists hes, hub_run (market_hub s) hes = Some (seen_by_hub (market_hub s) f') /\
    (length hes <= 1)%nat /\ Forall HubLive.no_timeout hes /\ agree (mkSystem f' (seen_by_hub (market_hub s) f')).
Proof.
  intros Ha H Hne. pose proof Ha as [A1 A2 A3 A4 A5 A6].
  destruct (gen_step_segment _ _ _ H Hne) as (E1 & E2 & E3 & [[E4 E5]|(c & Hp & E5)]).
  - exists []. split_and!; [|simpl; lia|constructor|].
    + assert (Hs : seen_by_hub (market_hub s) f' = market_hub s); [|by rewrite Hs].
      rewrite <- (seen_by_hub_id s Ha) at 2. unfold seen_by_hub. by rewrite E4, E5.
    + split; cbn; [done..| | |congruence|congruence]; rewrite ?E3, E5; done.
  - exists [HubSys.Produce c]. split_and!; [|simpl; lia|by repeat constructor|].
    + cbn [HubSys.run HubSys.step Ingester.step]. rewrite <- A1, <- (try_push_writer (FeederSys.writer (feeder s))) by done.
      rewrite Hp. cbn [mbind option_bind]. unfold seen_by_hub. by rewrite E5, A2.
    + split; cbn; [done..| | |congruence|congruence]; rewrite ?E3, E5.
      * rewrite A3, take_app_le by done. done.
      * rewrite length_app. lia.
Qed.

(** A step of the hub leaves the segment alone, or is one pop. *)
Lemma hub_step_segment (h h' : hub) e :
  hub_step h e = Some h' -> (forall c, e <> HubSys.Produce c) ->
  let i := HubSys.ing h in let i' := HubSys.ing h' in
  Ingester.accepted i' = Ingester.accepted i /\
  (Ingester.seg i' = Ingester.seg i /\ Ingester.popped i' = Ingester.popped i \/
   exists x, try_pop r (Ingester.seg i) = Some (Ingester.seg i', x) /\
     Ingester.popped i' = match x with Some _ => fetch_add1 (Ingester.popped i) | None => Ingester.popped i end).
Proof.
  intros H Hne i i'. destruct e as [ |c|f|now|now flt rd| |opened| ]; cbn [HubSys.step] in H.
  - injection H as <-. cbn. auto.
  - by destruct (Hne c).
  - destruct (HubSys.i_pc h); [by injection H as <-; auto| |by injection H as <-; auto].
    destruct (Ingester.running (HubSys.ing h)) eqn:Er; [|by injection H as <-; cbn; auto].
    cbn [Ingester.step] in H. rewrite Er in H. cbn [negb] in H.
    destruct (try_pop r (Ingester.seg (HubSys.ing h))) as [[sg [c|]]|] eqn:Ep; [| |done]; cbn [mbind option_bind] in H.
    + destruct (Store.append _ _ _ _ _ _) as [[st d]|]; [|done]. injection H as <-. cbn. split; [done|]. right. by exists (Some c).
    + injection H as <-. cbn. split; [done|]. right. by exists None.
  - unfold HubSys.strat_step in H. destruct (HubSys.s_pc (HubSys.strat h)); try (injection H as <-; cbn; by auto).
    + destruct (_ =? _); injection H as <-; cbn; auto.
    + destruct (Strategy.wake _ _) as [[s' [sd|]]|]; [| |done]; injection H as <-; cbn; auto.
    + destruct (Spsc.try_push _ _) as [[b []]|]; [| |done]; injection H as <-; cbn; auto.
  - unfold HubSys.exec_step in H. destruct (HubSys.e_pc (HubSys.exec h)); try (injection H as <-; cbn; by auto).
    destruct (Spsc.try_pop _) as [[b [sig|]]|]; [| |done]; injection H as <-; cbn; auto.
  - injection H as <-. unfold i', HubSys.poll_step. destruct (HubSys.p_pc (HubSys.poll h)); cbn; auto.
  - injection H as <-. unfold i', HubSys.main_step. destruct (HubSys.m_pc h) as [ | | | | | | | |[]| | | ]; try (cbn; by auto);
      repeat match goal with |- context [if ?b then _ else _] => destruct b end; try (cbn; by auto).
    destruct (HubSys.i_pc h); cbn; auto.
  - injection H as <-. unfold i'. destruct (HubSys.m_pc h) as [ | | | | | | | |th| | | ]; try (by auto).
    destruct (HubSys.is_finished h th); cbn; auto.
Qed.

Context (ms : Z) (cap : nat) (dir : option string).
Hypothesis Hcap : (0 < cap)%nat.

Abbreviation hub_ok := (HubSys.ok w r cfg ms cap dir).

(** The feed handler's side of a step of the hub: a [Consume], or nothing. *)
Lemma hub_step_projects k s e h' :
  agree s -> hub_ok k (market_hub s) -> Z.of_nat k + 1 < u64_max ->
  hub_step (market_hub s) e = Some h' -> (forall c, e <> HubSys.Produce c) ->
  exists fes, feed_run (feeder s) fes = Some (seen_by_feeder (feeder s) h') /\
    agree (mkSystem (seen_by_feeder (feeder s) h') h').
Proof.
  intros Ha Hok Hk H Hne. pose proof Ha as [A1 A2 A3 A4 A5 A6].
  destruct (hub_step_segment _ _ _ H Hne) as (E1 & [[E2 E3]|(x & Hp & E3)]).
  - exists []. rewrite <- (seen_by_feeder_id s Ha) at 1. unfold seen_by_feeder. rewrite E1, E2, E3. split; [done|].
    split; cbn; rewrite ?E1, ?E2, ?E3; try done. by rewrite A2.
  - exists [FeederSys.Consume]. cbn [FeederSys.run FeederSys.step]. rewrite A1, Hp. cbn [mbind option_bind].
    destruct (HubSys.o_ing _ _ _ _ _ _ _ _ Hok) as (n & j & Hi & Hn). pose proof Hi as [Hring Hle Hpop Hbd _ _ _].
    destruct x as [c|].
    + pose proof (shm_step_fifo w r _ _ Spsc.Pop Hring) as Hf. cbn [shm_step] in Hf. rewrite Hp in Hf. cbn [mbind option_bind] in Hf.
      destruct (drop j (Ingester.accepted (HubSys.ing (market_hub s)))) as [|c' q] eqn:Ed;
        cbn [Spsc.fifo_step] in Hf; destruct Hf as (sg & Hf & _); [done|]. injection Hf as _ <-.
      assert (Hj : Ingester.accepted (HubSys.ing (market_hub s)) !! j = Some c).
      { pose proof (lookup_drop (Ingester.accepted (HubSys.ing (market_hub s))) j 0) as Hl.
        rewrite Ed, Nat.add_0_r in Hl. by rewrite <- Hl. }
      pose proof (lookup_lt_Some _ _ _ Hj) as Hlt. rewrite fetch_add1_small in E3 by lia.
      assert (Ej : Z.to_nat (Ingester.popped (HubSys.ing h')) = S j) by lia.
      assert (Et : take (S j) (FeederSys.delivered (feeder s)) = FeederSys.consumed (feeder s) ++ [c]).
      { rewrite A3, Hpop, Nat2Z.id, <- A2. by apply take_S_r. }
      unfold seen_by_feeder. rewrite E1, Ej, A2, Et. split; [done|].
      split; cbn; rewrite ?E1, ?Ej; try done. rewrite <- A2. lia.
    + unfold seen_by_feeder. rewrite E1, E3, A2, <- A3. split; [done|]. split; cbn; rewrite ?E1, ?E3; done.
Qed.

(** ** Runs *)

Record sys_ok (k : nat) (s : system) : Prop := {
  so_agree : agree s;
  so_feeder : FeederSys.inv r w (feeder s);
  so_hub : hub_ok k (market_hub s);
  so_ctl : HubSys.ctl (market_hub s)
}.

Lemma hub_run_one h e h' : hub_step h e = Some h' -> hub_run h [e] = Some h'.
Proof. intros H. cbn [HubSys.run]. by rewrite H. Qed.

Lemma feed_run_one f e f' : feed_step f e = Some f' -> feed_run f [e] = Some f'.
Proof. intros H. cbn [FeederSys.run]. by rewrite H. Qed.

Lemma hub_ok_run hes k h : hub_ok k h -> HubSys.ctl h -> (length hes <= 1)%nat -> Z.of_nat k + 1 < u64_max ->
  exists h', hub_run h hes = Some h' /\ hub_ok (S k) h' /\ HubSys.ctl h'.
Proof.
  intros Hok Hc Hl Hk. destruct (HubSys.run_ok fuel w r cfg ms cap dir Hcap hes k h Hok Hc ltac:(lia)) as (h' & Hr & Hok' & Hc').
  exists h'. split_and!; [done| |done]. destruct hes as [|e [|]]; simpl in Hl, Hok'; [|by replace (S k) with (k + 1)%nat by lia|lia].
  rewrite Nat.add_0_r in Hok'. by apply HubSys.ok_weaken.
Qed.

(** A step of the system is a step of one process and at most one event of
    the other's environment. *)
Lemma system_step k s e :
  sys_ok k s -> Z.of_nat k + 1 < u64_max ->
  exists s' fes hes, step s e = Some s' /\ sys_ok (S k) s' /\
    feed_run (feeder s) fes = Some (feeder s') /\ hub_run (market_hub s) hes = Some (market_hub s') /\
    (forall fe, feed_event e = Some fe -> In fe fes) /\ (forall he, hub_event e = Some he -> In he hes) /\
    (length hes <= 1)%nat /\ (e <> HubTimeout -> Forall HubLive.no_timeout hes).
Proof.
  intros [Ha Hf Hh Hc] Hk. unfold step. destruct (feed_event e) as [fe|] eqn:Ef.
  - assert (Hne : fe <> FeederSys.Consume) by (by destruct e; simplify_eq/=).
    assert (Hhe : hub_event e = None) by (by destruct e).
    destruct (FeederSys.feeder_step_inv rate_env r w (feeder s) fe Hf) as (f' & E & Hf'). rewrite E. cbn [mbind option_bind].
    destruct (feed_step_projects s fe f' Ha E Hne) as (hes & Hr & Hl & Ht & Ha').
    destruct (hub_ok_run hes k _ Hh Hc Hl Hk) as (h' & Hr' & Hok' & Hc'). rewrite Hr in Hr'. injection Hr' as <-.
    eexists _, [fe], hes. split_and!; [reflexivity|by split|by apply feed_run_one|done| |by rewrite Hhe|done|done].
    intros fe' [= <-]. by left.
  - destruct (hub_event e) as [he|] eqn:Eh; [|by destruct e].
    assert (Hne : forall c, he <> HubSys.Produce c) by (by destruct e; simplify_eq/=).
    destruct (hub_ok_run [he] k _ Hh Hc ltac:(simpl; lia) Hk) as (h' & Hr & Hok' & Hc'). cbn [HubSys.run] in Hr.
    destruct (hub_step (market_hub s) he) as [h1|] eqn:E; [|done]. injection Hr as ->. cbn [mbind option_bind].
    destruct (hub_step_projects k s he h' Ha Hh Hk E Hne) as (fes & Hr & Ha').
    destruct (FeederSys.feeder_run_inv rate_env r w fes _ Hf) as (f' & Hr' & Hf'). rewrite Hr in Hr'. injection Hr' as <-.
    eexists _, fes, [he]. split_and!; [reflexivity|by split|done|by apply hub_run_one|done| |simpl; lia|].
    + intros he' [= <-]. by left.
    + intros Hn. repeat constructor. by destruct e; simplify_eq/=.
Qed.

(** A run of the system, seen from each side. *)
Lemma system_run es : forall k s,
  sys_ok k s -> Z.of_nat k + Z.of_nat (length es) < u64_max ->
  exists s' fes hes, run s es = Some s' /\ sys_ok (k + length es) s' /\
    feed_run (feeder s) fes = Some (feeder s') /\ hub_run (market_hub s) hes = Some (market_hub s') /\
    (forall e fe, In e es -> feed_event e = Some fe -> In fe fes) /\ (forall e he, In e es -> hub_event e = Some he -> In he hes) /\
    (length hes <= length es)%nat /\ (Forall (fun e => e <> HubTimeout) es -> Forall HubLive.no_timeout hes).
Proof.
  induction es as [|e es IH]; intros k s Hs Hk; cbn [length] in *.
  { exists s, [], []. rewrite Nat.add_0_r. by split_and!. }
  destruct (system_step k s e Hs ltac:(lia)) as (s1 & fes1 & hes1 & E & Hs1 & Hf1 & Hh1 & If1 & Ih1 & Hl1 & Ht1).
  destruct (IH (S k) s1 Hs1 ltac:(lia)) as (s2 & fes2 & hes2 & E2 & Hs2 & Hf2 & Hh2 & If2 & Ih2 & Hl2 & Ht2).
  exists s2, (fes1 ++ fes2), (hes1 ++ hes2). cbn [run]. rewrite E. cbn [mbind option_bind].
  rewrite (FeederSys.feeder_run_app _ _ _ _ _ _ Hf1), (HubLive.run_app _ _ _ _ _ _ _ _ Hh1). split_and!; try done.
  - by replace (k + S (length es))%nat with (S k + length es)%nat by lia.
  - intros e' fe [<-|Hin] He; apply in_or_app; eauto.
  - intros e' he [<-|Hin] He; apply in_or_app; eauto.
  - rewrite length_app. lia.
  - intros [Hne Ht]%Forall_cons. apply Forall_app. auto.
Qed.

(** ** Fair rounds *)

Inductive kind : Type := KGen | KFeedPoll | KIng | KStrat | KExec | KHubPoll | KMain.

Definition kind_of (e : event) : option kind :=
  match e with
  | FeedGen _ _ _ => Some KGen | FeedPoll => Some KFeedPoll
  | HubIngest _ => Some KIng | HubStrat _ => Some KStrat | HubExec _ _ _ => Some KExec
  | HubPoll => Some KHubPoll | HubMain _ => Some KMain
  | FeedRaise | HubRaise | HubTimeout => None
  end.

(** A round gives every thread of both processes a step. *)
Definition fair (es : list event) : Prop :=
  Forall (fun e => e <> HubTimeout) es /\ forall kd, exists e, In e es /\ kind_of e = Some kd.

Lemma fair_feeder es fes :
  fair es -> (forall e fe, In e es -> feed_event e = Some fe -> In fe fes) -> FeederSys.fair fes.
Proof.
  intros [_ Hf] Hin kd. destruct (Hf (match kd with FeederSys.KGen => KGen | FeederSys.KPoll => KFeedPoll end)) as (e & He & Hk).
  destruct e; destruct kd; simplify_eq/=; (eexists; split; [by eapply Hin|done]).
Qed.

Lemma fair_hub es hes :
  fair es -> (forall e he, In e es -> hub_event e = Some he -> In he hes) -> Forall HubLive.no_timeout hes -> HubLive.fair hes.
Proof.
  intros [_ Hf] Hin Ht. split; [done|]. intros kd.
  destruct (Hf (match kd with HubLive.KIng => KIng | HubLive.KStrat => KStrat | HubLive.KExec => KExec
                | HubLive.KPoll => KHubPoll | HubLive.KMain => KMain end)) as (e & He & Hk).
  destruct e; destruct kd; simplify_eq/=; (eexists; split; [by eapply Hin|done]).
Qed.

(** Fair rounds of the system are fair rounds of each process. *)
Lemma system_rounds rs : forall k s,
  sys_ok k s -> Z.of_nat k + Z.of_nat (length (concat rs)) < u64_max -> Forall fair rs ->
  exists s' frs hrs, run s (concat rs) = Some s' /\
    feed_run (feeder s) (concat frs) = Some (feeder s') /\ hub_run (market_hub s) (concat hrs) = Some (market_hub s') /\
    Forall FeederSys.fair frs /\ Forall HubLive.fair hrs /\ length frs = length rs /\ length hrs = length rs /\
    (length (concat hrs) <= length (concat rs))%nat.
Proof.
  induction rs as [|es rs IH]; intros k s Hs Hk Hf; cbn [concat] in *.
  { by exists s, [], []. }
  apply Forall_cons in Hf as [Hf0 Hf]. rewrite length_app in Hk.
  destruct (system_run es k s Hs ltac:(lia)) as (s1 & fes & hes & E & Hs1 & Hf1 & Hh1 & If1 & Ih1 & Hl1 & Ht1).
  destruct (IH (k + length es)%nat s1 Hs1 ltac:(lia) Hf) as (s2 & frs & hrs & E2 & Hf2 & Hh2 & Ff & Fh & Lf & Lh & Hl2).
  exists s2, (fes :: frs), (hes :: hrs). cbn [concat length]. rewrite !length_app.
  rewrite (FeederSys.feeder_run_app _ _ _ _ _ _ Hf1), (HubLive.run_app _ _ _ _ _ _ _ _ Hh1).
  split_and!; [|done|done|constructor; [by eapply fair_feeder|done]|constructor; [|done]|lia|lia|lia].
  - clear -E E2. revert s E. induction es as [|e es IH]; intros s E; cbn [run app] in *; [by injection E as ->|].
    destruct (step s e) as [s3|]; [|done]. by apply IH.
  - eapply fair_hub; [done..|]. by apply Ht1, Hf0.
Qed.

Lemma init_sys_ok sg now (d : disk) b dflt files :
  attached w r sg [] -> Spsc.models b [] -> Spsc.capacity b = HubSys.BUS_CAPACITY ->
  sys_ok 0 (init (Store.open_store ms cap dir) sg now d b dflt files).
Proof.
  intros Ha Hb Hc. split; [|by apply FeederSys.feeder_init_inv|by apply HubSys.init_ok|by apply HubSys.init_ctl].
  by split.
Qed.

(** The stored candles are in time order. *)
Lemma later_ts_sorted (l : list Candle) :
  StronglySorted Feeder.later l -> Forall (fun c => ts c <= i64_max) l -> ts_sorted l.
Proof.
  induction 1 as [|x l Hs IH Hx]; intros Hm; [apply ts_sorted_nil|]. apply Forall_cons in Hm as [Hx0 Hm]. specialize (IH Hm).
  intros [|i] [|j] a c Hij Ha Hc; try lia.
  - by simplify_eq/=.
  - simplify_eq/=. rewrite Forall_lookup in Hx. pose proof (Hx _ _ Hc) as [|]; lia.
  - by apply (IH i j); [lia|..].
Qed.

(** ** Claims *)

(** C2. From the generator to the strategy's queries, across the two
    processes and under every schedule of all their threads and signals:
    nothing panics; the ingester has taken the first [k] of the candles the
    feed handler delivered, the others are in the ring; the hub's store holds
    exactly the newest valid ones among the [k], in delivery order, which is
    time order, so a range query of it (the hub's store has no data
    directory) returns exactly the stored candles of its window; and the
    executor has executed the strategy's signals in order, the rest being on
    the bus. *)
Theorem system_end_to_end sg now (d : disk) b dflt files (es : list event) :
  attached w r sg [] -> Spsc.new dflt HubSys.BUS_CAPACITY = Some b -> Z.of_nat (length es) < u64_max ->
  exists s k q, run (init (Store.open_store ms cap dir) sg now d b dflt files) es = Some s /\
    let st := HubSys.store_of (market_hub s) in
    let stream := FeederSys.delivered (feeder s) in
    let kept := lastn cap (filter (fun c => is_valid c = true) (take k stream)) in
    Ingester.popped (HubSys.ing (market_hub s)) = Z.of_nat k /\ (k <= length stream)%nat /\
    attached w r (FeederSys.seg (feeder s)) (drop k stream) /\ StronglySorted Feeder.later stream /\
    (forall n, Store.last_n st (HubSys.symbol cfg) n = Some (lastn n kept)) /\
    (dir = None -> forall from_ts to_ts,
       Store.range st (Ingester.disk_state (HubSys.ing (market_hub s))) (HubSys.symbol cfg) from_ts to_ts =
         Some (filter (in_window from_ts to_ts) kept)) /\
    HubSys.sent (market_hub s) = ((fun x => x.1.1) <$> HubSys.done (market_hub s)) ++ q.
Proof.
  intros Ha Hb Hn. destruct (Spsc.new_models dflt HubSys.BUS_CAPACITY b) as [Hm Hcb]; [by vm_compute|done|].
  destruct (system_run es 0 _ (init_sys_ok sg now d b dflt files Ha Hm Hcb) ltac:(lia)) as (s & _ & _ & Hrun & [Hag Hf Hh _] & _).
  destruct (HubSys.o_ing _ _ _ _ _ _ _ _ Hh) as (n & k & [Hring Hle Hpop _ Hcfg _ Href] & _).
  destruct (HubSys.o_bus _ _ _ _ _ _ _ _ Hh) as (q & _ & _ & Hsent).
  pose proof Hag as [A1 A2 _ _ _ _]. rewrite A2 in *. rewrite <- A1 in Hring.
  pose proof (FeederSys.t_sorted _ (FeederSys.v_stream _ _ _ Hf)) as Hsorted.
  pose proof (FeederSys.t_open _ (FeederSys.v_stream _ _ _ Hf)) as Hopen.
  set (kept := lastn cap (filter (fun c => is_valid c = true) (take k (FeederSys.delivered (feeder s))))).
  assert (Hhot : Store.hot (HubSys.store_of (market_hub s)) (HubSys.symbol cfg) = kept).
  { exact (StoreSpec.fed_hot _ _ _ _ Href). }
  exists s, k, q. split; [done|]. cbv zeta. fold kept. split_and!; try done.
  - intros m. unfold HubSys.store_of. rewrite (StoreSpec.refines_last_n _ _ _ _ Href). unfold HubSys.store_of in Hhot. by rewrite Hhot.
  - intros Hdir from_ts to_ts. rewrite <- Hhot. eapply StoreCold.refines_range; [exact Href| |].
    + unfold HubSys.store_of. pose proof (f_equal LruCache.data_dir Hcfg) as E. simpl in E. by rewrite E.
    + rewrite Hhot. apply ts_sorted_drop, later_ts_sorted; [by apply sorted_filter, sorted_take|].
      apply Forall_filter_sub, Forall_take. eapply Forall_impl; [exact Hopen|]. simpl. tauto.
Qed.

(** C3. Both processes stop.  From any state the system can reach in which
    both were signalled and no join of the hub has timed out, 2100 fair
    rounds of any schedule end both: the feed handler has joined its poller,
    published its final count and unlinked the segment once, every thread of
    the hub has exited and [main] has joined them, whichever process is
    signalled first and whatever is left in the ring or on the bus. *)
Theorem system_shutdown sg now (d : disk) b dflt files (es0 : list event) s (rs : list (list event)) :
  attached w r sg [] -> Spsc.new dflt HubSys.BUS_CAPACITY = Some b ->
  Forall (fun e => e <> HubTimeout) es0 -> run (init (Store.open_store ms cap dir) sg now d b dflt files) es0 = Some s ->
  FeederSys.shutdown (feeder s) = true -> HubSys.shutdown (market_hub s) = true ->
  Forall fair rs -> (2100 <= length rs)%nat -> Z.of_nat (length es0) + Z.of_nat (length (concat rs)) < u64_max ->
  exists s', run s (concat rs) = Some s' /\ HubLive.finished (market_hub s') /\
    FeederSys.g_pc (feeder s') = FeederSys.GDone /\ FeederSys.calls (feeder s') = drop_writer w /\
    Feeder.candles_pushed (FeederSys.gen (feeder s')) = Z.of_nat (length (FeederSys.delivered (feeder s'))).
Proof.
  intros Ha Hb Ht Hrun Hsf Hsh Hf Hl Hk. destruct (Spsc.new_models dflt HubSys.BUS_CAPACITY b) as [Hm Hcb]; [by vm_compute|done|].
  pose proof (init_sys_ok sg now d b dflt files Ha Hm Hcb) as H0.
  destruct (system_run es0 0 _ H0 ltac:(lia)) as (s1 & _ & hes & Hr & Hs & _ & Hhr & _ & _ & Hlen & Hnt).
  rewrite Hrun in Hr. injection Hr as <-. specialize (Hnt Ht). cbn [market_hub init Nat.add] in *.
  destruct (HubLive.joined_run fuel w r cfg ms cap dir Hcap hes 0 _ (market_hub s) (so_hub _ _ H0) (so_ctl _ _ H0)
    ltac:(split; cbn; lia) ltac:(lia) Hnt Hhr) as (Hok & Hc & Hj).
  destruct (system_rounds rs (length es0) s Hs ltac:(lia) Hf) as (s' & frs & hrs & Hr & Hfr & Hhr' & Ff & Fh & Lf & Lh & Hl').
  exists s'. split; [done|].
  assert (Hlb : (HubLive.left (market_hub s) <= 2100)%nat) by (by eapply HubLive.left_bound).
  destruct (HubLive.rounds_finish fuel w r cfg ms cap dir Hcap hrs (0 + length hes)%nat (market_hub s)) as (h' & Hh' & Hfin);
    [by split|lia|done|lia|]. rewrite Hhr' in Hh'. injection Hh' as <-. split; [done|].
  pose proof (so_feeder _ _ Hs) as Hfi.
  destruct (FeederSys.feeder_rounds_finish rate_env r w frs (feeder s) Hfi Hsf Ff) as (f' & Hf' & Hfi' & Hd);
    [pose proof (FeederSys.left_le (feeder s)); lia|]. rewrite Hfr in Hf'. injection Hf' as <-. split; [done|].
  split; [by rewrite (FeederSys.v_calls _ _ _ Hfi'), Hd|].
  rewrite (FeederSys.v_flushed _ _ _ Hfi') by auto. apply (FeederSys.v_stream _ _ _ Hfi').
Qed.

End system.

(** ** An example: three candles, two of them ingested *)

Section example.
#[local] Existing Instance StoreSpec.journal_cold.
#[local] Existing Instance PlainText.plain_text.

Definition push_one (t : Z) : list (@event bool) := [FeedGen 0 t t; FeedGen 0 0 0].

Definition three : list (@event bool) :=
  repeat (HubMain true) 4 ++ push_one 100 ++ [FeedPoll; HubIngest false] ++ push_one 60 ++ [HubIngest false; HubStrat 1; HubStrat 1] ++
  push_one 200 ++ [FeedRaise; HubRaise].

Abbreviation demo := (init demo_writer HubSys.cfg1 (Store.open_store 4 8 None) Ingester.empty_seg 0 ([] : StoreSpec.journal)
  HubSys.bus0 HubSys.sig0 ∅).
Abbreviation run_demo := (run 0 demo_writer demo_reader HubSys.cfg1 10000).

Lemma system_end_to_end_witness :
  exists s k, run_demo demo three = Some s /\ k = 2%nat /\ ts <$> FeederSys.delivered (feeder s) = [100; 101; 200] /\
    Store.range (HubSys.store_of (market_hub s)) ([] : StoreSpec.journal) "BTC" 0 1000 =
      Some (filter (in_window 0 1000) (lastn 8 (filter (fun c => is_valid c = true) (take k (FeederSys.delivered (feeder s)))))).
Proof.
  destruct (system_end_to_end 0 demo_writer demo_reader HubSys.cfg1 10000 4 8 None ltac:(lia) Ingester.empty_seg 0 ([] : StoreSpec.journal)
    HubSys.bus0 HubSys.sig0 ∅ three Ingester.empty_attached ltac:(vm_compute; reflexivity) ltac:(by vm_compute))
    as (s & k & q & Hrun & Hp & _ & _ & _ & _ & Hrange & _).
  assert (E : (fun s => (Ingester.popped (HubSys.ing (market_hub s)), ts <$> FeederSys.delivered (feeder s),
    Ingester.disk_state (HubSys.ing (market_hub s)))) <$> run_demo demo three = Some (2, [100; 101; 200], [])) by (vm_compute; reflexivity).
  rewrite Hrun in E. injection E as E1 E2 E3. exists s, k. split; [exact Hrun|]. split; [lia|]. split; [exact E2|].
  rewrite <- E3. exact (Hrange eq_refl 0 1000).
Defined.

Definition round : list (@event bool) :=
  [HubMain true; HubPoll; HubExec 5 Persist.NoFault true; HubStrat 5; HubIngest true; FeedGen 0 0 0; FeedPoll].

Lemma round_fair : fair round.
Proof.
  split; [by repeat constructor|]. intros kd.
  exists (match kd with KGen => FeedGen 0 0 0 | KFeedPoll => FeedPoll | KIng => HubIngest true | KStrat => HubStrat 5
          | KExec => HubExec 5 Persist.NoFault true | KHubPoll => HubPoll | KMain => HubMain true end).
  by destruct kd; (split; [simpl; auto 10|]).
Qed.

Lemma system_shutdown_witness :
  exists s s', run_demo demo three = Some s /\ run_demo s (concat (repeat round 2100)) = Some s' /\
    HubLive.finished (market_hub s') /\ FeederSys.calls (feeder s') = drop_writer demo_writer.
Proof.
  assert (E : (fun s => (FeederSys.shutdown (feeder s), HubSys.shutdown (market_hub s))) <$> run_demo demo three = Some (true, true))
    by (vm_compute; reflexivity).
  destruct (run_demo demo three) as [s|] eqn:Hrun; [|discriminate E]. injection E as E1 E2.
  destruct (system_shutdown 0 demo_writer demo_reader HubSys.cfg1 10000 4 8 None ltac:(lia) Ingester.empty_seg 0 ([] : StoreSpec.journal)
    HubSys.bus0 HubSys.sig0 ∅ three s (repeat round 2100) Ingester.empty_attached) as (s' & H1 & H2 & _ & H3 & _).
  - vm_compute. reflexivity.
  - by repeat constructor.
  - exact Hrun.
  - exact E1.
  - exact E2.
  - apply List.Forall_forall. intros x Hx. apply repeat_spec in Hx. rewrite Hx. apply round_fair.
  - rewrite repeat_length. lia.
  - vm_compute. reflexivity.
  - exists s, s'. split_and!; [reflexivity|exact H1|exact H2|exact H3].
Defined.
End example.
End System.
