(* ===== verification/UnitCore.v ===== *)
(** * The unit tests of the data structures, replayed on the model

    The deterministic tests of [src/src/candle.rs], [ring_buffer.rs],
    [signal.rs], [hw.rs], [ffi.rs] and of the in-process ring of [shm.rs],
    one definition per test function.  A test is a value of [panics unit]: an
    assertion that fails is a panic.  Each group ends with the theorem that
    all its tests pass on the definitions the other files reason about. *)

From S2P Require Import Prelude Float64 Candle RingBuffer Spsc Text Cold Store Hw Shm Signals Ffi.

#[local] Open Scope Z_scope.

Module CandleTests.

Definition good : Candle := mkCandle 1 (f_of_Z 100) (f_of_Z 101) (f_of_Z 99) (f_lit 1005 10) f_one.

Definition default_candle_is_valid : panics unit := assert (is_valid candle_default).
Definition typical_candle_is_valid : panics unit := assert (is_valid good).

Definition set_open (c : Candle) (x : f64) := mkCandle (ts c) x (high c) (low c) (close c) (volume c).
Definition set_high (c : Candle) (x : f64) := mkCandle (ts c) (open c) x (low c) (close c) (volume c).
Definition set_low (c : Candle) (x : f64) := mkCandle (ts c) (open c) (high c) x (close c) (volume c).
Definition set_close (c : Candle) (x : f64) := mkCandle (ts c) (open c) (high c) (low c) x (volume c).
Definition set_volume (c : Candle) (x : f64) := mkCandle (ts c) (open c) (high c) (low c) (close c) x.
Definition set_ts (c : Candle) (t : Z) := mkCandle t (open c) (high c) (low c) (close c) (volume c).

Definition nan_close_rejected : panics unit := assert (negb (is_valid (set_close good f_nan))).

Definition infinite_volume_rejected : panics unit :=
  assert (negb (is_valid (set_volume good f_inf)));;
  assert (negb (is_valid (set_volume good (f_neg f_inf)))).

Definition negative_ts_rejected : panics unit := assert (negb (is_valid (set_ts good (-1)))).

Definition every_field_checked : panics unit :=
  assert_all (fun set => negb (is_valid (set good f_nan))) [set_open; set_high; set_low; set_close; set_volume].

Theorem candle_tests_pass :
  Forall passes [default_candle_is_valid; typical_candle_is_valid; nan_close_rejected; infinite_volume_rejected;
    negative_ts_rejected; every_field_checked].
Proof. apply suite_passes. by vm_compute. Qed.
End CandleTests.

Module RingBufferTests.
Import RingBuffer.

#[local] Instance push_outcome_eq_dec : EqDecision PushOutcome.
Proof. solve_decision. Defined.

Definition candle (t : Z) (x : f64) : Candle := mkCandle t x x x x f_one.

(** [for i in ts { let _ = rb.push(candle(i, i as f64)) }]. *)
Definition push_each (rb : RingBuffer.t) (tss : list Z) : panics RingBuffer.t :=
  fst <$> push_all rb ((fun i => candle i (f_of_Z i)) <$> tss).

Definition tss (cs : list Candle) : list Z := ts <$> cs.
Definition ts_is (cs : list Candle) (i : nat) (t : Z) : bool := bool_decide (tss cs !! i = Some t).
Definition len_is (cs : list Candle) (n : nat) : bool := (length cs =? n)%nat.

Definition empty_on_creation : panics unit :=
  let rb := new 4 in
  assert (is_empty rb);; assert (len rb =? 0)%nat;;
  oldest ← oldest_ts rb; assert (bool_decide (oldest = None)).

Definition push_and_retrieve_in_order : panics unit :=
  rb ← fst <$> push_all (new 4) [candle 1 (f_of_Z 10); candle 2 (f_of_Z 20); candle 3 (f_of_Z 30)];
  out ← to_vec rb;
  assert (len_is out 3);; assert (ts_is out 0 1);; assert (ts_is out 2 3).

Definition overwrites_oldest_when_full : panics unit :=
  rb ← fst <$> push_all (new 3) [candle 1 (f_of_Z 10); candle 2 (f_of_Z 20); candle 3 (f_of_Z 30); candle 4 (f_of_Z 40)];
  out ← to_vec rb;
  assert (len_is out 3);; assert (ts_is out 0 2);; assert (ts_is out 2 4).

Definition range_query_filters_correctly : panics unit :=
  rb ← fst <$> push_all (new 10) ((fun i => candle i (f_mul (f_of_Z i) (f_of_Z 100))) <$> seqZ 1 10);
  out ← range rb 3 6;
  assert (len_is out 4);; assert (ts_is out 0 3);; assert (ts_is out 3 6).

Definition range_returns_empty_for_no_match : panics unit :=
  rb ← push_each (new 5) [1; 2];
  out ← range rb 10 20; assert (len_is out 0).

Definition oldest_ts_tracks_correctly_after_wrap : panics unit :=
  rb ← push_each (new 3) [1; 2; 3; 4];
  oldest ← oldest_ts rb; assert (bool_decide (oldest = Some 2)).

Definition range_returns_empty_on_inverted_bounds : panics unit :=
  rb ← push_each (new 4) [1; 2];
  out ← range rb 10 5; assert (len_is out 0).

Definition range_inclusive_on_both_ends : panics unit :=
  rb ← push_each (new 8) (seqZ 1 5);
  r ← range rb 2 4;
  assert (len_is r 3);; assert (ts_is r 0 2);; assert (ts_is r 2 4).

Definition range_handles_duplicate_timestamps : panics unit :=
  rb ← fst <$> push_all (new 8) [candle 1 f_one; candle 2 (f_of_Z 2); candle 2 (f_lit 21 10); candle 2 (f_lit 22 10); candle 3 (f_of_Z 3)];
  r ← range rb 2 2;
  assert (len_is r 3);; assert (forallb (fun c => ts c =? 2) r).

Definition range_works_across_ring_wrap : panics unit :=
  rb ← push_each (new 4) (seqZ 1 7);
  r ← range rb 0 i64_max;
  assert (len_is r 4);; assert (ts_is r 0 4);; assert (ts_is r 3 7);;
  mid ← range rb 5 6;
  assert (len_is mid 2);; assert (ts_is mid 0 5);; assert (ts_is mid 1 6).

Definition range_window_outside_returns_empty : panics unit :=
  rb ← push_each (new 4) (seqZ 1 3);
  above ← range rb 100 200; assert (len_is above 0);;
  below ← range rb (-50) (-1); assert (len_is below 0).

Definition last_n_returns_newest_candles_in_order : panics unit :=
  rb ← push_each (new 8) (seqZ 1 5);
  last ← last_n rb 3;
  assert (len_is last 3);; assert (ts_is last 0 3);; assert (ts_is last 2 5).

Definition last_n_caps_at_len : panics unit :=
  rb ← push_each (new 4) [1; 2];
  last ← last_n rb 100;
  assert (len_is last 2);; assert (ts_is last 0 1).

Definition last_n_works_across_ring_wrap : panics unit :=
  rb ← push_each (new 4) (seqZ 1 7);
  last ← last_n rb 2;
  assert (len_is last 2);; assert (ts_is last 0 6);; assert (ts_is last 1 7).

Definition last_n_zero_is_empty : panics unit :=
  rb ← push_each (new 4) [1];
  last ← last_n rb 0; assert (len_is last 0).

Definition push_returns_ok_for_monotonic_inserts : panics unit :=
  '(_, os) ← push_all (new 8) [candle 1 f_one; candle 2 (f_of_Z 2); candle 2 (f_lit 25 10); candle 3 (f_of_Z 3)];
  assert (bool_decide (os = replicate 4 PushOk)).

Definition push_detects_out_of_order : panics unit :=
  rb ← fst <$> push_all (new 8) [candle 10 f_one; candle 20 (f_of_Z 2)];
  '(_, o) ← push rb (candle 15 (f_lit 15 10));
  assert (bool_decide (o = OutOfOrder 20 15)).

Definition out_of_order_candle_is_still_stored : panics unit :=
  rb ← fst <$> push_all (new 8) [candle 10 f_one; candle 20 (f_of_Z 2); candle 15 (f_lit 15 10)];
  assert (len rb =? 3)%nat;;
  last ← last_n rb 3; assert (bool_decide (tss last = [10; 20; 15])).

Theorem ring_buffer_tests_pass :
  Forall passes [empty_on_creation; push_and_retrieve_in_order; overwrites_oldest_when_full; range_query_filters_correctly;
    range_returns_empty_for_no_match; oldest_ts_tracks_correctly_after_wrap; range_returns_empty_on_inverted_bounds;
    range_inclusive_on_both_ends; range_handles_duplicate_timestamps; range_works_across_ring_wrap;
    range_window_outside_returns_empty; last_n_returns_newest_candles_in_order; last_n_caps_at_len;
    last_n_works_across_ring_wrap; last_n_zero_is_empty; push_returns_ok_for_monotonic_inserts;
    push_detects_out_of_order; out_of_order_candle_is_still_stored].
Proof. apply suite_passes. by vm_compute. Qed.
End RingBufferTests.

Module SignalTests.
Import Signals.

(** ["X".repeat(n)] and ["BTC"], as bytes. *)
Definition xs (n : nat) : list Z := replicate n 88.
Definition BTC : list Z := [66; 84; 67].

Definition try_new_accepts_max_length_symbol : panics unit :=
  let s := xs MAX_SIGNAL_SYMBOL_LEN in
  match try_new 0 s Buy f_one f_zero 0 with
  | Ok sig => assert (bool_decide (symbol_str sig = s))
  | Err _ => None
  end.

Definition try_new_rejects_oversize_symbol : panics unit :=
  match try_new 0 (xs (MAX_SIGNAL_SYMBOL_LEN + 1)) Buy f_one f_zero 0 with
  | Err (SymbolTooLong len max) => assert (len =? MAX_SIGNAL_SYMBOL_LEN + 1)%nat;; assert (max =? MAX_SIGNAL_SYMBOL_LEN)%nat
  | _ => None
  end.

Definition is_non_finite (r : result Signal SignalError) : bool := match r with Err (NonFiniteField _ _) => true | _ => false end.

Definition try_new_rejects_nan_qty : panics unit := assert (is_non_finite (try_new 0 BTC Buy f_nan f_zero 0)).
Definition try_new_rejects_inf_price : panics unit := assert (is_non_finite (try_new 0 BTC Sell f_one f_inf 0)).

Definition new_truncates_lossy_but_does_not_panic : panics unit :=
  assert (length (symbol_str (new 0 (xs 40) Buy f_one f_zero 0)) =? MAX_SIGNAL_SYMBOL_LEN)%nat.

Theorem signal_tests_pass :
  Forall passes [try_new_accepts_max_length_symbol; try_new_rejects_oversize_symbol; try_new_rejects_nan_qty;
    try_new_rejects_inf_price; new_truncates_lossy_but_does_not_panic].
Proof. apply suite_passes. by vm_compute. Qed.
End SignalTests.

Module HwTests.
Import Hw.

(** The machine the tests run on. *)
Section on.
Context (m : machine).

Definition detect_returns_plausible_values : panics unit :=
  let hw := detect m in
  assert (1024 * 1024 <=? l3_cache_bytes hw);; assert (l3_cache_bytes hw <=? 512 * 1024 * 1024);;
  assert ((cache_line_bytes hw =? 64) || (cache_line_bytes hw =? 128));;
  assert (1 <=? physical_cores hw);; assert (f_eq (resource_fraction hw) (f_div f_one (f_of_Z 3))).

Definition dedicated_uses_full_resources : panics unit :=
  let hw := dedicated m in
  assert (f_eq (resource_fraction hw) f_one);; assert (usable_l3_bytes hw =? l3_cache_bytes hw);;
  assert (usable_cores hw =? physical_cores hw).

Definition with_fraction_clamps_correctly : panics unit :=
  assert (f_eq (resource_fraction (with_fraction (detect m) f_zero)) (f_lit 5 100));;
  assert (f_eq (resource_fraction (with_fraction (detect m) (f_of_Z 2))) f_one).

Definition shared_uses_one_third_of_l3 : panics unit :=
  let hw := detect m in
  assert (usable_l3_bytes hw =? f_to_u64 (f_div (f_of_Z (l3_cache_bytes hw)) (f_of_Z 3))).

Definition ring_capacity_scales_with_symbols : panics unit :=
  assert (ring_capacity_for (detect m) 100 <? ring_capacity_for (detect m) 10).

Definition ring_capacity_is_clamped : panics unit :=
  assert (ring_capacity_for (detect m) 1 <=? 1000000);; assert (256 <=? ring_capacity_for (detect m) 9999).

Definition dedicated_gives_larger_capacity_than_shared : panics unit :=
  assert (ring_capacity_for (detect m) 10 <=? ring_capacity_for (dedicated m) 10).

Definition candles_per_cache_line_is_nonzero : panics unit := assert (1 <=? candles_per_cache_line (detect m)).

Definition suite : list (panics unit) :=
  [detect_returns_plausible_values; dedicated_uses_full_resources; with_fraction_clamps_correctly; shared_uses_one_third_of_l3;
   ring_capacity_scales_with_symbols; ring_capacity_is_clamped; dedicated_gives_larger_capacity_than_shared;
   candles_per_cache_line_is_nonzero].
End on.

(** On a workstation, on an Apple laptop that reports only an L2, and in a
    container without sysfs. *)
Definition laptop : machine :=
  mkMachine MacOS Aarch64 [] (fun n => if String.eqb n "hw.l2cachesize" then Some 4194304 else if String.eqb n "hw.cachelinesize" then Some 128 else None) 8.
Definition container : machine := mkMachine Linux X86_64 [] (fun _ => None) 4.

Theorem hw_tests_pass : Forall passes (suite workstation ++ suite laptop ++ suite container).
Proof. apply suite_passes. by vm_compute. Qed.

(** Two of them hold on every machine. *)
Theorem hw_clamps_everywhere m : passes (with_fraction_clamps_correctly m) /\ passes (ring_capacity_is_clamped m).
Proof.
  split; [done|]. unfold passes, ring_capacity_is_clamped, ring_capacity_for, assert.
  rewrite (proj2 (Z.leb_le _ _)) by lia. cbn [mbind option_bind]. by rewrite (proj2 (Z.leb_le _ _)) by lia.
Qed.
End HwTests.

Module FfiTests.
Import Ffi.

(** [panic!(...)] as the body. *)
Definition ffi_guard_returns_err_value_on_panic : panics unit := assert (ffi_guard (-1) None =? -1).
Definition ffi_guard_handles_formatted_string_panic_payload : panics unit := assert (ffi_guard 0 None =? 0).
Definition ffi_guard_passes_success_through : panics unit := assert (ffi_guard (-1) (Some 7) =? 7).

Theorem ffi_tests_pass :
  Forall passes [ffi_guard_returns_err_value_on_panic; ffi_guard_handles_formatted_string_panic_payload; ffi_guard_passes_success_through].
Proof. apply suite_passes. by vm_compute. Qed.
End FfiTests.

Module RingTests.
Import ShmSys ShmRing.

Definition candle (t : Z) : Candle := mkCandle t f_one (f_of_Z 2) (f_lit 5 10) (f_lit 15 10) (f_of_Z 10).

(** A run of the ring against the replies the test asserts. *)
Definition push_ok (t : Z) : Spsc.op Candle * Spsc.reply Candle := (Spsc.Push (candle t), Spsc.Pushed true).
Definition push_full (t : Z) : Spsc.op Candle * Spsc.reply Candle := (Spsc.Push (candle t), Spsc.Pushed false).
Definition pop_is (t : Z) : Spsc.op Candle * Spsc.reply Candle := (Spsc.Pop, Spsc.Popped (Some (candle t))).
Definition pop_none : Spsc.op Candle * Spsc.reply Candle := (Spsc.Pop, Spsc.Popped None).

#[local] Instance reply_eq_dec : EqDecision (Spsc.reply Candle).
Proof. solve_decision. Defined.

Definition expect (ring : panics (Spsc.t Candle)) (script : list (Spsc.op Candle * Spsc.reply Candle)) : panics unit :=
  s ← ring; rs ← Spsc.ring_run s script.*1; assert (bool_decide (rs = script.*2)).

Definition ring (cap : Z) : panics (Spsc.t Candle) := Spsc.new candle_default cap.

Definition spsc_try_push_pop_roundtrip : panics unit := expect (ring 4) [push_ok 1; push_ok 2; pop_is 1; pop_is 2; pop_none].
Definition spsc_try_push_returns_false_when_full : panics unit := expect (ring 2) [push_ok 1; push_ok 2; push_full 3].
Definition spsc_wraps_correctly : panics unit :=
  expect (ring 4) ((push_ok <$> seqZ 0 4) ++ (pop_is <$> seqZ 0 4) ++ (push_ok <$> seqZ 4 4) ++ (pop_is <$> seqZ 4 4)).
Definition spsc_non_power_of_two_panics : panics unit := assert (match ring 3 with None => true | Some _ => false end).

(** What [shm_open] answers for a name that is taken or not ([EEXIST] under
    [O_EXCL]); the other calls succeed. *)
Definition EEXIST : Z := 17.
Definition posix (taken excl : bool) : env := mkEnv (if taken && excl then Err EEXIST else Ok 3) None (Ok 4096).

Definition writer_of (r : panics (list syscall * option ShmHeader * result ShmRingWriter IoError)) : panics ShmRingWriter :=
  '(_, _, w) ← r; match w with Ok w => Some w | Err _ => None end.

Definition shm_writer_create_rejects_duplicate_with_already_exists : panics unit :=
  _ ← writer_of (create "/cs_test_excl" 64 (posix false true));
  '(_, _, second) ← create "/cs_test_excl" 64 (posix true true);
  match second with Ok _ => None | Err e => assert (match e with Os errno => errno =? EEXIST | _ => false end) end.

Definition shm_writer_create_force_overrides_existing_segment : panics unit :=
  _ ← writer_of (create "/cs_test_force" 64 (posix false true));
  _ ← writer_of (create_force "/cs_test_force" 64 (posix false false));
  Some tt.

Definition shm_reader_open_rejects_capacity_mismatch : panics unit :=
  '(_, header, _) ← create "/cs_test_cap" 64 (posix false true);
  h ← header;
  r ← open_reader "/cs_test_cap" 128 (posix true false) [(ready h, false)] (hcapacity h);
  '(_, res) ← r;
  match res with Ok _ => None | Err e => assert (match e with InvalidData reader writer => (reader =? 128) && (writer =? 64) | _ => false end) end.

(** The cancel flag is still clear at the first look and set at the next. *)
Definition shm_writer_push_until_returns_false_on_cancel : panics unit :=
  '(_, header, w) ← create "/cs_test_cancel" 4 (posix false true);
  h ← header;
  writer ← match w with Ok w => Some w | Err _ => None end;
  seg ← foldl (fun sg i => sg0 ← sg; '(sg1, ok) ← try_push writer sg0 (candle i); assert ok;; Some sg1)
          (Some (mkSegment h (replicate 4 candle_default))) (seqZ 0 4);
  res ← push_until writer (mkReader 8192 (w_map_size writer) 4) seg (candle 99) [(0%nat, false); (0%nat, true)];
  '(writer', _, pushed) ← res;
  assert (negb pushed);; assert (push_full_events (stats writer') =? 1).

Theorem ring_tests_pass :
  Forall passes [spsc_try_push_pop_roundtrip; spsc_try_push_returns_false_when_full; spsc_wraps_correctly; spsc_non_power_of_two_panics;
    shm_writer_create_rejects_duplicate_with_already_exists; shm_writer_create_force_overrides_existing_segment;
    shm_reader_open_rejects_capacity_mismatch; shm_writer_push_until_returns_false_on_cancel].
Proof. apply suite_passes. by vm_compute. Qed.
End RingTests.
