(* ===== verification/UnitStore.v ===== *)
(** * The unit tests of the store and of cold storage, replayed on the model

    The deterministic tests of [src/src/parquet.rs] and [src/src/store.rs],
    one definition per test function, over the plain codec of [Parquet.v].
    The tests that race threads are not replayed: what they sample is proved
    for every interleaving in [StoreConcSafe.v], [StoreConcLive.v] and
    [StoreConcCount.v]. *)

From S2P Require Import Prelude Float64 Candle RingBuffer Text Cold Parquet Store.

#[local] Open Scope string_scope.
#[local] Open Scope Z_scope.

#[local] Existing Instances Parquet.plain_codec Parquet.parquet_cold.

(** A fresh [tempfile::tempdir()]. *)
Abbreviation file_system := (gmap string (gmap string Parquet.plain_bytes)).
Definition tempdir : string := "/tmp/dir".
Definition fresh : file_system := ∅.

Definition tss (cs : list Candle) : list Z := ts <$> cs.
Definition len_is (cs : list Candle) (n : nat) : bool := (length cs =? n)%nat.
Definition ts_is (cs : list Candle) (i : nat) (t : Z) : bool := bool_decide (tss cs !! i = Some t).

(** [.unwrap()] on a result. *)
Definition unwrap {A E} (r : result A E) : panics A := match r with Ok a => Some a | Err _ => None end.

Module ParquetTests.
Import Parquet.

Definition candle (t : Z) (x : f64) : Candle := mkCandle t x (f_add x f_one) (f_sub x f_one) x (f_of_Z 100).

(** [spill(dir.path(), symbol, &candles).unwrap()]. *)
Definition spilled (d : file_system) (symbol : string) (cs : list Candle) : panics file_system :=
  let '(d', r) := spill NoFault d tempdir symbol cs in _ ← unwrap r; Some d'.

(** [read_file(&path)]. *)
Definition read_at (d : file_system) (path : string * string) : panics (result (list Candle) SpillError) :=
  content ← files d path.1 !! path.2; read_file content.

Definition exists_at (d : file_system) (path : string * string) : bool := bool_decide (is_Some (files d path.1 !! path.2)).

(** [(a..b).map(|i| candle(i * step, close))]. *)
Definition series (a n step : Z) (x : f64) : list Candle := (fun i => candle (i * step) x) <$> seqZ a n.

Definition round_trip_write_read : panics unit :=
  let candles := (fun i => candle (i * 60000) (f_add (f_of_Z 50000) (f_of_Z i))) <$> seqZ 0 10 in
  d ← spilled fresh "BTC/USDT:1m" candles;
  r ← read_at d (cold_file_path tempdir "BTC/USDT:1m" 0 (9 * 60000));
  loaded ← unwrap r;
  assert (len_is loaded 10);;
  a ← loaded !! 0%nat; b ← candles !! 0%nat; assert (ts a =? ts b);;
  a ← loaded !! 9%nat; b ← candles !! 9%nat; assert (f_eq (close a) (close b)).

Definition query_cold_filters_by_time_range : panics unit :=
  d ← spilled fresh "ETH/USDT:1m" (series 0 20 60000 (f_of_Z 100));
  result ← query_cold d tempdir "ETH/USDT:1m" (5 * 60000) (9 * 60000);
  assert (len_is result 5);; assert (ts_is result 0 (5 * 60000));; assert (ts_is result 4 (9 * 60000)).

Definition query_cold_skips_non_overlapping_files : panics unit :=
  d ← spilled fresh "SOL/USDT:1m" (series 0 5 60000 (f_of_Z 100));
  d ← spilled d "SOL/USDT:1m" (series 100 5 60000 (f_of_Z 200));
  result ← query_cold d tempdir "SOL/USDT:1m" (100 * 60000) (104 * 60000);
  assert (len_is result 5);; assert (forallb (fun c => f_eq (close c) (f_of_Z 200)) result).

Definition spill_filename_uses_min_max_ts_not_first_last : panics unit :=
  d ← spilled fresh "OOO/USDT:1m" [candle 100 f_one; candle 500 (f_of_Z 2); candle 200 (f_of_Z 3)];
  result ← query_cold d tempdir "OOO/USDT:1m" 400 600;
  assert (len_is result 1);; assert (ts_is result 0 500);;
  assert (exists_at d (cold_file_path tempdir "OOO/USDT:1m" 100 500)).

Definition spill_does_not_truncate_on_filename_collision : panics unit :=
  d ← spilled fresh "COLL" ((fun t => candle t f_one) <$> [0; 4; 10]);
  d ← spilled d "COLL" ((fun t => candle t (f_of_Z 2)) <$> [0; 6; 10]);
  assert (size (files d (symbol_dir tempdir "COLL")) =? 2)%nat;;
  result ← query_cold d tempdir "COLL" 0 10;
  assert (bool_decide (tss result = [0; 4; 6; 10])).

Definition query_cold_dedups_equal_ts_across_files : panics unit :=
  d ← spilled fresh "DUP" (series 0 3 60000 f_one);
  d ← spilled d "DUP" (series 1 3 60000 f_one);
  result ← query_cold d tempdir "DUP" 0 i64_max;
  assert (bool_decide (tss result = [0; 60000; 120000; 180000])).

Definition collision_suffixed_files_still_prune_by_ts_range : panics unit :=
  let batch := (fun t => candle t f_one) <$> [0; 10] in
  d ← spilled fresh "SFX" batch;
  d ← spilled d "SFX" batch;
  assert (exists_at d (symbol_dir tempdir "SFX", "0_10-1.parquet"));;
  inside ← query_cold d tempdir "SFX" 0 5; assert (len_is inside 1);;
  outside ← query_cold d tempdir "SFX" 100 200; assert (len_is outside 0).

Definition escape_symbol_is_filesystem_safe : panics unit :=
  assert (bool_decide (escape_symbol "BTC/USDT:1m" = "BTC_USDT_1m"));; assert (bool_decide (escape_symbol "ETH-USD" = "ETH-USD")).

(** [write_with_schema]. *)
Definition write_with_schema (d : file_system) (path : string * string) (schema : Schema) (arrays : list Column) : panics file_system :=
  batch ← unwrap (record_batch_try_new schema arrays);
  Some (<[path.1 := <[path.2 := arrow_writer_output schema batch]> (files d path.1)]> d).

Definition v_meta (version : string) : gmap string string := <[SCHEMA_BRAND_KEY := SCHEMA_BRAND_VALUE]> (<[SCHEMA_VERSION_KEY := version]> ∅).
Definition candle_fields : list (string * DataType) :=
  [("ts", Int64); ("open", Float64); ("high", Float64); ("low", Float64); ("close", Float64); ("volume", Float64)].

Definition three_rows : list Column :=
  [Int64Array [0; 1; 2]; Float64Array [f_one; f_of_Z 2; f_of_Z 3]; Float64Array [f_lit 15 10; f_lit 25 10; f_lit 35 10];
   Float64Array [f_lit 5 10; f_lit 15 10; f_lit 25 10]; Float64Array [f_lit 12 10; f_lit 22 10; f_lit 32 10];
   Float64Array [f_of_Z 10; f_of_Z 20; f_of_Z 30]].

Definition one_row : list Column :=
  [Int64Array [0]; Float64Array [f_one]; Float64Array [f_lit 15 10]; Float64Array [f_lit 5 10]; Float64Array [f_lit 12 10]].

Definition btc (name : string) : string * string := (symbol_dir tempdir "BTC", name).

Definition written_files_carry_brand_and_version_metadata : panics unit :=
  d ← spilled fresh "BTC" (series 0 3 1 (f_of_Z 100));
  let path := cold_file_path tempdir "BTC" 0 2 in
  content ← files d path.1 !! path.2;
  '(schema, _) ← unwrap (reader_open content);
  assert (bool_decide (metadata schema !! SCHEMA_BRAND_KEY = Some SCHEMA_BRAND_VALUE));;
  assert (bool_decide (metadata schema !! SCHEMA_VERSION_KEY = Some (Text.print SCHEMA_VERSION))).

Definition unversioned_file_reads_as_v0_for_back_compat : panics unit :=
  d ← write_with_schema fresh (btc "0_2.parquet") (mkSchema candle_fields ∅) three_rows;
  r ← read_at d (btc "0_2.parquet");
  loaded ← unwrap r;
  assert (len_is loaded 3);; assert (ts_is loaded 2 2);;
  c ← loaded !! 2%nat; assert (f_eq (close c) (f_lit 32 10)).

Definition future_version_file_is_rejected_not_panicked : panics unit :=
  d ← write_with_schema fresh (btc "0_2.parquet") (mkSchema candle_fields (v_meta "999")) three_rows;
  r ← read_at d (btc "0_2.parquet");
  match r with
  | Err (IncompatibleVersion found max_supported) => assert (found =? 999);; assert (max_supported =? SCHEMA_VERSION)
  | _ => None
  end.

Definition missing_required_column_returns_structured_error_not_panic : panics unit :=
  d ← write_with_schema fresh (btc "0_0.parquet") (mkSchema (take 5 candle_fields) (v_meta (Text.print SCHEMA_VERSION))) one_row;
  r ← read_at d (btc "0_0.parquet");
  match r with Err (MissingColumn column) => assert (bool_decide (column = "volume")) | _ => None end.

Definition extra_unknown_columns_are_silently_ignored : panics unit :=
  d ← write_with_schema fresh (btc "0_0.parquet")
        (mkSchema (candle_fields ++ [("trades_count", Int64)])%list (v_meta (Text.print SCHEMA_VERSION)))
        (one_row ++ [Float64Array [f_of_Z 10]; Int64Array [42]])%list;
  r ← read_at d (btc "0_0.parquet");
  loaded ← unwrap r;
  assert (len_is loaded 1);;
  c ← loaded !! 0%nat; assert (f_eq (volume c) (f_of_Z 10)).

Definition query_cold_skips_unreadable_files : panics unit :=
  d ← spilled fresh "BTC" (series 0 5 1 f_one);
  d ← write_with_schema d (btc "100_200.parquet") (mkSchema [("ts", Int64)] (v_meta "999")) [Int64Array [100; 200]];
  result ← query_cold d tempdir "BTC" 0 300;
  assert (len_is result 5).

Theorem parquet_tests_pass :
  Forall passes [round_trip_write_read; query_cold_filters_by_time_range; query_cold_skips_non_overlapping_files;
    spill_filename_uses_min_max_ts_not_first_last; spill_does_not_truncate_on_filename_collision; query_cold_dedups_equal_ts_across_files;
    collision_suffixed_files_still_prune_by_ts_range; escape_symbol_is_filesystem_safe; written_files_carry_brand_and_version_metadata;
    unversioned_file_reads_as_v0_for_back_compat; future_version_file_is_rejected_not_panicked;
    missing_required_column_returns_structured_error_not_panic; extra_unknown_columns_are_silently_ignored;
    query_cold_skips_unreadable_files].
Proof. apply suite_passes. by vm_compute. Qed.
End ParquetTests.

Module StoreTests.
Import Store.

Definition candle (t : Z) : Candle := mkCandle t f_one (f_of_Z 2) (f_lit 5 10) (f_lit 15 10) (f_of_Z 100).

(** A store with the file system it writes to; [io] is what the system calls
    of its spills meet. *)
Record handle : Type := mkHandle { st : Store.t; fs : file_system; io : @Parquet.faults Parquet.plain_bytes }.

Definition new_store (max_symbols : Z) : handle := mkHandle (Store.new max_symbols) fresh Parquet.NoFault.
Definition on_disk (max_symbols : Z) : handle := mkHandle (with_data_dir (Store.new max_symbols) tempdir) fresh Parquet.NoFault.

(** A regular file where the data directory should be: [create_dir_all]
    fails with [ENOTDIR]. *)
Definition ENOTDIR : Z := 20.
Definition on_bogus_dir (max_symbols : Z) : handle :=
  mkHandle (with_data_dir (Store.new max_symbols) "/tmp/dir/not-a-dir") fresh (Parquet.MkdirFails ENOTDIR).

Definition append (s : handle) (symbol : string) (c : Candle) : panics handle :=
  '(st', fs') ← Store.append 1 (io s) (st s) (fs s) symbol c; Some (mkHandle st' fs' (io s)).

Definition try_append (s : handle) (symbol : string) (c : Candle) : panics (handle * result unit AppendError) :=
  '(st', fs', r) ← Store.try_append 1 (io s) (st s) (fs s) symbol c; Some (mkHandle st' fs' (io s), r).

(** A loop of appends. *)
Fixpoint append_each (s : handle) (symbol : string) (cs : list Candle) : panics handle :=
  match cs with [] => Some s | c :: cs' => s' ← append s symbol c; append_each s' symbol cs' end.
Fixpoint try_append_each (s : handle) (symbol : string) (cs : list Candle) : panics handle :=
  match cs with [] => Some s | c :: cs' => '(s', r) ← try_append s symbol c; _ ← unwrap r; try_append_each s' symbol cs' end.

Definition range (s : handle) (symbol : string) (a b : Z) : panics (list Candle) := Store.range (st s) (fs s) symbol a b.
Definition range_len (s : handle) (symbol : string) (a b : Z) (n : nat) : panics unit := r ← range s symbol a b; assert (len_is r n).
Definition found (s : handle) (symbol : string) : panics unit := r ← range s symbol 0 9999; assert (negb (len_is r 0)).
Definition count_is (s : handle) (symbol : string) (n : nat) : panics unit := assert (candle_count (st s) symbol =? n)%nat.
Definition version_is (s : handle) (n : Z) : panics unit := assert (version (st s) =? n).
Definition signal (s : handle) : handle := mkHandle (signal_waiters (st s)) (fs s) (io s).

Definition append_and_range_basic : panics unit :=
  s ← append_each (new_store 10) "BTC/USDT:1m" (candle <$> [100; 200; 300]);
  range_len s "BTC/USDT:1m" 100 200 2.

Definition unknown_symbol_returns_empty : panics unit := range_len (new_store 10) "ETH/USDT:1m" 0 9999 0.

Definition lru_evicts_least_recently_used : panics unit :=
  s ← append (new_store 2) "A" (candle 1);
  s ← append s "B" (candle 2);
  s ← append s "A" (candle 3);
  s ← append s "C" (candle 4);
  assert (symbol_count (st s) =? 2)%nat;;
  range_len s "B" 0 9999 0;; found s "A";; found s "C".

Definition multiple_symbols_independent : panics unit :=
  s ← append (new_store 10) "BTC/USDT:1m" (candle 1);
  s ← append s "ETH/USDT:1m" (candle 2);
  range_len s "BTC/USDT:1m" 0 9999 1;; range_len s "ETH/USDT:1m" 0 9999 1.

Definition evict_spills_to_parquet_and_range_merges : panics unit :=
  s ← append_each (on_disk 1) "BTC/USDT:1m" ((fun i => candle (i * 60000)) <$> seqZ 0 5);
  s ← append s "ETH/USDT:1m" (candle 999999);
  range_len s "BTC/USDT:1m" 0 (4 * 60000) 5.

Definition version_bumps_on_every_append : panics unit :=
  let s := new_store 10 in
  version_is s 0;;
  s ← append s "BTC" (candle 1);
  version_is s 1;;
  s ← append s "BTC" (candle 2);
  s ← append s "ETH" (candle 3);
  version_is s 3.

(** The consumer spins on the old version until the signal arrives. *)
Definition signal_waiters_wakes_wait_for_change_without_appending : panics unit :=
  let s := new_store 10 in
  let v0 := version (st s) in
  let symbols_before := symbol_count (st s) in
  let s' := signal s in
  v1 ← wait_for_change [version (st s); version (st s); version (st s')] v0;
  assert (v0 <? v1);; assert (symbol_count (st s') =? symbols_before)%nat.

Definition wait_for_change_returns_when_version_advances : panics unit :=
  s ← append (new_store 10) "BTC" (candle 1);
  let v0 := version (st s) in
  s' ← append s "BTC" (candle 2);
  v1 ← wait_for_change [version (st s); version (st s')] v0;
  assert (v0 <? v1).

Definition range_merges_hot_and_cold : panics unit :=
  s ← append_each (on_disk 1) "BTC/USDT:1m" (candle <$> seqZ 0 5);
  s ← append s "ETH/USDT:1m" (candle 0);
  s ← append_each s "BTC/USDT:1m" (candle <$> seqZ 5 5);
  result ← range s "BTC/USDT:1m" 0 9;
  assert (len_is result 10);; assert (ts_is result 0 0);; assert (ts_is result 9 9).

Definition with_close (c : Candle) (x : f64) : Candle := mkCandle (ts c) (open c) (high c) (low c) x (volume c).

Definition merge_prefers_hot_over_cold_on_ts_collision : panics unit :=
  let s0 := on_disk 4 in
  d ← ParquetTests.spilled (fs s0) "BTC" [with_close (candle 100) f_one];
  s ← append (mkHandle (st s0) d (io s0)) "BTC" (with_close (candle 100) (f_of_Z 2));
  merged ← range s "BTC" 0 1000;
  assert (len_is merged 1);;
  c ← merged !! 0%nat; assert (f_eq (close c) (f_of_Z 2)).

Definition signal_waiters_does_not_inflate_appends_total : panics unit :=
  s ← append (new_store 4) "BTC" (candle 1);
  let s := signal (signal s) in
  version_is s 3;; assert (s_appends_total (snapshot (st s)) =? 1).

Definition try_append_returns_err_when_spill_fails_and_preserves_existing_data : panics unit :=
  s ← try_append_each (on_bogus_dir 1) "BTC" (candle <$> seqZ 0 3);
  count_is s "BTC" 3;;
  '(s, r) ← try_append s "ETH" (candle 999);
  match r with
  | Err (EvictionSpillFailed evicted_symbol candles_lost _) =>
      assert (bool_decide (evicted_symbol = "BTC"));; assert (candles_lost =? 3)%nat
  | _ => None
  end;;
  count_is s "BTC" 3;; count_is s "ETH" 0;; assert (symbol_count (st s) =? 1)%nat;;
  let snap := snapshot (st s) in
  assert (1 <=? s_parquet_spill_errors_total snap);; assert (s_appends_rejected_total snap =? 0).

Definition append_logs_and_increments_rejected_on_spill_failure : panics unit :=
  s ← append_each (on_bogus_dir 1) "BTC" (candle <$> [1; 2]);
  s ← append s "ETH" (candle 3);
  count_is s "BTC" 2;; count_is s "ETH" 0;;
  let snap := snapshot (st s) in
  assert (s_appends_rejected_total snap =? 1);; assert (1 <=? s_parquet_spill_errors_total snap).

Definition try_append_succeeds_when_spill_succeeds : panics unit :=
  s ← try_append_each (on_disk 1) "BTC" ((fun i => candle (i * 1000000000)) <$> seqZ 0 3);
  s ← try_append_each s "ETH" [candle 999999];
  count_is s "BTC" 0;; count_is s "ETH" 1;;
  let snap := snapshot (st s) in
  assert (s_evictions_total snap =? 1);; assert (s_parquet_spill_errors_total snap =? 0);;
  assert (s_appends_rejected_total snap =? 0);; assert (0 <? s_parquet_spill_bytes_total snap);;
  range_len s "BTC" 0 (3 * 1000000000) 3.

Definition bad_candle (field : nat) : Candle :=
  let c := candle 1 in
  match field with
  | 0%nat => mkCandle (-1) (open c) (high c) (low c) (close c) (volume c)
  | 1%nat => mkCandle (ts c) f_nan (high c) (low c) (close c) (volume c)
  | 2%nat => mkCandle (ts c) (open c) f_inf (low c) (close c) (volume c)
  | 3%nat => mkCandle (ts c) (open c) (high c) (f_neg f_inf) (close c) (volume c)
  | 4%nat => mkCandle (ts c) (open c) (high c) (low c) f_nan (volume c)
  | _ => mkCandle (ts c) (open c) (high c) (low c) (close c) f_nan
  end.

Definition try_append_rejects_nan_field : panics unit :=
  s ← foldl (fun s f => s0 ← s;
               '(s1, r) ← try_append s0 "BTC" (bad_candle f);
               match r with Err (InvalidCandle symbol) => assert (bool_decide (symbol = "BTC")) | _ => None end;; Some s1)
        (Some (new_store 4)) (seq 0 6);
  assert (symbol_count (st s) =? 0)%nat;;
  let snap := snapshot (st s) in
  assert (s_invalid_candles_total snap =? 6);; assert (s_appends_total snap =? 0).

Definition append_rejects_invalid_candle_without_polluting_existing_data : panics unit :=
  s ← append_each (new_store 4) "BTC" [candle 1; candle 2; bad_candle 4; bad_candle 5];
  count_is s "BTC" 2;;
  let snap := snapshot (st s) in
  assert (s_invalid_candles_total snap =? 2);; assert (s_appends_total snap =? 2).

Definition out_of_order_candle_counted_but_accepted : panics unit :=
  s ← append_each (new_store 4) "BTC" (candle <$> [10; 20; 15]);
  count_is s "BTC" 3;;
  let snap := snapshot (st s) in
  assert (s_out_of_order_total snap =? 1);; assert (s_appends_total snap =? 3).

Definition snapshot_reflects_initial_state_correctly : panics unit :=
  let snap := snapshot (with_capacity 8 1024) in
  assert (s_appends_total snap =? 0);; assert (s_symbol_count snap =? 0)%nat;; assert (s_max_symbols snap =? 8);;
  assert (s_ring_capacity snap =? 1024)%nat;; assert (s_evictions_total snap =? 0);;
  assert (s_parquet_spill_bytes_total snap =? 0);; assert (s_parquet_spill_errors_total snap =? 0);;
  assert (s_appends_rejected_total snap =? 0);; assert (s_invalid_candles_total snap =? 0);; assert (s_out_of_order_total snap =? 0).

Definition snapshot_monotonically_tracks_appends_and_symbol_count : panics unit :=
  s ← append_each (new_store 10) "BTC" (candle <$> seqZ 1 5);
  s ← append_each s "ETH" (candle <$> seqZ 1 3);
  let snap := snapshot (st s) in
  assert (s_appends_total snap =? 8);; assert (s_symbol_count snap =? 2)%nat;; assert (s_evictions_total snap =? 0).

Definition snapshot_tracks_eviction_after_capacity_pressure : panics unit :=
  s ← append_each (on_disk 1) "BTC" (candle <$> [1; 2]);
  s ← append s "ETH" (candle 3);
  let snap := snapshot (st s) in
  assert (s_evictions_total snap =? 1);; assert (0 <? s_parquet_spill_bytes_total snap);;
  assert (s_parquet_spill_errors_total snap =? 0);; assert (s_appends_total snap =? 3).

Definition snapshot_captures_invalid_and_out_of_order_simultaneously : panics unit :=
  s ← append_each (new_store 4) "BTC" [candle 10; candle 20; with_close (candle 30) f_nan; candle 15];
  let snap := snapshot (st s) in
  assert (s_invalid_candles_total snap =? 1);; assert (s_out_of_order_total snap =? 1);;
  assert (s_appends_total snap =? 3);; assert (s_symbol_count snap =? 1)%nat.

Theorem store_tests_pass :
  Forall passes [append_and_range_basic; unknown_symbol_returns_empty; lru_evicts_least_recently_used; multiple_symbols_independent;
    evict_spills_to_parquet_and_range_merges; version_bumps_on_every_append;
    signal_waiters_wakes_wait_for_change_without_appending; wait_for_change_returns_when_version_advances;
    range_merges_hot_and_cold; merge_prefers_hot_over_cold_on_ts_collision; signal_waiters_does_not_inflate_appends_total;
    try_append_returns_err_when_spill_fails_and_preserves_existing_data; append_logs_and_increments_rejected_on_spill_failure;
    try_append_succeeds_when_spill_succeeds; try_append_rejects_nan_field;
    append_rejects_invalid_candle_without_polluting_existing_data; out_of_order_candle_counted_but_accepted;
    snapshot_reflects_initial_state_correctly; snapshot_monotonically_tracks_appends_and_symbol_count;
    snapshot_tracks_eviction_after_capacity_pressure; snapshot_captures_invalid_and_out_of_order_simultaneously].
Proof. apply suite_passes. by vm_compute. Qed.
End StoreTests.
