(* ===== verification/UnitTrading.v ===== *)
(** * The unit tests of matching and of the hub, replayed on the model

    The deterministic tests of [src/src/matching/order.rs], [book.rs],
    [portfolio.rs], [paper.rs] and of [src/src/bin/market_hub.rs], one
    definition per test function, all of them over exact [f64] arithmetic.
    The comparison of the rolling average with a recomputed one is replayed
    for its first 100 closes. *)

From S2P Require Import Prelude Float64 Candle Text Orders Book Portfolio Paper Signals Sma Hub.

#[local] Open Scope string_scope.
#[local] Open Scope Z_scope.

(** [assert_eq!] on [f64] and [Option<f64>]. *)
Definition feq (x y : f64) : panics unit := assert (f_eq x y).
Definition feq_opt (x y : option f64) : panics unit :=
  assert (match x, y with Some a, Some b => f_eq a b | None, None => true | _, _ => false end).

(** A whole number as an [f64] literal. *)
Definition z (n : Z) : f64 := f_of_Z n.

Module OrderTests.
Import Orders.

Definition is_filled_tolerates_scale_proportional_dust : panics unit :=
  assert (is_filled (set_remaining (market 1 "BTC" Buy (z 1000000) 0) (f_lit 1 10000000))).

Definition is_filled_rejects_real_remainder : panics unit :=
  assert (negb (is_filled (set_remaining (market 1 "BTC" Buy (z 1000000) 0) f_one))).

Theorem order_tests_pass : Forall passes [is_filled_tolerates_scale_proportional_dust; is_filled_rejects_real_remainder].
Proof. apply suite_passes. by vm_compute. Qed.
End OrderTests.

Module BookTests.
Import Orders Book.

Definition buy_limit (id : Z) (price qty : f64) : Order := limit id "BTC" Buy price qty 0.
Definition sell_limit (id : Z) (price qty : f64) : Order := limit id "BTC" Sell price qty 0.
Definition buy_market (id : Z) (qty : f64) : Order := market id "BTC" Buy qty 0.

(** Submissions at time 0: the book, and the events of the last one. *)
Fixpoint submits (b : OrderBook) (last : list TradeEvent) (os : list Order) : panics (OrderBook * list TradeEvent) :=
  match os with
  | [] => Some (b, last)
  | o :: os' => '(b', ev) ← submit b o 0; submits b' ev os'
  end.
Definition on_book (os : list Order) : panics (OrderBook * list TradeEvent) := submits (new "BTC") [] os.

Definition fills (ev : list TradeEvent) : nat := length (List.filter is_fill ev).
Definition cancels (ev : list TradeEvent) : nat := length (List.filter (fun e => negb (is_fill e)) ev).
Definition no_bid (b : OrderBook) : panics unit := feq_opt (best_bid b) None.
Definition no_ask (b : OrderBook) : panics unit := feq_opt (best_ask b) None.

Definition limit_buy_rests_on_empty_book : panics unit :=
  '(book, events) ← on_book [buy_limit 1 (z 50000) f_one];
  assert (length events =? 0)%nat;; feq_opt (best_bid book) (Some (z 50000)).

Definition limit_sell_matches_existing_bid : panics unit :=
  '(book, events) ← on_book [buy_limit 1 (z 50000) f_one; sell_limit 2 (z 50000) f_one];
  assert (fills events =? 2)%nat;; no_bid book.

Definition partial_fill_remainder_rests_on_book : panics unit :=
  '(book, events) ← on_book [sell_limit 1 (z 50000) (f_lit 5 10); buy_limit 2 (z 50000) f_one];
  assert (fills events =? 2)%nat;; feq_opt (best_bid book) (Some (z 50000));; no_ask book.

Definition market_buy_sweeps_asks : panics unit :=
  '(book, events) ← on_book [sell_limit 1 (z 49900) (f_lit 5 10); sell_limit 2 (z 50000) (f_lit 5 10); buy_market 3 f_one];
  assert (fills events =? 4)%nat;; no_ask book.

Definition ioc_cancels_remainder : panics unit :=
  '(_, events) ← on_book [sell_limit 1 (z 50000) (f_lit 3 10); ioc 2 "BTC" Buy (z 50000) f_one 0];
  assert (cancels events =? 1)%nat.

Definition fok_cancels_if_insufficient_liquidity : panics unit :=
  '(book, events) ← on_book [sell_limit 1 (z 50000) (f_lit 3 10); fok 2 "BTC" Buy (z 50000) f_one 0];
  assert (length events =? 1)%nat;;
  e ← events !! 0%nat; assert (negb (is_fill e));; feq_opt (best_ask book) (Some (z 50000)).

Definition fok_fully_fills_when_sufficient_liquidity : panics unit :=
  '(_, events) ← on_book [sell_limit 1 (z 50000) (z 2); fok 2 "BTC" Buy (z 50000) f_one 0];
  assert (fills events =? 2)%nat.

Definition price_time_priority_fifo_at_same_price : panics unit :=
  '(_, events) ← on_book [sell_limit 1 (z 50000) (f_lit 5 10); sell_limit 2 (z 50000) (f_lit 5 10); buy_market 3 (f_lit 5 10)];
  assert (existsb (fun e => match e with FillEvent f => order_id f =? 1 | Cancel _ _ => false end) events).

(** Three asks of a third of [qty] each. *)
Definition thirds (qty : Z) : list Order := (fun i => sell_limit i (z 50000) (f_div (z qty) (z 3))) <$> seqZ 1 3.

Definition fok_fills_when_liquidity_is_decimal_sufficient (qty : Z) : panics unit :=
  '(book, events) ← on_book (thirds qty ++ [fok 4 "BTC" Buy (z 50000) (z qty) 0])%list;
  assert_all is_fill events;; no_ask book.
Definition fok_fills_when_liquidity_is_decimal_sufficient_at_1e3 : panics unit := fok_fills_when_liquidity_is_decimal_sufficient 1000.
Definition fok_fills_when_liquidity_is_decimal_sufficient_at_1e6 : panics unit := fok_fills_when_liquidity_is_decimal_sufficient 1000000.

Definition market_sweep_with_float_dust_is_not_cancelled : panics unit :=
  '(book, events) ← on_book (thirds 1000 ++ [buy_market 4 (z 1000)])%list;
  assert_all is_fill events;; no_ask book.

Definition fill_sequence_leaving_dust_marks_resting_order_filled : panics unit :=
  '(book, _) ← on_book (buy_limit 1 (z 50000) (z 1000) :: ((fun i => sell_limit i (z 50000) (f_div (z 1000) (z 3))) <$> seqZ 2 3));
  no_bid book;; no_ask book.

Definition is_ok {A E} (r : result A E) : bool := match r with Ok _ => true | Err _ => false end.
Definition not_finite (r : result Z BookError) : bool := match r with Err PriceNotFinite => true | _ => false end.
Definition non_positive (r : result Z BookError) : bool := match r with Err (PriceNonPositive _) => true | _ => false end.

Definition try_price_key_accepts_typical_crypto_prices : panics unit :=
  assert_all (fun p => is_ok (try_price_key p)) [z 50000; f_lit 1 100000000; MAX_PRICE].
Definition try_price_key_rejects_nan : panics unit := assert (not_finite (try_price_key f_nan)).
Definition try_price_key_rejects_infinity : panics unit :=
  assert (not_finite (try_price_key f_inf));; assert (not_finite (try_price_key (f_neg f_inf))).
Definition try_price_key_rejects_zero_or_negative : panics unit :=
  assert (non_positive (try_price_key f_zero));; assert (non_positive (try_price_key (f_neg f_one))).
Definition try_price_key_rejects_overflow : panics unit :=
  assert (match try_price_key (z 1000000000000000) with Err (PriceOutOfRange _) => true | _ => false end).

Definition try_submit_returns_err_for_nan_price : panics unit :=
  '(_, r) ← try_submit (new "BTC") (limit 1 "BTC" Buy f_nan f_one 0) 0;
  assert (match r with Err PriceNotFinite => true | _ => false end).

Definition try_submit_returns_err_for_zero_qty : panics unit :=
  '(_, r) ← try_submit (new "BTC") (limit 1 "BTC" Buy (z 100) f_zero 0) 0;
  assert (match r with Err (QuantityInvalid _) => true | _ => false end).

Definition submit_emits_invalid_order_cancel_instead_of_panic : panics unit :=
  '(_, events) ← submit (new "BTC") (limit 1 "BTC" Buy f_nan f_one 0) 0;
  assert (length events =? 1)%nat;;
  e ← events !! 0%nat;
  match e with Cancel order_id InvalidOrder => assert (order_id =? 1) | _ => None end.

Theorem book_tests_pass :
  Forall passes [limit_buy_rests_on_empty_book; limit_sell_matches_existing_bid; partial_fill_remainder_rests_on_book;
    market_buy_sweeps_asks; ioc_cancels_remainder; fok_cancels_if_insufficient_liquidity; fok_fully_fills_when_sufficient_liquidity;
    price_time_priority_fifo_at_same_price; fok_fills_when_liquidity_is_decimal_sufficient_at_1e3;
    fok_fills_when_liquidity_is_decimal_sufficient_at_1e6; market_sweep_with_float_dust_is_not_cancelled;
    fill_sequence_leaving_dust_marks_resting_order_filled; try_price_key_accepts_typical_crypto_prices; try_price_key_rejects_nan;
    try_price_key_rejects_infinity; try_price_key_rejects_zero_or_negative; try_price_key_rejects_overflow;
    try_submit_returns_err_for_nan_price; try_submit_returns_err_for_zero_qty; submit_emits_invalid_order_cancel_instead_of_panic].
Proof. apply suite_passes. by vm_compute. Qed.
End BookTests.

Module PortfolioTests.
Import Orders Portfolio.

Definition CASH : f64 := z 10000.
Definition fill (side : Side) (price qty : f64) : Fill := mkFill 1 "BTC" side price qty 0.
Definition portfolio_after (fills : list Fill) : Portfolio.t := apply_all (new CASH) fills.

(** The fields the tests look at. *)
Definition holds (pf : Portfolio.t) (pos cost : f64) : panics unit := feq (position pf "BTC") pos;; feq (avg_cost pf "BTC") cost.

Definition sell_while_flat_opens_short_without_fabricated_pnl : panics unit :=
  let pf := portfolio_after [fill Sell (z 100) (z 2)] in
  holds pf (z (-2)) (z 100);; feq (realized_pnl pf) f_zero;; feq (cash pf) (f_add CASH (z 200)).

Definition adding_to_short_blends_average_cost : panics unit :=
  let pf := portfolio_after [fill Sell (z 100) f_one; fill Sell (z 110) f_one] in
  holds pf (z (-2)) (z 105);; feq (realized_pnl pf) f_zero.

Definition buy_to_cover_realizes_entry_minus_exit : panics unit :=
  let pf := portfolio_after [fill Sell (z 100) (z 2); fill Buy (z 90) (z 2)] in
  feq (realized_pnl pf) (z 20);; holds pf f_zero f_zero;; feq (cash pf) (f_add CASH (z 20)).

Definition oversell_flips_long_to_short_realizing_only_covered_part : panics unit :=
  let pf := portfolio_after [fill Buy (z 100) f_one; fill Sell (z 110) (z 3)] in
  feq (realized_pnl pf) (z 10);; holds pf (z (-2)) (z 110);; feq (cash pf) (f_add (f_sub CASH (z 100)) (z 330)).

Definition overbuy_flips_short_to_long_realizing_only_covered_part : panics unit :=
  let pf := portfolio_after [fill Sell (z 100) f_one; fill Buy (z 90) (z 3)] in
  feq (realized_pnl pf) (z 10);; holds pf (z 2) (z 90);; feq (cash pf) (f_sub (f_add CASH (z 100)) (z 270)).

Definition round_trip_long_realizes_pnl_and_cash : panics unit :=
  let pf := portfolio_after [fill Buy (z 100) f_one; fill Sell (z 110) f_one] in
  feq (realized_pnl pf) (z 10);; holds pf f_zero f_zero;; feq (cash pf) (f_add CASH (z 10)).

Definition round_trip_short_realizes_pnl_and_cash : panics unit :=
  let pf := portfolio_after [fill Sell (z 110) f_one; fill Buy (z 100) f_one] in
  feq (realized_pnl pf) (z 10);; holds pf f_zero f_zero;; feq (cash pf) (f_add CASH (z 10)).

Definition unrealized_and_equity_correct_while_short : panics unit :=
  let pf := portfolio_after [fill Sell (z 100) f_one] in
  feq (unrealized_pnl pf "BTC" (z 90)) (z 10);; feq (unrealized_pnl pf "BTC" (z 110)) (z (-10));;
  let prices := [("BTC", z 90)] in
  feq (total_pnl pf prices) (z 10);;
  feq (f_add (cash pf) (f_mul (position pf "BTC") (z 90))) (f_add CASH (total_pnl pf prices)).

Theorem portfolio_tests_pass :
  Forall passes [sell_while_flat_opens_short_without_fabricated_pnl; adding_to_short_blends_average_cost;
    buy_to_cover_realizes_entry_minus_exit; oversell_flips_long_to_short_realizing_only_covered_part;
    overbuy_flips_short_to_long_realizing_only_covered_part; round_trip_long_realizes_pnl_and_cash;
    round_trip_short_realizes_pnl_and_cash; unrealized_and_equity_correct_while_short].
Proof. apply suite_passes. by vm_compute. Qed.
End PortfolioTests.

Module PaperTests.
Import Orders Paper.

Definition candle (open high low close : f64) : Candle := mkCandle 1000 open high low close (z 100).
Definition first_candle : Candle := candle (z 50000) (z 51000) (z 49000) (z 50500).
Definition engine : Paper.t := new (z 100000).

(** One order, one candle. *)
Definition after (o : Order) : Paper.t * list TradeEvent := on_candle (submit engine o).1 "BTC" first_candle.

(** [if let TradeEvent::Fill(f) = &events[0] { assert_eq!(f.price, p) }]. *)
Definition first_price (events : list TradeEvent) (p : f64) : panics unit :=
  e ← events !! 0%nat; match e with FillEvent f => feq (f_price f) p | Cancel _ _ => Some tt end.

Definition market_buy_fills_at_open : panics unit :=
  let '(_, events) := after (market 0 "BTC" Buy f_one 0) in
  assert (length events =? 1)%nat;; first_price events (z 50000).

Definition limit_buy_fills_when_low_touches_price : panics unit :=
  let '(_, events) := after (limit 0 "BTC" Buy (z 49500) f_one 0) in
  assert (length events =? 1)%nat;; first_price events (z 49500).

Definition limit_buy_no_fill_when_low_above_price : panics unit :=
  let '(e, events) := after (limit 0 "BTC" Buy (z 48000) f_one 0) in
  assert (length events =? 0)%nat;; assert (pending_count e =? 1)%nat.

Definition ioc_cancels_if_not_filled : panics unit :=
  let '(e, events) := after (ioc 0 "BTC" Buy (z 48000) f_one 0) in
  assert (length events =? 1)%nat;;
  ev ← events !! 0%nat; assert (negb (is_fill ev));; assert (pending_count e =? 0)%nat.

Definition portfolio_tracks_pnl : panics unit :=
  let '(e, _) := after (market 0 "BTC" Buy f_one 0) in
  feq (Portfolio.position (portfolio e) "BTC") f_one;;
  let '(e, _) := on_candle (submit e (market 0 "BTC" Sell f_one 0)).1 "BTC" (candle (z 51000) (z 52000) (z 50500) (z 51500)) in
  feq (Portfolio.realized_pnl (portfolio e)) (z 1000).

Definition assert_no_trace (e : Paper.t) : panics unit :=
  assert (pending_count e =? 0)%nat;;
  let '(e', events) := on_candle e "BTC" first_candle in
  assert (length events =? 0)%nat;; feq (Portfolio.cash (portfolio e')) (z 100000);;
  assert (length (Portfolio.trades (portfolio e')) =? 0)%nat.

Definition submit_rejects_nan_qty : panics unit := assert_no_trace (submit engine (market 0 "BTC" Buy f_nan 0)).1.
Definition submit_rejects_infinite_limit_price : panics unit := assert_no_trace (submit engine (limit 0 "BTC" Buy f_inf f_one 0)).1.
Definition submit_rejects_non_positive_qty : panics unit :=
  assert_no_trace (submit (submit engine (market 0 "BTC" Buy f_zero 0)).1 (market 0 "BTC" Sell (z (-1)) 0)).1.

Definition try_submit_returns_precise_book_error : panics unit :=
  let '(e, r) := try_submit engine (market 0 "BTC" Buy f_nan 0) in
  assert (match r with Err (Book.QuantityInvalid _) => true | _ => false end);;
  let '(e, r) := try_submit e (limit 0 "BTC" Buy f_inf f_one 0) in
  assert (match r with Err Book.PriceNotFinite => true | _ => false end);;
  assert (pending_count e =? 0)%nat.

Theorem paper_tests_pass :
  Forall passes [market_buy_fills_at_open; limit_buy_fills_when_low_touches_price; limit_buy_no_fill_when_low_above_price;
    ioc_cancels_if_not_filled; portfolio_tracks_pnl; submit_rejects_nan_qty; submit_rejects_infinite_limit_price;
    submit_rejects_non_positive_qty; try_submit_returns_precise_book_error].
Proof. apply suite_passes. by vm_compute. Qed.
End PaperTests.

Module HubTests.
Import Risk.

(** [Signal::try_new(0, BTC, side, qty, 0.0, 0).unwrap()]. *)
Definition sig (qty : f64) (side : Signals.Side) : panics Signals.Signal :=
  match Signals.try_new 0 [66; 84; 67] side qty f_zero 0 with Ok s => Some s | Err _ => None end.

Definition default_gates : RiskGates := mkGates (z 10) (z 5) 100.
Definition rejected (r : RateLimiter * result unit RiskRejection) (e : RiskRejection) : bool :=
  match r.2, e with
  | Err InvalidQty, InvalidQty | Err PositionLimitExceeded, PositionLimitExceeded | Err RateLimitExceeded, RateLimitExceeded => true
  | _, _ => false
  end.
Definition accepted (r : RateLimiter * result unit RiskRejection) : bool := match r.2 with Ok _ => true | Err _ => false end.

(** The check on a fresh limiter, within its first second. *)
Definition check_fresh (s : Signals.Signal) (position delta : f64) : RateLimiter * result unit RiskRejection :=
  check_risk (Signals.s_qty s) position delta default_gates (rate_new 0 (max_signals_per_sec default_gates)) 1.

Definition risk_accepts_within_limits : panics unit := s ← sig f_one Signals.Buy; assert (accepted (check_fresh s f_zero f_one)).

(** The test overwrites the quantity of a valid signal. *)
Definition risk_rejects_zero_qty : panics unit :=
  s ← sig f_one Signals.Buy;
  let s := Signals.mkSignal (Signals.s_ts s) (Signals.s_symbol s) (Signals.s_side s) f_zero (Signals.s_price s) (Signals.s_strategy s) in
  assert (rejected (check_fresh s f_zero f_zero) InvalidQty).

Definition risk_rejects_qty_above_max : panics unit :=
  s ← sig (z 10) Signals.Buy; assert (rejected (check_fresh s f_zero (z 10)) InvalidQty).

Definition risk_rejects_position_limit : panics unit :=
  s ← sig (z 5) Signals.Buy; assert (rejected (check_fresh s (z 6) (z 5)) PositionLimitExceeded).

Definition risk_short_side_also_bounded : panics unit :=
  s ← sig (z 5) Signals.Sell; assert (rejected (check_fresh s (z (-8)) (z (-5))) PositionLimitExceeded).

Definition risk_rate_limit_kicks_in_after_max_per_second : panics unit :=
  let g := mkGates (z 1000) (z 1000) 3 in
  s ← sig f_one Signals.Buy;
  let check rate := check_risk (Signals.s_qty s) f_zero f_one g rate 1 in
  let r1 := check (rate_new 0 (max_signals_per_sec g)) in
  let r2 := check r1.1 in
  let r3 := check r2.1 in
  assert (accepted r1);; assert (accepted r2);; assert (accepted r3);; assert (rejected (check r3.1) RateLimitExceeded).

Definition rolling_sma_warms_up_after_exactly_period_closes : panics unit :=
  s ← Sma.push (Sma.new 3) f_one; feq_opt (Sma.value s) None;;
  s ← Sma.push s (z 2); feq_opt (Sma.value s) None;;
  s ← Sma.push s (z 3); feq_opt (Sma.value s) (Some (z 2));;
  s ← Sma.push s (z 4); feq_opt (Sma.value s) (Some (z 3)).

Definition rolling_sma_zero_period_never_panics_or_produces_a_value : panics unit :=
  s ← Sma.push (Sma.new 0) f_one; feq_opt (Sma.value s) None.

(** The generator of [rolling_sma_matches_naive_recompute] and its loop. *)
Definition lcg (seed : Z) : Z := u64_wrapping_add (u64_wrapping_mul seed 6364136223846793005) 1442695040888963407.
Definition close_of (seed : Z) : f64 := f_add (z 50000) (f_div (z (Z.shiftr seed 33)) (z 10000)).

Definition agree (period : nat) (s : Sma.t) (closes : list f64) : bool :=
  let naive := if (period <=? length closes)%nat then Some (f_div (f_sum (lastn period closes)) (z (Z.of_nat period))) else None in
  match Sma.value s, naive with
  | Some a, Some b => f_lt (f_abs (f_sub a b)) (f_lit 1 1000000)
  | None, None => true
  | _, _ => false
  end.

Fixpoint matches_naive (rounds : nat) (period : nat) (seed : Z) (s : Sma.t) (closes : list f64) : panics unit :=
  match rounds with
  | O => Some tt
  | S rounds' =>
      let seed := lcg seed in
      let close := close_of seed in
      let closes := (closes ++ [close])%list in
      s ← Sma.push s close;
      assert (agree period s closes);; matches_naive rounds' period seed s closes
  end.

(** [rounds] is 1000 in the source. *)
Definition rolling_sma_matches_naive_recompute (rounds : nat) : panics unit :=
  matches_naive rounds 7 0x9E3779B97F4A7C15 (Sma.new 7) [].

Section files.
#[local] Existing Instance PlainText.plain_text.

Definition path : string := "/tmp/dir/p.state".

Definition load_position_returns_zero_for_missing_file : panics unit := feq (Persist.load_position ∅ true path) f_zero.

(** [persist_position(&path, x).unwrap()]. *)
Definition persisted (fs : Persist.files) (x : f64) : panics Persist.files :=
  match Persist.persist_position fs path x Persist.NoFault with (fs', Ok _) => Some fs' | (_, Err _) => None end.

Definition persist_and_load_roundtrip : panics unit :=
  fs ← persisted ∅ (f_lit 125 100);
  feq (Persist.load_position fs true path) (f_lit 125 100);;
  fs ← persisted fs (f_lit (-35) 10);
  feq (Persist.load_position fs true path) (f_lit (-35) 10).

Definition persist_uses_atomic_rename_pattern : panics unit :=
  fs ← persisted ∅ (z 7);
  assert (bool_decide (is_Some (fs !! path)));; assert (negb (bool_decide (is_Some (fs !! Persist.with_tmp path)))).
End files.

Theorem hub_tests_pass :
  Forall passes [risk_accepts_within_limits; risk_rejects_zero_qty; risk_rejects_qty_above_max; risk_rejects_position_limit;
    risk_rate_limit_kicks_in_after_max_per_second; risk_short_side_also_bounded; load_position_returns_zero_for_missing_file;
    persist_and_load_roundtrip; rolling_sma_matches_naive_recompute 100; rolling_sma_warms_up_after_exactly_period_closes;
    rolling_sma_zero_period_never_panics_or_produces_a_value; persist_uses_atomic_rename_pattern].
Proof. apply suite_passes. by vm_compute. Qed.
End HubTests.
