(* ===== verification/UnitThreads.v ===== *)
(** * Tests of the rings that need two threads, or the compiler
      ([src/src/shm.rs], tests)

    The producer and consumer tests of both rings, run on the threads of
    [Transfer.v] under a schedule that is an argument, with the assertions the
    test threads make; and the test of the header's layout, computed by the
    rules of [Layout.v].  The outcome is proved for every schedule: no
    assertion fails, and on a fair one the threads can be joined. *)

From S2P Require Import Prelude Float64 Candle RingBuffer Spsc Text Cold Store StoreSpec Shm Layout ShmDemo Transfer UnitCore.

#[local] Open Scope Z_scope.

Module ThreadTests.
Import ShmSys ShmRing.

Definition feed (n : nat) : list Candle := (fun i => RingTests.candle (Z.of_nat i)) <$> seq 0 n.

(** [assert_eq!(c.ts, i as i64)] for the [i]th candle received. *)
Definition in_sequence (got : list Candle) : bool := bool_decide (ts <$> got = Z.of_nat <$> seq 0 (length got)).

(** Whether both threads can be joined, if no assertion failed. *)
Definition spsc_push_pop_across_threads (n : nat) (es : list Threads.event) : panics bool :=
  ring ← RingTests.ring 64;
  s ← Threads.run (Threads.start ring (feed n)) es;
  assert (in_sequence (Threads.c_got (Threads.cons s)));;
  Some (Threads.joined s).

(** The slots of a fresh segment are zeroed. *)
Definition shm_writer_reader_roundtrip (n : nat) (es : list Threads.event) : panics bool :=
  '(_, header, w) ← create "/cs_test_rt" 64 (RingTests.posix false true);
  h ← header;
  writer ← match w with Ok w => Some w | Err _ => None end;
  opened ← open_reader "/cs_test_rt" 64 (RingTests.posix true false) [(ready h, false)] (hcapacity h);
  '(_, r) ← opened;
  reader ← match r with Ok r => Some r | Err _ => None end;
  s ← Threads.run (Threads.start (mkMapped writer reader (mkSegment h (replicate 64 candle_default))) (feed n)) es;
  let received := Threads.c_got (Threads.cons s) in
  assert (in_sequence received);;
  assert (negb (Threads.joined s) || (length received =? n)%nat);;
  Some (Threads.joined s).

Definition shm_header_size_and_offsets : panics unit :=
  assert (Layout.size_of Layout.ShmHeader =? 384);;
  assert (bool_decide (Layout.offset_of Layout.ShmHeader "head" = Some 128));;
  assert (bool_decide (Layout.offset_of Layout.ShmHeader "tail" = Some 256)).

Example header_test_passes : shm_header_size_and_offsets = Some tt.
Proof. reflexivity. Qed.

Lemma prefix_in_sequence n k : in_sequence (take k (feed n)) = true.
Proof.
  apply bool_decide_eq_true. unfold feed. rewrite length_take, length_fmap, length_seq, <- fmap_take, <- list_fmap_compose, take_seq.
  by rewrite Nat.min_comm.
Qed.

(** Either ring, under any schedule and under a fair one. *)
Lemma feed_received {M} `{!RingMem M Candle} `{!RingMemLaws M Candle} (m : M) n es :
  rm_ok m -> load_head m = 0 -> load_tail m = 0 ->
  exists s, Threads.run (Threads.start m (feed n)) es = Some s /\ in_sequence (Threads.c_got (Threads.cons s)) = true.
Proof.
  intros Hok Hh Ht. destruct (Threads.transfer_safe m (feed n) es Hok Hh Ht) as (s & Hr & _ & E). exists s. split; [done|].
  rewrite E. apply prefix_in_sequence.
Qed.

Lemma feed_joined {M} `{!RingMem M Candle} `{!RingMemLaws M Candle} (m : M) n rounds :
  rm_ok m -> load_head m = 0 -> load_tail m = 0 -> Forall Threads.fair rounds -> (6 * n <= length rounds)%nat ->
  exists s, Threads.run (Threads.start m (feed n)) (concat rounds) = Some s /\ Threads.joined s = true /\
    Threads.c_got (Threads.cons s) = feed n.
Proof. intros. apply Threads.transfer_live; try done. unfold feed. by rewrite length_fmap, length_seq. Qed.

(** The set-up both tests expect to succeed. *)
Definition rt_writer : ShmRingWriter := mkWriter 4096 (mapping_size 64) "/cs_test_rt" 64 0.
Definition rt_reader : ShmRingReader := mkReader 4096 (mapping_size 64) 64.
Definition rt_segment : Segment := mkSegment (mkHeader READY_MAGIC 64 0 0) (replicate 64 candle_default).

Lemma heap64 : exists ring, RingTests.ring 64 = Some ring /\ heap_ok ring /\ Spsc.head ring = 0 /\ Spsc.tail ring = 0.
Proof. eexists. split; [reflexivity|]. split; [|done]. split; [by exists 6|done]. Qed.

Lemma mapped64 : mapped_ok (mkMapped rt_writer rt_reader rt_segment).
Proof. split; try done. split; [by exists 6|done]. Qed.

Lemma roundtrip_runs n es :
  shm_writer_reader_roundtrip n es =
    s ← Threads.run (Threads.start (mkMapped rt_writer rt_reader rt_segment) (feed n)) es;
    assert (in_sequence (Threads.c_got (Threads.cons s)));;
    assert (negb (Threads.joined s) || (length (Threads.c_got (Threads.cons s)) =? n)%nat);;
    Some (Threads.joined s).
Proof. reflexivity. Qed.

(** The test of the heap ring passes under every schedule and ends under a
    fair one. *)
Theorem across_threads_outcome n es rounds :
  Forall Threads.fair rounds -> (6 * n <= length rounds)%nat ->
  (exists j, spsc_push_pop_across_threads n es = Some j) /\ spsc_push_pop_across_threads n (concat rounds) = Some true.
Proof.
  intros Hf Hn. unfold spsc_push_pop_across_threads. destruct heap64 as (ring & -> & Hok & Hh & Ht). cbn [mbind option_bind]. split.
  - destruct (feed_received ring n es) as (s & -> & E); [exact Hok|exact Hh|exact Ht|]. cbn [mbind option_bind]. rewrite E. by eexists.
  - destruct (feed_joined ring n rounds) as (s & -> & Hj & Hg); [exact Hok|exact Hh|exact Ht|exact Hf|exact Hn|]. cbn [mbind option_bind].
    rewrite Hg, Hj, <- (firstn_all (feed n)), prefix_in_sequence. done.
Qed.

(** So does the test of the mapped ring. *)
Theorem roundtrip_outcome n rounds :
  Forall Threads.fair rounds -> (6 * n <= length rounds)%nat -> shm_writer_reader_roundtrip n (concat rounds) = Some true.
Proof.
  intros Hf Hn. rewrite roundtrip_runs.
  destruct (feed_joined (mkMapped rt_writer rt_reader rt_segment) n rounds) as (s & -> & Hj & Hg);
    [exact mapped64|reflexivity|reflexivity|exact Hf|exact Hn|].
  cbn [mbind option_bind]. rewrite Hg, Hj. assert (Hl : length (feed n) = n) by (unfold feed; by rewrite length_fmap, length_seq).
  rewrite Hl, Nat.eqb_refl, <- (firstn_all (feed n)), prefix_in_sequence. done.
Qed.

End ThreadTests.
